(* ===== verification/_CoqProject ===== *)
-Q . S2P
Prelude.v
Status.v
Model.v
StateMachine.v
Clock.v
PingPool.v
Graph.v
Gate.v
Flatten.v
Scheduler.v
Json.v
SchedOps.v
SchedInv.v
SchedRun.v
SchedTick.v
SchedPaging.v
SchedReload.v
SchedStates.v
Checks.v
Protocols.v
ProtocolSpec.v
Ping.v
PingSpec.v
Runner.v
DnsCache.v
StateStore.v
Settings.v
PyStr.v
PyNum.v
NumText.v
Lexer.v
PyDict.v
Modern.v
ModernForest.v
ModernSpec.v
Legacy.v
LegacySpec.v
ConfigRun.v
Convert.v
ConvertText.v
ConvertGlobals.v
ConvertSpec.v
ConvertLink.v
ConvertMain.v
JsonOut.v
Control.v
ControlSpec.v
ControlTools.v
Notify.v
Detect.v
Privilege.v
Cli.v
ConfigTyped.v
HtmlText.v
StatusPage.v
StatusPageSpec.v
Daemon.v
DaemonSpec.v
DaemonStop.v
UText.v
TextWrap.v
Guide.v
GuideSpec.v
