(* ===== verification/Prelude.v ===== *)
(** * Psysmon: a verification library for the psysmon monitoring daemon

    psysmon is a dependency-aware network monitor.  A configuration is a graph of nodes, each
    checked by one protocol probe; a scheduler runs the checks of all nodes on one asyncio
    event loop, keeps an up/down state per node, suppresses the checks of nodes behind a down
    parent, pages a contact when a node has failed often enough and again when it recovers,
    writes its state to disk, publishes a status page, and answers an operator on a local
    control channel.

    ** The program and the files that model it

    - src/psysmon/status.py, config/model.py: [Status], [Model].  Enumerations, [Node] and
      [NodeState]; a node has an identity ([nid]) because children are shared by reference.
    - engine/state.py: [StateMachine].  [apply_result] and [maybe_repage], pure functions on
      [NodeState].
    - engine/scheduler.py: [Graph] (well-formed stores and the search budget), [Gate]
      ([_reachable], [_eligible]), [Flatten] ([_flatten]), [Scheduler] (the state: objects by
      identity, heap, tasks, semaphore, pages sent; [tick], the check task cut at its awaits
      into [check_start], [check_returned], [check_raised], [send_returned], [send_raised]),
      [SchedOps] ([__init__], [node_states], [ack], [set_note], [export_state],
      [import_state], [reload]).  Their theorems are in [SchedInv] (the invariant [WF]),
      [SchedRun] (the step relation [step], reachability [reached]), [SchedTick],
      [SchedPaging], [SchedReload] and [SchedStates] (invariants of a node's state, by the
      class [StateInv]).
    - checks/base.py and the protocol checks: [Checks] (a state and exception monad over the
      peer's stream, the transport and the resolver), [Protocols] (every checker and the
      dispatch table [_CHECKERS]), [ProtocolSpec] (their theorems, through a small triple
      logic).
    - checks/ping.py: [PingPool] (the raw sockets and their life cycle), [Ping] (framing,
      checksum, demultiplexing, both probe loops), [PingSpec] (their theorems).
    - [_default_runner], [_ctx_for] and [_system_resolve], which join the scheduler to the checks:
      [Runner].
    - engine/dnscache.py: [DnsCache].  engine/statestore.py: [StateStore].
    - config/settings.py: [Settings] (defaults, translation, merging), [Cli] (the option table
      and argparse on it).  config/detect.py: [Detect].  [ConfigTyped]: the overrides of both
      parsers have the types of the fields.
    - config/modern.py: [Lexer] (the tokenizer), [Modern] (the parser, a state and exception
      monad over the remaining tokens; objects, groups, defaults, forest), with its theorems
      in [ModernForest] (linking and cycle search) and [ModernSpec].
    - config/legacy.py: [Legacy] (the line-based parser; nested blocks as trees, numbered in
      pre-order by [layouts]), with its theorems in [LegacySpec].
    - config/convert.py: [Convert] (the serializer), with [ConvertText] (the text it writes
      and its tokens), [ConvertGlobals], [ConvertSpec] and [ConvertLink] for the round trip, and
      [ConvertMain] for its command line.
    - The parsers composed with the scheduler: [ConfigRun].
    - timefmt.py, notify/: [Notify].  output/jsonout.py: [JsonOut].
    - output/statuspage.py: [HtmlText] (code points, UTF-8, escaping, a scanner for tags),
      [StatusPage] (both pages and their publication), [StatusPageSpec].
    - daemon.py, and [run], [stop] and [drain] of the scheduler: [Daemon] (start-up as a
      function, serving as the step relation [dstep] over everything the tasks share), with
      its theorems in [DaemonSpec] and [DaemonStop].
    - privilege.py: [Privilege].  engine/clock.py: [Clock].
    - tools/build_guide.py, which builds the user guide: [Guide] (both editions and the
      command), with its theorems in [GuideSpec]; [UText] (strings of any code point, regular
      expressions) and [TextWrap] (the library that fills lines) are what it is written with.
    - control/server.py, auth.py: [Control], with its theorems in [ControlSpec];
      control/client.py, token.py: [ControlTools].
    - Python's own values: [Json] (what json.loads yields, numbers, exceptions), [PyStr]
      (string methods), [PyNum] (int and float of a string, rounding to binary64, repr,
      isdigit, ipaddress), [NumText] (numbers printed and read back) and [PyDict] (insertion-
      ordered dicts); this file holds what all share.

    A configuration text goes through [Detect.detect] to one of the parsers, whose store and
    roots the scheduler is built from or reloaded with.  The scheduler calls the state
    machine on every counted result, the gate on every
    dispatch and again when a result arrives, the ping pool on construction and reload; the
    state store persists what [export_state] returns and feeds [import_state]; the control
    server acts on the scheduler only through [node_states], [ack], [set_note] and the reload
    flag; the notifier is what a [TSending] task awaits.  The daemon puts all of them
    together: [build] makes the scheduler from the command line, the configuration and the
    state file, and [dstep] interleaves the loop, the checks, the channel, the signals and
    the helper tasks that reload, save and publish.

    ** What the theorems show

    - Scheduling: no node is lost or queued twice in any run, over every interleaving of
      ticks, check results, sends, operator commands and reloads; the tick loop ends and is
      the simultaneous update of the due nodes; the sleep is exact; the concurrency cap
      holds.
    - Dependencies: flattening visits every node once and records exactly its ping parents;
      the gate search decides any-path reachability, also on cyclic gates.
    - Paging: the state machine refines the history of results; exactly when a page is sent;
      re-pages are spaced; a result that has become stale has no effect.
    - Persistence and reload: a reload carries the live state; export and import are
      inverse; a save is atomic at every moment and loads back.
    - Probes: every check the scheduler starts concludes with a status code whatever the
      network does (with one exception, a ping node whose name cannot be encoded); a bad
      credential is only reported on an explicit rejection; ping replies are authentic and
      the loss-tolerant verdict counts exactly the timely echoes; raw sockets never leak.
    - Control channel: no mutation without the token, no credential in any reply, no
      listening socket without loopback or TLS, bounded connections, exact effects.
    - Configuration: the lexer ends, and exactly which characters stop it; both parsers
      return on every other text, and which exceptions they raise; the nodes they return are
      well-formed, the modern dependency graph is acyclic and holds every declared edge that
      closes no cycle, the legacy one consists of trees; what they return can be scheduled;
      a converted legacy file reads back as the same forest (on the files the modern format
      can express: [representable] asks for texts without a double quote, ports up to 65535,
      thresholds of at least one, ordered ping counts and intervals that print exactly).
    - The status page: every visible node is listed once, in its section; no text of the
      configuration or of an operator reaches the markup; a publication is atomic.
    - The daemon: start-up always ends in one of the listed outcomes; over every run the
      scheduler keeps its invariants and both files are whole; a stop drains and ends; the
      last flush is exact, and the next start resumes from it.
    - Privileges: once dropped they cannot be regained.
    - The guide: the text edition says what the chapters say and is tidy; every chapter has a
      page between its neighbours; links are rewritten and characters folded as one pass.
    - Names, settings, paging text: single-flight and fresh DNS answers, precedence of
      settings, the rendered page, the notifier's contract.

    ** Bounds and fuel

    Loops of the source that are not structural take fuel: [reachable_loop], [flatten_loop],
    [tick_loop], the reader loops, the probe loops, and in the parsers [tokenize_loop],
    [statements], [block_loop], [reaches_loop], [parse_block] and [fresh_name]; in the guide
    [md_lines] and [_wrap_chunks].  Each caller
    passes an amount that is proved sufficient (the gate entries not yet expanded, the child
    edges not yet followed, the heap entries on entry, the lines of the stream, the attempts,
    the characters, tokens or lines left, the names in use, the characters and chunks left), so
    a result is always produced and the fuel is never what a theorem depends on.  The lexer is the exception: it can loop
    for ever, and [tokenize_terminates] says when.  Ports, ICMP fields and
    checksums are kept at their width with the wrap-around written out.

    ** Modelling decisions

    - Coroutines are cut at their awaits: each definition is what runs without yielding, and
      the step relation interleaves them in any order.  What the operating system, the
      network, the clock, a library or the peer answers is an argument of the step.
    - Clock readings and durations are finite floats, modelled by their rational value; the
      rounding of float arithmetic is not.  Conversion of an integer to a float is rounded
      and overflows as in Python.
    - Strings are sequences of 8-bit characters, read as the Unicode code points 0 to 255.
      The status page and the guide have characters beyond them, so their text is a list of
      code points; in the literals of pages a backquote stands for a double quote.  Which code
      points are letters or digits is an argument ([UnicodeDb]).
    - The platform is POSIX.  The state file and the status file are on file systems of their
      own, whose every intermediate state during a write is kept.
    - The worker thread that renders the page shares the states with the loop: it publishes
      the nodes it was given in whatever states it reads, as a step of its own.
    - argparse works on the list of option occurrences; how it splits abbreviated options and
      glued values is not modelled.  Intervals that are not finite stop the model ([finite]).
    - The text of a JSON document is identified with the value it denotes; the
      interpreter's recursion and integer-digit limits are not modelled.
    - Logging has no effect and is left out, except for the warnings of flattening and
      reload, which are part of the state.

    ** Not modelled

    The system calls of [_daemonize] and the handlers of the logging module appear as where
    the log goes ([log_destination]).  The Markdown library and the layout of argparse's help
    are arguments of the guide, and so is what the clocks read.  The packaged assets and the
    version metadata are data files.  What else is left are the construction of TLS contexts
    and of the HTTP client, the default notifier that sends nothing, signal registration on a
    loop without signals, accessors, loggers, type aliases and the [__main__] guards. *)

From Stdlib Require Export ZArith QArith Lqa Lia.
From stdpp Require Export base tactics list gmap strings pretty.

#[global] Set Default Goal Selector "!".

Declare Scope psy_scope.
Delimit Scope psy_scope with psy.
#[global] Open Scope psy_scope.
#[global] Open Scope Z_scope.

(** ** Record update

    The source mutates dataclass fields in place.  [r <| f := v |>] is the
    record with field [f] replaced; each record of the development declares one
    [SetField] instance per mutable field. *)
Class SetField {R T : Type} (proj : R → T) := set_field : (T → T) → R → R.
Arguments set_field {R T} proj {_} _ _ /.

Notation "r <| f := v |>" := (set_field f (λ _, v) r)
  (at level 1, f at level 40, v at level 200, left associativity) : psy_scope.

(** ** Results of code that may raise

    [Raise e] is a Python exception [e] that leaves the function. *)
Inductive res (E A : Type) : Type :=
| Ok (a : A)
| Raise (e : E).
Arguments Ok {E A} a.
Arguments Raise {E A} e.

Definition res_bind {E A B} (m : res E A) (k : A → res E B) : res E B :=
  match m with Ok a => k a | Raise e => Raise e end.

Notation "'let!' x ':=' m 'in' k" := (res_bind m (λ x, k))
  (at level 10, x pattern, m at level 100, k at level 200) : psy_scope.

Definition is_ok {E A} (m : res E A) : bool :=
  match m with Ok _ => true | Raise _ => false end.

Lemma res_bind_ok {E A B} (m : res E A) (k : A → res E B) b :
  res_bind m k = Ok b ↔ ∃ a, m = Ok a ∧ k a = Ok b.
Proof. destruct m; simpl; naive_solver. Qed.

(** ** Booleans on [Z] and [Q]

    Clock readings and durations are Python floats; finite ones are rational
    numbers and are modelled as [Q], compared by value. *)
Definition Qltb (x y : Q) : bool := negb (Qle_bool y x).

Definition Qeqb (x y : Q) : bool := Qeq_bool x y.

(** Python's two-argument [max]: the first argument unless the second is greater. *)
Definition py_maxQ (x y : Q) : Q := if Qltb x y then y else x.

(** Python's two-argument [min]: the first argument unless the second is smaller. *)
Definition py_minQ (x y : Q) : Q := if Qltb y x then y else x.

Lemma Qltb_spec x y : Qltb x y = true ↔ (x < y)%Q.
Proof.
  unfold Qltb. rewrite negb_true_iff, <- not_true_iff_false, Qle_bool_iff.
  split; [apply Qnot_le_lt | apply Qlt_not_le].
Qed.

Lemma Qltb_nspec x y : Qltb x y = false ↔ (y <= x)%Q.
Proof. unfold Qltb. rewrite negb_false_iff. apply Qle_bool_iff. Qed.

Lemma Qle_bool_nspec x y : Qle_bool x y = false ↔ (y < x)%Q.
Proof.
  rewrite <- not_true_iff_false, Qle_bool_iff.
  split; [apply Qnot_le_lt | apply Qlt_not_le].
Qed.

Lemma Qeqb_spec x y : Qeqb x y = true ↔ (x == y)%Q.
Proof. apply Qeq_bool_iff. Qed.

Lemma Qeqb_nspec x y : Qeqb x y = false ↔ ¬ (x == y)%Q.
Proof. rewrite <- Qeqb_spec. symmetry. apply not_true_iff_false. Qed.

Lemma Qeqb_refl x : Qeqb x x = true.
Proof. apply Qeqb_spec. reflexivity. Qed.

Lemma py_maxQ_l x y : (x <= py_maxQ x y)%Q.
Proof.
  unfold py_maxQ. destruct (Qltb x y) eqn:E; [|lra].
  apply Qltb_spec in E. lra.
Qed.

Lemma py_maxQ_r x y : (y <= py_maxQ x y)%Q.
Proof.
  unfold py_maxQ. destruct (Qltb x y) eqn:E; [lra|].
  by apply Qltb_nspec in E.
Qed.

(** ** Automation

    [psy_bool] is the database of boolean/propositional views, [psy] the database
    of component lemmas that close side conditions. *)
Create HintDb psy.
Create Rewrite HintDb psy_bool.
Create Rewrite HintDb psy_sched.

#[export] Hint Rewrite Qltb_spec Qltb_nspec Qle_bool_iff Qle_bool_nspec Qeqb_spec
  Qeqb_nspec Z.ltb_lt Z.ltb_ge Z.leb_le Z.leb_gt Z.eqb_eq Z.eqb_neq
  Nat.ltb_lt Nat.ltb_ge Nat.leb_le Nat.leb_gt Nat.eqb_eq Nat.eqb_neq
  andb_true_iff andb_false_iff orb_true_iff orb_false_iff
  negb_true_iff negb_false_iff bool_decide_eq_true bool_decide_eq_false
  : psy_bool.

#[export] Hint Resolve py_maxQ_l py_maxQ_r Qeqb_refl : psy.

(** Turns every boolean test of the context and the goal into a proposition. *)
Ltac to_prop := autorewrite with psy_bool in *.

(** Case analysis on the first [match]/[if] scrutinee of the goal, keeping its
    equation; [break_all] iterates it and closes the easy branches. *)
Ltac break_goal :=
  match goal with
  | |- context [match ?x with _ => _ end] =>
      lazymatch x with
      | context [match _ with _ => _ end] => fail
      | _ => let E := fresh "E" in destruct x eqn:E
      end
  end.

Ltac break_hyp H :=
  match type of H with
  | context [match ?x with _ => _ end] =>
      lazymatch x with
      | context [match _ with _ => _ end] => fail
      | _ => let E := fresh "E" in destruct x eqn:E
      end
  end.

Ltac break_all := repeat (break_goal; simplify_eq/=; try done).
