(* ===== verification/Status.v ===== *)
(** * Status codes (src/psysmon/status.py)

    [Status] is the [IntEnum] of check results.  As in Python, a member is used
    wherever an integer is expected ([status_value] is a coercion), while a code
    travelling through the engine is a plain integer: a restored state file may
    carry any [int]. *)
From S2P Require Import Prelude.

Inductive Status : Type :=
| OK | CONN_REFUSED | NET_UNREACH | HOST_DOWN | TIMED_OUT | NO_DNS | UNPINGABLE
| THROTTLED | NO_AUTH | NO_RESPONSE | IN_PROGRESS | BAD_AUTH | BAD_RESPONSE
| X500_WEDGED | DEGRADED.

#[export] Instance Status_eq_dec : EqDecision Status.
Proof. solve_decision. Defined.

Definition status_value (s : Status) : Z :=
  match s with
  | OK => 0 | CONN_REFUSED => 1 | NET_UNREACH => 2 | HOST_DOWN => 3
  | TIMED_OUT => 4 | NO_DNS => 5 | UNPINGABLE => 6 | THROTTLED => 7
  | NO_AUTH => 8 | NO_RESPONSE => 9 | IN_PROGRESS => 10 | BAD_AUTH => 11
  | BAD_RESPONSE => 12 | X500_WEDGED => 13 | DEGRADED => 14
  end.
Coercion status_value : Status >-> Z.

Definition all_statuses : list Status :=
  [OK; CONN_REFUSED; NET_UNREACH; HOST_DOWN; TIMED_OUT; NO_DNS; UNPINGABLE;
   THROTTLED; NO_AUTH; NO_RESPONSE; IN_PROGRESS; BAD_AUTH; BAD_RESPONSE;
   X500_WEDGED; DEGRADED].

(** The dict of display strings: its lookup is by integer value. *)
Definition _STATUS_TEXT (value : Z) : option string :=
  match value with
  | 0 => Some "up" | 1 => Some "Conn Ref" | 2 => Some "Net Unrch"
  | 3 => Some "Host Down" | 4 => Some "Conn Timed Out" | 5 => Some "No dns entry"
  | 6 => Some "Unpingable" | 7 => Some "Thrttl" | 8 => Some "No Auth"
  | 9 => Some "No Srvr Resp" | 10 => Some "Conn in prog" | 11 => Some "Bad Auth"
  | 12 => Some "Bad Resp" | 13 => Some "Wedged" | 14 => Some "Degraded"
  | _ => None
  end.

Definition errtostr (value : Z) : string := default "ERROR" (_STATUS_TEXT value).

Definition is_up (value : Z) : bool := value =? OK.

Definition is_reachable (value : Z) : bool := (value =? OK) || (value =? DEGRADED).

Lemma is_up_spec v : is_up v = true ↔ v = OK.
Proof. apply Z.eqb_eq. Qed.

Lemma is_up_nspec v : is_up v = false ↔ v ≠ OK.
Proof. apply Z.eqb_neq. Qed.

Lemma is_up_reachable v : is_up v = true → is_reachable v = true.
Proof. unfold is_up, is_reachable. by intros ->. Qed.

#[export] Instance status_value_inj : Inj (=) (=) status_value.
Proof. intros [] []; simpl; congruence. Qed.

#[export] Hint Rewrite is_up_spec is_up_nspec : psy_bool.

Lemma all_statuses_complete (s : Status) : s ∈ all_statuses.
Proof. destruct s; set_solver. Qed.

(** [errtostr] names every member distinctly, and never by the fallback text. *)
Lemma errtostr_distinct (s t : Status) :
  errtostr s = errtostr t → s = t.
Proof. destruct s, t; done. Qed.

Lemma errtostr_member (s : Status) : errtostr s ≠ "ERROR".
Proof. by destruct s. Qed.
