(* ===== verification/Model.v ===== *)
(** * The data model (src/psysmon/config/model.py)

    Check types, the static [Node] and the mutable [NodeState].  Python objects
    have identity: a [Node] is held in a store indexed by [nid], and its
    [children] are the identities of other nodes, so that a node shared by several
    parents is one node. *)
From S2P Require Import Prelude Status.

Inductive CheckType : Type :=
| PING | PING6 | TCP | UDP | SMTP | POP3 | POP3S | IMAP | IMAPS | DNS | HTTP | HTTPS
| SSH | MYSQL | FTP | FTPS | TELNET.

#[export] Instance CheckType_eq_dec : EqDecision CheckType.
Proof. solve_decision. Defined.

Definition all_types : list CheckType :=
  [PING; PING6; TCP; UDP; SMTP; POP3; POP3S; IMAP; IMAPS; DNS; HTTP; HTTPS;
   SSH; MYSQL; FTP; FTPS; TELNET].

(** The [StrEnum] value, i.e. the config keyword. *)
Definition ct_value (t : CheckType) : string :=
  match t with
  | PING => "ping" | PING6 => "ping6" | TCP => "tcp" | UDP => "udp"
  | SMTP => "smtp" | POP3 => "pop3" | POP3S => "pop3s" | IMAP => "imap"
  | IMAPS => "imaps" | DNS => "dns" | HTTP => "http" | HTTPS => "https"
  | SSH => "ssh" | MYSQL => "mysql" | FTP => "ftp" | FTPS => "ftps"
  | TELNET => "telnet"
  end.

Definition DEFAULT_PORT (t : CheckType) : option Z :=
  match t with
  | PING | PING6 | TCP | UDP => None
  | SMTP => Some 25 | POP3 => Some 110 | POP3S => Some 995 | IMAP => Some 143
  | IMAPS => Some 993 | DNS => Some 53 | HTTP => Some 80 | HTTPS => Some 443
  | SSH => Some 22 | MYSQL => Some 3306 | FTP => Some 21 | FTPS => Some 990
  | TELNET => Some 23
  end.

Definition _DISPLAY_NAME (t : CheckType) : string :=
  match t with
  | DNS => "authdns" | HTTP => "www" | t => ct_value t
  end.

Definition type_to_name (check_type : CheckType) : string := _DISPLAY_NAME check_type.

Definition is_ping_type (check_type : CheckType) : bool :=
  match check_type with PING | PING6 => true | _ => false end.

Definition CONTACT_ON_CHOICES : list string := ["down"; "up"; "both"; "none"].

Definition SOURCE_AUTO : string := "auto".

(** Identity of a [Node] object. *)
Abbreviation nid := nat.

Record Node : Type := MkNode {
  hostname : string;
  check_type : CheckType;
  port : Z;
  label : string;
  contact : string;
  group : string;
  contact_on : string;
  source : option string;
  username : string;
  password : string;
  url : string;
  url_text : option string;
  node_max_down : Z;
  interval : option Q;
  send_pings : option Z;
  min_pings : option Z;
  children : list nid
}.

(** The dataclass constructor with only [hostname] and [check_type] given. *)
Definition new_node (h : string) (t : CheckType) : Node :=
  {| hostname := h; check_type := t; port := 0; label := ""; contact := "";
     group := ""; contact_on := ""; source := None; username := ""; password := "";
     url := ""; url_text := None; node_max_down := 2; interval := None;
     send_pings := None; min_pings := None; children := [] |}.

Record NodeState : Type := MkNodeState {
  max_down : Z;
  lastcheck : Z;
  downct : Z;
  contacted : bool;
  lastcontacted : Q;
  deathtime : Q;
  last_up : Q;
  suppressed : bool;
  acked : bool;
  note : option string;
  down_parents : list string
}.

(** [NodeState(max_down=m, last_up=w)]: every other field at its default. *)
Definition new_state (m : Z) (w : Q) : NodeState :=
  {| max_down := m; lastcheck := 0; downct := 0; contacted := false;
     lastcontacted := 0; deathtime := 0; last_up := w; suppressed := false;
     acked := false; note := None; down_parents := [] |}.

(** ** Field updates *)
#[export] Instance set_port : SetField port := λ f n,
  let '(MkNode h t p l c g co s u pw ur ut m i sp mp ch) := n in
  MkNode h t (f p) l c g co s u pw ur ut m i sp mp ch.
#[export] Instance set_label : SetField label := λ f n,
  let '(MkNode h t p l c g co s u pw ur ut m i sp mp ch) := n in
  MkNode h t p (f l) c g co s u pw ur ut m i sp mp ch.
#[export] Instance set_contact : SetField contact := λ f n,
  let '(MkNode h t p l c g co s u pw ur ut m i sp mp ch) := n in
  MkNode h t p l (f c) g co s u pw ur ut m i sp mp ch.
#[export] Instance set_group : SetField group := λ f n,
  let '(MkNode h t p l c g co s u pw ur ut m i sp mp ch) := n in
  MkNode h t p l c (f g) co s u pw ur ut m i sp mp ch.
#[export] Instance set_contact_on : SetField contact_on := λ f n,
  let '(MkNode h t p l c g co s u pw ur ut m i sp mp ch) := n in
  MkNode h t p l c g (f co) s u pw ur ut m i sp mp ch.
#[export] Instance set_source : SetField source := λ f n,
  let '(MkNode h t p l c g co s u pw ur ut m i sp mp ch) := n in
  MkNode h t p l c g co (f s) u pw ur ut m i sp mp ch.
#[export] Instance set_username : SetField username := λ f n,
  let '(MkNode h t p l c g co s u pw ur ut m i sp mp ch) := n in
  MkNode h t p l c g co s (f u) pw ur ut m i sp mp ch.
#[export] Instance set_password : SetField password := λ f n,
  let '(MkNode h t p l c g co s u pw ur ut m i sp mp ch) := n in
  MkNode h t p l c g co s u (f pw) ur ut m i sp mp ch.
#[export] Instance set_url : SetField url := λ f n,
  let '(MkNode h t p l c g co s u pw ur ut m i sp mp ch) := n in
  MkNode h t p l c g co s u pw (f ur) ut m i sp mp ch.
#[export] Instance set_url_text : SetField url_text := λ f n,
  let '(MkNode h t p l c g co s u pw ur ut m i sp mp ch) := n in
  MkNode h t p l c g co s u pw ur (f ut) m i sp mp ch.
#[export] Instance set_node_max_down : SetField node_max_down := λ f n,
  let '(MkNode h t p l c g co s u pw ur ut m i sp mp ch) := n in
  MkNode h t p l c g co s u pw ur ut (f m) i sp mp ch.
#[export] Instance set_interval : SetField interval := λ f n,
  let '(MkNode h t p l c g co s u pw ur ut m i sp mp ch) := n in
  MkNode h t p l c g co s u pw ur ut m (f i) sp mp ch.
#[export] Instance set_send_pings : SetField send_pings := λ f n,
  let '(MkNode h t p l c g co s u pw ur ut m i sp mp ch) := n in
  MkNode h t p l c g co s u pw ur ut m i (f sp) mp ch.
#[export] Instance set_min_pings : SetField min_pings := λ f n,
  let '(MkNode h t p l c g co s u pw ur ut m i sp mp ch) := n in
  MkNode h t p l c g co s u pw ur ut m i sp (f mp) ch.
#[export] Instance set_children : SetField children := λ f n,
  let '(MkNode h t p l c g co s u pw ur ut m i sp mp ch) := n in
  MkNode h t p l c g co s u pw ur ut m i sp mp (f ch).

#[export] Instance set_lastcheck : SetField lastcheck := λ f s,
  let '(MkNodeState m l d c lc dt lu su a n dp) := s in
  MkNodeState m (f l) d c lc dt lu su a n dp.
#[export] Instance set_downct : SetField downct := λ f s,
  let '(MkNodeState m l d c lc dt lu su a n dp) := s in
  MkNodeState m l (f d) c lc dt lu su a n dp.
#[export] Instance set_contacted : SetField contacted := λ f s,
  let '(MkNodeState m l d c lc dt lu su a n dp) := s in
  MkNodeState m l d (f c) lc dt lu su a n dp.
#[export] Instance set_lastcontacted : SetField lastcontacted := λ f s,
  let '(MkNodeState m l d c lc dt lu su a n dp) := s in
  MkNodeState m l d c (f lc) dt lu su a n dp.
#[export] Instance set_deathtime : SetField deathtime := λ f s,
  let '(MkNodeState m l d c lc dt lu su a n dp) := s in
  MkNodeState m l d c lc (f dt) lu su a n dp.
#[export] Instance set_last_up : SetField last_up := λ f s,
  let '(MkNodeState m l d c lc dt lu su a n dp) := s in
  MkNodeState m l d c lc dt (f lu) su a n dp.
#[export] Instance set_suppressed : SetField suppressed := λ f s,
  let '(MkNodeState m l d c lc dt lu su a n dp) := s in
  MkNodeState m l d c lc dt lu (f su) a n dp.
#[export] Instance set_acked : SetField acked := λ f s,
  let '(MkNodeState m l d c lc dt lu su a n dp) := s in
  MkNodeState m l d c lc dt lu su (f a) n dp.
#[export] Instance set_note_field : SetField note := λ f s,
  let '(MkNodeState m l d c lc dt lu su a n dp) := s in
  MkNodeState m l d c lc dt lu su a (f n) dp.
#[export] Instance set_down_parents : SetField down_parents := λ f s,
  let '(MkNodeState m l d c lc dt lu su a n dp) := s in
  MkNodeState m l d c lc dt lu su a n (f dp).

(** ** Facts the other components use *)

(** Distinct types have distinct keywords, so matching a node by the type's string
    (the control channel, the state file) is matching it by its type. *)
#[export] Instance ct_value_inj : Inj (=) (=) ct_value.
Proof. intros [] []; simpl; congruence. Qed.

Lemma all_types_complete (t : CheckType) : t ∈ all_types.
Proof. destruct t; set_solver. Qed.

Lemma DEFAULT_PORT_range t p : DEFAULT_PORT t = Some p → 1 <= p <= 65535.
Proof. destruct t; intros [= <-]; lia. Qed.

#[export] Hint Resolve DEFAULT_PORT_range all_types_complete : psy.
