(* ===== verification/StateMachine.v ===== *)
(** * The per-node up/down state machine (src/psysmon/engine/state.py)

    [apply_result] mutates a [NodeState]; here it returns the new state with the
    [Transition].  The theorems relate the counters to the history of results,
    state when a page is asked for, and fix who may touch [contacted]. *)
From S2P Require Import Prelude Status Model.

Inductive PageIntent : Type := PI_NONE | PI_DOWN | PI_RECOVERY.

#[export] Instance PageIntent_eq_dec : EqDecision PageIntent.
Proof. solve_decision. Defined.

Record Transition : Type := MkTransition {
  intent : PageIntent;
  state_changed : bool
}.

(** The tuple [(lastcheck, downct, contacted, deathtime)] compared before/after. *)
Definition shown_neqb (s s' : NodeState) : bool :=
  negb ((lastcheck s =? lastcheck s') && (downct s =? downct s')
        && eqb (contacted s) (contacted s') && Qeqb (deathtime s) (deathtime s')).

Definition apply_result (state : NodeState) (result : Z) (now_wall : Q)
    (page_on_degraded : bool) : NodeState * Transition :=
  if (result =? DEGRADED) && negb page_on_degraded then
    let state' := state <| lastcheck := DEGRADED |> in
    (state', MkTransition PI_NONE (shown_neqb state state'))
  else
  let '(state', i) :=
    if result =? NO_DNS then
      let state1 :=
        if negb (lastcheck state =? NO_DNS)
        then state <| deathtime := now_wall |> else state in
      (state1 <| lastcheck := NO_DNS |>, PI_NONE)
    else if is_up result then
      if negb (is_up (lastcheck state)) then
        let was_contacted := contacted state in
        let state1 := state <| lastcheck := OK |> <| last_up := now_wall |>
                            <| downct := 0 |> <| acked := false |> in
        if was_contacted then (state1 <| contacted := false |>, PI_RECOVERY)
        else (state1, PI_NONE)
      else (state, PI_NONE)
    else if result =? lastcheck state then
      let state1 := state <| downct := downct state + 1 |> in
      (state1, if (max_down state1 <=? downct state1) && negb (contacted state1)
               then PI_DOWN else PI_NONE)
    else
      let state1 := state <| downct := 1 |> <| lastcheck := result |>
                          <| deathtime := now_wall |> in
      (state1, if (max_down state1 <=? downct state1) && negb (contacted state1)
               then PI_DOWN else PI_NONE)
  in (state', MkTransition i (shown_neqb state state')).

Definition maybe_repage (state : NodeState) (now_mono pageinterval_s : Q) : bool :=
  if negb (contacted state) || Qle_bool pageinterval_s 0 then false
  else Qltb pageinterval_s (now_mono - lastcontacted state).

(** ** Classification of results *)

(** A result that counts as a failure and escalates: not up, not a resolver
    failure, and not a merely informational [DEGRADED]. *)
Definition hard_failure (pod : bool) (r : Z) : bool :=
  negb (is_up r) && negb (r =? NO_DNS) && negb ((r =? DEGRADED) && negb pod).

Lemma hard_failure_spec pod r :
  hard_failure pod r = true ↔
  r ≠ OK ∧ r ≠ NO_DNS ∧ (r = DEGRADED → pod = true).
Proof.
  unfold hard_failure. to_prop. destruct pod; naive_solver.
Qed.

(** The rows of the module's transition table, as equations of the new state.  They
    are the only unfoldings of [apply_result] the other proofs use. *)
Lemma apply_degraded_soft s t :
  (apply_result s DEGRADED t false).1 = s <| lastcheck := DEGRADED |> ∧
  intent (apply_result s DEGRADED t false).2 = PI_NONE.
Proof. done. Qed.

Lemma apply_no_dns s t pod :
  (apply_result s NO_DNS t pod).1 =
    (if lastcheck s =? NO_DNS then s else s <| deathtime := t |>)
      <| lastcheck := NO_DNS |> ∧
  intent (apply_result s NO_DNS t pod).2 = PI_NONE.
Proof.
  unfold apply_result. simpl. by destruct (lastcheck s =? 5).
Qed.

Lemma apply_up s t pod :
  is_up (lastcheck s) = false →
  (apply_result s OK t pod).1 =
    s <| lastcheck := OK |> <| last_up := t |> <| downct := 0 |> <| acked := false |>
      <| contacted := false |> ∧
  intent (apply_result s OK t pod).2 = if contacted s then PI_RECOVERY else PI_NONE.
Proof.
  intros H. unfold apply_result. simpl. rewrite H. simpl.
  by destruct s as [m l d [] ? ? ? ? ? ? ?].
Qed.

Lemma apply_still_up s t pod :
  lastcheck s = OK → (apply_result s OK t pod).1 = s ∧
  intent (apply_result s OK t pod).2 = PI_NONE.
Proof. intros H. unfold apply_result. simpl. by rewrite H. Qed.

Lemma apply_hard s r t pod :
  hard_failure pod r = true →
  (apply_result s r t pod).1 =
    (if r =? lastcheck s then s <| downct := downct s + 1 |>
     else s <| downct := 1 |> <| lastcheck := r |> <| deathtime := t |>) ∧
  intent (apply_result s r t pod).2 =
    (if (max_down s <=? downct (apply_result s r t pod).1) && negb (contacted s)
     then PI_DOWN else PI_NONE).
Proof.
  intros (H0 & H5 & H14)%hard_failure_spec. unfold apply_result.
  replace ((r =? DEGRADED) && negb pod) with false; last first.
  { symmetry. to_prop. destruct (decide (r = DEGRADED)); naive_solver. }
  replace (r =? NO_DNS) with false by (symmetry; by to_prop).
  replace (is_up r) with false by (symmetry; by to_prop).
  destruct s as [m l d c ? ? ? ? ? ? ?]. simpl. by destruct (r =? l).
Qed.

(** Every result falls in one row. *)
Lemma result_cases pod (r : Z) :
  (r = DEGRADED ∧ pod = false) ∨ r = NO_DNS ∨ r = OK ∨ hard_failure pod r = true.
Proof.
  rewrite hard_failure_spec.
  destruct (decide (r = NO_DNS)); [auto|]. destruct (decide (r = OK)); [auto|].
  destruct (decide (r = DEGRADED)), pod; naive_solver.
Qed.

Ltac result_case pod r :=
  destruct (result_cases pod r) as [[-> ->]|[->|[->|?Hhard]]].

(** ** Histories *)

(** The result stream of one node: each entry is a result code with the wall-clock
    time it was applied at, oldest first. *)
Definition apply_all (pod : bool) (s : NodeState) (h : list (Z * Q)) : NodeState :=
  foldl (λ s e, (apply_result s e.1 e.2 pod).1) s h.

(** Length of the run of [r] at the end of a history (the argument is the history
    newest first), and the time of that run's first entry. *)
Fixpoint run_length (r : Z) (h : list (Z * Q)) : Z :=
  match h with
  | (r', _) :: h' => if r' =? r then 1 + run_length r h' else 0
  | [] => 0
  end.

Fixpoint run_start (r : Z) (t : Q) (h : list (Z * Q)) : Q :=
  match h with
  | (r', t') :: h' => if r' =? r then run_start r t' h' else t
  | [] => t
  end.

Lemma apply_all_snoc pod s h e :
  apply_all pod s (h ++ [e]) = (apply_result (apply_all pod s h) e.1 e.2 pod).1.
Proof. unfold apply_all. by rewrite foldl_app. Qed.

(** What the fields mean after any history from a fresh node: [lastcheck] is the
    last result; if it is a hard failure then [downct] and [deathtime] are the
    length and the start of the run of that failure at the end of the history. *)
Lemma history_inv pod m w h :
  let s := apply_all pod (new_state m w) h in
  max_down s = m ∧
  lastcheck s = match last h with Some e => e.1 | None => OK end ∧
  (∀ r t h', reverse h = (r, t) :: h' → hard_failure pod r = true →
     downct s = 1 + run_length r h' ∧ deathtime s = run_start r t h').
Proof.
  induction h as [|[r t] h IH] using rev_ind; [done|].
  simpl in *. rewrite apply_all_snoc, last_snoc, reverse_snoc. simpl.
  destruct IH as (Hm & Hl & Hrun). set (s := apply_all pod (new_state m w) h) in *.
  result_case pod r.
  - destruct (apply_degraded_soft s t) as [-> _]. destruct s; simpl in *.
    repeat split; [done..| |]; intros; simplify_eq.
  - destruct (apply_no_dns s t pod) as [-> _].
    destruct (lastcheck s =? NO_DNS), s; simpl in *;
      (split_and!; [done..|]); intros; simplify_eq.
  - destruct (is_up (lastcheck s)) eqn:Hup.
    + to_prop. destruct (apply_still_up s t pod Hup) as [-> _].
      split_and!; [done..|]. intros; simplify_eq.
    + destruct (apply_up s t pod Hup) as [-> _]. destruct s; simpl in *.
      split_and!; [done..|]. intros; simplify_eq.
  - destruct (apply_hard s r t pod Hhard) as [-> _].
    destruct (r =? lastcheck s) eqn:Hsame; to_prop.
    + split_and!; [destruct s; done|destruct s; naive_solver|].
      intros r1 t1 h1 [= <- <- <-] _. rewrite Hl in Hsame.
      destruct h as [|[r0 t0] h0 _] using rev_ind.
      { exfalso. apply hard_failure_spec in Hhard. simpl in Hsame. naive_solver. }
      rewrite last_snoc in Hsame. simpl in Hsame. subst r0.
      rewrite reverse_snoc in *. simpl. rewrite Z.eqb_refl.
      destruct (Hrun r t0 (reverse h0)) as [Hd Ht]; [done..|].
      destruct s; simpl in *. split; [lia|done].
    + split_and!; [destruct s; done|destruct s; done|].
      intros r1 t1 h1 [= <- <- <-] _.
      assert (match reverse h with (r', _) :: _ => r' ≠ r | [] => True end) as Hne.
      { destruct h as [|[r0 t0] h0 _] using rev_ind; [done|].
        rewrite reverse_snoc. rewrite last_snoc in Hl. simpl in Hl. congruence. }
      destruct (reverse h) as [|[r0 t0] h0]; simpl in *;
        [|rewrite (proj2 (Z.eqb_neq _ _) Hne)]; by destruct s.
Qed.

(** ** Who touches [contacted] *)

Lemma apply_contacted s r t pod :
  let s' := (apply_result s r t pod).1 in
  let i := intent (apply_result s r t pod).2 in
  (i = PI_RECOVERY ↔ r = OK ∧ lastcheck s ≠ OK ∧ contacted s = true) ∧
  contacted s' = (contacted s && negb (bool_decide (i = PI_RECOVERY))).
Proof.
  simpl. result_case pod r.
  - destruct (apply_degraded_soft s t) as [-> ->]. destruct s as [? ? ? []]; naive_solver.
  - destruct (apply_no_dns s t pod) as [-> ->].
    destruct (lastcheck s =? NO_DNS), s as [? ? ? []]; naive_solver.
  - destruct (is_up (lastcheck s)) eqn:Hup; to_prop.
    + destruct (apply_still_up s t pod Hup) as [-> ->].
      destruct s as [? ? ? []]; naive_solver.
    + destruct (apply_up s t pod) as [-> ->]; [by to_prop|].
      destruct s as [? ? ? []]; naive_solver.
  - destruct (apply_hard s r t pod Hhard) as [-> ->].
    apply hard_failure_spec in Hhard as (?&_&_).
    destruct (_ && _), (r =? lastcheck s), s as [? ? ? []]; naive_solver.
Qed.

Lemma apply_down_intent s r t pod :
  intent (apply_result s r t pod).2 = PI_DOWN ↔
  hard_failure pod r = true ∧ contacted s = false ∧
  max_down s <= downct (apply_result s r t pod).1.
Proof.
  destruct (hard_failure pod r) eqn:Hhard.
  - destruct (apply_hard s r t pod Hhard) as [_ ->].
    destruct (contacted s); simpl; [rewrite andb_false_r; naive_solver|].
    rewrite andb_true_r. case_match; to_prop; split; try done; naive_solver lia.
  - split; [|naive_solver]. result_case pod r.
    + by destruct (apply_degraded_soft s t) as [_ ->].
    + by destruct (apply_no_dns s t pod) as [_ ->].
    + destruct (is_up (lastcheck s)) eqn:Hup; to_prop.
      * by destruct (apply_still_up s t pod Hup) as [_ ->].
      * destruct (apply_up s t pod) as [_ ->]; [by to_prop|]. by destruct (contacted s).
    + congruence.
Qed.

(** The machine alone never sets [contacted]. *)
Lemma fresh_never_contacted pod m w h :
  contacted (apply_all pod (new_state m w) h) = false.
Proof.
  induction h as [|e h IH] using rev_ind; [done|].
  rewrite apply_all_snoc. destruct (apply_contacted (apply_all pod (new_state m w) h)
    e.1 e.2 pod) as [_ ->]. by rewrite IH.
Qed.

Lemma run_length_nonneg r h : 0 <= run_length r h.
Proof. induction h as [|[r' t] h IH]; simpl; [done|]. case_match; lia. Qed.

(** ** Properties *)



(** The alert threshold.  In any history of a fresh node that nobody has been
    contacted about, a result asks for a DOWN page exactly when it is a hard failure
    and the run of that same failure it ends has reached [max_down] results. *)
Theorem down_page_iff_threshold (pod : bool) (m : Z) (w : Q) (h : list (Z * Q)) (r : Z) (t : Q) :
  intent (apply_result (apply_all pod (new_state m w) h) r t pod).2 = PI_DOWN ↔
  hard_failure pod r = true ∧ m <= 1 + run_length r (reverse h).
Proof.
  rewrite apply_down_intent, fresh_never_contacted.
  destruct (history_inv pod m w h) as (-> & _ & _).
  destruct (hard_failure pod r) eqn:Hr; [|naive_solver].
  destruct (history_inv pod m w (h ++ [(r, t)])) as (_ & _ & Hrun).
  rewrite reverse_snoc, apply_all_snoc in Hrun. simpl in Hrun.
  destruct (Hrun r t (reverse h)) as [-> _]; naive_solver.
Qed.

(** The [contacted] contract.  Applying a result never sets [contacted]; it
    clears it exactly when it asks for a RECOVERY page, which happens exactly when an
    up result reaches a node that was not up and had been paged about. *)
Theorem contacted_contract (s : NodeState) (r : Z) (t : Q) (pod : bool) :
  let s' := (apply_result s r t pod).1 in
  let i := intent (apply_result s r t pod).2 in
  (contacted s' = true → contacted s = true) ∧
  (contacted s = true ∧ contacted s' = false ↔ i = PI_RECOVERY) ∧
  (i = PI_RECOVERY ↔ r = OK ∧ lastcheck s ≠ OK ∧ contacted s = true).
Proof.
  destruct (apply_contacted s r t pod) as [Hi Hc]. simpl in *.
  split; [|split]; [| |exact Hi]; rewrite Hc.
  - by intros [-> _]%andb_true_iff.
  - case_bool_decide as Hcase; destruct (contacted s) eqn:Hcs; naive_solver.
Qed.

(** an informational [DEGRADED] result between two identical failures restarts
    the outage: the failure after it counts as the first of a new run and overwrites
    the recorded start of the outage, whatever the counters were. *)
Theorem degraded_blip_restarts_outage (s : NodeState) (r : Z) (t1 t2 : Q)
    (Hr : hard_failure false r = true) :
  let s' := apply_all false s [(status_value DEGRADED, t1); (r, t2)] in
  downct s' = 1 ∧ deathtime s' = t2 ∧ lastcheck s' = r.
Proof.
  unfold apply_all. cbn [foldl fst snd]. destruct (apply_degraded_soft s t1) as [-> _].
  destruct (apply_hard (s <| lastcheck := DEGRADED |>) r t2 false Hr) as [-> _].
  apply hard_failure_spec in Hr as (_ & _ & Hd).
  destruct s; simpl. destruct (Z.eqb_spec r 14) as [->|]; [|done].
  by specialize (Hd eq_refl).
Qed.

Lemma degraded_blip_restarts_outage_witness :
  downct (apply_all false (MkNodeState 2 6 9 true 0 1 0 false false None [])
    [(status_value DEGRADED, 5%Q); (6, 7%Q)]) = 1.
Proof.
  destruct (degraded_blip_restarts_outage
    (MkNodeState 2 6 9 true 0 1 0 false false None []) 6 5 7) as [H _].
  - reflexivity.
  - exact H.
Defined.
