(* ===== verification/Clock.v ===== *)
(** * Clocks (src/psysmon/engine/clock.py)

    The [Clock] protocol as a class.  Everywhere else the two readings are arguments, so every
    theorem holds for both implementations: the system clock, whose readings are the operating
    system's, and the manual one, whose readings are moved together. *)
From S2P Require Import Prelude Model StateMachine.

Class Clock (C : Type) : Type := { monotonic : C → Q; wall : C → Q }.

(** What [time.monotonic()] and [time.time()] answer at a moment. *)
Record SystemClock : Type := MkSystemClock { time_monotonic : Q; time_time : Q }.

#[export] Instance system_clock : Clock SystemClock := {| monotonic := time_monotonic; wall := time_time |}.

Record ManualClock : Type := MkManualClock { _mono : Q; _wall : Q }.

Definition manual_init : ManualClock := MkManualClock 0 0.

#[export] Instance manual_clock : Clock ManualClock := {| monotonic := _mono; wall := _wall |}.

Definition advance (seconds : Q) (c : ManualClock) : ManualClock :=
  MkManualClock (_mono c + seconds) (_wall c + seconds).

(** Both clocks move by the same amount, in one step or in several. *)
Lemma advance_moves d c :
  (monotonic (advance d c) - monotonic c == d)%Q ∧ (wall (advance d c) - wall c == d)%Q.
Proof. simpl. split; ring. Qed.

Lemma advance_twice d e c :
  (monotonic (advance e (advance d c)) == monotonic (advance (d + e) c))%Q ∧
  (wall (advance e (advance d c)) == wall (advance (d + e) c))%Q.
Proof. simpl. split; ring. Qed.

(** The re-page timer driven by the manual clock: a contacted node paged now is due again
    exactly when the clock has been advanced by more than the interval. *)
Lemma repage_after_advance state c d interval :
  contacted state = true → lastcontacted state = monotonic c → (0 < interval)%Q →
  maybe_repage state (monotonic (advance d c)) interval = true ↔ (interval < d)%Q.
Proof.
  intros Hc Hl Hi. unfold maybe_repage. rewrite Hc, Hl. simpl.
  rewrite (proj2 (Qle_bool_nspec interval 0) Hi), Qltb_spec. split; intros H; lra.
Qed.
