(* ===== verification/PingPool.v ===== *)
(** * The ping socket pools (class [_Pool] and the socket lifecycle of
      [PingService], src/psysmon/checks/ping.py)

    A pool maps a bind source ([None] = unbound) to a raw socket.  The operating
    system is explicit: [OS] holds the descriptors that are open, the next fresh one,
    and which opens it refuses ([may_open]: no privilege, unbindable address, ...);
    [reader_ok] says whether the event loop supports [add_reader]. *)
From S2P Require Import Prelude.

Abbreviation fd := nat.

Inductive family : Type := AF_INET | AF_INET6.

#[export] Instance family_eq_dec : EqDecision family.
Proof. solve_decision. Defined.

#[export] Instance family_countable : Countable family.
Proof.
  apply (inj_countable' (λ f, match f with AF_INET => true | AF_INET6 => false end)
           (λ b : bool, if b then AF_INET else AF_INET6)). by intros [].
Defined.

Record OS : Type := MkOS {
  os_next : fd;
  os_open : gset fd;
  os_may_open : family → option string → bool;
  os_reader_ok : bool
}.

#[export] Instance set_os_next : SetField os_next := λ f o,
  let '(MkOS n s m r) := o in MkOS (f n) s m r.
#[export] Instance set_os_open : SetField os_open := λ f o,
  let '(MkOS n s m r) := o in MkOS n (f s) m r.

(** The exception of a failing socket call. *)
Inductive exn : Type := OSError.

Record _Pool : Type := MkPool {
  pool_family : family;
  enabled : bool;
  socks : gmap (option string) fd;
  registered : gset (option string);
  warned : gset string;
  configured : gset string
}.

#[export] Instance set_enabled : SetField enabled := λ f p,
  let '(MkPool a e s r w c) := p in MkPool a (f e) s r w c.
#[export] Instance set_socks : SetField socks := λ f p,
  let '(MkPool a e s r w c) := p in MkPool a e (f s) r w c.
#[export] Instance set_registered : SetField registered := λ f p,
  let '(MkPool a e s r w c) := p in MkPool a e s (f r) w c.
#[export] Instance set_warned : SetField warned := λ f p,
  let '(MkPool a e s r w c) := p in MkPool a e s r (f w) c.
#[export] Instance set_configured : SetField configured := λ f p,
  let '(MkPool a e s r w c) := p in MkPool a e s r w (f c).

(** The two pools as [PingService.__init__] builds them: v6 starts disabled. *)
Definition pools_init (sources : list string) : _Pool * _Pool :=
  (MkPool AF_INET true ∅ ∅ ∅ (filter (.≠ "") (list_to_set sources)),
   MkPool AF_INET6 false ∅ ∅ ∅ ∅).

(** [frozenset(s for s in sources if s)]; the method on the v4 and on the v6 pool. *)
Definition set_sources (sources : gset string) (pool : _Pool) : _Pool :=
  pool <| configured := filter (.≠ "") sources |>.

Definition enable_v6 (b : bool) (pool : _Pool) : _Pool := pool <| enabled := b |>.

(** [_open_raw]: create the socket and bind it; a refused open leaves no descriptor. *)
Definition _open_raw (pool : _Pool) (source : option string) (os : OS) : res exn (OS * fd) :=
  if os_may_open os (pool_family pool) source then
    let n := os_next os in
    Ok (os <| os_next := S n |> <| os_open := {[n]} ∪ os_open os |>, n)
  else Raise OSError.

Definition close_fd (n : fd) (os : OS) : OS := os <| os_open := os_open os ∖ {[n]} |>.

Definition _warn_unbindable (pool : _Pool) (source : string) : _Pool :=
  if bool_decide (source ∈ warned pool) then pool
  else pool <| warned := {[source]} ∪ warned pool |>.

(** One iteration of [prepare]'s inner loop, for one source.  An exception leaves the
    sockets opened before it in place: the state is returned with the outcome. *)
Definition prepare_source (pool : _Pool) (os : OS) (source : option string)
    : _Pool * OS * res exn unit :=
  match socks pool !! source with
  | Some _ => (pool, os, Ok tt)
  | None =>
      match _open_raw pool source os with
      | Ok (os', n) => (pool <| socks := <[source := n]> (socks pool) |>, os', Ok tt)
      | Raise e =>
          match source with
          | None => (pool, os, Raise e)
          | Some s => (_warn_unbindable pool s, os, Ok tt)
          end
      end
  end.

Fixpoint prepare_sources (pool : _Pool) (os : OS) (l : list (option string))
    : _Pool * OS * res exn unit :=
  match l with
  | [] => (pool, os, Ok tt)
  | s :: l' =>
      match prepare_source pool os s with
      | (pool', os', Ok _) => prepare_sources pool' os' l'
      | failed => failed
      end
  end.

Definition prepare_pool (pool : _Pool) (os : OS) : _Pool * OS * res exn unit :=
  if enabled pool
  then prepare_sources pool os (None :: (Some <$> elements (configured pool)))
  else (pool, os, Ok tt).

(** [prepare]: both pools, v4 first. *)
Definition prepare (p4 p6 : _Pool) (os : OS) : _Pool * _Pool * OS * res exn unit :=
  match prepare_pool p4 os with
  | (p4', os1, Raise e) => (p4', p6, os1, Raise e)
  | (p4', os1, Ok _) =>
      let '(p6', os2, r) := prepare_pool p6 os1 in (p4', p6', os2, r)
  end.

(** [_ensure_socket]: on a failed [add_reader] the socket is closed and dropped. *)
Definition _ensure_socket (pool : _Pool) (source : option string) (os : OS)
    : _Pool * OS * res exn fd :=
  let attach (pool : _Pool) (os : OS) (n : fd) :=
    if bool_decide (source ∈ registered pool) then (pool, os, Ok n)
    else if os_reader_ok os
    then (pool <| registered := {[source]} ∪ registered pool |>, os, Ok n)
    else (pool <| socks := delete source (socks pool) |>, close_fd n os, Raise OSError) in
  match socks pool !! source with
  | Some n => attach pool os n
  | None =>
      match _open_raw pool source os with
      | Ok (os', n) => attach (pool <| socks := <[source := n]> (socks pool) |>) os' n
      | Raise e => (pool, os, Raise e)
      end
  end.

Definition _socket_for (pool : _Pool) (source : option string) (os : OS)
    : _Pool * OS * res exn fd :=
  let source1 :=
    match source with
    | Some s => if bool_decide (s ∈ warned pool) then None else Some s
    | None => None
    end in
  match source1 with
  | Some s =>
      match socks pool !! Some s with
      | Some _ => _ensure_socket pool (Some s) os
      | None =>
          match _open_raw pool (Some s) os with
          | Ok (os', n) =>
              _ensure_socket (pool <| socks := <[Some s := n]> (socks pool) |>) (Some s) os'
          | Raise _ => _ensure_socket (_warn_unbindable pool s) None os
          end
      end
  | None => _ensure_socket pool None os
  end.

(** [_prune]: pop, unregister and close every bound socket whose source is not kept. *)
Definition prune_source (st : _Pool * OS) (source : string) : _Pool * OS :=
  let '(pool, os) := st in
  match socks pool !! Some source with
  | Some n =>
      (pool <| socks := delete (Some source) (socks pool) |>
            <| registered := registered pool ∖ {[Some source]} |>
            <| warned := warned pool ∖ {[source]} |>, close_fd n os)
  | None => (pool, os)
  end.

Definition bound_sources (pool : _Pool) : list string :=
  omap id (elements (dom (socks pool))).

Definition _prune (pool : _Pool) (keep : gset string) (os : OS) : _Pool * OS :=
  let keep_set := filter (.≠ "") keep in
  foldl prune_source (pool, os) (filter (.∉ keep_set) (bound_sources pool)).

(** [close], for one pool. *)
Definition close_pool (pool : _Pool) (os : OS) : _Pool * OS :=
  (pool <| socks := ∅ |> <| registered := ∅ |>,
   foldl (λ os n, close_fd n os) os (map_to_list (socks pool)).*2).

(** ** Descriptor accounting

    [owns p4 p6 os]: the open descriptors are exactly the pooled sockets, no
    descriptor is pooled twice, and fresh descriptors are really fresh. *)
Record owns (p4 p6 : _Pool) (os : OS) : Prop := {
  owns_open : ∀ n, n ∈ os_open os ↔
      (∃ s, socks p4 !! s = Some n) ∨ (∃ s, socks p6 !! s = Some n);
  owns_inj4 : ∀ s s' n, socks p4 !! s = Some n → socks p4 !! s' = Some n → s = s';
  owns_inj6 : ∀ s s' n, socks p6 !! s = Some n → socks p6 !! s' = Some n → s = s';
  owns_disj : ∀ s s' n, socks p4 !! s = Some n → socks p6 !! s' = Some n → False;
  owns_fresh : ∀ n, n ∈ os_open os → (n < os_next os)%nat
}.

Lemma owns_sym p4 p6 os : owns p4 p6 os → owns p6 p4 os.
Proof. intros []; split; naive_solver. Qed.

Lemma owns_socks p4 p4' p6 os : socks p4' = socks p4 → owns p4 p6 os → owns p4' p6 os.
Proof. intros E []; split; rewrite ?E; naive_solver. Qed.

Lemma owns_open_raw p4 p6 os os' source n :
  owns p4 p6 os → socks p4 !! source = None → _open_raw p4 source os = Ok (os', n) →
  owns (p4 <| socks := <[source := n]> (socks p4) |>) p6 os'.
Proof.
  unfold _open_raw. intros [Ho H4 H6 Hd Hf] Hnone. case_match; [|done]. intros [= <- <-].
  assert (∀ s m, socks p4 !! s = Some m → m ≠ os_next os) as N4.
  { intros s m Hm ->. destruct (Hf (os_next os)); naive_solver lia. }
  assert (∀ s m, socks p6 !! s = Some m → m ≠ os_next os) as N6.
  { intros s m Hm ->. destruct (Hf (os_next os)); naive_solver lia. }
  destruct p4 as [a e so re wa co], os as [nx op may rd]; simpl in *.
  split; simpl.
  - intros k. rewrite elem_of_union, elem_of_singleton, Ho. split.
    + intros [->|[[s Hs]|?]]; [left; exists source; by rewrite lookup_insert_eq| |naive_solver].
      left. exists s. rewrite lookup_insert_ne; [done|naive_solver].
    + intros [[s Hs]|?]; [|naive_solver].
      destruct (decide (source = s)) as [->|]; simplify_map_eq; naive_solver.
  - intros s s' m. rewrite !lookup_insert_Some. naive_solver.
  - done.
  - intros s s' m. rewrite lookup_insert_Some. naive_solver.
  - intros k. rewrite elem_of_union, elem_of_singleton. intros [->|Hk]; [lia|].
    specialize (Hf k Hk). lia.
Qed.

Lemma owns_close p4 p6 os source n :
  owns p4 p6 os → socks p4 !! source = Some n →
  owns (p4 <| socks := delete source (socks p4) |>) p6 (close_fd n os).
Proof.
  intros [Ho H4 H6 Hd Hf] Hn. destruct p4 as [a e so re wa co], os as [nx op may rd].
  unfold close_fd. simpl in *. split; simpl.
  - intros k. rewrite elem_of_difference, elem_of_singleton, Ho. split.
    + intros [[[s Hs]|?] Hne]; [left|naive_solver].
      exists s. rewrite lookup_delete_ne; naive_solver.
    + intros [[s Hs]|[s Hs]].
      * apply lookup_delete_Some in Hs as [Hne Hs]. split; [naive_solver|].
        intros ->. by destruct (H4 source s n).
      * split; [naive_solver|]. intros ->. by eapply Hd.
  - intros s s' m. rewrite !lookup_delete_Some. naive_solver.
  - done.
  - intros s s' m. rewrite lookup_delete_Some. naive_solver.
  - intros k. rewrite elem_of_difference. naive_solver.
Qed.

#[export] Hint Resolve owns_open_raw owns_close owns_sym : psy.

(** Each operation keeps the accounting, for the pool it works on and any other. *)
Section accounting.
Context (other : _Pool).

Lemma owns_warn p os s : owns p other os → owns (_warn_unbindable p s) other os.
Proof. apply owns_socks. unfold _warn_unbindable. by case_bool_decide; destruct p. Qed.

Lemma owns_ensure p os source p' os' r :
  owns p other os → _ensure_socket p source os = (p', os', r) → owns p' other os'.
Proof.
  assert (∀ p os n, owns p other os → socks p !! source = Some n →
    owns (if bool_decide (source ∈ registered p) then (p, os, Ok n)
      else if os_reader_ok os
      then (p <| registered := {[source]} ∪ registered p |>, os, Ok n)
      else (p <| socks := delete source (socks p) |>, close_fd n os, Raise OSError)).1.1
     other (if bool_decide (source ∈ registered p) then (p, os, Ok n)
      else if os_reader_ok os
      then (p <| registered := {[source]} ∪ registered p |>, os, Ok n)
      else (p <| socks := delete source (socks p) |>, close_fd n os, @Raise _ fd OSError)).1.2)
    as Hattach.
  { intros q o n Hq Hn. case_bool_decide; [done|]. case_match; simpl.
    - eapply owns_socks; [|done]. by destruct q.
    - by apply owns_close. }
  intros Ho. unfold _ensure_socket. destruct (socks p !! source) as [n|] eqn:Hn.
  - intros Heq. specialize (Hattach p os n Ho Hn). rewrite Heq in Hattach. exact Hattach.
  - destruct (_open_raw p source os) as [[os1 n]|e] eqn:Hopen; [|naive_solver].
    intros Heq. eapply owns_open_raw in Ho; [|done..].
    specialize (Hattach _ _ n Ho). rewrite Heq in Hattach. apply Hattach.
    destruct p; simpl. by rewrite lookup_insert_eq.
Qed.

Lemma owns_socket_for p os source p' os' r :
  owns p other os → _socket_for p source os = (p', os', r) → owns p' other os'.
Proof.
  intros Ho. unfold _socket_for.
  destruct source as [s|]; [|by apply owns_ensure].
  case_bool_decide; [by apply owns_ensure|].
  destruct (socks p !! Some s) eqn:Hs; [by apply owns_ensure|].
  destruct (_open_raw p (Some s) os) as [[os1 n]|e] eqn:Hopen.
  - apply owns_ensure. by eapply owns_open_raw.
  - apply owns_ensure. by apply owns_warn.
Qed.

Lemma owns_prepare p os p' os' r :
  owns p other os → prepare_pool p os = (p', os', r) → owns p' other os'.
Proof.
  unfold prepare_pool. case_match; [|naive_solver].
  generalize (None :: (Some <$> elements (configured p))) as l. clear H.
  intros l. revert p os. induction l as [|s l IH]; intros p os Ho; simpl; [naive_solver|].
  unfold prepare_source. destruct (socks p !! s) eqn:Hs; [by apply IH|].
  destruct (_open_raw p s os) as [[os1 n]|e] eqn:Hopen.
  - apply IH. by eapply owns_open_raw.
  - destruct s as [s|]; [|naive_solver]. apply IH. by apply owns_warn.
Qed.

Lemma owns_prune p keep os : owns p other os → owns (_prune p keep os).1 other (_prune p keep os).2.
Proof.
  unfold _prune. generalize (filter (.∉ filter (.≠ "") keep) (bound_sources p)) as l.
  intros l. revert p os. induction l as [|s l IH]; intros p os Ho; simpl; [done|].
  destruct (socks p !! Some s) as [n|] eqn:Hs; [|by apply IH].
  apply IH. eapply owns_socks; [|by eapply owns_close]. by destruct p.
Qed.
End accounting.

Lemma elem_of_bound_sources p s : s ∈ bound_sources p ↔ is_Some (socks p !! Some s).
Proof.
  unfold bound_sources. rewrite list_elem_of_omap. setoid_rewrite elem_of_elements.
  setoid_rewrite elem_of_dom. split; [intros ([x|] & ? & [= <-])|]; naive_solver.
Qed.

Lemma prune_socks_fold l p os s :
  socks (foldl prune_source (p, os) l).1 !! s =
  match s with
  | Some x => if bool_decide (x ∈ l) then None else socks p !! s
  | None => socks p !! s
  end.
Proof.
  revert p os. induction l as [|y l IH]; intros p os; simpl.
  { by destruct s. }
  assert (∀ x (o : option fd), x ≠ y →
    (if bool_decide (x ∈ l) then None else o) =
    (if bool_decide (x ∈ y :: l) then None else o)) as Hskip.
  { intros x o Hne. repeat case_bool_decide; set_solver. }
  assert (bool_decide (y ∈ y :: l) = true) as Hin by (case_bool_decide; set_solver).
  destruct (socks p !! Some y) as [n|] eqn:Hy; rewrite IH; destruct s as [x|];
    try (destruct (decide (x = y)) as [->|Hne]; [rewrite Hin|rewrite <- Hskip by done]).
  - destruct p; simpl in *. rewrite lookup_delete_eq. by case_match.
  - destruct p; simpl in *. by rewrite lookup_delete_ne by congruence.
  - destruct p; simpl in *. by rewrite lookup_delete_ne.
  - rewrite Hy. by case_match.
  - done.
  - done.
Qed.

Lemma prune_lookup p keep os s :
  socks (_prune p keep os).1 !! s =
  match s with
  | Some x => if bool_decide (x ∈ keep ∧ x ≠ "") then socks p !! s else None
  | None => socks p !! s
  end.
Proof.
  unfold _prune. rewrite prune_socks_fold. destruct s as [x|]; [|done].
  destruct (socks p !! Some x) as [n|] eqn:Hx; repeat case_bool_decide; try done;
    rewrite list_elem_of_filter, elem_of_bound_sources, elem_of_filter, Hx in *; naive_solver.
Qed.

Lemma close_all_open l os :
  os_open (foldl (λ os n, close_fd n os) os l) = os_open os ∖ list_to_set l ∧
  os_next (foldl (λ os n, close_fd n os) os l) = os_next os.
Proof.
  revert os. induction l as [|n l IH]; intros os; simpl; [set_solver|].
  destruct (IH (close_fd n os)) as [-> ->]. destruct os; simpl. set_solver.
Qed.

Lemma owns_close_pool p other os :
  owns p other os → owns (close_pool p os).1 other (close_pool p os).2.
Proof.
  intros [Ho H4 H6 Hd Hf]. unfold close_pool. simpl.
  destruct (close_all_open (map_to_list (socks p)).*2 os) as [Eo En].
  assert (∀ n, n ∈ (map_to_list (socks p)).*2 ↔ ∃ s, socks p !! s = Some n) as Hl.
  { intros n. rewrite list_elem_of_fmap. split.
    - intros ([s m] & -> & Hm%elem_of_map_to_list). eauto.
    - intros [s Hs]. exists (s, n). by rewrite elem_of_map_to_list. }
  destruct p as [a e so re wa co]; simpl in *. split; simpl.
  - intros n. rewrite Eo, elem_of_difference, elem_of_list_to_set, Hl, Ho. split.
    + intros [[?|?] Hn]; naive_solver.
    + intros [[s Hs]|[s Hs]]; [by rewrite lookup_empty in Hs|]. naive_solver.
  - intros s s' n Hs. by rewrite lookup_empty in Hs.
  - done.
  - intros s s' n Hs. by rewrite lookup_empty in Hs.
  - intros n. rewrite Eo, En, elem_of_difference. naive_solver.
Qed.

(** The operations of the service that touch sockets, in any order: what the scheduler,
    the checks and the daemon may do with it.  Those of the v6 pool are the same
    operations with the pools exchanged. *)
Inductive svc_step : _Pool * _Pool * OS → _Pool * _Pool * OS → Prop :=
| svc_prepare p4 p6 os p4' p6' os' r :
    prepare p4 p6 os = (p4', p6', os', r) → svc_step (p4, p6, os) (p4', p6', os')
| svc_socket4 p4 p6 os source p4' os' r :
    _socket_for p4 source os = (p4', os', r) → svc_step (p4, p6, os) (p4', p6, os')
| svc_socket6 p4 p6 os source p6' os' r :
    _socket_for p6 source os = (p6', os', r) → svc_step (p4, p6, os) (p4, p6', os')
| svc_prune4 p4 p6 os keep :
    svc_step (p4, p6, os) ((_prune p4 keep os).1, p6, (_prune p4 keep os).2)
| svc_prune6 p4 p6 os keep :
    svc_step (p4, p6, os) (p4, (_prune p6 keep os).1, (_prune p6 keep os).2)
| svc_sources4 p4 p6 os l : svc_step (p4, p6, os) (set_sources l p4, p6, os)
| svc_sources6 p4 p6 os l : svc_step (p4, p6, os) (p4, set_sources l p6, os)
| svc_enable6 p4 p6 os b : svc_step (p4, p6, os) (p4, enable_v6 b p6, os)
| svc_close p4 p6 os :
    svc_step (p4, p6, os)
      ((close_pool p4 os).1, (close_pool p6 (close_pool p4 os).2).1,
       (close_pool p6 (close_pool p4 os).2).2).

Definition owned (st : _Pool * _Pool * OS) : Prop := owns st.1.1 st.1.2 st.2.

Lemma svc_step_owned st st' : svc_step st st' → owned st → owned st'.
Proof.
  unfold owned. destruct 1; simpl; intros Ho.
  - unfold prepare in H. destruct (prepare_pool p4 os) as [[q4 o4] [u|e]] eqn:H4.
    + destruct (prepare_pool p6 o4) as [[q6 o6] r6] eqn:H6. simplify_eq.
      apply owns_sym. eapply owns_prepare; [|done]. apply owns_sym. by eapply owns_prepare.
    + simplify_eq. by eapply owns_prepare.
  - by eapply owns_socket_for.
  - apply owns_sym. eapply owns_socket_for; [|done]. by apply owns_sym.
  - by apply owns_prune.
  - apply owns_sym, owns_prune. by apply owns_sym.
  - eapply owns_socks; [|done]. by destruct p4.
  - apply owns_sym. eapply owns_socks; [|by apply owns_sym]. by destruct p6.
  - apply owns_sym. eapply owns_socks; [|by apply owns_sym]. by destruct p6.
  - apply owns_sym, owns_close_pool, owns_sym. by apply owns_close_pool.
Qed.

(** ** Properties *)


Definition demo_os : OS :=
  MkOS 7 ∅ (λ _ s, bool_decide (s ≠ Some "10.0.0.9")) true.


(** a reload's prune closes exactly the dropped sources.  The unbound socket and
    the kept sources keep their sockets, every other bound socket leaves the pool, and
    of the descriptors open before exactly those still pooled stay open. *)
Theorem prune_closes_dropped (p other : _Pool) (os : OS) (keep : gset string)
    (Hown : owns p other os) :
  let p' := (_prune p keep os).1 in
  socks p' !! None = socks p !! None ∧
  (∀ s, socks p' !! Some s =
     if bool_decide (s ∈ keep ∧ s ≠ "") then socks p !! Some s else None) ∧
  (∀ n, n ∈ os_open (_prune p keep os).2 ↔
     (∃ s, socks p' !! s = Some n) ∨ (∃ s, socks other !! s = Some n)).
Proof.
  split; [exact (prune_lookup p keep os None)|].
  split; [exact (λ s, prune_lookup p keep os (Some s))|].
  apply owns_open, owns_prune, Hown.
Qed.

Lemma prune_closes_dropped_witness :
  let p := MkPool AF_INET true {[None := 3%nat; Some "10.0.0.1" := 4%nat]} ∅ ∅ ∅ in
  let os := MkOS 9 {[3%nat; 4%nat]} (λ _ _, true) true in
  socks (_prune p ∅ os).1 !! Some "10.0.0.1" = None.
Proof.
  intros p os. destruct (prune_closes_dropped p (pools_init []).2 os ∅) as (_ & H & _).
  - split; simpl.
    + intros n. rewrite elem_of_union, !elem_of_singleton. split.
      * intros [->| ->]; left; [exists None|exists (Some "10.0.0.1")]; reflexivity.
      * intros [[s Hs]|[s Hs]]; [|by rewrite lookup_empty in Hs].
        apply lookup_insert_Some in Hs as [[? ?]|[? [? ?]%lookup_singleton_Some]]; auto.
    + intros s s' n Hs Hs'. apply lookup_insert_Some in Hs, Hs'.
      rewrite lookup_singleton_Some in Hs, Hs'. naive_solver.
    + intros s s' n Hs. by rewrite lookup_empty in Hs.
    + intros s s' n _ Hs. by rewrite lookup_empty in Hs.
    + intros n. rewrite elem_of_union, !elem_of_singleton. lia.
  - rewrite (H "10.0.0.1"). reflexivity.
Defined.

(** a probe always gets a socket.  When the unbound socket is open and registered,
    choosing a socket for any source succeeds; a source the system refuses to bind is
    served by the unbound socket and remembered, so that every later probe for it goes
    straight to the unbound socket without another open, whatever the system then
    would allow. *)
Theorem socket_for_falls_back (p : _Pool) (os os2 : OS) (s : string) (n : fd)
    (Hopen : socks p !! None = Some n)
    (Hreg : None ∈ registered p)
    (Hfresh : socks p !! Some s = None)
    (Hrefused : os_may_open os (pool_family p) (Some s) = false) :
  ∃ p', _socket_for p (Some s) os = (p', os, Ok n) ∧ s ∈ warned p' ∧
        _socket_for p' (Some s) os2 = (p', os2, Ok n).
Proof.
  assert (∀ q o, socks q !! None = Some n → None ∈ registered q →
    _ensure_socket q None o = (q, o, Ok n)) as Hunbound.
  { intros q o Hq Hr. unfold _ensure_socket. rewrite Hq. by rewrite bool_decide_true. }
  unfold _socket_for at 1. case_bool_decide as Hw.
  - exists p. rewrite Hunbound by done. split_and!; [done..|].
    unfold _socket_for. by rewrite bool_decide_true, Hunbound.
  - rewrite Hfresh. unfold _open_raw. rewrite Hrefused.
    set (p' := _warn_unbindable p s).
    assert (s ∈ warned p') as Hw'.
    { subst p'. unfold _warn_unbindable. rewrite bool_decide_false by done.
      destruct p; simpl. set_solver. }
    assert (socks p' = socks p ∧ registered p' = registered p) as [Es Er].
    { subst p'. unfold _warn_unbindable. case_bool_decide; by destruct p. }
    exists p'. rewrite Hunbound by (by rewrite ?Es, ?Er). split_and!; [done..|].
    unfold _socket_for. rewrite bool_decide_true by done. apply Hunbound; by rewrite ?Es, ?Er.
Qed.

Lemma socket_for_falls_back_witness :
  ∃ p', _socket_for (MkPool AF_INET true {[None := 3%nat]} {[None]} ∅ ∅) (Some "10.0.0.9") demo_os
        = (p', demo_os, Ok 3%nat).
Proof.
  destruct (socket_for_falls_back (MkPool AF_INET true {[None := 3%nat]} {[None]} ∅ ∅)
    demo_os demo_os "10.0.0.9" 3) as (p' & H & _).
  - reflexivity.
  - cbn [registered]. by apply elem_of_singleton.
  - reflexivity.
  - reflexivity.
  - exists p'. exact H.
Defined.
