(* ===== verification/Graph.v ===== *)
(** * Work-list searches over a finite graph

    Three routines of the daemon walk a graph with an explicit stack and a set of
    visited nodes ([Scheduler._flatten], [Scheduler._reachable] and the modern
    parser's [_reaches]).  They terminate for the same reason: every push belongs to a
    node that is expanded once.  [budget] counts the pushes still to come. *)
From S2P Require Import Prelude.

Definition budget {A} (m : gmap nat A) (w : A → nat) (seen : gset nat) : nat :=
  sum_list_with (λ '(k, a), if bool_decide (k ∈ seen) then 0%nat else w a) (map_to_list m).

Lemma sum_list_with_ext {A} (f g : A → nat) l :
  (∀ x, x ∈ l → f x = g x) → sum_list_with f l = sum_list_with g l.
Proof.
  induction l as [|x l IH]; intros H; simpl; [done|].
  rewrite (H x), IH; [done| |]; set_solver.
Qed.

Lemma sum_list_with_perm {A} (f : A → nat) l l' :
  l ≡ₚ l' → sum_list_with f l = sum_list_with f l'.
Proof. induction 1; simpl; lia. Qed.

Lemma budget_visit {A} (m : gmap nat A) (w : A → nat) (seen : gset nat) k a :
  m !! k = Some a → k ∉ seen →
  budget m w seen = (w a + budget m w ({[k]} ∪ seen))%nat.
Proof.
  intros Hk Hseen. unfold budget.
  rewrite <- !(sum_list_with_perm _ _ _ (map_to_list_delete m k a Hk)). simpl.
  rewrite (bool_decide_false (k ∈ seen)), (bool_decide_true (k ∈ {[k]} ∪ seen)) by set_solver.
  simpl. f_equal. apply sum_list_with_ext. intros [i b] Hi%elem_of_map_to_list.
  apply lookup_delete_Some in Hi as [Hne _].
  by rewrite (bool_decide_ext (i ∈ {[k]} ∪ seen) (i ∈ seen)) by set_solver.
Qed.

Lemma budget_empty_le {A} (m : gmap nat A) (w : A → nat) (seen : gset nat) :
  (budget m w seen ≤ budget m w ∅)%nat.
Proof.
  unfold budget. induction (map_to_list m) as [|[k a] l IH]; simpl; [lia|].
  rewrite (bool_decide_false (k ∈ ∅)) by set_solver. case_bool_decide; lia.
Qed.
