(* ===== verification/Gate.v ===== *)
(** * Scheduled nodes and dependency gating
      (class [_Scheduled], [Scheduler._eligible], [Scheduler._reachable],
       src/psysmon/engine/scheduler.py)

    A [_Scheduled] object has an identity [sid]; [gate] lists the identities of its
    direct ping parents.  The objects live in a store [gmap sid _Scheduled]: a reload
    replaces the scheduled set while a check in flight still refers to an old object. *)
From S2P Require Import Prelude Status Model Graph.

Abbreviation sid := nat.

Record _Scheduled : Type := MkScheduled {
  node_ref : nid;
  node : Node;
  state : NodeState;
  gate : list sid;
  sched_interval : Q;
  sched_source : option string;
  next_due : Q;
  in_flight : bool;
  checked : bool;
  alive : bool
}.

#[export] Instance set_state : SetField state := λ f s,
  let '(MkScheduled r n st g i so d fl c a) := s in MkScheduled r n (f st) g i so d fl c a.
#[export] Instance set_gate : SetField gate := λ f s,
  let '(MkScheduled r n st g i so d fl c a) := s in MkScheduled r n st (f g) i so d fl c a.
#[export] Instance set_next_due : SetField next_due := λ f s,
  let '(MkScheduled r n st g i so d fl c a) := s in MkScheduled r n st g i so (f d) fl c a.
#[export] Instance set_in_flight : SetField in_flight := λ f s,
  let '(MkScheduled r n st g i so d fl c a) := s in MkScheduled r n st g i so d (f fl) c a.
#[export] Instance set_checked : SetField checked := λ f s,
  let '(MkScheduled r n st g i so d fl c a) := s in MkScheduled r n st g i so d fl (f c) a.
#[export] Instance set_alive : SetField alive := λ f s,
  let '(MkScheduled r n st g i so d fl c a) := s in MkScheduled r n st g i so d fl c (f a).

(** ** The search up the gate edges *)

Definition usable_hop (p : _Scheduled) : bool :=
  checked p && is_reachable (lastcheck (state p)).

(** The [while stack] loop.  The top of the Python stack (its end) is the head here, so
    [stack.extend(p.gate)] pushes the reversed gate. *)
Fixpoint reachable_loop (fuel : nat) (objs : gmap sid _Scheduled)
    (seen : gset sid) (stack : list sid) : option bool :=
  match fuel with
  | O => None
  | S fuel =>
      match stack with
      | [] => Some false
      | p :: stack' =>
          if bool_decide (p ∈ seen) then reachable_loop fuel objs seen stack'
          else
            let seen' := {[p]} ∪ seen in
            match objs !! p with
            | None => reachable_loop fuel objs seen' stack'
            | Some ps =>
                if negb (usable_hop ps) then reachable_loop fuel objs seen' stack'
                else if bool_decide (gate ps = []) then Some true
                else reachable_loop fuel objs seen' (reverse (gate ps) ++ stack')
            end
      end
  end.

(** Iterations that suffice: one per initial push, one per gate entry of every object,
    and the final test of the empty stack. *)
Definition reachable_fuel (objs : gmap sid _Scheduled) (s : _Scheduled) : nat :=
  S (length (gate s) + budget objs (λ p, length (gate p)) ∅).

Definition _reachable (objs : gmap sid _Scheduled) (s : _Scheduled) : bool :=
  if bool_decide (gate s = []) then true
  else default false (reachable_loop (reachable_fuel objs s) objs ∅ (reverse (gate s))).

Definition _eligible (objs : gmap sid _Scheduled) (s : _Scheduled) : bool :=
  _reachable objs s.

(** ** The specification: any-path reachability *)

(** [Live objs p]: from [p] some chain of gate edges leads to a root, and every object
    on it, [p] and the root included, has been checked and found reachable. *)
Inductive Live (objs : gmap sid _Scheduled) : sid → Prop :=
| Live_root p ps :
    objs !! p = Some ps → usable_hop ps = true → gate ps = [] → Live objs p
| Live_hop p ps q :
    objs !! p = Some ps → usable_hop ps = true → q ∈ gate ps → Live objs q → Live objs p.

Definition Reachable (objs : gmap sid _Scheduled) (s : _Scheduled) : Prop :=
  gate s = [] ∨ ∃ p, p ∈ gate s ∧ Live objs p.

Section search.
Context (objs : gmap sid _Scheduled).

(** What the visited set means while no live path has been found: the usable ones have
    all their parents visited or waiting on the stack, and none of them is a root. *)
Definition explored (seen : gset sid) (stack : list sid) : Prop :=
  ∀ p ps, p ∈ seen → objs !! p = Some ps → usable_hop ps = true →
    gate ps ≠ [] ∧ ∀ q, q ∈ gate ps → q ∈ seen ∨ q ∈ stack.

Lemma explored_pop seen stack p :
  p ∈ seen → explored seen (p :: stack) → explored seen stack.
Proof. intros Hp He q qs Hq Hqs Hu. destruct (He q qs Hq Hqs Hu). set_solver. Qed.

Lemma explored_dead seen stack p :
  (∀ ps, objs !! p = Some ps → usable_hop ps = false) →
  explored seen (p :: stack) → explored ({[p]} ∪ seen) stack.
Proof.
  intros Hdead He q qs [->%elem_of_singleton|Hq]%elem_of_union Hqs Hu.
  - rewrite (Hdead qs Hqs) in Hu. done.
  - destruct (He q qs Hq Hqs Hu). set_solver.
Qed.

Lemma explored_expand seen stack p ps :
  objs !! p = Some ps → gate ps ≠ [] →
  explored seen (p :: stack) → explored ({[p]} ∪ seen) (reverse (gate ps) ++ stack).
Proof.
  intros Hps Hg He q qs [->%elem_of_singleton|Hq]%elem_of_union Hqs Hu.
  - simplify_eq. split; [done|]. intros r Hr. right.
    apply elem_of_app. left. by apply elem_of_reverse.
  - destruct (He q qs Hq Hqs Hu) as [? Hpar]. split; [done|]. intros r Hr.
    rewrite elem_of_app, elem_of_union, elem_of_singleton. destruct (Hpar r Hr); set_solver.
Qed.

(** With the stack empty, nothing visited is live. *)
Lemma explored_not_live seen p : explored seen [] → Live objs p → p ∉ seen.
Proof.
  intros He. induction 1 as [p ps Hps Hu Hg|p ps q Hps Hu Hq Hlive IH]; intros Hp.
  - by destruct (He p ps Hp Hps Hu).
  - destruct (He p ps Hp Hps Hu) as [_ Hpar]. destruct (Hpar q Hq); set_solver.
Qed.

Lemma reachable_loop_true fuel seen stack :
  reachable_loop fuel objs seen stack = Some true → ∃ p, p ∈ stack ∧ Live objs p.
Proof.
  revert seen stack. induction fuel as [|fuel IH]; intros seen stack; simpl; [done|].
  destruct stack as [|p stack]; [done|].
  case_bool_decide. { intros (q & ? & ?)%IH. set_solver. }
  destruct (objs !! p) as [ps|] eqn:Hps; [|intros (q & ? & ?)%IH; set_solver].
  destruct (usable_hop ps) eqn:Hu; simpl; [|intros (q & ? & ?)%IH; set_solver].
  case_bool_decide as Hg; [intros _; exists p; split; [set_solver|by eapply Live_root]|].
  intros (q & [Hq|?]%elem_of_app & Hlive)%IH; [rewrite elem_of_reverse in Hq|set_solver].
  exists p. split; [set_solver|]. by eapply Live_hop.
Qed.

Lemma reachable_loop_false fuel seen stack :
  explored seen stack → reachable_loop fuel objs seen stack = Some false →
  ∃ seen', explored seen' [] ∧ (∀ p, p ∈ seen ∨ p ∈ stack → p ∈ seen').
Proof.
  revert seen stack. induction fuel as [|fuel IH]; intros seen stack He; simpl; [done|].
  destruct stack as [|p stack]; [intros _; exists seen; set_solver|].
  case_bool_decide as Hp.
  { intros (s' & ? & ?)%IH; [exists s'; set_solver|by eapply explored_pop]. }
  destruct (objs !! p) as [ps|] eqn:Hps; last first.
  { intros (s' & ? & ?)%IH; [exists s'; set_solver|].
    apply explored_dead; [congruence|done]. }
  destruct (usable_hop ps) eqn:Hu; simpl; last first.
  { intros (s' & ? & ?)%IH; [exists s'; set_solver|].
    apply explored_dead; [congruence|done]. }
  case_bool_decide as Hg; [done|]. intros (s' & ? & ?)%IH; [|by apply explored_expand].
  exists s'. set_solver.
Qed.

Lemma reachable_loop_total fuel seen stack :
  (length stack + budget objs (λ p, length (gate p)) seen < fuel)%nat →
  is_Some (reachable_loop fuel objs seen stack).
Proof.
  revert seen stack. induction fuel as [|fuel IH]; intros seen stack Hf; [lia|]. simpl.
  destruct stack as [|p stack]; [done|]. simpl in Hf.
  case_bool_decide as Hp; [apply IH; lia|].
  destruct (objs !! p) as [ps|] eqn:Hps; last first.
  { apply IH. unfold budget in *. erewrite sum_list_with_ext; [apply Nat.succ_lt_mono, Hf|].
    intros [k a] Hk%elem_of_map_to_list. simpl.
    assert (k ≠ p) by congruence. repeat case_bool_decide; set_solver. }
  rewrite (budget_visit _ _ _ _ _ Hps Hp) in Hf.
  destruct (usable_hop ps); simpl; [|apply IH; lia].
  case_bool_decide; [done|]. apply IH. rewrite length_app, length_reverse. lia.
Qed.
End search.

Lemma reachable_spec objs s : _reachable objs s = true ↔ Reachable objs s.
Proof.
  unfold _reachable, Reachable. case_bool_decide as Hg; [naive_solver|].
  destruct (reachable_loop_total objs (reachable_fuel objs s) ∅ (reverse (gate s))) as [b Hb].
  { unfold reachable_fuel. rewrite length_reverse. lia. }
  rewrite Hb. destruct b; simpl.
  - split; [intros _; right|done].
    apply reachable_loop_true in Hb as (p & Hp & ?). rewrite elem_of_reverse in Hp. eauto.
  - split; [done|]. intros [?|(p & Hp & Hlive)]; [done|].
    apply reachable_loop_false in Hb as (seen & He & Hall); [|by intros ???%not_elem_of_empty].
    destruct (explored_not_live objs seen p He Hlive). apply Hall. right.
    by apply elem_of_reverse.
Qed.

#[export] Instance Reachable_dec objs s : Decision (Reachable objs s).
Proof. refine (cast_if (decide (_reachable objs s = true))); by rewrite <- reachable_spec. Defined.

(** ** Properties *)

(** C14: eligibility is any-path reachability.  The iterative search over the gate
    graph, cyclic or not, always returns, and answers true exactly when the node is a
    root or one of its parents is live: checked, up or degraded, and itself connected to
    a root through such parents. *)
Theorem eligible_iff_any_path (objs : gmap sid _Scheduled) (s : _Scheduled) :
  is_Some (reachable_loop (reachable_fuel objs s) objs ∅ (reverse (gate s))) ∧
  (_eligible objs s = true ↔ Reachable objs s).
Proof.
  split; [|apply reachable_spec].
  apply reachable_loop_total. unfold reachable_fuel. rewrite length_reverse. lia.
Qed.

(** The original chain rule, for comparison: every ancestor on the only path is usable. *)
Inductive Chain_up (objs : gmap sid _Scheduled) : list sid → Prop :=
| Chain_root : Chain_up objs []
| Chain_parent p ps :
    objs !! p = Some ps → usable_hop ps = true → Chain_up objs (gate ps) → Chain_up objs [p].

(** with at most one parent per node the any-path rule is the original's chain rule:
    eligible exactly when every ping ancestor, up to the root, is checked and up or
    degraded. *)
Theorem single_parent_chain_rule (objs : gmap sid _Scheduled) (s : _Scheduled)
    (Hs : (length (gate s) ≤ 1)%nat)
    (Hone : ∀ p ps, objs !! p = Some ps → (length (gate ps) ≤ 1)%nat) :
  _eligible objs s = true ↔ Chain_up objs (gate s).
Proof.
  unfold _eligible. rewrite reachable_spec. unfold Reachable. split.
  - intros [->|(p & Hp & Hlive)]; [constructor|].
    destruct (gate s) as [|g []]; simpl in Hs; [set_solver| |lia].
    apply list_elem_of_singleton in Hp as <-.
    clear Hs. induction Hlive as [p ps Hps Hu Hg|p ps q Hps Hu Hq _ IH].
    + eapply Chain_parent; [done..|]. rewrite Hg. constructor.
    + eapply Chain_parent; [done..|]. specialize (Hone p ps Hps).
      destruct (gate ps) as [|g' []]; simpl in *; [set_solver| |lia].
      by apply list_elem_of_singleton in Hq as <-.
  - intros Hchain. destruct (gate s) as [|g []]; simpl in Hs; [by left| |lia]. right.
    exists g. split; [set_solver|]. clear Hs.
    remember [g] as l eqn:El. revert g El.
    induction Hchain as [|p ps Hps Hu Hc IH]; intros g [= ->].
    specialize (Hone g ps Hps). destruct (gate ps) as [|g' []] eqn:Hg; simpl in *; [| |lia].
    + by eapply Live_root.
    + eapply Live_hop; [done..| |by apply IH]. rewrite Hg. set_solver.
Qed.

(** A two-level chain: a root that is up and a degraded router behind it. *)
Definition demo_sched (g : list sid) (code : Z) : _Scheduled :=
  MkScheduled 0 (new_node "router" PING) ((new_state 2 0) <| lastcheck := code |>)
    g 30 None 0 false true true.

Definition demo_objs : gmap sid _Scheduled :=
  {[0%nat := demo_sched [] OK; 1%nat := demo_sched [0%nat] DEGRADED]}.

Lemma single_parent_chain_rule_witness :
  _eligible demo_objs (demo_sched [1%nat] OK) = true ∧ Chain_up demo_objs [1%nat].
Proof.
  assert (_eligible demo_objs (demo_sched [1%nat] OK) = true) as H by (vm_compute; reflexivity).
  split; [exact H|].
  apply (single_parent_chain_rule demo_objs (demo_sched [1%nat] OK)); [simpl; lia| |exact H].
  intros p ps Hp. unfold demo_objs in Hp.
  apply lookup_insert_Some in Hp as [[_ <-]|[_ [_ <-]%lookup_singleton_Some]];
    simpl; lia.
Defined.
