(* ===== verification/Flatten.v ===== *)
(** * Flattening the configuration (src/psysmon/engine/scheduler.py)

    [Scheduler._flatten] turns the node graph into the scheduled set: an iterative
    pre-order walk that schedules every node once, records its direct ping parents, and
    drops what only a non-ping parent leads to. *)
From S2P Require Import Prelude Status Model Graph Gate.

(** What [Scheduler.__init__] copies out of the settings. *)
Record SchedConfig : Type := MkSchedConfig {
  default_interval : Q;
  pageinterval_s : Q;
  slow_check_s : Q;
  page_on_degraded : bool;
  contact_on_default : string;
  max_concurrency : Z;
  cfg_source_ip : option string
}.

Definition _MIN_INTERVAL_S : Q := 1 # 100.

Definition _effective_source (cfg : SchedConfig) (node : Node) : option string :=
  let tok := source node in
  if bool_decide (tok = Some SOURCE_AUTO) then None
  else if bool_decide (tok ≠ None ∧ tok ≠ Some "") then tok
  else if is_ping_type (check_type node) then None
  else cfg_source_ip cfg.

(** [max(node.interval or self._default_interval, _MIN_INTERVAL_S)] *)
Definition effective_interval (cfg : SchedConfig) (node : Node) : Q :=
  let or_default :=
    match interval node with
    | Some i => if Qeqb i 0 then default_interval cfg else i
    | None => default_interval cfg
    end in
  py_maxQ or_default _MIN_INTERVAL_S.

Definition new_scheduled (cfg : SchedConfig) (wall : Q) (n : nid) (nd : Node) : _Scheduled :=
  {| node_ref := n; node := nd; state := new_state (node_max_down nd) wall; gate := [];
     sched_interval := effective_interval cfg nd; sched_source := _effective_source cfg nd;
     next_due := 0; in_flight := false; checked := false; alive := true |}.

(** The three locals of [_flatten]; [sched_of] gives the position in [order], and the
    object at position [i] has identity [base + i]. *)
Record flat : Type := MkFlat {
  sched_of : gmap nid nat;
  order : list _Scheduled;
  behind_non_ping : list nid
}.

Definition entry : Type := nid * option sid * bool.

Definition add_gate (i : nat) (p : sid) (fl : flat) : flat :=
  MkFlat (sched_of fl)
    (alter (λ s, if bool_decide (p ∈ gate s) then s
                 else s <| gate := gate s ++ [p] |>) i (order fl))
    (behind_non_ping fl).

Section flatten.
Context (store : gmap nid Node) (cfg : SchedConfig) (wall : Q) (base : nat).

(** One iteration of [while stack]: the popped entry and the rest of the stack. *)
Definition flatten_visit (fl : flat) (e : entry) (stack : list entry) : flat * list entry :=
  let '(n, parent, reachable) := e in
  match store !! n with
  | None => (fl, stack)
  | Some nd =>
      if negb reachable then
        (MkFlat (sched_of fl) (order fl)
           (if bool_decide (n ∈ behind_non_ping fl) then behind_non_ping fl
            else behind_non_ping fl ++ [n]), stack)
      else
        let '(fl1, i, fresh) :=
          match sched_of fl !! n with
          | Some i => (fl, i, false)
          | None =>
              (MkFlat (<[n := length (order fl)]> (sched_of fl))
                 (order fl ++ [new_scheduled cfg wall n nd]) (behind_non_ping fl),
               length (order fl), true)
          end in
        let fl2 := match parent with Some p => add_gate i p fl1 | None => fl1 end in
        if fresh then
          let is_ping := is_ping_type (check_type nd) in
          let child_parent := if is_ping then Some (base + i)%nat else None in
          (fl2, ((λ c, (c, child_parent, is_ping)) <$> children nd) ++ stack)
        else (fl2, stack)
  end.

Fixpoint flatten_loop (fuel : nat) (fl : flat) (stack : list entry) : option flat :=
  match fuel with
  | O => None
  | S fuel =>
      match stack with
      | [] => Some fl
      | e :: stack' =>
          let '(fl', stack'') := flatten_visit fl e stack' in flatten_loop fuel fl' stack''
      end
  end.

(** One iteration per root and per child edge, and the final empty-stack test. *)
Definition flatten_fuel (roots : list nid) : nat :=
  S (length roots + budget store (λ nd, length (children nd)) ∅).

Definition flatten_start (roots : list nid) : list entry := (λ r, (r, None, true)) <$> roots.

Definition flatten_warning (nd : Node) : string :=
  hostname nd +:+ " (" +:+ ct_value (check_type nd) +:+ ") sits behind a non-ping parent and "
  +:+ "can never be reached; not scheduling it".

Definition flatten_warnings (fl : flat) : list string :=
  omap (λ n, match sched_of fl !! n with
             | Some _ => None
             | None => flatten_warning <$> store !! n
             end) (behind_non_ping fl).

(** Returns the scheduled objects in order, with the warnings. *)
Definition _flatten (roots : list nid) : list _Scheduled * list string :=
  let fl := default (MkFlat ∅ [] []) (flatten_loop (flatten_fuel roots) (MkFlat ∅ [] [])
                                        (flatten_start roots)) in
  (order fl, flatten_warnings fl).
End flatten.

(** ** The specification: what the walk must find *)

(** [Visited store roots n]: a path leads from a root to [n] on which every node but
    [n] is a ping. *)
Inductive Visited (store : gmap nid Node) (roots : list nid) : nid → Prop :=
| Visited_root r : r ∈ roots → Visited store roots r
| Visited_child p pd c :
    Visited store roots p → store !! p = Some pd → is_ping_type (check_type pd) = true →
    c ∈ children pd → Visited store roots c.

(** [p] is a ping node that gates [c]. *)
Definition ping_parent (store : gmap nid Node) (roots : list nid) (p c : nid) : Prop :=
  Visited store roots p ∧ ∃ pd, store !! p = Some pd ∧
    is_ping_type (check_type pd) = true ∧ c ∈ children pd.

(** [c] hangs below a scheduled node that is not a ping. *)
Definition behind (store : gmap nid Node) (roots : list nid) (c : nid) : Prop :=
  ∃ p pd, Visited store roots p ∧ store !! p = Some pd ∧
    is_ping_type (check_type pd) = false ∧ c ∈ children pd.

(** A store without dangling references, as parsing builds it. *)
Definition closed_graph (store : gmap nid Node) (roots : list nid) : Prop :=
  (∀ r, r ∈ roots → is_Some (store !! r)) ∧
  (∀ n nd c, store !! n = Some nd → c ∈ children nd → is_Some (store !! c)).

(** ** The loop invariant *)

(** Growth of [order]: objects stay in place with the same node and a larger gate. *)
Definition order_le (o o' : list _Scheduled) : Prop :=
  ∀ i s, o !! i = Some s → ∃ s', o' !! i = Some s' ∧ node_ref s' = node_ref s ∧
    node s' = node s ∧ gate s ⊆ gate s'.

Lemma order_le_refl o : order_le o o.
Proof. intros i s Hs. eauto. Qed.

Lemma order_le_trans o1 o2 o3 : order_le o1 o2 → order_le o2 o3 → order_le o1 o3.
Proof.
  intros H12 H23 i s (s2 & ? & ? & ? & ?)%H12.
  destruct (H23 i s2) as (s3 & ? & ? & ? & ?); [done|]. exists s3. split_and!; [congruence..|set_solver].
Qed.

Lemma order_le_snoc o s : order_le o (o ++ [s]).
Proof. intros i x Hx. exists x. split_and!; [by apply lookup_app_l_Some|done..]. Qed.

Lemma order_le_add_gate i p fl : order_le (order fl) (order (add_gate i p fl)).
Proof.
  intros j s Hs. unfold add_gate. simpl. destruct (decide (j = i)) as [->|Hne].
  - rewrite list_lookup_alter_eq, Hs. simpl. eexists. split; [done|].
    case_bool_decide; destruct s; simpl; set_solver.
  - rewrite list_lookup_alter_ne by done. eauto.
Qed.

#[local] Hint Resolve order_le_refl order_le_snoc order_le_add_gate : psy.

Section flatten_proof.
Context (store : gmap nid Node) (cfg : SchedConfig) (wall : Q) (base : nat).
Context (roots : list nid) (Hclosed : closed_graph store roots).

Abbreviation visit := (flatten_visit store cfg wall base).
Abbreviation visited := (Visited store roots).

(** [c] is a child of the object at [j], which is a ping or not as [b] says. *)
Definition child_of (o : list _Scheduled) (b : bool) (j : nat) (c : nid) : Prop :=
  ∃ q, o !! j = Some q ∧ is_ping_type (check_type (node q)) = b ∧ c ∈ children (node q).

Definition gated_by (o : list _Scheduled) (j : nat) (c : nid) : Prop :=
  ∃ i s, o !! i = Some s ∧ node_ref s = c ∧ (base + j)%nat ∈ gate s.

(** Every waiting entry was pushed for a root, or for a child of a scheduled node. *)
Definition entry_ok (o : list _Scheduled) (e : entry) : Prop :=
  match e with
  | (c, None, true) => c ∈ roots
  | (c, Some p, true) => ∃ j, p = (base + j)%nat ∧ child_of o true j c
  | (c, None, false) => ∃ j, child_of o false j c
  | (_, Some _, false) => False
  end.

(** A scheduled object as the walk leaves it: everything but the gate is as created. *)
Definition made (s : _Scheduled) : Prop :=
  store !! node_ref s = Some (node s) ∧
  s <| gate := [] |> = new_scheduled cfg wall (node_ref s) (node s).

Record Inv (fl : flat) (stack : list entry) : Prop := {
  inv_index : ∀ n i, sched_of fl !! n = Some i ↔
    ∃ s, order fl !! i = Some s ∧ node_ref s = n;
  inv_made : ∀ i s, order fl !! i = Some s → made s ∧ visited (node_ref s);
  inv_gate : ∀ i s p, order fl !! i = Some s → p ∈ gate s →
    ∃ j, p = (base + j)%nat ∧ child_of (order fl) true j (node_ref s);
  inv_nodup : ∀ i s, order fl !! i = Some s → NoDup (gate s);
  inv_stack : ∀ e, e ∈ stack → entry_ok (order fl) e;
  inv_behind : ∀ c, c ∈ behind_non_ping fl → ∃ j, child_of (order fl) false j c;
  inv_roots : ∀ r, r ∈ roots → is_Some (sched_of fl !! r) ∨ (r, None, true) ∈ stack;
  inv_kids : ∀ j c, child_of (order fl) true j c →
    gated_by (order fl) j c ∨ (c, Some (base + j)%nat, true) ∈ stack;
  inv_kids_behind : ∀ j c, child_of (order fl) false j c →
    c ∈ behind_non_ping fl ∨ (c, None, false) ∈ stack
}.

Lemma child_of_mono o o' b j c : order_le o o' → child_of o b j c → child_of o' b j c.
Proof.
  intros Hle (q & Hq & Hb & Hc). destruct (Hle j q Hq) as (q' & ? & ? & En & ?).
  exists q'. by rewrite En.
Qed.

Lemma gated_by_mono o o' j c : order_le o o' → gated_by o j c → gated_by o' j c.
Proof.
  intros Hle (i & s & Hs & Hc & Hg). destruct (Hle i s Hs) as (s' & ? & ? & ? & ?).
  exists i, s'. split_and!; [done|congruence|set_solver].
Qed.

Lemma entry_ok_mono o o' e : order_le o o' → entry_ok o e → entry_ok o' e.
Proof.
  intros Hle. destruct e as [[c [p|]] []]; simpl; naive_solver eauto using child_of_mono.
Qed.

Lemma Inv_start : Inv (MkFlat ∅ [] []) (flatten_start roots).
Proof.
  split; simpl.
  - intros n i. rewrite lookup_empty. naive_solver.
  - done.
  - done.
  - done.
  - intros e (r & -> & Hr)%list_elem_of_fmap. done.
  - intros c Hc. set_solver.
  - intros r Hr. right. apply list_elem_of_fmap. eauto.
  - intros j c (q & Hq & _). done.
  - intros j c (q & Hq & _). done.
Qed.

(** A non-ping path: only [behind_non_ping] grows. *)
Lemma Inv_behind fl c stack :
  Inv fl ((c, None, false) :: stack) →
  Inv (MkFlat (sched_of fl) (order fl)
         (if bool_decide (c ∈ behind_non_ping fl) then behind_non_ping fl
          else behind_non_ping fl ++ [c])) stack.
Proof.
  intros [Hi Hm Hg Hn Hs Hb Hr Hk Hkb]. split; simpl; [done..| | | | |].
  - intros e He. apply Hs. set_solver.
  - intros d Hd. destruct (decide (d = c)) as [->|].
    + apply (Hs (c, None, false)). set_solver.
    + apply Hb. case_bool_decide; set_solver.
  - intros r Hroot. destruct (Hr r Hroot); set_solver.
  - intros j d Hd. destruct (Hk j d Hd); set_solver.
  - intros j d Hd. destruct (Hkb j d Hd) as [|[?|?]%elem_of_cons]; [|simplify_eq|];
      case_bool_decide; set_solver.
Qed.

Lemma add_gate_inv i p fl k s' :
  order (add_gate i p fl) !! k = Some s' →
  ∃ s, order fl !! k = Some s ∧ node_ref s' = node_ref s ∧ node s' = node s ∧
    s' <| gate := [] |> = s <| gate := [] |> ∧
    (gate s' = gate s ∨ (k = i ∧ (p ∉ gate s) ∧ gate s' = gate s ++ [p])).
Proof.
  unfold add_gate. simpl. destruct (decide (k = i)) as [->|Hne].
  - rewrite list_lookup_alter_eq. intros (s & Hs & ->)%fmap_Some.
    exists s. split; [done|]. case_bool_decide; destruct s; naive_solver.
  - rewrite list_lookup_alter_ne by done. naive_solver.
Qed.

Lemma add_gate_same i p fl s :
  order fl !! i = Some s →
  ∃ s', order (add_gate i p fl) !! i = Some s' ∧ node_ref s' = node_ref s ∧ p ∈ gate s'.
Proof.
  intros Hs. unfold add_gate. simpl. rewrite list_lookup_alter_eq, Hs. simpl.
  eexists. split; [done|]. case_bool_decide; destruct s; set_solver.
Qed.

(** The stacks below are compared as sets: [stack] is [stack1] without the entry. *)
Definition pops (e : entry) (stack1 stack : list entry) : Prop :=
  (∀ x, x ∈ stack1 → x = e ∨ x ∈ stack) ∧ (∀ x, x ∈ stack → x ∈ stack1).

Lemma Inv_pop_root fl n i stack1 stack :
  pops (n, None, true) stack1 stack → sched_of fl !! n = Some i →
  Inv fl stack1 → Inv fl stack.
Proof.
  intros [Hp Hp'] Hi' [Hi Hm Hg Hn Hs Hb Hr Hk Hkb]. split; [done..| | | | |].
  - intros e He. by apply Hs, Hp'.
  - done.
  - intros r Hroot. destruct (Hr r Hroot) as [?|[?|?]%Hp]; [by left| |by right].
    simplify_eq. left. eauto.
  - intros j c Hc. destruct (Hk j c Hc) as [?|[?|?]%Hp]; [by left|done|by right].
  - intros j c Hc. destruct (Hkb j c Hc) as [?|[?|?]%Hp]; [by left|done|by right].
Qed.

Lemma Inv_pop_child fl n p i stack1 stack :
  pops (n, Some p, true) stack1 stack → (n, Some p, true) ∈ stack1 →
  sched_of fl !! n = Some i → Inv fl stack1 → Inv (add_gate i p fl) stack.
Proof.
  intros [Hp Hp'] Hin Hni [Hi Hm Hg Hn Hs Hb Hr Hk Hkb].
  pose proof (order_le_add_gate i p fl) as Hle.
  assert (∃ si, order fl !! i = Some si ∧ node_ref si = n) as (si & Hsi & Hsn) by by apply Hi.
  destruct (Hs _ Hin) as (jp & Ejp & Hcp).
  assert (∀ b j c, child_of (order (add_gate i p fl)) b j c → child_of (order fl) b j c) as Hback.
  { intros b j c (q & (q0 & Hq0 & _ & En & _)%add_gate_inv & Hb' & Hc). exists q0. by rewrite <- En. }
  split.
  - intros m k. rewrite (Hi m k). split.
    + intros (s & Hsk & <-). destruct (Hle k s Hsk) as (s' & ? & ? & _). eauto.
    + intros (s' & (s & ? & En & _)%add_gate_inv & <-). eauto.
  - intros k s' (s & Hsk & En & Ed & Eg & _)%add_gate_inv. destruct (Hm k s Hsk) as [[? ?] ?].
    unfold made. rewrite En, Ed, Eg. done.
  - intros k s' x (s & Hsk & En & Ed & _ & Hgs)%add_gate_inv Hx. rewrite En.
    destruct Hgs as [Eg|(-> & _ & Eg)]; rewrite Eg in Hx.
    + destruct (Hg k s x Hsk Hx) as (j & ? & ?). eauto using child_of_mono.
    + apply elem_of_app in Hx as [Hx| ->%list_elem_of_singleton].
      * destruct (Hg i s x Hsk Hx) as (j & ? & ?). eauto using child_of_mono.
      * simplify_eq. eauto using child_of_mono.
  - intros k s' (s & Hsk & _ & _ & _ & Hgs)%add_gate_inv. specialize (Hn k s Hsk).
    destruct Hgs as [->|(_ & ? & ->)]; [done|]. apply NoDup_app. split_and!; [done| |apply NoDup_singleton].
    intros x ? ->%list_elem_of_singleton. done.
  - intros e He. eapply entry_ok_mono; [done|]. by apply Hs, Hp'.
  - intros c Hc. destruct (Hb c Hc) as (j & ?). eauto using child_of_mono.
  - intros r Hroot. destruct (Hr r Hroot) as [?|[?|?]%Hp]; [by left|done|by right].
  - intros j c Hc%Hback. destruct (Hk j c Hc) as [?|[?|?]%Hp]; [|simplify_eq|by right].
    + left. by eapply gated_by_mono.
    + left. assert (jp = j) as -> by lia. destruct (add_gate_same i (base + j)%nat fl si Hsi) as (s' & ? & ? & ?).
      exists i, s'. split_and!; [done|congruence|done].
  - intros j c Hc%Hback. destruct (Hkb j c Hc) as [?|[?|?]%Hp]; [by left|done|by right].
Qed.

(** A node met for the first time: it is scheduled and its children are pushed. *)
Definition pushes (i : nat) (nd : Node) : list entry :=
  let is_ping := is_ping_type (check_type nd) in
  (λ c, (c, if is_ping then Some (base + i)%nat else None, is_ping)) <$> children nd.

Definition scheduled_fresh (fl : flat) (n : nid) (nd : Node) : flat :=
  MkFlat (<[n := length (order fl)]> (sched_of fl))
    (order fl ++ [new_scheduled cfg wall n nd]) (behind_non_ping fl).

Lemma entry_visited fl stack n par :
  Inv fl stack → (n, par, true) ∈ stack → visited n.
Proof.
  intros HI He. apply (inv_stack _ _ HI) in He. destruct par as [p|]; simpl in He.
  - destruct He as (j & _ & q & Hq & Hping & Hc).
    destruct (inv_made _ _ HI j q Hq) as [[Hst _] Hv]. by eapply Visited_child.
  - by apply Visited_root.
Qed.

Lemma Inv_fresh fl n nd par stack :
  (n, par, true) ∈ stack → store !! n = Some nd → sched_of fl !! n = None →
  Inv fl stack →
  Inv (scheduled_fresh fl n nd) (pushes (length (order fl)) nd ++ stack).
Proof.
  intros Hin Hnd Hnone HI. pose proof (entry_visited fl stack n par HI Hin) as Hvis.
  destruct HI as [Hi Hm Hg Hn Hs Hb Hr Hk Hkb].
  set (L := length (order fl)) in *. set (ns := new_scheduled cfg wall n nd) in *.
  assert (order_le (order fl) (order fl ++ [ns])) as Hle by auto with psy.
  assert (∀ k s, (order fl ++ [ns]) !! k = Some s →
    order fl !! k = Some s ∨ k = L ∧ s = ns) as Hlook.
  { intros k s [?|[? Hk1]]%lookup_app_Some; [by left|right].
    apply list_lookup_singleton_Some in Hk1 as [? <-]. split; [lia|done]. }
  assert ((order fl ++ [ns]) !! L = Some ns) as HL.
  { apply list_lookup_middle. done. }
  assert (∀ e, e ∈ pushes L nd → entry_ok (order fl ++ [ns]) e) as Hpush.
  { intros e (c & -> & Hc)%list_elem_of_fmap. simpl.
    destruct (is_ping_type (check_type nd)) eqn:Hping;
      [exists L; split; [done|]|exists L]; by exists ns. }
  split; simpl.
  - intros m k. rewrite lookup_insert_Some, Hi. split.
    + intros [[<- <-]|(_ & s & Hsk & <-)]; [by exists ns|].
      destruct (Hle k s Hsk) as (s' & ? & ? & _). eauto.
    + intros (s & [Hsk|[-> ->]]%Hlook & <-); [right|by left]. split; [|eauto].
      intros ->. assert (sched_of fl !! node_ref s = Some k) by (apply Hi; eauto). congruence.
  - intros k s [Hsk|[-> ->]]%Hlook; [by apply (Hm k)|]. by repeat split.
  - intros k s p [Hsk|[-> ->]]%Hlook Hp; [|set_solver].
    destruct (Hg k s p Hsk Hp) as (j & ? & ?). eauto using child_of_mono.
  - intros k s [Hsk|[-> ->]]%Hlook; [by apply (Hn k)|constructor].
  - intros e [He|He]%elem_of_app; [by apply Hpush|]. eauto using entry_ok_mono.
  - intros c Hc. destruct (Hb c Hc) as (j & ?). eauto using child_of_mono.
  - intros r Hroot. destruct (decide (r = n)) as [->|Hne]; [left; by rewrite lookup_insert_eq|].
    rewrite lookup_insert_ne by done. destruct (Hr r Hroot); set_solver.
  - intros j c (q & [Hq|[-> ->]]%Hlook & Hping & Hc); simpl in *.
    + destruct (Hk j c) as [?|?]; [by exists q|left; eauto using gated_by_mono|set_solver].
    + right. apply elem_of_app. left. apply list_elem_of_fmap. exists c. by rewrite Hping.
  - intros j c (q & [Hq|[-> ->]]%Hlook & Hping & Hc); simpl in *.
    + destruct (Hkb j c) as [?|?]; [by exists q|by left|set_solver].
    + right. apply elem_of_app. left. apply list_elem_of_fmap. exists c. by rewrite Hping.
Qed.

Lemma Inv_visit fl e stack :
  Inv fl (e :: stack) → let '(fl', stack') := visit fl e stack in Inv fl' stack'.
Proof.
  intros HI. destruct e as [[n par] r]. unfold flatten_visit.
  assert (is_Some (store !! n)) as [nd Hnd].
  { assert (entry_ok (order fl) (n, par, r)) as Hok by (apply (inv_stack _ _ HI); set_solver).
    destruct par as [p|], r; simpl in Hok; [|done|by apply Hclosed|];
      [destruct Hok as (j & _ & q & Hq & _ & Hc)|destruct Hok as (j & q & Hq & _ & Hc)];
      destruct (inv_made _ _ HI j q Hq) as [[? _] _]; by eapply (proj2 Hclosed). }
  rewrite Hnd. destruct r; simpl; last first.
  { destruct par as [p|]; [|by apply Inv_behind].
    exfalso. apply (inv_stack _ _ HI (n, Some p, false)). set_solver. }
  destruct (sched_of fl !! n) as [i|] eqn:Hni; simpl.
  - destruct par as [p|].
    + eapply (Inv_pop_child fl n p i ((n, Some p, true) :: stack)); [split| | |done]; set_solver.
    + eapply (Inv_pop_root fl n i ((n, None, true) :: stack)); [split| |done]; set_solver.
  - eapply Inv_fresh in HI; [|apply list_elem_of_here|done..].
    fold (scheduled_fresh fl n nd). fold (pushes (length (order fl)) nd).
    assert (sched_of (scheduled_fresh fl n nd) !! n = Some (length (order fl))) as Hni'
      by apply lookup_insert_eq.
    destruct par as [p|].
    + eapply Inv_pop_child; [split| | |exact HI]; set_solver.
    + eapply Inv_pop_root; [split| |exact HI]; set_solver.
Qed.

Lemma Inv_loop fuel fl stack fl' :
  Inv fl stack → flatten_loop store cfg wall base fuel fl stack = Some fl' → Inv fl' [].
Proof.
  revert fl stack. induction fuel as [|fuel IH]; intros fl stack HI; simpl; [done|].
  destruct stack as [|e stack]; [naive_solver|].
  pose proof (Inv_visit fl e stack HI) as HI'. destruct (visit fl e stack). by apply IH.
Qed.

Lemma flatten_loop_total fuel fl stack :
  (length stack + budget store (λ nd, length (children nd)) (dom (sched_of fl)) < fuel)%nat →
  is_Some (flatten_loop store cfg wall base fuel fl stack).
Proof.
  revert fl stack. induction fuel as [|fuel IH]; intros fl stack Hf; [lia|]. simpl.
  destruct stack as [|[[n par] r] stack]; [done|]. unfold flatten_visit. simpl in Hf.
  destruct (store !! n) as [nd|] eqn:Hnd; [|apply IH; lia].
  destruct r; simpl; [|apply IH; simpl; lia].
  destruct (sched_of fl !! n) as [i|] eqn:Hni; simpl.
  - apply IH. destruct par; simpl; lia.
  - apply IH. rewrite (budget_visit _ _ _ n nd Hnd) in Hf by by apply not_elem_of_dom.
    rewrite length_app, length_fmap.
    replace (dom (sched_of _)) with ({[n]} ∪ dom (sched_of fl)); [lia|].
    destruct par; simpl; by rewrite dom_insert_L.
Qed.

Lemma flatten_result :
  ∃ fl, flatten_loop store cfg wall base (flatten_fuel store roots) (MkFlat ∅ [] [])
          (flatten_start roots) = Some fl ∧ Inv fl [].
Proof.
  destruct (flatten_loop_total (flatten_fuel store roots) (MkFlat ∅ [] []) (flatten_start roots))
    as [fl Hfl].
  { unfold flatten_fuel, flatten_start. rewrite length_fmap. simpl. rewrite dom_empty_L. lia. }
  exists fl. split; [done|]. eapply Inv_loop; [apply Inv_start|done].
Qed.
End flatten_proof.

(** ** What the walk returns *)
Section flatten_spec.
Context (store : gmap nid Node) (cfg : SchedConfig) (wall : Q) (base : nat).
Context (roots : list nid) (Hclosed : closed_graph store roots).

Abbreviation flattened := (_flatten store cfg wall base roots).

Lemma flatten_inv :
  ∃ fl, flattened = (order fl, flatten_warnings store fl) ∧
    Inv store cfg wall base roots fl [].
Proof.
  destruct (flatten_result store cfg wall base roots Hclosed) as (fl & Hfl & HI).
  exists fl. split; [|done]. unfold _flatten. by rewrite Hfl.
Qed.

Lemma flatten_made i s :
  flattened.1 !! i = Some s →
  made store cfg wall s ∧ Visited store roots (node_ref s).
Proof. destruct flatten_inv as (fl & -> & HI). apply (inv_made _ _ _ _ _ _ _ HI). Qed.

Lemma flatten_index i j s s' :
  flattened.1 !! i = Some s → flattened.1 !! j = Some s' → node_ref s = node_ref s' → i = j.
Proof.
  destruct flatten_inv as (fl & -> & HI). simpl. intros Hi Hj Heq.
  assert (sched_of fl !! node_ref s = Some i) by (apply (inv_index _ _ _ _ _ _ _ HI); eauto).
  assert (sched_of fl !! node_ref s = Some j) by (apply (inv_index _ _ _ _ _ _ _ HI); eauto).
  congruence.
Qed.

Lemma flatten_nodup : NoDup (node_ref <$> flattened.1).
Proof.
  apply NoDup_alt. intros i j n. rewrite !list_lookup_fmap.
  intros (s & Hs & ->)%fmap_Some (s' & Hs' & Heq)%fmap_Some. by eapply flatten_index.
Qed.

Lemma flatten_scheduled n :
  Visited store roots n ↔ ∃ i s, flattened.1 !! i = Some s ∧ node_ref s = n.
Proof.
  split; [|intros (i & s & Hs & <-); by apply (flatten_made i)].
  destruct flatten_inv as (fl & -> & HI). simpl.
  induction 1 as [r Hr|p pd c _ (i & s & Hs & <-) Hpd Hping Hc].
  - destruct (inv_roots _ _ _ _ _ _ _ HI r Hr) as [[i Hi]|Hin]; [|set_solver].
    apply (inv_index _ _ _ _ _ _ _ HI) in Hi as (s & ? & ?). eauto.
  - destruct (inv_made _ _ _ _ _ _ _ HI i s Hs) as [[Hst _] _].
    assert (pd = node s) as -> by congruence.
    destruct (inv_kids _ _ _ _ _ _ _ HI i c) as [(k & s' & ? & ? & _)|Hin];
      [by exists s|eauto|set_solver].
Qed.

Lemma flatten_gate i s p :
  flattened.1 !! i = Some s →
  NoDup (gate s) ∧
  (p ∈ gate s ↔ ∃ j q, flattened.1 !! j = Some q ∧ p = (base + j)%nat ∧
     ping_parent store roots (node_ref q) (node_ref s)).
Proof.
  intros Hs. assert (∀ j q, flattened.1 !! j = Some q →
    made store cfg wall q ∧ Visited store roots (node_ref q)) as Hmade by apply flatten_made.
  pose proof flatten_index as Hidx.
  destruct flatten_inv as (fl & Hfl & HI). rewrite Hfl in *. simpl in *.
  split; [by eapply (inv_nodup _ _ _ _ _ _ _ HI)|]. split.
  - intros Hp. destruct (inv_gate _ _ _ _ _ _ _ HI i s p Hs Hp) as (j & -> & q & Hq & Hping & Hc).
    exists j, q. split_and!; [done..|]. destruct (Hmade j q Hq) as [[Hst _] Hv].
    split; [done|]. eauto.
  - intros (j & q & Hq & -> & _ & pd & Hpd & Hping & Hc).
    destruct (Hmade j q Hq) as [[Hst _] _]. assert (pd = node q) as -> by congruence.
    destruct (inv_kids _ _ _ _ _ _ _ HI j (node_ref s)) as [(k & s' & Hs' & Heq & Hin)|Hin];
      [by exists q| |set_solver].
    assert (k = i) as -> by (eapply Hidx; eauto). by simplify_eq.
Qed.

Lemma flatten_warnings_spec w :
  w ∈ flattened.2 ↔ ∃ n nd, store !! n = Some nd ∧ w = flatten_warning nd ∧
    behind store roots n ∧ ¬ Visited store roots n.
Proof.
  setoid_rewrite flatten_scheduled. pose proof flatten_scheduled as Hvis.
  destruct flatten_inv as (fl & Hfl & HI). rewrite Hfl in *. simpl in *.
  unfold flatten_warnings. rewrite list_elem_of_omap.
  assert (∀ n, n ∈ behind_non_ping fl ↔ behind store roots n) as Hbehind.
  { intros n. split.
    - intros (j & q & Hq & Hping & Hc)%(inv_behind _ _ _ _ _ _ _ HI).
      destruct (inv_made _ _ _ _ _ _ _ HI j q Hq) as [[? _] ?]. exists (node_ref q), (node q). eauto.
    - intros (p & pd & (j & q & Hq & <-)%Hvis & Hpd & Hping & Hc).
      destruct (inv_made _ _ _ _ _ _ _ HI j q Hq) as [[? _] _].
      assert (pd = node q) as -> by congruence.
      destruct (inv_kids_behind _ _ _ _ _ _ _ HI j n); [by exists q|done|set_solver]. }
  assert (∀ n, sched_of fl !! n = None ↔ ¬ ∃ i s, order fl !! i = Some s ∧ node_ref s = n) as Hnone.
  { intros n. rewrite eq_None_not_Some. unfold is_Some.
    setoid_rewrite (inv_index _ _ _ _ _ _ _ HI). naive_solver. }
  split.
  - intros (n & Hn%Hbehind & Hw). case_match eqn:Hs; [done|].
    apply fmap_Some in Hw as (nd & Hnd & ->). exists n, nd. by rewrite <- Hnone.
  - intros (n & nd & Hnd & -> & Hb%Hbehind & Hv%Hnone). exists n. split; [done|].
    by rewrite Hv, Hnd.
Qed.
End flatten_spec.

Lemma effective_interval_pos cfg nd : (_MIN_INTERVAL_S <= effective_interval cfg nd)%Q.
Proof. unfold effective_interval. apply py_maxQ_r. Qed.

(** ** Properties *)

(** C15: the scheduled set.  The walk always finishes, and schedules exactly the nodes
    some path of ping nodes leads to from a root, each of them once, however many
    parents it has and whatever the shape of the graph. *)
Theorem flatten_schedules_once (store : gmap nid Node) (cfg : SchedConfig) (wall : Q) (base : nat)
    (roots : list nid) (Hclosed : closed_graph store roots) :
  is_Some (flatten_loop store cfg wall base (flatten_fuel store roots) (MkFlat ∅ [] [])
             (flatten_start roots)) ∧
  NoDup (node_ref <$> (_flatten store cfg wall base roots).1) ∧
  ∀ n, n ∈ node_ref <$> (_flatten store cfg wall base roots).1 ↔ Visited store roots n.
Proof.
  split; [destruct (flatten_result store cfg wall base roots Hclosed) as (fl & -> & _); eauto|].
  split; [by apply flatten_nodup|].
  intros n. rewrite list_elem_of_fmap, (flatten_scheduled store cfg wall base roots) by done.
  setoid_rewrite list_elem_of_lookup. naive_solver.
Qed.

(** C16: the gates.  The gate of a scheduled node lists, without repetition, exactly the
    scheduled ping nodes that have it as a child: a shared node accumulates all its ping
    parents, and a non-ping parent never gates. *)
Theorem flatten_gate_exact (store : gmap nid Node) (cfg : SchedConfig) (wall : Q) (base : nat)
    (roots : list nid) (i : nat) (s : _Scheduled)
    (Hclosed : closed_graph store roots)
    (Hs : (_flatten store cfg wall base roots).1 !! i = Some s) :
  NoDup (gate s) ∧
  ∀ p, p ∈ gate s ↔ ∃ j q,
    (_flatten store cfg wall base roots).1 !! j = Some q ∧ p = (base + j)%nat ∧
    ping_parent store roots (node_ref q) (node_ref s).
Proof.
  split; [by eapply (flatten_gate store cfg wall base roots Hclosed i s 0)|].
  intros p. by apply (flatten_gate store cfg wall base roots Hclosed i s p).
Qed.

(** the dropped nodes.  A warning is emitted exactly for each node that hangs below
    a scheduled non-ping node and that no path of ping nodes reaches. *)
Theorem flatten_warns_dropped (store : gmap nid Node) (cfg : SchedConfig) (wall : Q) (base : nat)
    (roots : list nid) (w : string) (Hclosed : closed_graph store roots) :
  w ∈ (_flatten store cfg wall base roots).2 ↔
  ∃ n nd, store !! n = Some nd ∧ w = flatten_warning nd ∧
    behind store roots n ∧ ¬ Visited store roots n.
Proof. by apply flatten_warnings_spec. Qed.

(** A small graph: two routers, a host behind both, a mail service behind the host with a
    node below it that cannot be reached, and the cycle an unfiltered parse could give. *)
Definition demo_cfg : SchedConfig := MkSchedConfig 30 600 30 false "both" 50 None.

Definition demo_store : gmap nid Node :=
  list_to_map [
    (0%nat, (new_node "r1" PING) <| children := [2%nat] |>);
    (1%nat, (new_node "r2" PING6) <| children := [2%nat] |>);
    (2%nat, (new_node "host" PING) <| children := [3%nat; 0%nat] |>);
    (3%nat, (new_node "mail" SMTP) <| children := [4%nat] |>);
    (4%nat, new_node "lost" TCP)].

Definition closed_graphb (store : gmap nid Node) (roots : list nid) : bool :=
  forallb (λ r, bool_decide (is_Some (store !! r))) roots &&
  forallb (λ '(_, nd), forallb (λ c, bool_decide (is_Some (store !! c))) (children nd))
    (map_to_list store).

Lemma closed_graphb_spec store roots : closed_graphb store roots = true → closed_graph store roots.
Proof.
  unfold closed_graphb. rewrite andb_true_iff, !forallb_forall.
  intros [Hr Hc]. split.
  - intros r Hr'%list_elem_of_In. apply Hr in Hr'. by apply bool_decide_eq_true in Hr'.
  - intros n nd c Hn Hc'%list_elem_of_In.
    assert (In (n, nd) (map_to_list store)) as Hin by by apply list_elem_of_In, elem_of_map_to_list.
    specialize (Hc _ Hin). simpl in Hc. rewrite forallb_forall in Hc.
    specialize (Hc c Hc'). by apply bool_decide_eq_true in Hc.
Qed.

Lemma flatten_schedules_once_witness :
  node_ref <$> (_flatten demo_store demo_cfg 0 0 [0%nat; 1%nat]).1 = [0; 2; 3; 1]%nat ∧
  NoDup (node_ref <$> (_flatten demo_store demo_cfg 0 0 [0%nat; 1%nat]).1).
Proof.
  split; [vm_compute; reflexivity|].
  apply (flatten_schedules_once demo_store demo_cfg 0 0 [0%nat; 1%nat]).
  apply closed_graphb_spec. vm_compute. reflexivity.
Defined.

Lemma flatten_gate_exact_witness :
  ∃ s, (_flatten demo_store demo_cfg 0 10 [0%nat; 1%nat]).1 !! 1%nat = Some s ∧
       gate s = [10; 13]%nat ∧ NoDup (gate s).
Proof.
  eexists. split; [vm_compute; reflexivity|]. split; [vm_compute; reflexivity|].
  apply (flatten_gate_exact demo_store demo_cfg 0 10 [0%nat; 1%nat] 1).
  - apply closed_graphb_spec. vm_compute. reflexivity.
  - vm_compute. reflexivity.
Defined.

Lemma flatten_warns_dropped_witness :
  ∃ n nd, demo_store !! n = Some nd ∧ flatten_warning (new_node "lost" TCP) = flatten_warning nd ∧
    behind demo_store [0%nat; 1%nat] n ∧ ¬ Visited demo_store [0%nat; 1%nat] n.
Proof.
  apply (flatten_warns_dropped demo_store demo_cfg 0 0).
  - apply closed_graphb_spec. vm_compute. reflexivity.
  - vm_compute. apply list_elem_of_here.
Defined.
