(* ===== verification/Scheduler.v ===== *)
(** * The scheduler: state and operations (src/psysmon/engine/scheduler.py)

    The asyncio program is a set of coroutines that only interleave at [await]s.  Each
    definition below is the code between two awaits, on one explicit state:

    - [tick] (no await inside), dispatching due nodes as tasks;
    - a task of [_run_check] is [TWaiting] (created, or queued on the semaphore), then
      [TRunning] (inside the runner), then possibly [TSending] (inside
      [notifier.send]), then gone;
    - [check_returned], [check_raised], [send_returned], [send_raised] resume it;
    - [ack], [set_note], [node_states], [reload], [export_state], [import_state] run
      without awaiting.

    Clock readings are arguments.  [sent] records the calls of [notifier.send], newest
    first.  The [heapq] list is kept as the sorted list of its entries: the code only
    looks at its head, and sequence numbers make the order total. *)
From S2P Require Import Prelude Status Model StateMachine PingPool Graph Gate Flatten.

Definition _MAX_IDLE_POLL_S : Q := 1.
Definition _MAX_NOTE_LEN : nat := 1024.

Inductive send_kind : Type := SK_DOWN | SK_RECOVERY | SK_REPAGE.

Inductive phase : Type :=
| TWaiting
| TRunning
| TSending (k : send_kind) (changed : bool).

Record heap_entry : Type := MkEntry { due : Q; seq : Z; who : sid }.

Record Scheduler : Type := MkScheduler {
  objs : gmap sid _Scheduled;
  next_sid : sid;
  scheduled : list sid;
  heap : list heap_entry;
  heap_seq : Z;
  tasks : gmap sid phase;
  free_slots : Z;
  dirty : bool;
  warnings : list string;
  pool4 : _Pool;
  pool6 : _Pool;
  os : OS;
  sent : list (sid * PageIntent)
}.

#[export] Instance set_objs : SetField objs := λ f x,
  let '(MkScheduler a b c d e g h i j k l m n) := x in MkScheduler (f a) b c d e g h i j k l m n.
#[export] Instance set_heap : SetField heap := λ f x,
  let '(MkScheduler a b c d e g h i j k l m n) := x in MkScheduler a b c (f d) e g h i j k l m n.
#[export] Instance set_heap_seq : SetField heap_seq := λ f x,
  let '(MkScheduler a b c d e g h i j k l m n) := x in MkScheduler a b c d (f e) g h i j k l m n.
#[export] Instance set_tasks : SetField tasks := λ f x,
  let '(MkScheduler a b c d e g h i j k l m n) := x in MkScheduler a b c d e (f g) h i j k l m n.
#[export] Instance set_free_slots : SetField free_slots := λ f x,
  let '(MkScheduler a b c d e g h i j k l m n) := x in MkScheduler a b c d e g (f h) i j k l m n.
#[export] Instance set_dirty : SetField dirty := λ f x,
  let '(MkScheduler a b c d e g h i j k l m n) := x in MkScheduler a b c d e g h (f i) j k l m n.
#[export] Instance set_warnings : SetField warnings := λ f x,
  let '(MkScheduler a b c d e g h i j k l m n) := x in MkScheduler a b c d e g h i (f j) k l m n.
#[export] Instance set_sent : SetField sent := λ f x,
  let '(MkScheduler a b c d e g h i j k l m n) := x in MkScheduler a b c d e g h i j k l m (f n).

Definition upd (s : sid) (f : _Scheduled → _Scheduled) (sch : Scheduler) : Scheduler :=
  sch <| objs := alter f s (objs sch) |>.

Definition upd_state (s : sid) (f : NodeState → NodeState) (sch : Scheduler) : Scheduler :=
  upd s (λ o, o <| state := f (state o) |>) sch.

(** ** The due-time queue *)

(** Tuple order on [(next_due, seq)]. *)
Definition entry_lt (e e' : heap_entry) : bool :=
  Qltb (due e) (due e') || (Qeqb (due e) (due e') && (seq e <? seq e')).

Fixpoint heappush (h : list heap_entry) (e : heap_entry) : list heap_entry :=
  match h with
  | [] => [e]
  | e' :: h' => if entry_lt e e' then e :: h else e' :: heappush h' e
  end.

Definition _push (s : sid) (sch : Scheduler) : Scheduler :=
  match objs sch !! s with
  | None => sch
  | Some o =>
      sch <| heap := heappush (heap sch) (MkEntry (next_due o) (heap_seq sch) s) |>
          <| heap_seq := heap_seq sch + 1 |>
  end.

Definition _build_heap (sch : Scheduler) : Scheduler :=
  foldl (λ sch s, _push s sch) (sch <| heap_seq := 0 |> <| heap := [] |>) (scheduled sch).

Definition _stagger_due (cfg : SchedConfig) (stagger : bool) (now : Q) (sch : Scheduler) : Scheduler :=
  let count := length (scheduled sch) in
  foldl (λ sch '(i, s),
      let offset := if stagger && negb (bool_decide (count = O))
                    then (inject_Z (Z.of_nat i) / inject_Z (Z.of_nat count)
                          * default_interval cfg)%Q
                    else 0%Q in
      upd s (λ o, o <| next_due := (now + offset)%Q |>) sch)
    sch (imap pair (scheduled sch)).

Definition _next_delay (cfg : SchedConfig) (now : Q) (sch : Scheduler) : Q :=
  match heap sch with
  | [] => py_minQ (default_interval cfg) _MAX_IDLE_POLL_S
  | e :: _ => py_maxQ 0 (due e - now)
  end.

(** ** tick *)

Definition eligible (sch : Scheduler) (s : sid) : bool :=
  match objs sch !! s with Some o => _eligible (objs sch) o | None => false end.

(** The body of the loop, for the entry just popped. *)
Definition tick_one (now : Q) (s : sid) (sch : Scheduler) : Scheduler :=
  let sch1 := upd s (λ o, o <| next_due := (now + sched_interval o)%Q |>) sch in
  if eligible sch1 s
  then (upd s (λ o, o <| in_flight := true |>) sch1)
         <| tasks := <[s := TWaiting]> (tasks sch1) |>
  else _push s (upd_state s (λ st, st <| suppressed := true |>) sch1).

(** [while self._heap and self._heap[0][0] <= now].  [fuel] bounds the pops; the number of
    entries on entry suffices because a re-queued entry is due after [now]. *)
Fixpoint tick_loop (fuel : nat) (now : Q) (sch : Scheduler) : option Scheduler :=
  match heap sch with
  | [] => Some sch
  | e :: h =>
      if Qle_bool (due e) now then
        match fuel with
        | O => None
        | S fuel => tick_loop fuel now (tick_one now (who e) (sch <| heap := h |>))
        end
      else Some sch
  end.

Definition tick (now : Q) (sch : Scheduler) : Scheduler :=
  default sch (tick_loop (length (heap sch)) now sch).

(** ** _run_check *)

Definition is_ping (o : _Scheduled) : bool := is_ping_type (check_type (node o)).

(** The task gets to its runner: at once for a ping, through the semaphore otherwise. *)
Definition check_start (s : sid) (sch : Scheduler) : option Scheduler :=
  match tasks sch !! s, objs sch !! s with
  | Some TWaiting, Some o =>
      if is_ping o then Some (sch <| tasks := <[s := TRunning]> (tasks sch) |>)
      else if 0 <? free_slots sch
      then Some (sch <| tasks := <[s := TRunning]> (tasks sch) |>
                     <| free_slots := free_slots sch - 1 |>)
      else None
  | _, _ => None
  end.

Definition release_slot (o : _Scheduled) (sch : Scheduler) : Scheduler :=
  if is_ping o then sch else sch <| free_slots := free_slots sch + 1 |>.

(** The [finally] block; the task then ends. *)
Definition finish (s : sid) (sch : Scheduler) : Scheduler :=
  let sch1 := upd s (λ o, o <| in_flight := false |>) sch in
  let sch2 := match objs sch1 !! s with
              | Some o => if alive o then _push s sch1 else sch1
              | None => sch1
              end in
  sch2 <| tasks := delete s (tasks sch2) |>.

Definition publish (changed : bool) (sch : Scheduler) : Scheduler :=
  if changed then sch <| dirty := true |> else sch.

Definition send_intent (k : send_kind) : PageIntent :=
  match k with SK_DOWN | SK_REPAGE => PI_DOWN | SK_RECOVERY => PI_RECOVERY end.

(** [_handle_paging] up to its await: the state, and the send it awaits, if any. *)
Definition _handle_paging (cfg : SchedConfig) (nd : Node) (st : NodeState) (i : PageIntent)
    (mono mono' : Q) : NodeState * option send_kind :=
  let co := if bool_decide (contact_on nd = "") then contact_on_default cfg else contact_on nd in
  let on_down := bool_decide (co = "down") || bool_decide (co = "both") in
  let on_up := bool_decide (co = "up") || bool_decide (co = "both") in
  match i with
  | PI_DOWN =>
      if acked st then (st <| contacted := true |> <| lastcontacted := mono |>, None)
      else if on_down then (st, Some SK_DOWN)
      else if bool_decide (co = "up")
      then (st <| contacted := true |> <| lastcontacted := mono |>, None)
      else (st, None)
  | PI_RECOVERY => if on_up then (st, Some SK_RECOVERY) else (st, None)
  | PI_NONE =>
      if contacted st && maybe_repage st mono (pageinterval_s cfg) then
        if negb (acked st) && on_down then (st, Some SK_REPAGE)
        else (st <| lastcontacted := mono' |>, None)
      else (st, None)
  end.

(** [_handle_paging] after its await. *)
Definition after_send (k : send_kind) (ok : bool) (mono : Q) (st : NodeState) : NodeState :=
  match k with
  | SK_DOWN => if ok then st <| contacted := true |> <| lastcontacted := mono |> else st
  | SK_RECOVERY => st
  | SK_REPAGE => if ok then st <| lastcontacted := mono |> else st
  end.

(** The runner returned [code]. *)
Definition check_returned (cfg : SchedConfig) (s : sid) (code : Z) (wall mono mono' : Q)
    (sch : Scheduler) : option Scheduler :=
  match tasks sch !! s, objs sch !! s with
  | Some TRunning, Some o =>
      let sch := release_slot o sch in
      if negb (alive o) then Some (finish s sch)
      else if negb (eligible sch s)
      then Some (finish s (upd_state s (λ st, st <| suppressed := true |>) sch))
      else
        let '(st1, tr) := apply_result ((state o) <| suppressed := false |>) code wall
                            (page_on_degraded cfg) in
        let '(st2, awaited) := _handle_paging cfg (node o) st1 (intent tr) mono mono' in
        let sch1 := upd s (λ o, o <| state := st2 |> <| checked := true |>) sch in
        match awaited with
        | Some k =>
            Some (sch1 <| sent := (s, send_intent k) :: sent sch1 |>
                       <| tasks := <[s := TSending k (state_changed tr)]> (tasks sch1) |>)
        | None => Some (finish s (publish (state_changed tr) sch1))
        end
  | _, _ => None
  end.

(** The runner raised: logged, and no verdict. *)
Definition check_raised (s : sid) (sch : Scheduler) : option Scheduler :=
  match tasks sch !! s, objs sch !! s with
  | Some TRunning, Some o => Some (finish s (release_slot o sch))
  | _, _ => None
  end.

Definition send_returned (s : sid) (ok : bool) (mono : Q) (sch : Scheduler) : option Scheduler :=
  match tasks sch !! s with
  | Some (TSending k changed) =>
      Some (finish s (publish changed (upd_state s (after_send k ok mono) sch)))
  | _ => None
  end.

Definition send_raised (s : sid) (sch : Scheduler) : option Scheduler :=
  match tasks sch !! s with
  | Some (TSending _ _) => Some (finish s sch)
  | _ => None
  end.
