(* ===== verification/Json.v ===== *)
(** * JSON values as Python holds them (the standard [json] module and the numeric tower)

    The values [json.loads] produces and [json.dumps] accepts, shared by the state file and
    by the control channel.  Floats are finite and modelled by their rational value; a dict
    is its list of items in insertion order, with distinct keys. *)
From S2P Require Import Prelude.

#[local] Set Warnings "-register-all".

Inductive json : Type :=
| JNull
| JBool (b : bool)
| JInt (z : Z)
| JFloat (q : Q)
| JStr (s : string)
| JArr (l : list json)
| JObj (d : list (string * json)).

Abbreviation dict := (list (string * json)).

Inductive pyexn : Type := KeyError | TypeError | OverflowError | ValueError.

#[export] Instance pyexn_eq_dec : EqDecision pyexn.
Proof. solve_decision. Defined.

(** [d.get(k)] as an option, and with Python's [None] for a missing key. *)
Fixpoint dict_get (d : dict) (k : string) : option json :=
  match d with
  | [] => None
  | (k', v) :: d' => if bool_decide (k = k') then Some v else dict_get d' k
  end.

Definition get_or_none (d : dict) (k : string) : json := default JNull (dict_get d k).

(** [d[k]] *)
Definition dict_item (d : dict) (k : string) : res pyexn json :=
  match dict_get d k with Some v => Ok v | None => Raise KeyError end.

(** Lists and dicts have no hash. *)
Definition hashable (j : json) : bool :=
  match j with JArr _ | JObj _ => false | _ => true end.

(** [j == z] for a Python int [z]: [True == 1] and [2.0 == 2] hold. *)
Definition eq_int (j : json) (z : Z) : bool :=
  match j with
  | JInt z' => z' =? z
  | JBool b => Z.b2z b =? z
  | JFloat q => Qeqb q (inject_Z z)
  | _ => false
  end.

Definition eq_str (j : json) (s : string) : bool :=
  match j with JStr s' => bool_decide (s' = s) | _ => false end.

(** [float(z)]: the nearest binary64 number, ties to even; [OverflowError] when that is
    not finite.  53 significant bits are kept. *)
Definition round_half_even (z e : Z) : Z :=
  let m := z / 2 ^ e in
  let r := z mod 2 ^ e in
  let m' := if 2 ^ e <? 2 * r then m + 1
            else if (2 ^ e =? 2 * r) && Z.odd m then m + 1 else m in
  m' * 2 ^ e.

Definition float_of_int (z : Z) : res pyexn Q :=
  let a := Z.abs z in
  let r := if a <=? 2 ^ 53 then a else round_half_even a (Z.log2 a - 52) in
  if 2 ^ 1024 <=? r then Raise OverflowError else Ok (inject_Z (Z.sgn z * r)).

Lemma float_of_int_exact z : Z.abs z <= 2 ^ 53 → float_of_int z = Ok (inject_Z z).
Proof.
  intros Hz. unfold float_of_int. rewrite (proj2 (Z.leb_le _ _) Hz).
  rewrite (proj2 (Z.leb_gt _ _)); [|lia].
  by rewrite Z.mul_comm, Z.abs_sgn.
Qed.

Example float_of_int_tie : float_of_int (2 ^ 53 + 1) = Ok (inject_Z (2 ^ 53)).
Proof. reflexivity. Qed.

Example float_of_int_up : float_of_int (- (2 ^ 53 + 3)) = Ok (inject_Z (- (2 ^ 53 + 4))).
Proof. reflexivity. Qed.

Example float_of_int_huge : float_of_int (10 ^ 400) = Raise OverflowError.
Proof. vm_compute. reflexivity. Qed.
