(* ===== verification/SchedOps.v ===== *)
(** * The scheduler's synchronous operations (src/psysmon/engine/scheduler.py)

    Construction, the runtime control of the operator ([ack], [set_note]), the view the
    output uses ([node_states]), the persisted records ([export_state],
    [import_state]) and the configuration reload.  None of them awaits, so each is one
    step of the state of [Scheduler.v]. *)
From S2P Require Import Prelude Status Model StateMachine PingPool Graph Gate Flatten Scheduler Json.

(** ** Views of the scheduled set *)

Definition live_objs (sch : Scheduler) : list (sid * _Scheduled) :=
  omap (λ s, pair s <$> objs sch !! s) (scheduled sch).

(** The distinct truthy sources of the nodes of one ping type. *)
Definition collect_sources (t : CheckType) (sch : Scheduler) : gset string :=
  list_to_set (omap (λ '(_, o),
    if bool_decide (check_type (node o) = t)
    then match sched_source o with
         | Some src => if bool_decide (src = "") then None else Some src
         | None => None
         end
    else None) (live_objs sch)).

Definition _collect_ping_sources : Scheduler → gset string := collect_sources PING.
Definition _collect_ping6_sources : Scheduler → gset string := collect_sources PING6.

Definition _has_ping6 (sch : Scheduler) : bool :=
  existsb (λ '(_, o), bool_decide (check_type (node o) = PING6)) (live_objs sch).

(** ** Installing a flattened set: identities [base], [base + 1], ... *)

Definition fresh_ids (base : sid) (os : list _Scheduled) : list sid := List.seq base (length os).

Definition install (base : sid) (os : list _Scheduled) (m : gmap sid _Scheduled)
    : gmap sid _Scheduled :=
  list_to_map (zip (fresh_ids base os) os) ∪ m.

(** ** Construction *)

(** [Scheduler.__init__], given the ping service's pools.  A negative [max_concurrency]
    is refused by [asyncio.Semaphore]. *)
Definition Scheduler_init (cfg : SchedConfig) (store : gmap nid Node) (roots : list nid)
    (p4 p6 : _Pool) (o : OS) (wall now : Q) (stagger : bool) : res pyexn Scheduler :=
  if max_concurrency cfg <? 0 then Raise ValueError
  else
    let '(os_, ws) := _flatten store cfg wall 0 roots in
    let sch := MkScheduler (install 0 os_ ∅) (length os_) (fresh_ids 0 os_) [] 0 ∅
                 (max_concurrency cfg) true ws p4 p6 o [] in
    let sch1 := MkScheduler (objs sch) (next_sid sch) (scheduled sch) [] 0 ∅
                 (max_concurrency cfg) true ws
                 (set_sources (_collect_ping_sources sch) p4)
                 (enable_v6 (_has_ping6 sch) (set_sources (_collect_ping6_sources sch) p6)) o [] in
    Ok (_build_heap (_stagger_due cfg stagger now sch1)).

(** ** node_states *)

(** The hostnames of the direct parents that are checked and down. *)
Definition down_parent_names (m : gmap sid _Scheduled) (o : _Scheduled) : list string :=
  omap (λ p, match m !! p with
             | Some po =>
                 if checked po && negb (is_reachable (lastcheck (state po)))
                 then Some (hostname (node po)) else None
             | None => None
             end) (gate o).

Definition node_states (sch : Scheduler) : Scheduler * list (Node * NodeState) :=
  let sch' := foldl (λ sch s,
      match objs sch !! s with
      | Some o => upd_state s (λ st, st <| down_parents := down_parent_names (objs sch) o |>) sch
      | None => sch
      end) sch (scheduled sch) in
  (sch', (λ '(_, o), (node o, state o)) <$> live_objs sch').

(** ** Operator control *)

Definition node_matches (h ty : string) (p : Z) (nd : Node) : bool :=
  bool_decide (hostname nd = h) && bool_decide (ct_value (check_type nd) = ty)
  && bool_decide (port nd = p).

Definition _match (h ty : string) (p : Z) (sch : Scheduler) : list sid :=
  omap (λ '(s, o), if node_matches h ty p (node o) then Some s else None) (live_objs sch).

Definition mutate_matching (f : NodeState → NodeState) (h ty : string) (p : Z)
    (sch : Scheduler) : Scheduler * nat :=
  let matches := _match h ty p sch in
  let sch1 := foldl (λ sch s, upd_state s f sch) sch matches in
  (if bool_decide (matches = []) then sch1 else sch1 <| dirty := true |>, length matches).

Definition ack (h ty : string) (p : Z) (sch : Scheduler) : Scheduler * nat :=
  mutate_matching (λ st, st <| acked := true |>) h ty p sch.

(** [value[:_MAX_NOTE_LEN]] *)
Definition truncate_note (s : string) : string := String.substring 0 _MAX_NOTE_LEN s.

(** [text[:_MAX_NOTE_LEN] if text else None] *)
Definition clean_note (text : option string) : option string :=
  match text with
  | Some s => if bool_decide (s = "") then None else Some (truncate_note s)
  | None => None
  end.

Definition set_note (h ty : string) (p : Z) (text : option string) (sch : Scheduler)
    : Scheduler * nat :=
  mutate_matching (λ st, st <| note := clean_note text |>) h ty p sch.

(** ** Persistence *)

Definition _as_int (v : json) : res pyexn Z :=
  match v with JInt z => Ok z | _ => Raise TypeError end.

Definition _as_float (v : json) : res pyexn Q :=
  match v with JInt z => float_of_int z | JFloat q => Ok q | _ => Raise TypeError end.

Definition _as_bool (v : json) : res pyexn bool :=
  match v with JBool b => Ok b | _ => Raise TypeError end.

Definition _as_note (v : json) : res pyexn (option string) :=
  match v with
  | JNull => Ok None
  | JStr s => Ok (Some (truncate_note s))
  | _ => Raise TypeError
  end.

(** The fields [import_state] restores. *)
Record carried : Type := MkCarried {
  c_lastcheck : Z; c_downct : Z; c_contacted : bool; c_deathtime : Q; c_last_up : Q;
  c_acked : bool; c_note : option string
}.

Definition field {A} (as_ : json → res pyexn A) (record : dict) (k : string) : res pyexn A :=
  res_bind (dict_item record k) as_.

(** [None] for a missing or wrong-typed field; other exceptions leave the function. *)
Definition _validated_carry (record : dict) : res pyexn (option carried) :=
  let body :=
    let! lc := field _as_int record "lastcheck" in
    let! dc := field _as_int record "downct" in
    let! co := field _as_bool record "contacted" in
    let! dt := field _as_float record "deathtime" in
    let! lu := field _as_float record "last_up" in
    let! ac := field _as_bool record "acked" in
    let! no := field _as_note record "note" in
    Ok (MkCarried lc dc co dt lu ac no) in
  match body with
  | Ok c => Ok (Some c)
  | Raise KeyError | Raise TypeError => Ok None
  | Raise e => Raise e
  end.

Definition note_json (n : option string) : json :=
  match n with Some s => JStr s | None => JNull end.

(** One persisted record: the key, then the fields of [_CARRIED]. *)
Definition export_record (nd : Node) (st : NodeState) : dict :=
  [("hostname", JStr (hostname nd)); ("type", JStr (ct_value (check_type nd)));
   ("port", JInt (port nd));
   ("lastcheck", JInt (lastcheck st)); ("downct", JInt (downct st));
   ("contacted", JBool (contacted st)); ("lastcontacted", JFloat (lastcontacted st));
   ("deathtime", JFloat (deathtime st)); ("last_up", JFloat (last_up st));
   ("acked", JBool (acked st)); ("note", note_json (note st))].

Definition export_state (sch : Scheduler) : list dict :=
  (λ '(_, o), export_record (node o) (state o)) <$> live_objs sch.

(** The dict [current] is keyed by (hostname, type, port); of two nodes with the same key
    the later one is found. *)
Definition record_matches (record : dict) (nd : Node) : bool :=
  eq_str (get_or_none record "hostname") (hostname nd)
  && eq_str (get_or_none record "type") (ct_value (check_type nd))
  && eq_int (get_or_none record "port") (port nd).

Definition find_last (P : Node → bool) (sch : Scheduler) : option sid :=
  fst <$> last (filter (λ x, P (node x.2) = true) (live_objs sch)).

Definition restore (c : carried) (now_mono : Q) (st : NodeState) : NodeState :=
  st <| lastcheck := c_lastcheck c |> <| downct := c_downct c |>
     <| contacted := c_contacted c |> <| deathtime := c_deathtime c |>
     <| last_up := c_last_up c |> <| acked := c_acked c |> <| note := c_note c |>
     <| lastcontacted := now_mono |>.

Definition record_hashable (record : dict) : bool :=
  hashable (get_or_none record "hostname") && hashable (get_or_none record "type")
  && hashable (get_or_none record "port").

(** The loop over the records, with the running count; an exception keeps what the earlier
    records already restored. *)
Fixpoint import_loop (records : list dict) (now_mono : Q) (matched : nat) (sch : Scheduler)
    : Scheduler * res pyexn nat :=
  match records with
  | [] => (sch, Ok matched)
  | record :: rest =>
      if negb (record_hashable record) then (sch, Raise TypeError)
      else match find_last (record_matches record) sch with
           | None => import_loop rest now_mono matched sch
           | Some s =>
               match _validated_carry record with
               | Raise e => (sch, Raise e)
               | Ok None => import_loop rest now_mono matched sch
               | Ok (Some c) =>
                   import_loop rest now_mono (S matched) (upd_state s (restore c now_mono) sch)
               end
           end
  end.

Definition import_state (records : list dict) (now_mono : Q) (sch : Scheduler)
    : Scheduler * res pyexn nat :=
  import_loop records now_mono 0 sch.

(** ** Reload *)

Definition node_key (nd : Node) : string * CheckType * Z := (hostname nd, check_type nd, port nd).

(** The fields of [_CARRIED]. *)
Definition carry (old new : NodeState) : NodeState :=
  new <| lastcheck := lastcheck old |> <| downct := downct old |>
      <| contacted := contacted old |> <| lastcontacted := lastcontacted old |>
      <| deathtime := deathtime old |> <| last_up := last_up old |>
      <| acked := acked old |> <| note := note old |>.

(** Decimal rendering of a Python int, as in [str(z)]. *)
Definition z_str (z : Z) : string := pretty z.

Definition duplicate_warning (nd : Node) : string :=
  "duplicate node " +:+ hostname nd +:+ " (" +:+ ct_value (check_type nd) +:+ " port "
  +:+ z_str (port nd) +:+ ") in the new config; both will be scheduled and share the "
  +:+ "carried-over state".

(** [previous.get(key)]: the last object of the outgoing set with this key. *)
Definition previous_get (old : Scheduler) (nd : Node) : option _Scheduled :=
  find_last (λ nd', bool_decide (node_key nd' = node_key nd)) old ≫= (objs old !!.).

Definition carry_into (old : Scheduler) (o : _Scheduled) : _Scheduled :=
  match previous_get old (node o) with
  | Some po => o <| state := carry (state po) (state o) |> <| checked := checked po |>
  | None => o
  end.

(** The loop over the new set: duplicate warnings and the carried state. *)
Fixpoint reload_loop (old : Scheduler) (seen : list (string * CheckType * Z)) (ids : list sid)
    (sch : Scheduler) : Scheduler :=
  match ids with
  | [] => sch
  | s :: ids' =>
      match objs sch !! s with
      | None => reload_loop old seen ids' sch
      | Some o =>
          let key := node_key (node o) in
          let sch1 := if bool_decide (key ∈ seen)
                      then sch <| warnings := warnings sch ++ [duplicate_warning (node o)] |>
                      else sch in
          reload_loop old (key :: seen) ids' (upd s (carry_into old) sch1)
      end
  end.

Definition retire (sch : Scheduler) : gmap sid _Scheduled :=
  foldl (λ m s, alter (λ o, o <| alive := false |>) s m) (objs sch) (scheduled sch).

Definition reload (cfg : SchedConfig) (store : gmap nid Node) (roots : list nid) (wall now : Q)
    (sch : Scheduler) : Scheduler :=
  let base := next_sid sch in
  let '(os_, ws) := _flatten store cfg wall base roots in
  let ids := fresh_ids base os_ in
  let sch1 := MkScheduler (install base os_ (retire sch)) (base + length os_)%nat ids
                (heap sch) (heap_seq sch) (tasks sch) (free_slots sch) (dirty sch) ws
                (pool4 sch) (pool6 sch) (os sch) (sent sch) in
  let ping_sources := _collect_ping_sources sch1 in
  let '(p4, os1) := _prune (set_sources ping_sources (pool4 sch)) ping_sources (os sch) in
  let ping6_sources := _collect_ping6_sources sch1 in
  let '(p6, os2) := _prune (set_sources ping6_sources (pool6 sch)) ping6_sources os1 in
  let sch2 := MkScheduler (objs sch1) (next_sid sch1) ids (heap sch) (heap_seq sch) (tasks sch)
                (free_slots sch) (dirty sch) ws p4 p6 os2 (sent sch) in
  _build_heap (_stagger_due cfg true now (reload_loop sch [] ids sch2)).
