(* ===== verification/SchedInv.v ===== *)
(** * The queue discipline of the scheduler

    The invariant that [_build_heap]'s comment states (a node is on the heap exactly when
    it is not in flight) with what it needs: every alive object is scheduled, every in
    flight object has its task, queue entries carry the object's due time.  It holds
    initially and every step of the event loop preserves it. *)
From Stdlib Require Import Sorting.Sorted.
From S2P Require Import Prelude Status Model StateMachine PingPool Graph Gate Flatten Scheduler Json SchedOps.

(** The fields of an object the queue depends on. *)
Definition static (o : _Scheduled) : Node * Q * Q * bool * bool :=
  (node o, sched_interval o, next_due o, in_flight o, alive o).

Definition view (m : gmap sid _Scheduled) := static <$> m.

Lemma view_alter f s m : (∀ o, static (f o) = static o) → view (alter f s m) = view m.
Proof.
  intros Hf. apply map_eq. intros i. unfold view. rewrite !lookup_fmap.
  destruct (decide (s = i)) as [->|]; [rewrite lookup_alter_eq|by rewrite lookup_alter_ne].
  destruct (m !! i); simpl; congruence.
Qed.

Lemma view_lookup m m' s o :
  view m' = view m → m' !! s = Some o → ∃ o', m !! s = Some o' ∧ static o' = static o.
Proof.
  intros E Hs. assert (view m' !! s = Some (static o)) as H by (unfold view; by rewrite lookup_fmap, Hs).
  rewrite E in H. unfold view in H. rewrite lookup_fmap in H.
  apply fmap_Some in H as (o' & ? & ?). eauto.
Qed.

(** [X] holds the objects popped and not yet requeued or dispatched; [∅] between steps. *)
Record WFx (X : gset sid) (sch : Scheduler) : Prop := {
  wf_nodup : NoDup (scheduled sch);
  wf_alive : ∀ s, s ∈ scheduled sch ↔ ∃ o, objs sch !! s = Some o ∧ alive o = true;
  wf_fresh : ∀ s o, objs sch !! s = Some o → (s < next_sid sch)%nat;
  wf_tasks : ∀ s, is_Some (tasks sch !! s) ↔ ∃ o, objs sch !! s = Some o ∧ in_flight o = true;
  wf_once : NoDup (who <$> heap sch);
  wf_heap : ∀ s, s ∈ who <$> heap sch ↔
    (s ∉ X) ∧ ∃ o, objs sch !! s = Some o ∧ alive o = true ∧ in_flight o = false;
  wf_loose : ∀ s, s ∈ X → ∃ o, objs sch !! s = Some o ∧ alive o = true ∧ in_flight o = false;
  wf_due : ∀ e o, e ∈ heap sch → objs sch !! who e = Some o → due e = next_due o;
  wf_interval : ∀ s o, objs sch !! s = Some o → (_MIN_INTERVAL_S <= sched_interval o)%Q;
  wf_sorted : StronglySorted (λ e e', (due e <= due e')%Q) (heap sch)
}.

Abbreviation WF := (WFx ∅).

(** Updates of fields the queue does not read keep the invariant. *)
Lemma WFx_ext X sch sch' :
  view (objs sch') = view (objs sch) → scheduled sch' = scheduled sch →
  next_sid sch' = next_sid sch → tasks sch' = tasks sch → heap sch' = heap sch →
  WFx X sch → WFx X sch'.
Proof.
  intros Ev Es En Et Eh [H1 H2 H3 H4 H5 H6 H7 H8 H9 H10].
  assert (∀ P : _Scheduled → Prop, (∀ o o', static o = static o' → P o → P o') →
    ∀ s, (∃ o, objs sch' !! s = Some o ∧ P o) ↔ (∃ o, objs sch !! s = Some o ∧ P o)) as Hiff.
  { intros P HP s. split; intros (o & Ho & HPo).
    - destruct (view_lookup _ _ _ _ Ev Ho) as (o' & ? & ?). exists o'. split; [done|]. by eapply HP.
    - symmetry in Ev. destruct (view_lookup _ _ _ _ Ev Ho) as (o' & ? & ?).
      exists o'. split; [done|]. by eapply HP. }
  unfold static in Hiff.
  split; rewrite ?Es, ?En, ?Et, ?Eh; try done.
  - intros s. rewrite H2. symmetry. apply Hiff. naive_solver congruence.
  - intros s o Ho. destruct (view_lookup _ _ _ _ Ev Ho) as (o' & ? & ?). eauto.
  - intros s. rewrite H4. symmetry. apply Hiff. naive_solver congruence.
  - intros s. rewrite H6. apply and_iff_compat_l. symmetry. apply Hiff. naive_solver congruence.
  - intros s Hs. apply Hiff; [naive_solver congruence|]. by apply H7.
  - intros e o He Ho. destruct (view_lookup _ _ _ _ Ev Ho) as (o' & Ho' & E).
    unfold static in E. rewrite (H8 e o' He Ho'). congruence.
  - intros s o Ho. destruct (view_lookup _ _ _ _ Ev Ho) as (o' & Ho' & E).
    unfold static in E. specialize (H9 s o' Ho'). congruence.
Qed.

Lemma WFx_upd X s f sch :
  (∀ o, static (f o) = static o) → WFx X sch → WFx X (upd s f sch).
Proof. intros Hf. destruct sch. apply WFx_ext; simpl; [by apply view_alter|done..]. Qed.

Lemma static_state f o : static (o <| state := f |>) = static o.
Proof. by destruct o. Qed.

Lemma WFx_upd_state X s f sch : WFx X sch → WFx X (upd_state s f sch).
Proof. apply WFx_upd. intros o. apply static_state. Qed.

(** ** The queue *)

Lemma entry_lt_due e e' : entry_lt e e' = true → (due e <= due e')%Q.
Proof. unfold entry_lt. to_prop. intros [?|[? _]]; lra. Qed.

Lemma entry_nlt_due e e' : entry_lt e e' = false → (due e' <= due e)%Q.
Proof. unfold entry_lt. to_prop. by intros [? _]. Qed.

Lemma heappush_perm h e : heappush h e ≡ₚ e :: h.
Proof.
  induction h as [|e' h IH]; simpl; [done|]. case_match; [done|]. rewrite IH. constructor.
Qed.

Lemma heappush_sorted h e :
  StronglySorted (λ e e', (due e <= due e')%Q) h →
  StronglySorted (λ e e', (due e <= due e')%Q) (heappush h e).
Proof.
  induction 1 as [|e' h Hs IH Hf]; simpl; [repeat constructor|].
  destruct (entry_lt e e') eqn:E.
  - apply entry_lt_due in E. constructor; [by constructor|]. constructor; [done|].
    eapply Forall_impl; [done|]. simpl. intros. lra.
  - apply entry_nlt_due in E. constructor; [done|]. rewrite heappush_perm. by constructor.
Qed.

Lemma WFx_push X s o sch :
  objs sch !! s = Some o → s ∈ X → WFx X sch → WFx (X ∖ {[s]}) (_push s sch).
Proof.
  intros Ho Hs [H1 H2 H3 H4 H5 H6 H7 H8 H9 H10]. unfold _push. rewrite Ho.
  assert (s ∉ who <$> heap sch) as Hnot by (rewrite H6; naive_solver).
  destruct (H7 s Hs) as (o1 & Ho1 & Ha & Hf). rewrite Ho in Ho1. injection Ho1 as <-.
  destruct sch as [ob ns sc hp hs tk fs di wa p4 p6 os_ se]; simpl in *.
  split; simpl; try done.
  - rewrite heappush_perm. simpl. by constructor.
  - intros s'. rewrite heappush_perm. simpl. rewrite elem_of_cons, H6.
    rewrite elem_of_difference, elem_of_singleton. destruct (decide (s' = s)) as [->|]; naive_solver.
  - intros s' Hs'. apply H7. set_solver.
  - intros e o' He. rewrite heappush_perm, elem_of_cons in He.
    destruct He as [->|He]; simpl; naive_solver.
  - by apply heappush_sorted.
Qed.

(** Popping the head makes its object loose. *)
Lemma WFx_pop sch e h :
  heap sch = e :: h → WF sch → WFx {[who e]} (sch <| heap := h |>).
Proof.
  intros Eh [H1 H2 H3 H4 H5 H6 H7 H8 H9 H10].
  destruct sch as [ob ns sc hp hs tk fs di wa p4 p6 os_ se]; simpl in *. subst hp. simpl in *.
  apply NoDup_cons in H5 as [Hn H5]. apply StronglySorted_inv in H10 as [H10 _].
  split; simpl; try done.
  - intros s. specialize (H6 s). rewrite elem_of_cons in H6. rewrite elem_of_singleton.
    destruct (decide (s = who e)) as [->|]; [|set_solver]. naive_solver.
  - intros s ->%elem_of_singleton. specialize (H6 (who e)). rewrite elem_of_cons in H6. naive_solver.
  - intros e' o He. apply H8. set_solver.
Qed.

(** A loose object may get a new due time. *)
Lemma WFx_upd_due s f sch :
  (∀ o, node (f o) = node o ∧ sched_interval (f o) = sched_interval o ∧
        in_flight (f o) = in_flight o ∧ alive (f o) = alive o) →
  WFx {[s]} sch → WFx {[s]} (upd s f sch).
Proof.
  intros Hf [H1 H2 H3 H4 H5 H6 H7 H8 H9 H10].
  destruct sch as [ob ns sc hp hs tk fs di wa p4 p6 os_ se]; simpl in *.
  assert (∀ P : _Scheduled → Prop, (∀ o, P (f o) ↔ P o) → ∀ s',
    (∃ o, alter f s ob !! s' = Some o ∧ P o) ↔ (∃ o, ob !! s' = Some o ∧ P o)) as Hiff.
  { intros P HP s'. destruct (decide (s = s')) as [->|Hne].
    - rewrite lookup_alter_eq. destruct (ob !! s') as [o|] eqn:E; simpl; [|naive_solver].
      specialize (HP o). naive_solver.
    - by rewrite lookup_alter_ne. }
  split; simpl; try done.
  - intros s'. rewrite H2. symmetry. apply Hiff. intros o. destruct (Hf o) as (_&_&_&->). done.
  - intros s' o Ho.
    destruct (proj1 (Hiff (λ _, True) (λ _, iff_refl _) s')) as (o' & ? & _); eauto.
  - intros s'. rewrite H4. symmetry. apply Hiff. intros o. destruct (Hf o) as (_&_&->&_). done.
  - intros s'. rewrite H6. apply and_iff_compat_l. symmetry. apply Hiff.
    intros o. destruct (Hf o) as (_&_&->&->). done.
  - intros s' Hs'. apply Hiff; [|by apply H7]. intros o. destruct (Hf o) as (_&_&->&->). done.
  - intros e o He Ho. assert (who e ≠ s) as Hne.
    { intros <-. assert (who e ∈ who <$> hp) as Hw by by apply list_elem_of_fmap_2.
      apply H6 in Hw. set_solver. }
    rewrite lookup_alter_ne in Ho by done. by eapply H8.
  - intros s' o Ho. destruct (decide (s = s')) as [->|].
    + rewrite lookup_alter_eq in Ho. apply fmap_Some in Ho as (o' & Ho' & ->).
      destruct (Hf o') as (_&->&_). by eapply H9.
    + rewrite lookup_alter_ne in Ho by done. by eapply H9.
Qed.

(** A loose object may be dispatched. *)
Lemma WFx_dispatch s ph sch :
  WFx {[s]} sch →
  WF ((upd s (λ o, o <| in_flight := true |>) sch) <| tasks := <[s := ph]> (tasks sch) |>).
Proof.
  intros [H1 H2 H3 H4 H5 H6 H7 H8 H9 H10].
  destruct (H7 s) as (o & Ho & Ha & Hf); [set_solver|].
  destruct sch as [ob ns sc hp hs tk fs di wa p4 p6 os_ se]; simpl in *.
  set (g := λ o : _Scheduled, _). assert (∀ o, node (g o) = node o ∧ next_due (g o) = next_due o ∧
    sched_interval (g o) = sched_interval o ∧ in_flight (g o) = true ∧ alive (g o) = alive o) as Hg
    by by intros [].
  assert (alter g s ob !! s = Some (g o)) as Hs by (rewrite lookup_alter_eq, Ho; done).
  destruct (Hg o) as (Hg1 & Hg2 & Hg3 & Hg4 & Hg5).
  split; simpl; try done.
  - intros s'. rewrite H2. destruct (decide (s = s')) as [<-|]; [|by rewrite lookup_alter_ne].
    rewrite Hs, Ho. naive_solver congruence.
  - intros s' o'. destruct (decide (s = s')) as [<-|]; [|rewrite lookup_alter_ne by done; eauto].
    intros _. by eapply H3.
  - intros s'. destruct (decide (s = s')) as [<-|].
    + rewrite lookup_insert_eq, Hs. naive_solver.
    + rewrite lookup_insert_ne, lookup_alter_ne by done. apply H4.
  - intros s'. rewrite H6. destruct (decide (s = s')) as [<-|].
    + rewrite Hs. split; [by intros [Hn%not_elem_of_singleton _]|].
      intros (_ & o' & [= <-] & _ & ?). congruence.
    + rewrite lookup_alter_ne by done. assert (s' ∉ (∅ : gset sid)) by set_solver.
      assert (s' ∉ ({[s]} : gset sid)) by set_solver. tauto.
  - intros e o' He. destruct (decide (s = who e)) as [->|].
    + assert (who e ∈ who <$> hp) as Hw%H6 by by apply list_elem_of_fmap_2.
      by destruct Hw as [Hw%not_elem_of_singleton _].
    + rewrite lookup_alter_ne by done. eauto.
  - intros s' o'. destruct (decide (s = s')) as [<-|]; [|rewrite lookup_alter_ne by done; eauto].
    rewrite Hs. intros [= <-]. rewrite Hg3. eauto.
Qed.

Lemma WF_tick_one now e h sch :
  heap sch = e :: h → WF sch → WF (tick_one now (who e) (sch <| heap := h |>)).
Proof.
  intros Eh Hwf%(WFx_pop sch e h Eh). unfold tick_one.
  set (f := λ o : _Scheduled, _).
  assert (WFx {[who e]} (upd (who e) f (sch <| heap := h |>))) as Hwf'.
  { apply WFx_upd_due; [by intros []|done]. }
  destruct (eligible _ _); [by apply WFx_dispatch|].
  apply (WFx_upd_state _ (who e) (λ st, st <| suppressed := true |>)) in Hwf'.
  destruct (wf_loose _ _ Hwf' (who e)) as (o & Ho & _); [set_solver|].
  apply (WFx_push _ _ _ _ Ho) in Hwf'; [|set_solver].
  by rewrite difference_diag_L in Hwf'.
Qed.

Lemma WF_tick_loop fuel now sch sch' :
  tick_loop fuel now sch = Some sch' → WF sch → WF sch'.
Proof.
  revert sch. induction fuel as [|fuel IH]; intros sch; simpl;
    destruct (heap sch) as [|e h] eqn:Eh; try naive_solver; case_match; try naive_solver.
  intros Hl Hwf. eapply IH; [done|]. by apply WF_tick_one.
Qed.

Lemma WF_tick now sch : WF sch → WF (tick now sch).
Proof.
  intros Hwf. unfold tick. destruct (tick_loop _ _ _) eqn:E; simpl; [|done].
  by eapply WF_tick_loop.
Qed.

(** ** Tasks *)

Lemma WFx_retask X s ph sch :
  is_Some (tasks sch !! s) → WFx X sch → WFx X (sch <| tasks := <[s := ph]> (tasks sch) |>).
Proof.
  intros Hs [H1 H2 H3 H4 H5 H6 H7 H8 H9 H10]. destruct sch; simpl in *. split; simpl; try done.
  intros s'. rewrite <- H4. destruct (decide (s = s')) as [->|].
  - by rewrite lookup_insert_eq.
  - by rewrite lookup_insert_ne.
Qed.

(** The end of a task: its object is loose again, unless it was retired. *)
Definition ended (s : sid) (sch : Scheduler) : Scheduler :=
  (upd s (λ o, o <| in_flight := false |>) sch) <| tasks := delete s (tasks sch) |>.

Lemma WF_ended s o sch :
  objs sch !! s = Some o → in_flight o = true → WF sch →
  WFx (if alive o then {[s]} else ∅) (ended s sch).
Proof.
  intros Ho Hf [H1 H2 H3 H4 H5 H6 H7 H8 H9 H10]. unfold ended.
  destruct sch as [ob ns sc hp hs tk fs di wa p4 p6 os_ se]; simpl in *.
  set (g := λ o : _Scheduled, _). assert (∀ o, node (g o) = node o ∧ next_due (g o) = next_due o ∧
    sched_interval (g o) = sched_interval o ∧ in_flight (g o) = false ∧ alive (g o) = alive o) as Hg
    by by intros [].
  assert (alter g s ob !! s = Some (g o)) as Hs by (rewrite lookup_alter_eq, Ho; done).
  destruct (Hg o) as (Hg1 & Hg2 & Hg3 & Hg4 & Hg5).
  assert (s ∉ who <$> hp) as Hnh by (rewrite H6; intros (_ & o' & ? & _ & ?); congruence).
  assert (∀ s', s ≠ s' → s' ∉ (if alive o then {[s]} else ∅ : gset sid)) as Hx
    by (intros; destruct (alive o); set_solver).
  split; simpl; try done.
  - intros s'. rewrite H2. destruct (decide (s = s')) as [<-|]; [|by rewrite lookup_alter_ne].
    rewrite Hs, Ho. naive_solver congruence.
  - intros s' o'. destruct (decide (s = s')) as [<-|]; [|rewrite lookup_alter_ne by done; eauto].
    intros _. by eapply H3.
  - intros s'. destruct (decide (s = s')) as [<-|].
    + rewrite lookup_delete_eq, Hs. split; [by intros []|]. intros (? & [= <-] & ?). congruence.
    + rewrite lookup_delete_ne, lookup_alter_ne by done. apply H4.
  - intros s'. destruct (decide (s = s')) as [<-|].
    + rewrite Hs. split; [done|]. intros (Hn & o' & [= <-] & Ha & _).
      rewrite Hg5 in Ha. rewrite Ha in Hn. by apply not_elem_of_singleton in Hn.
    + rewrite lookup_alter_ne, H6 by done. specialize (Hx s').
      assert (s' ∉ (∅ : gset sid)) by set_solver. tauto.
  - intros s' Hs'. destruct (decide (s = s')) as [<-|]; [|by destruct (Hx s')].
    exists (g o). split_and!; [done| |done]. rewrite Hg5. by destruct (alive o).
  - intros e o' He. destruct (decide (s = who e)) as [->|].
    + destruct Hnh. by apply list_elem_of_fmap_2.
    + rewrite lookup_alter_ne by done. eauto.
  - intros s' o'. destruct (decide (s = s')) as [<-|]; [|rewrite lookup_alter_ne by done; eauto].
    rewrite Hs. intros [= <-]. rewrite Hg3. eauto.
Qed.

Lemma finish_ended s sch :
  finish s sch =
  match objs (ended s sch) !! s with
  | Some o => if alive o then _push s (ended s sch) else ended s sch
  | None => ended s sch
  end.
Proof.
  unfold finish, ended. destruct sch as [ob ns sc hp hs tk fs di wa p4 p6 os_ se]; simpl.
  destruct (alter _ s ob !! s) as [o|] eqn:E; [|done].
  destruct (alive o); unfold _push; simpl; [by rewrite E|done].
Qed.

Lemma WF_finish s sch : is_Some (tasks sch !! s) → WF sch → WF (finish s sch).
Proof.
  intros Ht Hwf. destruct (proj1 (wf_tasks _ _ Hwf s) Ht) as (o & Ho & Hf).
  pose proof (WF_ended s o sch Ho Hf Hwf) as Hwf'. rewrite finish_ended.
  assert (objs (ended s sch) !! s = Some (o <| in_flight := false |>)) as Hs.
  { destruct sch; unfold ended; simpl. rewrite lookup_alter_eq. simpl in Ho. by rewrite Ho. }
  rewrite Hs. replace (alive (o <| in_flight := false |>)) with (alive o) by by destruct o.
  destruct (alive o); [|done]. apply (WFx_push _ s _ _ Hs) in Hwf'; [|set_solver].
  by rewrite difference_diag_L in Hwf'.
Qed.

Lemma WFx_release X o sch : WFx X sch → WFx X (release_slot o sch).
Proof. unfold release_slot. destruct (is_ping o); [done|]. destruct sch. by apply WFx_ext. Qed.

Lemma WFx_publish X b sch : WFx X sch → WFx X (publish b sch).
Proof. destruct b; [|done]. destruct sch. by apply WFx_ext. Qed.

Lemma tasks_release o sch : tasks (release_slot o sch) = tasks sch.
Proof. unfold release_slot. by destruct (is_ping o), sch. Qed.

Lemma tasks_publish b sch : tasks (publish b sch) = tasks sch.
Proof. by destruct b, sch. Qed.

Lemma tasks_upd s f sch : tasks (upd s f sch) = tasks sch.
Proof. by destruct sch. Qed.

#[export] Hint Rewrite tasks_release tasks_publish tasks_upd : psy_sched.

(** The side conditions of [WF_finish] and the quiet updates below it. *)
Ltac wf_step :=
  repeat first
    [ apply WF_finish; [unfold upd_state; autorewrite with psy_sched; by eauto|]
    | apply WFx_upd_state | apply WFx_publish | apply WFx_release
    | apply WFx_upd; [by intros []|] ]; try done.

Lemma WF_check_start s sch sch' : check_start s sch = Some sch' → WF sch → WF sch'.
Proof.
  unfold check_start. intros H Hwf. destruct (tasks sch !! s) as [[]|] eqn:Et; try done.
  assert (WF (sch <| tasks := <[s := TRunning]> (tasks sch) |>)) as Hwf'
    by (apply WFx_retask; [by rewrite Et|done]).
  repeat case_match; simplify_eq; [done|]. eapply WFx_ext, Hwf'; by destruct sch.
Qed.

Lemma WF_check_returned cfg s code wall mono mono' sch sch' :
  check_returned cfg s code wall mono mono' sch = Some sch' → WF sch → WF sch'.
Proof.
  unfold check_returned. intros H Hwf. destruct (tasks sch !! s) as [[]|] eqn:Et; try done.
  assert (is_Some (tasks sch !! s)) as Ht by by rewrite Et.
  destruct (objs sch !! s) as [o|]; [|done].
  destruct (negb (alive o)); [simplify_eq; wf_step|].
  destruct (negb (eligible _ _)); [simplify_eq; wf_step|].
  destruct (apply_result _ _ _ _) as [st1 tr]. destruct (_handle_paging _ _ _ _ _ _) as [st2 aw].
  destruct aw as [k|]; simplify_eq; [|wf_step].
  eapply WFx_ext; last first.
  { apply (WFx_retask _ s (TSending k (state_changed tr))
             (upd s (λ o, o <| state := st2 |> <| checked := true |>) (release_slot o sch)));
      [by autorewrite with psy_sched|wf_step]. }
  all: unfold release_slot; by destruct (is_ping o), sch.
Qed.

Lemma WF_check_raised s sch sch' : check_raised s sch = Some sch' → WF sch → WF sch'.
Proof.
  unfold check_raised. intros H Hwf. destruct (tasks sch !! s) as [[]|] eqn:Et; try done.
  assert (is_Some (tasks sch !! s)) as Ht by by rewrite Et.
  destruct (objs sch !! s); simplify_eq. wf_step.
Qed.

Lemma WF_send_returned s ok mono sch sch' :
  send_returned s ok mono sch = Some sch' → WF sch → WF sch'.
Proof.
  unfold send_returned. intros H Hwf. destruct (tasks sch !! s) as [[]|] eqn:Et; try done.
  assert (is_Some (tasks sch !! s)) as Ht by by rewrite Et. simplify_eq. wf_step.
Qed.

Lemma WF_send_raised s sch sch' : send_raised s sch = Some sch' → WF sch → WF sch'.
Proof.
  unfold send_raised. intros H Hwf. destruct (tasks sch !! s) as [[]|] eqn:Et; try done.
  assert (is_Some (tasks sch !! s)) as Ht by by rewrite Et. simplify_eq. wf_step.
Qed.

(** ** Operator control, views and persistence *)

Lemma WFx_foldl {A} X (f : Scheduler → A → Scheduler) l sch :
  (∀ sch a, WFx X sch → WFx X (f sch a)) → WFx X sch → WFx X (foldl f sch l).
Proof. intros Hf. revert sch. induction l as [|a l IH]; intros sch Hwf; simpl; [done|]. eauto. Qed.

Lemma WF_mutate_matching f h ty p sch : WF sch → WF (mutate_matching f h ty p sch).1.
Proof.
  intros Hwf. unfold mutate_matching. simpl.
  assert (WF (foldl (λ sch s, upd_state s f sch) sch (_match h ty p sch))) as Hwf'
    by (apply WFx_foldl; [intros; by apply WFx_upd_state|done]).
  case_bool_decide; [done|]. revert Hwf'. generalize (foldl (λ sch s, upd_state s f sch) sch).
  intros g. destruct (g _). by apply WFx_ext.
Qed.

Lemma WF_node_states sch : WF sch → WF (node_states sch).1.
Proof.
  intros Hwf. apply WFx_foldl; [|done]. intros sch' s ?. case_match; [by apply WFx_upd_state|done].
Qed.

Lemma WF_import records now_mono sch : WF sch → WF (import_state records now_mono sch).1.
Proof.
  unfold import_state. generalize 0%nat. revert sch.
  induction records as [|record records IH]; intros sch k Hwf; simpl; [done|].
  repeat case_match; simpl; eauto. apply IH. by apply WFx_upd_state.
Qed.

(** ** Building the queue *)

(** What [_build_heap] needs of everything but the queue. *)
Record Ready (sch : Scheduler) : Prop := {
  rd_nodup : NoDup (scheduled sch);
  rd_alive : ∀ s, s ∈ scheduled sch ↔ ∃ o, objs sch !! s = Some o ∧ alive o = true;
  rd_fresh : ∀ s o, objs sch !! s = Some o → (s < next_sid sch)%nat;
  rd_tasks : ∀ s, is_Some (tasks sch !! s) ↔ ∃ o, objs sch !! s = Some o ∧ in_flight o = true;
  rd_idle : ∀ s o, s ∈ scheduled sch → objs sch !! s = Some o → in_flight o = false;
  rd_interval : ∀ s o, objs sch !! s = Some o → (_MIN_INTERVAL_S <= sched_interval o)%Q
}.

Lemma WF_push_all l sch :
  NoDup l → WFx (list_to_set l) sch → WF (foldl (λ sch s, _push s sch) sch l).
Proof.
  revert sch. induction l as [|s l IH]; intros sch Hnd Hwf; simpl; [done|].
  apply NoDup_cons in Hnd as [Hs Hnd]. apply IH; [done|].
  destruct (wf_loose _ _ Hwf s) as (o & Ho & _); [set_solver|].
  apply (WFx_push _ s o _ Ho) in Hwf; [|set_solver].
  replace (list_to_set (s :: l) ∖ {[s]}) with (list_to_set l : gset sid) in Hwf; [done|].
  simpl. apply leibniz_equiv. set_solver.
Qed.

Lemma WF_build_heap sch : Ready sch → WF (_build_heap sch).
Proof.
  intros [H1 H2 H3 H4 H5 H6]. unfold _build_heap.
  destruct sch as [ob ns sc hp hs tk fs di wa p4 p6 os_ se]; simpl in *.
  apply WF_push_all; [done|]. split; simpl; try done.
  - constructor.
  - intros s. rewrite elem_of_list_to_set, H2. split; [by intros ?%elem_of_nil|naive_solver].
  - intros s. rewrite elem_of_list_to_set. intros Hs. pose proof Hs as (o & Ho & Ha)%H2. eauto.
  - by intros e o He%elem_of_nil.
  - constructor.
Qed.

Lemma Ready_upd s f sch :
  (∀ o, sched_interval (f o) = sched_interval o ∧
        in_flight (f o) = in_flight o ∧ alive (f o) = alive o) →
  Ready sch → Ready (upd s f sch).
Proof.
  intros Hf [H1 H2 H3 H4 H5 H6].
  destruct sch as [ob ns sc hp hs tk fs di wa p4 p6 os_ se]; simpl in *.
  assert (∀ s' o, alter f s ob !! s' = Some o → ∃ o', ob !! s' = Some o' ∧
    sched_interval o = sched_interval o' ∧ in_flight o = in_flight o' ∧ alive o = alive o') as Hto.
  { intros s' o. destruct (decide (s = s')) as [<-|]; [|rewrite lookup_alter_ne by done; eauto].
    rewrite lookup_alter_eq. intros (o' & ? & ->)%fmap_Some. exists o'. split; [done|apply Hf]. }
  assert (∀ s' o', ob !! s' = Some o' → ∃ o, alter f s ob !! s' = Some o ∧
    sched_interval o = sched_interval o' ∧ in_flight o = in_flight o' ∧ alive o = alive o') as Hfrom.
  { intros s' o'. destruct (decide (s = s')) as [<-|]; [|rewrite lookup_alter_ne by done; eauto].
    rewrite lookup_alter_eq. intros ->. simpl. exists (f o'). split; [done|apply Hf]. }
  split; simpl; try done.
  - intros s'. rewrite H2. split; intros (o & Ho & Ha);
      [apply Hfrom in Ho|apply Hto in Ho]; naive_solver congruence.
  - intros s' o (o' & ? & _)%Hto. eauto.
  - intros s'. rewrite H4. split; intros (o & Ho & Ha);
      [apply Hfrom in Ho|apply Hto in Ho]; naive_solver congruence.
  - intros s' o Hs (o' & ? & _ & -> & _)%Hto. eauto.
  - intros s' o (o' & ? & -> & _)%Hto. eauto.
Qed.

Lemma Ready_stagger cfg b now sch : Ready sch → Ready (_stagger_due cfg b now sch).
Proof.
  unfold _stagger_due. generalize (imap pair (scheduled sch)).
  generalize (length (scheduled sch)). intros n l. revert sch.
  induction l as [|[i s] l IH]; intros sch Hr; simpl; [done|].
  apply IH, Ready_upd; [by intros []|done].
Qed.

Lemma carry_into_static old o : static (carry_into old o) = static o.
Proof. unfold carry_into. case_match; [|done]. by destruct o. Qed.

Lemma Ready_warn w sch : Ready sch → Ready (sch <| warnings := w |>).
Proof. intros [H1 H2 H3 H4 H5 H6]. destruct sch. by split. Qed.

Lemma Ready_reload_loop old seen ids sch : Ready sch → Ready (reload_loop old seen ids sch).
Proof.
  revert seen sch. induction ids as [|s ids IH]; intros seen sch Hr; simpl; [done|].
  case_match; [|by apply IH]. apply IH, Ready_upd; [|case_bool_decide; [by apply Ready_warn|done]].
  intros o. pose proof (carry_into_static old o) as E. unfold static in E.
  split_and!; congruence.
Qed.

(** ** Installing a flattened set *)

Lemma install_lookup base os_ m s :
  install base os_ m !! s =
  match (if (base <=? s)%nat then os_ !! (s - base)%nat else None) with
  | Some o => Some o
  | None => m !! s
  end.
Proof.
  unfold install, fresh_ids. rewrite lookup_union.
  assert ((list_to_map (zip (List.seq base (length os_)) os_) : gmap sid _Scheduled) !! s
    = if (base <=? s)%nat then os_ !! (s - base)%nat else None) as ->; [|by repeat case_match; destruct (m !! s)].
  revert base. induction os_ as [|o os_ IH]; intros base; simpl.
  - rewrite lookup_empty. by case_match.
  - destruct (decide (s = base)) as [->|Hne].
    + rewrite lookup_insert_eq, Nat.leb_refl, Nat.sub_diag. done.
    + rewrite lookup_insert_ne, IH by done.
      destruct (base <=? s)%nat eqn:E1, (S base <=? s)%nat eqn:E2; to_prop; try lia; [|done].
      by replace (s - base)%nat with (S (s - S base)) by lia.
Qed.

Lemma retire_lookup sch s o :
  NoDup (scheduled sch) → retire sch !! s = Some o ↔
  ∃ o', objs sch !! s = Some o' ∧
    o = if bool_decide (s ∈ scheduled sch) then o' <| alive := false |> else o'.
Proof.
  unfold retire. generalize (objs sch). generalize (scheduled sch). intros l.
  induction l as [|x l IH]; intros m Hnd; simpl.
  { naive_solver. }
  apply NoDup_cons in Hnd as [Hx Hnd]. rewrite IH by done. clear IH.
  destruct (decide (x = s)) as [->|Hne].
  - rewrite lookup_alter_eq. rewrite (bool_decide_eq_false_2 (s ∈ l)) by done.
    rewrite bool_decide_eq_true_2 by set_solver.
    destruct (m !! s); simpl; naive_solver.
  - rewrite lookup_alter_ne by done.
    by rewrite (bool_decide_ext (s ∈ x :: l) (s ∈ l)) by set_solver.
Qed.

Section install.
Context (cfg : SchedConfig) (store : gmap nid Node) (roots : list nid) (wall : Q) (base : sid).
Context (Hclosed : closed_graph store roots).
Abbreviation new := (_flatten store cfg wall base roots).1.

Lemma flatten_new i o :
  new !! i = Some o →
  in_flight o = false ∧ alive o = true ∧ (_MIN_INTERVAL_S <= sched_interval o)%Q.
Proof.
  intros [[_ E] _]%flatten_made; [|done]. pose proof (f_equal in_flight E).
  pose proof (f_equal alive E). pose proof (f_equal sched_interval E) as Ei.
  destruct o; simpl in *. split_and!; [done..|]. rewrite Ei. apply effective_interval_pos.
Qed.

(** The new set over a store [m] of retired objects is ready for [_build_heap]. *)
Lemma Ready_install m tk hp hs fs di ws p4 p6 o se :
  (∀ s x, m !! s = Some x → (s < base)%nat ∧ alive x = false ∧
     (_MIN_INTERVAL_S <= sched_interval x)%Q) →
  (∀ s, is_Some (tk !! s) ↔ ∃ x, m !! s = Some x ∧ in_flight x = true) →
  Ready (MkScheduler (install base new m) (base + length new) (fresh_ids base new)
           hp hs tk fs di ws p4 p6 o se).
Proof.
  pose proof flatten_new as Hnew. revert Hnew. generalize new. intros nw Hnew Hm Htk.
  assert (∀ s x, install base nw m !! s = Some x ↔
    (base ≤ s)%nat ∧ nw !! (s - base)%nat = Some x ∨ m !! s = Some x) as Hlk.
  { intros s x. rewrite install_lookup. destruct (base <=? s)%nat eqn:E; to_prop.
    - destruct (nw !! (s - base)%nat) eqn:En; [|naive_solver].
      split; [naive_solver|]. intros [?|[??]%Hm]; [naive_solver|lia].
    - naive_solver lia. }
  assert (∀ s, s ∈ fresh_ids base nw ↔ (base ≤ s)%nat ∧ is_Some (nw !! (s - base)%nat)) as Hids.
  { intros s. unfold fresh_ids. rewrite list_elem_of_In, in_seq, lookup_lt_is_Some. lia. }
  split; simpl; try setoid_rewrite Hlk.
  - apply NoDup_ListNoDup, seq_NoDup.
  - intros s. rewrite Hids. split.
    + intros [Hs [x Hx]]. exists x. split; [naive_solver|]. by apply Hnew in Hx as (? & ? & ?).
    + intros (x & [[? Hx]|Hx] & Ha); [by rewrite Hx|]. apply Hm in Hx as (_ & ? & _). congruence.
  - intros s x [[? Hx]|Hx]; [apply lookup_lt_Some in Hx; lia|]. apply Hm in Hx as (? & _). lia.
  - intros s. rewrite Htk. split; [intros (x & ? & ?); eauto|].
    intros (x & [[_ Hx]|Hx] & Hf); [|eauto]. apply Hnew in Hx as (? & _). congruence.
  - intros s x [Hs _]%Hids [[_ Hx]|Hx]; [by apply Hnew in Hx as (? & _)|].
    apply Hm in Hx as (? & _). lia.
  - intros s x [[_ Hx]|Hx]; [by apply Hnew in Hx as (? & ? & ?)|].
    by apply Hm in Hx as (? & ? & ?).
Qed.
End install.

Lemma WF_reload cfg store roots wall now sch :
  closed_graph store roots → WF sch → WF (reload cfg store roots wall now sch).
Proof.
  intros Hclosed Hwf. unfold reload.
  pose proof (Ready_install cfg store roots wall (next_sid sch) Hclosed (retire sch) (tasks sch))
    as Hready.
  destruct (_flatten _ _ _ _ _) as [os_ ws]. simpl in Hready.
  destruct (_prune _ _ _) as [p4 os1]. destruct (_prune _ _ os1) as [p6 os2].
  apply WF_build_heap, Ready_stagger, Ready_reload_loop, Hready.
  - intros s x (o & Ho & ->)%retire_lookup; [|apply Hwf]. split; [by eapply wf_fresh|].
    pose proof (wf_interval _ _ Hwf s o Ho). case_bool_decide as Hs; destruct o; simpl in *; [done|].
    split; [|done]. apply not_true_iff_false. intros ?. destruct Hs.
    apply (wf_alive _ _ Hwf). eexists. split; [done|]. done.
  - intros s. rewrite (wf_tasks _ _ Hwf s).
    setoid_rewrite (retire_lookup sch s); [|apply Hwf]. split.
    + intros (o & Ho & Hf). eexists. split; [by exists o|]. case_bool_decide; by destruct o.
    + intros (x & (o & Ho & ->) & Hf). exists o. split; [done|].
      case_bool_decide; by destruct o.
Qed.

Lemma WF_init cfg store roots p4 p6 o wall now stagger sch :
  closed_graph store roots →
  Scheduler_init cfg store roots p4 p6 o wall now stagger = Ok sch → WF sch.
Proof.
  intros Hclosed. unfold Scheduler_init. case_match; [done|].
  pose proof (Ready_install cfg store roots wall 0 Hclosed ∅ ∅) as Hready.
  destruct (_flatten _ _ _ _ _) as [os_ ws]. intros [= <-].
  apply WF_build_heap, Ready_stagger, Hready.
  - intros s x. by rewrite lookup_empty.
  - intros s. rewrite lookup_empty. split; [by intros []|]. intros (? & Hx & _). by rewrite lookup_empty in Hx.
Qed.
