(* ===== verification/SchedRun.v ===== *)
(** * Runs of the event loop

    [step] is one uninterrupted piece of code of the event loop; [reached] collects the
    states of all runs from construction.  The theorems are about every such state or
    step: no node is lost, the concurrency cap holds, stale results are discarded. *)
From Stdlib Require Import Sorting.Sorted.
From S2P Require Import Prelude Status Model StateMachine PingPool Graph Gate Flatten Scheduler Json SchedOps SchedInv.

(** The socket pools change under the checks; the scheduler only holds them. *)
Definition with_pools (p4 p6 : _Pool) (o : OS) (sch : Scheduler) : Scheduler :=
  MkScheduler (objs sch) (next_sid sch) (scheduled sch) (heap sch) (heap_seq sch) (tasks sch)
    (free_slots sch) (dirty sch) (warnings sch) p4 p6 o (sent sch).

Inductive step (cfg : SchedConfig) : Scheduler → Scheduler → Prop :=
| step_tick now sch : step cfg sch (tick now sch)
| step_start s sch sch' : check_start s sch = Some sch' → step cfg sch sch'
| step_returned s code wall mono mono' sch sch' :
    check_returned cfg s code wall mono mono' sch = Some sch' → step cfg sch sch'
| step_raised s sch sch' : check_raised s sch = Some sch' → step cfg sch sch'
| step_sent s ok mono sch sch' : send_returned s ok mono sch = Some sch' → step cfg sch sch'
| step_send_raised s sch sch' : send_raised s sch = Some sch' → step cfg sch sch'
| step_ack h ty p sch : step cfg sch (ack h ty p sch).1
| step_note h ty p text sch : step cfg sch (set_note h ty p text sch).1
| step_states sch : step cfg sch (node_states sch).1
| step_import records now sch : step cfg sch (import_state records now sch).1
| step_clean sch : step cfg sch (sch <| dirty := false |>)
| step_pools p4 p6 o sch :
    svc_step (pool4 sch, pool6 sch, os sch) (p4, p6, o) → step cfg sch (with_pools p4 p6 o sch)
| step_reload store roots wall now sch :
    closed_graph store roots → step cfg sch (reload cfg store roots wall now sch).

Inductive reached (cfg : SchedConfig) : Scheduler → Prop :=
| reached_init store roots p4 p6 o wall now stagger sch :
    closed_graph store roots →
    Scheduler_init cfg store roots p4 p6 o wall now stagger = Ok sch → reached cfg sch
| reached_step sch sch' : reached cfg sch → step cfg sch sch' → reached cfg sch'.

Lemma WF_step cfg sch sch' : step cfg sch sch' → WF sch → WF sch'.
Proof.
  destruct 1; intros Hwf; eauto using WF_tick, WF_check_start, WF_check_returned, WF_check_raised,
    WF_send_returned, WF_send_raised, WF_mutate_matching, WF_node_states, WF_import, WF_reload.
  all: destruct sch; eapply WFx_ext, Hwf; done.
Qed.

Lemma reached_WF cfg sch : reached cfg sch → WF sch.
Proof. induction 1; eauto using WF_init, WF_step. Qed.

(** ** The concurrency cap *)

(** The task at [p.1], in phase [p.2], holds a slot of the semaphore. *)
Definition holdsb (m : gmap sid _Scheduled) (p : sid * phase) : bool :=
  match p.2, m !! p.1 with TRunning, Some o => negb (is_ping o) | _, _ => false end.

Definition in_use (m : gmap sid _Scheduled) (tk : gmap sid phase) : Z :=
  Z.of_nat (length (filter (λ p, holdsb m p = true) (map_to_list tk))).

Lemma in_use_delete m tk s ph :
  tk !! s = Some ph → in_use m tk = Z.b2z (holdsb m (s, ph)) + in_use m (delete s tk).
Proof.
  intros Hs. unfold in_use. rewrite <- (map_to_list_delete tk s ph Hs). rewrite filter_cons.
  destruct (holdsb m (s, ph)); simpl; [|done]. lia.
Qed.

Lemma in_use_insert m tk s ph :
  in_use m (<[s := ph]> tk) = Z.b2z (holdsb m (s, ph)) + in_use m (delete s tk).
Proof.
  rewrite (in_use_delete m _ s ph); [|apply lookup_insert_eq]. by rewrite delete_insert_eq.
Qed.

Lemma filter_ext_in {A} (P Q : A → Prop) `{∀ x, Decision (P x), ∀ x, Decision (Q x)} (l : list A) :
  (∀ x, x ∈ l → P x ↔ Q x) → filter P l = filter Q l.
Proof.
  induction l as [|x l IH]; intros Hl; [done|]. rewrite !filter_cons, IH by set_solver.
  specialize (Hl x). repeat case_decide; set_solver.
Qed.

Lemma filter_none {A} (P : A → Prop) `{∀ x, Decision (P x)} (l : list A) :
  (∀ x, x ∈ l → ¬ P x) → filter P l = [].
Proof.
  intros Hl. rewrite (filter_ext_in P (λ _, False)) by naive_solver.
  induction l as [|x l IH]; [done|]. rewrite filter_cons_False by tauto. apply IH. set_solver.
Qed.

Lemma in_use_ext m m' tk :
  (∀ s, is_Some (tk !! s) → node <$> m' !! s = node <$> m !! s) → in_use m' tk = in_use m tk.
Proof.
  intros Hm. unfold in_use. do 2 f_equal. apply filter_ext_in.
  intros [s ph] Hs%elem_of_map_to_list. unfold holdsb. simpl.
  specialize (Hm s ltac:(by rewrite Hs)). unfold is_ping.
  destruct ph, (m' !! s), (m !! s); simpl in *; try done. by injection Hm as ->.
Qed.

(** [d] slots in all: free, or held by a running check. *)
Definition slots (d : Z) (sch : Scheduler) : Prop :=
  0 <= free_slots sch ∧ free_slots sch + in_use (objs sch) (tasks sch) = d.

(** Nothing but the identity of the nodes matters to the count. *)
Lemma slots_ext d sch sch' :
  (∀ s, is_Some (tasks sch !! s) → node <$> objs sch' !! s = node <$> objs sch !! s) →
  tasks sch' = tasks sch → free_slots sch' = free_slots sch → slots d sch → slots d sch'.
Proof. unfold slots. intros Hm -> -> [? ?]. by rewrite (in_use_ext (objs sch)). Qed.

Lemma node_alter f s (m : gmap sid _Scheduled) s' :
  (∀ o, node (f o) = node o) → node <$> alter f s m !! s' = node <$> m !! s'.
Proof.
  intros Hf. destruct (decide (s = s')) as [<-|]; [|by rewrite lookup_alter_ne].
  rewrite lookup_alter_eq. destruct (m !! s); simpl; congruence.
Qed.

Lemma slots_upd d s f sch : (∀ o, node (f o) = node o) → slots d sch → slots d (upd s f sch).
Proof. intros Hf. destruct sch. apply slots_ext; simpl; [|done..]. intros. by apply node_alter. Qed.

Lemma slots_upd_state d s f sch : slots d sch → slots d (upd_state s f sch).
Proof. apply slots_upd. by intros []. Qed.

Lemma slots_push d s sch : slots d sch → slots d (_push s sch).
Proof. unfold _push. case_match; [|done]. by destruct sch. Qed.

Lemma slots_publish d b sch : slots d sch → slots d (publish b sch).
Proof. destruct b; [|done]. by destruct sch. Qed.

(** Replacing or removing the task of [s]. *)
Lemma slots_retask d s ph ph' sch free :
  tasks sch !! s = Some ph → 0 <= free →
  free = free_slots sch + Z.b2z (holdsb (objs sch) (s, ph)) - Z.b2z (holdsb (objs sch) (s, ph')) →
  slots d sch →
  slots d (sch <| tasks := <[s := ph']> (tasks sch) |> <| free_slots := free |>).
Proof.
  intros Hs H0 Hf [Hp Hc]. destruct sch; unfold slots in *; simpl in *. split; [done|].
  rewrite in_use_insert. rewrite (in_use_delete _ _ s ph Hs) in Hc. lia.
Qed.

Lemma slots_finish d s ph sch :
  tasks sch !! s = Some ph → slots (d + Z.b2z (holdsb (objs sch) (s, ph))) sch →
  slots d (finish s sch).
Proof.
  intros Hs [H0 Hc]. rewrite (in_use_delete _ _ s ph Hs) in Hc.
  assert (slots d (ended s sch)) as He.
  { destruct sch; unfold slots, ended; simpl in *. split; [done|].
    erewrite in_use_ext; [|intros s' _; apply node_alter; by intros []]. lia. }
  rewrite finish_ended. repeat case_match; [by apply slots_push|done..].
Qed.

Lemma slots_release d o sch :
  slots d sch → slots (d + Z.b2z (negb (is_ping o))) (release_slot o sch).
Proof.
  unfold slots, release_slot. intros [H0 Hc]. destruct (is_ping o); simpl; [lia|].
  destruct sch; simpl in *. lia.
Qed.

Lemma objs_release o sch : objs (release_slot o sch) = objs sch.
Proof. unfold release_slot. by destruct (is_ping o), sch. Qed.

Lemma holdsb_running m s o : m !! s = Some o → holdsb m (s, TRunning) = negb (is_ping o).
Proof. unfold holdsb. simpl. by intros ->. Qed.

Lemma holdsb_alter f s m p : (∀ o, node (f o) = node o) → holdsb (alter f s m) p = holdsb m p.
Proof.
  intros Hf. destruct p as [s' ph]. pose proof (node_alter f s m s' Hf) as E. unfold holdsb, is_ping.
  simpl. destruct ph, (alter f s m !! s'), (m !! s'); simpl in *; try done. by injection E as ->.
Qed.

Lemma slots_tick_one d now e h sch :
  heap sch = e :: h → WF sch → slots d sch → slots d (tick_one now (who e) (sch <| heap := h |>)).
Proof.
  intros Eh Hwf Hsl. apply (WFx_pop sch e h Eh) in Hwf. unfold tick_one.
  assert (slots d (sch <| heap := h |>)) as Hsl1 by by destruct sch.
  apply (slots_upd d (who e) (λ o, o <| next_due := (now + sched_interval o)%Q |>)) in Hsl1;
    [|by intros []].
  destruct (eligible _ _); [|by apply slots_push, slots_upd_state].
  assert (tasks sch !! who e = None) as Hnone.
  { destruct (wf_loose _ _ Hwf (who e)) as (o & Ho & _ & Hf); [set_solver|].
    apply eq_None_not_Some. intros Ht. destruct sch; simpl in *.
    apply (wf_tasks _ _ Hwf) in Ht as (o' & Ho' & ?). simpl in *. congruence. }
  apply (slots_upd d (who e) (λ o, o <| in_flight := true |>)) in Hsl1; [|by intros []].
  destruct sch; unfold slots in *; simpl in *. split; [apply Hsl1|].
  rewrite in_use_insert, delete_id by done. apply Hsl1.
Qed.

Lemma slots_tick d now sch : WF sch → slots d sch → slots d (tick now sch).
Proof.
  unfold tick. generalize (length (heap sch)). intros fuel Hwf Hsl.
  destruct (tick_loop fuel now sch) as [sch'|] eqn:E; simpl; [|done].
  revert sch E Hwf Hsl. induction fuel as [|fuel IH]; intros sch; simpl;
    destruct (heap sch) as [|e h] eqn:Eh; try naive_solver; case_match; try naive_solver.
  intros E Hwf Hsl. eapply IH; [done|by apply WF_tick_one|by apply slots_tick_one].
Qed.

Lemma slots_check_start d s sch sch' : check_start s sch = Some sch' → slots d sch → slots d sch'.
Proof.
  unfold check_start. intros H Hsl. destruct (tasks sch !! s) as [[]|] eqn:Et; try done.
  destruct (objs sch !! s) as [o|] eqn:Eo; [|done].
  pose proof (holdsb_running _ _ _ Eo) as Hh. destruct (is_ping o); simplify_eq.
  - apply (slots_retask d s TWaiting TRunning sch (free_slots sch)) in Hsl;
      [by destruct sch|done|apply Hsl|rewrite Hh; simpl; lia].
  - destruct (0 <? free_slots sch) eqn:E0; simplify_eq. to_prop.
    apply slots_retask with (ph := TWaiting); [done|lia|rewrite Hh; simpl; lia|done].
Qed.

(** A running check gives its slot back, whatever happens to its task next. *)
Lemma slots_leave d s o f b sch :
  tasks sch !! s = Some TRunning → objs sch !! s = Some o → (∀ o, node (f o) = node o) →
  slots d sch → slots d (finish s (publish b (upd s f (release_slot o sch)))).
Proof.
  intros Ht Ho Hf Hsl. apply (slots_finish d s TRunning).
  { rewrite tasks_publish, tasks_upd, tasks_release. done. }
  apply slots_publish. replace (holdsb (objs (publish b (upd s f (release_slot o sch)))) (s, TRunning))
    with (negb (is_ping o)).
  - by apply slots_upd, slots_release.
  - rewrite <- (holdsb_running _ _ _ Ho). destruct b; unfold release_slot;
      destruct (is_ping o), sch; simpl; by rewrite holdsb_alter.
Qed.

Lemma upd_id s sch : upd s id sch = sch.
Proof. destruct sch; unfold upd; simpl. f_equal. apply map_eq. intros i.
  destruct (decide (s = i)) as [->|]; [rewrite lookup_alter_eq|by rewrite lookup_alter_ne].
  by destruct (objs !! i). Qed.

Lemma slots_check_returned d cfg s code wall mono mono' sch sch' :
  check_returned cfg s code wall mono mono' sch = Some sch' → slots d sch → slots d sch'.
Proof.
  unfold check_returned. intros H Hsl. destruct (tasks sch !! s) as [[]|] eqn:Et; try done.
  destruct (objs sch !! s) as [o|] eqn:Eo; [|done].
  destruct (negb (alive o)); [simplify_eq; rewrite <- (upd_id s (release_slot o sch));
    by apply (slots_leave d s o id false)|].
  destruct (negb (eligible _ _)); [simplify_eq; apply (slots_leave d s o _ false); [done..| |done];
    by intros []|].
  destruct (apply_result _ _ _ _) as [st1 tr]. destruct (_handle_paging _ _ _ _ _ _) as [st2 aw].
  destruct aw as [k|]; simplify_eq; [|by apply slots_leave; [..|intros []|]].
  set (f := λ o : _Scheduled, _). assert (∀ o, node (f o) = node o) as Hf by by intros [].
  pose proof (slots_upd _ s f _ Hf (slots_release d o sch Hsl)) as [H0 Hc].
  pose proof (holdsb_running _ _ _ Eo) as Hh.
  assert (in_use (objs (upd s f (release_slot o sch))) (tasks sch) =
    Z.b2z (negb (is_ping o)) + in_use (objs (upd s f (release_slot o sch))) (delete s (tasks sch))) as Hd.
  { rewrite (in_use_delete _ _ s TRunning Et), <- Hh. do 2 f_equal. unfold upd.
    destruct sch; unfold release_slot; destruct (is_ping o); simpl; by apply holdsb_alter. }
  revert H0 Hc. rewrite tasks_upd, tasks_release. intros H0 Hc. rewrite Hd in Hc. clear Hd.
  unfold slots. unfold release_slot in *.
  destruct (is_ping o), sch; simpl in *; (split; [done|]); rewrite in_use_insert; simpl; lia.
Qed.

Lemma slots_check_raised d s sch sch' : check_raised s sch = Some sch' → slots d sch → slots d sch'.
Proof.
  unfold check_raised. intros H Hsl. destruct (tasks sch !! s) as [[]|] eqn:Et; try done.
  destruct (objs sch !! s) as [o|] eqn:Eo; simplify_eq. rewrite <- (upd_id s (release_slot o sch)).
  by apply (slots_leave d s o id false).
Qed.

Lemma slots_send_returned d s ok mono sch sch' :
  send_returned s ok mono sch = Some sch' → slots d sch → slots d sch'.
Proof.
  unfold send_returned. intros H Hsl. destruct (tasks sch !! s) as [[]|] eqn:Et; simplify_eq.
  eapply slots_finish; [unfold upd_state; by rewrite tasks_publish, tasks_upd|].
  rewrite Z.add_0_r. by apply slots_publish, slots_upd_state.
Qed.

Lemma slots_send_raised d s sch sch' : send_raised s sch = Some sch' → slots d sch → slots d sch'.
Proof.
  unfold send_raised. intros H Hsl. destruct (tasks sch !! s) as [[]|] eqn:Et; simplify_eq.
  eapply slots_finish; [done|]. by rewrite Z.add_0_r.
Qed.

Lemma slots_foldl {A} d (f : Scheduler → A → Scheduler) l sch :
  (∀ sch a, slots d sch → slots d (f sch a)) → slots d sch → slots d (foldl f sch l).
Proof. intros Hf. revert sch. induction l as [|a l IH]; intros sch Hsl; simpl; [done|]. eauto. Qed.

Lemma slots_mutate_matching d f h ty p sch : slots d sch → slots d (mutate_matching f h ty p sch).1.
Proof.
  intros Hsl. unfold mutate_matching. simpl.
  assert (slots d (foldl (λ sch s, upd_state s f sch) sch (_match h ty p sch))) as Hsl'
    by (apply slots_foldl; [intros; by apply slots_upd_state|done]).
  case_bool_decide; [done|]. revert Hsl'. generalize (foldl (λ sch s, upd_state s f sch) sch).
  intros g. by destruct (g _).
Qed.

Lemma slots_node_states d sch : slots d sch → slots d (node_states sch).1.
Proof.
  intros Hsl. apply slots_foldl; [|done]. intros. case_match; [by apply slots_upd_state|done].
Qed.

Lemma slots_import d records now_mono sch : slots d sch → slots d (import_state records now_mono sch).1.
Proof.
  unfold import_state. generalize 0%nat. revert sch.
  induction records as [|record records IH]; intros sch k Hsl; simpl; [done|].
  repeat case_match; simpl; eauto. apply IH. by apply slots_upd_state.
Qed.

Lemma slots_build d cfg b now sch :
  slots d sch → slots d (_build_heap (_stagger_due cfg b now sch)).
Proof.
  intros Hsl. unfold _build_heap. apply slots_foldl; [intros; by apply slots_push|].
  assert (slots d (_stagger_due cfg b now sch)) as Hsl'.
  { unfold _stagger_due. apply slots_foldl; [|done]. intros ? [? ?] ?. apply slots_upd; [by intros []|done]. }
  revert Hsl'. generalize (_stagger_due cfg b now sch). by intros [].
Qed.

Lemma slots_reload_loop d old seen ids sch :
  slots d sch → slots d (reload_loop old seen ids sch).
Proof.
  revert seen sch. induction ids as [|s ids IH]; intros seen sch Hsl; simpl; [done|].
  case_match; [|by apply IH]. apply IH, slots_upd.
  - intros o. pose proof (carry_into_static old o) as E. unfold static in E. congruence.
  - case_bool_decide; [by destruct sch|done].
Qed.

Lemma slots_reload d cfg store roots wall now sch :
  WF sch → slots d sch → slots d (reload cfg store roots wall now sch).
Proof.
  intros Hwf Hsl. unfold reload. destruct (_flatten _ _ _ _ _) as [os_ ws].
  destruct (_prune _ _ _) as [p4 os1]. destruct (_prune _ _ os1) as [p6 os2].
  apply slots_build, slots_reload_loop. eapply slots_ext, Hsl; [|done..]. simpl.
  intros s (o & Ho & _)%(wf_tasks _ _ Hwf). rewrite install_lookup.
  pose proof (wf_fresh _ _ Hwf s o Ho). destruct (next_sid sch <=? s)%nat eqn:E; to_prop; [lia|].
  rewrite Ho. simpl. destruct (retire sch !! s) as [x|] eqn:Ex.
  - apply retire_lookup in Ex as (o' & Ho' & ->); [|apply Hwf]. simplify_eq/=.
    case_bool_decide; by destruct o.
  - exfalso. assert (retire sch !! s = Some
      (if bool_decide (s ∈ scheduled sch) then o <| alive := false |> else o)) as Hx.
    { apply retire_lookup; [apply Hwf|eauto]. }
    congruence.
Qed.

Lemma slots_init cfg store roots p4 p6 o wall now stagger sch :
  Scheduler_init cfg store roots p4 p6 o wall now stagger = Ok sch → slots (max_concurrency cfg) sch.
Proof.
  unfold Scheduler_init. destruct (max_concurrency cfg <? 0) eqn:E; [done|]. to_prop.
  destruct (_flatten _ _ _ _ _) as [os_ ws]. intros [= <-]. apply slots_build.
  unfold slots, in_use. simpl. rewrite map_to_list_empty. simpl. lia.
Qed.

Lemma slots_step d cfg sch sch' : step cfg sch sch' → WF sch → slots d sch → slots d sch'.
Proof.
  destruct 1; intros Hwf Hsl; eauto using slots_tick, slots_check_start, slots_check_returned,
    slots_check_raised, slots_send_returned, slots_send_raised, slots_mutate_matching,
    slots_node_states, slots_import, slots_reload.
  by destruct sch.
Qed.

Lemma reached_slots cfg sch : reached cfg sch → slots (max_concurrency cfg) sch.
Proof. induction 1; eauto using slots_init, slots_step, reached_WF. Qed.

(** ** Properties *)

(** C1: no node is ever lost or queued twice.  In every state of every run, a scheduled
    node is alive, and either it waits on the heap exactly once, at its due time and with
    no task, or it is in flight with a task and not on the heap at all: the invariant the
    comment of [_build_heap] states. *)
Theorem no_node_lost (cfg : SchedConfig) (sch : Scheduler) (s : sid)
    (Hr : reached cfg sch) (Hs : s ∈ scheduled sch) :
  ∃ o, objs sch !! s = Some o ∧ alive o = true ∧
    ((in_flight o = false ∧ tasks sch !! s = None ∧
      ∃ e, filter (λ e, who e = s) (heap sch) = [e] ∧ due e = next_due o) ∨
     (in_flight o = true ∧ is_Some (tasks sch !! s) ∧
      filter (λ e, who e = s) (heap sch) = [])).
Proof.
  pose proof (reached_WF cfg sch Hr) as Hwf. apply (wf_alive _ _ Hwf) in Hs as (o & Ho & Ha).
  exists o. split_and!; [done..|]. destruct (in_flight o) eqn:Hf; [right|left].
  - split_and!; [done|apply (wf_tasks _ _ Hwf); eauto|].
    apply filter_none. intros e He Hw. assert (who e ∈ who <$> heap sch) as Hin by by apply list_elem_of_fmap_2.
    apply (wf_heap _ _ Hwf) in Hin as (_ & o' & ? & _ & ?). congruence.
  - split_and!; [done| |].
    { apply eq_None_not_Some. intros (o' & ? & ?)%(wf_tasks _ _ Hwf). congruence. }
    assert (s ∈ who <$> heap sch) as (e & -> & He)%list_elem_of_fmap
      by (apply (wf_heap _ _ Hwf); split; [apply not_elem_of_empty|eauto]).
    exists e. split; [|by apply (wf_due _ _ Hwf)]. pose proof (wf_once _ _ Hwf) as Hnd.
    clear -He Hnd. induction (heap sch) as [|x h IH]; [by apply elem_of_nil in He|].
    apply NoDup_cons in Hnd as [Hx Hnd]. apply elem_of_cons in He as [->|He].
    + rewrite filter_cons_True by done. f_equal. apply filter_none.
      intros y Hy E. destruct Hx. rewrite <- E. by apply list_elem_of_fmap_2.
    + rewrite filter_cons_False; [by apply IH|]. intros E. destruct Hx. rewrite E.
      by apply list_elem_of_fmap_2.
Qed.

(** C34: the concurrency cap.  In every state of every run the checks that hold a slot are
    at most [max_concurrency] and the free slots are exactly the rest; a queued non-ping
    check cannot start exactly when all slots are held, and a ping always can. *)
Theorem concurrency_cap (cfg : SchedConfig) (sch : Scheduler) (Hr : reached cfg sch) :
  0 <= in_use (objs sch) (tasks sch) <= max_concurrency cfg ∧
  free_slots sch = max_concurrency cfg - in_use (objs sch) (tasks sch) ∧
  ∀ s o, tasks sch !! s = Some TWaiting → objs sch !! s = Some o →
    (check_start s sch = None ↔
     is_ping o = false ∧ in_use (objs sch) (tasks sch) = max_concurrency cfg).
Proof.
  destruct (reached_slots cfg sch Hr) as [H0 Hc].
  assert (0 <= in_use (objs sch) (tasks sch)) by (unfold in_use; lia).
  split_and!; [lia..|]. intros s o Ht Ho. unfold check_start. rewrite Ht, Ho.
  destruct (is_ping o); [naive_solver|]. destruct (0 <? free_slots sch) eqn:E; to_prop.
  - split; [done|lia].
  - split; [lia|done].
Qed.

(** A scheduler over the small graph, before and after its first tick. *)
Definition demo_init : res pyexn Scheduler :=
  Scheduler_init demo_cfg demo_store [0%nat; 1%nat] (pools_init []).1 (pools_init []).2 demo_os 0 0 false.

Definition demo_sch : Scheduler :=
  match demo_init with
  | Ok sch => sch
  | Raise _ => MkScheduler ∅ 0 [] [] 0 ∅ 0 false [] (pools_init []).1 (pools_init []).2 demo_os []
  end.

Lemma demo_reached : reached demo_cfg demo_sch.
Proof.
  apply (reached_init demo_cfg demo_store [0%nat; 1%nat] (pools_init []).1 (pools_init []).2
           demo_os 0 0 false).
  - apply closed_graphb_spec. vm_compute. reflexivity.
  - vm_compute. reflexivity.
Qed.

Lemma no_node_lost_witness :
  (who <$> heap demo_sch, tasks demo_sch !! 1%nat) = ([0; 1; 2; 3]%nat, None) ∧
  ∃ o, objs (tick 0 demo_sch) !! 3%nat = Some o ∧ in_flight o = true ∧
       filter (λ e, who e = 3%nat) (heap (tick 0 demo_sch)) = [].
Proof.
  split; [vm_compute; reflexivity|].
  destruct (no_node_lost demo_cfg (tick 0 demo_sch) 3) as (o & Ho & _ & [(Hf & Ht & _)|(Hf & _ & Hh)]).
  - eapply reached_step; [apply demo_reached|constructor].
  - vm_compute. repeat constructor.
  - vm_compute in Ht. done.
  - exists o. split; [exact Ho|]. split; [exact Hf|exact Hh].
Defined.

Lemma concurrency_cap_witness :
  free_slots demo_sch = 50 ∧ 0 <= in_use (objs demo_sch) (tasks demo_sch) <= 50.
Proof. split; [vm_compute; reflexivity|]. apply (concurrency_cap demo_cfg demo_sch demo_reached). Defined.
