(* ===== verification/SchedTick.v ===== *)
(** * What one [tick] does

    The loop of [Scheduler.tick] pops due entries one at a time and pushes suppressed ones
    back.  It is equivalent to a simultaneous update of all due nodes, and [_next_delay]
    after it is positive, so the run loop sleeps and misses no due time. *)
From Stdlib Require Import Sorting.Sorted.
From S2P Require Import Prelude Status Model StateMachine PingPool Graph Gate Flatten Scheduler Json SchedOps SchedInv SchedRun.

(** ** Eligibility reads only gates, [checked] and [lastcheck] *)

Definition hop (o : _Scheduled) : list sid * bool := (gate o, usable_hop o).

Definition same_hops (m m' : gmap sid _Scheduled) : Prop := hop <$> m = hop <$> m'.

#[export] Instance same_hops_equiv : Equivalence same_hops.
Proof. unfold same_hops. split; [intros ?|intros ??|intros ???]; congruence. Qed.

Lemma same_hops_lookup m m' s o :
  same_hops m m' → m !! s = Some o → ∃ o', m' !! s = Some o' ∧ hop o = hop o'.
Proof.
  intros E Ho. assert ((hop <$> m) !! s = Some (hop o)) as H by by rewrite lookup_fmap, Ho.
  rewrite E, lookup_fmap in H. apply fmap_Some in H as (o' & ? & ?). eauto.
Qed.

Lemma Live_same_hops m m' p : same_hops m m' → Live m p → Live m' p.
Proof.
  intros E. induction 1 as [p o Ho Hu Hg|p o q Ho Hu Hq _ IH];
    destruct (same_hops_lookup _ _ _ _ E Ho) as (o' & Ho' & [= Eg Eu]).
  - apply (Live_root _ _ o'); congruence.
  - apply (Live_hop _ _ o' q); congruence.
Qed.

#[export] Instance _eligible_proper : Proper (same_hops ==> (λ o o', gate o = gate o') ==> (=)) _eligible.
Proof.
  intros m m' E o o' Eg. apply eq_true_iff_eq. unfold _eligible. rewrite !reachable_spec.
  unfold Reachable. rewrite Eg. split; intros [?|(p & ? & Hl)]; eauto using Live_same_hops.
  right. exists p. split; [done|]. eapply Live_same_hops, Hl. by symmetry.
Qed.

Lemma eligible_same_hops sch sch' s :
  same_hops (objs sch) (objs sch') → eligible sch s = eligible sch' s.
Proof.
  intros E. unfold eligible. destruct (objs sch !! s) as [o|] eqn:Ho.
  - destruct (same_hops_lookup _ _ _ _ E Ho) as (o' & -> & [= Eg _]). by apply _eligible_proper.
  - destruct (objs sch' !! s) as [o'|] eqn:Ho'; [|done]. symmetry in E.
    destruct (same_hops_lookup _ _ _ _ E Ho') as (? & ? & _). congruence.
Qed.

Lemma same_hops_alter f s m : (∀ o, hop (f o) = hop o) → same_hops (alter f s m) m.
Proof.
  intros Hf. apply map_eq. intros i. rewrite !lookup_fmap.
  destruct (decide (s = i)) as [->|]; [rewrite lookup_alter_eq|by rewrite lookup_alter_ne].
  destruct (m !! i); simpl; congruence.
Qed.

(** ** The simultaneous update *)

Definition is_due (now : Q) (sch : Scheduler) (s : sid) : bool :=
  existsb (λ e, bool_decide (who e = s) && Qle_bool (due e) now) (heap sch).

(** A due node gets its next slot, and is dispatched or suppressed. *)
Definition ticked (now : Q) (sch : Scheduler) (s : sid) (o : _Scheduled) : _Scheduled :=
  if is_due now sch s then
    if eligible sch s
    then o <| next_due := (now + sched_interval o)%Q |> <| in_flight := true |>
    else o <| next_due := (now + sched_interval o)%Q |>
           <| state := (state o) <| suppressed := true |> |>
  else o.

Record tick_rel (now : Q) (sch sch' : Scheduler) : Prop := {
  tr_objs : ∀ s, objs sch' !! s = ticked now sch s <$> objs sch !! s;
  tr_tasks : ∀ s, tasks sch' !! s =
    if is_due now sch s && eligible sch s then Some TWaiting else tasks sch !! s;
  tr_heap : ∀ e, e ∈ heap sch' → (now < due e)%Q;
  tr_sent : sent sch' = sent sch
}.

Lemma is_due_spec now sch s :
  is_due now sch s = true ↔ ∃ e, e ∈ heap sch ∧ who e = s ∧ (due e <= now)%Q.
Proof.
  unfold is_due. rewrite existsb_exists. setoid_rewrite <- list_elem_of_In.
  split; intros (e & He & H); exists e; to_prop; naive_solver.
Qed.

Section tick_one.
Context (now : Q) (sch : Scheduler) (e : heap_entry) (h : list heap_entry).
Context (Hwf : WF sch) (Eh : heap sch = e :: h) (Hdue : (due e <= now)%Q).
Abbreviation sch1 := (tick_one now (who e) (sch <| heap := h |>)).

Lemma who_due : is_due now sch (who e) = true.
Proof. apply is_due_spec. exists e. rewrite Eh. split; [apply list_elem_of_here|done]. Qed.

Lemma tick_one_eligible s :
  eligible (upd (who e) (λ o, o <| next_due := (now + sched_interval o)%Q |>) (sch <| heap := h |>)) s
  = eligible sch s.
Proof. apply eligible_same_hops. destruct sch; simpl. apply same_hops_alter. by intros []. Qed.

Lemma tick_one_objs :
  objs sch1 = alter (ticked now sch (who e)) (who e) (objs sch).
Proof.
  unfold tick_one, ticked. rewrite tick_one_eligible, who_due.
  assert (∀ sch s, objs (_push s sch) = objs sch) as Hp.
  { intros c s. unfold _push. case_match; [by destruct c|done]. }
  destruct (eligible sch (who e)); rewrite ?Hp; destruct sch; simpl;
    apply map_eq; intros i; destruct (decide (who e = i)) as [->|];
    rewrite ?lookup_alter_eq, ?lookup_alter_ne by done; try done;
    by destruct (objs !! i) as [[]|].
Qed.

Lemma tick_one_tasks s :
  tasks sch1 !! s =
  if bool_decide (s = who e) && eligible sch s then Some TWaiting else tasks sch !! s.
Proof.
  unfold tick_one. rewrite tick_one_eligible.
  assert (∀ sch s, tasks (_push s sch) = tasks sch) as Hp.
  { intros c x. unfold _push. case_match; [by destruct c|done]. }
  case_bool_decide as Hs; simpl; [subst s|]; destruct (eligible sch (who e));
    rewrite ?Hp; destruct sch; simpl; by simplify_map_eq.
Qed.

Lemma tick_one_sent : sent sch1 = sent sch.
Proof.
  unfold tick_one. assert (∀ sch s, sent (_push s sch) = sent sch) as Hp.
  { intros c s. unfold _push. case_match; [by destruct c|done]. }
  destruct (eligible _ _); rewrite ?Hp; by destruct sch.
Qed.

(** What the body leaves on the heap: the rest, and a requeued entry that is not due. *)
Lemma tick_one_heap :
  heap sch1 = h ∨ ∃ e', who e' = who e ∧ (now < due e')%Q ∧ heap sch1 = heappush h e'.
Proof.
  pose proof (wf_heap _ _ Hwf (who e)) as [(_ & o & Ho & _) _].
  { rewrite Eh. simpl. apply list_elem_of_here. }
  unfold tick_one. rewrite tick_one_eligible. destruct (eligible sch (who e)).
  - left. by destruct sch.
  - right. set (c := upd_state _ _ _).
    assert (objs c !! who e = Some (o <| next_due := (now + sched_interval o)%Q |>
              <| state := (state o) <| suppressed := true |> |>)) as Hc.
    { subst c. destruct sch; simpl in *. rewrite !lookup_alter_eq, Ho. by destruct o. }
    assert (heap c = h) as Ehc by (subst c; by destruct sch).
    unfold _push. rewrite Hc. exists (MkEntry (now + sched_interval o) (heap_seq c) (who e)).
    split; [done|split]; last first.
    + destruct c, o; simpl in *. by subst.
    + simpl. pose proof (wf_interval _ _ Hwf (who e) o Ho) as Hi.
      unfold _MIN_INTERVAL_S in Hi. lra.
Qed.

Lemma tick_one_due s : is_due now sch1 s = is_due now sch s && negb (bool_decide (s = who e)).
Proof.
  pose proof (wf_once _ _ Hwf) as Hnd. rewrite Eh in Hnd. simpl in Hnd.
  apply NoDup_cons in Hnd as [Hne _].
  assert (is_due now sch1 s = existsb (λ e, bool_decide (who e = s) && Qle_bool (due e) now) h) as ->.
  { unfold is_due. destruct tick_one_heap as [->|(e' & Hw & Hd & ->)]; [done|].
    apply eq_true_iff_eq. rewrite !existsb_exists. setoid_rewrite <- list_elem_of_In.
    setoid_rewrite heappush_perm. setoid_rewrite elem_of_cons.
    split; [|naive_solver]. intros (x & [->|Hx] & Hb); [|eauto]. to_prop. lra. }
  unfold is_due. rewrite Eh. simpl. destruct (decide (s = who e)) as [->|Hs].
  - rewrite (bool_decide_eq_true_2 (who e = who e)) by done. simpl. rewrite andb_false_r. apply not_true_iff_false. intros (x & Hx & Hb)%existsb_exists.
    to_prop. destruct Hne. rewrite <- (proj1 Hb). apply list_elem_of_fmap_2, list_elem_of_In, Hx.
  - rewrite !bool_decide_eq_false_2 by done. simpl. by rewrite andb_true_r.
Qed.

Lemma tick_one_length :
  (length (filter (λ e, Qle_bool (due e) now = true) (heap sch1)) < length (filter (λ e, Qle_bool (due e) now = true) (heap sch)))%nat.
Proof.
  rewrite Eh, filter_cons_True by by apply Qle_bool_iff. cbn [length].
  destruct tick_one_heap as [->|(e' & _ & Hd & ->)]; [lia|].
  rewrite heappush_perm, filter_cons_False; [lia|].
  rewrite Qle_bool_iff. lra.
Qed.
End tick_one.

Lemma tick_loop_rel fuel now sch :
  WF sch → (length (filter (λ e, Qle_bool (due e) now = true) (heap sch)) ≤ fuel)%nat →
  ∃ sch', tick_loop fuel now sch = Some sch' ∧ tick_rel now sch sch'.
Proof.
  assert (∀ sch, WF sch → (∀ e, e ∈ heap sch → (now < due e)%Q) → tick_rel now sch sch) as Hstop.
  { clear. intros sch _ Hd. assert (∀ s, is_due now sch s = false) as Hnd.
    { intros s. apply not_true_iff_false. intros (e & He & _ & ?)%is_due_spec. apply Hd in He. lra. }
    split; try done; intros s; unfold ticked; rewrite Hnd; [|done]. by destruct (objs sch !! s). }
  revert sch. induction fuel as [|fuel IH]; intros sch Hwf Hf; simpl;
    destruct (heap sch) as [|e h] eqn:Eh;
    try (eexists; split; [done|]; apply Hstop; [done|]; rewrite Eh; by intros ? ?%elem_of_nil);
    destruct (Qle_bool (due e) now) eqn:Ed.
  2,4: eexists; split; [done|]; apply Hstop; [done|]; rewrite Eh; to_prop;
    pose proof (wf_sorted _ _ Hwf) as Hso; rewrite Eh in Hso; apply StronglySorted_inv in Hso as [_ Hso];
    rewrite Forall_forall in Hso; intros x [->|Hx]%elem_of_cons; [done|];
    specialize (Hso x Hx); simpl in Hso; lra.
  { rewrite filter_cons_True in Hf by done. simpl in Hf. lia. }
  to_prop. pose proof (tick_one_length now sch e h Hwf Eh Ed) as Hlen.
  destruct (IH (tick_one now (who e) (sch <| heap := h |>))) as (sch' & Hl & [Ho Ht Hh Hs]).
  { by apply WF_tick_one. } { rewrite Eh in Hlen. lia. }
  exists sch'. split; [exact Hl|].
  assert (∀ s, eligible (tick_one now (who e) (sch <| heap := h |>)) s = eligible sch s) as Hel.
  { intros s. apply eligible_same_hops. rewrite tick_one_objs by done. apply same_hops_alter.
    intros [? ? [] ? ? ? ? ? ? ?]. unfold ticked. by repeat case_match. }
  split; [| |done|by rewrite Hs, tick_one_sent].
  - intros s. rewrite Ho, tick_one_objs by done. unfold ticked.
    rewrite tick_one_due, Hel by done. destruct (decide (s = who e)) as [->|Hne].
    + rewrite lookup_alter_eq, (bool_decide_eq_true_2 (who e = who e)), andb_false_r by done.
      by destruct (objs sch !! who e).
    + rewrite lookup_alter_ne, bool_decide_eq_false_2, andb_true_r by done. done.
  - intros s. rewrite Ht, tick_one_due, tick_one_tasks, Hel by done.
    destruct (decide (s = who e)) as [->|Hne].
    + rewrite (bool_decide_eq_true_2 (who e = who e)) by done. rewrite (who_due now sch e h) by done.
      done.
    + rewrite bool_decide_eq_false_2, andb_true_r by done. done.
Qed.

Lemma tick_rel_tick now sch :
  WF sch → tick_loop (length (heap sch)) now sch = Some (tick now sch) ∧ tick_rel now sch (tick now sch).
Proof.
  intros Hwf. unfold tick. destruct (tick_loop_rel (length (heap sch)) now sch Hwf) as (sch' & -> & ?);
    [apply length_filter|]. done.
Qed.

(** ** Properties *)

(** C5: one tick.  The loop always ends, having popped each due entry once, and its effect
    is the simultaneous one: every node due by [now] gets [now + interval] as its next slot
    and is dispatched as a new task if it was eligible before the tick, or marked
    suppressed and requeued otherwise; every other node and task is untouched, and nothing
    left on the heap is due. *)
Theorem tick_batch (cfg : SchedConfig) (now : Q) (sch : Scheduler) (Hr : reached cfg sch) :
  tick_loop (length (heap sch)) now sch = Some (tick now sch) ∧
  (∀ s, objs (tick now sch) !! s = ticked now sch s <$> objs sch !! s) ∧
  (∀ s, tasks (tick now sch) !! s =
     if is_due now sch s && eligible sch s then Some TWaiting else tasks sch !! s) ∧
  (∀ e, e ∈ heap (tick now sch) → (now < due e)%Q).
Proof.
  destruct (tick_rel_tick now sch (reached_WF cfg sch Hr)) as [Hl [Ho Ht Hh _]]. done.
Qed.


Lemma tick_batch_witness :
  is_due 0 demo_sch 3 = true ∧ eligible demo_sch 3 = true ∧ eligible demo_sch 1 = false ∧
  tasks (tick 0 demo_sch) !! 3%nat = Some TWaiting ∧ tasks (tick 0 demo_sch) !! 1%nat = None.
Proof.
  split_and!; [vm_compute; reflexivity..| |];
    (destruct (tick_batch demo_cfg 0 demo_sch demo_reached) as (_ & _ & Ht & _); rewrite Ht;
     vm_compute; reflexivity).
Defined.

