(* ===== verification/SchedPaging.v ===== *)
(** * Results and pages

    What a completed check does: stale results are discarded, a page is sent exactly when
    the contact policy, the acknowledgement, the threshold and the re-page timer say so,
    and pages of one outage are spaced by the re-page interval. *)
From S2P Require Import Prelude Status Model StateMachine PingPool Graph Gate Flatten Scheduler Json SchedOps SchedInv SchedRun SchedTick.

(** ** Frames of the pieces of [check_returned] *)

Lemma eligible_release o sch s : eligible (release_slot o sch) s = eligible sch s.
Proof. unfold eligible. by rewrite objs_release. Qed.

Lemma sent_finish s sch : sent (finish s sch) = sent sch.
Proof.
  unfold finish. destruct sch; simpl. destruct (alter _ _ _ !! s) as [o|] eqn:E; [|done].
  destruct (alive o); unfold _push; simpl; [by rewrite E|done].
Qed.

Lemma objs_finish s sch :
  objs (finish s sch) = alter (λ o, o <| in_flight := false |>) s (objs sch).
Proof.
  unfold finish. destruct sch; simpl. destruct (alter _ _ _ !! s) as [o|] eqn:E; [|done].
  destruct (alive o); unfold _push; simpl; [by rewrite E|done].
Qed.

Lemma tasks_finish s sch : tasks (finish s sch) = delete s (tasks sch).
Proof.
  unfold finish. destruct sch; simpl. destruct (alter _ _ _ !! s) as [o|] eqn:E; [|done].
  destruct (alive o); unfold _push; simpl; [by rewrite E|done].
Qed.

Lemma dirty_finish s sch : dirty (finish s sch) = dirty sch.
Proof.
  unfold finish. destruct sch; simpl. destruct (alter _ _ _ !! s) as [o|] eqn:E; [|done].
  destruct (alive o); unfold _push; simpl; [by rewrite E|done].
Qed.

Lemma sent_release o sch : sent (release_slot o sch) = sent sch.
Proof. unfold release_slot. by destruct (is_ping o), sch. Qed.

Lemma dirty_release o sch : dirty (release_slot o sch) = dirty sch.
Proof. unfold release_slot. by destruct (is_ping o), sch. Qed.

Lemma sent_upd s f sch : sent (upd s f sch) = sent sch.
Proof. by destruct sch. Qed.

Lemma dirty_upd s f sch : dirty (upd s f sch) = dirty sch.
Proof. by destruct sch. Qed.

Lemma sent_publish b sch : sent (publish b sch) = sent sch.
Proof. by destruct b, sch. Qed.

Lemma objs_upd s f sch : objs (upd s f sch) = alter f s (objs sch).
Proof. by destruct sch. Qed.

Lemma objs_publish b sch : objs (publish b sch) = objs sch.
Proof. by destruct b, sch. Qed.

#[export] Hint Rewrite sent_finish sent_release sent_upd sent_publish objs_finish objs_release
  objs_upd objs_publish dirty_finish dirty_release dirty_upd eligible_release : psy_sched.

(** ** The paging decision *)

Definition effective_contact_on (cfg : SchedConfig) (nd : Node) : string :=
  if bool_decide (contact_on nd = "") then contact_on_default cfg else contact_on nd.

Definition pages_down (cfg : SchedConfig) (nd : Node) : Prop :=
  effective_contact_on cfg nd = "down" ∨ effective_contact_on cfg nd = "both".

Definition pages_up (cfg : SchedConfig) (nd : Node) : Prop :=
  effective_contact_on cfg nd = "up" ∨ effective_contact_on cfg nd = "both".

(** A first page of this outage is due: the failure count reaches the threshold. *)
Definition first_page_due (cfg : SchedConfig) (st : NodeState) (code : Z) (wall : Q) : Prop :=
  hard_failure (page_on_degraded cfg) code = true ∧ contacted st = false ∧
  max_down st <= downct (apply_result st code wall (page_on_degraded cfg)).1.

(** The outage was paged already, is not over, and the re-page interval has passed. *)
Definition repage_due (cfg : SchedConfig) (st : NodeState) (code : Z) (mono : Q) : Prop :=
  contacted st = true ∧ ¬ (code = OK ∧ lastcheck st ≠ OK) ∧
  (0 < pageinterval_s cfg)%Q ∧ (pageinterval_s cfg < mono - lastcontacted st)%Q.

Lemma apply_keeps st code wall pod :
  lastcontacted (apply_result st code wall pod).1 = lastcontacted st ∧
  (acked (apply_result st code wall pod).1 = acked st ∨ (code = OK ∧ lastcheck st ≠ OK)).
Proof.
  result_case pod code.
  - destruct (apply_degraded_soft st wall) as [-> _]. destruct st; simpl; auto.
  - destruct (apply_no_dns st wall pod) as [-> _]. case_match; destruct st; simpl; auto.
  - destruct (decide (lastcheck st = OK)) as [E|E].
    + destruct (apply_still_up st wall pod E) as [-> _]. auto.
    + destruct (apply_up st wall pod) as [-> _]; [unfold is_up; by to_prop|].
      destruct st; simpl; auto.
  - destruct (apply_hard st code wall pod Hhard) as [-> _]. case_match; destruct st; simpl; auto.
Qed.

(** The send awaited by [_handle_paging], for the state [apply_result] left. *)
Definition awaited (cfg : SchedConfig) (nd : Node) (st : NodeState) (code : Z) (wall mono : Q)
    : option send_kind :=
  let '(st1, tr) := apply_result st code wall (page_on_degraded cfg) in
  (_handle_paging cfg nd st1 (intent tr) mono mono).2.

Lemma handle_paging_snd cfg nd st i mono mono1 mono2 :
  (_handle_paging cfg nd st i mono mono1).2 = (_handle_paging cfg nd st i mono mono2).2.
Proof. unfold _handle_paging. by repeat case_match. Qed.

Lemma maybe_repage_spec st mono pi :
  maybe_repage st mono pi = true ↔
  contacted st = true ∧ (0 < pi)%Q ∧ (pi < mono - lastcontacted st)%Q.
Proof.
  unfold maybe_repage. destruct (contacted st); simpl; [|naive_solver].
  destruct (Qle_bool pi 0) eqn:E; to_prop; [split; [done|]; intros; lra|naive_solver].
Qed.

Lemma awaited_down cfg nd st code wall mono :
  (∃ k, awaited cfg nd st code wall mono = Some k ∧ send_intent k = PI_DOWN) ↔
  acked st = false ∧ pages_down cfg nd ∧
  (first_page_due cfg st code wall ∨ repage_due cfg st code mono).
Proof.
  pose proof (apply_contacted st code wall (page_on_degraded cfg)) as [Hrec Hcon].
  pose proof (apply_down_intent st code wall (page_on_degraded cfg)) as Hdown.
  pose proof (apply_keeps st code wall (page_on_degraded cfg)) as [Hlc Hack].
  unfold awaited, first_page_due, repage_due, pages_down, effective_contact_on in *.
  destruct (apply_result st code wall (page_on_degraded cfg)) as [st1 tr]. simpl in *.
  unfold _handle_paging. set (co := if bool_decide _ then _ else _).
  pose proof (maybe_repage_spec st1 mono (pageinterval_s cfg)) as Hrep. rewrite Hlc in Hrep.
  destruct (intent tr) eqn:Ei; simpl in Hcon.
  - assert (contacted st1 = contacted st) as Ec by (rewrite Hcon; by rewrite andb_true_r).
    rewrite Ec in *. destruct (contacted st) eqn:Ecs; simpl.
    + assert (¬ (code = OK ∧ lastcheck st ≠ OK)) as Hno by naive_solver.
      destruct Hack as [->|?]; [|done]. destruct (maybe_repage _ _ _); simpl.
      * destruct (acked st); simpl; [naive_solver|].
        destruct (decide (co = "down")) as [E|E]; [rewrite E; simpl; naive_solver|].
        destruct (decide (co = "both")) as [E'|E']; [rewrite E'; simpl; naive_solver|].
        rewrite !bool_decide_eq_false_2 by done. simpl. naive_solver.
      * naive_solver.
    + naive_solver.
  - destruct (proj1 Hdown eq_refl) as (Hh & Hcf & Hm).
    assert (acked st1 = acked st) as ->.
    { destruct Hack as [?|[-> _]]; [done|]. by rewrite hard_failure_spec in Hh; destruct Hh. }
    destruct (acked st); [naive_solver|].
    destruct (decide (co = "down")) as [E|E]; [rewrite E; simpl; naive_solver|].
    destruct (decide (co = "both")) as [E'|E']; [rewrite E'; simpl; naive_solver|].
    rewrite !(bool_decide_eq_false_2 (co = "down")), !(bool_decide_eq_false_2 (co = "both")) by done.
    simpl. case_bool_decide; naive_solver.
  - destruct (proj1 Hrec eq_refl) as (-> & Hl & Hc).
    split; [|naive_solver]. case_match; naive_solver.
Qed.

Lemma awaited_up cfg nd st code wall mono :
  (∃ k, awaited cfg nd st code wall mono = Some k ∧ send_intent k = PI_RECOVERY) ↔
  code = OK ∧ lastcheck st ≠ OK ∧ contacted st = true ∧ pages_up cfg nd.
Proof.
  pose proof (apply_contacted st code wall (page_on_degraded cfg)) as [Hrec _].
  unfold awaited, pages_up, effective_contact_on in *.
  destruct (apply_result st code wall (page_on_degraded cfg)) as [st1 tr]. simpl in *.
  unfold _handle_paging. set (co := if bool_decide _ then _ else _).
  destruct (intent tr) eqn:Ei.
  - split; [repeat case_match; naive_solver|naive_solver].
  - split; [repeat case_match; naive_solver|naive_solver].
  - destruct (decide (co = "up")) as [E|E]; [rewrite E; simpl; naive_solver|].
    destruct (decide (co = "both")) as [E'|E']; [rewrite E'; simpl; naive_solver|].
    rewrite !bool_decide_eq_false_2 by done. simpl. naive_solver.
Qed.

Lemma check_returned_live cfg s o code wall mono mono' sch :
  tasks sch !! s = Some TRunning → objs sch !! s = Some o → alive o = true → eligible sch s = true →
  ∃ sch', check_returned cfg s code wall mono mono' sch = Some sch' ∧
    sent sch' = match awaited cfg (node o) ((state o) <| suppressed := false |>) code wall mono with
                | Some k => (s, send_intent k) :: sent sch
                | None => sent sch
                end.
Proof.
  intros Ht Ho Ha He. unfold check_returned, awaited. rewrite Ht, Ho, Ha, eligible_release, He. simpl.
  destruct (apply_result _ _ _ _) as [st1 tr].
  rewrite (handle_paging_snd _ _ _ _ _ mono mono').
  destruct (_handle_paging cfg (node o) st1 (intent tr) mono mono') as [st2 [k|]]; simpl;
    (eexists; split; [done|]).
  - unfold release_slot. by destruct (is_ping o), sch.
  - by autorewrite with psy_sched.
Qed.

(** One check of one node as the state sees it: the result is applied, the page decided,
    and the outcome of the send, if there is one, recorded. *)
Record observation : Type := MkObs {
  ob_code : Z; ob_wall : Q; ob_mono : Q; ob_mono' : Q; ob_delivered : bool; ob_sent_at : Q
}.

Definition cycle (cfg : SchedConfig) (nd : Node) (st : NodeState) (ob : observation)
    : NodeState * option send_kind :=
  let '(st1, tr) := apply_result (st <| suppressed := false |>) (ob_code ob) (ob_wall ob)
                      (page_on_degraded cfg) in
  let '(st2, k) := _handle_paging cfg nd st1 (intent tr) (ob_mono ob) (ob_mono' ob) in
  (match k with Some k => after_send k (ob_delivered ob) (ob_sent_at ob) st2 | None => st2 end, k).

Fixpoint cycles (cfg : SchedConfig) (nd : Node) (st : NodeState) (obs : list observation)
    : list (observation * option send_kind) :=
  match obs with
  | [] => []
  | ob :: obs' => let '(st', k) := cycle cfg nd st ob in (ob, k) :: cycles cfg nd st' obs'
  end.

Lemma cycle_contacted cfg nd st ob L :
  contacted st = true → ob_code ob ≠ OK → (L <= lastcontacted st)%Q →
  (L <= ob_mono ob)%Q → (L <= ob_mono' ob)%Q → (L <= ob_sent_at ob)%Q →
  contacted (cycle cfg nd st ob).1 = true ∧ (L <= lastcontacted (cycle cfg nd st ob).1)%Q.
Proof.
  intros Hc Hcode HL H1 H2 H3. unfold cycle.
  pose proof (apply_contacted (st <| suppressed := false |>) (ob_code ob) (ob_wall ob)
    (page_on_degraded cfg)) as [Hrec Hcon].
  pose proof (apply_keeps (st <| suppressed := false |>) (ob_code ob) (ob_wall ob)
    (page_on_degraded cfg)) as [Hlc _].
  destruct (apply_result _ _ _ _) as [st1 tr]. simpl in *.
  assert (intent tr ≠ PI_RECOVERY) as Hi by naive_solver.
  assert (contacted st1 = true) as Hc1.
  { rewrite Hcon, bool_decide_eq_false_2 by done. destruct st; simpl in *. by rewrite Hc. }
  assert (lastcontacted st1 = lastcontacted st) as Hl1 by (rewrite Hlc; by destruct st).
  rewrite <- Hl1 in HL. clear Hlc Hl1 Hcon Hrec.
  unfold _handle_paging. destruct (intent tr); [| |done];
    destruct st1; simpl in *; repeat (case_match; simplify_eq/=); destruct (ob_delivered ob); simpl;
    split; try done; lra.
Qed.

(** The spacing of the pages of an outage that is already paged. *)
Lemma cycles_spaced cfg nd L obs st :
  contacted st = true → (L <= lastcontacted st)%Q →
  Forall (λ ob, ob_code ob ≠ OK ∧ (L <= ob_mono ob)%Q ∧ (L <= ob_mono' ob)%Q ∧
                (L <= ob_sent_at ob)%Q) obs →
  Forall (λ '(ob, k), ∀ k', k = Some k' →
    k' = SK_REPAGE ∧ (pageinterval_s cfg < ob_mono ob - L)%Q) (cycles cfg nd st obs).
Proof.
  revert st. induction obs as [|ob obs IH]; intros st Hc HL Hobs; simpl; [constructor|].
  apply Forall_cons in Hobs as [(Hcode & H1 & H2 & H3) Hobs].
  destruct (cycle_contacted cfg nd st ob L Hc Hcode HL H1 H2 H3) as [Hc' HL'].
  destruct (cycle cfg nd st ob) as [st' k] eqn:E. simpl in *. constructor; [|by apply IH].
  intros k' ->. unfold cycle in E.
  pose proof (apply_contacted (st <| suppressed := false |>) (ob_code ob) (ob_wall ob)
    (page_on_degraded cfg)) as [Hrec _].
  pose proof (apply_down_intent (st <| suppressed := false |>) (ob_code ob) (ob_wall ob)
    (page_on_degraded cfg)) as Hdown.
  pose proof (apply_keeps (st <| suppressed := false |>) (ob_code ob) (ob_wall ob)
    (page_on_degraded cfg)) as [Hlc _].
  destruct (apply_result _ _ _ _) as [st1 tr]. simpl in *.
  assert (lastcontacted st1 = lastcontacted st) as Hl1 by (rewrite Hlc; by destruct st).
  assert (contacted (st <| suppressed := false |>) = true) as Hcs by (destruct st; done).
  unfold _handle_paging in E. simpl in Hcs. destruct (intent tr) eqn:Ei.
  - pose proof (maybe_repage_spec st1 (ob_mono ob) (pageinterval_s cfg)) as Hrep.
    destruct (contacted st1), (maybe_repage _ _ _); simpl in E; simplify_eq.
    destruct (proj1 Hrep eq_refl) as (_ & _ & Hlt). rewrite Hl1 in Hlt.
    destruct (negb (acked st1) && _); simplify_eq/=. split; [done|]. lra.
  - destruct (proj1 Hdown eq_refl) as (_ & ? & _). congruence.
  - naive_solver.
Qed.

(** ** Properties *)

(** C7: a stale result changes nothing but [suppressed].  When a check returns for an
    object that was retired by a reload, or whose parents went down meanwhile, no page is
    sent, the status output is not woken, and every object keeps its counters, its
    last result and [checked]; the gated node itself is marked suppressed. *)
Theorem stale_result_discarded (cfg : SchedConfig) (s : sid) (o : _Scheduled) (code : Z)
    (wall mono mono' : Q) (sch : Scheduler)
    (Ht : tasks sch !! s = Some TRunning) (Ho : objs sch !! s = Some o)
    (Hstale : alive o = false ∨ eligible sch s = false) :
  ∃ sch', check_returned cfg s code wall mono mono' sch = Some sch' ∧
    sent sch' = sent sch ∧ dirty sch' = dirty sch ∧ tasks sch' !! s = None ∧
    (∀ s', s' ≠ s → objs sch' !! s' = objs sch !! s') ∧
    objs sch' !! s = Some (o <| in_flight := false |>
      <| state := if alive o then (state o) <| suppressed := true |> else state o |>).
Proof.
  unfold check_returned. rewrite Ht, Ho, eligible_release.
  assert (∀ c, tasks (finish s c) !! s = None) as Hfin.
  { intros c. rewrite tasks_finish. apply lookup_delete_eq. }
  destruct (alive o) eqn:Ha; simpl.
  - destruct Hstale as [?| ->]; [done|]. simpl. eexists. split; [done|]. unfold upd_state.
    autorewrite with psy_sched. split_and!; [done..|apply Hfin| |].
    + intros s' Hs'. by rewrite !lookup_alter_ne.
    + rewrite !lookup_alter_eq, Ho. by destruct o.
  - eexists. split; [done|]. autorewrite with psy_sched. split_and!; [done..|apply Hfin| |].
    + intros s' Hs'. by rewrite !lookup_alter_ne.
    + rewrite lookup_alter_eq, Ho. by destruct o.
Qed.

(** C6: exactly when a page is sent.  A result that counts sends a DOWN page iff the
    outage is not acknowledged, the contact policy pages on down, and either the first page
    of the outage is due or the re-page interval has passed since the last one; it sends a
    RECOVERY page iff the node comes back up after having been contacted and the policy
    pages on up; and never more than one page. *)
Theorem page_exactly_when (cfg : SchedConfig) (s : sid) (o : _Scheduled) (code : Z)
    (wall mono mono' : Q) (sch : Scheduler)
    (Ht : tasks sch !! s = Some TRunning) (Ho : objs sch !! s = Some o)
    (Ha : alive o = true) (He : eligible sch s = true) :
  ∃ sch', check_returned cfg s code wall mono mono' sch = Some sch' ∧
    (sent sch' = (s, PI_DOWN) :: sent sch ↔
       acked (state o) = false ∧ pages_down cfg (node o) ∧
       (first_page_due cfg (state o) code wall ∨ repage_due cfg (state o) code mono)) ∧
    (sent sch' = (s, PI_RECOVERY) :: sent sch ↔
       code = OK ∧ lastcheck (state o) ≠ OK ∧ contacted (state o) = true ∧
       pages_up cfg (node o)) ∧
    (sent sch' = sent sch ∨ ∃ i, sent sch' = (s, i) :: sent sch).
Proof.
  destruct (check_returned_live cfg s o code wall mono mono' sch Ht Ho Ha He) as (sch' & Hr & Hs).
  exists sch'. split; [done|]. set (st := (state o) <| suppressed := false |>) in *.
  assert (∀ l, (s, PI_DOWN) :: l ≠ l ∧ (s, PI_RECOVERY) :: l ≠ l) as Hne.
  { intros l. split; intros E%(f_equal length); simpl in E; lia. }
  replace (acked (state o)) with (acked st) by (subst st; by destruct (state o)).
  replace (lastcheck (state o)) with (lastcheck st) by (subst st; by destruct (state o)).
  replace (contacted (state o)) with (contacted st) by (subst st; by destruct (state o)).
  assert (first_page_due cfg (state o) code wall ↔ first_page_due cfg st code wall) as ->.
  { unfold first_page_due. subst st. destruct (state o) as [m l d c lc dt lu su a n dp]. simpl.
    unfold apply_result. simpl. repeat case_match; simplify_eq/=; naive_solver. }
  assert (repage_due cfg (state o) code mono ↔ repage_due cfg st code mono) as ->.
  { unfold repage_due. subst st. by destruct (state o). }
  rewrite <- (awaited_down cfg (node o) st code wall mono).
  rewrite <- (awaited_up cfg (node o) st code wall mono). rewrite Hs.
  destruct (awaited _ _ _ _ _ _) as [k|]; [|split_and!; [split; [by intros ?%eq_sym%Hne|naive_solver]..|by left]].
  split_and!; [..|right; eauto]; (split; [intros [= <-]; eauto|]); intros (? & [= <-] & ->); done.
Qed.


(** A web server that failed once already, behind a router, its check in flight. *)
Definition demo_web : _Scheduled :=
  MkScheduled 1 (new_node "web" HTTP) ((new_state 2 0) <| lastcheck := 6 |> <| downct := 1 |>)
    [0%nat] 30 None 30 true true true.

Definition demo_flight (router : Z) : Scheduler :=
  MkScheduler {[0%nat := demo_sched [] router; 1%nat := demo_web]} 2 [0; 1]%nat [] 0
    {[1%nat := TRunning]} 49 false [] (pools_init []).1 (pools_init []).2 demo_os [].

Lemma stale_result_discarded_witness :
  ∃ sch', check_returned demo_cfg 1 6 5 5 5 (demo_flight 4) = Some sch' ∧ sent sch' = [] ∧
    ∃ o, objs sch' !! 1%nat = Some o ∧ downct (state o) = 1 ∧ suppressed (state o) = true.
Proof.
  destruct (stale_result_discarded demo_cfg 1 demo_web 6 5 5 5 (demo_flight 4))
    as (sch' & Hr & Hs & _ & _ & _ & Ho).
  - vm_compute. reflexivity.
  - vm_compute. reflexivity.
  - right. vm_compute. reflexivity.
  - exists sch'. split; [exact Hr|]. split; [exact Hs|]. eexists. split; [exact Ho|].
    vm_compute. split; reflexivity.
Defined.

Lemma page_exactly_when_witness :
  ∃ sch', check_returned demo_cfg 1 6 5 5 5 (demo_flight 0) = Some sch' ∧
    sent sch' = [(1%nat, PI_DOWN)].
Proof.
  destruct (page_exactly_when demo_cfg 1 demo_web 6 5 5 5 (demo_flight 0))
    as (sch' & Hr & Hd & _).
  - vm_compute. reflexivity.
  - vm_compute. reflexivity.
  - vm_compute. reflexivity.
  - vm_compute. reflexivity.
  - exists sch'. split; [exact Hr|]. apply Hd. split; [reflexivity|].
    split; [right; reflexivity|]. left. split; [reflexivity|]. split; [reflexivity|].
    vm_compute. discriminate.
Defined.

Definition demo_obs (t : Q) : observation := MkObs 6 t t t true t.

