(* ===== verification/SchedReload.v ===== *)
(** * Reload and persistence

    A reload installs a new set of objects, carries the live state over by
    (hostname, type, port), and leaves the outgoing objects to the checks in flight; the
    state file carries the same fields over a restart. *)
From S2P Require Import Prelude Status Model StateMachine PingPool Graph Gate Flatten Scheduler Json SchedOps SchedInv SchedRun SchedTick SchedPaging.

(** ** Looking objects up by key *)

Definition unique_keys (sch : Scheduler) : Prop :=
  ∀ s1 s2 o1 o2, s1 ∈ scheduled sch → s2 ∈ scheduled sch →
    objs sch !! s1 = Some o1 → objs sch !! s2 = Some o2 →
    node_key (node o1) = node_key (node o2) → s1 = s2.

Lemma live_objs_spec sch s o :
  (s, o) ∈ live_objs sch ↔ s ∈ scheduled sch ∧ objs sch !! s = Some o.
Proof.
  unfold live_objs. rewrite list_elem_of_omap. split.
  - intros (s' & Hs & (o' & ? & [= <- <-])%fmap_Some). done.
  - intros [Hs Ho]. exists s. by rewrite Ho.
Qed.

Lemma find_last_sound P sch s :
  find_last P sch = Some s → ∃ o, s ∈ scheduled sch ∧ objs sch !! s = Some o ∧ P (node o) = true.
Proof.
  unfold find_last. intros ([s' o] & Hl & ->)%fmap_Some. exists o.
  apply last_Some_elem_of, list_elem_of_filter in Hl as [HP Hin]. by apply live_objs_spec in Hin as [? ?].
Qed.

Lemma find_last_none P sch :
  find_last P sch = None → ∀ s o, s ∈ scheduled sch → objs sch !! s = Some o → P (node o) = false.
Proof.
  unfold find_last. intros Hn%fmap_None%last_None s o Hs Ho. apply not_true_iff_false. intros HP.
  eapply filter_nil_not_elem_of; [done| |by apply live_objs_spec]. done.
Qed.

(** With distinct keys the dict of the scheduled set finds the object of a key. *)
Lemma find_last_key P sch s o :
  unique_keys sch → s ∈ scheduled sch → objs sch !! s = Some o →
  (∀ nd, P nd = true ↔ node_key nd = node_key (node o)) → find_last P sch = Some s.
Proof.
  intros Hu Hs Ho HP. destruct (find_last P sch) as [s'|] eqn:E.
  - apply find_last_sound in E as (o' & Hs' & Ho' & Hk%HP). f_equal. by eapply Hu.
  - pose proof (find_last_none P sch E s o Hs Ho) as Hf.
    rewrite (proj2 (HP (node o)) eq_refl) in Hf. done.
Qed.

Lemma live_objs_upd_state s f sch :
  (λ '(s, o), (s, node o)) <$> live_objs (upd_state s f sch) = (λ '(s, o), (s, node o)) <$> live_objs sch.
Proof.
  unfold live_objs. destruct sch as [ob ns sc]; simpl.
  induction sc as [|x l IH]; simpl; [done|].
  destruct (decide (s = x)) as [->|Hne]; [rewrite lookup_alter_eq|rewrite lookup_alter_ne by done].
  - destruct (ob !! x) as [[]|]; simpl; [f_equal; exact IH|exact IH].
  - destruct (ob !! x) as [o|]; simpl; [f_equal; exact IH|exact IH].
Qed.

Lemma find_last_map (P : Node → bool) (l : list (sid * _Scheduled)) :
  fst <$> last (filter (λ x : sid * _Scheduled, P (node x.2) = true) l) =
  fst <$> last (filter (λ x : sid * Node, P x.2 = true) ((λ '(s, o), (s, node o)) <$> l)).
Proof.
  assert (filter (λ x : sid * Node, P x.2 = true) ((λ '(s, o), (s, node o)) <$> l) =
    (λ '(s, o), (s, node o)) <$> filter (λ x, P (node x.2) = true) l) as ->.
  { induction l as [|[s o] l IH]; [done|]. rewrite fmap_cons, !filter_cons, IH.
    simpl. by destruct (decide (P (node o) = true)). }
  rewrite fmap_last, <- option_fmap_compose. by destruct (last _) as [[]|].
Qed.

Lemma find_last_upd_state P s f sch : find_last P (upd_state s f sch) = find_last P sch.
Proof. unfold find_last. by rewrite !find_last_map, live_objs_upd_state. Qed.

Lemma unique_keys_upd_state s f sch : unique_keys sch → unique_keys (upd_state s f sch).
Proof.
  intros Hu s1 s2 o1 o2 H1 H2 Ho1 Ho2 Hk. unfold upd_state in *. rewrite objs_upd in Ho1, Ho2.
  assert (∀ x o, alter (λ o, o <| state := f (state o) |>) s (objs sch) !! x = Some o →
    ∃ o', objs sch !! x = Some o' ∧ node o' = node o) as Hn.
  { intros x o. destruct (decide (s = x)) as [->|]; [|rewrite lookup_alter_ne by done; eauto].
    rewrite lookup_alter_eq. intros ([] & ? & ->)%fmap_Some. eexists. split; [done|done]. }
  apply Hn in Ho1 as (o1' & ? & E1), Ho2 as (o2' & ? & E2). rewrite <- E1, <- E2 in Hk.
  destruct sch; simpl in *. by eapply Hu.
Qed.

(** ** Reload, pointwise *)

Lemma reload_loop_objs old seen ids sch s :
  NoDup ids →
  objs (reload_loop old seen ids sch) !! s =
  if bool_decide (s ∈ ids) then carry_into old <$> objs sch !! s else objs sch !! s.
Proof.
  revert seen sch. induction ids as [|x ids IH]; intros seen sch Hnd; cbn [reload_loop].
  { done. }
  apply NoDup_cons in Hnd as [Hx Hnd]. destruct (objs sch !! x) as [o|] eqn:Eo; last first.
  { rewrite IH by done. destruct (decide (s = x)) as [->|Hne].
    - rewrite (bool_decide_eq_false_2 (x ∈ ids)) by done. rewrite Eo. by destruct (bool_decide (x ∈ x :: ids)).
    - by rewrite (bool_decide_ext (s ∈ x :: ids) (s ∈ ids)) by set_solver. }
  rewrite IH by done. rewrite objs_upd.
  assert (objs (if bool_decide (node_key (node o) ∈ seen)
    then sch <| warnings := warnings sch ++ [duplicate_warning (node o)] |> else sch) = objs sch) as ->
    by (destruct (bool_decide (node_key (node o) ∈ seen)); by destruct sch).
  destruct (decide (s = x)) as [->|Hne].
  - rewrite (bool_decide_eq_false_2 (x ∈ ids)), bool_decide_eq_true_2 by set_solver.
    by rewrite lookup_alter_eq.
  - by rewrite lookup_alter_ne, (bool_decide_ext (s ∈ x :: ids) (s ∈ ids)) by set_solver.
Qed.

Lemma reload_loop_frame old seen ids sch :
  let sch' := reload_loop old seen ids sch in
  scheduled sch' = scheduled sch ∧ tasks sch' = tasks sch ∧ sent sch' = sent sch.
Proof.
  revert seen sch. induction ids as [|x ids IH]; intros seen sch; simpl; [done|].
  case_match; [|apply IH]. case_bool_decide;
    match goal with |- context [reload_loop _ ?sn _ ?sc] => destruct (IH sn sc) as (-> & -> & ->) end;
    by destruct sch.
Qed.

(** Everything but the due time. *)
Definition undue (o : _Scheduled) : _Scheduled := o <| next_due := 0%Q |>.

Lemma stagger_undue cfg b now sch s :
  undue <$> objs (_stagger_due cfg b now sch) !! s = undue <$> objs sch !! s.
Proof.
  unfold _stagger_due. generalize (imap pair (scheduled sch)). generalize (length (scheduled sch)).
  intros n l. revert sch. induction l as [|[i x] l IH]; intros sch; simpl; [done|].
  rewrite IH, objs_upd. destruct (decide (x = s)) as [->|]; [|by rewrite lookup_alter_ne].
  rewrite lookup_alter_eq. by destruct (objs sch !! s) as [[]|].
Qed.

Lemma stagger_other cfg b now sch s :
  s ∉ scheduled sch → objs (_stagger_due cfg b now sch) !! s = objs sch !! s.
Proof.
  unfold _stagger_due. generalize (length (scheduled sch)). intros n Hs.
  assert (∀ i x, (i, x) ∈ imap pair (scheduled sch) → x ≠ s) as Hl.
  { intros i x (? & ? & [= -> ->] & Hx)%elem_of_lookup_imap ->. destruct Hs.
    by eapply list_elem_of_lookup_2. }
  revert Hl. generalize (imap pair (scheduled sch)). clear Hs. intros l. revert sch.
  induction l as [|[i x] l IH]; intros sch Hl; simpl; [done|].
  rewrite IH by set_solver. rewrite objs_upd, lookup_alter_ne; [done|].
  apply (Hl i), list_elem_of_here.
Qed.

Lemma stagger_frame cfg b now sch :
  let sch' := _stagger_due cfg b now sch in
  scheduled sch' = scheduled sch ∧ tasks sch' = tasks sch ∧ sent sch' = sent sch.
Proof.
  unfold _stagger_due. simpl. generalize (length (scheduled sch)), (imap pair (scheduled sch)).
  intros n l. revert sch. induction l as [|[i x] l IH]; intros sch; simpl; [done|].
  match goal with |- context [foldl _ ?sc l] => destruct (IH sc) as (-> & -> & ->) end.
  by destruct sch.
Qed.

Lemma build_heap_frame sch :
  let sch' := _build_heap sch in
  objs sch' = objs sch ∧ scheduled sch' = scheduled sch ∧ tasks sch' = tasks sch ∧
  sent sch' = sent sch.
Proof.
  assert (∀ l c, let c' := foldl (λ c s, _push s c) c l in
    objs c' = objs c ∧ scheduled c' = scheduled c ∧ tasks c' = tasks c ∧ sent c' = sent c) as H.
  { intros l. induction l as [|x l IH]; intros c; simpl; [done|].
    destruct (IH (_push x c)) as (-> & -> & -> & ->). unfold _push. case_match; [by destruct c|done]. }
  unfold _build_heap. cbn zeta.
  match goal with |- context [foldl _ ?c ?l] => destruct (H l c) as (-> & -> & -> & ->) end.
  by destruct sch.
Qed.

Section reload.
Context (cfg : SchedConfig) (store : gmap nid Node) (roots : list nid) (wall now : Q).
Context (sch : Scheduler) (Hwf : WF sch).
Abbreviation base := (next_sid sch).
Abbreviation new := (_flatten store cfg wall base roots).1.
Abbreviation sch' := (reload cfg store roots wall now sch).

Lemma reload_frame :
  scheduled sch' = fresh_ids base new ∧ tasks sch' = tasks sch ∧ sent sch' = sent sch.
Proof.
  unfold reload. destruct (_flatten store cfg wall base roots) as [os_ ws].
  destruct (_prune _ _ _) as [p4 os1]. destruct (_prune _ _ os1) as [p6 os2].
  match goal with |- context [_build_heap ?c] => destruct (build_heap_frame c) as (_ & -> & -> & ->) end.
  match goal with |- context [_stagger_due _ _ _ ?c] =>
    destruct (stagger_frame cfg true now c) as (-> & -> & ->) end.
  match goal with |- context [reload_loop _ _ ?i ?c] =>
    destruct (reload_loop_frame sch [] i c) as (-> & -> & ->) end.
  done.
Qed.

Lemma reload_new i o :
  new !! i = Some o →
  ∃ o', objs sch' !! (base + i)%nat = Some o' ∧ undue o' = undue (carry_into sch o).
Proof.
  intros Hi.
  unfold reload. destruct (_flatten store cfg wall base roots) as [os_ ws]. simpl in Hi.
  destruct (_prune _ _ _) as [p4 os1]. destruct (_prune _ _ os1) as [p6 os2].
  match goal with |- context [_build_heap ?c] => destruct (build_heap_frame c) as (-> & _) end.
  match goal with |- context [_stagger_due _ _ _ ?c] =>
    pose proof (stagger_undue cfg true now c (base + i)) as Hs end.
  rewrite reload_loop_objs in Hs by apply NoDup_ListNoDup, seq_NoDup. simpl in Hs.
  rewrite install_lookup, (proj2 (Nat.leb_le _ _)) in Hs by lia.
  replace (base + i - base)%nat with i in Hs by lia. rewrite Hi in Hs. simpl in Hs.
  rewrite bool_decide_eq_true_2 in Hs.
  - apply fmap_Some in Hs as (o' & Ho' & E). eauto.
  - apply lookup_lt_Some in Hi. unfold fresh_ids. rewrite list_elem_of_In, in_seq. lia.
Qed.

Lemma reload_old s o :
  objs sch !! s = Some o → objs sch' !! s = Some (o <| alive := false |>).
Proof.
  intros Ho. pose proof (wf_fresh _ _ Hwf s o Ho) as Hlt.
  unfold reload. destruct (_flatten store cfg wall base roots) as [os_ ws].
  destruct (_prune _ _ _) as [p4 os1]. destruct (_prune _ _ os1) as [p6 os2].
  match goal with |- context [_build_heap ?c] => destruct (build_heap_frame c) as (-> & _) end.
  assert (s ∉ fresh_ids base os_) as Hn.
  { unfold fresh_ids. rewrite list_elem_of_In, in_seq. lia. }
  rewrite stagger_other, reload_loop_objs; [|apply NoDup_ListNoDup, seq_NoDup|]; last first.
  { match goal with |- context [reload_loop _ _ ?i ?c] =>
      destruct (reload_loop_frame sch [] i c) as (-> & _ & _) end. done. }
  rewrite bool_decide_eq_false_2 by done. simpl.
  rewrite install_lookup, (proj2 (Nat.leb_gt _ _)) by lia.
  apply retire_lookup; [apply Hwf|]. exists o. split; [done|]. case_bool_decide as Hs; [done|].
  destruct o as [? ? ? ? ? ? ? ? ? al] eqn:E. simpl. f_equal. symmetry. apply not_true_iff_false.
  intros ->. destruct Hs. apply (wf_alive _ _ Hwf). eauto.
Qed.
End reload.

(** The carried fields agree. *)
Definition same_outage (st st' : NodeState) : Prop :=
  lastcheck st' = lastcheck st ∧ downct st' = downct st ∧ contacted st' = contacted st ∧
  lastcontacted st' = lastcontacted st ∧ deathtime st' = deathtime st ∧
  last_up st' = last_up st ∧ acked st' = acked st ∧ note st' = note st.

(** ** The persisted records *)

Definition carried_of (st : NodeState) : carried :=
  MkCarried (lastcheck st) (downct st) (contacted st) (deathtime st) (last_up st) (acked st)
    (truncate_note <$> note st).

Lemma validated_export nd st :
  _validated_carry (export_record nd st) = Ok (Some (carried_of st)).
Proof. unfold carried_of, export_record. by destruct (note st). Qed.

Lemma export_hashable nd st : record_hashable (export_record nd st) = true.
Proof. done. Qed.

Lemma export_matches nd st nd' :
  record_matches (export_record nd st) nd' = true ↔ node_key nd' = node_key nd.
Proof.
  unfold record_matches, node_key. simpl. to_prop. split.
  - intros [[-> Hc%(inj ct_value)] ->]. by rewrite Hc.
  - intros [= -> -> ->]. done.
Qed.

(** What the records of [l] do to the object [o2] of [sch]. *)
Definition restored (l : list (sid * _Scheduled)) (now_mono : Q) (sch : Scheduler) (s2 : sid)
    (o2 : _Scheduled) : _Scheduled :=
  if bool_decide (s2 ∈ scheduled sch) then
    match filter (λ x, node_key (node x.2) = node_key (node o2)) l with
    | x :: _ => o2 <| state := restore (carried_of (state x.2)) now_mono (state o2) |>
    | [] => o2
    end
  else o2.

Lemma import_export_loop l now_mono k sch :
  NoDup ((λ x, node_key (node x.2)) <$> l) → unique_keys sch →
  ∃ n sch', import_loop ((λ '(_, o), export_record (node o) (state o)) <$> l) now_mono k sch
              = (sch', Ok (k + n)%nat) ∧
    scheduled sch' = scheduled sch ∧
    ∀ s2, objs sch' !! s2 = restored l now_mono sch s2 <$> objs sch !! s2.
Proof.
  revert k sch. induction l as [|[s o] l IH]; intros k sch Hnd Hu.
  { exists 0%nat, sch. simpl. rewrite Nat.add_0_r. split_and!; [done..|]. intros s2.
    destruct (objs sch !! s2) as [o2|]; simpl; [|done]. unfold restored. by case_bool_decide. }
  rewrite fmap_cons in Hnd. apply NoDup_cons in Hnd as [Hfresh Hnd].
  rewrite fmap_cons. cbn [import_loop]. rewrite export_hashable. cbn [negb].
  assert (∀ nd, node_key nd = node_key (node o) →
    filter (λ x : sid * _Scheduled, node_key (node x.2) = node_key nd) l = []) as Hlast.
  { intros nd Hk. apply filter_none. intros x Hx E. destruct Hfresh.
    apply list_elem_of_fmap. exists x. split; [|done]. simpl. congruence. }
  destruct (find_last _ sch) as [s1|] eqn:Ef.
  - rewrite validated_export. pose proof Ef as (o1 & Hs1 & Ho1 & Hk1)%find_last_sound.
    apply export_matches in Hk1.
    set (f := restore (carried_of (state o)) now_mono).
    destruct (IH (S k) (upd_state s1 f sch) Hnd) as (n & sch' & Hl & Hsc & Hob);
      [by apply unique_keys_upd_state|].
    exists (S n), sch'. rewrite Hl. split_and!; [do 2 f_equal; lia|rewrite Hsc; by destruct sch|].
    intros s2. rewrite Hob. unfold upd_state, restored. rewrite objs_upd.
    replace (scheduled (upd s1 (λ o, o <| state := f (state o) |>) sch)) with (scheduled sch)
      by by destruct sch.
    destruct (decide (s1 = s2)) as [<-|Hne].
    + rewrite lookup_alter_eq, Ho1. cbn [fmap option_fmap option_map].
      rewrite bool_decide_eq_true_2 by done.
      replace (node (o1 <| state := f (state o1) |>)) with (node o1) by by destruct o1.
      rewrite Hlast by done. rewrite filter_cons_True by (simpl; congruence). done.
    + rewrite lookup_alter_ne by done. destruct (objs sch !! s2) as [o2|] eqn:Ho2; [|done].
      cbn [fmap option_fmap option_map]. case_bool_decide as Hs2; [|done].
      rewrite filter_cons_False; [done|]. simpl. intros Hk. destruct Hne.
      eapply Hu; [done..|]. congruence.
  - destruct (IH k sch Hnd Hu) as (n & sch' & Hl & Hsc & Hob). exists n, sch'. rewrite Hl.
    split_and!; [done..|]. intros s2. rewrite Hob. destruct (objs sch !! s2) as [o2|] eqn:Ho2; [|done].
    cbn [fmap option_fmap option_map]. unfold restored. case_bool_decide as Hs2; [|done].
    rewrite filter_cons_False; [done|]. simpl. intros Hk.
    pose proof (find_last_none _ _ Ef s2 o2 Hs2 Ho2) as Hm. rewrite <- not_true_iff_false in Hm.
    destruct Hm. by apply export_matches.
Qed.

Lemma live_keys_nodup sch :
  NoDup (scheduled sch) → unique_keys sch → NoDup ((λ x, node_key (node x.2)) <$> live_objs sch).
Proof.
  intros Hnd Hu. unfold unique_keys in Hu. unfold live_objs.
  induction (scheduled sch) as [|s l IH]; simpl; [constructor|].
  apply NoDup_cons in Hnd as [Hs Hnd].
  assert (NoDup ((λ x : sid * _Scheduled, node_key (node x.2)) <$>
    omap (λ s, pair s <$> objs sch !! s) l)) as Hl by (apply IH; [done|]; intros s1 s2 o1 o2 ??; apply Hu; by apply list_elem_of_further).
  destruct (objs sch !! s) as [o|] eqn:Ho; simpl; [|exact Hl]. apply NoDup_cons. split; [|exact Hl].
  intros ([s' o'] & Hk & (x & Hx & (o'' & Ho'' & [= -> ->])%fmap_Some)%list_elem_of_omap)%list_elem_of_fmap.
  simpl in Hk. destruct Hs.
  rewrite (Hu s x o o''); [done|apply list_elem_of_here|by apply list_elem_of_further|done..].
Qed.

(** ** Properties *)

(** C8: what a reload carries over.  With distinct (hostname, type, port) keys in the
    running configuration, every node of the new configuration that was scheduled before
    keeps its last result, failure count, contact and outage times, acknowledgement, note
    and [checked]; its threshold comes from the new configuration; a node with a new key
    starts fresh; and every outgoing object is only marked dead. *)
Theorem reload_carries_state (cfg : SchedConfig) (store : gmap nid Node) (roots : list nid)
    (wall now : Q) (sch : Scheduler) (i : nat) (o : _Scheduled)
    (Hr : reached cfg sch) (Hclosed : closed_graph store roots) (Hu : unique_keys sch)
    (Hi : (_flatten store cfg wall (next_sid sch) roots).1 !! i = Some o) :
  let sch' := reload cfg store roots wall now sch in
  ∃ o', objs sch' !! (next_sid sch + i)%nat = Some o' ∧ (next_sid sch + i)%nat ∈ scheduled sch' ∧
    node o' = node o ∧ gate o' = gate o ∧ max_down (state o') = node_max_down (node o) ∧
    suppressed (state o') = false ∧
    (∀ s po, s ∈ scheduled sch → objs sch !! s = Some po →
       node_key (node po) = node_key (node o) →
       same_outage (state po) (state o') ∧ checked o' = checked po) ∧
    ((∀ s po, s ∈ scheduled sch → objs sch !! s = Some po →
       node_key (node po) ≠ node_key (node o)) →
       state o' = new_state (node_max_down (node o)) wall ∧ checked o' = false) ∧
    (∀ s po, objs sch !! s = Some po → objs sch' !! s = Some (po <| alive := false |>)).
Proof.
  intros sch'. pose proof (reached_WF cfg sch Hr) as Hwf.
  destruct (reload_new cfg store roots wall now sch i o Hi) as (o' & Ho' & Eu).
  destruct (flatten_made _ _ _ _ _ Hclosed i o Hi) as [[_ Emade] _].
  assert (state o = new_state (node_max_down (node o)) wall ∧ checked o = false) as [Est Ech].
  { split; [apply (f_equal state) in Emade|apply (f_equal checked) in Emade]; by destruct o. }
  assert (node o' = node (carry_into sch o) ∧ gate o' = gate (carry_into sch o) ∧
    state o' = state (carry_into sch o) ∧ checked o' = checked (carry_into sch o)) as (E1 & E2 & E3 & E4).
  { revert Eu. generalize (carry_into sch o). clear. intros c E.
    pose proof (f_equal node E). pose proof (f_equal gate E). pose proof (f_equal state E).
    pose proof (f_equal checked E). destruct c, o'. done. }
  exists o'. split; [exact Ho'|]. split.
  { unfold sch'. destruct (reload_frame cfg store roots wall now sch) as [-> _]. apply lookup_lt_Some in Hi.
    unfold fresh_ids. rewrite list_elem_of_In, in_seq. lia. }
  rewrite E1, E2, E3, E4. unfold carry_into, previous_get.
  assert (∀ nd, bool_decide (node_key nd = node_key (node o)) = true ↔ node_key nd = node_key (node o))
    as HP by (intros; apply bool_decide_eq_true).
  split_and!; [| | | | | |apply (reload_old cfg store roots wall now sch Hwf)].
  - case_match; by destruct o.
  - case_match; by destruct o.
  - case_match; [|by rewrite Est]. destruct o; simpl in *. by rewrite Est.
  - case_match; [|by rewrite Est]. destruct o; simpl in *. by rewrite Est.
  - intros s po Hs Hpo Hk. rewrite (find_last_key _ sch s po Hu Hs Hpo); [|by rewrite Hk].
    simpl. rewrite Hpo. destruct o as [? ? [] ? ? ? ? ? ? ?]. by destruct po as [? ? [] ? ? ? ? ? ? ?].
  - intros Hnew. destruct (find_last _ sch) as [s|] eqn:Ef; [|done].
    apply find_last_sound in Ef as (po & Hs & Hpo & Hk%HP). by destruct (Hnew s po).
Qed.

(** The state file round trip.  Exporting the state of one scheduler and importing the
    records into another (a restart with the same or an edited configuration) restores
    every node whose key both have: last result, failure count, contact flag, outage times,
    acknowledgement and note (cut to its maximal length), with the re-page timer rebased
    to the new clock; every other object, and [checked], is untouched, and the import never
    fails. *)
Theorem import_export_roundtrip (cfg : SchedConfig) (sch sch2 : Scheduler) (now_mono : Q)
    (s s2 : sid) (o o2 : _Scheduled)
    (Hr : reached cfg sch) (Hu : unique_keys sch) (Hu2 : unique_keys sch2)
    (Hs : s ∈ scheduled sch) (Ho : objs sch !! s = Some o)
    (Hs2 : s2 ∈ scheduled sch2) (Ho2 : objs sch2 !! s2 = Some o2)
    (Hk : node_key (node o2) = node_key (node o)) :
  ∃ n sch', import_state (export_state sch) now_mono sch2 = (sch', Ok n) ∧
    objs sch' !! s2 = Some (o2 <| state := (state o2) <| lastcheck := lastcheck (state o) |>
      <| downct := downct (state o) |> <| contacted := contacted (state o) |>
      <| deathtime := deathtime (state o) |> <| last_up := last_up (state o) |>
      <| acked := acked (state o) |> <| note := truncate_note <$> note (state o) |>
      <| lastcontacted := now_mono |> |>) ∧
    ∀ s3 o3, objs sch2 !! s3 = Some o3 →
      (∀ s' o', s' ∈ scheduled sch → objs sch !! s' = Some o' →
         node_key (node o') ≠ node_key (node o3)) → objs sch' !! s3 = Some o3.
Proof.
  pose proof (wf_nodup _ _ (reached_WF cfg sch Hr)) as Hnd.
  destruct (import_export_loop (live_objs sch) now_mono 0 sch2 (live_keys_nodup sch Hnd Hu) Hu2)
    as (n & sch' & Hl & _ & Hob).
  exists n, sch'. split; [exact Hl|]. split.
  - rewrite Hob, Ho2. cbn [fmap option_fmap option_map]. unfold restored.
    rewrite bool_decide_eq_true_2 by done. f_equal.
    destruct (filter _ (live_objs sch)) as [|[s1 o1] l] eqn:El.
    + exfalso. eapply filter_nil_not_elem_of; [exact El| |by apply live_objs_spec]. simpl. by symmetry.
    + assert ((s1, o1) ∈ filter (λ x, node_key (node x.2) = node_key (node o2)) (live_objs sch)) as Hin
        by (rewrite El; apply list_elem_of_here).
      apply list_elem_of_filter in Hin as [Hk1 [Hs1 Ho1]%live_objs_spec]. simpl in Hk1.
      assert (s1 = s) as -> by (eapply Hu; [done..|congruence]). simplify_eq. done.
  - intros s3 o3 Ho3 Hno. rewrite Hob, Ho3. cbn [fmap option_fmap option_map]. unfold restored.
    case_bool_decide; [|done]. rewrite filter_none; [done|]. intros [s' o'] [? ?]%live_objs_spec. eauto.
Qed.

Lemma unique_keys_nodup sch :
  NoDup ((λ x, node_key (node x.2)) <$> live_objs sch) → unique_keys sch.
Proof.
  intros Hnd s1 s2 o1 o2 H1 H2 Ho1 Ho2 Hk.
  assert ((s1, o1) ∈ live_objs sch) as [i Hi]%list_elem_of_lookup by by apply live_objs_spec.
  assert ((s2, o2) ∈ live_objs sch) as [j Hj]%list_elem_of_lookup by by apply live_objs_spec.
  assert (i = j) as ->; [|congruence].
  eapply (NoDup_lookup _ i j _ Hnd); rewrite list_lookup_fmap; [by rewrite Hi|rewrite Hj].
  simpl. congruence.
Qed.

Definition demo_acked : Scheduler := (ack "r1" "ping" 0 demo_sch).1.

Lemma demo_acked_reached : reached demo_cfg demo_acked.
Proof. eapply reached_step; [apply demo_reached|constructor]. Qed.

Lemma demo_acked_unique : unique_keys demo_acked.
Proof.
  apply unique_keys_nodup. apply (bool_decide_eq_true_1 _). vm_compute. reflexivity.
Qed.

Lemma reload_carries_state_witness :
  ∃ o', objs (reload demo_cfg demo_store [0%nat; 1%nat] 9 9 demo_acked) !! 4%nat = Some o' ∧
    acked (state o') = true ∧ alive o' = true.
Proof.
  edestruct (reload_carries_state demo_cfg demo_store [0%nat; 1%nat] 9 9 demo_acked 0)
    as (o' & Ho' & _ & _ & _ & _ & _ & Hc & _).
  - apply demo_acked_reached.
  - apply closed_graphb_spec. vm_compute. reflexivity.
  - apply demo_acked_unique.
  - vm_compute. reflexivity.
  - exists o'. split; [exact Ho'|]. edestruct (Hc 0%nat) as [(_ & _ & _ & _ & _ & _ & Ha & _) _].
    + vm_compute. apply list_elem_of_here.
    + vm_compute. reflexivity.
    + vm_compute. reflexivity.
    + split; [rewrite Ha; vm_compute; reflexivity|].
      vm_compute in Ho'. injection Ho' as <-. reflexivity.
Defined.

Lemma import_export_roundtrip_witness :
  ∃ n sch' o', import_state (export_state demo_acked) 3 demo_sch = (sch', Ok n) ∧
    objs sch' !! 0%nat = Some o' ∧ acked (state o') = true ∧ n = 4%nat.
Proof.
  edestruct (import_export_roundtrip demo_cfg demo_acked demo_sch 3 0 0) as (n & sch' & Hi & Ho & _).
  - apply demo_acked_reached.
  - apply demo_acked_unique.
  - apply unique_keys_nodup. apply (bool_decide_eq_true_1 _). vm_compute. reflexivity.
  - vm_compute. apply list_elem_of_here.
  - vm_compute. reflexivity.
  - vm_compute. apply list_elem_of_here.
  - vm_compute. reflexivity.
  - vm_compute. reflexivity.
  - exists n, sch'. eexists. split; [exact Hi|]. split; [exact Ho|]. split; [vm_compute; reflexivity|].
    pose proof (f_equal snd Hi) as Hn. vm_compute in Hn. by injection Hn as <-.
Defined.

(** ** A reload while a page is being sent *)

Definition race_store : gmap nid Node :=
  {[0%nat := (new_node "web" HTTP) <| node_max_down := 1 |>]}.

(** The first check fails and pages; the configuration is reloaded, unchanged, while the
    send is awaited; the send succeeds; the next check fails again. *)
Definition race (sch : Scheduler) : option Scheduler :=
  sch ← check_start 0 (tick 0 sch);
  sch ← check_returned demo_cfg 0 6 0 0 0 sch;
  sch ← send_returned 0 true 2 (reload demo_cfg race_store [0%nat] 1 1 sch);
  sch ← check_start 1 (tick 30 sch);
  check_returned demo_cfg 1 6 30 30 30 sch.

Lemma reached_race sch sch' : reached demo_cfg sch → race sch = Some sch' → reached demo_cfg sch'.
Proof.
  unfold race. intros Hr H. do 4 (apply bind_Some in H as (? & ? & H)).
  assert (closed_graph race_store [0%nat]) by (apply closed_graphb_spec; vm_compute; reflexivity).
  eapply reached_step; [|by eapply step_returned]. eapply reached_step; [|by eapply step_start].
  eapply reached_step; [|by eapply step_tick]. eapply reached_step; [|by eapply step_sent].
  eapply reached_step; [|by eapply step_reload]. eapply reached_step; [|by eapply step_returned].
  eapply reached_step; [|by eapply step_start]. by eapply reached_step, step_tick.
Qed.

(** a reload during a send repeats the page.  The delivery is recorded on the outgoing
    object only, so the object that replaced it pages the same outage again at its next
    failed check, here 28 seconds after the first page with a re-page interval of 600. *)
Theorem reload_mid_send_repeats_page :
  ∃ sch, reached demo_cfg sch ∧ sent sch = [(1%nat, PI_DOWN); (0%nat, PI_DOWN)] ∧
    (node <$> objs sch !! 0%nat) = (node <$> objs sch !! 1%nat) ∧
    (∃ o, objs sch !! 0%nat = Some o ∧ contacted (state o) = true ∧ alive o = false).
Proof.
  destruct (Scheduler_init demo_cfg race_store [0%nat] (pools_init []).1 (pools_init []).2 demo_os 0 0 true)
    as [sch0|] eqn:E0; [|vm_compute in E0; discriminate].
  destruct (race sch0) as [sch|] eqn:E.
  - exists sch. split.
    + eapply reached_race; [|exact E]. eapply reached_init; [|exact E0].
      apply closed_graphb_spec. vm_compute. reflexivity.
    + vm_compute in E0. injection E0 as <-. vm_compute in E. injection E as <-.
      split; [vm_compute; reflexivity|]. split; [vm_compute; reflexivity|].
      eexists. split; [vm_compute; reflexivity|]. split; vm_compute; reflexivity.
  - vm_compute in E0. injection E0 as <-. vm_compute in E. discriminate.
Qed.

(** a hand-edited number can abort the restore.  A record whose [deathtime] is an
    integer too large for a float makes [import_state] raise, although a bad record is meant
    to be skipped; the records before it stay restored, the ones after it are lost. *)
Theorem import_overflow_escapes (pre post : list dict) (record : dict) (z : Z) (now_mono : Q)
    (sch sch1 : Scheduler) (n : nat) (s : sid)
    (Hpre : import_state pre now_mono sch = (sch1, Ok n))
    (Hhash : record_hashable record = true) (Hm : find_last (record_matches record) sch1 = Some s)
    (Hz : dict_get record "deathtime" = Some (JInt z)) (Hbig : float_of_int z = Raise OverflowError)
    (Hlc : is_ok (field _as_int record "lastcheck") = true)
    (Hdc : is_ok (field _as_int record "downct") = true)
    (Hco : is_ok (field _as_bool record "contacted") = true) :
  import_state (pre ++ record :: post) now_mono sch = (sch1, Raise OverflowError).
Proof.
  unfold import_state in *. revert Hpre. generalize 0%nat. revert sch.
  induction pre as [|r pre IH]; intros sch k Hpre; simpl in Hpre |- *.
  - simplify_eq. rewrite Hhash, Hm. simpl. unfold _validated_carry.
    destruct (field _as_int record "lastcheck"); [|done]. destruct (field _as_int record "downct"); [|done].
    destruct (field _as_bool record "contacted"); [|done]. simpl.
    assert (field _as_float record "deathtime" = Raise OverflowError) as ->; [|done].
    unfold field, dict_item. rewrite Hz. exact Hbig.
  - repeat case_match; simplify_eq; eauto.
Qed.

Lemma import_overflow_escapes_witness :
  (import_state (export_state demo_sch ++
     [[("hostname", JStr "r1"); ("type", JStr "ping"); ("port", JInt 0); ("lastcheck", JInt 0);
       ("downct", JInt 0); ("contacted", JBool false); ("deathtime", JInt (10 ^ 400))]]) 0 demo_sch).2
  = Raise OverflowError.
Proof.
  erewrite (import_overflow_escapes (export_state demo_sch) [] _ (10 ^ 400) 0 demo_sch).
  - reflexivity.
  - vm_compute. reflexivity.
  - vm_compute. reflexivity.
  - vm_compute. reflexivity.
  - vm_compute. reflexivity.
  - vm_compute. reflexivity.
  - vm_compute. reflexivity.
  - vm_compute. reflexivity.
  - vm_compute. reflexivity.
Defined.
