(* ===== verification/SchedStates.v ===== *)
(** * Invariants of a node's state

    [StateInv] collects what every piece of code that writes a [NodeState] must preserve; an
    instance then holds of every object in every state of every run.  The instance here:
    a note is never longer than the limit, so that persisting it loses nothing. *)
From S2P Require Import Prelude Status Model StateMachine PingPool Graph Gate Flatten Scheduler Json SchedOps SchedInv SchedRun SchedTick SchedPaging SchedReload.

Class StateInv (P : NodeState → Prop) : Prop := {
  si_new md wall : P (new_state md wall);
  si_suppressed b st : P st → P (st <| suppressed := b |>);
  si_result st code wall pod : P st → P (apply_result st code wall pod).1;
  si_paging cfg nd st i mono mono' : P st → P (_handle_paging cfg nd st i mono mono').1;
  si_sent k ok mono st : P st → P (after_send k ok mono st);
  si_acked st : P st → P (st <| acked := true |>);
  si_note text st : P st → P (st <| note := clean_note text |>);
  si_parents l st : P st → P (st <| down_parents := l |>);
  si_restore record c now st : _validated_carry record = Ok (Some c) → P st → P (restore c now st);
  si_carry old new : P old → P new → P (carry old new)
}.

Definition all_states (P : NodeState → Prop) (m : gmap sid _Scheduled) : Prop :=
  map_Forall (λ _ o, P (state o)) m.

Section state_inv.
Context (P : NodeState → Prop) `{!StateInv P}.
Abbreviation all sch := (all_states P (objs sch)).

Lemma all_alter f s m : (∀ o, P (state o) → P (state (f o))) → all_states P m → all_states P (alter f s m).
Proof.
  intros Hf Hm k o. rewrite lookup_alter. case_decide; [|by apply Hm].
  intros (o' & Ho' & ->)%fmap_Some. by eapply Hf, Hm.
Qed.

Lemma all_upd s f sch : (∀ o, P (state o) → P (state (f o))) → all sch → all (upd s f sch).
Proof. intros. rewrite objs_upd. by apply all_alter. Qed.

Lemma all_upd_state s f sch : (∀ st, P st → P (f st)) → all sch → all (upd_state s f sch).
Proof. intros Hf. apply all_upd. intros [] ?. by apply Hf. Qed.

Lemma all_foldl {A} (f : Scheduler → A → Scheduler) l sch :
  (∀ sch a, all sch → all (f sch a)) → all sch → all (foldl f sch l).
Proof. intros Hf. revert sch. induction l; intros sch Hs; simpl; eauto. Qed.

Lemma all_push s sch : all sch → all (_push s sch).
Proof. unfold _push. case_match; by destruct sch. Qed.

Lemma all_tick now sch : all sch → all (tick now sch).
Proof.
  intros H. unfold tick. destruct (tick_loop _ now sch) as [sch'|] eqn:E; [|done]. simpl. revert H E.
  generalize (length (heap sch)). intros fuel. revert sch. induction fuel as [|fuel IH]; intros sch H E; simpl in E;
    destruct (heap sch) as [|en h]; simplify_eq/=; try done; destruct (Qle_bool _ _); simplify_eq/=; try done.
  eapply IH; [|exact E]. unfold tick_one. cbn zeta.
  assert (all (upd (who en) (λ o, o <| next_due := (now + sched_interval o)%Q |>) (sch <| heap := h |>))) as H1
    by (apply all_upd; [by intros []|by destruct sch]).
  case_match.
  - assert (∀ c t, all c → all (c <| tasks := t |>)) as Ht by (by intros []). apply Ht, all_upd; [by intros []|done].
  - apply all_push, all_upd_state; [|done]. intros. by apply si_suppressed.
Qed.

Lemma all_finish s sch : all sch → all (finish s sch).
Proof. intros. rewrite objs_finish. apply all_alter; [by intros []|done]. Qed.

Lemma all_returned cfg s code wall mono mono' sch sch' :
  check_returned cfg s code wall mono mono' sch = Some sch' → all sch → all sch'.
Proof.
  unfold check_returned. intros H Ha. destruct (tasks sch !! s) as [[]|]; try done. destruct (objs sch !! s) as [o|] eqn:Ho; [|done].
  assert (all (release_slot o sch)) as Hr by by rewrite objs_release.
  destruct (negb (alive o)); [simplify_eq; by apply all_finish|].
  destruct (negb (eligible _ _)); [simplify_eq; apply all_finish, all_upd_state; [intros; by apply si_suppressed|done]|].
  pose proof (si_result _ code wall (page_on_degraded cfg) (si_suppressed false _ (Ha s o Ho))) as H1.
  destruct (apply_result _ _ _ _) as [st1 tr]. pose proof (si_paging cfg (node o) st1 (intent tr) mono mono' H1) as H2.
  destruct (_handle_paging _ _ _ _ _ _) as [st2 aw]. simpl in H2.
  assert (all (upd s (λ o, o <| state := st2 |> <| checked := true |>) (release_slot o sch))) as H3
    by (apply all_upd; [by intros []|done]).
  destruct aw as [k|]; simplify_eq.
  - revert H3. generalize (upd s (λ o, o <| state := st2 |> <| checked := true |>) (release_slot o sch)). by intros [].
  - apply all_finish. by rewrite objs_publish.
Qed.

Lemma all_build cfg b now sch : all sch → all (_build_heap (_stagger_due cfg b now sch)).
Proof.
  intros H. destruct (build_heap_frame (_stagger_due cfg b now sch)) as (-> & _). unfold _stagger_due.
  apply all_foldl; [|done]. intros c [i x] Hc. apply all_upd; [by intros []|done].
Qed.

Lemma all_install store cfg wall base roots m :
  closed_graph store roots → all_states P m → all_states P (install base (_flatten store cfg wall base roots).1 m).
Proof.
  intros Hc Hm s o. rewrite install_lookup. case_match eqn:E; [|by apply Hm]. intros [= <-].
  case_match; [|done]. apply flatten_made in E as [[_ E%(f_equal state)] _]; [|done].
  match goal with |- P (state ?x) => assert (state x = new_state (node_max_down (node x)) wall) as -> by by destruct x end. apply si_new.
Qed.

Lemma all_retire sch : all sch → all_states P (retire sch).
Proof.
  unfold retire. generalize (objs sch). generalize (scheduled sch). intros l. induction l as [|x l IH]; intros m Hm; simpl; [done|].
  apply IH, all_alter; [by intros []|done].
Qed.

Lemma all_carry old o : all old → P (state o) → P (state (carry_into old o)).
Proof.
  intros Hold Ho. unfold carry_into, previous_get. destruct (find_last _ old) as [k|]; simpl; [|done].
  destruct (objs old !! k) as [po|] eqn:Hp; [|done]. destruct o. simpl in *. apply si_carry; [by eapply Hold|done].
Qed.

Lemma all_reload cfg store roots wall now sch :
  closed_graph store roots → all sch → all (reload cfg store roots wall now sch).
Proof.
  intros Hc Ha. unfold reload. pose proof (all_install store cfg wall (next_sid sch) roots _ Hc (all_retire sch Ha)) as Hi.
  destruct (_flatten _ _ _ _ _) as [os_ ws]. destruct (_prune _ _ _) as [p4 os1]. destruct (_prune _ _ os1) as [p6 os2].
  apply all_build.
  assert (∀ ids seen c, all c → all (reload_loop sch seen ids c)) as Hl; [|by apply Hl].
  clear -Ha StateInv0. induction ids as [|x ids IH]; intros seen c H; simpl; [done|]. case_match; [|by apply IH]. apply IH, all_upd.
  - intros. by apply all_carry.
  - case_bool_decide; by destruct c.
Qed.

Lemma all_mutate f h ty p sch : (∀ st, P st → P (f st)) → all sch → all (mutate_matching f h ty p sch).1.
Proof.
  intros Hf H. unfold mutate_matching. simpl.
  assert (all (foldl (λ sch s, upd_state s f sch) sch (_match h ty p sch))) as H1
    by (apply all_foldl; [intros; by apply all_upd_state|done]).
  case_bool_decide; [done|]. by destruct (foldl _ _ _).
Qed.

Lemma all_import records now sch : all sch → all (import_state records now sch).1.
Proof.
  unfold import_state. generalize 0%nat. revert sch. induction records as [|r records IH]; intros sch k H; simpl; [done|].
  repeat case_match; simpl; eauto. apply IH, all_upd_state; [|done]. intros. by eapply si_restore.
Qed.

Lemma all_step cfg sch sch' : step cfg sch sch' → all sch → all sch'.
Proof.
  destruct 1 as [now sch|s sch sch' H|s code wall mono mono' sch sch' H|s sch sch' H|s ok mono sch sch' H|s sch sch' H|h ty p sch
    |h ty p text sch|sch|records now sch|sch|p4 p6 o sch H|store roots wall now sch Hc]; intros Ha.
  - by apply all_tick.
  - unfold check_start in H. repeat case_match; simplify_eq; by destruct sch.
  - by eapply all_returned.
  - unfold check_raised in H. repeat case_match; simplify_eq. apply all_finish. by rewrite objs_release.
  - unfold send_returned in H. repeat case_match; simplify_eq. apply all_finish. rewrite objs_publish.
    apply all_upd_state; [|done]. intros. by apply si_sent.
  - unfold send_raised in H. repeat case_match; simplify_eq. by apply all_finish.
  - apply all_mutate; [|done]. intros. by apply si_acked.
  - apply all_mutate; [|done]. intros. by apply si_note.
  - apply all_foldl; [|done]. intros. case_match; [|done]. apply all_upd_state; [|done]. intros. by apply si_parents.
  - by apply all_import.
  - by destruct sch.
  - by destruct sch.
  - by apply all_reload.
Qed.

(** Every object of every run. *)
Lemma reached_states cfg sch : reached cfg sch → all sch.
Proof.
  induction 1 as [store roots p4 p6 o wall now stagger sch Hc Hi|sch sch' _ IH Hs]; [|by eapply all_step].
  unfold Scheduler_init in Hi. case_match; [done|].
  pose proof (all_install store cfg wall 0 roots ∅ Hc (map_Forall_empty _)) as H1.
  destruct (_flatten _ _ _ _ _) as [os_ ws]. injection Hi as <-. by apply all_build.
Qed.
End state_inv.

(** ** Notes *)

Lemma truncate_idemp t : truncate_note (truncate_note t) = truncate_note t.
Proof.
  unfold truncate_note. generalize _MAX_NOTE_LEN. intros n. revert t. induction n as [|n IH]; intros [|a t]; simpl; try done.
  by rewrite IH.
Qed.

Definition note_short (st : NodeState) : Prop := truncate_note <$> note st = note st.

Lemma as_note_short v n : _as_note v = Ok n → truncate_note <$> n = n.
Proof. destruct v; simpl; try done; intros [= <-]; simpl; [done|]. by rewrite truncate_idemp. Qed.

Lemma carry_note_short record c : _validated_carry record = Ok (Some c) → truncate_note <$> c_note c = c_note c.
Proof.
  unfold _validated_carry. intros H. case_match eqn:E; [|by case_match]. injection H as ->.
  do 6 apply res_bind_ok in E as (? & _ & E). apply res_bind_ok in E as (no & Hno & [= <-]). simpl.
  unfold field in Hno. apply res_bind_ok in Hno as (v & _ & Hv). by eapply as_note_short.
Qed.

#[export] Instance note_short_inv : StateInv note_short.
Proof.
  split; unfold note_short; intros.
  - done.
  - by destruct st.
  - result_case pod code.
    + destruct (apply_degraded_soft st wall) as [-> _]. by destruct st.
    + destruct (apply_no_dns st wall pod) as [-> _]. case_match; by destruct st.
    + destruct (decide (lastcheck st = OK)) as [E|E]; [by destruct (apply_still_up st wall pod E) as [-> _]|].
      destruct (apply_up st wall pod) as [-> _]; [unfold is_up; by to_prop|]. by destruct st.
    + destruct (apply_hard st code wall pod Hhard) as [-> _]. case_match; by destruct st.
  - unfold _handle_paging. repeat case_match; by destruct st.
  - unfold after_send. repeat case_match; by destruct st.
  - by destruct st.
  - destruct st, text as [x|]; simpl; [|done]. unfold clean_note. case_bool_decide; [done|]. simpl. by rewrite truncate_idemp.
  - by destruct st.
  - destruct st. simpl. by eapply carry_note_short.
  - by destruct old, new.
Qed.

Lemma reached_notes cfg sch s o : reached cfg sch → objs sch !! s = Some o → truncate_note <$> note (state o) = note (state o).
Proof. intros Hr Ho. exact (reached_states note_short cfg sch Hr s o Ho). Qed.
