(* ===== verification/Checks.v ===== *)
(** * Check plumbing (src/psysmon/checks/base.py)

    A stream check talks to a peer.  [conn] is the checker's end: the bytes the peer will
    have sent, how the peer's stream ends, what each flush and the final close do, and the
    bytes written so far.  A checker is a program in [io], a state and exception monad; the
    name lookup, the connect and the peer are its environment [env]. *)
From S2P Require Import Prelude Status Model.

(** ** Exceptions *)

Inductive exn : Type :=
| NoDnsError
| TimeoutError
| GaiError
| ValueError
| IncompleteRead
| OSErr (errno : Z)
| OtherExn.

#[export] Instance exn_eq_dec : EqDecision exn.
Proof. solve_decision. Defined.

(** Linux errno values. *)
Definition ENETUNREACH : Z := 101.
Definition ETIMEDOUT : Z := 110.
Definition ECONNREFUSED : Z := 111.
Definition EHOSTDOWN : Z := 112.
Definition EHOSTUNREACH : Z := 113.

Definition map_oserror (errno : Z) : Z :=
  if errno =? ECONNREFUSED then CONN_REFUSED
  else if errno =? ENETUNREACH then NET_UNREACH
  else if (errno =? EHOSTUNREACH) || (errno =? EHOSTDOWN) then HOST_DOWN
  else if errno =? ETIMEDOUT then TIMED_OUT
  else CONN_REFUSED.

(** ** Streams *)

Inductive ending : Type := EndEOF | EndStall | EndError (e : exn).

Record conn : Type := MkConn {
  inbound : string;
  ends : ending;
  drains : list (option exn);
  close_raises : option exn;
  written : string;
  closed : bool
}.

#[export] Instance set_inbound : SetField inbound := λ f c,
  let '(MkConn a b d e g h) := c in MkConn (f a) b d e g h.
#[export] Instance set_drains : SetField drains := λ f c,
  let '(MkConn a b d e g h) := c in MkConn a b (f d) e g h.
#[export] Instance set_written : SetField written := λ f c,
  let '(MkConn a b d e g h) := c in MkConn a b d e (f g) h.
#[export] Instance set_closed : SetField closed := λ f c,
  let '(MkConn a b d e g h) := c in MkConn a b d e g (f h).

Definition io (A : Type) : Type := conn → conn * res exn A.

Definition io_ret {A} (a : A) : io A := λ c, (c, Ok a).
Definition io_raise {A} (e : exn) : io A := λ c, (c, Raise e).
Definition io_bind {A B} (m : io A) (k : A → io B) : io B := λ c,
  match m c with (c', Ok a) => k a c' | (c', Raise e) => (c', Raise e) end.

Notation "'let*' x ':=' m 'in' k" := (io_bind m (λ x, k))
  (at level 10, x pattern, m at level 100, k at level 200) : psy_scope.

(** What a read that needs more bytes than there are does, given its result at EOF. *)
Definition at_end {A} (eof : io A) : io A := λ c,
  match ends c with
  | EndEOF => eof c
  | EndStall => (c, Raise TimeoutError)
  | EndError e => (c, Raise e)
  end.

Definition LF : Ascii.ascii := Ascii.ascii_of_nat 10.
Definition CRLF : string := String (Ascii.ascii_of_nat 13) (String LF "").

(** The stream reader's buffer limit. *)
Definition _LIMIT : Z := 65536.

Fixpoint split_line (s : string) : option (string * string) :=
  match s with
  | EmptyString => None
  | String a s' =>
      if bool_decide (a = LF) then Some (String a "", s')
      else match split_line s' with Some (l, r) => Some (String a l, r) | None => None end
  end.

(** [await reader.readline()]: a line with its newline; the rest of the stream at EOF, and
    [b""] once nothing is left; [ValueError] past the buffer limit. *)
Definition readline : io string := λ c,
  match split_line (inbound c) with
  | Some (l, r) =>
      if Z.of_nat (String.length l) <=? _LIMIT + 1 then (c <| inbound := r |>, Ok l) else (c, Raise ValueError)
  | None =>
      if _LIMIT <? Z.of_nat (String.length (inbound c)) then (c, Raise ValueError)
      else at_end (λ c, (c <| inbound := "" |>, Ok (inbound c))) c
  end.

(** [await reader.read(n)]: what is there, up to [n] bytes. *)
Definition read (n : nat) : io string := λ c,
  if bool_decide (inbound c = "") then at_end (io_ret "") c
  else (c <| inbound := String.substring n (String.length (inbound c)) (inbound c) |>,
        Ok (String.substring 0 n (inbound c))).

(** [await reader.readexactly(n)] *)
Definition readexactly (n : nat) : io string := λ c,
  if (n <=? String.length (inbound c))%nat
  then (c <| inbound := String.substring n (String.length (inbound c)) (inbound c) |>,
        Ok (String.substring 0 n (inbound c)))
  else at_end (io_raise IncompleteRead) c.

Definition write (s : string) : io unit := λ c, (c <| written := written c +:+ s |>, Ok tt).

(** [await writer.drain()]: raises when the transport has failed. *)
Definition drain : io unit := λ c,
  match drains c with
  | [] => (c, Ok tt)
  | None :: d => (c <| drains := d |>, Ok tt)
  | Some e :: d => (c <| drains := d |>, Raise e)
  end.

Definition graceful_quit : io unit :=
  let* _ := write ("QUIT" +:+ CRLF) in drain.

(** ** A check and its environment *)

Inductive connect_outcome : Type :=
| Connects (c : conn)
| ConnectRaises (e : exn)
| ConnectStalls.

(** The resolver's answer, and the peer reached by connecting to an address and port, with
    TLS or not. *)
Record env : Type := MkEnv {
  resolver : string → option string;
  peer_at : string → option Z → bool → connect_outcome
}.

(** [resolve]: an empty or missing address raises. *)
Definition resolve (node : Node) (ctx : env) : res exn string :=
  match resolver ctx (hostname node) with
  | Some ip => if bool_decide (ip = "") then Raise NoDnsError else Ok ip
  | None => Raise NoDnsError
  end.

(** [node.port or DEFAULT_PORT.get(node.check_type)] *)
Definition effective_port (node : Node) : option Z :=
  if port node =? 0 then DEFAULT_PORT (check_type node) else Some (port node).

Definition _IMPLICIT_TLS (t : CheckType) : bool :=
  match t with POP3S | IMAPS | FTPS => true | _ => false end.

(** The [finally] of [open_check_connection]: the connection is closed whatever the body
    did, and an exception of [wait_closed] replaces the body's outcome. *)
Definition teardown {A} (r : conn * res exn A) : conn * res exn A :=
  let '(c, out) := r in
  let c' := c <| closed := true |> in
  match close_raises c with Some e => (c', Raise e) | None => (c', out) end.

(** Resolve, connect and run [body] on the connection; the connection is returned for the
    record of what was written ([None] when there was none). *)
Definition open_check_connection {A} (node : Node) (ctx : env) (body : io A)
    : option conn * res exn A :=
  match resolve node ctx with
  | Raise e => (None, Raise e)
  | Ok ip =>
      match peer_at ctx ip (effective_port node) (_IMPLICIT_TLS (check_type node)) with
      | ConnectRaises e => (None, Raise e)
      | ConnectStalls => (None, Raise TimeoutError)
      | Connects c => let '(c', r) := teardown (body c) in (Some c', r)
      end
  end.

(** [perform]: the status of a checker's outcome; only an unforeseen exception escapes. *)
Definition perform (r : res exn Z) : res exn Z :=
  match r with
  | Ok code => Ok code
  | Raise NoDnsError => Ok (status_value NO_DNS)
  | Raise TimeoutError => Ok (status_value TIMED_OUT)
  | Raise GaiError => Ok (status_value NO_DNS)
  | Raise ValueError => Ok (status_value BAD_RESPONSE)
  | Raise (OSErr n) => Ok (map_oserror n)
  | Raise e => Raise e
  end.
