(* ===== verification/Protocols.v ===== *)
(** * The protocol checks (src/psysmon/checks/{tcp,smtp,pop3,imap,ftp,ssh,telnet,mysql,dns,udp,http}.py)

    Each checker is the body it runs on the connection, composed with
    [open_check_connection]; [check_*] is the outcome with the connection as it was left.
    The answers of dnspython and httpx are arguments of the checks that use them. *)
From S2P Require Import Prelude Status Model Checks.

Definition code (s : Status) : io Z := io_ret (status_value s).

Definition is_empty (s : string) : bool := bool_decide (s = "").

(** [node.username and node.password] *)
Definition has_credentials (node : Node) : bool :=
  negb (is_empty (username node)) && negb (is_empty (password node)).

Definition send_line (s : string) : io unit := let* _ := write (s +:+ CRLF) in drain.

(** ** tcp *)
Definition tcp_check (node : Node) (ctx : env) := open_check_connection node ctx (code OK).

(** ** smtp *)
Definition smtp_body : io Z :=
  let* banner := readline in
  if String.prefix "220" banner then let* _ := graceful_quit in code OK
  else if is_empty banner then code NO_RESPONSE
  else code BAD_RESPONSE.

Definition smtp_check (node : Node) (ctx : env) := open_check_connection node ctx smtp_body.

(** ** pop3 and pop3s *)
Definition pop3_body (node : Node) : io Z :=
  let* greeting := readline in
  if is_empty greeting then code NO_RESPONSE
  else if negb (String.prefix "+OK" greeting) then code BAD_RESPONSE
  else if negb (has_credentials node) then let* _ := graceful_quit in code OK
  else
    let* _ := send_line ("USER " +:+ username node) in
    let* user_reply := readline in
    if is_empty user_reply then code NO_RESPONSE
    else if String.prefix "-ERR" user_reply then code BAD_AUTH
    else
      let* _ := send_line ("PASS " +:+ password node) in
      let* reply := readline in
      if String.prefix "+OK" reply then let* _ := graceful_quit in code OK
      else if String.prefix "-ERR" reply then code BAD_AUTH
      else if is_empty reply then code NO_RESPONSE
      else code BAD_RESPONSE.

Definition pop3_check (node : Node) (ctx : env) := open_check_connection node ctx (pop3_body node).

(** ** imap and imaps *)
Definition _TAG : string := "a1".

(** The [while True] loop: each pass consumes a line, so the length of the unread stream
    bounds the passes; [None] is that bound exhausted. *)
Fixpoint read_tagged_loop (fuel : nat) (tag : string) : io (option string) :=
  match fuel with
  | O => io_ret None
  | S fuel =>
      let* line := readline in
      if is_empty line then io_ret (Some "")
      else if String.prefix (tag +:+ " ") line then io_ret (Some line)
      else read_tagged_loop fuel tag
  end.

Definition _read_tagged (tag : string) : io string := λ c,
  (let* r := read_tagged_loop (S (String.length (inbound c))) tag in io_ret (default "" r)) c.

Definition is_space (a : Ascii.ascii) : bool :=
  bool_decide (a = Ascii.ascii_of_nat 32) || ((9 <=? Ascii.nat_of_ascii a)%nat && (Ascii.nat_of_ascii a <=? 13)%nat).

Fixpoint lstrip (s : string) : string :=
  match s with
  | String a s' => if is_space a then lstrip s' else s
  | EmptyString => ""
  end.

Definition drop (n : nat) (s : string) : string := String.substring n (String.length s) s.

Definition dquote : string := String (Ascii.ascii_of_nat 34) "".

Definition imap_login (node : Node) : string :=
  _TAG +:+ " LOGIN " +:+ dquote +:+ username node +:+ dquote +:+ " " +:+ dquote
  +:+ password node +:+ dquote.

Definition _logout : io unit := send_line "a2 LOGOUT".

Definition imap_body (node : Node) : io Z :=
  let* greeting := readline in
  if is_empty greeting then code NO_RESPONSE
  else if String.prefix "* PREAUTH" greeting then code OK
  else if negb (String.prefix "* OK" greeting) then code BAD_RESPONSE
  else if negb (has_credentials node) then code OK
  else
    let* _ := send_line (imap_login node) in
    let* reply := _read_tagged _TAG in
    if is_empty reply then code NO_RESPONSE
    else
      let result := lstrip (drop (String.length _TAG + 1) reply) in
      if String.prefix "OK" result then let* _ := _logout in code OK
      else if String.prefix "NO" result then code BAD_AUTH
      else code BAD_RESPONSE.

Definition imap_check (node : Node) (ctx : env) := open_check_connection node ctx (imap_body node).

(** ** ftp and ftps *)

(** Draining the continuation lines of a multi-line reply. *)
Fixpoint drain_continuation (fuel : nat) (code_ : string) : io bool :=
  match fuel with
  | O => io_ret false
  | S fuel =>
      let* cont := readline in
      if is_empty cont || String.prefix (code_ +:+ " ") cont then io_ret true
      else drain_continuation fuel code_
  end.

Definition _read_reply : io string :=
  let* line := readline in
  if is_empty line then io_ret ""
  else if bool_decide (String.substring 3 1 line = "-") then
    let* _ := (λ c, drain_continuation (S (String.length (inbound c))) (String.substring 0 3 line) c) in
    io_ret line
  else io_ret line.

Definition ftp_body (node : Node) : io Z :=
  let* greeting := _read_reply in
  if is_empty greeting then code NO_RESPONSE
  else if negb (String.prefix "220" greeting) then code BAD_RESPONSE
  else if negb (has_credentials node) then let* _ := graceful_quit in code OK
  else
    let* _ := send_line ("USER " +:+ username node) in
    let* user_reply := _read_reply in
    if is_empty user_reply then code NO_RESPONSE
    else if String.prefix "230" user_reply then let* _ := graceful_quit in code OK
    else if String.prefix "530" user_reply then code BAD_AUTH
    else if negb (String.prefix "331" user_reply) then code BAD_RESPONSE
    else
      let* _ := send_line ("PASS " +:+ password node) in
      let* pass_reply := _read_reply in
      if is_empty pass_reply then code NO_RESPONSE
      else if String.prefix "230" pass_reply then let* _ := graceful_quit in code OK
      else if String.prefix "530" pass_reply then code BAD_AUTH
      else code BAD_RESPONSE.

Definition ftp_check (node : Node) (ctx : env) := open_check_connection node ctx (ftp_body node).

(** ** ssh, telnet and mysql: the verdict is taken after the connection is closed *)
Definition then_ {A B} (r : option conn * res exn A) (f : A → B) : option conn * res exn B :=
  let '(c, out) := r in (c, match out with Ok a => Ok (f a) | Raise e => Raise e end).

Definition ssh_verdict (banner : string) : Z :=
  if String.prefix "SSH-" banner then OK
  else if is_empty banner then NO_RESPONSE
  else BAD_RESPONSE.

Definition ssh_check (node : Node) (ctx : env) :=
  then_ (open_check_connection node ctx readline) ssh_verdict.

Definition _READ_BYTES : nat := 64.

Definition telnet_verdict (data : string) : Z := if is_empty data then NO_RESPONSE else OK.

Definition telnet_check (node : Node) (ctx : env) :=
  then_ (open_check_connection node ctx (read _READ_BYTES)) telnet_verdict.

Definition byte_at (n : nat) (s : string) : Z :=
  match String.get n s with Some a => Z.of_nat (Ascii.nat_of_ascii a) | None => 0 end.

(** The first payload byte, or the code to return at once. *)
Definition mysql_read : io (Z + Z) :=
  let* header := readexactly 4 in
  let length := byte_at 0 header + 256 * byte_at 1 header + 65536 * byte_at 2 header in
  if length <? 1 then io_ret (inr (status_value BAD_RESPONSE))
  else let* first := readexactly 1 in io_ret (inl (byte_at 0 first)).

(** [except asyncio.IncompleteReadError] around the reads. *)
Definition mysql_body : io (Z + Z) := λ c,
  match mysql_read c with
  | (c', Raise IncompleteRead) => (c', Ok (inr (status_value NO_RESPONSE)))
  | r => r
  end.

Definition mysql_verdict (r : Z + Z) : Z :=
  match r with
  | inr code => code
  | inl first => if (first =? 9) || (first =? 10) || (first =? 255) then OK else BAD_RESPONSE
  end.

Definition mysql_check (node : Node) (ctx : env) :=
  then_ (open_check_connection node ctx mysql_body) mysql_verdict.

(** ** udp and dns, over dnspython *)
Inductive dns_outcome : Type :=
| DnsResponse (rcode : Z) (answers : nat)
| DnsTimeout
| DnsException
| DnsRaises (e : exn).

(** [(status code, None)] or [(None, response)]. *)
Definition dns_udp_query (r : dns_outcome) : res exn (option Z * option (Z * nat)) :=
  match r with
  | DnsResponse rcode answers => Ok (None, Some (rcode, answers))
  | DnsTimeout => Ok (Some (status_value NO_RESPONSE), None)
  | DnsException => Ok (Some (status_value BAD_RESPONSE), None)
  | DnsRaises e => Raise e
  end.

(** [udp ip name port] is the outcome of the query for [name] sent to [ip] and [port]. *)
Definition udp_check (node : Node) (ctx : env) (udp : string → string → Z → dns_outcome)
    : res exn Z :=
  let! ip := resolve node ctx in
  let name := if is_empty (hostname node) then "." else hostname node in
  let! (c, _) := dns_udp_query (udp ip name (port node)) in
  Ok (default (status_value OK) c).

Definition NOERROR : Z := 0.

Definition dns_check (node : Node) (ctx : env) (udp : string → string → Z → dns_outcome)
    : res exn Z :=
  let! ip := resolve node ctx in
  let! (c, response) := dns_udp_query (udp ip (username node) (port node)) in
  match c, response with
  | Some c, _ => Ok c
  | None, Some (rcode, answers) =>
      if negb (rcode =? NOERROR) then Ok (status_value BAD_RESPONSE)
      else if (answers =? 0)%nat then Ok (status_value NO_RESPONSE)
      else Ok (status_value OK)
  | None, None => Raise OtherExn
  end.

(** ** http and https, over httpx *)
Inductive http_outcome : Type :=
| HttpResponse (status_code : Z) (text : string)
| HttpTimeout
| HttpConnectError
| HttpError
| HttpRaises (e : exn).

Fixpoint contains (needle hay : string) : bool :=
  String.prefix needle hay ||
  match hay with String _ hay' => contains needle hay' | EmptyString => false end.

Definition http_url (node : Node) : string :=
  (match check_type node with HTTPS => "https" | _ => "http" end)
  +:+ "://" +:+ hostname node +:+ ":" +:+ pretty (port node) +:+ url node.

Definition http_check (node : Node) (ctx : env) (get : string → http_outcome) : res exn Z :=
  let! _ := resolve node ctx in
  match get (http_url node) with
  | HttpTimeout => Ok (status_value TIMED_OUT)
  | HttpConnectError => Ok (status_value CONN_REFUSED)
  | HttpError => Ok (status_value BAD_RESPONSE)
  | HttpRaises e => Raise e
  | HttpResponse status_code text =>
      match url_text node with
      | None => Ok (status_value OK)
      | Some needle =>
          if (200 <=? status_code) && (status_code <? 300) && contains needle text
          then Ok (status_value OK) else Ok (status_value BAD_RESPONSE)
      end
  end.

(** ** Dispatch (the table [_CHECKERS] of src/psysmon/engine/scheduler.py) *)
Definition _CHECKERS (t : CheckType) : option (Node → env → (string → string → Z → dns_outcome) →
    (string → http_outcome) → res exn Z) :=
  match t with
  | PING | PING6 => None
  | TCP => Some (λ node ctx _ _, (tcp_check node ctx).2)
  | UDP => Some (λ node ctx udp _, udp_check node ctx udp)
  | SMTP => Some (λ node ctx _ _, (smtp_check node ctx).2)
  | POP3 | POP3S => Some (λ node ctx _ _, (pop3_check node ctx).2)
  | IMAP | IMAPS => Some (λ node ctx _ _, (imap_check node ctx).2)
  | DNS => Some (λ node ctx udp _, dns_check node ctx udp)
  | HTTP | HTTPS => Some (λ node ctx _ get, http_check node ctx get)
  | SSH => Some (λ node ctx _ _, (ssh_check node ctx).2)
  | MYSQL => Some (λ node ctx _ _, (mysql_check node ctx).2)
  | FTP | FTPS => Some (λ node ctx _ _, (ftp_check node ctx).2)
  | TELNET => Some (λ node ctx _ _, (telnet_check node ctx).2)
  end.
