(* ===== verification/ProtocolSpec.v ===== *)
(** * What the protocol checks promise

    A small program logic for [io]: [triple Inv m Q E] says that from a connection that
    satisfies [Inv] the program [m] ends with a value in [Q] or an exception in [E], and
    keeps [Inv].  With it: every stream check reaches a verdict, always closes its
    connection, and reports bad credentials only when the server said so. *)
From S2P Require Import Prelude Status Model Checks Protocols.

Definition triple {A} (Inv : conn → Prop) (m : io A) (Q : A → Prop) (E : exn → Prop) : Prop :=
  ∀ c, Inv c → match m c with
               | (c', Ok a) => Inv c' ∧ Q a
               | (c', Raise e) => Inv c' ∧ E e
               end.

Lemma triple_ret {A} Inv (a : A) (Q : A → Prop) E : Q a → triple Inv (io_ret a) Q E.
Proof. intros HQ c Hc. by split. Qed.

Lemma triple_bind {A B} Inv (m : io A) (k : A → io B) P Q E :
  triple Inv m P E → (∀ a, P a → triple Inv (k a) Q E) → triple Inv (io_bind m k) Q E.
Proof.
  intros Hm Hk c Hc. unfold io_bind. specialize (Hm c Hc). destruct (m c) as [c' [a|e]]; [|done].
  destruct Hm as [Hc' Ha]. by apply (Hk a Ha).
Qed.

Lemma triple_weaken {A} Inv (m : io A) (P Q : A → Prop) (E E' : exn → Prop) :
  triple Inv m P E → (∀ a, P a → Q a) → (∀ e, E e → E' e) → triple Inv m Q E'.
Proof.
  intros Hm HQ HE c Hc. specialize (Hm c Hc). destruct (m c) as [c' [a|e]]; naive_solver.
Qed.

(** ** Lines of the inbound stream *)

Inductive line_in (l : string) : string → Prop :=
| line_here s r : split_line s = Some (l, r) → line_in l s
| line_rest s : split_line s = None → s = l → line_in l s
| line_later s l' r : split_line s = Some (l', r) → line_in l r → line_in l s.

(** Exceptions [perform] turns into a status. *)
Definition foreseen (e : exn) : Prop := e ≠ OtherExn ∧ e ≠ IncompleteRead.

(** The peer's stream is (what is left of) [s0] and the transport fails in foreseen ways. *)
Record talking (s0 : string) (c : conn) : Prop := {
  tk_lines : ∀ l, line_in l (inbound c) → l = "" ∨ line_in l s0;
  tk_ends : ∀ e, ends c = EndError e → foreseen e;
  tk_drains : ∀ e, Some e ∈ drains c → foreseen e;
  tk_close : ∀ e, close_raises c = Some e → foreseen e
}.

#[local] Ltac talk := destruct 1 as [Hl He Hd Hc]; split; simpl in *; auto.

Lemma talking_drop s0 c l r :
  split_line (inbound c) = Some (l, r) → talking s0 c → talking s0 (c <| inbound := r |>).
Proof. intros Hs. destruct c. talk. intros l' Hl'. apply Hl. by eapply line_later. Qed.

Lemma talking_empty s0 c : talking s0 c → talking s0 (c <| inbound := "" |>).
Proof.
  destruct c. talk. intros l Hl'. left. by inversion Hl' as [? ? Hx|? ? Hx|? ? ? Hx]; simplify_eq/=.
Qed.

Section logic.
Context (s0 : string).
Abbreviation Inv := (talking s0).

Lemma triple_readline : triple Inv readline (λ l, l = "" ∨ line_in l s0) foreseen.
Proof.
  intros c Hc. unfold readline. destruct (split_line (inbound c)) as [[l r]|] eqn:Es.
  - destruct (_ <=? _); [|done]. split; [by eapply talking_drop|].
    apply (tk_lines _ _ Hc). by eapply line_here.
  - destruct (_ <? _); [done|]. unfold at_end. destruct (ends c) eqn:Ee; [|done|].
    + split; [by apply talking_empty|]. apply (tk_lines _ _ Hc). by apply line_rest.
    + split; [done|]. by apply (tk_ends _ _ Hc).
Qed.

Lemma triple_write s : triple Inv (write s) (λ _, True) foreseen.
Proof. intros c Hc. split; [|done]. destruct c. revert Hc. talk. Qed.

Lemma triple_drain : triple Inv drain (λ _, True) foreseen.
Proof.
  intros c Hc. unfold drain. destruct (drains c) as [|[e|] d] eqn:Ed; [done| |];
    (split; [|first [done|apply (tk_drains _ _ Hc); rewrite Ed; apply list_elem_of_here]]);
    destruct c; revert Hc; simpl in *; subst; talk; intros; apply Hd, list_elem_of_further; done.
Qed.

Lemma triple_send_line s : triple Inv (send_line s) (λ _, True) foreseen.
Proof. eapply triple_bind; [apply triple_write|]. intros. apply triple_drain. Qed.

Lemma triple_quit : triple Inv graceful_quit (λ _, True) foreseen.
Proof. eapply triple_bind; [apply triple_write|]. intros. apply triple_drain. Qed.

Lemma triple_tagged_loop fuel tag :
  triple Inv (read_tagged_loop fuel tag)
    (λ r, ∀ l, r = Some l → l = "" ∨ (line_in l s0 ∧ String.prefix (tag +:+ " ") l = true)) foreseen.
Proof.
  induction fuel as [|fuel IH]; simpl; [by apply triple_ret|].
  eapply triple_bind; [apply triple_readline|]. intros l Hl. simpl.
  destruct (is_empty l); [apply triple_ret; naive_solver|].
  destruct (String.prefix (tag +:+ " ") l) eqn:Ep; [|done]. apply triple_ret. naive_solver.
Qed.

Lemma triple_read_tagged tag :
  triple Inv (_read_tagged tag)
    (λ l, l = "" ∨ (line_in l s0 ∧ String.prefix (tag +:+ " ") l = true)) foreseen.
Proof.
  intros c. unfold _read_tagged. revert c. intros c Hc.
  eapply triple_bind; [apply triple_tagged_loop| |done]. intros [l|] Hr; apply triple_ret; simpl; auto.
Qed.

Lemma triple_continuation fuel k : triple Inv (drain_continuation fuel k) (λ _, True) foreseen.
Proof.
  induction fuel as [|fuel IH]; simpl; [by apply triple_ret|].
  eapply triple_bind; [apply triple_readline|]. intros l _. case_match; [by apply triple_ret|done].
Qed.

Lemma triple_read_reply : triple Inv _read_reply (λ l, l = "" ∨ line_in l s0) foreseen.
Proof.
  eapply triple_bind; [apply triple_readline|]. intros l Hl. simpl.
  destruct (is_empty l); [apply triple_ret; auto|]. case_bool_decide; [|by apply triple_ret].
  eapply (triple_bind _ _ _ (λ _, True)); [|intros _ _; by apply triple_ret].
  intros c. apply (triple_continuation (S (String.length (inbound c))) (String.substring 0 3 l) c).
Qed.
End logic.

(** Walks through a checker's body: one rule per command, one case per branch. *)
Ltac io_step :=
  lazymatch goal with
  | |- triple _ (io_bind readline _) _ _ => eapply triple_bind; [apply triple_readline|intros ?l ?Hl]
  | |- triple _ (io_bind _read_reply _) _ _ => eapply triple_bind; [apply triple_read_reply|intros ?l ?Hl]
  | |- triple _ (io_bind (_read_tagged _) _) _ _ =>
      eapply triple_bind; [apply triple_read_tagged|intros ?l ?Hl]
  | |- triple _ (io_bind (send_line _) _) _ _ => eapply triple_bind; [apply triple_send_line|intros ? _]
  | |- triple _ (io_bind _logout _) _ _ => eapply triple_bind; [apply triple_send_line|intros ? _]
  | |- triple _ (io_bind graceful_quit _) _ _ => eapply triple_bind; [apply triple_quit|intros ? _]
  | |- triple _ (if ?b then _ else _) _ _ => let E := fresh "E" in destruct b eqn:E
  | |- triple _ (code _) _ _ => apply triple_ret
  end.

(** A code of the table of statuses; [bad] is what must hold for [BAD_AUTH]. *)
Definition verdict (bad : Prop) (z : Z) : Prop :=
  (∃ s : Status, z = s) ∧ (z = BAD_AUTH → bad).

Lemma verdict_other bad (s : Status) : s ≠ BAD_AUTH → verdict bad s.
Proof. intros Hs. split; [by exists s|]. destruct s; done. Qed.

Lemma verdict_bad_auth (bad : Prop) : bad → verdict bad BAD_AUTH.
Proof. intros Hb. split; [by exists BAD_AUTH|done]. Qed.

Lemma smtp_triple s0 : triple (talking s0) smtp_body (verdict False) foreseen.
Proof. unfold smtp_body. repeat io_step; by apply verdict_other. Qed.

Definition rejected (s0 p : string) : Prop := ∃ l, line_in l s0 ∧ String.prefix p l = true.

Lemma line_rejected s0 p l :
  l = "" ∨ line_in l s0 → is_empty l = false → String.prefix p l = true → rejected s0 p.
Proof. intros [->|Hl] He Hp; [done|]. by exists l. Qed.

Lemma not_empty_prefix p l : String.prefix p l = true → p ≠ "" → is_empty l = false.
Proof. destruct l; [destruct p; naive_solver|done]. Qed.

Ltac by_rejection :=
  apply verdict_bad_auth;
  match goal with
  | Hp : String.prefix ?p _ = true |- rejected _ ?p =>
      refine (line_rejected _ _ _ _ _ Hp); [assumption|by apply (not_empty_prefix p)]
  end.

Lemma pop3_triple s0 node : triple (talking s0) (pop3_body node) (verdict (rejected s0 "-ERR")) foreseen.
Proof.
  unfold pop3_body. repeat io_step; try by apply verdict_other.
  all: by_rejection.
Qed.

Lemma ftp_triple s0 node : triple (talking s0) (ftp_body node) (verdict (rejected s0 "530")) foreseen.
Proof.
  unfold ftp_body. repeat io_step; try by apply verdict_other.
  all: by_rejection.
Qed.

(** The server answered the LOGIN with a tagged NO. *)
Definition imap_rejected (s0 : string) : Prop :=
  ∃ l, line_in l s0 ∧ String.prefix "a1 " l = true ∧ String.prefix "NO" (lstrip (drop 3 l)) = true.

Lemma imap_triple s0 node : triple (talking s0) (imap_body node) (verdict (imap_rejected s0)) foreseen.
Proof.
  unfold imap_body. repeat io_step; try by apply verdict_other.
  apply verdict_bad_auth. destruct Hl0 as [->|[Hin Hp]]; [done|]. exists l0. done.
Qed.

(** ** Environments *)

Definition conn_ok (c : conn) : Prop :=
  (∀ e, ends c = EndError e → foreseen e) ∧ (∀ e, Some e ∈ drains c → foreseen e) ∧
  (∀ e, close_raises c = Some e → foreseen e).

Lemma conn_ok_talking c : conn_ok c → talking (inbound c) c.
Proof. intros (?&?&?). split; auto. Qed.

Definition peer_ok (r : connect_outcome) : Prop :=
  match r with Connects c => conn_ok c | ConnectRaises e => foreseen e | ConnectStalls => True end.

Definition env_ok (ctx : env) : Prop := ∀ ip p tls, peer_ok (peer_at ctx ip p tls).

Definition dns_ok (r : dns_outcome) : Prop := match r with DnsRaises e => foreseen e | _ => True end.

Definition http_ok (r : http_outcome) : Prop := match r with HttpRaises e => foreseen e | _ => True end.

Lemma talking_conn_ok s0 c : talking s0 c → conn_ok c.
Proof. by intros []. Qed.

(** What a checker's body does on a fresh connection. *)
Definition meets {A} (body : io A) (Q : string → A → Prop) : Prop :=
  ∀ c0, conn_ok c0 → match body c0 with
                     | (c1, Ok a) => conn_ok c1 ∧ Q (inbound c0) a
                     | (c1, Raise e) => conn_ok c1 ∧ foreseen e
                     end.

Lemma triple_meets {A} (body : io A) (Q : string → A → Prop) :
  (∀ s0, triple (talking s0) body (Q s0) foreseen) → meets body Q.
Proof.
  intros Ht c0 Hc0. specialize (Ht (inbound c0) c0 (conn_ok_talking c0 Hc0)).
  destruct (body c0) as [c1 [a|e]]; naive_solver eauto using talking_conn_ok.
Qed.

(** The verdict of a body survives the connection's set-up and teardown. *)
Lemma open_check_meets {A} node ctx (body : io A) (Q : string → A → Prop) :
  env_ok ctx → meets body Q →
  match open_check_connection node ctx body with
  | (oc, Ok a) => ∃ c ip, oc = Some c ∧ closed c = true ∧ resolve node ctx = Ok ip ∧
      ∃ c0, peer_at ctx ip (effective_port node) (_IMPLICIT_TLS (check_type node)) = Connects c0 ∧
            Q (inbound c0) a
  | (oc, Raise e) => (∀ c, oc = Some c → closed c = true) ∧ foreseen e
  end.
Proof.
  intros Henv Hbody. unfold open_check_connection.
  destruct (resolve node ctx) as [ip|e] eqn:Er; last first.
  { split; [done|]. unfold resolve in Er. repeat case_match; simplify_eq; done. }
  specialize (Henv ip (effective_port node) (_IMPLICIT_TLS (check_type node))).
  destruct (peer_at _ _ _ _) as [c0|e|] eqn:Ep; simpl in Henv; [|done..].
  specialize (Hbody c0 Henv).
  destruct (body c0) as [c1 [a|e]]; destruct Hbody as [(_ & _ & Hclose) Hq]; unfold teardown;
    destruct (close_raises c1) as [e'|] eqn:Ec.
  - split; [intros c [= <-]; by destruct c1|]. by apply Hclose.
  - eexists _, ip. split; [done|]. split; [by destruct c1|]. eauto.
  - split; [intros c [= <-]; by destruct c1|]. by apply Hclose.
  - split; [intros c [= <-]; by destruct c1|done].
Qed.

(** The lines of the rest of a stream after cutting it anywhere are not lines of it, so the
    byte-reading checks are followed with the weaker invariant [conn_ok]. *)
Lemma triple_at_end {A} (m : io A) Q :
  triple conn_ok m Q (λ e, foreseen e ∨ e = IncompleteRead) →
  triple conn_ok (at_end m) Q (λ e, foreseen e ∨ e = IncompleteRead).
Proof.
  intros Hm c Hc. unfold at_end. destruct (ends c) eqn:Ee; [by apply Hm| |].
  - split; [done|]. left. done.
  - split; [done|]. left. destruct Hc as (He & _). by apply He.
Qed.

Lemma conn_ok_inbound c s : conn_ok c → conn_ok (c <| inbound := s |>).
Proof. by destruct c. Qed.

Lemma triple_readexactly n :
  triple conn_ok (readexactly n) (λ _, True) (λ e, foreseen e ∨ e = IncompleteRead).
Proof.
  intros c Hc. unfold readexactly. destruct (_ <=? _)%nat; [split; [by apply conn_ok_inbound|done]|].
  apply triple_at_end; [|done]. intros c' Hc'. split; auto.
Qed.

Lemma meets_read n : meets (read n) (λ _ _, True).
Proof.
  intros c Hc. unfold read. case_bool_decide; [|split; [by apply conn_ok_inbound|done]].
  unfold at_end, io_ret. destruct (ends c) eqn:Ee; [done|done|].
  split; [done|]. destruct Hc as (He & _). by apply He.
Qed.

Lemma meets_mysql :
  meets mysql_body (λ _ r, ∀ z, r = inr z → z = BAD_RESPONSE ∨ z = NO_RESPONSE).
Proof.
  intros c Hc. unfold mysql_body.
  assert (triple conn_ok mysql_read (λ r, ∀ z, r = inr z → z = BAD_RESPONSE ∨ z = NO_RESPONSE)
    (λ e, foreseen e ∨ e = IncompleteRead)) as Ht.
  { eapply triple_bind; [apply triple_readexactly|]. intros h _. simpl. case_match.
    - apply triple_ret. naive_solver.
    - eapply triple_bind; [apply triple_readexactly|]. intros f _. by apply triple_ret. }
  specialize (Ht c Hc). destruct (mysql_read c) as [c' [r|e]]; [done|].
  destruct Ht as [Hc' [He| ->]]; [destruct e; try done; by destruct He|].
  split; [done|]. intros z [= <-]. by right.
Qed.

Lemma meets_weaken {A} (body : io A) (P Q : string → A → Prop) :
  meets body P → (∀ s a, P s a → Q s a) → meets body Q.
Proof. intros Hm HQ c Hc. specialize (Hm c Hc). destruct (body c) as [c1 [a|e]]; naive_solver. Qed.

Lemma meets_code s bad : s ≠ BAD_AUTH → meets (code s) (λ s0, verdict (bad s0)).
Proof. intros Hs c Hc. split; [done|]. by apply verdict_other. Qed.

Definition ruled_out (s0 : string) (t : CheckType) : Prop :=
  match t with
  | POP3 | POP3S => rejected s0 "-ERR"
  | FTP | FTPS => rejected s0 "530"
  | IMAP | IMAPS => imap_rejected s0
  | _ => False
  end.

(** The stream part of every checker: what is read, and the verdict on it. *)
Definition conclusive (r : res exn Z) : Prop :=
  match r with Ok z => ∃ s : Status, z = s | Raise e => foreseen e end.

Lemma open_check_conclusive node ctx body bad :
  env_ok ctx → meets body (λ s0, verdict (bad s0)) →
  conclusive (open_check_connection node ctx body).2.
Proof.
  intros Henv Hm. pose proof (open_check_meets node ctx body _ Henv Hm) as H.
  destruct (open_check_connection node ctx body) as [oc [z|e]]; simpl; [|by destruct H].
  destruct H as (c & ip & _ & _ & _ & c0 & _ & Hv & _). done.
Qed.

Lemma then_conclusive {A} node ctx (body : io A) (P : string → A → Prop) (f : A → Z) :
  env_ok ctx → meets body P → (∀ s a, P s a → ∃ st : Status, f a = st) →
  conclusive (then_ (open_check_connection node ctx body) f).2.
Proof.
  intros Henv Hm Hf. pose proof (open_check_meets node ctx body _ Henv Hm) as H.
  destruct (open_check_connection node ctx body) as [oc [a|e]]; simpl; [|by destruct H].
  destruct H as (c & ip & _ & _ & _ & c0 & _ & Hp). by eapply Hf.
Qed.

Lemma perform_conclusive r : conclusive r → ∃ s : Status, perform r = Ok (status_value s).
Proof.
  destruct r as [z|e]; simpl; [intros [s ->]; eauto|]. intros [H1 H2].
  destruct e; try done; [by exists NO_DNS|by exists TIMED_OUT|by exists NO_DNS|by exists BAD_RESPONSE|].
  unfold perform, map_oserror. repeat case_match; eauto.
Qed.

Lemma resolve_foreseen node ctx e : resolve node ctx = Raise e → foreseen e.
Proof. unfold resolve. repeat case_match; intros; simplify_eq; done. Qed.

Lemma checker_conclusive node ctx udp get check :
  env_ok ctx → (∀ ip name p, dns_ok (udp ip name p)) → (∀ url, http_ok (get url)) →
  _CHECKERS (check_type node) = Some check → conclusive (check node ctx udp get).
Proof.
  intros Henv Hudp Hget Hc.
  assert (∀ body bad, meets body (λ s0, verdict (bad s0)) →
    conclusive (open_check_connection node ctx body).2) as Hopen by eauto using open_check_conclusive.
  assert (conclusive (pop3_check node ctx).2) as Hpop
    by (eapply Hopen, triple_meets; intros; apply pop3_triple).
  assert (conclusive (imap_check node ctx).2) as Himap
    by (eapply Hopen, triple_meets; intros; apply imap_triple).
  assert (conclusive (ftp_check node ctx).2) as Hftp
    by (eapply Hopen, triple_meets; intros; apply ftp_triple).
  assert (conclusive (http_check node ctx get)) as Hhttp.
  { unfold http_check. destruct (resolve node ctx) as [ip|e] eqn:Er; [|by eapply resolve_foreseen].
    simpl. specialize (Hget (http_url node)). destruct (get (http_url node)); simpl in *;
      [|by exists TIMED_OUT|by exists CONN_REFUSED|by exists BAD_RESPONSE|done].
    destruct (url_text node); [|by exists OK]. case_match; [by exists OK|by exists BAD_RESPONSE]. }
  destruct (check_type node) eqn:Et; simplify_eq/=; try done.
  - apply (Hopen _ (λ _, False)). by apply meets_code.
  - unfold udp_check. destruct (resolve node ctx) as [ip|e] eqn:Er; [|by eapply resolve_foreseen].
    simpl. specialize (Hudp ip (if is_empty (hostname node) then "." else hostname node) (port node)).
    destruct (udp _ _ _); simpl in *; [by exists OK|by exists NO_RESPONSE|by exists BAD_RESPONSE|done].
  - apply (Hopen _ (λ _, False)), triple_meets. intros s0. apply smtp_triple.
  - unfold dns_check. destruct (resolve node ctx) as [ip|e] eqn:Er; [|by eapply resolve_foreseen].
    simpl. specialize (Hudp ip (username node) (port node)).
    destruct (udp _ _ _) as [rc n| | |]; simpl in *; [|by exists NO_RESPONSE|by exists BAD_RESPONSE|done].
    destruct (rc =? NOERROR); [destruct n; [by exists NO_RESPONSE|by exists OK]|by exists BAD_RESPONSE].
  - eapply then_conclusive; [done| |].
    + apply triple_meets. intros s0. apply triple_readline.
    + intros s l _. unfold ssh_verdict. repeat case_match; eauto.
  - eapply then_conclusive; [done|apply meets_mysql|]. intros s r Hr. unfold mysql_verdict.
    destruct r as [z|z]; [case_match; eauto|]. destruct (Hr z eq_refl) as [->| ->]; eauto.
  - eapply then_conclusive; [done|apply meets_read|]. intros s d _. unfold telnet_verdict.
    case_match; eauto.
Qed.

(** ** The reading loops *)

Lemma split_line_length s l r :
  split_line s = Some (l, r) →
  l ≠ "" ∧ (String.length l + String.length r = String.length s)%nat.
Proof.
  revert l r. induction s as [|a s IH]; intros l r; simpl; [done|].
  case_bool_decide; [intros [= <- <-]; done|].
  destruct (split_line s) as [[l' r']|]; [|done]. intros [= <- <-].
  destruct (IH l' r' eq_refl) as [_ Hlen]. simpl. split; [done|lia].
Qed.

(** A line read leaves less to read, unless it is the empty line of the end. *)
Lemma readline_progress c c' l :
  readline c = (c', Ok l) → is_empty l = false →
  (String.length (inbound c') < String.length (inbound c))%nat.
Proof.
  unfold readline, at_end. intros Hr He. destruct (split_line (inbound c)) as [[l' r]|] eqn:Es.
  - apply split_line_length in Es as [Hne Hlen]. destruct (_ <=? _); simplify_eq.
    destruct c; simpl in *. destruct l; simpl in *; [done|lia].
  - destruct (_ <? _); [done|]. destruct (ends c); simplify_eq.
    destruct c; simpl in *. destruct inbound; simpl in *; [done|lia].
Qed.

Lemma tagged_loop_total fuel tag c :
  (String.length (inbound c) < fuel)%nat → (read_tagged_loop fuel tag c).2 ≠ Ok None.
Proof.
  revert c. induction fuel as [|fuel IH]; intros c Hf; [lia|]. simpl. unfold io_bind.
  destruct (readline c) as [c' [l|e]] eqn:Er; [|done].
  destruct (is_empty l) eqn:El; [done|]. destruct (String.prefix _ l); [done|].
  apply IH. apply (readline_progress c c' l Er) in El. lia.
Qed.

Lemma continuation_total fuel k c :
  (String.length (inbound c) < fuel)%nat → (drain_continuation fuel k c).2 ≠ Ok false.
Proof.
  revert c. induction fuel as [|fuel IH]; intros c Hf; [lia|]. simpl. unfold io_bind.
  destruct (readline c) as [c' [l|e]] eqn:Er; [|done].
  destruct (is_empty l) eqn:El; [done|]. destruct (String.prefix _ l); [done|].
  apply IH. apply (readline_progress c c' l Er) in El. lia.
Qed.

(** A complete line within the reader's limit. *)
Definition full_line (l : string) : Prop :=
  split_line l = Some (l, "") ∧ Z.of_nat (String.length l) <= _LIMIT + 1.

Lemma split_line_app l r rest : split_line l = Some (r, "") → split_line (l +:+ rest) = Some (r, rest).
Proof.
  revert r. induction l as [|a l IH]; intros r; simpl; [done|].
  case_bool_decide; [intros [= <- ->]; done|].
  destruct (split_line l) as [[l' r']|]; [|done]. intros [= <- ->].
  by rewrite (IH l' eq_refl).
Qed.

Lemma readline_full l rest c :
  full_line l → inbound c = l +:+ rest → readline c = (c <| inbound := rest |>, Ok l).
Proof.
  intros [Hs Hlen] Hc. unfold readline. rewrite Hc, (split_line_app l l rest Hs).
  by rewrite (proj2 (Z.leb_le _ _) Hlen).
Qed.

Lemma full_line_nonempty l : full_line l → is_empty l = false.
Proof. intros [Hs _]. destruct l; done. Qed.

Lemma continuation_drained k conts final rest fuel c :
  Forall (λ l, full_line l ∧ String.prefix (k +:+ " ") l = false) conts →
  full_line final → String.prefix (k +:+ " ") final = true →
  inbound c = foldr String.append (final +:+ rest) conts → (length conts < fuel)%nat →
  drain_continuation fuel k c = (c <| inbound := rest |>, Ok true).
Proof.
  revert c fuel. induction conts as [|l conts IH]; intros c fuel Hcs Hf Hp Hc Hfuel;
    (destruct fuel as [|fuel]; [simpl in Hfuel; lia|]); simpl in *; unfold io_bind.
  - rewrite (readline_full final rest c Hf Hc), (full_line_nonempty final Hf), Hp. done.
  - apply Forall_cons in Hcs as [[Hl Hn] Hcs]. rewrite (readline_full l _ c Hl Hc).
    rewrite (full_line_nonempty l Hl), Hn. cbn [orb].
    rewrite (IH (c <| inbound := foldr String.append (final +:+ rest) conts |>) fuel);
      [by destruct c|done..|by destruct c|lia].
Qed.

Lemma foldr_append_length conts s :
  Forall (λ l, is_empty l = false) conts →
  (length conts + String.length s ≤ String.length (foldr String.append s conts))%nat.
Proof.
  assert (∀ a b, String.length (a +:+ b) = (String.length a + String.length b)%nat) as Happ.
  { intros a b. induction a as [|x a IH]; simpl; [done|]. by rewrite <- IH. }
  induction 1 as [|l conts Hl _ IH]; simpl; [done|]. rewrite Happ.
  destruct l; [done|]. simpl. lia.
Qed.

(** ** Properties *)

(** A check always gives a verdict.  Whatever the peer sends or fails to send, and
    however the transport fails (in the ways [perform] foresees), the check of any non-ping
    type run under [perform] returns one of the codes of the status table. *)
Theorem check_always_concludes (node : Node) (ctx : env)
    (udp : string → string → Z → dns_outcome) (get : string → http_outcome)
    (Henv : env_ok ctx) (Hudp : ∀ ip name p, dns_ok (udp ip name p)) (Hget : ∀ url, http_ok (get url))
    (Hping : is_ping_type (check_type node) = false) :
  ∃ check (s : Status), _CHECKERS (check_type node) = Some check ∧
    perform (check node ctx udp get) = Ok (status_value s).
Proof.
  destruct (_CHECKERS (check_type node)) as [check|] eqn:Ec; [|by destruct (check_type node)].
  exists check. destruct (perform_conclusive (check node ctx udp get)) as [s Hs]; [|by exists s].
  by eapply checker_conclusive.
Qed.

(** C33: bad credentials are only reported when the server rejected them.  If the pop3, imap
    or ftp check (plain or TLS) returns [BAD_AUTH], the peer's stream contains a line that
    is the protocol's explicit rejection: a connection dropped or garbled in the middle of
    a login is never reported as a credential failure.  The connection is closed. *)
Theorem bad_auth_is_explicit (node : Node) (ctx : env) (body : io Z) (oc : option conn)
    (Henv : env_ok ctx)
    (Hbody : (check_type node ∈ [POP3; POP3S] ∧ body = pop3_body node) ∨
             (check_type node ∈ [IMAP; IMAPS] ∧ body = imap_body node) ∨
             (check_type node ∈ [FTP; FTPS] ∧ body = ftp_body node))
    (Hr : open_check_connection node ctx body = (oc, Ok (status_value BAD_AUTH))) :
  ∃ c ip c0, oc = Some c ∧ closed c = true ∧ resolve node ctx = Ok ip ∧
    peer_at ctx ip (effective_port node) (_IMPLICIT_TLS (check_type node)) = Connects c0 ∧
    ruled_out (inbound c0) (check_type node).
Proof.
  assert (meets body (λ s0, verdict (ruled_out s0 (check_type node)))) as Hm.
  { destruct Hbody as [[Ht ->]|[[Ht ->]|[Ht ->]]]; apply triple_meets; intros s0;
      rewrite !elem_of_cons, elem_of_nil in Ht; destruct Ht as [->|[->|[]]];
      auto using pop3_triple, imap_triple, ftp_triple. }
  pose proof (open_check_meets node ctx body _ Henv Hm) as H. rewrite Hr in H.
  destruct H as (c & ip & -> & Hc & Hip & c0 & Hp & _ & Hb). exists c, ip, c0.
  split_and!; [done..|]. by apply Hb.
Qed.

(** the reading loops end.  The loop that waits for the tagged IMAP response and the one
    that drains a multi-line FTP reply both end on every stream: each pass consumes a line,
    and the end of the stream ends them. *)
Theorem reader_loops_terminate (tag k : string) (c : conn) :
  (read_tagged_loop (S (String.length (inbound c))) tag c).2 ≠ Ok None ∧
  (drain_continuation (S (String.length (inbound c))) k c).2 ≠ Ok false.
Proof. split; [apply tagged_loop_total|apply continuation_total]; lia. Qed.

(** a multi-line FTP reply is consumed exactly.  On a stream that starts with a first
    line [NNN-...], continuation lines that do not start with the code and a space, and the
    closing line that does, [_read_reply] returns the first line and leaves the stream
    right after the closing line. *)
Theorem ftp_reply_drained (first final rest : string) (conts : list string) (c : conn)
    (Hfirst : full_line first) (Hdash : String.substring 3 1 first = "-")
    (Hconts : Forall (λ l, full_line l ∧
       String.prefix (String.substring 0 3 first +:+ " ") l = false) conts)
    (Hfinal : full_line final)
    (Hclose : String.prefix (String.substring 0 3 first +:+ " ") final = true)
    (Hc : inbound c = first +:+ foldr String.append (final +:+ rest) conts) :
  _read_reply c = (c <| inbound := rest |>, Ok first).
Proof.
  unfold _read_reply, io_bind. rewrite (readline_full first _ c Hfirst Hc).
  rewrite (full_line_nonempty first Hfirst), bool_decide_eq_true_2 by done. cbv beta iota.
  rewrite (continuation_drained _ conts final rest); [by destruct c|done..|by destruct c|].
  assert (inbound (c <| inbound := foldr String.append (final +:+ rest) conts |>) =
    foldr String.append (final +:+ rest) conts) as E by by destruct c.
  rewrite E. pose proof (foldr_append_length conts (final +:+ rest)) as Hlen.
  assert (Forall (λ l, is_empty l = false) conts) as Hne; [|apply Hlen in Hne; lia].
  eapply Forall_impl; [exact Hconts|]. intros l [Hl _]. by apply full_line_nonempty.
Qed.

(** A mail server that accepts the user name and rejects the password. *)
Definition demo_peer (s : string) : conn := MkConn s EndEOF [] None "" false.

Definition demo_ctx (s : string) : env := MkEnv (λ _, Some "192.0.2.1") (λ _ _ _, Connects (demo_peer s)).

Lemma demo_ctx_ok s : env_ok (demo_ctx s).
Proof. intros ip p tls. simpl. split_and!; intros e; simpl; try done. by intros ?%elem_of_nil. Qed.

Definition demo_mail : Node := (new_node "mail" POP3S) <| username := "u" |> <| password := "p" |>.

Definition demo_talk : string :=
  "+OK ready" +:+ CRLF +:+ "+OK" +:+ CRLF +:+ "-ERR bad password" +:+ CRLF.

Lemma check_always_concludes_witness :
  ∃ s : Status, perform (pop3_check demo_mail (demo_ctx "")).2 = Ok (status_value s).
Proof.
  edestruct (check_always_concludes demo_mail (demo_ctx "") (λ _ _ _, DnsTimeout) (λ _, HttpTimeout))
    as (check & s & [= <-] & Hs).
  - apply demo_ctx_ok.
  - intros. exact I.
  - intros. exact I.
  - reflexivity.
  - exists s. exact Hs.
Defined.

Lemma bad_auth_is_explicit_witness :
  ruled_out demo_talk POP3S ∧
  (pop3_check demo_mail (demo_ctx demo_talk)).2 = Ok (status_value BAD_AUTH).
Proof.
  destruct (open_check_connection demo_mail (demo_ctx demo_talk) (pop3_body demo_mail))
    as [oc r] eqn:E.
  assert (r = Ok (status_value BAD_AUTH)) as ->.
  { change r with (snd (oc, r)). rewrite <- E. vm_compute. reflexivity. }
  destruct (bad_auth_is_explicit demo_mail (demo_ctx demo_talk) (pop3_body demo_mail) oc)
    as (c & ip & c0 & _ & _ & _ & Hp & Hro).
  - apply demo_ctx_ok.
  - left. split; [simpl; set_solver|reflexivity].
  - exact E.
  - split; [|unfold pop3_check; rewrite E; reflexivity].
    injection Hp as <-. exact Hro.
Defined.

Lemma ftp_reply_drained_witness :
  _read_reply (demo_peer ("220-hello" +:+ CRLF +:+ "more" +:+ CRLF +:+ "220 ready" +:+ CRLF +:+ "331 x"))
  = (demo_peer "331 x", Ok ("220-hello" +:+ CRLF)).
Proof.
  apply (ftp_reply_drained ("220-hello" +:+ CRLF) ("220 ready" +:+ CRLF) "331 x" ["more" +:+ CRLF]
    (demo_peer ("220-hello" +:+ CRLF +:+ "more" +:+ CRLF +:+ "220 ready" +:+ CRLF +:+ "331 x"))).
  - split; [reflexivity|vm_compute; discriminate].
  - reflexivity.
  - repeat constructor. vm_compute. discriminate.
  - split; [reflexivity|vm_compute; discriminate].
  - reflexivity.
  - reflexivity.
Defined.
