(* ===== verification/Ping.v ===== *)
(** * ICMP echo: framing, demultiplexing and the ping check (src/psysmon/checks/ping.py)

    Bytes are integers in [0, 256).  [PingSvc] is the part of [PingService] the probes
    share: the 32-bit counter, the pending table and which futures are done.  A probe is
    run against an environment that says, per echo, the random nonce, whether the send
    fails, and which packets arrive before the attempt is given up. *)
From Stdlib Require Import Zbitwise.
From S2P Require Import Prelude Status Model PingPool Checks.

Definition ICMP_ECHO_REQUEST : Z := 8.
Definition ICMP_ECHO_REPLY : Z := 0.
Definition ICMP6_ECHO_REQUEST : Z := 128.
Definition ICMP6_ECHO_REPLY : Z := 129.
Definition _NONCE_LEN : nat := 16.
Definition _RETRIES : nat := 2.
Definition HEADER_SIZE : nat := 8.

Abbreviation bytes := (list Z).

Definition is_byte (b : Z) : Prop := 0 <= b < 256.

(** ** Framing *)

(** Sum of the 16-bit big-endian words, an odd last byte padded with zero. *)
Fixpoint words_sum (data : bytes) : Z :=
  match data with
  | [] => 0
  | [a] => Z.shiftl a 8 + 0
  | a :: b :: data' => Z.shiftl a 8 + b + words_sum data'
  end.

(** [while total >> 16]; each pass makes the total smaller. *)
Fixpoint fold_carries (fuel : nat) (total : Z) : Z :=
  if Z.shiftr total 16 =? 0 then total
  else match fuel with
       | O => total
       | S fuel => fold_carries fuel (Z.land total 0xFFFF + Z.shiftr total 16)
       end.

Definition icmp_checksum (data : bytes) : Z :=
  let total := words_sum data in
  Z.land (Z.lnot (fold_carries (Z.to_nat total) total)) 0xFFFF.

Definition be16 (x : Z) : bytes := [Z.shiftr x 8; Z.land x 0xFF].

(** [struct.Struct("!BBHHH").pack] *)
Definition pack (ty code ck ident seq : Z) : bytes :=
  [ty; code] ++ be16 ck ++ be16 ident ++ be16 seq.

Definition unpack16 (hi lo : Z) : Z := Z.shiftl hi 8 + lo.

Definition build_echo_request (ident seq : Z) (payload : bytes) : bytes :=
  let ident := Z.land ident 0xFFFF in
  let seq := Z.land seq 0xFFFF in
  let header := pack ICMP_ECHO_REQUEST 0 0 ident seq in
  let checksum := icmp_checksum (header ++ payload) in
  pack ICMP_ECHO_REQUEST 0 checksum ident seq ++ payload.

Definition build_echo_request6 (ident seq : Z) (payload : bytes) : bytes :=
  pack ICMP6_ECHO_REQUEST 0 0 (Z.land ident 0xFFFF) (Z.land seq 0xFFFF) ++ payload.

(** The header at the front of [icmp]: type, identifier, sequence, and the rest. *)
Definition unpack (icmp : bytes) : option (Z * Z * Z * bytes) :=
  match icmp with
  | ty :: _ :: _ :: _ :: i1 :: i0 :: s1 :: s0 :: rest => Some (ty, unpack16 i1 i0, unpack16 s1 s0, rest)
  | _ => None
  end.

Definition parse_echo_reply (packet : bytes) : option (Z * Z * bytes) :=
  if (length packet <? 20)%nat then None
  else
    let version_ihl := default 0 (head packet) in
    if negb (Z.shiftr version_ihl 4 =? 4) then None
    else
      let ihl := Z.land version_ihl 0x0F * 4 in
      if (ihl <? 20) || (Z.of_nat (length packet) <? ihl + Z.of_nat HEADER_SIZE) then None
      else match unpack (drop (Z.to_nat ihl) packet) with
           | Some (ty, ident, seq, payload) =>
               if negb (ty =? ICMP_ECHO_REPLY) then None else Some (ident, seq, payload)
           | None => None
           end.

Definition parse_echo_reply6 (packet : bytes) : option (Z * Z * bytes) :=
  if (length packet <? HEADER_SIZE)%nat then None
  else match unpack packet with
       | Some (ty, ident, seq, payload) =>
           if negb (ty =? ICMP6_ECHO_REPLY) then None else Some (ident, seq, payload)
       | None => None
       end.

Definition parse_for (f : family) : bytes → option (Z * Z * bytes) :=
  match f with AF_INET => parse_echo_reply | AF_INET6 => parse_echo_reply6 end.

(** ** Construction *)

Definition _validate_counts (send_pings min_pings : Z) : res Checks.exn (Z * Z) :=
  if (send_pings <? 1) || (min_pings <? 1) then Raise ValueError
  else if send_pings <? min_pings then Raise ValueError
  else Ok (send_pings, min_pings).

(** ** Keys and pending probes *)

Abbreviation future := nat.

Record PingSvc : Type := MkSvc {
  counter : Z;
  pending : gmap (Z * Z) (future * bytes);
  done_ : gset future;
  next_future : future
}.

#[export] Instance set_counter : SetField counter := λ f s,
  let '(MkSvc a b c d) := s in MkSvc (f a) b c d.
#[export] Instance set_pending : SetField pending := λ f s,
  let '(MkSvc a b c d) := s in MkSvc a (f b) c d.
#[export] Instance set_done : SetField done_ := λ f s,
  let '(MkSvc a b c d) := s in MkSvc a b (f c) d.
#[export] Instance set_next_future : SetField next_future := λ f s,
  let '(MkSvc a b c d) := s in MkSvc a b c (f d).

Definition key_of (value : Z) : Z * Z := (Z.land (Z.shiftr value 16) 0xFFFF, Z.land value 0xFFFF).

Definition _next_key (svc : PingSvc) : PingSvc * (Z * Z) :=
  let value := Z.land (counter svc) 0xFFFFFFFF in
  (svc <| counter := Z.land (counter svc + 1) 0xFFFFFFFF |>, key_of value).

(** A new future under a new key. *)
Definition register (nonce : bytes) (svc : PingSvc) : PingSvc * (Z * Z) * future :=
  let '(svc1, key) := _next_key svc in
  let f := next_future svc1 in
  (svc1 <| pending := <[key := (f, nonce)]> (pending svc1) |> <| next_future := S f |>, key, f).

Fixpoint startswith (s prefix : bytes) : bool :=
  match prefix, s with
  | [], _ => true
  | p :: prefix', x :: s' => (p =? x) && startswith s' prefix'
  | _ :: _, [] => false
  end.

(** [_on_readable], for a packet received on a socket of family [f]. *)
Definition _on_readable (svc : PingSvc) (p : family * bytes) : PingSvc :=
  let '(f, packet) := p in
  match parse_for f packet with
  | None => svc
  | Some (ident, seq, payload) =>
      match pending svc !! (ident, seq) with
      | None => svc
      | Some (fut, expected_nonce) =>
          if negb (startswith payload expected_nonce) then svc
          else svc <| done_ := {[fut]} ∪ done_ svc |>
      end
  end.

Definition pop_key (key : Z * Z) (svc : PingSvc) : PingSvc :=
  svc <| pending := delete key (pending svc) |>.

(** ** Probes *)

(** One echo: its nonce, the errno of a failing send, and the packets that arrive while it
    is waited for. *)
Record echo : Type := MkEcho { nonce : bytes; send_fails : option Z; arrivals : list (family * bytes) }.

(** The loop of [_probe]. *)
Fixpoint probe_loop (echoes : list echo) (svc : PingSvc) : PingSvc * res Checks.exn Z :=
  match echoes with
  | [] => (svc, Ok (status_value UNPINGABLE))
  | e :: echoes' =>
      let '(svc1, key, f) := register (nonce e) svc in
      match send_fails e with
      | Some errno => (pop_key key svc1, Raise (OSErr errno))
      | None =>
          let svc2 := foldl _on_readable svc1 (arrivals e) in
          if bool_decide (f ∈ done_ svc2) then (pop_key key svc2, Ok (status_value OK))
          else probe_loop echoes' (pop_key key svc2)
      end
  end.

Definition _probe (attempt : nat → echo) (svc : PingSvc) : PingSvc * res Checks.exn Z :=
  probe_loop (attempt <$> List.seq 0 (1 + _RETRIES)) svc.

(** The sends of [_probe_loss_tolerant], with the packets that arrive meanwhile. *)
Fixpoint send_all (echoes : list echo) (svc : PingSvc) : PingSvc * list (Z * Z) * list future :=
  match echoes with
  | [] => (svc, [], [])
  | e :: echoes' =>
      let '(svc1, key, f) := register (nonce e) svc in
      let svc2 := foldl _on_readable svc1 (arrivals e) in
      let '(svc3, keys, fs) := send_all echoes' svc2 in (svc3, key :: keys, f :: fs)
  end.

Definition count_done (svc : PingSvc) (fs : list future) : nat :=
  length (filter (λ f, f ∈ done_ svc) fs).

Definition classify (received min_pings : Z) : Z :=
  if min_pings <=? received then OK else if received =? 0 then UNPINGABLE else DEGRADED.

Definition _probe_loss_tolerant (attempt : nat → echo) (late : list (family * bytes))
    (send_pings min_pings : Z) (svc : PingSvc) : PingSvc * Z :=
  let '(svc1, keys, fs) := send_all (attempt <$> List.seq 0 (Z.to_nat send_pings)) svc in
  let svc2 := foldl _on_readable svc1 late in
  let received := Z.of_nat (count_done svc2 fs) in
  (foldl (λ s k, pop_key k s) svc2 keys, classify received min_pings).

(** ** The check *)

(** The effective counts of a node: its overrides, clamped. *)
Definition effective_counts (default_send default_min : Z) (node : Node) : Z * Z :=
  let send := default default_send (send_pings node) in
  let min_ := default default_min (min_pings node) in
  let send := Z.max 1 send in
  (send, Z.max 1 (Z.min min_ send)).

(** The [except] clauses of [check]. *)
Definition ping_status (r : res Checks.exn Z) : res Checks.exn Z :=
  match r with
  | Ok c => Ok c
  | Raise NoDnsError | Raise GaiError => Ok (status_value NO_DNS)
  | Raise TimeoutError => Ok (status_value UNPINGABLE)
  | Raise (OSErr n) =>
      if (n =? ENETUNREACH) || (n =? EHOSTUNREACH) || (n =? EHOSTDOWN) || (n =? ETIMEDOUT)
      then Ok (map_oserror n) else Ok (status_value UNPINGABLE)
  | Raise e => Raise e
  end.

(** The pools, the operating system and the shared probe state. *)
Record world : Type := MkWorld { w4 : _Pool; w6 : _Pool; wos : OS; wsvc : PingSvc }.

(** [lookup] is the resolver; [sock_errno] the errno of a socket that cannot be opened. *)
Definition check (default_send default_min : Z) (node : Node) (source_ip : option string)
    (lookup : string → family → res Checks.exn string) (sock_errno : Z)
    (attempt : nat → echo) (late : list (family * bytes)) (w : world)
    : world * res Checks.exn Z :=
  let is_v6 := bool_decide (check_type node = PING6) in
  match lookup (hostname node) (if is_v6 then AF_INET6 else AF_INET) with
  | Raise e => (w, ping_status (Raise e))
  | Ok ip =>
      if bool_decide (ip = "") then (w, ping_status (Raise NoDnsError))
      else
        let '(pool', os', r) := _socket_for (if is_v6 then w6 w else w4 w) source_ip (wos w) in
        let w1 := if is_v6 then MkWorld (w4 w) pool' os' (wsvc w)
                  else MkWorld pool' (w6 w) os' (wsvc w) in
        match r with
        | Raise _ => (w1, ping_status (Raise (OSErr sock_errno)))
        | Ok _ =>
            let '(send, min_) := effective_counts default_send default_min node in
            if send <=? 1 then
              let '(svc', r) := _probe attempt (wsvc w1) in
              (MkWorld (w4 w1) (w6 w1) (wos w1) svc', ping_status r)
            else
              let '(svc', c) := _probe_loss_tolerant attempt late send min_ (wsvc w1) in
              (MkWorld (w4 w1) (w6 w1) (wos w1) svc', Ok c)
        end
  end.

(** ** The checksum *)

Lemma fold_carries_spec fuel total :
  0 <= total → (Z.to_nat total ≤ fuel)%nat →
  let r := fold_carries fuel total in
  0 <= r < 65536 ∧ r mod 65535 = total mod 65535 ∧ (0 < total → 0 < r).
Proof.
  revert total. induction fuel as [|fuel IH]; intros total H0 Hf; simpl;
    rewrite Z.shiftr_div_pow2 by lia; change (2 ^ 16) with 65536.
  { assert (total = 0) as -> by lia. simpl. lia. }
  destruct (Z.eqb_spec (total / 65536) 0) as [E|E].
  { assert (total < 65536) by (apply Z.div_small_iff in E; lia). lia. }
  change (Z.land total 0xFFFF) with (Z.land total (Z.ones 16)). rewrite Z.land_ones by lia.
  change (2 ^ 16) with 65536. pose proof (Z.div_mod total 65536). pose proof (Z.mod_pos_bound total 65536).
  assert (0 < total / 65536) by (assert (0 <= total / 65536) by (apply Z.div_pos; lia); lia).
  set (q := total / 65536) in *. set (m := total mod 65536) in *.
  destruct (IH (m + q)) as (Hr & Hm & Hp); [lia|lia|]. split_and!; [lia|lia| |lia].
  rewrite Hm. replace total with (m + q + q * 65535) by lia. by rewrite Z.mod_add.
Qed.

Lemma list_two_ind {A} (P : list A → Prop) :
  P [] → (∀ a, P [a]) → (∀ a b l, P l → P (a :: b :: l)) → ∀ l, P l.
Proof. intros H0 H1 H2. fix IH 1. intros [|a [|b l]]; [done|done|]. by apply H2. Qed.

Lemma words_sum_nonneg data : Forall is_byte data → 0 <= words_sum data.
Proof.
  induction data as [|a|a b data IH] using list_two_ind; intros Hb; cbn [words_sum]; [done| |].
  - apply Forall_cons in Hb as [[? ?] _]. rewrite Z.shiftl_mul_pow2 by lia. lia.
  - apply Forall_cons in Hb as [[? ?] [[? ?] Hb]%Forall_cons]. specialize (IH Hb).
    rewrite Z.shiftl_mul_pow2 by lia. lia.
Qed.

Lemma unpack_be16 x : unpack16 (Z.shiftr x 8) (Z.land x 0xFF) = x.
Proof.
  unfold unpack16. rewrite Z.shiftr_div_pow2, Z.shiftl_mul_pow2 by lia.
  change 0xFF with (Z.ones 8). rewrite Z.land_ones by lia.
  pose proof (Z.div_mod x (2 ^ 8)). lia.
Qed.

Lemma be16_bytes x : 0 <= x < 65536 → Forall is_byte (be16 x).
Proof.
  intros Hx. unfold be16. rewrite Z.shiftr_div_pow2 by lia.
  change 0xFF with (Z.ones 8). rewrite Z.land_ones by lia. change (2 ^ 8) with 256.
  repeat constructor; try (apply Z.mod_pos_bound; lia); [apply Z.div_pos; lia|].
  apply Z.div_lt_upper_bound; lia.
Qed.

Lemma words_sum_pack ty c ck ident seq payload :
  words_sum (pack ty c ck ident seq ++ payload) =
  unpack16 ty c + ck + ident + seq + words_sum payload.
Proof.
  unfold pack, be16. cbn [app words_sum].
  assert (∀ x, Z.shiftl (Z.shiftr x 8) 8 + Z.land x 0xFF = x) as Hx by apply unpack_be16.
  pose proof (Hx ck). pose proof (Hx ident). pose proof (Hx seq). unfold unpack16. lia.
Qed.

Lemma land16 x : 0 <= Z.land x 0xFFFF < 65536.
Proof. change 0xFFFF with (Z.ones 16). rewrite Z.land_ones by lia. apply Z.mod_pos_bound. lia. Qed.

Lemma complement16 r : 0 <= r < 65536 → Z.land (Z.lnot r) 0xFFFF = 65535 - r.
Proof.
  intros Hr. change (Z.land (Z.lnot r) 0xFFFF) with (Z.land (Z.lnot r) (Z.ones 16)). rewrite Z.land_ones by lia. unfold Z.lnot.
  change (2 ^ 16) with 65536. symmetry. apply (Z.mod_unique_pos _ _ (-1)); lia.
Qed.

Lemma checksum_spec data :
  0 <= words_sum data →
  let r := fold_carries (Z.to_nat (words_sum data)) (words_sum data) in
  icmp_checksum data = 65535 - r ∧ 0 <= r < 65536 ∧
  r mod 65535 = words_sum data mod 65535 ∧ (0 < words_sum data → 0 < r).
Proof.
  intros H0. destruct (fold_carries_spec (Z.to_nat (words_sum data)) (words_sum data)) as (Hr & Hm & Hp);
    [done|done|]. split_and!; [by apply complement16|lia|lia|done|done].
Qed.

(** ** Framing round trips *)

Lemma unpack_pack ty c ck ident seq payload :
  unpack (pack ty c ck ident seq ++ payload) = Some (ty, ident, seq, payload).
Proof. unfold unpack, pack, be16. cbn [app]. by rewrite !unpack_be16. Qed.

(** ** Keys *)

Lemma key_of_value value : 0 <= value < 2 ^ 32 → let '(i, s) := key_of value in i * 65536 + s = value.
Proof.
  intros Hv. unfold key_of. change 0xFFFF with (Z.ones 16). rewrite !Z.land_ones by lia.
  rewrite Z.shiftr_div_pow2 by lia. change (2 ^ 16) with 65536.
  rewrite (Z.mod_small (value / 65536)); [pose proof (Z.div_mod value 65536); lia|].
  split; [apply Z.div_pos; lia|]. apply Z.div_lt_upper_bound; lia.
Qed.

(** The [n]-th key after a counter value. *)
Definition nth_key (c : Z) (n : nat) : Z * Z := key_of ((c + Z.of_nat n) mod 2 ^ 32).

Fixpoint advance (n : nat) (svc : PingSvc) : PingSvc :=
  match n with O => svc | S n => advance n (_next_key svc).1 end.

Lemma next_key_counter svc :
  counter (_next_key svc).1 = (counter svc + 1) mod 2 ^ 32 ∧
  (_next_key svc).2 = key_of (counter svc mod 2 ^ 32).
Proof.
  unfold _next_key. change 0xFFFFFFFF with (Z.ones 32). rewrite !Z.land_ones by lia. by destruct svc.
Qed.

Lemma nth_key_advance n svc : (_next_key (advance n svc)).2 = nth_key (counter svc) n.
Proof.
  revert svc. induction n as [|n IH]; intros svc; cbn [advance].
  - rewrite (proj2 (next_key_counter svc)). unfold nth_key. by rewrite Z.add_0_r.
  - rewrite IH, (proj1 (next_key_counter svc)). unfold nth_key. f_equal.
    rewrite Z.add_mod_idemp_l by lia. f_equal. lia.
Qed.

Lemma key_of_inj v w : 0 <= v < 2 ^ 32 → 0 <= w < 2 ^ 32 → key_of v = key_of w → v = w.
Proof.
  intros Hv%key_of_value Hw%key_of_value E. rewrite E in Hv. destruct (key_of w). lia.
Qed.
