(* ===== verification/PingSpec.v ===== *)
(** * What the ping check promises

    Echo requests carry a checksum every receiver accepts; replies are parsed exactly;
    keys in flight do not collide; a waiter is only woken by a packet that carries its key
    and its nonce; the single-probe verdict is the one its answers imply. *)
From S2P Require Import Prelude Status Model PingPool Checks Ping.

(** ** Answers *)

Definition answers (k : Z * Z) (n : bytes) (p : family * bytes) : bool :=
  match parse_for p.1 p.2 with
  | Some (ident, seq, payload) => bool_decide ((ident, seq) = k) && startswith payload n
  | None => false
  end.

Definition answered (k : Z * Z) (n : bytes) (arrivals : list (family * bytes)) : bool :=
  existsb (answers k n) arrivals.

Lemma on_readable_frame svc p :
  pending (_on_readable svc p) = pending svc ∧ counter (_on_readable svc p) = counter svc ∧
  next_future (_on_readable svc p) = next_future svc.
Proof. destruct svc. unfold _on_readable. destruct p. by repeat case_match. Qed.

Lemma on_readable_done svc p f :
  f ∈ done_ (_on_readable svc p) ↔
  f ∈ done_ svc ∨ ∃ k n, pending svc !! k = Some (f, n) ∧ answers k n p = true.
Proof.
  unfold _on_readable, answers. destruct p as [fam packet]. simpl.
  destruct (parse_for fam packet) as [[[i s] payload]|]; [|naive_solver].
  destruct (pending svc !! (i, s)) as [[g n]|] eqn:Ep; last first.
  { split; [naive_solver|]. intros [?|(k & n & Hk & Hb)]; [done|]. to_prop. naive_solver. }
  destruct (startswith payload n) eqn:Es; simpl.
  - replace (done_ (set_done _ svc)) with ({[g]} ∪ done_ svc) by by destruct svc.
    rewrite elem_of_union, elem_of_singleton. split.
    + intros [->|?]; [|by left]. right. exists (i, s), n. split; [done|]. to_prop. done.
    + intros [?|(k & n' & Hk & Hb)]; [by right|]. to_prop. left. naive_solver.
  - split; [by left|]. intros [?|(k & n' & Hk & Hb)]; [done|]. to_prop. naive_solver congruence.
Qed.

Lemma arrivals_frame svc l :
  let svc' := foldl _on_readable svc l in
  pending svc' = pending svc ∧ counter svc' = counter svc ∧ next_future svc' = next_future svc.
Proof.
  revert svc. induction l as [|p l IH]; intros svc; simpl; [done|].
  destruct (IH (_on_readable svc p)) as (-> & -> & ->). apply on_readable_frame.
Qed.

Lemma arrivals_done svc l f :
  f ∈ done_ (foldl _on_readable svc l) ↔
  f ∈ done_ svc ∨ ∃ k n, pending svc !! k = Some (f, n) ∧ answered k n l = true.
Proof.
  revert svc. induction l as [|p l IH]; intros svc; simpl.
  - split; [by left|]. intros [?|(?&?&?&?)]; done.
  - rewrite IH, on_readable_done. destruct (on_readable_frame svc p) as (-> & _ & _).
    setoid_rewrite orb_true_iff. naive_solver.
Qed.

(** Futures are numbered in order. *)
Record svc_ok (svc : PingSvc) : Prop := {
  ok_pending : ∀ k f n, pending svc !! k = Some (f, n) → (f < next_future svc)%nat;
  ok_done : ∀ f, f ∈ done_ svc → (f < next_future svc)%nat
}.

Lemma register_spec nonce svc :
  let '(svc', k, f) := register nonce svc in
  k = key_of (counter svc mod 2 ^ 32) ∧ f = next_future svc ∧
  pending svc' = <[k := (f, nonce)]> (pending svc) ∧ done_ svc' = done_ svc ∧
  counter svc' = (counter svc + 1) mod 2 ^ 32 ∧ next_future svc' = S (next_future svc).
Proof.
  unfold register. pose proof (next_key_counter svc) as [Hc Hk].
  assert (pending (_next_key svc).1 = pending svc ∧ done_ (_next_key svc).1 = done_ svc ∧
    next_future (_next_key svc).1 = next_future svc) as (E1 & E2 & E3) by by destruct svc.
  destruct (_next_key svc) as [svc1 k]. simpl in *. subst.
  destruct svc1; simpl in *. subst. done.
Qed.

Lemma register_ok nonce svc : svc_ok svc → svc_ok (register nonce svc).1.1.
Proof.
  intros [Hp Hd]. pose proof (register_spec nonce svc) as H.
  destruct (register nonce svc) as [[svc' k] f]. simpl. destruct H as (_ & -> & Ep & Ed & _ & En).
  split; rewrite ?Ep, ?Ed, En.
  - intros k' f n. rewrite lookup_insert_Some. intros [[_ [= <- _]]|[_ ?%Hp]]; lia.
  - intros f ?%Hd. lia.
Qed.

Lemma arrivals_ok svc l : svc_ok svc → svc_ok (foldl _on_readable svc l).
Proof.
  intros [Hp Hd]. destruct (arrivals_frame svc l) as (Ep & _ & En).
  split; rewrite ?Ep, En; [done|]. intros f [?%Hd|(k & n & ?%Hp & _)]%arrivals_done; done.
Qed.

Lemma pop_ok k svc : svc_ok svc → svc_ok (pop_key k svc).
Proof.
  intros [Hp Hd]. destruct svc; simpl in *. split; simpl; [|done].
  intros k' f n [_ ?]%lookup_delete_Some. by eapply Hp.
Qed.

(** ** The verdict of a probe, from its answers alone *)

Fixpoint verdict_of (c : Z) (i : nat) (echoes : list echo) : res Checks.exn Z :=
  match echoes with
  | [] => Ok (status_value UNPINGABLE)
  | e :: echoes' =>
      match send_fails e with
      | Some errno => Raise (OSErr errno)
      | None => if answered (nth_key c i) (nonce e) (arrivals e) then Ok (status_value OK)
                else verdict_of c (S i) echoes'
      end
  end.

(** Nothing but the keys of the probe may be missing afterwards. *)
Definition cleaned (c : Z) (i n : nat) (svc svc' : PingSvc) : Prop :=
  ∀ k, pending svc' !! k = pending svc !! k ∨
       (pending svc' !! k = None ∧ ∃ j, (i ≤ j < i + n)%nat ∧ k = nth_key c j).

Lemma probe_loop_spec c i echoes svc :
  svc_ok svc → counter svc mod 2 ^ 32 = (c + Z.of_nat i) mod 2 ^ 32 →
  (probe_loop echoes svc).2 = verdict_of c i echoes ∧ svc_ok (probe_loop echoes svc).1 ∧
  cleaned c i (length echoes) svc (probe_loop echoes svc).1.
Proof.
  revert i svc. induction echoes as [|e echoes IH]; intros i svc Hok Hc; cbn [probe_loop verdict_of length].
  { split_and!; [done..|]. intros k. by left. }
  pose proof (register_ok (nonce e) svc Hok) as Hok1. pose proof (register_spec (nonce e) svc) as H.
  destruct (register (nonce e) svc) as [[svc1 k] f]. cbn [fst] in Hok1.
  destruct H as (Hk & Hf & Hp & Hd & Hcnt & Hn). rewrite Hc in Hk.
  change (k = nth_key c i) in Hk.
  assert (∀ svc2, pending svc2 = pending svc1 → ∀ n, (0 < n)%nat → cleaned c i n svc (pop_key k svc2)) as Hclean.
  { intros svc2 E n Hlt k'. replace (pending (pop_key k svc2)) with (delete k (pending svc2))
      by by destruct svc2. rewrite E, Hp, delete_insert_eq. destruct (decide (k = k')) as [<-|].
    - right. rewrite lookup_delete_eq. split; [done|]. exists i. split; [lia|done].
    - left. by rewrite lookup_delete_ne. }
  destruct (send_fails e) as [errno|].
  { split_and!; [done|by apply pop_ok|]. apply Hclean; [done|simpl; lia]. }
  destruct (arrivals_frame svc1 (arrivals e)) as (Ep & Ec & En).
  assert (f ∈ done_ (foldl _on_readable svc1 (arrivals e)) ↔
    answered (nth_key c i) (nonce e) (arrivals e) = true) as Hdone.
  { rewrite arrivals_done, Hd, Hp. split.
    - intros [Hin|(k' & n & [[<- [= <-]]|[_ Hk']]%lookup_insert_Some & Ha)]; [|by rewrite <- Hk|].
      + apply (ok_done _ Hok) in Hin. lia.
      + apply (ok_pending _ Hok) in Hk'. lia.
    - intros Ha. right. exists k, (nonce e). rewrite lookup_insert_eq.
      split; [done|]. by rewrite Hk. }
  case_bool_decide as Hb.
  - rewrite (proj1 Hdone Hb). split_and!; [done|by apply pop_ok, arrivals_ok|].
    apply Hclean; [done|simpl; lia].
  - destruct (answered _ _ _) eqn:Ha; [naive_solver|].
    destruct (IH (S i) (pop_key k (foldl _on_readable svc1 (arrivals e)))) as (Hv & Hok' & Hcl).
    { by apply pop_ok, arrivals_ok. }
    { replace (counter (pop_key k (foldl _on_readable svc1 (arrivals e)))) with (counter svc1)
        by (rewrite <- Ec; by destruct (foldl _on_readable svc1 (arrivals e))).
      rewrite Hcnt, Z.mod_mod, <- Z.add_mod_idemp_l, Hc, Z.add_mod_idemp_l by lia. f_equal. lia. }
    split_and!; [done|done|]. intros k'. destruct (Hcl k') as [->|(-> & j & ? & ->)].
    + apply (Hclean _ Ep); simpl; lia.
    + right. split; [done|]. exists j. split; [simpl; lia|done].
Qed.

(** ** Loss-tolerant probes *)

Definition all_arrivals (echoes : list echo) : list (family * bytes) := concat (arrivals <$> echoes).

Lemma answered_app k n l l' : answered k n (l ++ l') = answered k n l || answered k n l'.
Proof. unfold answered. by rewrite existsb_app. Qed.

Lemma nth_key_inj c i j : (i < j)%nat → Z.of_nat j < Z.of_nat i + 2 ^ 32 → nth_key c i ≠ nth_key c j.
Proof.
  unfold nth_key. intros Hlt Hb E. pose proof (Z.mod_pos_bound (c + Z.of_nat i) (2 ^ 32)).
  pose proof (Z.mod_pos_bound (c + Z.of_nat j) (2 ^ 32)).
  apply key_of_inj in E; [|lia..]. pose proof (Z.div_mod (c + Z.of_nat i) (2 ^ 32)).
  pose proof (Z.div_mod (c + Z.of_nat j) (2 ^ 32)). nia.
Qed.

(** The state after one echo of the loop: registered, and its arrivals read. *)
Definition sent_one (e : echo) (svc : PingSvc) : PingSvc :=
  foldl _on_readable (register (nonce e) svc).1.1 (arrivals e).

Lemma sent_one_spec c i e svc :
  svc_ok svc → counter svc mod 2 ^ 32 = (c + Z.of_nat i) mod 2 ^ 32 →
  svc_ok (sent_one e svc) ∧ counter (sent_one e svc) mod 2 ^ 32 = (c + Z.of_nat (S i)) mod 2 ^ 32 ∧
  next_future (sent_one e svc) = S (next_future svc) ∧
  pending (sent_one e svc) = <[nth_key c i := (next_future svc, nonce e)]> (pending svc) ∧
  register (nonce e) svc = ((register (nonce e) svc).1.1, nth_key c i, next_future svc) ∧
  ∀ g, g ∈ done_ (sent_one e svc) ↔ g ∈ done_ svc ∨
    ∃ k n, <[nth_key c i := (next_future svc, nonce e)]> (pending svc) !! k = Some (g, n) ∧
           answered k n (arrivals e) = true.
Proof.
  intros Hok Hc. unfold sent_one. pose proof (register_ok (nonce e) svc Hok) as Hok1.
  pose proof (register_spec (nonce e) svc) as H.
  destruct (register (nonce e) svc) as [[svc1 k] f]. cbn [fst] in *.
  destruct H as (Hk & Hf & Hp & Hd & Hcnt & Hn). rewrite Hc in Hk. change (k = nth_key c i) in Hk.
  destruct (arrivals_frame svc1 (arrivals e)) as (Ep & Ec & En).
  split_and!; [by apply arrivals_ok| |congruence|congruence|congruence|].
  - rewrite Ec, Hcnt, Z.mod_mod, <- Z.add_mod_idemp_l, Hc, Z.add_mod_idemp_l by lia. f_equal. lia.
  - intros g. rewrite arrivals_done, Hd, Hp. by subst.
Qed.

Lemma send_all_cons e echoes svc :
  send_all (e :: echoes) svc =
  (let '(svc3, keys, fs) := send_all echoes (sent_one e svc) in
   (svc3, (register (nonce e) svc).1.2 :: keys, (register (nonce e) svc).2 :: fs)).
Proof.
  cbn [send_all]. unfold sent_one. by destruct (register (nonce e) svc) as [[svc1 k] f].
Qed.

(** Keys, futures and table after the sends. *)
Lemma send_all_frame c i echoes svc :
  svc_ok svc → counter svc mod 2 ^ 32 = (c + Z.of_nat i) mod 2 ^ 32 →
  let '(svc', keys, fs) := send_all echoes svc in
  svc_ok svc' ∧ keys = nth_key c <$> List.seq i (length echoes) ∧
  fs = List.seq (next_future svc) (length echoes) ∧
  ∀ k, k ∉ keys → pending svc' !! k = pending svc !! k.
Proof.
  revert i svc. induction echoes as [|e echoes IH]; intros i svc Hok Hc; [done|].
  rewrite send_all_cons. destruct (sent_one_spec c i e svc Hok Hc) as (Hok1 & Hc1 & Hn1 & Hp1 & Hreg & _).
  specialize (IH (S i) (sent_one e svc) Hok1 Hc1).
  destruct (send_all echoes (sent_one e svc)) as [[svc3 keys] fs]. destruct IH as (Hok3 & -> & -> & Hpk).
  rewrite Hreg, Hn1. cbn [fst snd length List.seq fmap list_fmap]. split_and!; [done..|].
  intros k Hk. apply not_elem_of_cons in Hk as [Hk1 Hk2]. rewrite Hpk by done.
  by rewrite Hp1, lookup_insert_ne.
Qed.

(** A future registered before the sends, under a key they do not reuse. *)
Lemma send_all_old c i echoes svc g n k :
  svc_ok svc → counter svc mod 2 ^ 32 = (c + Z.of_nat i) mod 2 ^ 32 →
  (∀ k' n', pending svc !! k' = Some (g, n') → k' = k ∧ n' = n) → pending svc !! k = Some (g, n) →
  k ∉ nth_key c <$> List.seq i (length echoes) →
  g ∈ done_ (send_all echoes svc).1.1 ↔ g ∈ done_ svc ∨ answered k n (all_arrivals echoes) = true.
Proof.
  revert i svc. induction echoes as [|e echoes IH]; intros i svc Hok Hc Huniq Hk Hfresh.
  { cbn. split; [by left|]. by intros [?|?]. }
  rewrite send_all_cons. destruct (sent_one_spec c i e svc Hok Hc) as (Hok1 & Hc1 & Hn1 & Hp1 & Hreg & Hd1).
  cbn [length List.seq fmap list_fmap] in Hfresh. apply not_elem_of_cons in Hfresh as [Hk1 Hfresh].
  assert (g ≠ next_future svc) as Hg by (apply (ok_pending _ Hok) in Hk; lia).
  specialize (IH (S i) (sent_one e svc) Hok1 Hc1).
  destruct (send_all echoes (sent_one e svc)) as [[svc3 keys] fs]. cbn [fst] in *.
  rewrite IH, Hd1; clear IH; [| | |exact Hfresh]; rewrite ?Hp1.
  - unfold all_arrivals. cbn [fmap list_fmap concat]. rewrite answered_app, orb_true_iff.
    split; [intros [[?|(k' & n' & Hl & Ha)]|?]|intros [?|[?|?]]]; try tauto.
    + right. left. rewrite lookup_insert_Some in Hl. destruct Hl as [[_ [= ? _]]|[_ Hl]]; [congruence|].
      apply Huniq in Hl as [-> ->]. done.
    + left. right. exists k, n. rewrite lookup_insert_ne by done. done.
  - intros k' n'. rewrite lookup_insert_Some. intros [[_ [= ? _]]|[_ ?]]; [congruence|]. by apply Huniq.
  - by rewrite lookup_insert_ne.
Qed.

(** Each echo is answered by what arrives from its own send on. *)
Lemma send_all_done c i echoes svc j e :
  svc_ok svc → counter svc mod 2 ^ 32 = (c + Z.of_nat i) mod 2 ^ 32 →
  Z.of_nat (length echoes) <= 2 ^ 32 → echoes !! j = Some e →
  (next_future svc + j)%nat ∈ done_ (send_all echoes svc).1.1 ↔
  answered (nth_key c (i + j)) (nonce e) (all_arrivals (drop j echoes)) = true.
Proof.
  revert i j svc. induction echoes as [|e0 echoes IH]; intros i j svc Hok Hc Hlen Hj; [done|].
  cbn [length] in Hlen. rewrite send_all_cons.
  destruct (sent_one_spec c i e0 svc Hok Hc) as (Hok1 & Hc1 & Hn1 & Hp1 & Hreg & Hd1).
  destruct j as [|j]; cbn in Hj.
  - injection Hj as ->. rewrite !Nat.add_0_r. cbn [drop].
    pose proof (send_all_old c (S i) echoes (sent_one e svc) (next_future svc) (nonce e) (nth_key c i)
      Hok1 Hc1) as Hold.
    destruct (send_all echoes (sent_one e svc)) as [[svc3 keys] fs]. cbn [fst] in *.
    assert (∀ k' n', <[nth_key c i := (next_future svc, nonce e)]> (pending svc) !! k' =
      Some (next_future svc, n') → k' = nth_key c i ∧ n' = nonce e) as Huniq.
    { intros k' n' [[<- [= <-]]|[_ Hl]]%lookup_insert_Some; [done|]. apply (ok_pending _ Hok) in Hl. lia. }
    rewrite Hold; [|by rewrite Hp1|by rewrite Hp1, lookup_insert_eq|].
    + unfold all_arrivals. cbn [fmap list_fmap concat]. rewrite Hd1, answered_app, orb_true_iff.
      split; [intros [[Hin|(k' & n' & Hl & Ha)]|?]; [|left|by right]|].
      * apply (ok_done _ Hok) in Hin. lia.
      * by apply Huniq in Hl as [-> ->].
      * intros [?|?]; [|by right]. left. right. exists (nth_key c i), (nonce e). by rewrite lookup_insert_eq.
    + intros (x & Hx & Hin)%list_elem_of_fmap. apply list_elem_of_In, in_seq in Hin.
      revert Hx. apply nth_key_inj; lia.
  - specialize (IH (S i) j (sent_one e0 svc) Hok1 Hc1 ltac:(lia) Hj). rewrite Hn1 in IH.
    destruct (send_all echoes (sent_one e0 svc)) as [[svc3 keys] fs]. cbn [fst drop] in *.
    replace (next_future svc + S j)%nat with (S (next_future svc) + j)%nat by lia.
    by replace (i + S j)%nat with (S i + j)%nat by lia.
Qed.

Lemma send_all_pending c i echoes svc j e k n :
  svc_ok svc → counter svc mod 2 ^ 32 = (c + Z.of_nat i) mod 2 ^ 32 →
  Z.of_nat (length echoes) <= 2 ^ 32 → echoes !! j = Some e →
  pending (send_all echoes svc).1.1 !! k = Some ((next_future svc + j)%nat, n) ↔
  k = nth_key c (i + j) ∧ n = nonce e.
Proof.
  revert i j svc e k n. induction echoes as [|e0 echoes IH]; intros i j svc e k n Hok Hc Hlen Hj; [done|].
  cbn [length] in Hlen. rewrite send_all_cons.
  destruct (sent_one_spec c i e0 svc Hok Hc) as (Hok1 & Hc1 & Hn1 & Hp1 & Hreg & _).
  destruct j as [|j]; cbn in Hj.
  - injection Hj as ->. rewrite !Nat.add_0_r.
    pose proof (send_all_frame c (S i) echoes (sent_one e svc) Hok1 Hc1) as Hframe.
    assert (∀ x y, echoes !! x = Some y → pending (send_all echoes (sent_one e svc)).1.1 !! nth_key c (S i + x) =
      Some ((next_future (sent_one e svc) + x)%nat, nonce y)) as Hlater.
    { intros x y Hx. apply (IH (S i) x (sent_one e svc) y _ _ Hok1 Hc1); [lia|done|done]. }
    destruct (send_all echoes (sent_one e svc)) as [[svc3 keys] fs]. cbn [fst] in *.
    destruct Hframe as (_ & -> & _ & Hpk).
    destruct (decide (k ∈ nth_key c <$> List.seq (S i) (length echoes))) as [Hin|Hnot].
    + pose proof Hin as (x & -> & Hx)%list_elem_of_fmap. apply list_elem_of_In, in_seq in Hx.
      destruct (lookup_lt_is_Some_2 echoes (x - S i)) as [y Hy]; [lia|].
      specialize (Hlater _ y Hy). replace (S i + (x - S i))%nat with x in Hlater by lia.
      rewrite Hlater. split.
      * intros [= E _]. rewrite Hn1 in E. lia.
      * intros [E _]. exfalso. symmetry in E. revert E. apply nth_key_inj; lia.
    + rewrite Hpk, Hp1, lookup_insert_Some by done. split.
      * intros [[<- [= <-]]|[_ Hl]]; [done|]. apply (ok_pending _ Hok) in Hl. lia.
      * intros [-> ->]. by left.
  - specialize (IH (S i) j (sent_one e0 svc) e k n Hok1 Hc1 ltac:(lia) Hj). rewrite Hn1 in IH.
    destruct (send_all echoes (sent_one e0 svc)) as [[svc3 keys] fs]. cbn [fst] in *.
    replace (next_future svc + S j)%nat with (S (next_future svc) + j)%nat by lia.
    by replace (i + S j)%nat with (S i + j)%nat by lia.
Qed.

(** The echo [j] was answered by something that arrived from its own send on. *)
Definition replied (c : Z) (echoes : list echo) (late : list (family * bytes)) (j : nat) : bool :=
  match echoes !! j with
  | Some e => answered (nth_key c j) (nonce e) (all_arrivals (drop j echoes) ++ late)
  | None => false
  end.

Lemma count_filter_seq {A} (P : nat → Prop) (Q : A → Prop) `{∀ x, Decision (P x), ∀ x, Decision (Q x)}
    (g : nat → A) a n :
  (∀ j, (j < n)%nat → P (a + j)%nat ↔ Q (g j)) →
  length (filter P (List.seq a n)) = length (filter Q (g <$> List.seq 0 n)).
Proof.
  revert a g. induction n as [|n IH]; intros a g Hpq; [done|].
  change (List.seq a (S n)) with (a :: List.seq (S a) n).
  change (List.seq 0 (S n)) with (0%nat :: List.seq 1 n). rewrite fmap_cons, !filter_cons.
  pose proof (Hpq 0%nat ltac:(lia)) as H1. rewrite Nat.add_0_r in H1.
  assert (g <$> List.seq 1 n = (λ j, g (S j)) <$> List.seq 0 n) as ->.
  { rewrite <- seq_shift. change (List.map S (List.seq 0 n)) with (S <$> List.seq 0 n).
    by rewrite <- list_fmap_compose. }
  specialize (IH (S a) (λ j, g (S j))).
  destruct (decide (P a)), (decide (Q (g 0%nat))); cbn [length]; try tauto;
    rewrite IH; try done; intros j Hj; rewrite Nat.add_succ_comm; apply Hpq; lia.
Qed.

Lemma loss_tolerant_received c echoes late svc :
  svc_ok svc → counter svc mod 2 ^ 32 = c mod 2 ^ 32 → Z.of_nat (length echoes) <= 2 ^ 32 →
  let '(svc1, keys, fs) := send_all echoes svc in
  count_done (foldl _on_readable svc1 late) fs =
  length (filter (λ j, replied c echoes late j = true) (List.seq 0 (length echoes))).
Proof.
  intros Hok Hc Hlen. rewrite <- (Z.add_0_r c) in Hc.
  pose proof (send_all_frame c 0 echoes svc Hok Hc) as Hframe.
  assert (∀ j e, echoes !! j = Some e → _) as Hdone
    by (intros j e Hj; exact (send_all_done c 0 echoes svc j e Hok Hc Hlen Hj)).
  assert (∀ j e k n, echoes !! j = Some e → _) as Hpend
    by (intros j e k n Hj; exact (send_all_pending c 0 echoes svc j e k n Hok Hc Hlen Hj)).
  destruct (send_all echoes svc) as [[svc1 keys] fs]. destruct Hframe as (_ & _ & -> & _).
  unfold count_done. rewrite <- (list_fmap_id (List.seq 0 _)).
  apply count_filter_seq. intros j Hj. destruct (lookup_lt_is_Some_2 echoes j Hj) as [e He].
  unfold replied. simpl. rewrite He, answered_app, orb_true_iff, arrivals_done.
  cbn [fst] in *. rewrite (Hdone j e He). apply or_iff_compat_l. split.
  - intros (k & n & Hk & Ha). apply (Hpend j e k n He) in Hk as [-> ->]. done.
  - intros Ha. exists (nth_key c (0 + j)), (nonce e). split; [|done]. by apply (Hpend j e _ _ He).
Qed.

(** ** Runs of the demultiplexer *)

Inductive event : Type :=
| EvRegister (n : bytes)
| EvPacket (p : family * bytes)
| EvPop (k : Z * Z).

Definition exec1 (svc : PingSvc) (ev : event) : PingSvc :=
  match ev with
  | EvRegister n => (register n svc).1.1
  | EvPacket p => _on_readable svc p
  | EvPop k => pop_key k svc
  end.

Definition exec (svc : PingSvc) (evs : list event) : PingSvc := foldl exec1 svc evs.

Definition svc_init (c : Z) : PingSvc := MkSvc c ∅ ∅ 0.

(** [f] was handed out for a probe with nonce [n] under key [k]. *)
Definition issued (c : Z) (evs : list event) (f : future) (k : Z * Z) (n : bytes) : Prop :=
  ∃ pre post, evs = pre ++ EvRegister n :: post ∧
    (register n (exec (svc_init c) pre)).1.2 = k ∧ (register n (exec (svc_init c) pre)).2 = f.

Lemma issued_snoc c evs ev f k n : issued c evs f k n → issued c (evs ++ [ev]) f k n.
Proof.
  intros (pre & post & -> & Hk). exists pre, (post ++ [ev]). split; [|done].
  by rewrite <- app_assoc.
Qed.

Lemma exec_inv c evs :
  let svc := exec (svc_init c) evs in
  (∀ k f n, pending svc !! k = Some (f, n) → issued c evs f k n) ∧
  (∀ f, f ∈ done_ svc → ∃ k n p, issued c evs f k n ∧ EvPacket p ∈ evs ∧ answers k n p = true).
Proof.
  induction evs as [|ev evs [IHp IHd]] using rev_ind; cbn zeta.
  { split; [intros k f n|intros f]; simpl; [by rewrite lookup_empty|by intros ?%elem_of_empty]. }
  assert (∀ f, f ∈ done_ (exec (svc_init c) evs) → ∃ k n p,
    issued c (evs ++ [ev]) f k n ∧ EvPacket p ∈ evs ++ [ev] ∧ answers k n p = true) as Hold.
  { intros f (k & n & p & Hi & Hp & Ha)%IHd. exists k, n, p. split_and!; [by apply issued_snoc| |done].
    apply elem_of_app. by left. }
  unfold exec in *. rewrite foldl_app. cbn [foldl]. set (svc := foldl exec1 (svc_init c) evs) in *.
  destruct ev as [n0|p|k0]; cbn [exec1].
  - pose proof (register_spec n0 svc) as H. destruct (register n0 svc) as [[svc1 k1] f1] eqn:Er.
    destruct H as (_ & _ & Hp & Hd & _). cbn [fst]. rewrite Hp, Hd. split; [|done].
    intros k f n [[<- [= <- <-]]|[_ Hl]]%lookup_insert_Some; [|by apply issued_snoc, IHp].
    exists evs, []. split; [done|]. fold svc. unfold exec. fold svc. by rewrite Er.
  - destruct (on_readable_frame svc p) as (-> & _ & _). split.
    + intros k f n Hl. by apply issued_snoc, IHp.
    + intros f [?|(k & n & Hl & Ha)]%on_readable_done; [by apply Hold|].
      exists k, n, p. split_and!; [by apply issued_snoc, IHp| |done].
      apply elem_of_app. right. apply list_elem_of_here.
  - replace (pending (pop_key k0 svc)) with (delete k0 (pending svc)) by by destruct svc.
    replace (done_ (pop_key k0 svc)) with (done_ svc) by by destruct svc. split; [|done].
    intros k f n [_ Hl]%lookup_delete_Some. by apply issued_snoc, IHp.
Qed.

(** ** Properties *)

(** C27: no forged replies.  Over any run of registrations, received packets (on any socket
    of either family) and clean-ups, a waiter is only ever woken if some received packet is
    an echo reply with exactly its identifier and sequence whose payload starts with the
    nonce sent for it. *)
Theorem reply_authentic (c : Z) (evs : list event) (f : future)
    (Hf : f ∈ done_ (exec (svc_init c) evs)) :
  ∃ k n fam packet payload, issued c evs f k n ∧ EvPacket (fam, packet) ∈ evs ∧
    parse_for fam packet = Some (k.1, k.2, payload) ∧ startswith payload n = true.
Proof.
  destruct (exec_inv c evs) as [_ Hd]. destruct (Hd f Hf) as (k & n & [fam packet] & Hi & Hp & Ha).
  unfold answers in Ha. cbn [fst snd] in Ha.
  destruct (parse_for fam packet) as [[[i s] payload]|] eqn:E; [|done]. to_prop.
  destruct Ha as [<- Hs]. exists (i, s), n, fam, packet, payload. done.
Qed.

(** C32: the loss-tolerant verdict.  The probe counts an echo as received exactly when a
    reply with its key and nonce arrives between its send and the deadline, and answers up
    when that count reaches [min_pings], unpingable when it is zero, degraded otherwise. *)
Theorem loss_tolerant_verdict (attempt : nat → echo) (late : list (family * bytes))
    (send_pings min_pings : Z) (svc : PingSvc)
    (Hok : svc_ok svc) (Hsend : 1 <= send_pings <= 2 ^ 32) :
  let echoes := attempt <$> List.seq 0 (Z.to_nat send_pings) in
  let received := Z.of_nat (length (filter (λ j, replied (counter svc) echoes late j = true)
                     (List.seq 0 (length echoes)))) in
  (_probe_loss_tolerant attempt late send_pings min_pings svc).2 =
  if min_pings <=? received then OK else if received =? 0 then UNPINGABLE else DEGRADED.
Proof.
  cbn zeta. unfold _probe_loss_tolerant. set (echoes := attempt <$> _).
  assert (Z.of_nat (length echoes) <= 2 ^ 32) as Hlen.
  { subst echoes. rewrite length_fmap, length_seq. lia. }
  pose proof (loss_tolerant_received (counter svc) echoes late svc Hok eq_refl Hlen) as Hr.
  destruct (send_all echoes svc) as [[svc1 keys] fs]. cbn [snd]. by rewrite Hr.
Qed.

(** the single-probe verdict.  The probe answers up exactly when one of its attempts,
    before any failing send, is answered with its own key and nonce; it raises the errno of
    the first failing send before that, and is unpingable otherwise.  Afterwards the pending
    table holds nothing of the probe. *)
Theorem probe_verdict (attempt : nat → echo) (svc : PingSvc) (Hok : svc_ok svc) :
  (_probe attempt svc).2 = verdict_of (counter svc) 0 (attempt <$> [0; 1; 2]%nat) ∧
  (∀ k, pending (_probe attempt svc).1 !! k = pending svc !! k ∨
        (pending (_probe attempt svc).1 !! k = None ∧
         ∃ j, (j < 3)%nat ∧ k = nth_key (counter svc) j)).
Proof.
  unfold _probe. change (List.seq 0 (1 + _RETRIES)) with [0; 1; 2]%nat.
  destruct (probe_loop_spec (counter svc) 0 (attempt <$> [0; 1; 2]%nat) svc Hok) as (Hv & _ & Hcl).
  { by rewrite Z.add_0_r. }
  split; [done|]. intros k. destruct (Hcl k) as [?|(? & j & Hj & ?)]; [by left|right].
  split; [done|]. exists j. split; [|done]. rewrite length_fmap in Hj. simpl in Hj. lia.
Qed.

(** the checksum.  For every payload of bytes, the echo request carries the checksum a
    receiver verifies: the Internet checksum of the whole message, checksum field included,
    is zero; and identifier, sequence and payload can be read back from it. *)
Theorem request_checksum_valid (ident seq : Z) (payload : bytes) (Hb : Forall is_byte payload) :
  icmp_checksum (build_echo_request ident seq payload) = 0 ∧
  unpack (build_echo_request ident seq payload) =
    Some (ICMP_ECHO_REQUEST, Z.land ident 0xFFFF, Z.land seq 0xFFFF, payload).
Proof.
  unfold build_echo_request. cbn zeta. rewrite unpack_pack. split; [|done].
  pose proof (land16 ident) as Hi. pose proof (land16 seq) as Hs.
  pose proof (words_sum_nonneg payload Hb) as Hp.
  set (i := Z.land ident 0xFFFF) in *. set (s := Z.land seq 0xFFFF) in *.
  assert (unpack16 ICMP_ECHO_REQUEST 0 = 2048) as Hty by done.
  set (T := words_sum (pack ICMP_ECHO_REQUEST 0 0 i s ++ payload)).
  assert (T = 2048 + i + s + words_sum payload) as HT by (unfold T; rewrite words_sum_pack; lia).
  destruct (checksum_spec (pack ICMP_ECHO_REQUEST 0 0 i s ++ payload)) as (Hc & Hr & Hm & Hpos); [lia|].
  fold T in Hc, Hr, Hm, Hpos. set (r := fold_carries (Z.to_nat T) T) in *. rewrite Hc.
  set (data := pack ICMP_ECHO_REQUEST 0 (65535 - r) i s ++ payload).
  assert (words_sum data = T + (65535 - r)) as HT' by (unfold data; rewrite words_sum_pack; lia).
  destruct (checksum_spec data) as (Hc' & Hr' & Hm' & Hpos'); [lia|].
  set (r' := fold_carries (Z.to_nat (words_sum data)) (words_sum data)) in *. rewrite Hc'.
  assert (r' mod 65535 = 0) as Hzero.
  { rewrite Hm', HT'. replace (T + (65535 - r)) with (T - r + 1 * 65535) by lia.
    rewrite Z.mod_add by lia. rewrite Zminus_mod, Hm, Z.sub_diag. done. }
  apply Z.mod_divide in Hzero as [q Hq]; [|lia]. lia.
Qed.

(** reply parsing is exact.  A received IPv4 datagram is read as the reply
    [(ident, seq, payload)] exactly when it is an IPv4 header of the length its IHL field
    says, at least 20 bytes, followed by an ICMP message of type 0 with that identifier,
    sequence and payload. *)
Theorem parse_reply_exact (packet : bytes) (ident seq : Z) (payload : bytes) :
  parse_echo_reply packet = Some (ident, seq, payload) ↔
  ∃ v rest c k1 k0 i1 i0 s1 s0,
    packet = (v :: rest) ++ [ICMP_ECHO_REPLY; c; k1; k0; i1; i0; s1; s0] ++ payload ∧
    Z.shiftr v 4 = 4 ∧ 20 <= Z.land v 0x0F * 4 ∧ Z.of_nat (length (v :: rest)) = Z.land v 0x0F * 4 ∧
    ident = unpack16 i1 i0 ∧ seq = unpack16 s1 s0.
Proof.
  unfold parse_echo_reply. split.
  - destruct (length packet <? 20)%nat eqn:E1; [done|]. to_prop.
    destruct packet as [|v packet]; [simpl in E1; lia|]. cbn [head default]. change (id v) with v.
    destruct (Z.shiftr v 4 =? 4) eqn:E2; [|done]. cbn [negb]. to_prop.
    destruct (_ || _) eqn:E3; [done|]. to_prop. destruct E3 as [E3 E4].
    set (h := Z.land v 15 * 4) in *. destruct (Z.to_nat h) as [|m] eqn:Eh; [lia|]. cbn [drop].
    destruct (unpack (drop m packet)) as [[[[ty i] s] pl]|] eqn:Eu; [|done].
    destruct (ty =? ICMP_ECHO_REPLY) eqn:E5; [|done]. cbn [negb]. to_prop. intros [= <- <- <-].
    unfold unpack in Eu. destruct (drop m packet) as [|t0 [|c [|k1 [|k0 [|i1 [|i0 [|s1 [|s0 pl']]]]]]]] eqn:Ed;
      try done. injection Eu as -> <- <- <-.
    exists v, (take m packet), c, k1, k0, i1, i0, s1, s0. split_and!; [|done|lia| |done|done].
    + rewrite <- app_comm_cons. f_equal. rewrite <- (take_drop m packet) at 1. rewrite Ed. by subst.
    + simpl in E4. cbn [length]. rewrite length_take. lia.
  - intros (v & rest & c & k1 & k0 & i1 & i0 & s1 & s0 & -> & Hv & H20 & Hlen & -> & ->).
    rewrite !length_app. cbn [length] in *. rewrite <- app_comm_cons. cbn [head default]. change (id v) with v.
    destruct (_ <? 20)%nat eqn:E1; [to_prop; lia|].
    rewrite (proj2 (Z.eqb_eq _ _) Hv). cbn [negb].
    destruct (_ || _) eqn:E3.
    { to_prop. destruct E3 as [?|E3]; [lia|]. unfold HEADER_SIZE in E3. lia. }
    replace (Z.to_nat (Z.land v 15 * 4)) with (S (length rest)) by lia. cbn [drop].
    rewrite drop_app_length. done.
Qed.

(** keys in flight are distinct.  The keys of any two of fewer than [2^32] consecutive
    probes differ, whatever the random starting value, so no probe overwrites another's
    entry in the pending table. *)
Theorem keys_distinct (svc : PingSvc) (m n : nat) (Hmn : (m < n)%nat)
    (Hdist : Z.of_nat n - Z.of_nat m < 2 ^ 32) :
  (_next_key (advance m svc)).2 ≠ (_next_key (advance n svc)).2.
Proof. rewrite !nth_key_advance. apply nth_key_inj; lia. Qed.

(** A ping always gives a verdict, with counts that make sense.  If the resolver only
    fails with the exceptions it documents, the check of a ping node returns a status code
    and never raises, whatever the sockets, the sends and the network do; and the counts it
    works with satisfy [1 <= min_pings <= send_pings]. *)
Theorem ping_always_concludes (ds dm : Z) (node : Node) (source_ip : option string)
    (lookup : string → family → res Checks.exn string) (sock_errno : Z)
    (attempt : nat → echo) (late : list (family * bytes)) (w : world)
    (Hlookup : ∀ e, lookup (hostname node) (if bool_decide (check_type node = PING6) then AF_INET6 else AF_INET) = Raise e →
       e = NoDnsError ∨ e = GaiError ∨ e = TimeoutError ∨ ∃ n, e = OSErr n) :
  (∃ s : Status, (check ds dm node source_ip lookup sock_errno attempt late w).2 = Ok (status_value s)) ∧
  1 <= (effective_counts ds dm node).2 <= (effective_counts ds dm node).1.
Proof.
  split; [|unfold effective_counts; simpl; lia].
  assert (∀ n, ∃ s : Status, ping_status (Raise (OSErr n)) = Ok (status_value s)) as Hos.
  { intros n. unfold ping_status. destruct (_ || _) in |- *; [|by exists UNPINGABLE].
    unfold map_oserror. repeat case_match; eauto. }
  assert (∀ echoes svc, (∃ s : Status, (probe_loop echoes svc).2 = Ok (status_value s)) ∨
    ∃ n, (probe_loop echoes svc).2 = Raise (OSErr n)) as Hprobe.
  { clear Hlookup. induction echoes as [|e echoes IH]; intros svc; cbn [probe_loop]; [left; by exists UNPINGABLE|].
    destruct (register (nonce e) svc) as [[svc1 k] f]. destruct (send_fails e); [right; eauto|].
    case_bool_decide; [left; by exists OK|apply IH]. }
  unfold check. destruct (lookup _ _) as [ip|e] eqn:El; last first.
  { destruct (Hlookup _ eq_refl) as [->|[->|[->|[n ->]]]]; [by exists NO_DNS|by exists NO_DNS|by exists UNPINGABLE|].
    apply Hos. }
  destruct (bool_decide (ip = "")); [by exists NO_DNS|]. destruct (_socket_for _ _ _) as [[pool' os'] [n|e]]; [|apply Hos].
  destruct (effective_counts ds dm node) as [send min_].
  destruct (send <=? 1).
  - match goal with |- context [_probe attempt ?s] => specialize (Hprobe (attempt <$> List.seq 0 (1 + _RETRIES)) s) end.
    unfold _probe. destruct (probe_loop _ _) as [svc' r]. cbn [snd] in *.
    destruct Hprobe as [[s ->]|[k ->]]; [by exists s|apply Hos].
  - unfold _probe_loss_tolerant. destruct (send_all _ _) as [[svc1 keys] fs]. cbn [snd].
    unfold classify. repeat case_match; eauto.
Qed.

(** A reply to the first key after counter 0, with the nonce [7; 7]. *)
Definition demo_reply : family * bytes :=
  (AF_INET, [0x45] ++ replicate 19 0 ++ [0; 0; 0; 0; 0; 0; 0; 0; 7; 7; 9]).

Lemma reply_authentic_witness :
  done_ (exec (svc_init 0) [EvRegister [7; 7]; EvPacket demo_reply]) = {[0%nat]} ∧
  ∃ k n fam packet payload, issued 0 [EvRegister [7; 7]; EvPacket demo_reply] 0 k n ∧
    EvPacket (fam, packet) ∈ [EvRegister [7; 7]; EvPacket demo_reply] ∧
    parse_for fam packet = Some (k.1, k.2, payload) ∧ startswith payload n = true.
Proof.
  split; [vm_compute; reflexivity|]. apply (reply_authentic 0 _ 0%nat).
  apply (bool_decide_eq_true_1 _). vm_compute. reflexivity.
Defined.

Lemma svc_init_ok c : svc_ok (svc_init c).
Proof. split; [intros k f n|intros f]; simpl; [by rewrite lookup_empty|by intros ?%elem_of_empty]. Qed.

(** Three echoes, only the first answered, and only after the second was sent. *)
Definition demo_attempt (j : nat) : echo :=
  MkEcho [7; 7] None (match j with 1%nat => [demo_reply] | _ => [] end).

Lemma loss_tolerant_verdict_witness :
  (_probe_loss_tolerant demo_attempt [] 3 2 (svc_init 0)).2 = DEGRADED.
Proof.
  rewrite (loss_tolerant_verdict demo_attempt [] 3 2 (svc_init 0)).
  - vm_compute. reflexivity.
  - apply svc_init_ok.
  - lia.
Defined.

Lemma probe_verdict_witness :
  (_probe (λ _, MkEcho [7; 7] None [demo_reply]) (svc_init 0)).2 = Ok (status_value OK).
Proof.
  destruct (probe_verdict (λ _, MkEcho [7; 7] None [demo_reply]) (svc_init 0)) as [H _].
  - apply svc_init_ok.
  - rewrite H. vm_compute. reflexivity.
Defined.

Lemma request_checksum_valid_witness :
  icmp_checksum (build_echo_request 70000 3 [1; 2; 255]) = 0.
Proof. apply (request_checksum_valid 70000 3 [1; 2; 255]). repeat constructor; lia. Defined.

Lemma keys_distinct_witness :
  (_next_key (advance 0 (svc_init (-1)))).2 ≠ (_next_key (advance 1 (svc_init (-1)))).2.
Proof. apply (keys_distinct (svc_init (-1)) 0 1); lia. Defined.

Lemma ping_always_concludes_witness :
  ∃ s : Status, (check 1 1 (new_node "h" PING) None (λ _ _, Raise GaiError) 1 demo_attempt []
    (MkWorld (pools_init []).1 (pools_init []).2 demo_os (svc_init 0))).2 = Ok (status_value s).
Proof.
  apply (ping_always_concludes 1 1 (new_node "h" PING) None (λ _ _, Raise GaiError) 1 demo_attempt []).
  intros e [= <-]. right. left. reflexivity.
Defined.
