(* ===== verification/Runner.v ===== *)
(** * What a check task runs ([_default_runner] and [_ctx_for] of src/psysmon/engine/scheduler.py)

    The scheduler composed with the checks: the runner picks the ping service or a protocol
    check, with the node's own outbound source.  The resolver is the DNS cache over
    [_system_resolve] (src/psysmon/engine/dnscache.py). *)
From S2P Require Import Prelude Status Model StateMachine PingPool Graph Gate Flatten Scheduler Json SchedOps SchedInv SchedRun SchedTick SchedPaging Checks Protocols ProtocolSpec Ping PingSpec.

(** ** Names *)

(** What getaddrinfo does: addresses, a [gaierror], a [UnicodeError] for a name that IDNA cannot
    encode (an empty or overlong label), another [OSError]. *)
Inductive gai_outcome : Type :=
| GaiInfos (addresses : list string)
| GaiFails
| GaiUnicode
| GaiOSError (errno : Z).

Definition _system_resolve (infos : gai_outcome) : res Checks.exn (option string) :=
  match infos with
  | GaiFails => Ok None
  | GaiInfos [] => Ok None
  | GaiInfos (ip :: _) => Ok (Some ip)
  | GaiUnicode => Raise ValueError
  | GaiOSError n => Raise (OSErr n)
  end.

(** ** Contexts *)

Record CheckContext : Type := MkContext { timeout_s : Q; ctx_source_ip : option string }.

Definition DEFAULT_TIMEOUT_S : Q := 10.

(** [self._ctx] *)
Definition scheduler_ctx (cfg : SchedConfig) : CheckContext := MkContext DEFAULT_TIMEOUT_S (cfg_source_ip cfg).

Definition _ctx_for (ctx : CheckContext) (o : _Scheduled) : CheckContext :=
  if bool_decide (sched_source o = ctx_source_ip ctx) then ctx else MkContext (timeout_s ctx) (sched_source o).

(** [local_addr] of [open_connection]. *)
Definition local_addr (ctx : CheckContext) : option (string * Z) :=
  match ctx_source_ip ctx with
  | Some ip => if bool_decide (ip = "") then None else Some (ip, 0)
  | None => None
  end.

(** ** The runner *)

(** What the network answers: names, connections from a local address, DNS queries from a
    source, HTTP requests (which are never bound), and the ping's echoes. *)
Record network : Type := MkNetwork {
  n_names : string → family → gai_outcome;
  n_peer : option (string * Z) → string → option Z → bool → connect_outcome;
  n_udp : option string → string → string → Z → dns_outcome;
  n_get : string → http_outcome;
  n_errno : Z;
  n_echo : nat → echo;
  n_late : list (family * bytes)
}.

(** [base.resolve] for the ping check. *)
Definition ping_lookup (net : network) (h : string) (f : family) : res Checks.exn string :=
  match _system_resolve (n_names net h f) with
  | Ok (Some ip) => if bool_decide (ip = "") then Raise NoDnsError else Ok ip
  | Ok None => Raise NoDnsError
  | Raise e => Raise e
  end.

(** [_default_runner]; [ds] and [dm] are the ping service's counts.  Every protocol check
    starts by resolving the name. *)
Definition _default_runner (ds dm : Z) (net : network) (nd : Node) (ctx : CheckContext) (w : world)
    : world * res Checks.exn Z :=
  if is_ping_type (check_type nd)
  then Ping.check ds dm nd (ctx_source_ip ctx) (ping_lookup net) (n_errno net) (n_echo net) (n_late net) w
  else
    match _CHECKERS (check_type nd) with
    | None => (w, Raise OtherExn)
    | Some checker =>
        (w, match _system_resolve (n_names net (hostname nd) AF_INET) with
            | Raise e => perform (Raise e)
            | Ok ip => perform (checker nd (MkEnv (λ _, ip) (n_peer net (local_addr ctx))) (n_udp net (ctx_source_ip ctx)) (n_get net))
            end)
    end.

(** ** Facts *)

Lemma ctx_for_source ctx o : ctx_source_ip (_ctx_for ctx o) = sched_source o ∧ timeout_s (_ctx_for ctx o) = timeout_s ctx.
Proof. unfold _ctx_for. case_bool_decide; [|done]. by subst. Qed.

(** The network fails only in the ways [perform] foresees. *)
Record net_ok (net : network) : Prop := {
  ok_peer la ip p tls : peer_ok (n_peer net la ip p tls);
  ok_udp src ip name p : dns_ok (n_udp net src ip name p);
  ok_get url : http_ok (n_get net url)
}.

Definition ping_family (nd : Node) : family := if bool_decide (check_type nd = PING6) then AF_INET6 else AF_INET.

(** The name of a ping node is one IDNA cannot encode. *)
Definition unencodable (net : network) (nd : Node) : Prop :=
  is_ping_type (check_type nd) = true ∧ n_names net (hostname nd) (ping_family nd) = GaiUnicode.

Lemma ping_lookup_raises net h f e :
  n_names net h f ≠ GaiUnicode → ping_lookup net h f = Raise e →
  e = NoDnsError ∨ e = GaiError ∨ e = TimeoutError ∨ ∃ n, e = OSErr n.
Proof. unfold ping_lookup, _system_resolve. intros Hn H. repeat case_match; simplify_eq; eauto. Qed.

#[local] Instance gai_outcome_eq_dec : EqDecision gai_outcome.
Proof. solve_decision. Defined.

Lemma runner_concludes ds dm net nd ctx w :
  net_ok net →
  (∃ s : Status, (_default_runner ds dm net nd ctx w).2 = Ok (status_value s)) ∨
  (unencodable net nd ∧ (_default_runner ds dm net nd ctx w).2 = Raise ValueError).
Proof.
  intros Hnet. unfold _default_runner. destruct (is_ping_type (check_type nd)) eqn:Ep.
  - destruct (decide (n_names net (hostname nd) (ping_family nd) = GaiUnicode)) as [En|En].
    + right. split; [done|]. unfold Ping.check, ping_family, ping_lookup in *. by rewrite En.
    + left. apply ping_always_concludes. intros e He. by eapply ping_lookup_raises.
  - left. destruct (_CHECKERS (check_type nd)) as [checker|] eqn:Ec; [|by destruct (check_type nd)]. cbn [snd].
    destruct (_system_resolve _) as [ip|e] eqn:Es.
    + edestruct (check_always_concludes nd (MkEnv (λ _, ip) (n_peer net (local_addr ctx))) (n_udp net (ctx_source_ip ctx)) (n_get net))
        as (check & s & Hc & Hs); [intros ???; apply Hnet|intros; apply Hnet|intros; apply Hnet|done|].
      rewrite Ec in Hc. injection Hc as <-. eauto.
    + assert (e = ValueError ∨ ∃ n, e = OSErr n) as [->|[n ->]] by (unfold _system_resolve in Es; repeat case_match; simplify_eq; eauto).
      * by exists BAD_RESPONSE.
      * simpl. unfold map_oserror. repeat case_match; eauto.
Qed.


(** What that exception does: the task ends with its node neither checked nor counted, so a
    child behind it stays suppressed and nobody is paged, however long it lasts. *)
Lemma no_verdict_no_state x sch sch' o :
  objs sch !! x = Some o → check_raised x sch = Some sch' →
  ∃ o', objs sch' !! x = Some o' ∧ state o' = state o ∧ checked o' = checked o ∧ sent sch' = sent sch.
Proof.
  intros Ho H. unfold check_raised in H. destruct (tasks sch !! x) as [[]|]; try done. rewrite Ho in H. injection H as <-.
  exists (o <| in_flight := false |>). rewrite objs_finish, objs_release, lookup_alter_eq, Ho. split; [done|].
  split_and!; [by destruct o..|]. by rewrite sent_finish, sent_release.
Qed.

(** ** Witness *)

Definition demo_net (name : gai_outcome) : network :=
  MkNetwork (λ _ _, name) (λ _ _ _ _, ConnectRaises (OSErr ECONNREFUSED)) (λ _ _ _ _, DnsTimeout) (λ _, HttpTimeout) 1 demo_attempt [].

Lemma demo_net_ok name : net_ok (demo_net name).
Proof. split; intros; simpl; [split; discriminate|exact I|exact I]. Qed.

Definition demo_world : world := MkWorld (pools_init []).1 (pools_init []).2 demo_os (svc_init 0).

(** The first check of the demonstration scheduler, started. *)
Definition demo_started : Scheduler := default demo_sch (check_start 3 (tick 0 demo_sch)).

Lemma demo_started_reached : reached demo_cfg demo_started.
Proof.
  eapply reached_step; [eapply reached_step; [apply demo_reached|apply (step_tick _ 0)]|].
  apply (step_start _ 3%nat). unfold demo_started. assert (is_Some (check_start 3 (tick 0 demo_sch))) as [x ->]; [|done].
  vm_compute. by eexists.
Qed.

