(* ===== verification/DnsCache.v ===== *)
(** * The DNS cache (src/psysmon/engine/dnscache.py)

    [DnsCache.resolve] awaits twice: for the per-key lock and for the lookup.  Each
    definition is the code between two awaits; a call is [CWaiting] for the lock or
    [CResolving] with the lock held.  Lookups that have completed are recorded in [lookups]
    (newest first), values returned to callers in [returned]. *)
From S2P Require Import Prelude PingPool.

Abbreviation dkey := (string * family)%type.
Abbreviation cid := nat.

Inductive call : Type :=
| CWaiting (k : dkey)
| CResolving (k : dkey).

#[export] Instance call_eq_dec : EqDecision call.
Proof. solve_decision. Defined.

Record DnsCache : Type := MkCache {
  cache : gmap dkey (string * Q);
  locks : gset dkey;
  calls : gmap cid call;
  hits : Z;
  misses : Z;
  expired : Z;
  lookups : list (dkey * string * Q);
  returned : list (cid * dkey * option string * Q)
}.

#[export] Instance set_cache : SetField cache := λ f c,
  let '(MkCache a b d e g h i j) := c in MkCache (f a) b d e g h i j.
#[export] Instance set_locks : SetField locks := λ f c,
  let '(MkCache a b d e g h i j) := c in MkCache a (f b) d e g h i j.
#[export] Instance set_calls : SetField calls := λ f c,
  let '(MkCache a b d e g h i j) := c in MkCache a b (f d) e g h i j.
#[export] Instance set_hits : SetField hits := λ f c,
  let '(MkCache a b d e g h i j) := c in MkCache a b d (f e) g h i j.
#[export] Instance set_misses : SetField misses := λ f c,
  let '(MkCache a b d e g h i j) := c in MkCache a b d e (f g) h i j.
#[export] Instance set_expired : SetField expired := λ f c,
  let '(MkCache a b d e g h i j) := c in MkCache a b d e g (f h) i j.
#[export] Instance set_lookups : SetField lookups := λ f c,
  let '(MkCache a b d e g h i j) := c in MkCache a b d e g h (f i) j.
#[export] Instance set_returned : SetField returned := λ f c,
  let '(MkCache a b d e g h i j) := c in MkCache a b d e g h i (f j).

Definition cache_init : DnsCache := MkCache ∅ ∅ ∅ 0 0 0 [] [].

Section cache.
Context (expire_s : Q).

Definition _fresh (c : DnsCache) (key : dkey) (now : Q) : option string :=
  match cache c !! key with
  | Some (ip, t) => if Qltb (now - t) expire_s then Some ip else None
  | None => None
  end.

(** A cached answer ends the call. *)
Definition hit (id : cid) (key : dkey) (ip : string) (now : Q) (c : DnsCache) : DnsCache :=
  c <| hits := hits c + 1 |> <| calls := delete id (calls c) |>
    <| returned := (id, key, Some ip, now) :: returned c |>.

(** [resolve] up to the lock. *)
Definition resolve_start (id : cid) (key : dkey) (now : Q) (c : DnsCache) : DnsCache :=
  match _fresh c key now with
  | Some ip => hit id key ip now c
  | None => c <| calls := <[id := CWaiting key]> (calls c) |>
  end.

(** A waiting call gets the lock: the cache is looked at again, then the stale entry is
    evicted and the lookup begins.  [None] when the lock is not free. *)
Definition resolve_locked (id : cid) (now : Q) (c : DnsCache) : option DnsCache :=
  match calls c !! id with
  | Some (CWaiting key) =>
      if bool_decide (key ∈ locks c) then None
      else match _fresh c key now with
           | Some ip => Some (hit id key ip now c)
           | None =>
               let c1 := c <| misses := misses c + 1 |>
                           <| locks := {[key]} ∪ locks c |>
                           <| calls := <[id := CResolving key]> (calls c) |> in
               Some (match cache c !! key with
                     | Some _ => c1 <| cache := delete key (cache c) |> <| expired := expired c + 1 |>
                     | None => c1
                     end)
           end
  | _ => None
  end.

(** The lookup ended: with an address, without one, or by raising ([None]). *)
Definition resolve_done (id : cid) (r : option (option string)) (now : Q) (c : DnsCache)
    : option DnsCache :=
  match calls c !! id with
  | Some (CResolving key) =>
      let c1 := c <| locks := locks c ∖ {[key]} |> <| calls := delete id (calls c) |> in
      Some (match r with
            | Some (Some ip) =>
                c1 <| cache := <[key := (ip, now)]> (cache c) |>
                   <| lookups := (key, ip, now) :: lookups c |>
                   <| returned := (id, key, Some ip, now) :: returned c |>
            | Some None => c1 <| returned := (id, key, None, now) :: returned c |>
            | None => c1
            end)
  | _ => None
  end.

(** The task of a call that waits for the lock is cancelled. *)
Definition resolve_cancelled (id : cid) (c : DnsCache) : option DnsCache :=
  match calls c !! id with
  | Some (CWaiting _) => Some (c <| calls := delete id (calls c) |>)
  | _ => None
  end.

(** [stats]: hits, misses, expired, entries. *)
Definition stats (c : DnsCache) : Z * Z * Z * Z :=
  (hits c, misses c, expired c, Z.of_nat (size (cache c))).

Inductive cstep : DnsCache → DnsCache → Prop :=
| cstep_start id key now c : calls c !! id = None → cstep c (resolve_start id key now c)
| cstep_locked id now c c' : resolve_locked id now c = Some c' → cstep c c'
| cstep_done id r now c c' : resolve_done id r now c = Some c' → cstep c c'
| cstep_cancelled id c c' : resolve_cancelled id c = Some c' → cstep c c'.

(** ** The invariant *)

Record cache_ok (c : DnsCache) : Prop := {
  co_locks : ∀ k, k ∈ locks c ↔ ∃ id, calls c !! id = Some (CResolving k);
  co_single : ∀ id id' k, calls c !! id = Some (CResolving k) →
    calls c !! id' = Some (CResolving k) → id = id';
  co_evicted : ∀ id k, calls c !! id = Some (CResolving k) → cache c !! k = None;
  co_cached : ∀ k ip t, cache c !! k = Some (ip, t) → (k, ip, t) ∈ lookups c;
  co_returned : ∀ id k ip now, (id, k, Some ip, now) ∈ returned c →
    ∃ t, (k, ip, t) ∈ lookups c ∧ (t = now ∨ (now - t < expire_s)%Q);
  co_stats : 0 <= expired c <= misses c ∧
    expired c + Z.of_nat (size (cache c)) = Z.of_nat (length (lookups c))
}.

Lemma fresh_spec c key now ip :
  _fresh c key now = Some ip → ∃ t, cache c !! key = Some (ip, t) ∧ (now - t < expire_s)%Q.
Proof.
  unfold _fresh. destruct (cache c !! key) as [[ip' t]|]; [|done].
  destruct (Qltb _ _) eqn:E; [|done]. intros [= ->]. to_prop. eauto.
Qed.

(** A call that holds no lock goes away. *)
Lemma cache_ok_drop id c :
  (∀ k, calls c !! id ≠ Some (CResolving k)) → cache_ok c →
  cache_ok (c <| calls := delete id (calls c) |>).
Proof.
  intros Hid [H1 H2 H3 H4 H5 H6].
  assert (∀ i k, delete id (calls c) !! i = Some (CResolving k) ↔ calls c !! i = Some (CResolving k)) as Hc.
  { intros i k. rewrite lookup_delete_Some. split; [by intros [_ ?]|]. intros Hi. split; [|done].
    intros <-. by apply Hid in Hi. }
  destruct c; simpl in *. split; simpl; try done.
  - intros k. rewrite H1. by setoid_rewrite Hc.
  - intros i i' k. rewrite !Hc. apply H2.
  - intros i k. rewrite Hc. apply H3.
Qed.

(** Ending such a call with a cached answer. *)
Lemma cache_ok_hit id key ip now c :
  (∀ k, calls c !! id ≠ Some (CResolving k)) → _fresh c key now = Some ip →
  cache_ok c → cache_ok (hit id key ip now c).
Proof.
  intros Hid (t & Ht & Hlt)%fresh_spec Hok. pose proof (co_cached _ Hok _ _ _ Ht) as Hl.
  apply (cache_ok_drop id) in Hok as [H1 H2 H3 H4 H5 H6]; [|done].
  destruct c; unfold hit; simpl in *. split; simpl; try done.
  intros i k ip' now' [[= -> -> -> ->]|Hin]%elem_of_cons; [|by eapply H5]. eauto.
Qed.

Lemma cache_ok_cancelled id c c' :
  resolve_cancelled id c = Some c' → cache_ok c → cache_ok c'.
Proof.
  unfold resolve_cancelled. destruct (calls c !! id) as [[key|]|] eqn:Hid; try done.
  intros [= <-]. apply cache_ok_drop. by rewrite Hid.
Qed.

Lemma cache_ok_start id key now c :
  calls c !! id = None → cache_ok c → cache_ok (resolve_start id key now c).
Proof.
  intros Hid Hok. unfold resolve_start. destruct (_fresh c key now) as [ip|] eqn:Ef.
  - apply cache_ok_hit; [by rewrite Hid|done|done].
  - destruct Hok as [H1 H2 H3 H4 H5 H6].
    assert (∀ i k, <[id := CWaiting key]> (calls c) !! i = Some (CResolving k) ↔
      calls c !! i = Some (CResolving k)) as Hc.
    { intros i k. rewrite lookup_insert_Some. naive_solver. }
    destruct c; simpl in *. split; simpl; try done.
    + intros k. rewrite H1. by setoid_rewrite Hc.
    + intros i i' k. rewrite !Hc. apply H2.
    + intros i k. rewrite Hc. apply H3.
Qed.

Lemma cache_ok_locked id now c c' :
  resolve_locked id now c = Some c' → cache_ok c → cache_ok c'.
Proof.
  unfold resolve_locked. intros H Hok. destruct (calls c !! id) as [[key|]|] eqn:Hid; try done.
  case_bool_decide as Hl; [done|]. destruct (_fresh c key now) as [ip|] eqn:Ef.
  { simplify_eq. apply cache_ok_hit; [by rewrite Hid|done|done]. }
  destruct Hok as [H1 H2 H3 H4 H5 H6].
  assert (∀ i k, <[id := CResolving key]> (calls c) !! i = Some (CResolving k) ↔
    (i = id ∧ k = key) ∨ calls c !! i = Some (CResolving k)) as Hc.
  { intros i k. rewrite lookup_insert_Some. naive_solver. }
  assert (∀ i, calls c !! i ≠ Some (CResolving key)) as Hnone by (intros i Hi; apply Hl, H1; eauto).
  destruct (cache c !! key) as [[ip t]|] eqn:Hk; simplify_eq; destruct c; simpl in *; split; simpl; try done.
  all: try (intros k; rewrite elem_of_union, elem_of_singleton, H1; setoid_rewrite Hc; naive_solver).
  all: try (intros i i' k; rewrite !Hc; naive_solver).
  all: try (intros i k; rewrite ?lookup_delete_None, Hc; naive_solver).
  - intros k ip' t' [_ ?]%lookup_delete_Some. eauto.
  - rewrite map_size_delete, Hk. simpl. assert (cache0 ≠ ∅) as Hne%map_size_non_empty_iff
      by (intros ->; by rewrite lookup_empty in Hk). lia.
  - lia.
Qed.

Lemma cache_ok_done id r now c c' :
  resolve_done id r now c = Some c' → cache_ok c → cache_ok c'.
Proof.
  unfold resolve_done. intros H Hok. destruct (calls c !! id) as [[|key]|] eqn:Hid; try done.
  destruct Hok as [H1 H2 H3 H4 H5 H6].
  assert (∀ i k, delete id (calls c) !! i = Some (CResolving k) ↔
    k ≠ key ∧ calls c !! i = Some (CResolving k)) as Hc.
  { intros i k. rewrite lookup_delete_Some. split.
    - intros [Hne Hi]. split; [|done]. intros ->. by destruct Hne; eapply H2.
    - intros [Hne Hi]. split; [|done]. intros <-. naive_solver. }
  assert (cache c !! key = None) as Hk by eauto.
  destruct r as [[ip|]|]; simplify_eq; destruct c; simpl in *; split; simpl; try done.
  all: try (intros k; rewrite elem_of_difference, elem_of_singleton, H1; setoid_rewrite Hc; naive_solver).
  all: try (intros i i' k; rewrite !Hc; naive_solver).
  all: try (intros i k; rewrite ?lookup_insert_None, Hc; naive_solver).
  - intros k ip' t' [[<- [= <- <-]]|[_ ?]]%lookup_insert_Some; [apply list_elem_of_here|].
    apply list_elem_of_further. eauto.
  - intros i k ip' now' [[= -> -> -> ->]|Hin]%elem_of_cons.
    + exists now. split; [apply list_elem_of_here|by left].
    + destruct (H5 i k ip' now' Hin) as (t & ? & ?). exists t. split; [by apply list_elem_of_further|done].
  - rewrite map_size_insert_None by done. lia.
  - intros i k ip' now' [[=]|Hin]%elem_of_cons. by eapply H5.
Qed.

Lemma cache_ok_reached c : rtc cstep cache_init c → cache_ok c.
Proof.
  intros H. apply (rtc_ind_r cache_ok) in H; [done| |].
  - split; simpl; try done; try set_solver.
    all: intros; set_solver.
  - intros x y _ [] ?; eauto using cache_ok_start, cache_ok_locked, cache_ok_done, cache_ok_cancelled.
Qed.

End cache.

(** ** Properties *)

(** C30: single flight.  In every state the cache can reach, at most one call per
    (hostname, family) is inside the lookup, the per-key lock is held exactly by it, and
    nothing is cached for the key meanwhile: a burst of calls makes one lookup. *)
Theorem dns_single_flight (expire_s : Q) (c : DnsCache) (Hrun : rtc (cstep expire_s) cache_init c) :
  (∀ k id id', calls c !! id = Some (CResolving k) → calls c !! id' = Some (CResolving k) → id = id') ∧
  (∀ k, k ∈ locks c ↔ ∃ id, calls c !! id = Some (CResolving k)) ∧
  (∀ k id, calls c !! id = Some (CResolving k) → cache c !! k = None).
Proof.
  destruct (cache_ok_reached expire_s c Hrun) as [H1 H2 H3 _ _ _]. split_and!; eauto.
Qed.

(** no stale address.  Every address handed to a caller is the result of a lookup of
    that (hostname, family), made for this call or less than [expire_s] before; and the
    statistics add up: every lookup that found an address is still cached or was counted as
    one expiration. *)
Theorem dns_answers_fresh (expire_s : Q) (c : DnsCache) (Hrun : rtc (cstep expire_s) cache_init c) :
  (∀ id k ip now, (id, k, Some ip, now) ∈ returned c →
     ∃ t, (k, ip, t) ∈ lookups c ∧ (t = now ∨ (now - t < expire_s)%Q)) ∧
  (let '(_, m, e, n) := stats c in 0 <= e <= m ∧ e + n = Z.of_nat (length (lookups c))).
Proof. destruct (cache_ok_reached expire_s c Hrun) as [_ _ _ _ H5 H6]. split; [exact H5|exact H6]. Qed.

(** Two calls for one host: the second waits, and is answered from the cache. *)
Definition demo_cache : option DnsCache :=
  c ← resolve_locked 900 0 1 (resolve_start 900 1 ("h", AF_INET) 1
        (resolve_start 900 0 ("h", AF_INET) 0 cache_init));
  c ← resolve_done 0 (Some (Some "192.0.2.7")) 2 c;
  resolve_locked 900 1 3 c.

Lemma demo_cache_run c : demo_cache = Some c → rtc (cstep 900) cache_init c.
Proof.
  unfold demo_cache. intros H. apply bind_Some in H as (c1 & H1 & H). apply bind_Some in H as (c2 & H2 & H3).
  eapply rtc_l; [by apply (cstep_start 900 0 ("h", AF_INET) 0)|].
  eapply rtc_l; [apply (cstep_start 900 1 ("h", AF_INET) 1); vm_compute; reflexivity|].
  eapply rtc_l; [by eapply cstep_locked|]. eapply rtc_l; [by eapply cstep_done|].
  eapply rtc_l; [by eapply cstep_locked|]. apply rtc_refl.
Qed.

Lemma dns_single_flight_witness :
  ∃ c, resolve_locked 900 0 1 (resolve_start 900 1 ("h", AF_INET) 1
         (resolve_start 900 0 ("h", AF_INET) 0 cache_init)) = Some c ∧
    calls c !! 0%nat = Some (CResolving ("h", AF_INET)) ∧
    resolve_locked 900 1 1 c = None ∧ cache c !! ("h", AF_INET) = None.
Proof.
  destruct (resolve_locked 900 0 1 _) as [c|] eqn:E; [|vm_compute in E; discriminate].
  exists c. split; [reflexivity|].
  assert (calls c !! 0%nat = Some (CResolving ("h", AF_INET)) ∧ resolve_locked 900 1 1 c = None) as [H0 H1].
  { vm_compute in E. injection E as <-. vm_compute. split; reflexivity. }
  split; [exact H0|]. split; [exact H1|].
  destruct (dns_single_flight 900 c) as (_ & _ & Hc).
  - eapply rtc_l; [by apply (cstep_start 900 0 ("h", AF_INET) 0)|].
    eapply rtc_l; [apply (cstep_start 900 1 ("h", AF_INET) 1); vm_compute; reflexivity|].
    eapply rtc_l; [by eapply cstep_locked|]. apply rtc_refl.
  - exact (Hc _ _ H0).
Defined.

Lemma dns_answers_fresh_witness :
  ∃ c, demo_cache = Some c ∧ stats c = (1, 1, 0, 1) ∧
    ∃ t, (("h", AF_INET), "192.0.2.7", t) ∈ lookups c ∧ (t = 3%Q ∨ (3 - t < 900)%Q).
Proof.
  destruct demo_cache as [c|] eqn:E; [|vm_compute in E; discriminate].
  exists c. split; [reflexivity|].
  destruct (dns_answers_fresh 900 c (demo_cache_run c E)) as [H _].
  vm_compute in E. injection E as <-. split; [vm_compute; reflexivity|].
  apply (H 1%nat). vm_compute. apply list_elem_of_here.
Defined.
