(* ===== verification/StateStore.v ===== *)
(** * The state file (src/psysmon/engine/statestore.py)

    A file system maps paths to files.  The text of a valid JSON file is identified with
    the value it denotes, so [json.dumps] and [json.loads] are [CJson] and its inverse;
    other contents are text that is not JSON, or bytes that are not UTF-8.  System calls
    may fail: their outcomes are arguments. *)
From S2P Require Import Prelude Json.

Definition SCHEMA_VERSION : Z := 2.
Definition _MAX_FILE_BYTES : Z := 32 * 1024 * 1024.

Inductive content : Type :=
| CJson (j : json)
| CNotJson
| CNotUtf8
| CPartial.

Record file : Type := MkFile { fsize : Z; fcontent : content }.

Abbreviation fsys := (gmap string file).

Inductive fserr : Type := FileNotFound | FsOSError.

Record StateStore : Type := MkStore { path : string; max_age_s : Z }.

(** ** Loading *)

(** [_read]: an unreadable or oversized file is an [OSError]; undecodable bytes raise
    [UnicodeDecodeError], a [ValueError]. *)
Inductive read_result : Type :=
| ReadText (c : content)
| ReadFails (e : fserr)
| ReadUnicode.

Definition _read (st : StateStore) (fs : fsys) (io_ok : bool) : read_result :=
  match fs !! path st with
  | None => ReadFails FileNotFound
  | Some f =>
      if negb io_ok then ReadFails FsOSError
      else if _MAX_FILE_BYTES <? fsize f then ReadFails FsOSError
      else match fcontent f with
           | CNotUtf8 => ReadUnicode
           | c => ReadText c
           end
  end.

Definition is_dict (j : json) : bool := match j with JObj _ => true | _ => false end.

Definition as_dict (j : json) : dict := match j with JObj d => d | _ => [] end.

(** [isinstance(saved_at, (int, float))]: the number as a float, or the overflow of a huge
    integer; booleans are integers. *)
Definition number (j : json) : option (res pyexn Q) :=
  match j with
  | JInt z => Some (float_of_int z)
  | JBool b => Some (Ok (inject_Z (Z.b2z b)))
  | JFloat q => Some (Ok q)
  | _ => None
  end.

(** The staleness test: [Ok true] when the file is too old. *)
Definition stale (max_age : Z) (now_wall : Q) (saved_at : json) : res pyexn bool :=
  if negb (0 <? max_age) then Ok false
  else match number saved_at with
       | None => Ok false
       | Some (Raise e) => Raise e
       | Some (Ok t) => Ok (Qltb (inject_Z max_age) (now_wall - t))
       end.

Definition load_payload (max_age : Z) (now_wall : Q) (j : json) : res pyexn (list dict) :=
  match j with
  | JObj payload =>
      if negb (eq_int (get_or_none payload "schema_version") SCHEMA_VERSION) then Ok []
      else
        let! old := stale max_age now_wall (get_or_none payload "saved_at") in
        if (old : bool) then Ok []
        else match get_or_none payload "nodes" with
             | JArr nodes => if forallb is_dict nodes then Ok (as_dict <$> nodes) else Ok []
             | _ => Ok []
             end
  | _ => Ok []
  end.

Definition load (st : StateStore) (fs : fsys) (io_ok : bool) (now_wall : Q) : res pyexn (list dict) :=
  match _read st fs io_ok with
  | ReadFails _ => Ok []
  | ReadUnicode => Raise ValueError
  | ReadText (CJson j) => load_payload (max_age_s st) now_wall j
  | ReadText _ => Ok []
  end.

(** ** Saving *)

(** Outcomes of [mkstemp], the write, [os.replace] and [os.remove]. *)
Record outcomes : Type := MkOutcomes { mk_ok : bool; write_ok : bool; replace_ok : bool; remove_ok : bool }.

(** The states of the file system, oldest first, and the result; [tmp] is the name
    [mkstemp] returned. *)
Definition _atomic_write (st : StateStore) (tmp : string) (data : file) (o : outcomes) (fs : fsys)
    : list fsys * res fserr unit :=
  let cleanup fs' := if remove_ok o then delete tmp fs' else fs' in
  if negb (mk_ok o) then ([fs], Raise FsOSError)
  else
    let fs1 := <[tmp := MkFile 0 CPartial]> fs in
    if negb (write_ok o) then ([fs; fs1; cleanup fs1], Raise FsOSError)
    else
      let fs2 := <[tmp := data]> fs in
      if negb (replace_ok o) then ([fs; fs1; fs2; cleanup fs2], Raise FsOSError)
      else ([fs; fs1; fs2; <[path st := data]> (delete tmp fs)], Ok tt).

Definition payload (records : list dict) (now_wall : Q) : json :=
  JObj [("schema_version", JInt SCHEMA_VERSION); ("saved_at", JFloat now_wall);
        ("nodes", JArr (JObj <$> records))].

(** [size] is the length of the encoded payload. *)
Definition save (st : StateStore) (records : list dict) (now_wall : Q) (tmp : string) (size : Z)
    (o : outcomes) (fs : fsys) : list fsys * res fserr unit :=
  _atomic_write st tmp (MkFile size (CJson (payload records now_wall))) o fs.

(** ** Facts *)

Lemma as_dict_objs (records : list dict) : as_dict <$> (JObj <$> records) = records.
Proof. induction records as [|r l IH]; csimpl; [done|]. by rewrite IH. Qed.

Lemma objs_dicts (records : list dict) : forallb is_dict (JObj <$> records) = true.
Proof. induction records; done. Qed.

Lemma load_saved max_age t now_wall records :
  load_payload max_age now_wall (payload records t) =
  if (0 <? max_age) && Qltb (inject_Z max_age) (now_wall - t) then Ok [] else Ok records.
Proof.
  unfold load_payload, payload, stale.
  change (get_or_none _ "schema_version") with (JInt SCHEMA_VERSION).
  change (get_or_none _ "saved_at") with (JFloat t).
  change (get_or_none _ "nodes") with (JArr (JObj <$> records)). cbn [eq_int].
  rewrite Z.eqb_refl, objs_dicts, as_dict_objs. cbn [negb number].
  destruct (0 <? max_age); [|done]. simpl. by destruct (Qltb _ _).
Qed.

Lemma load_nodes_ok d :
  is_ok (match get_or_none d "nodes" with
         | JArr nodes => if forallb is_dict nodes then Ok (E := pyexn) (as_dict <$> nodes) else Ok []
         | _ => Ok []
         end) = true.
Proof. destruct (get_or_none d "nodes"); [done..| |done]. by destruct (forallb _ _). Qed.

Lemma load_payload_raises max_age now_wall d e :
  load_payload max_age now_wall (JObj d) = Raise e →
  ∃ z, 0 < max_age ∧ eq_int (get_or_none d "schema_version") SCHEMA_VERSION = true ∧
       get_or_none d "saved_at" = JInt z ∧ float_of_int z = Raise e.
Proof.
  unfold load_payload, stale. pose proof (load_nodes_ok d) as Hn. revert Hn.
  generalize (match get_or_none d "nodes" with
    | JArr nodes => if forallb is_dict nodes then Ok (E := pyexn) (as_dict <$> nodes) else Ok []
    | _ => Ok [] end). intros r Hr H.
  destruct (eq_int _ _) eqn:Ev; [|done]. cbn [negb] in H.
  destruct (0 <? max_age) eqn:Em; cbn [negb res_bind] in H; [|by subst r]. to_prop.
  destruct (number (get_or_none d "saved_at")) as [[t|e']|] eqn:En; cbn [res_bind] in H.
  - destruct (Qltb _ _); [done|by subst r].
  - injection H as ->. destruct (get_or_none d "saved_at") as [|b|z|q|s|l|d']; try done.
    exists z. unfold number in En. injection En as En. done.
  - by subst r.
Qed.

(** Every state of the file system a save goes through. *)
Lemma save_trace st records t tmp size o fs fs' :
  fs !! tmp = None → tmp ≠ path st → fs' ∈ (save st records t tmp size o fs).1 →
  (fs' !! path st = fs !! path st ∨ fs' !! path st = Some (MkFile size (CJson (payload records t)))) ∧
  ∀ p, p ≠ tmp → p ≠ path st → fs' !! p = fs !! p.
Proof.
  intros Hfresh Htmp. unfold save, _atomic_write. set (new := MkFile size _).
  assert (∀ f, <[tmp := f]> fs !! path st = fs !! path st) as Hp by (intros; by rewrite lookup_insert_ne).
  assert (∀ f, delete tmp (<[tmp := f]> fs) = fs) as Hd by (intros; by apply delete_insert_id).
  assert (delete tmp fs = fs) as Hn by by apply delete_id.
  destruct (mk_ok o), (write_ok o), (replace_ok o), (remove_ok o); simpl; rewrite ?Hd, ?Hn; intros Hin;
    repeat (apply elem_of_cons in Hin as [->|Hin]); try (by apply elem_of_nil in Hin);
    (split; [rewrite ?Hp; by auto|intros p ??; by rewrite ?lookup_insert_ne by done])
      || (split; [right; by rewrite lookup_insert_eq|intros p ??; by rewrite lookup_insert_ne]).
Qed.

(** How a save ends. *)
Lemma save_last st records t tmp size o fs :
  fs !! tmp = None → tmp ≠ path st →
  let '(trace, r) := save st records t tmp size o fs in
  ∃ final, last trace = Some final ∧
    (r = Ok tt → final = <[path st := MkFile size (CJson (payload records t))]> fs) ∧
    (r ≠ Ok tt → final !! path st = fs !! path st ∧ (remove_ok o = true → final = fs)).
Proof.
  intros Hfresh Htmp. unfold save, _atomic_write. set (new := MkFile size _).
  assert (∀ f, <[tmp := f]> fs !! path st = fs !! path st) as Hp by (intros; by rewrite lookup_insert_ne).
  assert (∀ f, delete tmp (<[tmp := f]> fs) = fs) as Hd by (intros; by apply delete_insert_id).
  assert (delete tmp fs = fs) as Hn by by apply delete_id.
  destruct (mk_ok o), (write_ok o), (replace_ok o), (remove_ok o); simpl; rewrite ?Hd, ?Hn;
    (eexists; split; [done|]; split; [done|]; intros Hr; first [by destruct Hr|split; [by rewrite ?Hp|done]]).
Qed.

Lemma load_after_save st records t size now_wall fs :
  size <= _MAX_FILE_BYTES →
  load st (<[path st := MkFile size (CJson (payload records t))]> fs) true now_wall =
  if (0 <? max_age_s st) && Qltb (inject_Z (max_age_s st)) (now_wall - t) then Ok [] else Ok records.
Proof.
  intros Hsize. unfold load, _read. rewrite lookup_insert_eq. cbn [negb fsize fcontent].
  rewrite (proj2 (Z.ltb_ge _ _) Hsize). apply load_saved.
Qed.

(** ** Properties *)

(** C24: a save is atomic.  At every moment of a save, failed system calls included, the
    state file holds either exactly what it held before or exactly the complete new
    payload; a successful save ends with the new one, a failed save with the old one; no
    other file changes, and the temporary file is gone at the end unless its own removal
    failed. *)
Theorem save_atomic (st : StateStore) (records : list dict) (now_wall : Q) (tmp : string) (size : Z)
    (o : outcomes) (fs : fsys) (Hfresh : fs !! tmp = None) (Htmp : tmp ≠ path st) :
  let '(trace, r) := save st records now_wall tmp size o fs in
  let new := MkFile size (CJson (payload records now_wall)) in
  (∀ fs', fs' ∈ trace → (fs' !! path st = fs !! path st ∨ fs' !! path st = Some new) ∧
     ∀ p, p ≠ tmp → p ≠ path st → fs' !! p = fs !! p) ∧
  ∃ final, last trace = Some final ∧
    (r = Ok tt → final = <[path st := new]> fs) ∧
    (r ≠ Ok tt → final !! path st = fs !! path st ∧ (remove_ok o = true → final = fs)).
Proof.
  pose proof (save_trace st records now_wall tmp size o fs) as Ht. pose proof (save_last st records now_wall tmp size o fs Hfresh Htmp) as Hl.
  destruct (save st records now_wall tmp size o fs) as [trace r]. split; [|exact Hl]. intros fs' Hin. by apply Ht.
Qed.

(** Save then load.  After a successful save, a load with the same schema returns
    exactly the saved records while the file is young enough (always, when the age check is
    disabled), and no records once it is older than [max_age_s]. *)
Theorem save_load_roundtrip (st : StateStore) (records : list dict) (t now_wall : Q) (tmp : string)
    (size : Z) (o : outcomes) (fs final : fsys) (trace : list fsys)
    (Hfresh : fs !! tmp = None) (Htmp : tmp ≠ path st) (Hsize : size <= _MAX_FILE_BYTES)
    (Hsave : save st records t tmp size o fs = (trace, Ok tt)) (Hfinal : last trace = Some final) :
  load st final true now_wall =
  if (0 <? max_age_s st) && Qltb (inject_Z (max_age_s st)) (now_wall - t) then Ok [] else Ok records.
Proof.
  pose proof (save_last st records t tmp size o fs Hfresh Htmp) as Hl. rewrite Hsave in Hl.
  destruct Hl as (f & Hf & Hnew & _). rewrite Hfinal in Hf. injection Hf as <-. rewrite Hnew by done. by apply load_after_save.
Qed.

(** which state files raise.  The interpreter's recursion limit aside, loading returns normally for every file but two kinds:
    one that is not UTF-8, and one whose [saved_at] is an integer too large for a float
    (while the age check is on and the version matches). *)
Theorem load_raises_iff (st : StateStore) (fs : fsys) (io_ok : bool) (now_wall : Q) (e : pyexn) :
  load st fs io_ok now_wall = Raise e ↔
  ∃ f, fs !! path st = Some f ∧ io_ok = true ∧ fsize f <= _MAX_FILE_BYTES ∧
    ((fcontent f = CNotUtf8 ∧ e = ValueError) ∨
     (∃ d z, fcontent f = CJson (JObj d) ∧ 0 < max_age_s st ∧
        eq_int (get_or_none d "schema_version") SCHEMA_VERSION = true ∧
        get_or_none d "saved_at" = JInt z ∧ float_of_int z = Raise e)).
Proof.
  unfold load, _read. destruct (fs !! path st) as [f|]; [|naive_solver].
  destruct io_ok; cbn [negb]; [|naive_solver].
  destruct (_MAX_FILE_BYTES <? fsize f) eqn:Es; to_prop.
  { split; [done|]. intros (f' & [= <-] & _ & ? & _). lia. }
  split.
  - intros H. exists f. split_and!; [done..|]. destruct (fcontent f) as [j| | |]; [|done| |done].
    + right. destruct j as [| | | | | |d]; try done. apply load_payload_raises in H as (z & ?).
      exists d, z. naive_solver.
    + left. naive_solver.
  - intros (f' & [= <-] & _ & _ & [[-> ->]|(d & z & -> & Hm & Hv & Hz & Hf)]); [done|].
    unfold load_payload, stale. rewrite Hv, Hz. cbn [negb number]. rewrite Hf.
    by rewrite (proj2 (Z.ltb_lt _ _) Hm).
Qed.

Definition demo_store_path : StateStore := MkStore "/var/psysmon.json" 86400.

Lemma save_atomic_witness :
  last (save demo_store_path [] 5 "/var/psysmon.json.x.tmp" 60 (MkOutcomes true true true true) ∅).1
  = Some {["/var/psysmon.json" := MkFile 60 (CJson (payload [] 5))]}.
Proof.
  destruct (save_atomic demo_store_path [] 5 "/var/psysmon.json.x.tmp" 60
    (MkOutcomes true true true true) ∅) as (_ & final & Hl & Hok & _).
  - reflexivity.
  - discriminate.
  - refine (eq_trans Hl _). f_equal. apply Hok. reflexivity.
Defined.

Lemma save_load_roundtrip_witness :
  load demo_store_path {["/var/psysmon.json" := MkFile 60 (CJson (payload [[("port", JInt 1)]] 5))]} true 7
  = Ok [[("port", JInt 1)]].
Proof.
  rewrite (save_load_roundtrip demo_store_path [[("port", JInt 1)]] 5 7 "/var/psysmon.json.x.tmp" 60
    (MkOutcomes true true true true) ∅ _
    (save demo_store_path [[("port", JInt 1)]] 5 "/var/psysmon.json.x.tmp" 60
       (MkOutcomes true true true true) ∅).1).
  - vm_compute. reflexivity.
  - reflexivity.
  - discriminate.
  - vm_compute. discriminate.
  - reflexivity.
  - vm_compute. reflexivity.
Defined.
