(* ===== verification/Settings.v ===== *)
(** * Runtime settings (src/psysmon/config/settings.py)

    A [Settings] object is set by field name ([setattr]), so it is modelled as the map from
    field names to values; the layers are dicts of overrides, in insertion order.  The
    namespace argparse returns is an argument of [cli_overrides]. *)
From S2P Require Import Prelude Json.

Abbreviation Settings := (gmap string json).

(** The dataclass fields with their defaults. *)
Definition default_fields : dict :=
  [("config_path", JStr "/etc/psysmon.conf"); ("status_path", JNull); ("status_html", JBool true);
   ("status_refresh_s", JInt 30); ("show_up_also", JBool false);
   ("source_ip", JNull); ("org_hostname", JNull);
   ("interval_s", JFloat 30); ("max_concurrency", JInt 50); ("numfailures", JInt 2);
   ("pageinterval_min", JInt 10); ("slow_check_s", JFloat 30);
   ("send_pings", JInt 1); ("min_pings", JInt 1); ("page_on_degraded", JBool false);
   ("contact_on", JStr "both");
   ("dnsexpire_s", JInt 900); ("dnslog_s", JInt 600);
   ("state_path", JNull); ("statesave_s", JInt 60); ("state_max_age_s", JInt 86400);
   ("smtp_host", JStr "localhost"); ("smtp_port", JInt 25); ("mail_from", JNull);
   ("notify_enabled", JBool true);
   ("syslog_facility", JStr "daemon"); ("log_level", JStr "info"); ("heartbeat_s", JInt 300);
   ("foreground", JBool false);
   ("control_enabled", JBool false); ("control_bind", JStr "127.0.0.1"); ("control_port", JInt 2026);
   ("control_token_file", JNull); ("control_tls_cert", JNull); ("control_tls_key", JNull)].

Definition _FIELD_NAMES : list string := fst <$> default_fields.

Definition Settings_default : Settings := list_to_map default_fields.

(** Python truthiness of a value. *)
Definition truthy (j : json) : bool :=
  match j with
  | JNull => false
  | JBool b => b
  | JInt z => negb (z =? 0)
  | JFloat q => negb (Qeqb q 0)
  | JStr s => negb (bool_decide (s = ""))
  | JArr l => match l with [] => false | _ => true end
  | JObj d => match d with [] => false | _ => true end
  end.

(** [out[k] = v] on a dict. *)
Fixpoint dict_set (d : dict) (k : string) (v : json) : dict :=
  match d with
  | [] => [(k, v)]
  | (k', v') :: d' => if bool_decide (k = k') then (k, v) :: d' else (k', v') :: dict_set d' k v
  end.

Definition set_if (b : bool) (k : string) (v : json) (out : dict) : dict :=
  if b then dict_set out k v else out.

(** The overrides in the parsed namespace [raw]. *)
Definition cli_overrides (raw : dict) : dict :=
  let out := filter (λ kv, kv.1 ∈ _FIELD_NAMES) raw in
  let given k := truthy (get_or_none raw k) in
  let out := match dict_get raw "status_format" with
             | Some v => dict_set out "status_html" (JBool (eq_str v "html"))
             | None => out
             end in
  let out := set_if (given "no_notify") "notify_enabled" (JBool false) out in
  let out := set_if (given "no_fork") "foreground" (JBool true) out in
  let out := set_if (given "show_up") "show_up_also" (JBool true) out in
  let out := set_if (given "control") "control_enabled" (JBool true) out in
  match dict_get out "log_level" with
  | Some _ => out
  | None =>
      match get_or_none raw "verbose" with
      | JInt v => set_if (negb (v =? 0)) "log_level" (JStr (if 2 <=? v then "debug" else "info")) out
      | _ => out
      end
  end.

(** One layer of [merge]: the first unknown key raises. *)
Fixpoint apply_layer (layer : dict) (s : Settings) : res string Settings :=
  match layer with
  | [] => Ok s
  | (k, v) :: layer' =>
      if bool_decide (k ∈ _FIELD_NAMES) then apply_layer layer' (<[k := v]> s) else Raise k
  end.

(** [merge]: the error carries the unknown key. *)
Definition merge (file_overrides cli : dict) : res string Settings :=
  let! s := apply_layer file_overrides Settings_default in apply_layer cli s.

Definition load (raw file_overrides : dict) : res string Settings :=
  merge file_overrides (cli_overrides raw).

(** ** Facts *)

(** A dict has each key once. *)
Definition dict_ok (d : dict) : Prop := NoDup (fst <$> d).

Lemma dict_get_notin d k : k ∉ fst <$> d → dict_get d k = None.
Proof.
  induction d as [|[k' v] d IH]; csimpl; [done|]. intros [Hne Hin]%not_elem_of_cons.
  rewrite bool_decide_eq_false_2 by done. by apply IH.
Qed.

Lemma apply_layer_spec layer s :
  dict_ok layer →
  match apply_layer layer s with
  | Ok s' => (∀ k, k ∈ fst <$> layer → k ∈ _FIELD_NAMES) ∧
      ∀ k, s' !! k = match dict_get layer k with Some v => Some v | None => s !! k end
  | Raise k => k ∈ fst <$> layer ∧ k ∉ _FIELD_NAMES
  end.
Proof.
  revert s. induction layer as [|[k v] layer IH]; intros s Hnd; csimpl.
  { split; [by intros k ?%elem_of_nil|done]. }
  apply NoDup_cons in Hnd as [Hk Hnd]. case_bool_decide as Hf; [|split; [apply list_elem_of_here|done]].
  specialize (IH (<[k := v]> s) Hnd). destruct (apply_layer layer (<[k := v]> s)) as [s'|k'].
  - destruct IH as [IHf IHs]. split.
    + intros k' [->|?]%elem_of_cons; [done|by apply IHf].
    + intros k'. rewrite IHs. destruct (decide (k' = k)) as [->|Hne].
      * rewrite dict_get_notin, lookup_insert_eq by done. by rewrite bool_decide_eq_true_2.
      * rewrite lookup_insert_ne, bool_decide_eq_false_2 by done. done.
  - destruct IH as [IHk IHn]. split; [by apply list_elem_of_further|done].
Qed.

Lemma default_fields_ok : dict_ok default_fields.
Proof. apply (bool_decide_eq_true_1 _). vm_compute. reflexivity. Qed.

Lemma default_lookup k : Settings_default !! k = dict_get default_fields k.
Proof.
  unfold Settings_default. pose proof default_fields_ok as Hok. revert Hok.
  generalize default_fields. intros d. induction d as [|[k' v] d IH]; intros Hok; csimpl; [done|].
  apply NoDup_cons in Hok as [_ Hok]. destruct (decide (k = k')) as [->|Hne].
  - by rewrite lookup_insert_eq, bool_decide_eq_true_2.
  - rewrite lookup_insert_ne, bool_decide_eq_false_2 by done. by apply IH.
Qed.

(** ** Properties *)

(** The precedence of settings.  When no layer carries an unknown key, merging succeeds,
    and the value of every field is the command line's if it was given there, else the
    config file's, else the built-in default; when a layer carries an unknown key, merging
    fails and names such a key. *)
Theorem merge_precedence (file_overrides cli : dict)
    (Hf : dict_ok file_overrides) (Hc : dict_ok cli) :
  match merge file_overrides cli with
  | Ok s => (∀ k, k ∈ fst <$> file_overrides ++ cli → k ∈ _FIELD_NAMES) ∧
      ∀ k, s !! k = match dict_get cli k with
                    | Some v => Some v
                    | None => match dict_get file_overrides k with
                              | Some v => Some v
                              | None => dict_get default_fields k
                              end
                    end
  | Raise k => k ∈ fst <$> file_overrides ++ cli ∧ k ∉ _FIELD_NAMES
  end.
Proof.
  unfold merge. pose proof (apply_layer_spec file_overrides Settings_default Hf) as H1.
  rewrite fmap_app. destruct (apply_layer file_overrides Settings_default) as [s1|k]; csimpl.
  - destruct H1 as [H1f H1]. pose proof (apply_layer_spec cli s1 Hc) as H2.
    destruct (apply_layer cli s1) as [s2|k].
    + destruct H2 as [H2f H2]. split; [set_solver|]. intros k. rewrite H2, H1.
      destruct (dict_get cli k), (dict_get file_overrides k); [done..|apply default_lookup].
    + set_solver.
  - set_solver.
Qed.

Lemma merge_precedence_witness :
  ∃ s, merge [("numfailures", JInt 5); ("interval_s", JFloat 60)] [("numfailures", JInt 3)] = Ok s ∧
    s !! "numfailures" = Some (JInt 3) ∧ s !! "interval_s" = Some (JFloat 60) ∧
    s !! "smtp_port" = Some (JInt 25).
Proof.
  pose proof (merge_precedence [("numfailures", JInt 5); ("interval_s", JFloat 60)]
    [("numfailures", JInt 3)]) as H.
  assert (Hf : dict_ok [("numfailures", JInt 5); ("interval_s", JFloat 60)]).
  { apply NoDup_cons; split; [by intros [? | []%elem_of_nil]%elem_of_cons|apply NoDup_singleton]. }
  assert (Hc : dict_ok [("numfailures", JInt 3)]) by apply NoDup_singleton.
  specialize (H Hf Hc).
  destruct (merge _ _) as [s|k].
  - exists s. split; [reflexivity|]. destruct H as [_ H].
    split; [|split]; rewrite H; reflexivity.
  - exfalso. destruct H as [Hin Hn]. apply Hn. revert Hin. clear Hn Hf Hc.
    cbn [fmap list_fmap app fst]. intros [->|[->|[->|[]%elem_of_nil]%elem_of_cons]%elem_of_cons]%elem_of_cons;
      apply (bool_decide_eq_true_1 _); vm_compute; reflexivity.
Defined.
