(* ===== verification/PyStr.v ===== *)
(** * Python string operations on 8-bit characters

    The [str] methods the source uses.  A [string] holds characters of code 0 to 255, with
    the meaning Unicode gives to these code points. *)
From Stdlib Require Import Ascii.
From S2P Require Import Prelude.

Abbreviation code := N_of_ascii.

(** [c.isspace()] *)
Definition is_space (c : ascii) : bool :=
  let n := code c in
  ((9 <=? n)%N && (n <=? 13)%N) || ((28 <=? n)%N && (n <=? 32)%N) || (n =? 133)%N || (n =? 160)%N.

(** The line boundaries of [splitlines]. *)
Definition is_break (c : ascii) : bool :=
  let n := code c in
  ((10 <=? n)%N && (n <=? 13)%N) || ((28 <=? n)%N && (n <=? 30)%N) || (n =? 133)%N.

(** [s.isascii()] *)
Fixpoint is_ascii (s : string) : bool :=
  match s with
  | EmptyString => true
  | String c s' => (code c <? 128)%N && is_ascii s'
  end.

Fixpoint lstrip (s : string) : string :=
  match s with
  | String c s' => if is_space c then lstrip s' else s
  | EmptyString => EmptyString
  end.

Fixpoint rstrip (s : string) : string :=
  match s with
  | EmptyString => EmptyString
  | String c s' =>
      match rstrip s' with
      | EmptyString => if is_space c then EmptyString else String c EmptyString
      | r => String c r
      end
  end.

Definition strip (s : string) : string := rstrip (lstrip s).

(** [s.split()]: the word that begins at the front, and the later words. *)
Fixpoint split_aux (s : string) : string * list string :=
  match s with
  | EmptyString => (EmptyString, [])
  | String c s' =>
      let '(w, ws) := split_aux s' in
      if is_space c then (EmptyString, match w with EmptyString => ws | _ => w :: ws end)
      else (String c w, ws)
  end.

Definition split (s : string) : list string :=
  let '(w, ws) := split_aux s in match w with EmptyString => ws | _ => w :: ws end.

(** [s.splitlines()]; CR LF is one boundary. *)
Fixpoint splitlines (s : string) : list string :=
  match s with
  | EmptyString => []
  | String c s' =>
      if is_break c then
        EmptyString ::
          match s' with
          | String d s'' =>
              if (code c =? 13)%N && (code d =? 10)%N then splitlines s'' else splitlines s'
          | EmptyString => []
          end
      else match splitlines s' with
           | [] => [String c EmptyString]
           | l :: ls => String c l :: ls
           end
  end.

Example strip_ex : strip "  a b " = "a b".
Proof. reflexivity. Qed.

Example split_ex : split "  object  www {" = ["object"; "www"; "{"].
Proof. reflexivity. Qed.

Example splitlines_ex :
  splitlines (String.append "a" (String "013" (String "010" (String "010" "b")))) = ["a"; ""; "b"].
Proof. reflexivity. Qed.

(** ** Facts *)

Lemma lstrip_head s c s' : lstrip s = String c s' → is_space c = false.
Proof.
  induction s as [|a s IH]; simpl; [done|]. destruct (is_space a) eqn:E; [done|]. congruence.
Qed.

Lemma rstrip_idem s : rstrip (rstrip s) = rstrip s.
Proof.
  induction s as [|c s IH]; simpl; [done|]. destruct (rstrip s) as [|d r] eqn:E.
  - destruct (is_space c) eqn:Ec; simpl; [done|]. by rewrite Ec.
  - cbn [rstrip] in *. by rewrite IH.
Qed.

(** Stripping keeps the first character of a string that does not start with a space. *)
Lemma rstrip_head c s : is_space c = false → ∃ r, rstrip (String c s) = String c r.
Proof. intros Hc. simpl. destruct (rstrip s); rewrite ?Hc; eauto. Qed.

Lemma lstrip_rstrip s : lstrip (strip s) = strip s.
Proof.
  unfold strip. destruct (lstrip s) as [|c r] eqn:E; [done|].
  apply lstrip_head in E. destruct (rstrip_head c r E) as [r' ->]. simpl. by rewrite E.
Qed.

Lemma strip_idem s : strip (strip s) = strip s.
Proof. unfold strip at 1. rewrite lstrip_rstrip. apply rstrip_idem. Qed.
