(* ===== verification/PyNum.v ===== *)
(** * Numbers and addresses in text

    What [int], [float], [str.isdigit], [str.lower] and [ipaddress.ip_address] do with a
    string.  A decimal literal is rounded to the nearest binary64 number, ties to even; the
    interpreter's limit on the number of digits is not modelled. *)
From Stdlib Require Import Ascii.
From S2P Require Import Prelude PyStr.

(** ** Character classes *)

Definition between (lo hi : N) (c : ascii) : bool := ((lo <=? code c)%N && (code c <=? hi)%N).

Definition dec_digit : ascii → bool := between 48 57.

(** [c.isdigit()]: the decimal digits and the three superscripts. *)
Definition digit_char (c : ascii) : bool :=
  dec_digit c || (code c =? 178)%N || (code c =? 179)%N || (code c =? 185)%N.

Fixpoint all_str (P : ascii → bool) (s : string) : bool :=
  match s with EmptyString => true | String c s' => P c && all_str P s' end.

Definition nonempty (s : string) : bool := negb (bool_decide (s = "")).

Definition isdigit (s : string) : bool := nonempty s && all_str digit_char s.

(** [c.lower()]; the multiplication sign has no case. *)
Definition lower_char (c : ascii) : ascii :=
  if between 65 90 c || (between 192 222 c && negb (code c =? 215)%N)
  then ascii_of_N (code c + 32) else c.

Fixpoint lower (s : string) : string :=
  match s with EmptyString => "" | String c s' => String (lower_char c) (lower s') end.

(** [s.lstrip(c)] for one character. *)
Fixpoint lstrip_char (a : ascii) (s : string) : string :=
  match s with
  | String c s' => if bool_decide (c = a) then lstrip_char a s' else s
  | EmptyString => ""
  end.

Definition digit_val (c : ascii) : Z := Z.of_N (code c) - 48.

(** ** int *)

(** Digits with single underscores between them. *)
Fixpoint int_digits (acc : Z) (prev : bool) (s : string) : option Z :=
  match s with
  | EmptyString => if prev then Some acc else None
  | String c s' =>
      if dec_digit c then int_digits (10 * acc + digit_val c) true s'
      else if bool_decide (c = "_"%char) && prev then int_digits acc false s' else None
  end.

(** [int(s)]; [None] is [ValueError]. *)
Definition py_int (s : string) : option Z :=
  match strip s with
  | EmptyString => None
  | String c s' =>
      if bool_decide (c = "-"%char) then Z.opp <$> int_digits 0 false s'
      else if bool_decide (c = "+"%char) then int_digits 0 false s'
      else int_digits 0 false (String c s')
  end.

(** ** float *)

Inductive pyfloat : Type := Fin (q : Q) | Inf (negative : bool) | NaN.

(** [n / d] rounded half to even. *)
Definition div_half_even (n d : Z) : Z :=
  let m := n / d in
  let r := n mod d in
  if (d <? 2 * r) || ((d =? 2 * r) && Z.odd m) then m + 1 else m.

(** The binary64 number nearest to [n / d], for positive [n] and [d]. *)
Definition round_pos (n d : Z) : pyfloat :=
  let k := Z.log2 n - Z.log2 d in
  let k := if n * 2 ^ Z.max 0 (- k) <? d * 2 ^ Z.max 0 k then k - 1 else k in
  let e := Z.max (-1074) (k - 52) in
  let m := div_half_even (n * 2 ^ Z.max 0 (- e)) (d * 2 ^ Z.max 0 e) in
  if 2 ^ 1024 <=? m * 2 ^ e then Inf false
  else Fin (if 0 <=? e then inject_Z (m * 2 ^ e) else Qred (m # Z.to_pos (2 ^ (- e)))).

Definition round_double (neg : bool) (n d : Z) : pyfloat :=
  if n =? 0 then Fin 0
  else match round_pos n d with
       | Fin q => Fin (if neg then - q else q)%Q
       | Inf _ => Inf neg
       | NaN => NaN
       end.

(** A run of decimal digits: its value, its length and the rest. *)
Fixpoint digit_run (acc : Z) (len : Z) (s : string) : Z * Z * string :=
  match s with
  | String c s' => if dec_digit c then digit_run (10 * acc + digit_val c) (len + 1) s' else (acc, len, s)
  | EmptyString => (acc, len, s)
  end.

(** Underscores are dropped where they stand between digits. *)
Fixpoint drop_underscores (prev : option ascii) (s : string) : option string :=
  let is_us c := bool_decide (c = Some "_"%char) in
  match s with
  | EmptyString => if is_us prev then None else Some ""
  | String c s' =>
      if bool_decide (c = "_"%char)
      then match prev with
           | Some p => if dec_digit p then drop_underscores (Some c) s' else None
           | None => None
           end
      else if is_us prev && negb (dec_digit c) then None
      else String c <$> drop_underscores (Some c) s'
  end.

(** The exponent part: nothing, or [e], a sign and digits. *)
Definition exponent (s : string) : option Z :=
  match s with
  | EmptyString => Some 0
  | String c s' =>
      if bool_decide (lower_char c = "e"%char) then
        let '(neg, s'') := match s' with
                           | String "-" r => (true, r)
                           | String "+" r => (false, r)
                           | _ => (false, s')
                           end in
        let '(v, len, rest) := digit_run 0 0 s'' in
        if (0 <? len) && bool_decide (rest = "") then Some (if neg then - v else v) else None
      else None
  end.

Definition scale10 (m e : Z) : Z * Z := (m * 10 ^ Z.max 0 e, 10 ^ Z.max 0 (- e)).

(** Digits, a point and digits (one side may be empty), an exponent. *)
Definition decimal (neg : bool) (s : string) : option pyfloat :=
  let '(m1, l1, r1) := digit_run 0 0 s in
  let '(m2, l2, r2) := match r1 with
                       | String "." r => digit_run m1 0 r
                       | _ => (m1, 0, r1)
                       end in
  if 0 <? l1 + l2 then
    e ← exponent r2;
    let '(n, d) := scale10 m2 (e - l2) in
    Some (round_double neg n d)
  else None.

Definition unsigned_float (neg : bool) (s : string) : option pyfloat :=
  if bool_decide (lower s ∈ ["inf"; "infinity"]) then Some (Inf neg)
  else if bool_decide (lower s = "nan") then Some NaN
  else decimal neg s.

(** [float(s)]; [None] is [ValueError]. *)
Definition py_float (s : string) : option pyfloat :=
  t ← drop_underscores None (strip s);
  match t with
  | String "-" r => unsigned_float true r
  | String "+" r => unsigned_float false r
  | _ => unsigned_float false t
  end.

Example py_int_ex : (py_int " -1_000 ", py_int "1__0", py_int "+", py_int "007") = (Some (-1000), None, None, Some 7).
Proof. reflexivity. Qed.

Example py_float_ex :
  (py_float "30", py_float "-2.5e-1", py_float "1e400", py_float "1_0.", py_float ".", py_float "-iNf")
  = (Some (Fin 30), Some (Fin (-1 # 4)), Some (Inf false), Some (Fin 10),
     None, Some (Inf true)).
Proof. vm_compute. reflexivity. Qed.

Example py_float_tenth : py_float "0.1" = Some (Fin (3602879701896397 # 36028797018963968)).
Proof. vm_compute. reflexivity. Qed.

Example py_float_denormal : py_float "5e-324" = Some (Fin (1 # Z.to_pos (2 ^ 1074))) ∧ py_float "2e-324" = Some (Fin 0).
Proof. vm_compute. split; reflexivity. Qed.

(** ** ipaddress *)

(** [s.split(sep)] *)
Fixpoint split_on (sep : ascii) (s : string) : list string :=
  match s with
  | EmptyString => [""]
  | String c s' =>
      if bool_decide (c = sep) then "" :: split_on sep s'
      else match split_on sep s' with
           | w :: ws => String c w :: ws
           | [] => [String c ""]
           end
  end.

(** An octet: one to three decimal digits without a leading zero, at most 255. *)
Definition octet_ok (s : string) : bool :=
  nonempty s && all_str dec_digit s && (Z.of_nat (String.length s) <=? 3)
  && (bool_decide (s = "0") || negb (bool_decide (String.get 0 s = Some "0"%char)))
  && match int_digits 0 false s with Some z => z <=? 255 | None => false end.

Definition has_char (a : ascii) (s : string) : bool := negb (all_str (λ c, negb (bool_decide (c = a))) s).

(** [IPv4Address(s)] succeeds. *)
Definition is_ipv4 (s : string) : bool :=
  let os := split_on "." s in
  negb (has_char "/" s) && (length os =? 4)%nat && forallb octet_ok os.

Definition hextet_ok (s : string) : bool :=
  nonempty s && all_str (λ c, dec_digit c || between 65 70 c || between 97 102 c) s
  && (Z.of_nat (String.length s) <=? 4).

(** The parts of an IPv6 address; an IPv4 tail stands for two hextets. *)
Definition v6_parts (s : string) : option (list string) :=
  let parts := split_on ":" s in
  if (length parts <? 3)%nat then None
  else match last parts with
       | Some l => if has_char "." l
                   then if is_ipv4 l then Some (removelast parts ++ ["0"; "0"]) else None
                   else Some parts
       | None => None
       end.

(** Positions of the empty inner parts. *)
Definition inner_empty (parts : list string) : list nat :=
  filter (λ i, (0 < i)%nat ∧ (S i < length parts)%nat ∧ parts !! i = Some "") (List.seq 0 (length parts)).

Definition v6_body (s : string) : bool :=
  match v6_parts s with
  | None => false
  | Some parts =>
      let n := length parts in
      (n <=? 9)%nat &&
      match inner_empty parts with
      | [] => (n =? 8)%nat && forallb hextet_ok parts
      | [i] =>
          let hi := if bool_decide (parts !! 0%nat = Some "") then (i - 1)%nat else i in
          let lo := if bool_decide (last parts = Some "") then (n - i - 2)%nat else (n - i - 1)%nat in
          (bool_decide (parts !! 0%nat ≠ Some "") || (hi =? 0)%nat)
          && (bool_decide (last parts ≠ Some "") || (lo =? 0)%nat)
          && (hi + lo <? 8)%nat
          && forallb hextet_ok (take hi parts) && forallb hextet_ok (drop (n - lo) parts)
      | _ => false
      end
  end.

(** [addr%scope]: the scope may be neither empty nor contain a percent sign. *)
Definition is_ipv6 (s : string) : bool :=
  negb (has_char "/" s) &&
  match split_on "%" s with
  | [addr] => v6_body addr
  | [addr; scope] => nonempty scope && v6_body addr
  | _ => false
  end.

(** [ipaddress.ip_address(s).version]; [None] is [ValueError]. *)
Definition ip_version (s : string) : option Z :=
  if is_ipv4 s then Some 4 else if is_ipv6 s then Some 6 else None.

Example ip_version_ex :
  ip_version <$> ["192.0.2.1"; "192.0.2.01"; "1.2.3"; "::"; "::1"; "fe80::1%eth0"; "1:2:3:4:5:6:7:8"; "1::2::3";
                  ":1::2"; "::ffff:192.0.2.1"; "1:2:3:4:5:6:7::"; "1:2:3:4:5:6:7:8::"; "12345::"; ""]
  = [Some 4; None; None; Some 6; Some 6; Some 6; Some 6; None; None; Some 6; Some 6; None; None; None].
Proof. vm_compute. reflexivity. Qed.

(** [s.strip(c)] for one character. *)
Fixpoint rstrip_char (a : ascii) (s : string) : string :=
  match s with
  | EmptyString => ""
  | String c s' =>
      match rstrip_char a s' with
      | EmptyString => if bool_decide (c = a) then "" else String c ""
      | r => String c r
      end
  end.

Definition strip_char (a : ascii) (s : string) : string := rstrip_char a (lstrip_char a s).

(** ** repr *)

Definition hex_digit (n : N) : ascii := ascii_of_N (if (n <? 10)%N then n + 48 else n + 87).

(** One character of [repr(s)]: what Unicode does not print is escaped. *)
Definition repr_char (quote c : ascii) : string :=
  let n := code c in
  if bool_decide (c = quote) || (n =? 92)%N then String (ascii_of_N 92) (String c "")
  else if (n =? 9)%N then String (ascii_of_N 92) "t"
  else if (n =? 10)%N then String (ascii_of_N 92) "n"
  else if (n =? 13)%N then String (ascii_of_N 92) "r"
  else if (n <? 32)%N || between 127 160 c || (n =? 173)%N
  then String (ascii_of_N 92) (String "x" (String (hex_digit (n / 16)) (String (hex_digit (n mod 16)) "")))
  else String c "".

Fixpoint repr_chars (quote : ascii) (s : string) : string :=
  match s with EmptyString => "" | String c s' => repr_char quote c +:+ repr_chars quote s' end.

Definition py_repr (s : string) : string :=
  let quote := ascii_of_N (if has_char "'" s && negb (has_char (ascii_of_N 34) s) then 34 else 39) in
  String quote (repr_chars quote s +:+ String quote "").

Example py_repr_ex :
  (py_repr "a'b", py_repr (String "009" (String "160" "x"))) =
  (String (ascii_of_N 34) ("a'b" +:+ String (ascii_of_N 34) ""),
   "'" +:+ String (ascii_of_N 92) ("t" +:+ String (ascii_of_N 92) "xa0x'")).
Proof. reflexivity. Qed.

(** The exponent [e] with [10 ^ e <= n / d < 10 ^ (e + 1)]. *)
Definition ge_pow10 (n d e : Z) : bool := d * 10 ^ Z.max 0 e <=? n * 10 ^ Z.max 0 (- e).

Definition exp10 (n d : Z) : Z :=
  let e := (Z.log2 n - Z.log2 d) * 30103 / 100000 in
  let e := if ge_pow10 n d (e + 1) then e + 1 else e in
  let e := if ge_pow10 n d e then e else e - 1 in
  if ge_pow10 n d e then e else e - 1.

(** [m * 10 ^ e] reads back as [n / d]. *)
Definition reads_back (n d m e : Z) : bool :=
  let '(a, b) := scale10 m e in
  match round_pos a b with Fin q => Qeq_bool q (n # Z.to_pos d) | _ => false end.

(** The shortest digits that read back, and the nearest of these: the digits and their scale. *)
Fixpoint shortest (fuel : nat) (len : Z) (n d e10 : Z) : Z * Z :=
  let e := e10 + 1 - len in
  let num := n * 10 ^ Z.max 0 (- e) in
  let den := d * 10 ^ Z.max 0 e in
  let lo := num / den in
  let near := div_half_even num den in
  let far := if near =? lo then lo + 1 else lo in
  match fuel with
  | O => (near, e)
  | S fuel =>
      if reads_back n d near e then (near, e)
      else if reads_back n d far e then (far, e)
      else shortest fuel (len + 1) n d e10
  end.

Fixpoint zeros (n : nat) : string := match n with O => "" | S n => String "0" (zeros n) end.

Definition pad_exp (e : Z) : string :=
  (if e <? 0 then "-" else "+") +:+ (if Z.abs e <? 10 then "0" else "") +:+ pretty (Z.abs e).

(** [repr] of a positive finite double. *)
Definition repr_pos (q : Q) : string :=
  let n := Qnum q in
  let d := Z.pos (Qden q) in
  let '(m, e) := shortest 17 1 n d (exp10 n d) in
  let ds := pretty m in
  let len := String.length ds in
  let decpt := Z.of_nat len + e in
  if (-4 <? decpt) && (decpt <=? 16) then
    if decpt <=? 0 then "0." +:+ zeros (Z.to_nat (- decpt)) +:+ ds
    else if Z.of_nat len <=? decpt then ds +:+ zeros (Z.to_nat (decpt - Z.of_nat len)) +:+ ".0"
    else String.substring 0 (Z.to_nat decpt) ds +:+ "." +:+ String.substring (Z.to_nat decpt) len ds
  else
    String.substring 0 1 ds +:+ (if (1 <? Z.of_nat len) then "." +:+ String.substring 1 len ds else "")
    +:+ "e" +:+ pad_exp (decpt - 1).

(** [repr(f)]; a zero is written without a sign. *)
Definition float_repr (f : pyfloat) : string :=
  match f with
  | Fin q => if Qeq_bool q 0 then "0.0" else if Qle_bool 0 q then repr_pos q else "-" +:+ repr_pos (- q)
  | Inf neg => if neg then "-inf" else "inf"
  | NaN => "nan"
  end.

Definition float_text (s : string) : string := match py_float s with Some f => float_repr f | None => "" end.

Example float_repr_ex :
  float_text <$> ["0.1"; "2.50"; "30"; "1e22"; "9999999999999998"; "1e16"; "0.0001"; "0.00001"; "5e-324"; "-1.7976931348623157e308";
                  "123456789012345678"; "0.3333333333333333333"; "5.684341886080801486968994140625e-14"]
  = ["0.1"; "2.5"; "30.0"; "1e+22"; "9999999999999998.0"; "1e+16"; "0.0001"; "1e-05"; "5e-324"; "-1.7976931348623157e+308";
     "1.2345678901234568e+17"; "0.3333333333333333"; "5.684341886080802e-14"].
Proof. vm_compute. reflexivity. Qed.
