(* ===== verification/NumText.v ===== *)
(** * Facts about numbers as text

    What [str] of an integer looks like and that [int] and [float] read it back. *)
From Stdlib Require Import Ascii Qcanon.
From S2P Require Import Prelude PyStr PyNum.

(** ** Strings of one class of characters *)

Lemma all_str_app P s s' : all_str P (s +:+ s') = all_str P s && all_str P s'.
Proof. induction s as [|c s IH]; simpl; [done|]. by rewrite IH, andb_assoc. Qed.

Lemma all_str_mono (P Q : ascii → bool) s :
  (∀ c, P c = true → Q c = true) → all_str P s = true → all_str Q s = true.
Proof.
  intros H. induction s as [|c s IH]; simpl; [done|]. intros [?%H ?%IH]%andb_true_iff. by apply andb_true_iff.
Qed.

Lemma string_app_assoc (s1 s2 s3 : string) : (s1 +:+ s2) +:+ s3 = s1 +:+ s2 +:+ s3.
Proof. induction s1 as [|c s1 IH]; [done|]. exact (f_equal (String c) IH). Qed.

Lemma string_app_nil (s : string) : s +:+ "" = s.
Proof. induction s as [|c s IH]; [done|]. exact (f_equal (String c) IH). Qed.

Definition no_space (s : string) : bool := all_str (λ c, negb (is_space c)) s.

Lemma no_space_cons c s : no_space (String c s) = negb (is_space c) && no_space s.
Proof. done. Qed.

Lemma strip_word s : no_space s = true → strip s = s.
Proof.
  intros Hs. unfold strip. assert (lstrip s = s) as ->.
  { destruct s as [|c s]; [done|]. rewrite no_space_cons in Hs. apply andb_true_iff in Hs as [Hc%negb_true_iff _]. simpl. by rewrite Hc. }
  induction s as [|c s IH]; [done|]. rewrite no_space_cons in Hs. apply andb_true_iff in Hs as [Hc%negb_true_iff Hs].
  simpl. rewrite (IH Hs), Hc. by destruct s.
Qed.

(** ** Decimal numerals *)

Lemma pretty_N_char_digit x : (x < 10)%N → dec_digit (pretty_N_char x) = true ∧ digit_val (pretty_N_char x) = Z.of_N x.
Proof.
  intros Hx. assert (x ∈ [0; 1; 2; 3; 4; 5; 6; 7; 8; 9]%N) as Hin.
  { rewrite !elem_of_cons, elem_of_nil. lia. }
  rewrite !elem_of_cons, elem_of_nil in Hin. naive_solver.
Qed.

(** Reading a numeral in front of [s], for any reader that goes digit by digit. *)
Lemma pretty_N_go_read {R} (f : Z → Z → string → R) x s :
  (∀ acc len c s, 0 <= len → dec_digit c = true → f acc len (String c s) = f (10 * acc + digit_val c) (len + 1) s) →
  (0 < x)%N → ∃ len, 0 < len ∧ f 0 0 (pretty_N_go x s) = f (Z.of_N x) len s.
Proof.
  intros Hf. revert s. induction x as [x IH] using (well_founded_induction N.lt_wf_0). intros s Hx. rewrite pretty_N_go_step by done.
  destruct (pretty_N_char_digit (x `mod` 10)%N) as [Hd Hv]; [by apply N.mod_lt|].
  destruct (decide (x < 10)%N) as [Hlt|Hge].
  - rewrite N.div_small, pretty_N_go_0, Hf, Hv, N.mod_small by done || lia. exists 1. split; [lia|]. f_equal.
  - destruct (IH (x `div` 10)%N) with (s := String (pretty_N_char (x `mod` 10)) s) as (len & Hl & ->).
    + apply N.div_lt; lia.
    + apply N.div_str_pos. lia.
    + exists (len + 1). split; [lia|]. rewrite Hf, Hv by done || lia. f_equal.
      pose proof (N.div_mod x 10 ltac:(lia)). lia.
Qed.

Lemma pretty_N_go_all P x s : (∀ c, dec_digit c = true → P c = true) → all_str P s = true → all_str P (pretty_N_go x s) = true.
Proof.
  intros HP. revert s. induction x as [x IH] using (well_founded_induction N.lt_wf_0). intros s Hs.
  destruct (decide (x = 0)%N) as [->|Hx]; [by rewrite pretty_N_go_0|]. rewrite pretty_N_go_step by lia. apply IH.
  - apply N.div_lt; lia.
  - simpl. rewrite Hs, andb_true_r. apply HP, pretty_N_char_digit. by apply N.mod_lt.
Qed.

Lemma pretty_N_all (x : N) : all_str dec_digit (pretty x) = true.
Proof. unfold pretty, pretty_N. case_decide; [done|]. by apply pretty_N_go_all. Qed.

Lemma pretty_N_run x s :
  (0 < x)%N → ∃ len, 0 < len ∧ digit_run 0 0 (pretty_N_go x s) = digit_run (Z.of_N x) len s.
Proof. apply (pretty_N_go_read digit_run). intros acc len c s' _ Hc. cbn [digit_run]. by rewrite Hc. Qed.

Lemma pretty_N_nonempty (x : N) : (pretty x : string) ≠ "".
Proof.
  unfold pretty, pretty_N. case_decide as Hx; [done|]. destruct (pretty_N_run x "") as (len & Hl & Hr); [lia|].
  intros E. rewrite E in Hr. simpl in Hr. injection Hr as ? ?. lia.
Qed.

Lemma pretty_N_int (x : N) : int_digits 0 false (pretty x) = Some (Z.of_N x).
Proof.
  unfold pretty, pretty_N. case_decide as Hx; [by subst|].
  destruct (pretty_N_go_read (λ acc len s, int_digits acc (0 <? len) s) x "") as (len & Hl & Hr); [|lia|].
  - intros acc len c s Hl Hc. cbn [int_digits]. rewrite Hc. by rewrite (proj2 (Z.ltb_lt 0 (len + 1))) by lia.
  - simpl in Hr. by rewrite (proj2 (Z.ltb_lt _ _) Hl) in Hr.
Qed.

Lemma pretty_Z_N (z : Z) : pretty z = (if z <? 0 then "-" else "") +:+ pretty (Z.to_N (Z.abs z)).
Proof. by destruct z. Qed.

Lemma digit_no_space s : all_str dec_digit s = true → no_space s = true.
Proof.
  apply all_str_mono. intros c. unfold dec_digit, between, is_space. intros [H1 H2]%andb_true_iff.
  apply N.leb_le in H1, H2. apply negb_true_iff, orb_false_iff. split; [apply orb_false_iff; split; [apply orb_false_iff; split|]|].
  1, 2: apply andb_false_iff; right; apply N.leb_gt; lia.
  all: apply N.eqb_neq; lia.
Qed.

Lemma pretty_Z_no_space (z : Z) : no_space (pretty z) = true.
Proof.
  rewrite pretty_Z_N. unfold no_space. rewrite all_str_app. apply andb_true_iff. split; [by destruct (z <? 0)|].
  apply digit_no_space, pretty_N_all.
Qed.

Lemma digits_head s : all_str dec_digit s = true → s ≠ "" → ∃ c s', s = String c s' ∧ dec_digit c = true.
Proof. destruct s as [|c s]; [done|]. simpl. intros [? _]%andb_true_iff _. eauto. Qed.

(** [int(str(z)) == z] *)
Lemma py_int_pretty (z : Z) : py_int (pretty z) = Some z.
Proof.
  unfold py_int. rewrite strip_word by apply pretty_Z_no_space. rewrite pretty_Z_N.
  pose proof (pretty_N_int (Z.to_N (Z.abs z))) as Hi.
  destruct (digits_head _ (pretty_N_all (Z.to_N (Z.abs z))) (pretty_N_nonempty _)) as (c & s & E & Hc).
  rewrite E in *. destruct (z <? 0) eqn:Ez; to_prop.
  - change ("-" +:+ String c s) with (String "-" (String c s)). cbn [bool_decide]. rewrite bool_decide_eq_true_2 by done.
    rewrite Hi. simpl. f_equal. lia.
  - change ("" +:+ String c s) with (String c s). cbv iota. rewrite !bool_decide_eq_false_2 by (by intros ->). rewrite Hi. f_equal. lia.
Qed.

Lemma isdigit_digits s : all_str dec_digit s = true → s ≠ "" → isdigit s = true.
Proof.
  intros Hs Hne. unfold isdigit, nonempty. rewrite bool_decide_eq_false_2 by done. simpl. revert Hs. apply all_str_mono.
  intros c Hc. unfold digit_char. by rewrite Hc.
Qed.

(** The test of [_number] and of [_port]. *)
Lemma isdigit_pretty (z : Z) : 0 <= z → isdigit (pretty z) = true.
Proof.
  intros Hz. rewrite pretty_Z_N. rewrite (proj2 (Z.ltb_ge _ _) Hz). change (?x +:+ ?y) with y.
  apply isdigit_digits; [apply pretty_N_all|apply pretty_N_nonempty].
Qed.

Lemma lstrip_dash_pretty (z : Z) : isdigit (lstrip_char "-" (strip (pretty z))) = true.
Proof.
  rewrite strip_word by apply pretty_Z_no_space. rewrite pretty_Z_N.
  destruct (digits_head _ (pretty_N_all (Z.to_N (Z.abs z))) (pretty_N_nonempty _)) as (c & s & E & Hc).
  assert (lstrip_char "-" (pretty (Z.to_N (Z.abs z))) = pretty (Z.to_N (Z.abs z))) as Hl.
  { rewrite E. cbn [lstrip_char]. rewrite bool_decide_eq_false_2; [done|]. by intros ->. }
  assert (isdigit (pretty (Z.to_N (Z.abs z))) = true) as Hd by (apply isdigit_digits; [apply pretty_N_all|apply pretty_N_nonempty]).
  destruct (z <? 0); change (isdigit (lstrip_char "-" (pretty (Z.to_N (Z.abs z)))) = true); by rewrite Hl.
Qed.

(** ** Whole numbers as floats *)

Lemma div_half_even_exact a d : 0 < d → div_half_even (a * d) d = a.
Proof.
  intros Hd. unfold div_half_even. rewrite Z.div_mul, Z.mod_mul by lia. cbv zeta.
  by rewrite Z.mul_0_r, (proj2 (Z.ltb_ge _ _)), (proj2 (Z.eqb_neq _ _)) by lia.
Qed.

Lemma round_pos_int n : 0 < n < 2 ^ 53 → round_pos n 1 = Fin (inject_Z n).
Proof.
  intros [Hn Hlt]. unfold round_pos. change (Z.log2 1) with 0. rewrite Z.sub_0_r.
  pose proof (Z.log2_spec n Hn) as [Hlo Hhi]. pose proof (Z.log2_nonneg n).
  assert (Z.log2 n < 53) as Hl by (apply Z.log2_lt_pow2; lia).
  rewrite (Z.max_l 0 (- Z.log2 n)), (Z.max_r 0 (Z.log2 n)), Z.mul_1_r, Z.mul_1_l by lia. rewrite (proj2 (Z.ltb_ge _ _)) by done. cbv zeta.
  set (e := Z.max (-1074) (Z.log2 n - 52)). assert (-52 <= e <= 0) as He by lia.
  rewrite (Z.max_r 0 (- e)), (Z.max_l 0 e), Z.mul_1_r by lia.
  assert (div_half_even (n * 2 ^ (- e)) 1 = n * 2 ^ (- e)) as ->.
  { rewrite <- (Z.mul_1_r (n * 2 ^ (- e))) at 1. by apply div_half_even_exact. }
  assert (2 ^ (- e) > 0) as Hp by (apply Z.lt_gt, Z.pow_pos_nonneg; lia).
  assert (n * 2 ^ (- e) * 2 ^ e <= n * 2 ^ (- e)) as Hle.
  { destruct (decide (e = 0)) as [->|]; [simpl; lia|]. rewrite (Z.pow_neg_r 2 e) by lia. nia. }
  assert (n * 2 ^ (- e) < 2 ^ 1024) as Hbig.
  { assert (2 ^ (- e) <= 2 ^ 52) by (apply Z.pow_le_mono_r; lia).
    assert (n * 2 ^ (- e) < 2 ^ 53 * 2 ^ 52) by nia. etrans; [eassumption|]. by apply Z.ltb_lt. }
  destruct (2 ^ 1024 <=? n * 2 ^ (- e) * 2 ^ e) eqn:Eb; [apply Z.leb_le in Eb; lia|].
  destruct (0 <=? e) eqn:Ee.
  - to_prop. assert (e = 0) as -> by lia. simpl. do 2 f_equal. lia.
  - f_equal. assert (Qred (inject_Z n) = inject_Z n) as <- by (apply Qred_iff; apply Z.gcd_1_r).
    apply Qred_complete. unfold Qeq. simpl. rewrite Z2Pos.id by lia. lia.
Qed.

Lemma drop_underscores_none (prev : option ascii) s :
  prev ≠ Some "_"%char → all_str (λ c, negb (bool_decide (c = "_"%char))) s = true → drop_underscores prev s = Some s.
Proof.
  revert prev. induction s as [|c s IH]; intros prev Hp; cbn [drop_underscores all_str].
  - intros _. by rewrite bool_decide_eq_false_2.
  - intros [Hc%negb_true_iff Hs]%andb_true_iff. rewrite Hc, (bool_decide_eq_false_2 (prev = _)) by done. simpl.
    rewrite IH; [done| |done]. intros [= ->]. by rewrite bool_decide_eq_true_2 in Hc.
Qed.

Lemma decimal_pretty neg (x : N) :
  (x < 2 ^ 53)%N → decimal neg (pretty x) = Some (Fin (if neg then - inject_Z (Z.of_N x) else inject_Z (Z.of_N x))%Q).
Proof.
  intros Hx. unfold decimal. assert (∃ len, 0 < len ∧ digit_run 0 0 (pretty x) = (Z.of_N x, len, "")) as (len & Hl & ->).
  { unfold pretty, pretty_N. case_decide as H0; [subst; by exists 1|]. by apply pretty_N_run; lia. }
  rewrite Z.add_0_r, (proj2 (Z.ltb_lt _ _) Hl). cbn. unfold scale10. simpl. rewrite Z.mul_1_r.
  unfold round_double. destruct (Z.of_N x =? 0) eqn:E0.
  - to_prop. rewrite E0. by destruct neg.
  - to_prop. rewrite round_pos_int by lia. by destruct neg.
Qed.

(** [float(str(z)) == z] for the whole numbers a double holds exactly. *)
Lemma py_float_pretty (z : Z) : Z.abs z < 2 ^ 53 → py_float (pretty z) = Some (Fin (inject_Z z)).
Proof.
  intros Hz. unfold py_float. rewrite strip_word by apply pretty_Z_no_space.
  pose proof (pretty_N_all (Z.to_N (Z.abs z))) as Hall. rewrite pretty_Z_N.
  assert (∀ s, all_str dec_digit s = true → all_str (λ c, negb (bool_decide (c = "_"%char))) s = true) as Hus.
  { intros s. apply all_str_mono. intros c Hc. apply negb_true_iff, bool_decide_eq_false. by intros ->. }
  rewrite drop_underscores_none; [|done|rewrite all_str_app, (Hus _ Hall); by destruct (z <? 0)]. simpl.
  assert (∀ neg, unsigned_float neg (pretty (Z.to_N (Z.abs z))) =
    Some (Fin (if neg then - inject_Z (Z.abs z) else inject_Z (Z.abs z))%Q)) as Hf.
  { intros neg. unfold unsigned_float. destruct (digits_head _ Hall (pretty_N_nonempty _)) as (c & s & E & Hc).
    assert (∀ d t, lower (String c s) = String d t → dec_digit d = true) as Hlow.
    { intros d t [= <- _]. unfold lower_char. unfold dec_digit, between in *. apply andb_true_iff in Hc as [H1 H2].
      apply N.leb_le in H1, H2. rewrite (proj2 (N.leb_gt 65 (code c))), (proj2 (N.leb_gt 192 (code c))) by lia. simpl.
      by rewrite (proj2 (N.leb_le _ _) H1), (proj2 (N.leb_le _ _) H2). }
    rewrite !bool_decide_eq_false_2; [| |].
    - rewrite decimal_pretty by lia. rewrite Z2N.id by lia. done.
    - rewrite E. intros H. by apply Hlow in H.
    - rewrite E. rewrite !elem_of_cons, elem_of_nil. intros [H|[H|[]]]; by apply Hlow in H. }
  destruct (z <? 0) eqn:Ez; to_prop.
  - change ("-" +:+ pretty (Z.to_N (Z.abs z))) with (String "-" (pretty (Z.to_N (Z.abs z)))). cbv iota. rewrite Hf.
    do 2 f_equal. unfold inject_Z, Qopp. simpl. f_equal. lia.
  - change ("" +:+ pretty (Z.to_N (Z.abs z))) with (pretty (Z.to_N (Z.abs z)) : string).
    specialize (Hf false). rewrite Z.abs_eq in * by lia.
    destruct (digits_head _ Hall (pretty_N_nonempty _)) as (c & s & E & Hc). rewrite E in *.
    destruct c as [[] [] [] [] [] [] [] []]; done.
Qed.
