(* ===== verification/Lexer.v ===== *)
(** * The tokenizer of the modern grammar (src/psysmon/config/modern.py, [tokenize])

    The index of the source is the part of the text not read yet.  [None] means that the
    loop has not ended within the given fuel; see [tokenize_terminates] for when that
    happens. *)
From Stdlib Require Import Ascii.
From S2P Require Import Prelude PyStr PyNum.

Inductive TokenKind : Type := WORD | STRING | LBRACE | RBRACE | EQUALS | SEMI.

#[export] Instance TokenKind_eq_dec : EqDecision TokenKind.
Proof. solve_decision. Defined.

Record Token : Type := MkToken { kind : TokenKind; value : string; line : Z }.

#[export] Instance Token_eq_dec : EqDecision Token.
Proof. solve_decision. Defined.

Definition nl : ascii := "010"%char.
Definition dq : ascii := "034"%char.

Definition _SPECIAL (c : ascii) : bool := bool_decide (c ∈ [dq; "{"; "}"; "="; ";"; "#"]%char).

Definition blank (c : ascii) : bool := bool_decide (c ∈ [" "; "009"; "013"]%char).

(** The comment loop: up to the end of the line. *)
Fixpoint skip_comment (s : string) : string :=
  match s with
  | String c s' => if bool_decide (c = nl) then s else skip_comment s'
  | EmptyString => ""
  end.

(** The string loop, after the opening quote: the contents and what follows the closing
    quote; [None] when the line or the text ends first. *)
Fixpoint read_string (s : string) : option (string * string) :=
  match s with
  | EmptyString => None
  | String c s' =>
      if bool_decide (c = dq) then Some ("", s')
      else if bool_decide (c = nl) then None
      else '(buf, rest) ← read_string s'; Some (String c buf, rest)
  end.

Definition word_char (c : ascii) : bool := negb (_SPECIAL c) && negb (is_space c).

(** The bareword loop. *)
Fixpoint read_word (s : string) : string * string :=
  match s with
  | String c s' => if word_char c then let '(w, rest) := read_word s' in (String c w, rest) else ("", s)
  | EmptyString => ("", "")
  end.

Definition lex_error (line : Z) : string := "line " +:+ pretty line +:+ ": unterminated string".

Definition cons_token (t : Token) (r : option (res string (list Token))) : option (res string (list Token)) :=
  match r with Some (Ok ts) => Some (Ok (t :: ts)) | _ => r end.

Fixpoint tokenize_loop (fuel : nat) (line : Z) (at_boundary : bool) (text : string)
    : option (res string (list Token)) :=
  match text with
  | EmptyString => Some (Ok [])
  | String ch rest =>
      match fuel with
      | O => None
      | S fuel =>
          if bool_decide (ch = nl) then tokenize_loop fuel (line + 1) true rest
          else if blank ch then tokenize_loop fuel line at_boundary rest
          else if bool_decide (ch = "#"%char) || (bool_decide (ch = ";"%char) && at_boundary)
          then tokenize_loop fuel line at_boundary (skip_comment text)
          else if bool_decide (ch = dq) then
            match read_string rest with
            | Some (buf, rest') => cons_token (MkToken STRING buf line) (tokenize_loop fuel line false rest')
            | None => Some (Raise (lex_error line))
            end
          else if bool_decide (ch = ";"%char)
          then cons_token (MkToken SEMI "" line) (tokenize_loop fuel line true rest)
          else if bool_decide (ch = "{"%char)
          then cons_token (MkToken LBRACE "" line) (tokenize_loop fuel line true rest)
          else if bool_decide (ch = "}"%char)
          then cons_token (MkToken RBRACE "" line) (tokenize_loop fuel line false rest)
          else if bool_decide (ch = "="%char)
          then cons_token (MkToken EQUALS "" line) (tokenize_loop fuel line false rest)
          else
            let '(w, rest') := read_word text in
            cons_token (MkToken WORD w line) (tokenize_loop fuel line false rest')
      end
  end.

(** One iteration per character is enough. *)
Definition tokenize (text : string) : option (res string (list Token)) :=
  tokenize_loop (String.length text) 1 true text.

Definition q1 : string := String dq "a b" +:+ String dq "".

Example tokenize_ex :
  tokenize ("object www {  ; note" +:+ String nl ("host " +:+ q1 +:+ "; } ;;x")) =
  Some (Ok [MkToken WORD "object" 1; MkToken WORD "www" 1; MkToken LBRACE "" 1;
            MkToken WORD "host" 2; MkToken STRING "a b" 2; MkToken SEMI "" 2;
            MkToken RBRACE "" 2; MkToken SEMI "" 2]).
Proof. vm_compute. reflexivity. Qed.

(** ** Termination *)

(** Whitespace that is neither skipped nor part of a word: VT, FF, FS to US, NEL, NBSP. *)
Definition stuck_char (c : ascii) : bool := is_space c && negb (bool_decide (c = nl)) && negb (blank c).

Lemma skip_comment_shorter s : (String.length (skip_comment s) <= String.length s)%nat.
Proof. induction s as [|c s IH]; simpl; [lia|]. destruct (bool_decide _); simpl; lia. Qed.

Lemma skip_comment_all P s : all_str P s = true → all_str P (skip_comment s) = true.
Proof.
  induction s as [|c s IH]; simpl; [done|]. intros [Hc Hs]%andb_true_iff.
  destruct (bool_decide _); simpl; [by rewrite Hc|by apply IH].
Qed.

Lemma read_string_shorter s buf rest :
  read_string s = Some (buf, rest) → (String.length rest < String.length s)%nat.
Proof.
  revert buf. induction s as [|c s IH]; intros buf; simpl; [done|].
  destruct (bool_decide (c = dq)); [intros [= _ <-]; lia|]. destruct (bool_decide (c = nl)); [done|].
  destruct (read_string s) as [[b r]|]; simpl; [|done]. intros [= _ <-]. specialize (IH b eq_refl). lia.
Qed.

Lemma read_string_all P s buf rest :
  read_string s = Some (buf, rest) → all_str P s = true → all_str P rest = true.
Proof.
  revert buf. induction s as [|c s IH]; intros buf; simpl; [done|].
  destruct (bool_decide (c = dq)); [intros [= _ <-] [_ ?]%andb_true_iff; done|].
  destruct (bool_decide (c = nl)); [done|].
  destruct (read_string s) as [[b r]|]; simpl; [|done]. intros [= _ <-] [_ Hs]%andb_true_iff. by eapply IH.
Qed.

Lemma read_word_shorter s : (String.length (read_word s).2 <= String.length s)%nat.
Proof.
  induction s as [|c s IH]; simpl; [lia|]. destruct (word_char c); simpl; [|lia].
  destruct (read_word s) as [w r]. simpl in *. lia.
Qed.

Lemma read_word_all P s : all_str P s = true → all_str P (read_word s).2 = true.
Proof.
  induction s as [|c s IH]; simpl; [done|]. intros [Hc Hs]%andb_true_iff.
  destruct (word_char c); [|by rewrite <- Hc in *; simpl; rewrite Hc, Hs].
  specialize (IH Hs). by destruct (read_word s).
Qed.

(** More fuel does not change an answer. *)
Lemma tokenize_loop_mono fuel fuel' l b s r :
  (fuel <= fuel')%nat → tokenize_loop fuel l b s = Some r → tokenize_loop fuel' l b s = Some r.
Proof.
  assert (∀ t x x', (∀ y, x = Some y → x' = Some y) → ∀ y, cons_token t x = Some y → cons_token t x' = Some y) as Hcons.
  { intros t [x|] x' H y; [|done]. rewrite (H x eq_refl). done. }
  revert fuel' l b s r. induction fuel as [|fuel IH]; intros fuel' l b s r Hle.
  { destruct s; [|done]. by destruct fuel'. }
  destruct s as [|c s]; [by destruct fuel'|]. destruct fuel' as [|fuel']; [lia|].
  assert (fuel <= fuel')%nat as Hle' by lia. cbn [tokenize_loop].
  repeat case_match; try done; eauto; apply Hcons; eauto.
Qed.

(** A character outside these classes starts a word, so reading it makes progress. *)
Lemma read_word_progress c s :
  word_char c = true → (String.length (read_word (String c s)).2 < S (String.length s))%nat.
Proof.
  intros Hc. simpl. rewrite Hc. pose proof (read_word_shorter s). destruct (read_word s). simpl in *. lia.
Qed.

Lemma special_cases c :
  bool_decide (c = nl) = false → blank c = false → stuck_char c = false →
  bool_decide (c = "#"%char) = false → bool_decide (c = dq) = false → bool_decide (c = ";"%char) = false →
  bool_decide (c = "{"%char) = false → bool_decide (c = "}"%char) = false → bool_decide (c = "="%char) = false →
  word_char c = true.
Proof.
  unfold stuck_char, word_char, _SPECIAL. intros H1 H2 H3 H4 H5 H6 H7 H8 H9.
  rewrite H1, H2 in H3. simpl in H3. rewrite !andb_true_r in H3. rewrite H3, andb_true_r. apply negb_true_iff.
  to_prop. rewrite !elem_of_cons, elem_of_nil. naive_solver.
Qed.

Lemma tokenize_loop_total fuel l b s :
  all_str (λ c, negb (stuck_char c)) s = true → (String.length s <= fuel)%nat →
  is_Some (tokenize_loop fuel l b s).
Proof.
  assert (∀ t x, is_Some x → is_Some (cons_token t x)) as Hcons
    by (intros t x [[ts|e] ->]; by eexists).
  revert l b s. induction fuel as [|fuel IH]; intros l b s Hs Hlen.
  { destruct s; simpl in *; [by eexists|lia]. }
  destruct s as [|c s]; [by eexists|]. pose proof Hs as Hcs. simpl in Hs, Hlen. apply andb_true_iff in Hs as [Hc Hs].
  cbn [tokenize_loop].
  destruct (bool_decide (c = nl)) eqn:Enl; [apply IH; [done|lia]|].
  destruct (blank c) eqn:Ebl; [apply IH; [done|lia]|].
  destruct (bool_decide (c = "#"%char) || (bool_decide (c = ";"%char) && b)) eqn:Ecom.
  { apply IH; [by apply skip_comment_all|]. simpl. rewrite Enl. pose proof (skip_comment_shorter s). lia. }
  destruct (bool_decide (c = dq)) eqn:Edq.
  { destruct (read_string s) as [[buf rest]|] eqn:Er; [|by eexists].
    pose proof (read_string_shorter _ _ _ Er). apply Hcons, IH; [by eapply read_string_all|lia]. }
  destruct (bool_decide (c = ";"%char)) eqn:Esemi; [apply Hcons, IH; [done|lia]|].
  destruct (bool_decide (c = "{"%char)) eqn:El; [apply Hcons, IH; [done|lia]|].
  destruct (bool_decide (c = "}"%char)) eqn:Erb; [apply Hcons, IH; [done|lia]|].
  destruct (bool_decide (c = "="%char)) eqn:Eeq; [apply Hcons, IH; [done|lia]|].
  assert (word_char c = true) as Hw.
  { apply special_cases; try done; [by apply negb_true_iff|]. by apply orb_false_iff in Ecom as []. }
  pose proof (read_word_progress c s Hw). pose proof (read_word_all _ _ Hcs) as Hall.
  destruct (read_word (String c s)) as [w rest]. simpl in *. apply Hcons, IH; [done|lia].
Qed.

(** Standing before such a character the loop reads an empty word for ever. *)
Lemma tokenize_loop_stuck fuel l b c s :
  stuck_char c = true → tokenize_loop fuel l b (String c s) = None.
Proof.
  intros Hc. revert l b. induction fuel as [|fuel IH]; intros l b; [done|].
  assert (word_char c = false) as Hw.
  { unfold stuck_char in Hc. unfold word_char. apply andb_true_iff in Hc as [[Hsp _]%andb_true_iff _].
    by rewrite Hsp, andb_false_r. }
  assert (bool_decide (c = nl) = false ∧ blank c = false) as [Hnl Hbl].
  { unfold stuck_char in Hc. by apply andb_true_iff in Hc as [[_ ?%negb_true_iff]%andb_true_iff ?%negb_true_iff]. }
  assert (∀ a, is_space a = false → bool_decide (c = a) = false) as Hne.
  { intros a Ha. apply bool_decide_eq_false. intros ->. unfold stuck_char in Hc. by rewrite Ha in Hc. }
  cbn [tokenize_loop]. rewrite Hnl, Hbl, (Hne "#"%char), (Hne ";"%char), (Hne dq), (Hne "{"%char), (Hne "}"%char),
    (Hne "="%char) by reflexivity. cbn [orb andb read_word]. rewrite Hw. by rewrite IH.
Qed.

Lemma tokenize_loop_error fuel l b s e :
  tokenize_loop fuel l b s = Some (Raise e) → ∃ l', e = lex_error l'.
Proof.
  assert (∀ t x, cons_token t x = Some (Raise e) → x = Some (Raise e)) as Hcons by (by intros t [[]|]).
  revert l b s. induction fuel as [|fuel IH]; intros l b s; [by destruct s|].
  destruct s as [|c s]; [done|]. cbn [tokenize_loop].
  repeat case_match; try done; eauto; intros [= <-]; by eexists.
Qed.


