(* ===== verification/PyDict.v ===== *)
(** * Dicts in insertion order

    A Python dict keyed by strings, as the list of its items: setting a key keeps its
    position, deleting removes it. *)
From S2P Require Import Prelude.

Section dicts.
Context {A : Type}.
Implicit Types d : list (string * A).

Fixpoint aget d (k : string) : option A :=
  match d with
  | [] => None
  | (k', v) :: d' => if bool_decide (k = k') then Some v else aget d' k
  end.

Fixpoint aset d (k : string) (v : A) : list (string * A) :=
  match d with
  | [] => [(k, v)]
  | (k', v') :: d' => if bool_decide (k = k') then (k', v) :: d' else (k', v') :: aset d' k v
  end.

Definition adel d (k : string) : list (string * A) := filter (λ kv, kv.1 ≠ k) d.

Definition akeys d : list string := fst <$> d.

Definition ahas d (k : string) : bool := match aget d k with Some _ => true | None => false end.

Lemma aget_aset d k v k' : aget (aset d k v) k' = if bool_decide (k' = k) then Some v else aget d k'.
Proof.
  induction d as [|[k1 v1] d IH]; simpl; [done|]. destruct (bool_decide (k = k1)) eqn:E.
  - apply bool_decide_eq_true in E as <-. simpl. by destruct (bool_decide (k' = k)).
  - simpl. rewrite IH. destruct (bool_decide (k' = k1)) eqn:E1; [|done].
    apply bool_decide_eq_true in E1 as ->. rewrite (bool_decide_eq_false_2 (k1 = k)); [done|].
    intros ->. by rewrite bool_decide_eq_true_2 in E.
Qed.

Lemma aget_elem d k v : aget d k = Some v → (k, v) ∈ d.
Proof.
  induction d as [|[k1 v1] d IH]; simpl; [done|]. case_bool_decide as E.
  - intros [= ->]. subst. apply list_elem_of_here.
  - intros H. apply list_elem_of_further. by apply IH.
Qed.

Lemma aset_elem d k v k' v' : (k', v') ∈ aset d k v → (k' = k ∧ v' = v) ∨ (k', v') ∈ d.
Proof.
  induction d as [|[k1 v1] d IH]; simpl.
  - intros [= -> ->]%list_elem_of_singleton. by left.
  - case_bool_decide as E.
    + subst. intros [[= -> ->]|?]%elem_of_cons; [by left|right; by apply list_elem_of_further].
    + intros [[= -> ->]|?]%elem_of_cons; [right; apply list_elem_of_here|].
      destruct (IH ltac:(done)); [by left|right; by apply list_elem_of_further].
Qed.

Lemma akeys_aset d k v : k ∈ akeys d → akeys (aset d k v) = akeys d.
Proof.
  unfold akeys. induction d as [|[k1 v1] d IH]; simpl; [by intros []%elem_of_nil|].
  case_bool_decide as E; [done|]. intros [?|Hin]%elem_of_cons; [done|]. simpl. f_equal. by apply IH.
Qed.

Lemma akeys_aset_fresh d k v : k ∉ akeys d → akeys (aset d k v) = akeys d ++ [k].
Proof.
  unfold akeys. induction d as [|[k1 v1] d IH]; simpl; [done|].
  intros [Hne Hni]%not_elem_of_cons. rewrite bool_decide_eq_false_2 by done. simpl. f_equal. by apply IH.
Qed.

Lemma aget_None d k : aget d k = None ↔ k ∉ akeys d.
Proof.
  unfold akeys. induction d as [|[k1 v1] d IH]; simpl; [split; [by intros _ []%elem_of_nil|done]|].
  rewrite not_elem_of_cons. case_bool_decide as E; [naive_solver|]. rewrite IH. naive_solver.
Qed.

Lemma adel_aget d k k' : aget (adel d k) k' = if bool_decide (k' = k) then None else aget d k'.
Proof.
  unfold adel. induction d as [|[k1 v1] d IH]; [by destruct (bool_decide _)|]. rewrite filter_cons. simpl.
  destruct (decide (k1 ≠ k)) as [Hne|He]; simpl; rewrite IH.
  - destruct (decide (k' = k1)) as [->|?]; [rewrite (bool_decide_eq_false_2 (k1 = k)), bool_decide_eq_true_2 by done; done|].
    rewrite (bool_decide_eq_false_2 (k' = k1)) by done. done.
  - assert (k1 = k) as -> by (destruct (decide (k1 = k)); [done|by destruct He]).
    by destruct (bool_decide (k' = k)).
Qed.

Lemma akeys_adel d k : akeys (adel d k) = filter (λ g, g ≠ k) (akeys d).
Proof.
  unfold akeys, adel. induction d as [|[k1 v] d IH]; csimpl; [done|]. rewrite !filter_cons. simpl.
  case_decide; csimpl; by rewrite IH.
Qed.

End dicts.
