(* ===== verification/Modern.v ===== *)
(** * The parser of the modern grammar (src/psysmon/config/modern.py)

    [_Parser] is a state and exception monad over [PState]; its token index is the list of
    tokens not read yet.  A [Node] built by [_build_node] gets its identity from its position
    in [_objects].  Warnings are part of the state, with their text. *)
From Stdlib Require Import Ascii.
From S2P Require Import Prelude Status Model Graph Json PyStr PyNum PyDict Lexer.

(** ** What both parsers return *)

(** A value of the overrides: what JSON can hold, or a float that is not finite. *)
Inductive oval : Type := OV (j : json) | ONonFinite (f : pyfloat).

Definition oval_of_float (f : pyfloat) : oval :=
  match f with Fin q => OV (JFloat q) | f => ONonFinite f end.

Record ParseResult : Type := MkParseResult {
  pr_store : gmap nid Node;
  pr_roots : list nid;
  pr_overrides : list (string * oval);
  pr_warnings : list string
}.

Inductive perror : Type := ParseError (message : string) | ParseValueError.

(** [_FACILITIES] (config/legacy.py) *)
Definition _FACILITIES : list string :=
  ["kern"; "user"; "mail"; "daemon"; "auth"; "syslog"; "lpr"; "news"; "uucp"; "cron"; "authpriv";
   "local0"; "local1"; "local2"; "local3"; "local4"; "local5"; "local6"; "local7"].

(** ** Directive tables *)

Definition _INT_DIRECTIVES : list (string * string) :=
  [("pageinterval", "pageinterval_min"); ("numfailures", "numfailures"); ("dnsexpire", "dnsexpire_s");
   ("dnslog", "dnslog_s"); ("heartbeat", "heartbeat_s"); ("send_pings", "send_pings");
   ("min_pings", "min_pings"); ("statesave_interval", "statesave_s"); ("state_max_age", "state_max_age_s");
   ("maxqueued", "max_concurrency"); ("control_port", "control_port")].

Definition _FLOAT_DIRECTIVES : list (string * string) := [("queuetime", "interval_s")].

Definition _STR_DIRECTIVES : list (string * string) :=
  [("savestate", "state_path"); ("source_ip", "source_ip"); ("hostname", "org_hostname");
   ("sender", "mail_from"); ("from", "mail_from"); ("control_bind", "control_bind");
   ("control_token_file", "control_token_file"); ("control_tls_cert", "control_tls_cert");
   ("control_tls_key", "control_tls_key")].

Definition _FLAG_DIRECTIVES : list (string * (string * json)) :=
  [("page_on_degraded", ("page_on_degraded", JBool true)); ("noheartbeat", ("heartbeat_s", JInt 0));
   ("control", ("control_enabled", JBool true))].

Definition _LOGLEVELS : list string := ["warning"; "info"; "debug"].

Definition _TYPE_KEYWORDS : list (string * CheckType) :=
  [("ping", PING); ("ping6", PING6); ("pingv6", PING6); ("icmp6", PING6); ("tcp", TCP); ("udp", UDP);
   ("smtp", SMTP); ("pop3", POP3); ("pop3s", POP3S); ("imap", IMAP); ("imaps", IMAPS); ("dns", DNS);
   ("authdns", DNS); ("http", HTTP); ("www", HTTP); ("https", HTTPS); ("ssh", SSH); ("mysql", MYSQL);
   ("ftp", FTP); ("ftps", FTPS); ("telnet", TELNET)].

Definition _DROPPED_TYPES : list string := ["nntp"; "pop2"; "umichx500"; "radius"; "bootp"; "snmp"].

Definition _OBJECT_ATTRS : list string :=
  ["host"; "ip"; "type"; "port"; "desc"; "contact"; "url"; "urltext"; "username"; "password"; "dns-query";
   "dep"; "queuetime"; "send_pings"; "min_pings"; "numfailures"; "group"; "contact_on"; "source"].

Definition _GROUP_ATTRS : list string :=
  ["source"; "contact"; "contact_on"; "numfailures"; "queuetime"; "send_pings"; "min_pings"].

Definition mem (s : string) (l : list string) : bool := bool_decide (s ∈ l).

(** ** The parser's state *)

(** An attribute's value tokens; [dep] may repeat and keeps one list per edge. *)
Inductive attr_value : Type := Scalar (vs : list Token) | Deps (edges : list (list Token)).

Abbreviation attrs_t := (list (string * (Z * attr_value))).
Abbreviation resolved_t := (list (string * string)).

Record obj : Type := MkObj { o_name : string; o_node : Node; o_deps : list string; o_line : Z }.

Record PState : Type := MkP {
  toks : list Token;
  vars : gmap string string;
  overrides : list (string * oval);
  warnings : list string;
  objects : list obj;
  object_index : gmap string nid;
  object_attr_keys : gmap string (list string);
  group_defaults : gmap string resolved_t;
  root_name : option string;
  root_line : Z
}.

#[export] Instance set_toks : SetField toks := λ f x,
  let '(MkP a b c d e g h i j k) := x in MkP (f a) b c d e g h i j k.
#[export] Instance set_vars : SetField vars := λ f x,
  let '(MkP a b c d e g h i j k) := x in MkP a (f b) c d e g h i j k.
#[export] Instance set_overrides : SetField overrides := λ f x,
  let '(MkP a b c d e g h i j k) := x in MkP a b (f c) d e g h i j k.
#[export] Instance set_warnings : SetField warnings := λ f x,
  let '(MkP a b c d e g h i j k) := x in MkP a b c (f d) e g h i j k.
#[export] Instance set_objects : SetField objects := λ f x,
  let '(MkP a b c d e g h i j k) := x in MkP a b c d (f e) g h i j k.
#[export] Instance set_object_index : SetField object_index := λ f x,
  let '(MkP a b c d e g h i j k) := x in MkP a b c d e (f g) h i j k.
#[export] Instance set_object_attr_keys : SetField object_attr_keys := λ f x,
  let '(MkP a b c d e g h i j k) := x in MkP a b c d e g (f h) i j k.
#[export] Instance set_group_defaults : SetField group_defaults := λ f x,
  let '(MkP a b c d e g h i j k) := x in MkP a b c d e g h (f i) j k.
#[export] Instance set_root_name : SetField root_name := λ f x,
  let '(MkP a b c d e g h i j k) := x in MkP a b c d e g h i (f j) k.
#[export] Instance set_root_line : SetField root_line := λ f x,
  let '(MkP a b c d e g h i j k) := x in MkP a b c d e g h i j (f k).

Definition parser_init (tokens : list Token) : PState := MkP tokens ∅ [] [] [] ∅ ∅ ∅ None 0.

(** ** The monad *)

Definition M (A : Type) : Type := PState → res perror (A * PState).

#[export] Instance M_ret : MRet M := λ A a st, Ok (a, st).
#[export] Instance M_bind : MBind M := λ A B k m st,
  match m st with Ok (a, st') => k a st' | Raise e => Raise e end.

Definition get {A} (f : PState → A) : M A := λ st, Ok (f st, st).
Definition modify (f : PState → PState) : M unit := λ st, Ok (tt, f st).
Definition raise {A} (e : perror) : M A := λ _, Raise e.
Definition when (b : bool) (m : M unit) : M unit := if b then m else mret tt.

Fixpoint for_each {A} (f : A → M unit) (l : list A) : M unit :=
  match l with [] => mret tt | a :: l' => f a ;; for_each f l' end.

Fixpoint map_m {A B} (f : A → M B) (l : list A) : M (list B) :=
  match l with
  | [] => mret []
  | a :: l' => b ← f a; bs ← map_m f l'; mret (b :: bs)
  end.

Definition _warn (line : Z) (message : string) : M unit :=
  modify (λ st, st <| warnings := warnings st ++ ["line " +:+ pretty line +:+ ": " +:+ message] |>).

Definition set_override (field : string) (v : oval) : M unit :=
  modify (λ st, st <| overrides := aset (overrides st) field v |>).

Definition quoted (s : string) : string := "'" +:+ s +:+ "'".
Definition dquoted (s : string) : string := String dq (s +:+ String dq "").

(** ** Low-level helpers *)

Fixpoint until_semi (ts : list Token) : list Token * bool * list Token :=
  match ts with
  | [] => ([], false, [])
  | t :: ts' =>
      if bool_decide (kind t = SEMI) then ([], true, ts')
      else let '(c, b, r) := until_semi ts' in (t :: c, b, r)
  end.

Definition _collect_to_semi : M (list Token * bool) := λ st,
  let '(c, b, r) := until_semi (toks st) in Ok ((c, b), st <| toks := r |>).

(** Characters of a [$NAME]: a letter or an underscore, then [\w]. *)
Definition name_start (c : ascii) : bool :=
  between 65 90 c || between 97 122 c || bool_decide (c = "_"%char).

Definition name_char (c : ascii) : bool :=
  name_start c || dec_digit c || bool_decide (code c ∈ [170; 178; 179; 181; 185; 186; 188; 189; 190]%N)
  || (between 192 255 c && negb (code c =? 215)%N && negb (code c =? 247)%N).

Fixpoint name_run (s : string) : string * string :=
  match s with
  | String c s' => if name_char c then let '(w, r) := name_run s' in (String c w, r) else ("", s)
  | EmptyString => ("", "")
  end.

(** The text between references, and the references, as [_VAR_RE.sub] meets them. *)
Inductive segment : Type := SLit (c : ascii) | SVar (name : string).

Fixpoint segments (fuel : nat) (s : string) : list segment :=
  match fuel with
  | O => []
  | S fuel =>
      match s with
      | EmptyString => []
      | String c s' =>
          match s' with
          | String d s'' =>
              if bool_decide (c = "$"%char) && name_start d then
                let '(w, r) := name_run s'' in SVar (String d w) :: segments fuel r
              else SLit c :: segments fuel s'
          | EmptyString => [SLit c]
          end
      end
  end.

Fixpoint expand_segments (line : Z) (ss : list segment) : M string :=
  match ss with
  | [] => mret ""
  | SLit c :: ss' => r ← expand_segments line ss'; mret (String c r)
  | SVar n :: ss' =>
      vs ← get vars;
      v ← match vs !! n with
          | Some v => mret v
          | None => _warn line ("undefined variable $" +:+ n +:+ "; left literal") ;; mret (String "$" n)
          end;
      r ← expand_segments line ss';
      mret (v +:+ r)
  end.

Definition _subst (line : Z) (value : string) : M string :=
  expand_segments line (segments (String.length value) value).

(** ** Globals *)

Definition kind_at (ts : list Token) (i : nat) : option TokenKind := kind <$> ts !! i.
Definition value_at (ts : list Token) (i : nat) : string := default "" (value <$> ts !! i).

Definition warn_unterminated (line : Z) (terminated : bool) : M unit :=
  when (negb terminated) (_warn line "statement missing a terminating ';'").

Definition _set (line : Z) : M unit :=
  '(args, terminated) ← _collect_to_semi;
  warn_unterminated line terminated;;
  if bool_decide (kind_at args 0 = Some WORD) && bool_decide (kind_at args 1 = Some EQUALS)
     && bool_decide (kind_at args 2 ∈ [Some STRING; Some WORD])
  then
    when (3 <? length args)%nat (_warn line "'set' takes a single value; using the first");;
    v ← _subst line (value_at args 2);
    modify (λ st, st <| vars := <[value_at args 0 := v]> (vars st) |>)
  else _warn line ("malformed 'set' (expected: set NAME = " +:+ dquoted "value" +:+ ";); skipping").

Definition _one_value (line : Z) (name : string) (values : list Token) : M (option string) :=
  match values with
  | [] => _warn line ("config " +:+ name +:+ " needs a value; skipping");; mret None
  | v :: rest =>
      when (bool_decide (rest ≠ [])) (_warn line ("config " +:+ name +:+ " takes one value; using the first"));;
      r ← _subst line (value v);
      mret (Some r)
  end.

Definition with_value (line : Z) (name : string) (values : list Token) (k : string → M unit) : M unit :=
  raw ← _one_value line name values;
  match raw with Some r => k r | None => mret tt end.

Definition _set_int (line : Z) (field name : string) (values : list Token) : M unit :=
  with_value line name values (λ raw,
    match py_int raw with
    | Some z => set_override field (OV (JInt z))
    | None => _warn line ("config " +:+ name +:+ " expects an integer, got " +:+ quoted raw +:+ "; skipping")
    end).

Definition _set_float (line : Z) (field name : string) (values : list Token) : M unit :=
  with_value line name values (λ raw,
    match py_float raw with
    | Some f => set_override field (oval_of_float f)
    | None => _warn line ("config " +:+ name +:+ " expects a number, got " +:+ quoted raw +:+ "; skipping")
    end).

Definition _set_str (line : Z) (field name : string) (values : list Token) : M unit :=
  with_value line name values (λ raw, set_override field (OV (JStr raw))).

Definition _set_loglevel (line : Z) (values : list Token) : M unit :=
  with_value line "loglevel" values (λ raw,
    if mem (lower raw) _LOGLEVELS then set_override "log_level" (OV (JStr (lower raw)))
    else _warn line ("unknown loglevel " +:+ quoted raw +:+ "; using info");;
         set_override "log_level" (OV (JStr "info"))).

Definition _set_logging (line : Z) (values : list Token) : M unit :=
  with_value line "logging" values (λ raw,
    if bool_decide (raw = "none") then set_override "syslog_facility" (OV JNull)
    else if mem raw _FACILITIES then set_override "syslog_facility" (OV (JStr raw))
    else _warn line ("unknown logging facility " +:+ quoted raw +:+ "; using daemon");;
         set_override "syslog_facility" (OV (JStr "daemon"))).

Definition choices : string := "down/up/both/none".

Definition _set_contact_on (line : Z) (values : list Token) : M unit :=
  with_value line "contact_on" values (λ raw,
    if mem raw CONTACT_ON_CHOICES then set_override "contact_on" (OV (JStr raw))
    else _warn line ("unknown contact_on " +:+ quoted raw +:+ " (want " +:+ choices +:+ "); using both");;
         set_override "contact_on" (OV (JStr "both"))).

Definition _set_statusfile (line : Z) (values : list Token) : M unit :=
  match values with
  | [f; p] =>
      let fmt := value f in
      let path := r ← _subst line (value p); set_override "status_path" (OV (JStr r)) in
      if String.prefix "html" fmt then set_override "status_html" (OV (JBool true));; path
      else if String.prefix "text" fmt then set_override "status_html" (OV (JBool false));; path
      else _warn line ("statusfile format " +:+ quoted fmt +:+ " invalid (want html or text); skipping")
  | _ => _warn line ("config statusfile needs <html|text> " +:+ dquoted "<path>" +:+ "; skipping")
  end.

Definition _apply_config (line : Z) (name : string) (values : list Token) : M unit :=
  match aget _INT_DIRECTIVES name with Some f => _set_int line f name values | None =>
  match aget _FLOAT_DIRECTIVES name with Some f => _set_float line f name values | None =>
  match aget _STR_DIRECTIVES name with Some f => _set_str line f name values | None =>
  match aget _FLAG_DIRECTIVES name with
  | Some (f, v) =>
      when (bool_decide (values ≠ [])) (_warn line ("config " +:+ name +:+ " takes no value; ignoring the rest"));;
      set_override f (OV v)
  | None =>
  if bool_decide (name = "loglevel") then _set_loglevel line values
  else if bool_decide (name = "logging") then _set_logging line values
  else if bool_decide (name = "contact_on") then _set_contact_on line values
  else if bool_decide (name = "statusfile") then _set_statusfile line values
  else if bool_decide (name = "sleeptime")
  then _warn line "config sleeptime is obsolete; ignored (use queuetime / --interval)"
  else _warn line ("unknown config directive " +:+ quoted name +:+ "; skipping")
  end end end end.

Definition _config (line : Z) : M unit :=
  '(args, terminated) ← _collect_to_semi;
  warn_unterminated line terminated;;
  match args with
  | t :: values =>
      if bool_decide (kind t = WORD) then _apply_config line (value t) values
      else _warn line "config directive needs a name; skipping"
  | [] => _warn line "config directive needs a name; skipping"
  end.

Definition _root (line : Z) : M unit :=
  '(args, terminated) ← _collect_to_semi;
  warn_unterminated line terminated;;
  if bool_decide (kind_at args 0 = Some EQUALS) && bool_decide (kind_at args 1 = Some STRING)
  then v ← _subst line (value_at args 1);
       modify (λ st, st <| root_name := Some v |> <| root_line := line |>)
  else _warn line ("malformed root (expected: root = " +:+ dquoted "name" +:+ ";); skipping").

(** ** Blocks *)

Definition _peek_kind : M (option TokenKind) := get (λ st, kind <$> head (toks st)).

Definition advance : M unit := modify (λ st, st <| toks := tail (toks st) |>).

Definition _take (k : TokenKind) : M bool :=
  p ← _peek_kind;
  if bool_decide (p = Some k) then advance;; mret true else mret false.

Definition _take_value (ks : list (option TokenKind)) : M (option string) :=
  p ← _peek_kind;
  if bool_decide (p ∈ ks) then
    v ← get (λ st, value <$> head (toks st)); advance;; mret v
  else mret None.

Definition _take_word : M (option string) := _take_value [Some WORD].
Definition _take_name : M (option string) := _take_value [Some WORD; Some STRING].

Fixpoint balanced (depth : nat) (ts : list Token) : list Token :=
  match depth, ts with
  | O, _ | _, [] => ts
  | S d, t :: ts' =>
      match kind t with
      | LBRACE => balanced (S depth) ts'
      | RBRACE => balanced d ts'
      | _ => balanced depth ts'
      end
  end.

Definition _skip_balanced : M unit := modify (λ st, st <| toks := balanced 1 (toks st) |>).

Definition _skip_block : M unit :=
  b ← _take LBRACE;
  when b (_skip_balanced;; _take SEMI;; mret tt).

Definition _skip_block_or_semi : M unit :=
  p ← _peek_kind;
  if bool_decide (p = Some LBRACE) then _skip_block else _collect_to_semi;; mret tt.

(** Up to ';' (consumed), '}' (left) or a '{', which is skipped with its block. *)
Fixpoint attr_run (ts : list Token) : list Token * option Z * list Token :=
  match ts with
  | [] => ([], None, [])
  | t :: ts' =>
      match kind t with
      | RBRACE => ([], None, ts)
      | SEMI => ([], None, ts')
      | LBRACE => ([], Some (line t), ts')
      | _ => let '(c, b, r) := attr_run ts' in (t :: c, b, r)
      end
  end.

Definition _collect_attr : M (list Token) :=
  ts ← get toks;
  let '(c, b, r) := attr_run ts in
  modify (λ st, st <| toks := r |>);;
  match b with
  | Some l =>
      _warn l "unexpected '{' in object body; skipping the block";;
      _skip_balanced;; _take SEMI;; mret c
  | None => mret c
  end.

(** One attribute recorded. *)
Definition add_attr (name block : string) (t : Token) (values : list Token) (attrs : attrs_t) : M attrs_t :=
  if bool_decide (value t = "dep") && bool_decide (block = "object") then
    mret (match aget attrs "dep" with
          | Some (l, Deps es) => aset attrs "dep" (l, Deps (es ++ [values]))
          | _ => aset attrs "dep" (line t, Deps [values])
          end)
  else if ahas attrs (value t) then
    _warn (line t) ("duplicate " +:+ quoted (value t) +:+ " in " +:+ quoted name +:+ "; keeping the first");;
    mret attrs
  else mret (aset attrs (value t) (line t, Scalar values)).

Definition strip_equals (values : list Token) : list Token :=
  match values with
  | t :: rest => if bool_decide (kind t = EQUALS) then rest else values
  | [] => []
  end.

Fixpoint block_loop (fuel : nat) (name block : string) (attrs : attrs_t) : M (option (attrs_t * bool)) :=
  ts ← get toks;
  match ts with
  | [] => mret (Some (attrs, false))
  | t :: _ =>
      match fuel with
      | O => mret None
      | S fuel =>
          if bool_decide (kind t = RBRACE) then
            advance;; _take SEMI;; mret (Some (attrs, true))
          else if negb (bool_decide (kind t = WORD)) then
            _warn (line t) ("unexpected token in " +:+ block +:+ " " +:+ quoted name +:+ "; skipping");;
            _collect_attr;;
            block_loop fuel name block attrs
          else
            advance;;
            raw ← _collect_attr;
            let values := strip_equals raw in
            when (1 <? length values)%nat (_warn (line t) (quoted (value t) +:+ " takes one value (missing ';'?)"));;
            attrs' ← add_attr name block t values attrs;
            block_loop fuel name block attrs'
      end
  end.

(** Every iteration consumes a token, so the tokens left bound the loop. *)
Definition _collect_block_attrs (name block : string) : M (attrs_t * bool) :=
  n ← get (λ st, length (toks st));
  r ← block_loop n name block [];
  mret (default ([], false) r).

(** ** Objects *)

Definition first_value (line : Z) (vs : list Token) : M string :=
  match vs with t :: _ => _subst line (value t) | [] => mret "" end.

(** The comprehension [{key: subst(...)}] over the scalar attributes. *)
Definition resolve_attrs (attrs : attrs_t) : M resolved_t :=
  rs ← map_m (λ '(k, (l, v)),
    match v with
    | Scalar vs => r ← first_value l vs; mret (Some (k, r))
    | Deps _ => mret None
    end) attrs;
  mret (omap id rs).

Definition _type_error (name : string) (type_kw : option string) : string :=
  match type_kw with
  | None => "object " +:+ quoted name +:+ " has no 'type'; skipping"
  | Some kw =>
      if mem kw _DROPPED_TYPES
      then "object " +:+ quoted name +:+ ": check type " +:+ quoted kw +:+ " is not supported; skipping"
      else "object " +:+ quoted name +:+ ": invalid type " +:+ quoted kw +:+ "; skipping"
  end.

(** [_port]: [isdigit] also holds for superscript digits, which [int] refuses. *)
Definition _port (line : Z) (name : string) (raw : option string) : M (option Z) :=
  match raw with
  | None => _warn line ("object " +:+ quoted name +:+ " needs a 'port'; skipping");; mret None
  | Some raw =>
      let canonical := strip raw in
      let invalid := _warn line ("object " +:+ quoted name +:+ ": invalid port " +:+ quoted raw +:+ "; skipping");;
                     mret None in
      if negb (isdigit canonical) then invalid
      else match py_int canonical with
           | None => raise ParseValueError
           | Some p => if (0 <? p) && (p <=? 65535) then mret (Some p) else invalid
           end
  end.

Definition bad_number (line : Z) (name key raw : string) : M unit :=
  _warn line ("object " +:+ quoted name +:+ ": " +:+ quoted key +:+ " expects a number, got " +:+ quoted raw
              +:+ "; ignoring").

Definition _number_int (line : Z) (name key raw : string) : M (option Z) :=
  match (if isdigit (lstrip_char "-" (strip raw)) then py_int raw else None) with
  | Some z => mret (Some z)
  | None => bad_number line name key raw;; mret None
  end.

Definition _number_float (line : Z) (name key raw : string) : M (option Q) :=
  match py_float raw with
  | Some (Fin q) => mret (Some q)
  | _ => bad_number line name key raw;; mret None
  end.

Definition about (name msg : string) : string := "object " +:+ quoted name +:+ ": " +:+ msg.

Definition _parse_source (line : Z) (who raw : string) : M (option string) :=
  let val := strip raw in
  if bool_decide (lower val = SOURCE_AUTO) then mret (Some SOURCE_AUTO)
  else match ip_version val with
       | Some _ => mret (Some val)
       | None => _warn line (who +:+ ": source must be an IP address or 'auto', got " +:+ quoted raw +:+ "; ignoring");;
                 mret None
       end.

Definition _source_family_ok (nd : Node) (src : string) : bool :=
  bool_decide (src = SOURCE_AUTO) ||
  bool_decide (ip_version src = Some (if bool_decide (check_type nd = PING6) then 6 else 4)).

Definition given {A} (o : option A) : bool := match o with Some _ => true | None => false end.

(** A count below one is refused. *)
Definition at_least_one (line : Z) (name key : string) (z : option Z) : M (option Z) :=
  match z with
  | Some v => if v <? 1 then _warn line (about name (key +:+ " must be >= 1; ignoring"));; mret None
              else mret (Some v)
  | None => mret None
  end.

Definition opt_number (line : Z) (name key : string) (raw : option string) : M (option Z) :=
  match raw with Some r => _number_int line name key r | None => mret None end.

Definition _apply_ping_counts (line : Z) (name : string) (nd : Node) (resolved : resolved_t) : M Node :=
  let sraw := aget resolved "send_pings" in
  let mraw := aget resolved "min_pings" in
  send0 ← opt_number line name "send_pings" sraw;
  minp0 ← opt_number line name "min_pings" mraw;
  send1 ← at_least_one line name "send_pings" send0;
  minp1 ← at_least_one line name "min_pings" minp0;
  '(send2, minp2) ←
    match send1, minp1 with
    | Some s, Some m =>
        if s <? m then
          _warn line (about name ("min_pings (" +:+ pretty m +:+ ") > send_pings (" +:+ pretty s +:+ "); ignoring"));;
          mret (None, None)
        else mret (send1, minp1)
    | _, _ => mret (send1, minp1)
    end;
  let drop := (given sraw && negb (given send2)) || (given mraw && negb (given minp2)) in
  let '(send, minp) := if drop then (None, None) else (send2, minp2) in
  let nd := match send with Some s => nd <| send_pings := Some s |> | None => nd end in
  mret (match minp with Some m => nd <| min_pings := Some m |> | None => nd end).

(** [if key in resolved]: a step on the node. *)
Definition on_key (resolved : resolved_t) (key : string) (k : string → Node → M Node) (nd : Node) : M Node :=
  match aget resolved key with Some v => k v nd | None => mret nd end.

Definition apply_queuetime (line : Z) (name raw : string) (nd : Node) : M Node :=
  i ← _number_float line name "queuetime" raw;
  match i with
  | Some q => if Qle_bool q 0 then _warn line (about name "queuetime must be > 0; ignoring");; mret nd
              else mret (nd <| interval := Some q |>)
  | None => mret nd
  end.

Definition apply_numfailures (line : Z) (name raw : string) (nd : Node) : M Node :=
  nf ← _number_int line name "numfailures" raw;
  match nf with
  | Some z => if z <? 1 then _warn line (about name "numfailures must be >= 1; ignoring");; mret nd
              else mret (nd <| node_max_down := z |>)
  | None => mret nd
  end.

Definition apply_contact_on (line : Z) (name raw : string) (nd : Node) : M Node :=
  if mem raw CONTACT_ON_CHOICES then mret (nd <| contact_on := raw |>)
  else _warn line (about name ("contact_on must be one of " +:+ choices +:+ "; ignoring"));; mret nd.

Definition apply_source (line : Z) (name raw : string) (nd : Node) : M Node :=
  src ← _parse_source line ("object " +:+ quoted name) raw;
  match src with
  | Some s =>
      if _source_family_ok nd s then mret (nd <| source := Some s |>)
      else _warn line (about name ("source " +:+ s +:+ " is the wrong family for a " +:+ ct_value (check_type nd)
                                   +:+ " check; leaving unbound"));; mret nd
  | None => mret nd
  end.

Definition _apply_overrides (line : Z) (name : string) (nd : Node) (resolved : resolved_t) : M Node :=
  nd ← on_key resolved "queuetime" (apply_queuetime line name) nd;
  nd ← on_key resolved "numfailures" (apply_numfailures line name) nd;
  nd ← on_key resolved "group" (λ v nd, mret (nd <| group := strip v |>)) nd;
  nd ← on_key resolved "contact_on" (apply_contact_on line name) nd;
  nd ← on_key resolved "source" (apply_source line name) nd;
  _apply_ping_counts line name nd resolved.

Definition get_str (resolved : resolved_t) (k : string) : string := default "" (aget resolved k).

(** The fields that depend on the type; [None] when a required one is missing. *)
Definition typed_fields (line : Z) (name kw : string) (resolved : resolved_t) (nd : Node) : M (option Node) :=
  match check_type nd with
  | TCP | UDP =>
      p ← _port line name (aget resolved "port");
      mret (match p with Some p => Some (nd <| port := p |>) | None => None end)
  | HTTP | HTTPS =>
      if bool_decide (get_str resolved "url" = "")
      then _warn line (about name (kw +:+ " needs 'url'; skipping"));; mret None
      else
        let nd := nd <| url := get_str resolved "url" |> in
        mret (Some (match aget resolved "urltext" with
                    | Some t => nd <| url_text := Some t |>
                    | None => nd
                    end))
  | POP3 | POP3S | IMAP | IMAPS | FTP | FTPS =>
      let u := get_str resolved "username" in
      let p := get_str resolved "password" in
      if negb (bool_decide (u = "")) && negb (bool_decide (p = ""))
      then mret (Some (nd <| username := u |> <| password := p |>))
      else
        when (negb (bool_decide (u = "")) || negb (bool_decide (p = "")))
          (_warn line (about name (kw +:+ " auth needs both 'username' and 'password'; ignoring the partial credentials")));;
        mret (Some nd)
  | DNS =>
      if bool_decide (get_str resolved "dns-query" = "") || bool_decide (get_str resolved "contact" = "")
      then _warn line (about name "dns needs 'dns-query' and 'contact'; skipping");; mret None
      else mret (Some (nd <| username := get_str resolved "dns-query" |>))
  | _ =>
      match aget resolved "port" with
      | Some raw =>
          p ← _port line name (Some raw);
          mret (Some (match p with Some p => nd <| port := p |> | None => nd end))
      | None => mret (Some nd)
      end
  end.

Definition dep_edges (attrs : attrs_t) : Z * list (list Token) :=
  match aget attrs "dep" with Some (l, Deps es) => (l, es) | _ => (0, []) end.

Definition warn_unsupported (known : list string) (who : string) (attrs : attrs_t) : M unit :=
  for_each (λ '(k, (kl, _)),
    when (negb (mem k known)) (_warn kl (who +:+ ": attribute " +:+ quoted k +:+ " isn't supported yet; ignoring"))) attrs.

Fixpoint collect_deps (l : Z) (edges : list (list Token)) (acc : list string) : M (list string) :=
  match edges with
  | [] => mret acc
  | ev :: edges' =>
      d ← first_value l ev;
      collect_deps l edges' (if bool_decide (d = "") || mem d acc then acc else acc ++ [d])
  end.

Section parser.
Context (numfailures : Z).

Definition _build_node (line : Z) (name : string) (attrs : attrs_t) : M (option (Node * list string)) :=
  resolved ← resolve_attrs attrs;
  let host := if bool_decide (get_str resolved "host" = "") then get_str resolved "ip" else get_str resolved "host" in
  when (match aget resolved "host", aget resolved "ip" with
        | Some h, Some i => negb (bool_decide (h = i))
        | _, _ => false
        end)
    (_warn line (about name "'host' and 'ip' both set and differ; using 'host'"));;
  if bool_decide (host = "") then
    _warn line ("object " +:+ quoted name +:+ " has no 'host'; skipping");; mret None
  else
    let type_kw := aget resolved "type" in
    match type_kw ≫= aget _TYPE_KEYWORDS with
    | None => _warn line (_type_error name type_kw);; mret None
    | Some ctype =>
        let nd0 := (new_node host ctype) <| node_max_down := numfailures |> in
        let nd1 := match DEFAULT_PORT ctype with Some p => nd0 <| port := p |> | None => nd0 end in
        o ← typed_fields line name (default "" type_kw) resolved nd1;
        match o with
        | None => mret None
        | Some nd2 =>
            let nd3 := match aget resolved "desc" with Some d => nd2 <| label := d |> | None => nd2 end in
            let nd4 := match aget resolved "contact" with Some c => nd3 <| contact := c |> | None => nd3 end in
            nd5 ← _apply_overrides line name nd4 resolved;
            warn_unsupported _OBJECT_ATTRS ("object " +:+ quoted name) attrs;;
            let '(dl, edges) := dep_edges attrs in
            deps ← collect_deps dl edges [];
            mret (Some (nd5, deps))
        end
    end.

Definition _add_object (line : Z) (name : string) (attrs : attrs_t) : M unit :=
  r ← _build_node line name attrs;
  match r with
  | None => mret tt
  | Some (nd, deps) =>
      idx ← get object_index;
      if given (idx !! name)
      then _warn line ("duplicate object name " +:+ quoted name +:+ "; skipping the duplicate")
      else modify (λ st,
        st <| object_index := <[name := length (objects st)]> (object_index st) |>
           <| objects := objects st ++ [MkObj name nd deps line] |>
           <| object_attr_keys := <[name := akeys attrs]> (object_attr_keys st) |>)
  end.

Definition _object (line : Z) : M unit :=
  n ← _take_word;
  match n with
  | None => _warn line "object needs a name; skipping";; _skip_block_or_semi
  | Some name =>
      b ← _take LBRACE;
      if (b : bool) then
        '(attrs, closed) ← _collect_block_attrs name "object";
        when (negb closed) (_warn line ("object " +:+ quoted name +:+ " is missing its closing '}' (reached end of file)"));;
        _add_object line name attrs
      else
        _warn line ("object " +:+ quoted name +:+ " is missing '{'; skipping");;
        _collect_to_semi;; mret tt
  end.

(** ** Groups *)

Definition _add_group (line : Z) (name : string) (attrs : attrs_t) : M unit :=
  if bool_decide (name = "") then _warn line "group has an empty name; skipping"
  else
    resolved ← resolve_attrs attrs;
    let settings := filter (λ kv, kv.1 ∈ _GROUP_ATTRS) resolved in
    settings ←
      match aget settings "source" with
      | Some raw =>
          src ← _parse_source line ("group " +:+ quoted name) raw;
          mret (match src with Some s => aset settings "source" s | None => adel settings "source" end)
      | None => mret settings
      end;
    warn_unsupported _GROUP_ATTRS ("group " +:+ quoted name) attrs;;
    gs ← get group_defaults;
    if given (gs !! name) then _warn line ("duplicate group " +:+ quoted name +:+ "; keeping the first")
    else modify (λ st, st <| group_defaults := <[name := settings]> (group_defaults st) |>).

Definition _group (line : Z) : M unit :=
  n ← _take_name;
  match n with
  | None => _warn line "group needs a name; skipping";; _skip_block_or_semi
  | Some raw =>
      v ← _subst line raw;
      let name := strip v in
      b ← _take LBRACE;
      if (b : bool) then
        '(attrs, closed) ← _collect_block_attrs (if bool_decide (name = "") then "?" else name) "group";
        when (negb closed) (_warn line ("group " +:+ quoted name +:+ " is missing its closing '}' (reached end of file)"));;
        _add_group line name attrs
      else
        _warn line ("group " +:+ quoted name +:+ " is missing '{'; skipping");;
        _collect_to_semi;; mret tt
  end.

(** ** Statements *)

Definition kind_name (k : TokenKind) : string :=
  match k with
  | WORD => "word" | STRING => "string" | LBRACE => "lbrace" | RBRACE => "rbrace" | EQUALS => "equals" | SEMI => "semi"
  end.

Definition include_error (line : Z) : string :=
  "line " +:+ pretty line +:+ ": `include` isn't supported yet (a follow-up milestone, #3)".

Definition _statement : M unit :=
  ts ← get toks;
  match ts with
  | [] => mret tt
  | t :: _ =>
      if negb (bool_decide (kind t = WORD)) then
        _warn (line t) ("unexpected " +:+ kind_name (kind t) +:+ " at statement start; skipping");;
        _collect_to_semi;; mret tt
      else if bool_decide (value t = "config") then advance;; _config (line t)
      else if bool_decide (value t = "set") then advance;; _set (line t)
      else if bool_decide (value t = "root") then advance;; _root (line t)
      else if bool_decide (value t = "object") then advance;; _object (line t)
      else if bool_decide (value t = "group") then advance;; _group (line t)
      else if bool_decide (value t = "include") then raise (ParseError (include_error (line t)))
      else
        _warn (line t) ("unknown statement " +:+ quoted (value t) +:+ "; skipping");;
        _collect_to_semi;; mret tt
  end.

Fixpoint statements (fuel : nat) : M bool :=
  ts ← get toks;
  match ts with
  | [] => mret true
  | _ => match fuel with
         | O => mret false
         | S fuel => _statement;; statements fuel
         end
  end.

End parser.

(** ** Group defaults *)

Definition resolve_one (o : obj) : M obj :=
  let nd := o_node o in
  let name := o_name o in
  gs ← get group_defaults;
  ks ← get object_attr_keys;
  match (if bool_decide (group nd = "") then None else gs !! group nd) with
  | None => mret o
  | Some grp =>
      let specified := default [] (ks !! name) in
      let inherited := filter (λ kv, kv.1 ∉ specified) grp in
      let inherited := if mem "send_pings" specified || mem "min_pings" specified
                       then adel (adel inherited "send_pings") "min_pings" else inherited in
      nd ← match aget inherited "source" with
           | Some src =>
               if _source_family_ok nd src then mret (nd <| source := Some src |>)
               else _warn (o_line o) (about name ("group " +:+ quoted (group nd) +:+ " source " +:+ src
                      +:+ " is the wrong family for a " +:+ ct_value (check_type nd) +:+ " check; leaving unbound"));;
                    mret nd
           | None => mret nd
           end;
      let inherited := adel inherited "source" in
      let nd := match aget inherited "contact" with Some c => nd <| contact := c |> | None => nd end in
      let inherited := adel inherited "contact" in
      nd ← (if bool_decide (inherited = []) then mret nd
            else _apply_overrides (o_line o) name nd inherited);
      mret (MkObj name nd (o_deps o) (o_line o))
  end.

Definition _resolve_group_defaults : M unit :=
  os ← get objects;
  os' ← map_m resolve_one os;
  modify (λ st, st <| objects := os' |>).

(** ** The dependency graph *)

(** [_reaches]: the top of the Python stack is the head here. *)
Fixpoint reaches_loop (fuel : nat) (store : gmap nid Node) (target : nid) (seen : gset nid) (stack : list nid)
    : option bool :=
  match fuel with
  | O => None
  | S fuel =>
      match stack with
      | [] => Some false
      | n :: stack' =>
          if bool_decide (n = target) then Some true
          else if bool_decide (n ∈ seen) then reaches_loop fuel store target seen stack'
          else match store !! n with
               | Some nd => reaches_loop fuel store target ({[n]} ∪ seen) (reverse (children nd) ++ stack')
               | None => reaches_loop fuel store target ({[n]} ∪ seen) stack'
               end
      end
  end.

Definition reaches_fuel (store : gmap nid Node) : nat :=
  S (S (budget store (λ nd, length (children nd)) ∅)).

Definition _reaches (store : gmap nid Node) (start target : nid) : bool :=
  default false (reaches_loop (reaches_fuel store) store target ∅ [start]).

(** Linking the edges of one object; the flag says whether one survived. *)
Fixpoint link_deps (line : Z) (name : string) (i : nid) (deps : list string) (store : gmap nid Node) (linked : bool)
    : M (gmap nid Node * bool) :=
  match deps with
  | [] => mret (store, linked)
  | d :: deps' =>
      idx ← get object_index;
      match idx !! d with
      | None =>
          _warn line (quoted name +:+ ": dep " +:+ quoted d +:+ " names no object; ignoring it");;
          link_deps line name i deps' store linked
      | Some p =>
          if _reaches store i p then
            _warn line (quoted name +:+ ": dep " +:+ quoted d +:+ " forms a cycle; ignoring it");;
            link_deps line name i deps' store linked
          else
            link_deps line name i deps' (alter (λ nd, nd <| children := children nd ++ [i] |>) p store) true
      end
  end.

Fixpoint link_objects (i : nid) (os : list obj) (store : gmap nid Node) (roots : list nid)
    : M (gmap nid Node * list nid) :=
  match os with
  | [] => mret (store, roots)
  | o :: os' =>
      '(store', linked) ← link_deps (o_line o) (o_name o) i (o_deps o) store false;
      link_objects (S i) os' store' (if (linked : bool) then roots else roots ++ [i])
  end.

(** The store of a list of objects: identities are positions. *)
Definition store_of (os : list obj) : gmap nid Node := map_seq 0 (o_node <$> os).

Definition _build_forest : M (gmap nid Node * list nid) :=
  rn ← get root_name;
  rl ← get root_line;
  idx ← get object_index;
  match rn with
  | Some r => when (negb (given (idx !! r))) (_warn rl ("root " +:+ quoted r +:+ " names no object"))
  | None => mret tt
  end;;
  os ← get objects;
  link_objects 0 os (store_of os) [].

(** ** parse *)

Definition parse_top (numfailures : Z) : M ParseResult :=
  n ← get (λ st, length (toks st));
  statements numfailures n;;
  _resolve_group_defaults;;
  '(store, roots) ← _build_forest;
  st ← get id;
  mret (MkParseResult store roots (overrides st) (warnings st)).

(** [None] when the tokenizer does not end. *)
Definition parse (numfailures : Z) (text : string) : option (res perror ParseResult) :=
  match tokenize text with
  | None => None
  | Some (Raise e) => Some (Raise (ParseError e))
  | Some (Ok ts) =>
      Some (match parse_top numfailures (parser_init ts) with
            | Ok (r, _) => Ok r
            | Raise e => Raise e
            end)
  end.
