(* ===== verification/ModernForest.v ===== *)
(** * The dependency graph of a modern configuration

    What [_build_forest] makes of the [dep] edges: an acyclic graph whose roots are exactly
    the objects without a surviving parent, and from which every object can be reached. *)
From S2P Require Import Prelude Status Model Graph Flatten Lexer PyDict Modern.

(** ** Edges *)

Definition edge (store : gmap nid Node) (p c : nid) : Prop :=
  ∃ nd, store !! p = Some nd ∧ c ∈ children nd.

#[export] Instance edge_dec store p c : Decision (edge store p c).
Proof.
  destruct (decide (c ∈ default [] (children <$> store !! p))) as [H|H]; [left|right]; unfold edge.
  - destruct (store !! p) as [nd|]; simpl in H; [by eauto|by apply elem_of_nil in H].
  - intros (nd & E & ?). by rewrite E in H.
Defined.

Definition acyclic (store : gmap nid Node) : Prop := ∀ n, ¬ tc (edge store) n n.

Definition add_child (i : nid) (nd : Node) : Node := nd <| children := children nd ++ [i] |>.

Lemma children_add i nd : children (add_child i nd) = children nd ++ [i].
Proof. by destruct nd. Qed.

Lemma edge_alter store p i a b :
  edge (alter (add_child i) p store) a b ↔ edge store a b ∨ (a = p ∧ b = i ∧ is_Some (store !! p)).
Proof.
  unfold edge. split.
  - intros (nd & Ha & Hb). apply lookup_alter_Some in Ha as [[Hpa (nd0 & Hp & ->)]|[Hne Ha]]; [subst a|by eauto].
    rewrite children_add in Hb. apply elem_of_app in Hb as [Hb| ->%list_elem_of_singleton]; [by eauto|].
    right. by eauto.
  - intros [(nd & Ha & Hb)|(-> & -> & nd & Hp)].
    + destruct (decide (p = a)) as [->|Hne].
      * exists (add_child i nd). rewrite lookup_alter_eq, Ha. split; [done|].
        rewrite children_add. apply elem_of_app. by left.
      * exists nd. by rewrite lookup_alter_ne.
    + exists (add_child i nd). rewrite lookup_alter_eq, Hp. split; [done|].
      rewrite children_add. apply elem_of_app. right. apply list_elem_of_here.
Qed.

(** ** [_reaches] decides reachability *)

Section reaches.
Context (store : gmap nid Node) (target : nid).

Lemma reaches_loop_true fuel seen stack :
  reaches_loop fuel store target seen stack = Some true → ∃ n, n ∈ stack ∧ rtc (edge store) n target.
Proof.
  revert seen stack. induction fuel as [|fuel IH]; intros seen stack; simpl; [done|].
  destruct stack as [|n stack]; [done|]. case_bool_decide as Ht.
  { intros _. exists n. subst. split; [apply list_elem_of_here|reflexivity]. }
  case_bool_decide as Hs. { intros (m & ? & ?)%IH. exists m. split; [by apply list_elem_of_further|done]. }
  destruct (store !! n) as [nd|] eqn:En; intros (m & Hm & Hr)%IH.
  - apply elem_of_app in Hm as [Hm|Hm]; [|exists m; split; [by apply list_elem_of_further|done]].
    exists n. split; [apply list_elem_of_here|]. eapply rtc_l; [|exact Hr]. exists nd.
    split; [done|]. by apply elem_of_reverse.
  - exists m. split; [by apply list_elem_of_further|done].
Qed.

(** The children of every visited node are visited or waiting. *)
Definition expanded (seen : gset nid) (stack : list nid) : Prop :=
  (target ∉ seen) ∧ ∀ n c, n ∈ seen → edge store n c → c ∈ seen ∨ c ∈ stack.

Lemma reaches_loop_false fuel seen stack :
  expanded seen stack → reaches_loop fuel store target seen stack = Some false →
  ∃ seen', expanded seen' [] ∧ (∀ n, n ∈ stack → n ∈ seen') ∧ ∀ n, n ∈ seen → n ∈ seen'.
Proof.
  revert seen stack. induction fuel as [|fuel IH]; intros seen stack He; simpl; [done|].
  destruct stack as [|n stack].
  { intros _. exists seen. split; [done|]. split; [by intros ? []%elem_of_nil|done]. }
  case_bool_decide as Ht; [done|]. destruct He as [Hnt He]. case_bool_decide as Hs.
  { intros (s' & ? & Hin & Hsub)%IH.
    - exists s'. split; [done|]. split; [|done]. intros m [->|?]%elem_of_cons; eauto.
    - split; [done|]. intros m c Hm Hc. destruct (He m c Hm Hc) as [?|[->|?]%elem_of_cons]; auto. }
  destruct (store !! n) as [nd|] eqn:En; intros (s' & ? & Hin & Hsub)%IH.
  1, 3: exists s'; split; [done|]; split; [|intros m Hm; apply Hsub, elem_of_union; by right].
  1, 2: intros m [->|?]%elem_of_cons; [apply Hsub, elem_of_union; left; by apply elem_of_singleton|];
      apply Hin; rewrite ?elem_of_app; auto.
  - split; [set_solver|]. intros m c [->%elem_of_singleton|Hm]%elem_of_union Hc.
    + destruct Hc as (nd' & Hnd' & Hc). simplify_eq. right. apply elem_of_app. left. by apply elem_of_reverse.
    + destruct (He m c Hm Hc) as [?|[->|?]%elem_of_cons]; [set_solver|set_solver|].
      right. apply elem_of_app. by right.
  - split; [set_solver|]. intros m c [->%elem_of_singleton|Hm]%elem_of_union Hc.
    + destruct Hc as (nd' & Hnd' & Hc). congruence.
    + destruct (He m c Hm Hc) as [?|[->|?]%elem_of_cons]; [set_solver..|by right].
Qed.

Lemma expanded_closed seen n : expanded seen [] → n ∈ seen → ¬ rtc (edge store) n target.
Proof.
  intros [Ht He] Hn Hr. induction Hr as [n|n m x Hnm Hr IH]; [done|].
  destruct (He n m Hn Hnm) as [?|[]%elem_of_nil]; auto.
Qed.

Lemma reaches_loop_total fuel seen stack :
  (length stack + budget store (λ nd, length (children nd)) seen < fuel)%nat →
  is_Some (reaches_loop fuel store target seen stack).
Proof.
  revert seen stack. induction fuel as [|fuel IH]; intros seen stack Hf; [lia|]. simpl.
  destruct stack as [|n stack]; [done|]. simpl in Hf. case_bool_decide; [done|].
  case_bool_decide as Hs; [apply IH; lia|]. destruct (store !! n) as [nd|] eqn:En.
  - rewrite (budget_visit _ _ _ _ _ En Hs) in Hf. apply IH. rewrite length_app, length_reverse. lia.
  - apply IH. assert (budget store (λ nd, length (children nd)) ({[n]} ∪ seen) =
      budget store (λ nd, length (children nd)) seen) as ->; [|lia].
    apply sum_list_with_ext. intros [k a] Hk%elem_of_map_to_list.
    by rewrite (bool_decide_ext (k ∈ {[n]} ∪ seen) (k ∈ seen)) by (assert (k ≠ n) by congruence; set_solver).
Qed.
End reaches.

Lemma reaches_spec store a b : _reaches store a b = true ↔ rtc (edge store) a b.
Proof.
  unfold _reaches. destruct (reaches_loop_total store b (reaches_fuel store) ∅ [a]) as [r Hr].
  { unfold reaches_fuel. simpl. lia. }
  rewrite Hr. destruct r; simpl.
  - split; [|done]. intros _. apply reaches_loop_true in Hr as (n & ->%list_elem_of_singleton & ?). done.
  - split; [done|]. intros Hab. apply reaches_loop_false in Hr as (s' & He & Hin & _).
    + exfalso. eapply expanded_closed; [exact He| |exact Hab]. apply Hin, list_elem_of_here.
    + split; [set_solver|]. by intros ? ? ?%not_elem_of_empty.
Qed.

(** ** Adding an edge that closes no cycle *)

Lemma edge_add_split store p i a b :
  is_Some (store !! p) →
  rtc (edge (alter (add_child i) p store)) a b → rtc (edge store) a b ∨ (rtc (edge store) a p ∧ rtc (edge store) i b).
Proof.
  intros Hp Hr. induction Hr as [a|a m b Ham Hr IH]; [left; reflexivity|].
  apply edge_alter in Ham as [Ham|(-> & -> & _)].
  - destruct IH as [IH|[IH1 IH2]]; [left; by eapply rtc_l|right; split; [by eapply rtc_l|done]].
  - destruct IH as [IH|[IH1 IH2]]; right; split; [reflexivity|done|reflexivity|done].
Qed.

Lemma acyclic_alter store p i :
  is_Some (store !! p) → ¬ rtc (edge store) i p → acyclic store → acyclic (alter (add_child i) p store).
Proof.
  intros Hp Hnr Hac n Hn.
  assert (∃ m, edge (alter (add_child i) p store) n m ∧ rtc (edge (alter (add_child i) p store)) m n) as (m & Hnm & Hmn).
  { inversion Hn as [? ? H|? m ? H Hr]; subst; eexists; split; [exact H|reflexivity|exact H|by apply tc_rtc]. }
  apply (edge_add_split _ _ _ _ _ Hp) in Hmn. apply edge_alter in Hnm as [Hnm|(-> & -> & _)].
  - destruct Hmn as [Hmn|[Hmp Hin]].
    + apply (Hac n). eapply tc_rtc_r; [by apply tc_once|done].
    + apply Hnr. etrans; [exact Hin|]. by eapply rtc_l.
  - destruct Hmn as [Hmn|[Hmp Hin]]; done.
Qed.

(** ** The linking loop without its warnings *)

Fixpoint link_edges (idx : gmap string nid) (i : nid) (deps : list string) (store : gmap nid Node) (linked : bool)
    : gmap nid Node * bool :=
  match deps with
  | [] => (store, linked)
  | d :: deps' =>
      match idx !! d with
      | None => link_edges idx i deps' store linked
      | Some p =>
          if _reaches store i p then link_edges idx i deps' store linked
          else link_edges idx i deps' (alter (add_child i) p store) true
      end
  end.

Fixpoint link_all (idx : gmap string nid) (i : nid) (os : list obj) (store : gmap nid Node) (roots : list nid)
    : gmap nid Node * list nid :=
  match os with
  | [] => (store, roots)
  | o :: os' =>
      let '(store', linked) := link_edges idx i (o_deps o) store false in
      link_all idx (S i) os' store' (if linked then roots else roots ++ [i])
  end.

Definition unwarned (st : PState) : PState := st <| warnings := [] |>.

Lemma link_deps_run l nm i deps store b st :
  ∃ st', link_deps l nm i deps store b st = Ok (link_edges (object_index st) i deps store b, st') ∧
    unwarned st' = unwarned st.
Proof.
  revert store b st. induction deps as [|d deps IH]; intros store b st; [by exists st|].
  cbn [link_deps link_edges]. unfold mbind, M_bind, get.
  destruct (object_index st !! d) as [p|] eqn:Ed.
  - destruct (_reaches store i p).
    + unfold _warn, modify. edestruct (IH store b) as (st' & -> & Hst'). exists st'.
      destruct st; simpl in *. done.
    + edestruct (IH (alter (add_child i) p store) true st) as (st' & Hl & Hst'). exists st'. done.
  - unfold _warn, modify. edestruct (IH store b) as (st' & -> & Hst'). exists st'. destruct st; simpl in *. done.
Qed.

Lemma link_objects_run i os store roots st :
  ∃ st', link_objects i os store roots st = Ok (link_all (object_index st) i os store roots, st') ∧
    unwarned st' = unwarned st.
Proof.
  revert i store roots st. induction os as [|o os IH]; intros i store roots st; [by exists st|].
  cbn [link_objects link_all]. unfold mbind, M_bind.
  destruct (link_deps_run (o_line o) (o_name o) i (o_deps o) store false st) as (st1 & -> & H1).
  destruct (link_edges _ _ _ _ _) as [store' linked].
  assert (object_index st1 = object_index st) as Hidx.
  { apply (f_equal object_index) in H1. by destruct st, st1. }
  destruct (IH (S i) store' (if linked then roots else roots ++ [i]) st1) as (st2 & Hr & H2).
  exists st2. rewrite Hr, Hidx. split; [done|]. by rewrite H2.
Qed.

(** ** The invariant of the loops *)

Section forest.
Context (idx : gmap string nid) (os : list obj).
Context (Hidx : ∀ d p, idx !! d = Some p → (p < length os)%nat).

(** The edges and roots after the objects below [k]. *)
Record linked_below (k : nat) (store : gmap nid Node) (roots : list nid) : Prop := {
  lb_dom : ∀ n, is_Some (store !! n) ↔ (n < length os)%nat;
  lb_node : ∀ n nd o, store !! n = Some nd → os !! n = Some o →
    nd <| children := [] |> = (o_node o) <| children := [] |>;
  lb_acyclic : acyclic store;
  lb_edges : ∀ p c, edge store p c →
    ∃ o d, (c < k)%nat ∧ os !! c = Some o ∧ d ∈ o_deps o ∧ idx !! d = Some p;
  lb_complete : ∀ c o d p, (c < k)%nat → os !! c = Some o → d ∈ o_deps o → idx !! d = Some p →
    edge store p c ∨ rtc (edge store) c p;
  lb_roots : ∀ n, n ∈ roots ↔ (n < k)%nat ∧ ¬ ∃ p, edge store p n;
  lb_nodup : NoDup roots
}.

(** While the edges of object [k] are linked. *)
Record linking (k : nat) (done : list string) (store : gmap nid Node) (linked : bool) (roots : list nid) : Prop := {
  lk_dom : ∀ n, is_Some (store !! n) ↔ (n < length os)%nat;
  lk_node : ∀ n nd o, store !! n = Some nd → os !! n = Some o →
    nd <| children := [] |> = (o_node o) <| children := [] |>;
  lk_acyclic : acyclic store;
  lk_edges : ∀ p c, edge store p c →
    (∃ o d, (c < k)%nat ∧ os !! c = Some o ∧ d ∈ o_deps o ∧ idx !! d = Some p) ∨
    (c = k ∧ ∃ d, d ∈ done ∧ idx !! d = Some p);
  lk_complete : ∀ c o d p, (c < k)%nat → os !! c = Some o → d ∈ o_deps o → idx !! d = Some p →
    edge store p c ∨ rtc (edge store) c p;
  lk_done : ∀ d p, d ∈ done → idx !! d = Some p → edge store p k ∨ rtc (edge store) k p;
  lk_linked : linked = true ↔ ∃ p, edge store p k;
  lk_roots : ∀ n, n ∈ roots ↔ (n < k)%nat ∧ ¬ ∃ p, edge store p n;
  lk_nodup : NoDup roots
}.

Lemma alter_children_erase i p (store : gmap nid Node) n nd :
  alter (add_child i) p store !! n = Some nd →
  ∃ nd0, store !! n = Some nd0 ∧ nd <| children := [] |> = nd0 <| children := [] |>.
Proof.
  intros [[-> (nd0 & H & ->)]|[_ H]]%lookup_alter_Some; [|by eauto]. exists nd0. split; [done|]. by destruct nd0.
Qed.

Lemma rtc_edge_alter i p store a b :
  rtc (edge store) a b → rtc (edge (alter (add_child i) p store)) a b.
Proof. apply rtc_congruence with (f := id). intros x y H. apply edge_alter. by left. Qed.

Lemma linking_step k done d store linked roots :
  linking k done store linked roots →
  let '(store', linked') := link_edges idx k [d] store linked in linking k (done ++ [d]) store' linked' roots.
Proof.
  intros [H1 H2 H3 H4 H5 H6 H7 H8 H9]. cbn [link_edges].
  assert (∀ x, x ∈ done ++ [d] ↔ x ∈ done ∨ x = d) as Hin
    by (intros x; rewrite elem_of_app, list_elem_of_singleton; done).
  destruct (idx !! d) as [p|] eqn:Ed.
  - destruct (_reaches store k p) eqn:Er.
    + apply reaches_spec in Er. split; try done.
      * intros p' c [?|(-> & d' & ? & ?)]%H4; [by left|right]. split; [done|]. exists d'. rewrite Hin. auto.
      * intros d' p' [?| ->]%Hin Hd'; [by eapply H6|]. simplify_eq. by right.
    + assert (¬ rtc (edge store) k p) as Hnr by (rewrite <- reaches_spec; by rewrite Er).
      assert (is_Some (store !! p)) as Hp by (apply H1; by eapply Hidx).
      split.
      * intros n. rewrite <- H1. destruct (decide (p = n)) as [->|?].
        -- rewrite lookup_alter_eq. by rewrite fmap_is_Some.
        -- by rewrite lookup_alter_ne.
      * intros n nd o (nd0 & Hn & ->)%alter_children_erase Ho. by eapply H2.
      * by apply acyclic_alter.
      * intros p' c [Hpc|(-> & -> & _)]%edge_alter.
        -- apply H4 in Hpc as [?|(-> & d' & ? & ?)]; [by left|right]. split; [done|]. exists d'. rewrite Hin. auto.
        -- right. split; [done|]. exists d. rewrite Hin. auto.
      * intros c o d' p' Hc Ho Hd' Hp'. destruct (H5 c o d' p' Hc Ho Hd' Hp') as [?|?];
          [left; apply edge_alter; by left|right; by apply rtc_edge_alter].
      * intros d' p' [Hd'| ->]%Hin Hp'.
        -- destruct (H6 d' p' Hd' Hp'); [left; apply edge_alter; by left|right; by apply rtc_edge_alter].
        -- simplify_eq. left. apply edge_alter. by right.
      * split; [|done]. intros _. exists p. apply edge_alter. by right.
      * intros n. rewrite H8. split; intros [Hn Hno]; (split; [done|]); intros [p' Hp']; apply Hno; exists p'.
        -- apply edge_alter in Hp' as [?|(-> & -> & _)]; [done|]. lia.
        -- apply edge_alter. by left.
      * done.
  - split; try done.
    + intros p' c [?|(-> & d' & ? & ?)]%H4; [by left|right]. split; [done|]. exists d'. rewrite Hin. auto.
    + intros d' p' [?| ->]%Hin Hd'; [by eapply H6|]. congruence.
Qed.

Lemma linking_edges k deps done store linked roots :
  linking k done store linked roots →
  let '(store', linked') := link_edges idx k deps store linked in linking k (done ++ deps) store' linked' roots.
Proof.
  revert done store linked. induction deps as [|d deps IH]; intros done store linked H.
  { by rewrite app_nil_r. }
  pose proof (linking_step k done d store linked roots H) as Hs. cbn [link_edges] in *.
  rewrite (cons_middle d done deps), app_assoc.
  destruct (idx !! d) as [p|]; [|by apply IH]. destruct (_reaches store k p); by apply IH.
Qed.

Lemma linked_below_step k o store roots :
  os !! k = Some o → linked_below k store roots →
  let '(store', linked) := link_edges idx k (o_deps o) store false in
  linked_below (S k) store' (if linked then roots else roots ++ [k]).
Proof.
  intros Ho [H1 H2 H3 H4 H5 H6 H7].
  assert (linking k [] store false roots) as Hl.
  { split; try done.
    - intros p c ?%H4. by left.
    - intros d p []%elem_of_nil.
    - split; [done|]. intros [p (? & ? & ? & _)%H4]. lia. }
  apply (linking_edges k (o_deps o)) in Hl. destruct (link_edges _ _ _ _ _) as [store' linked].
  destruct Hl as [K1 K2 K3 K4 K5 K6 K7 K8 K9]. split; try done.
  - intros p c [(o' & d & Hc & ?)|(-> & d & Hd & ?)]%K4; [exists o', d; split; [lia|done]|].
    exists o, d. split; [lia|done].
  - intros c o' d p Hc Ho' Hd Hp. destruct (decide (c = k)) as [->|Hne]; [|eapply K5; eauto; lia].
    simplify_eq. by eapply K6.
  - intros n. destruct linked.
    + rewrite K8. split; intros [Hn Hno]; (split; [|done]); [lia|].
      assert (n ≠ k) by (intros ->; by apply Hno, K7). lia.
    + rewrite elem_of_app, list_elem_of_singleton, K8. split.
      * intros [[? ?]| ->]; (split; [lia|]); [done|]. intros Hp. by apply K7 in Hp.
      * intros [Hn Hno]. destruct (decide (n = k)) as [->|?]; [by right|]. left. split; [lia|done].
  - destruct linked; [done|]. apply NoDup_app. split_and!; [done| |apply NoDup_singleton].
    intros n Hn%K8 ->%list_elem_of_singleton. lia.
Qed.

Lemma linked_all k rest store roots :
  drop k os = rest → (k <= length os)%nat → linked_below k store roots →
  let '(store', roots') := link_all idx k rest store roots in linked_below (length os) store' roots'.
Proof.
  revert k store roots. induction rest as [|o rest IH]; intros k store roots Hd Hk Hb; cbn [link_all].
  { assert (length os = k) as -> by (apply (f_equal length) in Hd; rewrite length_drop in Hd; simpl in Hd; lia). done. }
  assert (os !! k = Some o) as Ho by (rewrite <- (Nat.add_0_r k), <- lookup_drop, Hd; done).
  pose proof (linked_below_step k o store roots Ho Hb) as Hs.
  destruct (link_edges _ _ _ _ _) as [store' linked]. apply IH; [|apply lookup_lt_Some in Ho; lia|done].
  rewrite <- Nat.add_1_r, <- drop_drop, Hd. done.
Qed.

Lemma linked_start :
  (∀ o, o ∈ os → children (o_node o) = []) → linked_below 0 (store_of os) [].
Proof.
  intros Hch. assert (∀ n, store_of os !! n = o_node <$> os !! n) as Hl.
  { intros n. unfold store_of. rewrite lookup_map_seq_0. by rewrite list_lookup_fmap. }
  assert (∀ p c, ¬ edge (store_of os) p c) as Hne.
  { intros p c (nd & Hp & Hc). rewrite Hl in Hp. apply fmap_Some in Hp as (o & Ho & ->).
    rewrite (Hch o) in Hc by (by eapply list_elem_of_lookup_2). by apply elem_of_nil in Hc. }
  split.
  - intros n. rewrite Hl, fmap_is_Some. apply lookup_lt_is_Some.
  - intros n nd o Hn Ho. rewrite Hl, Ho in Hn. by injection Hn as <-.
  - intros n Hn. inversion Hn as [? ? H|? ? ? H]; by apply Hne in H.
  - intros p c H%Hne. done.
  - lia.
  - intros n. split; [by intros []%elem_of_nil|lia].
  - constructor.
Qed.

(** ** Every object is below a root *)

Lemma acyclic_rooted store (dom_fin : gset nid) :
  acyclic store → (∀ p c, edge store p c → p ∈ dom_fin) →
  ∀ n, ∃ r, rtc (edge store) r n ∧ ¬ ∃ p, edge store p r.
Proof.
  intros Hac Hdom n.
  set (anc n := filter (λ j, j ≠ n ∧ _reaches store j n = true) dom_fin).
  remember (size (anc n)) as k eqn:Hk. revert n Hk.
  induction k as [k IH] using lt_wf_ind. intros n ->.
  destruct (decide (Exists (λ j, edge store j n) (elements dom_fin))) as [Hex|Hnex].
  - apply Exists_exists in Hex as (p & Hp & Hpn).
    destruct (IH (size (anc p))) with (n := p) as (r & Hr & Hroot); [|done|].
    + apply subset_size. split.
      * intros j [[Hj Hjp] Hjd]%elem_of_filter. apply elem_of_filter. split; [|done]. apply reaches_spec in Hjp.
        split; [|apply reaches_spec; by eapply rtc_r]. intros ->. apply (Hac n).
        eapply tc_rtc_l; [exact Hjp|by apply tc_once].
      * intros Hsub. assert (p ∈ anc n) as Hin.
        { apply elem_of_filter. split; [split|by eapply Hdom].
          - intros ->. apply (Hac n). by apply tc_once.
          - apply reaches_spec. by apply rtc_once. }
        apply Hsub, elem_of_filter in Hin as [[? _] _]. done.
    + exists r. split; [by eapply rtc_r|done].
  - exists n. split; [reflexivity|]. intros [p Hpn]. apply Hnex, Exists_exists. exists p.
    split; [apply elem_of_elements; by eapply Hdom|done].
Qed.

End forest.
