(* ===== verification/ModernSpec.v ===== *)
(** * Properties of the modern parser

    A small program logic over the parser monad: [keeps m Φ] says that [m] leaves the
    tokens, objects and groups alone, raises at most the [ValueError] of [_port], and ends
    with a value that satisfies [Φ]. *)
From Stdlib Require Import Ascii.
From S2P Require Import Prelude Status Model Graph Flatten Json PyStr PyNum PyDict Lexer Modern ModernForest.

(** ** The logic *)

Definition core (st : PState) :=
  (toks st, objects st, object_index st, object_attr_keys st, group_defaults st).

Definition keeps {A} (m : M A) (Φ : A → Prop) : Prop :=
  ∀ st, match m st with
        | Ok (a, st') => core st' = core st ∧ Φ a
        | Raise e => e = ParseValueError
        end.

Section rules.
Context {A B : Type}.
Implicit Types (Φ : A → Prop) (Ψ : B → Prop).

Lemma keeps_ret (a : A) Φ : Φ a → keeps (mret a) Φ.
Proof. by intros H st. Qed.

Lemma keeps_bind (m : M A) (k : A → M B) Φ Ψ :
  keeps m Φ → (∀ a, Φ a → keeps (k a) Ψ) → keeps (m ≫= k) Ψ.
Proof.
  intros Hm Hk st. specialize (Hm st). unfold mbind, M_bind. destruct (m st) as [[a st1]|e]; [|done].
  destruct Hm as [Hc Ha]. specialize (Hk a Ha st1). destruct (k a st1) as [[b st2]|e]; [|done].
  destruct Hk as [Hc2 ?]. by rewrite Hc2.
Qed.

Lemma keeps_mono (m : M A) Φ Φ' : keeps m Φ → (∀ a, Φ a → Φ' a) → keeps m Φ'.
Proof. intros Hm H st. specialize (Hm st). destruct (m st) as [[a st1]|e]; [destruct Hm; auto|done]. Qed.

Lemma keeps_get (f : PState → A) : keeps (get f) (λ _, True).
Proof. by intros st. Qed.

Lemma keeps_raise Φ : keeps (raise ParseValueError) Φ.
Proof. by intros st. Qed.

End rules.

Lemma keeps_true {A} (m : M A) Φ : keeps m Φ → keeps m (λ _, True).
Proof. intros H. by eapply keeps_mono. Qed.

Lemma keeps_warn l msg : keeps (_warn l msg) (λ _, True).
Proof. intros []. done. Qed.

Lemma keeps_override f v : keeps (set_override f v) (λ _, True).
Proof. intros []. done. Qed.

Lemma keeps_when b (m : M unit) : keeps m (λ _, True) → keeps (when b m) (λ _, True).
Proof. intros H. destruct b; [done|by apply keeps_ret]. Qed.

Lemma keeps_for_each {A} (f : A → M unit) l :
  (∀ a, keeps (f a) (λ _, True)) → keeps (for_each f l) (λ _, True).
Proof.
  intros H. induction l as [|a l IH]; [by apply keeps_ret|]. cbn [for_each].
  by eapply keeps_bind; [apply H|].
Qed.

Lemma keeps_map_m {A B} (f : A → M B) l (R : A → B → Prop) :
  (∀ a, a ∈ l → keeps (f a) (R a)) → keeps (map_m f l) (λ bs, Forall2 R l bs).
Proof.
  induction l as [|a l IH]; intros H; cbn [map_m]; [apply keeps_ret; constructor|].
  eapply keeps_bind; [apply H, list_elem_of_here|]. intros b Hb. cbv beta.
  eapply keeps_bind; [apply IH; intros; apply H; by apply list_elem_of_further|]. intros bs Hbs.
  apply keeps_ret. by constructor.
Qed.

Create HintDb psy_keeps.
#[export] Hint Resolve keeps_warn keeps_override keeps_get keeps_raise : psy_keeps.

(** One step of a proof that a piece of code keeps the core, when its value is not used. *)
Ltac keep_step :=
  lazymatch goal with
  | |- keeps (mret _) _ => apply keeps_ret; try done
  | |- keeps (when _ _) _ => apply keeps_when
  | |- keeps (mbind _ _) _ => eapply (keeps_bind _ _ (λ _, True)); [|intros ? _; cbv beta]
  | |- keeps (match ?x with _ => _ end) _ => destruct x
  | |- keeps (let _ := _ in _) _ => cbv zeta
  | |- keeps _ _ => eauto with psy_keeps
  end.

Ltac keep := repeat keep_step.

Lemma keeps_segments l ss : keeps (expand_segments l ss) (λ _, True).
Proof.
  induction ss as [|[c|n] ss IH]; cbn [expand_segments]; keep; exact IH.
Qed.

Lemma keeps_subst l v : keeps (_subst l v) (λ _, True).
Proof. apply keeps_segments. Qed.
#[export] Hint Resolve keeps_subst : psy_keeps.

Lemma keeps_vars f : keeps (modify (λ st, st <| vars := f st |>)) (λ _, True).
Proof. intros []. done. Qed.

Lemma keeps_one_value l nm vs : keeps (_one_value l nm vs) (λ _, True).
Proof. unfold _one_value. keep. Qed.
#[export] Hint Resolve keeps_one_value : psy_keeps.

Lemma keeps_with_value l nm vs k : (∀ r, keeps (k r) (λ _, True)) → keeps (with_value l nm vs k) (λ _, True).
Proof. intros H. unfold with_value. keep. Qed.

Lemma keeps_apply_config l nm vs : keeps (_apply_config l nm vs) (λ _, True).
Proof.
  assert (∀ nm k, (∀ r, keeps (k r) (λ _, True)) → keeps (with_value l nm vs k) (λ _, True)) as Hw
    by (intros; by apply keeps_with_value).
  unfold _apply_config, _set_int, _set_float, _set_str, _set_loglevel, _set_logging, _set_contact_on, _set_statusfile.
  keep; try (apply Hw; intros; keep).
Qed.

(** ** Valid nodes *)

Definition mail_type (t : CheckType) : bool :=
  match t with POP3 | POP3S | IMAP | IMAPS | FTP | FTPS => true | _ => false end.

(** The ping counts of one node: positive, and never more to be answered than sent. *)
Definition counts_ok (s m : option Z) : Prop :=
  (∀ x, s = Some x → 1 <= x) ∧ (∀ y, m = Some y → 1 <= y) ∧ (∀ x y, s = Some x → m = Some y → y <= x).

(** What every node of a parsed configuration satisfies; [nf] is the caller's threshold. *)
Record node_ok (nf : Z) (nd : Node) : Prop := {
  no_host : hostname nd ≠ "";
  no_port : 1 <= port nd <= 65535 ∨
    (port nd = default 0 (DEFAULT_PORT (check_type nd)) ∧ check_type nd ≠ TCP ∧ check_type nd ≠ UDP);
  no_contact_on : contact_on nd = "" ∨ contact_on nd ∈ CONTACT_ON_CHOICES;
  no_source : ∀ s, source nd = Some s → _source_family_ok nd s = true;
  no_interval : ∀ q, interval nd = Some q → (0 < q)%Q;
  no_max_down : node_max_down nd = nf ∨ 1 <= node_max_down nd;
  no_pings : counts_ok (send_pings nd) (min_pings nd);
  no_url : check_type nd = HTTP ∨ check_type nd = HTTPS → url nd ≠ "";
  no_creds : mail_type (check_type nd) = true → (username nd = "" ↔ password nd = "");
  no_dns : check_type nd = DNS → username nd ≠ "" ∧ contact nd ≠ "";
  no_children : children nd = []
}.

(** Updates of single fields. *)
Section fields.
Context (nf : Z) (nd : Node) (Hok : node_ok nf nd).

Lemma ok_interval q : (0 < q)%Q → node_ok nf (nd <| interval := Some q |>).
Proof. destruct Hok. destruct nd; split; simpl in *; try done. by intros ? [= <-]. Qed.

Lemma ok_max_down z : 1 <= z → node_ok nf (nd <| node_max_down := z |>).
Proof. destruct Hok. destruct nd; split; simpl in *; try done. by right. Qed.

Lemma ok_group g : node_ok nf (nd <| group := g |>).
Proof. destruct Hok. destruct nd; split; simpl in *; done. Qed.

Lemma ok_label g : node_ok nf (nd <| label := g |>).
Proof. destruct Hok. destruct nd; split; simpl in *; done. Qed.

Lemma ok_contact c : (check_type nd = DNS → c ≠ "") → node_ok nf (nd <| contact := c |>).
Proof. intros H. destruct Hok. destruct nd; split; simpl in *; try done. naive_solver. Qed.

Lemma ok_contact_on c : c ∈ CONTACT_ON_CHOICES → node_ok nf (nd <| contact_on := c |>).
Proof. intros H. destruct Hok. destruct nd; split; simpl in *; try done. by right. Qed.

Lemma ok_source s : _source_family_ok nd s = true → node_ok nf (nd <| source := Some s |>).
Proof. intros H. destruct Hok. destruct nd; split; simpl in *; try done. by intros ? [= <-]. Qed.

Lemma ok_counts s m : counts_ok s m → node_ok nf (nd <| send_pings := s |> <| min_pings := m |>).
Proof. intros H. destruct Hok. destruct nd; split; simpl in *; done. Qed.

End fields.

(** The parts of a node the override attributes do not touch. *)
Definition identity (nd : Node) := (hostname nd, check_type nd, send_pings nd, min_pings nd).

Lemma keeps_number_int l nm k raw : keeps (_number_int l nm k raw) (λ _, True).
Proof. unfold _number_int, bad_number. keep. Qed.
Lemma keeps_number_float l nm k raw : keeps (_number_float l nm k raw) (λ _, True).
Proof. unfold _number_float, bad_number. keep. Qed.
#[export] Hint Resolve keeps_number_int keeps_number_float : psy_keeps.

Lemma keeps_parse_source l who raw : keeps (_parse_source l who raw) (λ _, True).
Proof. unfold _parse_source. keep. Qed.
#[export] Hint Resolve keeps_parse_source : psy_keeps.

(** What one override step guarantees. *)
Definition steps_ok (nf : Z) (nd nd' : Node) : Prop := node_ok nf nd' ∧ identity nd' = identity nd ∧ contact nd' = contact nd.

Section overrides.
Context (nf : Z).

Lemma steps_refl nd : node_ok nf nd → steps_ok nf nd nd.
Proof. done. Qed.

Lemma ok_apply_queuetime l nm raw nd :
  node_ok nf nd → keeps (apply_queuetime l nm raw nd) (steps_ok nf nd).
Proof.
  intros Hok. unfold apply_queuetime. eapply keeps_bind; [apply keeps_number_float|]. intros [q|] _; [|by apply keeps_ret].
  destruct (Qle_bool q 0) eqn:E; [keep|]. apply keeps_ret. to_prop. split; [by apply ok_interval|by destruct nd].
Qed.

Lemma ok_apply_numfailures l nm raw nd :
  node_ok nf nd → keeps (apply_numfailures l nm raw nd) (steps_ok nf nd).
Proof.
  intros Hok. unfold apply_numfailures. eapply keeps_bind; [apply keeps_number_int|]. intros [z|] _; [|by apply keeps_ret].
  destruct (z <? 1) eqn:E; [keep|]. apply keeps_ret. to_prop. split; [by apply ok_max_down|by destruct nd].
Qed.

Lemma ok_apply_contact_on l nm raw nd :
  node_ok nf nd → keeps (apply_contact_on l nm raw nd) (steps_ok nf nd).
Proof.
  intros Hok. unfold apply_contact_on, mem. case_bool_decide; [|keep]. apply keeps_ret.
  split; [by apply ok_contact_on|by destruct nd].
Qed.

Lemma ok_apply_source l nm raw nd :
  node_ok nf nd → keeps (apply_source l nm raw nd) (steps_ok nf nd).
Proof.
  intros Hok. unfold apply_source. eapply keeps_bind; [apply keeps_parse_source|]. intros [s|] _; [|by apply keeps_ret].
  destruct (_source_family_ok nd s) eqn:E; [|keep]. apply keeps_ret. split; [by apply ok_source|by destruct nd].
Qed.

Lemma ok_on_key rs k f nd :
  (∀ v nd, node_ok nf nd → keeps (f v nd) (steps_ok nf nd)) →
  node_ok nf nd → keeps (on_key rs k f nd) (steps_ok nf nd).
Proof. intros Hf Hok. unfold on_key. destruct (aget rs k); [by apply Hf|by apply keeps_ret]. Qed.

Lemma ok_at_least_one l nm k z : keeps (at_least_one l nm k z) (λ r, ∀ x, r = Some x → 1 <= x).
Proof. unfold at_least_one. destruct z as [v|]; [|keep]. destruct (v <? 1) eqn:E; [keep|]. to_prop. apply keeps_ret. naive_solver lia. Qed.

(** The counts are set as a pair, and only when a key was given. *)
Lemma ok_apply_ping_counts l nm nd rs :
  node_ok nf nd →
  (ahas rs "send_pings" || ahas rs "min_pings" = true → send_pings nd = None ∧ min_pings nd = None) →
  keeps (_apply_ping_counts l nm nd rs) (λ nd', node_ok nf nd' ∧ hostname nd' = hostname nd ∧
    check_type nd' = check_type nd ∧ contact nd' = contact nd ∧
    (ahas rs "send_pings" || ahas rs "min_pings" = false → identity nd' = identity nd)).
Proof.
  intros Hok Hfresh. unfold _apply_ping_counts, opt_number.
  unfold ahas in *. destruct (aget rs "send_pings") as [sraw|] eqn:Es, (aget rs "min_pings") as [mraw|] eqn:Em.
  4: { intros st. cbn. by split_and!. }
  all: cbn [orb] in *; destruct (Hfresh eq_refl) as [Hs Hm].
  all: eapply keeps_bind; [eauto with psy_keeps || by apply keeps_ret|]; intros s0 _; cbv beta.
  all: eapply keeps_bind; [eauto with psy_keeps || by apply keeps_ret|]; intros m0 _; cbv beta.
  all: eapply keeps_bind; [apply ok_at_least_one|]; intros s1 Hs1; cbv beta.
  all: eapply keeps_bind; [apply ok_at_least_one|]; intros m1 Hm1; cbv beta.
  all: eapply (keeps_bind _ _ (λ p, counts_ok p.1 p.2)).
  all: try (destruct s1 as [s|], m1 as [m|]; try (destruct (s <? m) eqn:E; [keep|]);
            apply keeps_ret; to_prop; unfold counts_ok; simpl; naive_solver lia).
  all: intros [s2 m2] Hc; simpl in Hc; cbv iota beta.
  all: set (d := (_ || _)); clearbody d; destruct d; cbv iota beta; apply keeps_ret.
  1, 3, 5: by split_and!.
  all: assert (node_ok nf (nd <| send_pings := s2 |> <| min_pings := m2 |>)) as Hok' by by apply ok_counts.
  all: destruct s2, m2; destruct nd; simpl in *; subst; split_and!; done.
Qed.

Lemma ok_apply_overrides l nm nd rs :
  node_ok nf nd →
  (ahas rs "send_pings" || ahas rs "min_pings" = true → send_pings nd = None ∧ min_pings nd = None) →
  keeps (_apply_overrides l nm nd rs) (λ nd', node_ok nf nd' ∧ hostname nd' = hostname nd ∧
    check_type nd' = check_type nd ∧ contact nd' = contact nd ∧
    (ahas rs "send_pings" || ahas rs "min_pings" = false → identity nd' = identity nd)).
Proof.
  intros Hok Hfresh. unfold _apply_overrides.
  assert (∀ nd1 nd2, steps_ok nf nd1 nd2 →
    (ahas rs "send_pings" || ahas rs "min_pings" = true → send_pings nd1 = None ∧ min_pings nd1 = None) →
    (ahas rs "send_pings" || ahas rs "min_pings" = true → send_pings nd2 = None ∧ min_pings nd2 = None)) as Hfr.
  { intros nd1 nd2 (_ & [= _ _ -> ->] & _) ?. done. }
  eapply keeps_bind; [apply ok_on_key; [by apply ok_apply_queuetime|done]|]. intros nd1 H1.
  eapply keeps_bind; [apply ok_on_key; [by apply ok_apply_numfailures|apply H1]|]. intros nd2 H2.
  eapply keeps_bind; [apply ok_on_key; [|apply H2]|].
  { intros v nd0 H0. apply keeps_ret. split; [by apply ok_group|by destruct nd0]. }
  intros nd3 H3.
  eapply keeps_bind; [apply ok_on_key; [by apply ok_apply_contact_on|apply H3]|]. intros nd4 H4.
  eapply keeps_bind; [apply ok_on_key; [by apply ok_apply_source|apply H4]|]. intros nd5 H5.
  eapply keeps_mono; [apply ok_apply_ping_counts; [apply H5|
    exact (Hfr _ _ H5 (Hfr _ _ H4 (Hfr _ _ H3 (Hfr _ _ H2 (Hfr _ _ H1 Hfresh)))))]|].
  destruct H1 as (_ & I1 & C1), H2 as (_ & I2 & C2), H3 as (_ & I3 & C3), H4 as (_ & I4 & C4), H5 as (_ & I5 & C5).
  assert (identity nd5 = identity nd) as I by congruence.
  intros nd6 (H6 & Hh & Ht & Hc & Hi). pose proof I as [= Ih It _ _].
  split_and!; [done|congruence..|]. intros Hno. by rewrite Hi.
Qed.

Lemma keeps_port l nm raw : keeps (_port l nm raw) (λ r, ∀ p, r = Some p → 1 <= p <= 65535).
Proof.
  unfold _port. destruct raw as [raw|]; [|keep]. destruct (isdigit (strip raw)); cbn [negb]; [|keep].
  destruct (py_int (strip raw)) as [p|]; [|keep]. destruct ((0 <? p) && (p <=? 65535)) eqn:E; [|keep].
  apply keeps_ret. to_prop. intros ? [= <-]. lia.
Qed.

(** The node before the type's own fields. *)
Definition base_node (host : string) (ct : CheckType) : Node :=
  let nd0 := (new_node host ct) <| node_max_down := nf |> in
  match DEFAULT_PORT ct with Some p => nd0 <| port := p |> | None => nd0 end.

Definition typed_ok (rs : resolved_t) (host : string) (ct : CheckType) (nd : Node) : Prop :=
  node_ok nf (nd <| contact := get_str rs "contact" |>) ∧ contact nd = "" ∧ send_pings nd = None ∧
  min_pings nd = None ∧ check_type nd = ct.

Ltac typed_node := split_and!; [split|..]; simpl; try done; try (left; lia); try (right; split_and!; done); try (by left); try naive_solver.

Lemma ok_typed_fields l nm kw rs host ct :
  host ≠ "" →
  keeps (typed_fields l nm kw rs (base_node host ct)) (λ o, ∀ nd, o = Some nd → typed_ok rs host ct nd).
Proof.
  intros Hh. unfold typed_fields.
  assert (check_type (base_node host ct) = ct) as -> by by destruct ct.
  assert (∀ nd, typed_ok rs host ct nd → keeps (mret (Some nd)) (λ o, ∀ nd, o = Some nd → typed_ok rs host ct nd)) as Hret
    by (intros nd H; apply keeps_ret; by intros ? [= <-]).
  assert (∀ (m : M unit) (o : option Node), keeps m (λ _, True) → (∀ nd, o = Some nd → typed_ok rs host ct nd) →
    keeps (m;; mret o) (λ o, ∀ nd, o = Some nd → typed_ok rs host ct nd)) as Hm
    by (intros m o H Ho; eapply keeps_bind; [exact H|]; intros _ _; by apply keeps_ret).
  assert (counts_ok None None) as Hc by by unfold counts_ok.
  destruct ct; cbn [check_type].
  all: try (eapply keeps_bind; [apply keeps_port|]; intros [p|] Hp; cbv beta; apply keeps_ret; [|done];
    intros ? [= <-]; specialize (Hp p eq_refl); typed_node).
  all: try (case_bool_decide as Hu; [apply Hm; [apply keeps_warn|done]|]; apply Hret;
    destruct (aget rs "urltext"); typed_node).
  all: try (destruct (aget rs "port") as [raw|]; [eapply keeps_bind; [apply keeps_port|]; intros [p|] Hp; cbv beta; apply Hret;
    [specialize (Hp p eq_refl)|]; typed_node|apply Hret; typed_node]).
  all: try (destruct (bool_decide (get_str rs "username" = "")) eqn:Eu, (bool_decide (get_str rs "password" = "")) eqn:Ep;
    cbn [negb andb orb]; to_prop;
    first [apply Hret; typed_node | apply Hm; [apply keeps_when, keeps_warn|intros ? [= <-]; typed_node]]).
  - destruct (bool_decide (get_str rs "dns-query" = "")) eqn:Eq, (bool_decide (get_str rs "contact" = "")) eqn:Ec;
      cbn [orb]; to_prop; try (apply Hm; [apply keeps_warn|done]). apply Hret. typed_node.
Qed.
End overrides.

(** ** Building objects *)

Lemma keeps_first_value l vs : keeps (first_value l vs) (λ _, True).
Proof. unfold first_value. keep. Qed.
#[export] Hint Resolve keeps_first_value : psy_keeps.

Lemma keeps_unsupported known who attrs : keeps (warn_unsupported known who attrs) (λ _, True).
Proof. apply keeps_for_each. intros [k [kl v]]. keep. Qed.
#[export] Hint Resolve keeps_unsupported : psy_keeps.

Lemma keeps_resolve_attrs attrs :
  keeps (resolve_attrs attrs) (λ rs, ∀ k v, aget rs k = Some v → k ∈ akeys attrs).
Proof.
  unfold resolve_attrs. eapply keeps_bind.
  - apply (keeps_map_m _ _ (λ (a : string * (Z * attr_value)) (o : option (string * string)), ∀ kv, o = Some kv → kv.1 = a.1)).
    intros [k [l v]] _. destruct v as [vs|es].
    + eapply keeps_bind; [apply keeps_first_value|]. intros r _. apply keeps_ret. by intros ? [= <-].
    + by apply keeps_ret.
  - intros rs Hrs. apply keeps_ret. intros k v Hk%aget_elem. unfold akeys.
    induction Hrs as [|a o attrs rs Ha Hrs IH]; simpl in *; [by apply elem_of_nil in Hk|].
    destruct o as [kv|]; simpl in Hk.
    + apply elem_of_cons in Hk as [<-|Hk]; [rewrite <- (Ha (k, v)) by done; apply list_elem_of_here|].
      apply list_elem_of_further. by apply IH.
    + apply list_elem_of_further. by apply IH.
Qed.

Lemma keeps_collect_deps l es acc :
  NoDup acc → keeps (collect_deps l es acc) (λ ds, NoDup ds).
Proof.
  revert acc. induction es as [|e es IH]; intros acc Hnd; cbn [collect_deps]; [by apply keeps_ret|].
  eapply keeps_bind; [apply keeps_first_value|]. intros d _. apply IH. unfold mem.
  destruct (bool_decide (d = "")), (bool_decide (d ∈ acc)) eqn:E; simpl; try done. to_prop.
  apply NoDup_app. split_and!; [done| |apply NoDup_singleton]. intros x Hx ->%list_elem_of_singleton. done.
Qed.

(** An object: its node is valid, and what it left unset was not among its keys [ks]. *)
Definition obj_ok (nf : Z) (ks : list string) (nd : Node) : Prop :=
  node_ok nf nd ∧
  (send_pings nd ≠ None ∨ min_pings nd ≠ None → "send_pings" ∈ ks ∨ "min_pings" ∈ ks) ∧
  (check_type nd = DNS → "contact" ∈ ks).

Lemma ok_build_node nf l nm attrs :
  keeps (_build_node nf l nm attrs)
    (λ o, ∀ nd deps, o = Some (nd, deps) → obj_ok nf (akeys attrs) nd ∧ NoDup deps).
Proof.
  unfold _build_node. eapply keeps_bind; [apply keeps_resolve_attrs|]. intros rs Hrs. cbv beta zeta.
  eapply keeps_bind; [apply keeps_when, keeps_warn|]. intros _ _. cbv beta.
  generalize (if bool_decide (get_str rs "host" = "") then get_str rs "ip" else get_str rs "host"). intros host.
  destruct (bool_decide (host = "")) eqn:Hh; [keep|]. apply bool_decide_eq_false in Hh.
  destruct (aget rs "type" ≫= aget _TYPE_KEYWORDS) as [ct|]; [|keep].
  change (match DEFAULT_PORT ct with
          | Some p => ((new_node host ct) <| node_max_down := nf |>) <| port := p |>
          | None => (new_node host ct) <| node_max_down := nf |>
          end) with (base_node nf host ct).
  eapply keeps_bind; [by apply ok_typed_fields|]. intros [nd2|] Hnd; [|keep].
  destruct (Hnd nd2 eq_refl) as (Hok & Hc & Hs & Hm & Ht). cbv beta zeta. clear Hnd.
  set (nd3 := match aget rs "desc" with Some d => _ | None => nd2 end).
  set (nd4 := match aget rs "contact" with Some c => _ | None => nd3 end).
  assert (node_ok nf nd4 ∧ send_pings nd4 = None ∧ min_pings nd4 = None ∧ check_type nd4 = ct ∧
    contact nd4 = get_str rs "contact") as (Hok4 & Hs4 & Hm4 & Ht4 & Hc4).
  { subst nd4 nd3. unfold get_str in *.
    destruct (aget rs "contact") as [c|], (aget rs "desc") as [d|]; simpl in Hok; destruct nd2; simpl in *; subst;
      split_and!; try done; by apply (ok_label _ _ Hok). }
  clearbody nd4 nd3. eapply keeps_bind; [apply ok_apply_overrides; [done|by intros _]|].
  intros nd5 (Hok5 & _ & Ht5 & Hc5 & Hi5). cbv beta.
  eapply keeps_bind; [apply keeps_unsupported|]. intros _ _. cbv beta.
  destruct (dep_edges attrs) as [dl es].
  eapply keeps_bind; [apply keeps_collect_deps; constructor|]. intros deps Hdeps.
  apply keeps_ret. intros ? ? [= <- <-]. split; [|done]. split; [done|]. split.
  - intros Hset. destruct (ahas rs "send_pings" || ahas rs "min_pings") eqn:E.
    + unfold ahas in E. destruct (aget rs "send_pings") eqn:E1; [left; by eapply Hrs|].
      destruct (aget rs "min_pings") eqn:E2; [right; by eapply Hrs|done].
    + injection (Hi5 eq_refl) as _ _ Es Em. rewrite Es, Em in Hset. naive_solver.
  - intros Hdns. rewrite Ht5 in Hdns. destruct (no_dns _ _ Hok4 Hdns) as [_ Hne]. rewrite Hc4 in Hne. unfold get_str in Hne.
    destruct (aget rs "contact") eqn:E; [by eapply Hrs|done].
Qed.

(** ** The objects of a run *)

(** Names are distinct, the index finds them, and every object is valid. *)
Record objects_ok (nf : Z) (st : PState) : Prop := {
  ob_index : ∀ nm i, object_index st !! nm = Some i ↔ o_name <$> (objects st !! i) = Some nm;
  ob_ok : ∀ o, o ∈ objects st → obj_ok nf (default [] (object_attr_keys st !! o_name o)) (o_node o) ∧ NoDup (o_deps o)
}.

Lemma objects_ok_core nf st st' : core st' = core st → objects_ok nf st → objects_ok nf st'.
Proof. unfold core. intros [= _ Ho Hi Hk _] [H1 H2]. split; rewrite ?Ho, ?Hi, ?Hk; done. Qed.

Lemma objects_ok_toks nf f st : objects_ok nf st → objects_ok nf (st <| toks := f |>).
Proof. intros [H1 H2]. by destruct st. Qed.

(** A new object under a fresh name. *)
Lemma objects_ok_add nf st nm nd deps l ks :
  objects_ok nf st → object_index st !! nm = None → obj_ok nf ks nd → NoDup deps →
  objects_ok nf (st <| object_index := <[nm := length (objects st)]> (object_index st) |>
                    <| objects := objects st ++ [MkObj nm nd deps l] |>
                    <| object_attr_keys := <[nm := ks]> (object_attr_keys st) |>).
Proof.
  intros [H1 H2] Hn Hok Hd. destruct st as [tk vs ov wn obs idx aks gds rn rl]; simpl in *. split; simpl.
  - intros nm' i. rewrite lookup_insert_Some, lookup_app. split.
    + intros [[<- <-]|[Hne Hi]].
      * rewrite (proj2 (lookup_ge_None _ _)), Nat.sub_diag by lia. done.
      * apply H1 in Hi. destruct (obs !! i); done.
    + destruct (obs !! i) as [o|] eqn:Eo; simpl.
      * intros [= <-]. right. assert (idx !! o_name o = Some i) as Hi by (apply H1; by rewrite Eo).
        split; [|done]. intros ->. congruence.
      * intros H. left. destruct (i - length obs)%nat as [|k] eqn:Ek; [|by destruct k].
        simpl in H. injection H as <-. split; [done|]. apply lookup_ge_None in Eo. lia.
  - intros o [Ho| ->%list_elem_of_singleton]%elem_of_app; simpl; [|by rewrite lookup_insert_eq].
    assert (o_name o ≠ nm) as Hne.
    { intros <-. apply list_elem_of_lookup in Ho as [i Hi]. assert (idx !! o_name o = Some i) by (apply H1; by rewrite Hi). congruence. }
    rewrite lookup_insert_ne by done. by apply H2.
Qed.

(** ** Consuming tokens *)

(** The exceptions a parse may end with. *)
Definition allowed (e : perror) : Prop := e = ParseValueError ∨ ∃ l, e = ParseError (include_error l).

(** From at most [n] tokens [m] gets to at most [n'], and the objects stay valid. *)
Definition runs (nf : Z) {A} (n : nat) (m : M A) (n' : nat) (Φ : A → Prop) : Prop :=
  ∀ st, objects_ok nf st → (length (toks st) <= n)%nat →
    match m st with
    | Ok (a, st') => objects_ok nf st' ∧ (length (toks st') <= n')%nat ∧ Φ a
    | Raise e => allowed e
    end.

Section runs.
Context (nf : Z).

Lemma runs_keeps {A} n (m : M A) Φ : keeps m Φ → runs nf n m n Φ.
Proof.
  intros Hm st Hok Hlen. specialize (Hm st). destruct (m st) as [[a st']|e]; [|by left].
  destruct Hm as [Hc Ha]. split_and!; [by eapply objects_ok_core| |done].
  unfold core in Hc. injection Hc as -> _ _ _ _. done.
Qed.

Lemma runs_bind {A B} n k n' (m : M A) (f : A → M B) Φ Ψ :
  runs nf n m k Φ → (∀ a, Φ a → runs nf k (f a) n' Ψ) → runs nf n (m ≫= f) n' Ψ.
Proof.
  intros Hm Hf st Hok Hlen. specialize (Hm st Hok Hlen). unfold mbind, M_bind.
  destruct (m st) as [[a st1]|e]; [|done]. destruct Hm as (? & ? & ?). by apply Hf.
Qed.

Lemma runs_weaken {A} n n' k k' (m : M A) Φ :
  runs nf n m k Φ → (n' <= n)%nat → (k <= k')%nat → runs nf n' m k' Φ.
Proof.
  intros Hm Hn Hk st Hok Hlen. specialize (Hm st Hok ltac:(lia)). destruct (m st) as [[a st']|e]; [|done].
  destruct Hm as (? & ? & ?). split_and!; [done|lia|done].
Qed.

Lemma runs_ret {A} n (a : A) : runs nf n (mret a) n (λ _, True).
Proof. by apply runs_keeps, keeps_ret. Qed.

Lemma runs_toks n n' (f : PState → list Token) :
  (∀ st, (length (toks st) <= n)%nat → (length (f st) <= n')%nat) →
  runs nf n (modify (λ st, st <| toks := f st |>)) n' (λ _, True).
Proof.
  intros Hf st Hok Hlen. split_and!; [by apply objects_ok_toks| |done]. specialize (Hf st Hlen). by destruct st.
Qed.

Lemma runs_advance n : runs nf n advance (pred n) (λ _, True).
Proof. apply runs_toks. intros st H. destruct (toks st); simpl in *; lia. Qed.

Lemma runs_take n k : runs nf n (_take k) n (λ _, True).
Proof.
  unfold _take. eapply runs_bind; [apply runs_keeps, keeps_get|]. intros p _. cbv beta. case_bool_decide; [|apply runs_ret].
  eapply runs_bind; [apply runs_advance|]. intros _ _. eapply runs_weaken; [apply runs_ret|done|lia].
Qed.

Lemma runs_take_value n ks : runs nf n (_take_value ks) n (λ _, True).
Proof.
  unfold _take_value. eapply runs_bind; [apply runs_keeps, keeps_get|]. intros p _. cbv beta.
  case_bool_decide; [|apply runs_ret]. eapply runs_bind; [apply runs_keeps, keeps_get|]. intros v _. cbv beta.
  eapply runs_bind; [apply runs_advance|]. intros _ _. eapply runs_weaken; [apply runs_ret|done|lia].
Qed.

Lemma until_semi_length ts : (length (until_semi ts).2 <= pred (length ts))%nat.
Proof.
  induction ts as [|t ts IH]; simpl; [lia|]. case_bool_decide; simpl; [lia|].
  destruct (until_semi ts) as [[c b] r]. simpl in *. lia.
Qed.

Lemma runs_collect_to_semi n : runs nf n _collect_to_semi (pred n) (λ _, True).
Proof.
  intros st Hok Hlen. unfold _collect_to_semi. pose proof (until_semi_length (toks st)).
  destruct (until_semi (toks st)) as [[c b] r]. simpl in *. split_and!; [by apply objects_ok_toks| |done].
  destruct st; simpl in *. lia.
Qed.

Lemma balanced_length d ts : (length (balanced d ts) <= length ts)%nat.
Proof.
  revert d. induction ts as [|t ts IH]; intros [|d]; cbn [balanced]; simpl; try lia.
  destruct (kind t); etrans; try apply IH; lia.
Qed.

Lemma runs_skip_balanced n : runs nf n _skip_balanced n (λ _, True).
Proof. apply runs_toks. intros st H. pose proof (balanced_length 1 (toks st)). lia. Qed.

Lemma runs_unit {A} n n' (m : M A) : runs nf n m n' (λ _, True) → runs nf n (m;; mret tt) n' (λ _, True).
Proof. intros H. eapply runs_bind; [exact H|]. intros _ _. apply runs_ret. Qed.

Lemma runs_skip_block_or_semi n : runs nf n _skip_block_or_semi n (λ _, True).
Proof.
  unfold _skip_block_or_semi, _skip_block. eapply runs_bind; [apply runs_keeps, keeps_get|]. intros p _. cbv beta.
  case_bool_decide.
  - eapply runs_bind; [apply runs_take|]. intros b _. destruct b; [|apply runs_ret].
    eapply runs_bind; [apply runs_skip_balanced|]. intros _ _. apply runs_unit, runs_take.
  - apply runs_unit. eapply runs_weaken; [apply runs_collect_to_semi|done|lia].
Qed.

Lemma attr_run_length ts : (length (attr_run ts).2 <= length ts)%nat.
Proof.
  induction ts as [|t ts IH]; simpl; [lia|]. destruct (kind t); simpl; try lia;
    destruct (attr_run ts) as [[c b] r]; simpl in *; lia.
Qed.

Lemma attr_run_head t ts : kind t ≠ RBRACE → (length (attr_run (t :: ts)).2 <= length ts)%nat.
Proof.
  intros Hk. pose proof (attr_run_length ts). simpl. destruct (kind t); simpl; try done; try lia;
    destruct (attr_run ts) as [[c b] r]; simpl in *; lia.
Qed.

(** [_collect_attr] from a state whose tokens are known. *)
Lemma collect_attr_from st :
  objects_ok nf st →
  match _collect_attr st with
  | Ok (_, st') => objects_ok nf st' ∧ (length (toks st') <= length (attr_run (toks st)).2)%nat
  | Raise e => allowed e
  end.
Proof.
  intros Hok. unfold _collect_attr, mbind at 1, M_bind at 1, get. destruct (attr_run (toks st)) as [[c b] r]. simpl.
  assert (runs nf (length (toks st)) (modify (λ st, st <| toks := r |>);;
    match b with
    | Some l => _warn l "unexpected '{' in object body; skipping the block";; _skip_balanced;; _take SEMI;; mret c
    | None => mret c
    end) (length r) (λ _, True)) as Hr.
  { eapply (runs_bind _ (length r)); [by apply runs_toks|]. intros _ _. destruct b as [l|]; [|apply runs_ret].
    eapply runs_bind; [apply runs_keeps, keeps_warn|]. intros _ _.
    eapply runs_bind; [apply runs_skip_balanced|]. intros _ _.
    eapply runs_bind; [apply runs_take|]. intros _ _. apply runs_ret. }
  specialize (Hr st Hok ltac:(done)).
  lazymatch type of Hr with match ?x with _ => _ end =>
    lazymatch goal with |- match ?y with _ => _ end => change y with x; destruct x as [[a st']|] end end; [|done].
  destruct Hr as (? & ? & _). done.
Qed.

Lemma runs_collect_attr n : runs nf n _collect_attr n (λ _, True).
Proof.
  intros st Hok Hlen. pose proof (collect_attr_from st Hok) as H. pose proof (attr_run_length (toks st)).
  destruct (_collect_attr st) as [[a st']|]; [|done]. destruct H. split_and!; [done|lia|done].
Qed.

Lemma keeps_add_attr nm bl t vs attrs : keeps (add_attr nm bl t vs attrs) (λ _, True).
Proof. unfold add_attr. keep. Qed.

(** The body loop ends and never runs out of fuel. *)
Lemma runs_block_loop fuel nm bl attrs :
  runs nf fuel (block_loop fuel nm bl attrs) fuel (λ o, is_Some o).
Proof.
  revert attrs. induction fuel as [|fuel IH]; intros attrs st Hok Hlen; cbn [block_loop];
    unfold mbind at 1, M_bind at 1, get; destruct (toks st) as [|t ts] eqn:Et; simpl in Hlen; try lia.
  1, 2: split_and!; [done|rewrite Et; simpl; lia|by eexists].
  case_bool_decide as Hr.
  { assert (runs nf (S fuel) (advance;; _take SEMI;; mret (Some (attrs, true))) fuel (λ o, is_Some o)) as H.
    - eapply runs_bind; [apply runs_advance|]. intros _ _. eapply runs_bind; [apply runs_take|]. intros _ _.
      apply runs_keeps, keeps_ret. by eexists.
    - specialize (H st Hok ltac:(rewrite Et; simpl; lia)).
      destruct ((advance;; _take SEMI;; mret (Some (attrs, true))) st) as [[o st']|]; [|done]. naive_solver lia. }
  assert (∀ m : M (option (attrs_t * bool)), runs nf (length (t :: ts)) m fuel (λ o, is_Some o) →
    match m st with Ok (a, st') => objects_ok nf st' ∧ (length (toks st') <= S fuel)%nat ∧ is_Some a | Raise e => allowed e end) as Hgo.
  { intros m Hm. specialize (Hm st Hok ltac:(by rewrite Et)). destruct (m st) as [[o st']|]; [|done]. naive_solver lia. }
  destruct (bool_decide (kind t = WORD)) eqn:Ew; cbn [negb].
  - apply Hgo. eapply runs_bind; [apply runs_advance|]. intros _ _. cbv beta. eapply runs_bind; [apply runs_collect_attr|].
    intros raw _. cbv beta zeta. eapply runs_bind; [apply runs_keeps, keeps_when, keeps_warn|]. intros _ _.
    eapply runs_bind; [apply runs_keeps, keeps_add_attr|]. intros attrs' _. eapply runs_weaken; [apply IH|simpl; lia|done].
  - (* a stray token: the first one is consumed *)
    unfold mbind at 1, M_bind at 1, _warn, modify. set (st1 := st <| warnings := _ |>).
    assert (toks st1 = t :: ts) as Et1 by by destruct st.
    assert (objects_ok nf st1) as Hok1 by (eapply objects_ok_core; [|exact Hok]; by destruct st).
    clearbody st1. unfold mbind, M_bind.
    pose proof (collect_attr_from st1 Hok1) as Hc. pose proof (attr_run_head t ts Hr) as Hh. rewrite Et1 in Hc.
    destruct (_collect_attr st1) as [[a st2]|e]; [|done]. destruct Hc as [Hok2 Hl2].
    specialize (IH attrs st2 Hok2 ltac:(lia)). destruct (block_loop fuel nm bl attrs st2) as [[o st3]|]; [|done].
    naive_solver lia.
Qed.
End runs.

(** ** Statements *)

Section statements.
Context (nf : Z).

Lemma runs_block_attrs n nm bl : runs nf n (_collect_block_attrs nm bl) n (λ _, True).
Proof.
  intros st Hok Hlen. unfold _collect_block_attrs, mbind at 1, M_bind at 1, get.
  pose proof (runs_block_loop nf (length (toks st)) nm bl [] st Hok ltac:(done)) as H.
  unfold mbind, M_bind. destruct (block_loop _ nm bl [] st) as [[o st']|]; [|done].
  destruct H as (? & ? & _). split_and!; [done|lia|done].
Qed.

Lemma runs_add_object n l nm attrs : runs nf n (_add_object nf l nm attrs) n (λ _, True).
Proof.
  unfold _add_object. eapply runs_bind; [apply runs_keeps, ok_build_node|]. intros [[nd deps]|] Hb; [|apply runs_ret].
  destruct (Hb nd deps eq_refl) as [Hnd Hdeps]. cbv beta. intros st Hok Hlen.
  unfold mbind, M_bind, get. destruct (object_index st !! nm) as [i|] eqn:Ei; cbn [given].
  - exact (runs_keeps nf n _ _ (keeps_warn _ _) st Hok Hlen).
  - unfold modify. split_and!; [by apply objects_ok_add|by destruct st|done].
Qed.

Lemma runs_object n l : runs nf n (_object nf l) n (λ _, True).
Proof.
  unfold _object, _take_word. eapply runs_bind; [apply runs_take_value|]. intros [nm|] _; cbv beta.
  - eapply runs_bind; [apply runs_take|]. intros [] _.
    + eapply runs_bind; [apply runs_block_attrs|]. intros [attrs closed] _.
      eapply runs_bind; [apply runs_keeps, keeps_when, keeps_warn|]. intros _ _. apply runs_add_object.
    + eapply runs_bind; [apply runs_keeps, keeps_warn|]. intros _ _. apply runs_unit.
      eapply runs_weaken; [apply runs_collect_to_semi|done|lia].
  - eapply runs_bind; [apply runs_keeps, keeps_warn|]. intros _ _. apply runs_skip_block_or_semi.
Qed.

Lemma objects_ok_groups g st : objects_ok nf st → objects_ok nf (st <| group_defaults := g |>).
Proof. intros [H1 H2]. by destruct st. Qed.

Lemma runs_add_group n l nm attrs : runs nf n (_add_group l nm attrs) n (λ _, True).
Proof.
  unfold _add_group. case_bool_decide; [apply runs_keeps, keeps_warn|].
  eapply runs_bind; [apply runs_keeps; eapply keeps_true, keeps_resolve_attrs|]. intros rs _. cbv beta zeta.
  eapply runs_bind; [apply runs_keeps|].
  { destruct (aget _ "source"); [|by apply (keeps_ret _ (λ _, True))]. eapply keeps_bind; [apply keeps_parse_source|].
    intros src _. by apply (keeps_ret _ (λ _, True)). }
  intros settings _. eapply runs_bind; [apply runs_keeps, keeps_unsupported|]. intros _ _. cbv beta.
  eapply runs_bind; [apply runs_keeps, keeps_get|]. intros gs _. cbv beta.
  destruct (given _); [apply runs_keeps, keeps_warn|].
  intros st Hok Hlen. split_and!; [by apply objects_ok_groups|by destruct st|done].
Qed.

Lemma runs_group n l : runs nf n (_group l) n (λ _, True).
Proof.
  unfold _group, _take_name. eapply runs_bind; [apply runs_take_value|]. intros [raw|] _; cbv beta.
  - eapply runs_bind; [apply runs_keeps, keeps_subst|]. intros v _. cbv beta zeta.
    eapply runs_bind; [apply runs_take|]. intros [] _.
    + eapply runs_bind; [apply runs_block_attrs|]. intros [attrs closed] _.
      eapply runs_bind; [apply runs_keeps, keeps_when, keeps_warn|]. intros _ _. apply runs_add_group.
    + eapply runs_bind; [apply runs_keeps, keeps_warn|]. intros _ _. apply runs_unit.
      eapply runs_weaken; [apply runs_collect_to_semi|done|lia].
  - eapply runs_bind; [apply runs_keeps, keeps_warn|]. intros _ _. apply runs_skip_block_or_semi.
Qed.

(** [config], [set] and [root]: the arguments, then nothing the core sees. *)
Lemma runs_args {A} n (k : list Token * bool → M A) :
  (∀ p, keeps (k p) (λ _, True)) → runs nf n (_collect_to_semi ≫= k) n (λ _, True).
Proof.
  intros Hk. eapply runs_bind; [apply runs_collect_to_semi|]. intros p _.
  eapply runs_weaken; [apply runs_keeps, Hk|done|lia].
Qed.

Lemma keeps_root v l : keeps (modify (λ st, st <| root_name := v |> <| root_line := l |>)) (λ _, True).
Proof. intros []. done. Qed.

Lemma runs_config n l : runs nf n (_config l) n (λ _, True).
Proof.
  apply runs_args. intros [args term]. unfold warn_unterminated. keep. apply keeps_apply_config.
Qed.

Lemma runs_set n l : runs nf n (_set l) n (λ _, True).
Proof. apply runs_args. intros [args term]. unfold warn_unterminated. keep. apply keeps_vars. Qed.

Lemma runs_root n l : runs nf n (_root l) n (λ _, True).
Proof. apply runs_args. intros [args term]. unfold warn_unterminated. keep. apply keeps_root. Qed.

Lemma runs_statement n : runs nf (S n) (_statement nf) n (λ _, True).
Proof.
  unfold _statement.
  assert (∀ l msg, runs nf (S n) (_warn l msg;; _collect_to_semi;; mret tt) n (λ _, True)) as Hskip.
  { intros l msg. eapply runs_bind; [apply runs_keeps, keeps_warn|]. intros _ _. apply runs_unit, runs_collect_to_semi. }
  assert (∀ m : M unit, runs nf n m n (λ _, True) → runs nf (S n) (advance;; m) n (λ _, True)) as Hadv.
  { intros m Hm. eapply runs_bind; [apply runs_advance|]. by intros _ _. }
  intros st Hok Hlen. unfold mbind at 1, M_bind at 1, get. destruct (toks st) as [|t ts] eqn:Et.
  { split_and!; [done|rewrite Et; simpl; lia|done]. }
  assert (∀ m : M unit, runs nf (S n) m n (λ _, True) →
    match m st with Ok (a, st') => objects_ok nf st' ∧ (length (toks st') <= n)%nat ∧ True | Raise e => allowed e end) as Hgo.
  { intros m Hm. apply Hm; [done|by rewrite Et]. }
  destruct (negb _); [apply Hgo, Hskip|].
  destruct (bool_decide (value t = "config")); [apply Hgo, Hadv, runs_config|].
  destruct (bool_decide (value t = "set")); [apply Hgo, Hadv, runs_set|].
  destruct (bool_decide (value t = "root")); [apply Hgo, Hadv, runs_root|].
  destruct (bool_decide (value t = "object")); [apply Hgo, Hadv, runs_object|].
  destruct (bool_decide (value t = "group")); [apply Hgo, Hadv, runs_group|].
  destruct (bool_decide (value t = "include")); [right; by eexists|apply Hgo, Hskip].
Qed.

(** The statement loop reads every token. *)
Lemma runs_statements fuel : runs nf fuel (statements nf fuel) 0 (λ b, b = true).
Proof.
  induction fuel as [|fuel IH]; intros st Hok Hlen; cbn [statements]; unfold mbind at 1, M_bind at 1, get;
    destruct (toks st) as [|t ts] eqn:Et; simpl in Hlen; try lia.
  1, 2: split_and!; [done|rewrite Et; simpl; lia|done].
  assert (runs nf (S fuel) (_statement nf;; statements nf fuel) 0 (λ b, b = true)) as H.
  { eapply runs_bind; [apply runs_statement|]. intros _ _. apply IH. }
  apply H; [done|by rewrite Et].
Qed.
End statements.

(** ** Group defaults *)

Lemma filter_aget {A} (P : string → Prop) `{!∀ k, Decision (P k)} (d : list (string * A)) k v :
  aget (filter (λ kv, P kv.1) d) k = Some v → P k.
Proof. intros Hk%aget_elem. by apply list_elem_of_filter in Hk as [? _]. Qed.

Lemma ok_resolve_one nf o st :
  obj_ok nf (default [] (object_attr_keys st !! o_name o)) (o_node o) →
  match resolve_one o st with
  | Ok (o', st') => core st' = core st ∧ o_name o' = o_name o ∧ o_deps o' = o_deps o ∧ node_ok nf (o_node o')
  | Raise e => e = ParseValueError
  end.
Proof.
  intros (Hok & Hping & Hdns). unfold resolve_one, mbind at 1 2, M_bind at 1 2, get.
  destruct (if bool_decide _ then None else _) as [grp|]; [|done].
  set (specified := default [] _) in *. cbv zeta.
  set (inh0 := filter (λ kv : string * string, kv.1 ∉ specified) grp).
  set (inh := if _ || _ then adel (adel inh0 "send_pings") "min_pings" else inh0).
  assert (∀ k v, aget inh k = Some v → k ∉ specified) as Hspec.
  { intros k v. assert (∀ v', aget inh0 k = Some v' → k ∉ specified) as H0
      by (intros v'; exact (filter_aget (λ k, k ∉ specified) grp k v')).
    subst inh. destruct (_ || _); [|apply H0]. rewrite !adel_aget. repeat case_bool_decide; try done. apply H0. }
  assert ((ahas inh "send_pings" || ahas inh "min_pings" = true) → send_pings (o_node o) = None ∧ min_pings (o_node o) = None) as Hfresh.
  { intros Hhas. assert (("send_pings" ∉ specified) ∧ ("min_pings" ∉ specified)) as [Hs Hm].
    { subst inh. unfold mem in Hhas. destruct (bool_decide ("send_pings" ∈ specified)) eqn:E1,
        (bool_decide ("min_pings" ∈ specified)) eqn:E2; cbn [orb] in Hhas; unfold ahas in Hhas; rewrite ?adel_aget in Hhas; try done.
      by to_prop. }
    destruct (send_pings (o_node o)), (min_pings (o_node o)); try done; exfalso;
      (destruct Hping as [?|?]; [by left|done|done]) || (destruct Hping as [?|?]; [by right|done|done]). }
  clearbody inh. clear Hping.
  set (body := (nd ← match aget inh "source" with
    | Some src => if _source_family_ok (o_node o) src then mret ((o_node o) <| source := Some src |>) else _ ;; mret (o_node o)
    | None => mret (o_node o) end; _)).
  assert (keeps body (λ o', o_name o' = o_name o ∧ o_deps o' = o_deps o ∧ node_ok nf (o_node o'))) as Hb; [|exact (Hb st)].
  subst body. eapply (keeps_bind _ _ (λ nd, steps_ok nf (o_node o) nd)).
  { destruct (aget inh "source") as [src|]; [|by apply keeps_ret]. destruct (_source_family_ok _ src) eqn:E; [|keep].
    apply keeps_ret. split; [by apply ok_source|by destruct (o_node o)]. }
  intros nd1 (Hok1 & Hi1 & Hc1). cbv beta zeta.
  set (nd2 := match aget (adel inh "source") "contact" with Some c => nd1 <| contact := c |> | None => nd1 end).
  assert (node_ok nf nd2 ∧ identity nd2 = identity nd1) as [Hok2 Hi2].
  { subst nd2. destruct (aget (adel inh "source") "contact") as [c|] eqn:Ec; [|done].
    rewrite adel_aget in Ec. simpl in Ec. split; [|by destruct nd1]. apply ok_contact; [done|]. intros Ht.
    destruct (Hspec _ _ Ec). apply Hdns. injection Hi1 as _ <- _ _. done. }
  clearbody nd2. eapply (keeps_bind _ _ (node_ok nf)).
  - case_bool_decide; [by apply keeps_ret|]. eapply keeps_mono; [apply ok_apply_overrides; [done|]|by intros ? (? & _)].
    unfold ahas. rewrite !adel_aget. simpl. intros Hh. destruct (Hfresh Hh) as [H1 H2].
    rewrite Hi1 in Hi2. injection Hi2 as _ _ -> ->. done.
  - intros nd3 H3. by apply keeps_ret.
Qed.

Lemma ok_resolve_all nf os st :
  (∀ o, o ∈ os → obj_ok nf (default [] (object_attr_keys st !! o_name o)) (o_node o)) →
  match map_m resolve_one os st with
  | Ok (os', st') => core st' = core st ∧
      Forall2 (λ o o', o_name o' = o_name o ∧ o_deps o' = o_deps o ∧ node_ok nf (o_node o')) os os'
  | Raise e => e = ParseValueError
  end.
Proof.
  revert st. induction os as [|o os IH]; intros st Hok; [by split; [|constructor]|].
  cbn [map_m]. unfold mbind, M_bind. pose proof (ok_resolve_one nf o st ltac:(apply Hok, list_elem_of_here)) as H1.
  destruct (resolve_one o st) as [[o' st1]|]; [|done]. destruct H1 as [Hc1 H1].
  assert (object_attr_keys st1 = object_attr_keys st) as Hk by (unfold core in Hc1; by injection Hc1).
  specialize (IH st1). rewrite Hk in IH. specialize (IH ltac:(intros; apply Hok; by apply list_elem_of_further)).
  destruct (map_m resolve_one os st1) as [[os' st2]|]; [|done]. destruct IH as [Hc2 IH].
  split; [by rewrite Hc2|by constructor].
Qed.

Lemma keeps_core {A} (m : M A) Φ st a st' :
  keeps m Φ → m st = Ok (a, st') → core st' = core st ∧ Φ a.
Proof. intros Hm H. specialize (Hm st). by rewrite H in Hm. Qed.

Lemma objects_ok_init nf ts : objects_ok nf (parser_init ts).
Proof.
  split; unfold parser_init; simpl; [|by intros o []%elem_of_nil].
  intros nm i. rewrite lookup_empty. by destruct i.
Qed.

(** What holds when the group defaults are in: the index is exact and every node is valid. *)
Record resolved_ok (nf : Z) (st : PState) : Prop := {
  rs_toks : toks st = [];
  rs_index : ∀ nm i, object_index st !! nm = Some i ↔ o_name <$> (objects st !! i) = Some nm;
  rs_node : ∀ o, o ∈ objects st → node_ok nf (o_node o) ∧ NoDup (o_deps o)
}.

Lemma resolve_ok nf st :
  objects_ok nf st → toks st = [] →
  match _resolve_group_defaults st with
  | Ok (_, st') => resolved_ok nf st'
  | Raise e => e = ParseValueError
  end.
Proof.
  intros [Hidx Hob] Ht. unfold _resolve_group_defaults, mbind, M_bind, get, modify.
  pose proof (ok_resolve_all nf (objects st) st ltac:(intros o Ho; by apply Hob)) as H.
  destruct (map_m resolve_one (objects st) st) as [[os' st1]|]; [|done]. destruct H as [Hc HF].
  unfold core in Hc. injection Hc as Hct Hco Hci _ _. destruct st1; simpl in *. subst.
  rewrite Forall2_lookup in HF. split; simpl; [done| |].
  - intros nm i. rewrite Hidx. specialize (HF i). destruct HF as [o o' (Hnm & _)|]; simpl; [by rewrite Hnm|done].
  - intros o' Ho'. apply list_elem_of_lookup in Ho' as [i Hi]. specialize (HF i). rewrite Hi in HF.
    inversion HF as [o ? (_ & Hd & Hn) Ho|]; subst. split; [done|]. rewrite Hd. apply Hob. by eapply list_elem_of_lookup_2.
Qed.

(** The whole run: every token is read, and the result is the linked forest of the valid objects. *)
Record parsed (nf : Z) (r : ParseResult) (st : PState) : Prop := {
  pd_resolved : resolved_ok nf st;
  pd_linked : linked_below (object_index st) (objects st) (length (objects st)) (pr_store r) (pr_roots r)
}.

Lemma unwarned_core st st' : unwarned st' = unwarned st → core st' = core st.
Proof. destruct st, st'. intros [= -> -> -> -> -> -> -> -> ->]. done. Qed.

Lemma resolved_ok_core nf st st' : core st' = core st → resolved_ok nf st → resolved_ok nf st'.
Proof. unfold core. intros [= Ht Ho Hi _ _] [H1 H2 H3]. split; rewrite ?Ht, ?Ho, ?Hi; done. Qed.

Lemma build_forest_ok nf st :
  resolved_ok nf st →
  ∃ store roots st', _build_forest st = Ok ((store, roots), st') ∧ core st' = core st ∧
    linked_below (object_index st) (objects st) (length (objects st)) store roots.
Proof.
  intros [_ Hidx Hn]. unfold _build_forest.
  assert (∀ (m : M unit) (k : M (gmap nid Node * list nid)) (P : _ → Prop), keeps m (λ _, True) →
    (∃ u, m st = Ok u) → (∀ st1, core st1 = core st → ∃ a st', k st1 = Ok (a, st') ∧ core st' = core st ∧ P a) →
    ∃ a st', (m;; k) st = Ok (a, st') ∧ core st' = core st ∧ P a) as Hseq.
  { intros m k P Hm [[[] st1] Hst] Hk. unfold mbind, M_bind. rewrite Hst. apply Hk. by eapply keeps_core in Hst as [? _]. }
  unfold mbind at 1 2 3, M_bind at 1 2 3, get at 1 2 3.
  edestruct (Hseq (match root_name st with
    | Some r => when (negb (given (object_index st !! r))) (_warn (root_line st) ("root " +:+ quoted r +:+ " names no object"))
    | None => mret tt end) (os ← get objects; link_objects 0 os (store_of os) []) (λ a, linked_below (object_index st) (objects st) (length (objects st)) a.1 a.2)) as ([store roots] & st' & H & Hc & HP).
  4: { exists store, roots, st'. split; [exact H|done]. }
  - keep.
  - destruct (root_name st); unfold when; [destruct (negb _)|]; eexists; reflexivity.
  - intros st1 Hc1. unfold mbind, M_bind, get.
    destruct (link_objects_run 0 (objects st1) (store_of (objects st1)) [] st1) as (st2 & Hr & H2).
    apply unwarned_core in H2. unfold core in Hc1, H2. exists (link_all (object_index st) 0 (objects st) (store_of (objects st)) []), st2.
    split; [|split; [unfold core; congruence|]].
    + injection Hc1 as _ Ho Hi _ _. by rewrite Hr, Ho, Hi.
    + pose proof (linked_all (object_index st) (objects st)) as HL.
      assert (∀ d p, object_index st !! d = Some p → (p < length (objects st))%nat) as Hlt.
      { intros d p Hd%Hidx. destruct (objects st !! p) eqn:E; [|done]. by eapply lookup_lt_Some. }
      specialize (HL Hlt 0%nat (objects st) (store_of (objects st)) [] eq_refl ltac:(lia)).
      destruct (link_all (object_index st) 0 (objects st) (store_of (objects st)) []) as [store' roots'].
      apply HL, linked_start.
      intros o Ho. apply (no_children nf), (Hn o Ho).
Qed.

Lemma parse_top_ok nf ts :
  match parse_top nf (parser_init ts) with
  | Ok (r, st) => parsed nf r st
  | Raise e => allowed e
  end.
Proof.
  unfold parse_top. unfold mbind at 1 2, M_bind at 1 2, get at 1.
  pose proof (runs_statements nf (length ts) (parser_init ts) (objects_ok_init nf ts) ltac:(simpl; lia)) as H1.
  change (length (toks (parser_init ts))) with (length ts).
  destruct (statements nf (length ts) (parser_init ts)) as [[b st1]|e]; [|done]. destruct H1 as (Hok & Hlen & _).
  apply Nat.le_0_r, nil_length_inv in Hlen.
  pose proof (resolve_ok nf st1 Hok Hlen) as H2. unfold mbind at 1, M_bind at 1.
  destruct (_resolve_group_defaults st1) as [[[] st2]|e]; [|by left].
  destruct (build_forest_ok nf st2 H2) as (store & roots & st3 & H3 & Hc & Hl).
  unfold mbind at 1, M_bind at 1. rewrite H3. unfold mbind, M_bind, get. simpl.
  split; simpl; [by eapply resolved_ok_core|]. unfold core in Hc. injection Hc as _ -> -> _ _. done.
Qed.

(** ** Properties *)

Lemma parse_inv nf text r :
  parse nf text = Some (Ok r) →
  ∃ ts st, tokenize text = Some (Ok ts) ∧ parse_top nf (parser_init ts) = Ok (r, st) ∧ parsed nf r st.
Proof.
  unfold parse. destruct (tokenize text) as [[ts|e]|]; try done. pose proof (parse_top_ok nf ts) as H.
  destruct (parse_top nf (parser_init ts)) as [[r' st]|e] eqn:E; [|done]. intros [= ->]. eauto.
Qed.

Lemma linked_edge_dom idx os k store roots p c :
  linked_below idx os k store roots → edge store p c → is_Some (store !! p) ∧ is_Some (store !! c).
Proof.
  intros Hl Hpc. split; [destruct Hpc as (nd & -> & _); eauto|]. apply (lb_dom _ _ _ _ _ Hl).
  apply (lb_edges _ _ _ _ _ Hl) in Hpc as (o & d & _ & Ho & _). by eapply lookup_lt_Some.
Qed.

Lemma linked_closed idx os store roots :
  linked_below idx os (length os) store roots → closed_graph store roots.
Proof.
  intros Hl. split.
  - intros n [Hn _]%(lb_roots _ _ _ _ _ Hl). by apply (lb_dom _ _ _ _ _ Hl).
  - intros n nd c Hn Hc. eapply (linked_edge_dom _ _ _ _ _ n); [done|]. by exists nd.
Qed.

Lemma linked_rooted idx os store roots n :
  linked_below idx os (length os) store roots → is_Some (store !! n) →
  ∃ r, r ∈ roots ∧ rtc (edge store) r n.
Proof.
  intros Hl Hn. destruct (acyclic_rooted store (dom store)) with (n := n) as (r & Hr & Hno).
  - apply (lb_acyclic _ _ _ _ _ Hl).
  - intros p c [? _]%(linked_edge_dom _ _ _ _ _ _ _ Hl). by apply elem_of_dom.
  - exists r. split; [|done]. apply (lb_roots _ _ _ _ _ Hl). split; [|done]. apply (lb_dom _ _ _ _ _ Hl).
    apply rtc_inv in Hr as [->|(m & Hrm & _)]; [done|]. by apply (linked_edge_dom _ _ _ _ _ _ _ Hl) in Hrm as [? _].
Qed.


(** C13: valid nodes.  Every node of a parsed configuration has a host, a port in range (or its
    type's default), a known [contact_on], a source of the family its check needs, a positive
    interval, a threshold of at least one unless it is the caller's, ping counts with
    [1 <= min <= send], and what its type requires: a URL for HTTP, both credentials or none
    for mail and FTP, a query name and an expected answer for DNS. *)
Theorem modern_nodes_valid (numfailures : Z) (text : string) (r : ParseResult) (n : nid) (nd : Node)
    (Hp : parse numfailures text = Some (Ok r)) (Hn : pr_store r !! n = Some nd) :
  node_ok numfailures (nd <| children := [] |>).
Proof.
  apply parse_inv in Hp as (ts & st & _ & _ & [[_ _ Hok] Hl]).
  destruct (objects st !! n) as [o|] eqn:Ho.
  - rewrite (lb_node _ _ _ _ _ Hl n nd o Hn Ho). destruct (Hok o) as [Hnd _]; [by eapply list_elem_of_lookup_2|].
    destruct Hnd. destruct (o_node o); split; simpl in *; done.
  - apply lookup_ge_None in Ho. assert (n < length (objects st))%nat; [|lia].
    apply (lb_dom _ _ _ _ _ Hl). by rewrite Hn.
Qed.

(** C12: the dependency forest.  The graph of a parsed configuration has the objects as its
    nodes and has no cycle; an edge runs from an object to one that names it in a [dep]; a
    [dep] that names an object is an edge unless its source already reaches the target; the
    roots are, once each, the objects without a parent, and every object is below one. *)
Theorem modern_forest (numfailures : Z) (ts : list Token) (r : ParseResult) (st : PState)
    (Hp : parse_top numfailures (parser_init ts) = Ok (r, st)) :
  (∀ n, is_Some (pr_store r !! n) ↔ (n < length (objects st))%nat) ∧
  acyclic (pr_store r) ∧
  (∀ p c, edge (pr_store r) p c →
     ∃ op oc, objects st !! p = Some op ∧ objects st !! c = Some oc ∧ o_name op ∈ o_deps oc) ∧
  (∀ p c op oc, objects st !! p = Some op → objects st !! c = Some oc → o_name op ∈ o_deps oc →
     edge (pr_store r) p c ∨ rtc (edge (pr_store r)) c p) ∧
  NoDup (pr_roots r) ∧
  (∀ n, n ∈ pr_roots r ↔ is_Some (pr_store r !! n) ∧ ¬ ∃ p, edge (pr_store r) p n) ∧
  (∀ n, is_Some (pr_store r !! n) → ∃ root, root ∈ pr_roots r ∧ rtc (edge (pr_store r)) root n).
Proof.
  pose proof (parse_top_ok numfailures ts) as H. rewrite Hp in H. destruct H as [[_ Hidx _] Hl].
  split_and!; try by apply Hl.
  - intros p c (oc & d & _ & Hc & Hd & Hi)%(lb_edges _ _ _ _ _ Hl). apply Hidx in Hi.
    apply fmap_Some in Hi as (op & Hop & ->). eauto.
  - intros p c op oc Hop Hoc Hd. eapply (lb_complete _ _ _ _ _ Hl); [by eapply lookup_lt_Some|done..|].
    apply Hidx. by rewrite Hop.
  - intros n. rewrite (lb_roots _ _ _ _ _ Hl), (lb_dom _ _ _ _ _ Hl). done.
  - intros n. by apply (linked_rooted _ _ _ _ _ Hl).
Qed.

Definition demo_text : string :=
  "set M = ops@x;" +:+ String nl ("group g { min_pings 2; send_pings 3; }" +:+ String nl
  ("object r { host 10.0.0.1; type ping; group g; contact $M; dep w; }" +:+ String nl
   "object w { host a; type www; url /; dep r; dep q; } object q { host b; type dns; dns-query z; contact y; }")).

Definition demo_tokens : list Token := match tokenize demo_text with Some (Ok ts) => ts | _ => [] end.

Definition demo_run : ParseResult * PState :=
  match parse_top 4 (parser_init demo_tokens) with
  | Ok p => p
  | Raise _ => (MkParseResult ∅ [] [] [], parser_init [])
  end.

Lemma demo_top : parse_top 4 (parser_init demo_tokens) = Ok demo_run.
Proof. vm_compute. reflexivity. Qed.

Lemma demo_parses : parse 4 demo_text = Some (Ok demo_run.1).
Proof. vm_compute. reflexivity. Qed.


(** The second object of the example, a child of the third. *)
Lemma modern_nodes_valid_witness : ∃ nd, pr_store demo_run.1 !! 1%nat = Some nd ∧ node_ok 4 (nd <| children := [] |>).
Proof.
  assert (is_Some (pr_store demo_run.1 !! 1%nat)) as [nd Hn] by (vm_compute; eauto).
  exists nd. split; [exact Hn|]. exact (modern_nodes_valid 4 demo_text demo_run.1 1 nd demo_parses Hn).
Defined.

Lemma modern_forest_witness : pr_roots demo_run.1 = [2%nat] ∧ acyclic (pr_store demo_run.1).
Proof.
  split; [vm_compute; reflexivity|].
  exact (proj1 (proj2 (modern_forest 4 demo_tokens demo_run.1 demo_run.2 demo_top))).
Defined.
