(* ===== verification/Legacy.v ===== *)
(** * The parser of the original grammar (src/psysmon/config/legacy.py)

    [_Parser] is a state and exception monad over [LState].  A node made here is reachable
    from one place only, its parent's [children], so a block is a list of trees; [parse]
    numbers the nodes in the order the lines come.  The recursion of [parse_block] takes
    fuel, one unit per line read. *)
From Stdlib Require Import Ascii.
From S2P Require Import Prelude Status Model Graph Json PyStr PyNum PyDict Modern.

(** ** Tables *)

Definition _PATH_STR_GLOBALS : list string := ["control_token_file"; "control_tls_cert"; "control_tls_key"].

(** In dispatch order; [None] marks a type that is recognised and skipped. *)
Definition _TYPE_KEYWORDS : list (string * option CheckType) :=
  [("ping6", Some PING6); ("pingv6", Some PING6); ("icmp6", Some PING6); ("ping", Some PING);
   ("pop3s", Some POP3S); ("imaps", Some IMAPS); ("pop3", Some POP3); ("imap", Some IMAP);
   ("tcp", Some TCP); ("udp", Some UDP); ("nntp", None); ("smtp", Some SMTP); ("umichx500", None);
   ("www", Some HTTP); ("authdns", Some DNS); ("radius", None); ("https", Some HTTPS); ("ssh", Some SSH);
   ("mysql", Some MYSQL); ("ftps", Some FTPS); ("ftp", Some FTP); ("telnet", Some TELNET)].

Definition _PING_LIKE (t : CheckType) : bool := match t with PING | PING6 | SMTP => true | _ => false end.

Definition _MAX_NESTING_DEPTH : Z := 64.

Definition nesting_error : string := "configuration nesting exceeds the maximum depth of 64".

Fixpoint match_type_in (kws : list (string * option CheckType)) (token : string) : option (string * option CheckType) :=
  match kws with
  | [] => None
  | (kw, ct) :: kws' => if String.prefix kw token then Some (kw, ct) else match_type_in kws' token
  end.

(** The keyword that matches and its type. *)
Definition _match_type : string → option (string * option CheckType) := match_type_in _TYPE_KEYWORDS.

Definition _as_port (token : string) : option Z :=
  p ← py_int token;
  if (1 <=? p) && (p <=? 65535) then Some p else None.

(** ** State *)

Inductive tree : Type := Tree (nd : Node) (subtrees : list tree).

Record LState : Type := MkL {
  lines : list (Z * string);
  cur_numfailures : Z;
  cur_contact_on : string;
  cur_source : option string;
  cur_send_pings : option Z;
  cur_min_pings : option Z;
  cur_interval : option Q;
  l_overrides : list (string * oval);
  l_warnings : list string
}.

#[export] Instance set_lines : SetField lines := λ f x,
  let '(MkL a b c d e g h i j) := x in MkL (f a) b c d e g h i j.
#[export] Instance set_cur_numfailures : SetField cur_numfailures := λ f x,
  let '(MkL a b c d e g h i j) := x in MkL a (f b) c d e g h i j.
#[export] Instance set_cur_contact_on : SetField cur_contact_on := λ f x,
  let '(MkL a b c d e g h i j) := x in MkL a b (f c) d e g h i j.
#[export] Instance set_cur_source : SetField cur_source := λ f x,
  let '(MkL a b c d e g h i j) := x in MkL a b c (f d) e g h i j.
#[export] Instance set_cur_send_pings : SetField cur_send_pings := λ f x,
  let '(MkL a b c d e g h i j) := x in MkL a b c d (f e) g h i j.
#[export] Instance set_cur_min_pings : SetField cur_min_pings := λ f x,
  let '(MkL a b c d e g h i j) := x in MkL a b c d e (f g) h i j.
#[export] Instance set_cur_interval : SetField cur_interval := λ f x,
  let '(MkL a b c d e g h i j) := x in MkL a b c d e g (f h) i j.
#[export] Instance set_l_overrides : SetField l_overrides := λ f x,
  let '(MkL a b c d e g h i j) := x in MkL a b c d e g h (f i) j.
#[export] Instance set_l_warnings : SetField l_warnings := λ f x,
  let '(MkL a b c d e g h i j) := x in MkL a b c d e g h i (f j).

(** [list(enumerate(lines, start=1))] *)
Fixpoint enumerate_from (n : Z) (ls : list string) : list (Z * string) :=
  match ls with [] => [] | l :: ls' => (n, l) :: enumerate_from (n + 1) ls' end.

Definition legacy_init (ls : list string) (numfailures : Z) : LState :=
  MkL (enumerate_from 1 ls) numfailures "" None None None None [] [].

(** ** The monad *)

Definition L (A : Type) : Type := LState → res perror (A * LState).

#[export] Instance L_ret : MRet L := λ A a st, Ok (a, st).
#[export] Instance L_bind : MBind L := λ A B k m st,
  match m st with Ok (a, st') => k a st' | Raise e => Raise e end.

Definition lget {A} (f : LState → A) : L A := λ st, Ok (f st, st).
Definition lmod (f : LState → LState) : L unit := λ st, Ok (tt, f st).
Definition lraise {A} (e : perror) : L A := λ _, Raise e.
Definition lwhen (b : bool) (m : L unit) : L unit := if b then m else mret tt.

Definition lwarn (lineno : Z) (message : string) : L unit :=
  lmod (λ st, st <| l_warnings := l_warnings st ++ ["line " +:+ pretty lineno +:+ ": " +:+ message] |>).

Definition override (field : string) (v : oval) : L unit :=
  lmod (λ st, st <| l_overrides := aset (l_overrides st) field v |>).

Definition _next : L (option (Z * string)) := λ st,
  match lines st with
  | [] => Ok (None, st)
  | item :: rest => Ok (Some item, st <| lines := rest |>)
  end.

(** [tokens[k]]; every use is under a guard on the length. *)
Definition tok (tokens : list string) (k : nat) : string := default "" (tokens !! k).

(** ** Values *)

Definition _to_int (lineno : Z) (token : string) : L (option Z) :=
  match py_int token with
  | Some z => mret (Some z)
  | None => lwarn lineno ("expected an integer, got " +:+ py_repr token +:+ "; skipping");; mret None
  end.

Definition _to_float (lineno : Z) (token : string) : L (option pyfloat) :=
  match py_float token with
  | Some f => mret (Some f)
  | None => lwarn lineno ("expected a number, got " +:+ py_repr token +:+ "; skipping");; mret None
  end.

Definition l_one_value (lineno : Z) (name : string) (tokens : list string) : L string :=
  lwhen (3 <? length tokens)%nat (lwarn lineno ("config " +:+ name +:+ " takes one value; using the first"));;
  mret (tok tokens 2).

Definition if_some {A} (o : option A) (k : A → L unit) : L unit :=
  match o with Some a => k a | None => mret tt end.

Definition l_set_int (lineno : Z) (field token : string) : L unit :=
  v ← _to_int lineno token;
  if_some v (λ z, override field (OV (JInt z))).

Definition l_set_logging (lineno : Z) (facility : string) : L unit :=
  if bool_decide (facility = "none") then override "syslog_facility" (OV JNull)
  else if mem facility _FACILITIES then override "syslog_facility" (OV (JStr facility))
  else lwarn lineno ("unknown logging facility " +:+ py_repr facility +:+ "; using daemon");;
       override "syslog_facility" (OV (JStr "daemon")).

Definition l_set_loglevel (lineno : Z) (raw : string) : L unit :=
  let level := lower raw in
  if mem level _LOGLEVELS then override "log_level" (OV (JStr level))
  else lwarn lineno ("unknown loglevel " +:+ py_repr level +:+ "; using info");;
       override "log_level" (OV (JStr "info")).

Fixpoint join (sep : string) (ws : list string) : string :=
  match ws with [] => "" | [w] => w | w :: ws' => w +:+ sep +:+ join sep ws' end.

Definition dquote : ascii := ascii_of_N 34.

Definition joined_path (tokens : list string) : string := strip_char dquote (strip (join " " (drop 2 tokens))).

Definition _set_savestate (lineno : Z) (tokens : list string) : L unit :=
  let path := joined_path tokens in
  if bool_decide (path = "") then lwarn lineno "savestate needs a file path; skipping"
  else override "state_path" (OV (JStr path)).

Definition l_set_statusfile (lineno : Z) (tokens : list string) : L unit :=
  if negb (length tokens =? 4)%nat then lwarn lineno "statusfile needs <html|text> <path>; skipping"
  else
    let fmt := tok tokens 2 in
    let path := override "status_path" (OV (JStr (tok tokens 3))) in
    if String.prefix "html" fmt then override "status_html" (OV (JBool true));; path
    else if String.prefix "text" fmt then override "status_html" (OV (JBool false));; path
    else lwarn lineno ("statusfile type " +:+ py_repr fmt +:+ " invalid (want html or text); skipping").

Definition _set_global_int (lineno : Z) (field name : string) (tokens : list string) : L unit :=
  raw ← l_one_value lineno name tokens;
  v ← _to_int lineno raw;
  if_some v (λ z, override field (OV (JInt z))).

Definition _set_global_float (lineno : Z) (field name : string) (tokens : list string) : L unit :=
  raw ← l_one_value lineno name tokens;
  v ← _to_float lineno raw;
  if_some v (λ f, override field (oval_of_float f)).

Definition _set_global_str (lineno : Z) (field name : string) (tokens : list string) : L unit :=
  value ←
    (if mem name _PATH_STR_GLOBALS then mret (joined_path tokens)
     else
       lwhen (3 <? length tokens)%nat (lwarn lineno ("config " +:+ name +:+ " takes one value; using the first"));;
       mret (strip_char dquote (tok tokens 2)));
  if bool_decide (value = "") then lwarn lineno ("config " +:+ name +:+ " needs a value; skipping")
  else override field (OV (JStr value)).

Definition l_set_contact_on (lineno : Z) (value : string) : L unit :=
  if mem value CONTACT_ON_CHOICES then lmod (λ st, st <| cur_contact_on := value |>)
  else lwarn lineno ("unknown contact_on " +:+ py_repr value +:+ " (want " +:+ choices +:+ "); using both");;
       lmod (λ st, st <| cur_contact_on := "both" |>).

Definition _set_sticky_source (lineno : Z) (value : string) : L unit :=
  let val := strip_char dquote (strip value) in
  if bool_decide (lower val = SOURCE_AUTO) then lmod (λ st, st <| cur_source := Some SOURCE_AUTO |>)
  else match ip_version val with
       | Some _ => lmod (λ st, st <| cur_source := Some val |>)
       | None => lwarn lineno ("source must be an IP address or 'auto', got " +:+ py_repr value +:+ "; ignoring")
       end.

(** The running source as a node of this type may use it; [ip_address] may raise. *)
Definition _source_for (ctype : CheckType) (lineno : Z) : L (option string) :=
  src ← lget cur_source;
  match src with
  | None => mret None
  | Some s =>
      if bool_decide (s = SOURCE_AUTO) then mret (Some s)
      else match ip_version s with
           | None => lraise ParseValueError
           | Some v =>
               if v =? (if bool_decide (ctype = PING6) then 6 else 4) then mret (Some s)
               else lwarn lineno ("source " +:+ py_repr s +:+ " family does not match " +:+ ct_value ctype
                                  +:+ "; leaving unbound");; mret None
           end
  end.

(** The text of the number for a message; a negative zero keeps its sign. *)
Definition shown_float (token : string) (f : pyfloat) : string :=
  match f with
  | Fin q => if Qeq_bool q 0 && String.prefix "-" token then "-0.0" else float_repr f
  | _ => float_repr f
  end.

Definition _valid_interval (lineno : Z) (token : string) (f : pyfloat) : L (option Q) :=
  match f with
  | Fin q => if Qle_bool q 0 then
               lwarn lineno ("config queuetime must be a positive number, got " +:+ shown_float token f +:+ "; ignoring");;
               mret None
             else mret (Some q)
  | _ => lwarn lineno ("config queuetime must be a positive number, got " +:+ shown_float token f +:+ "; ignoring");;
         mret None
  end.

Definition _sticky_count (lineno : Z) (name : string) (tokens : list string) : L (option Z) :=
  raw ← l_one_value lineno name tokens;
  v ← _to_int lineno raw;
  match v with
  | None => mret None
  | Some z =>
      if z <? 1 then lwarn lineno ("config " +:+ name +:+ " must be >= 1, got " +:+ pretty z +:+ "; ignoring");; mret None
      else mret (Some z)
  end.

(** ** config lines *)

Definition set_numfailures (lineno : Z) (token : string) : L unit :=
  v ← _to_int lineno token;
  if_some v (λ z, lmod (λ st, st <| cur_numfailures := z |>);; override "numfailures" (OV (JInt z))).

Definition set_queuetime (lineno : Z) (tokens : list string) : L unit :=
  raw ← l_one_value lineno "queuetime" tokens;
  v ← _to_float lineno raw;
  if_some v (λ f, i ← _valid_interval lineno raw f;
                  if_some i (λ q, lmod (λ st, st <| cur_interval := Some q |>))).

(** The directives the shared tables know, matched exactly. *)
Definition table_directive (lineno : Z) (directive : string) (tokens : list string) : L unit :=
  match aget _INT_DIRECTIVES directive with Some f => _set_global_int lineno f directive tokens | None =>
  match aget _FLOAT_DIRECTIVES directive with Some f => _set_global_float lineno f directive tokens | None =>
  match aget _STR_DIRECTIVES directive with Some f => _set_global_str lineno f directive tokens | None =>
  match aget _FLAG_DIRECTIVES directive with
  | Some (f, v) =>
      lwhen (2 <? length tokens)%nat (lwarn lineno ("config " +:+ directive +:+ " takes no value; ignoring the rest"));;
      override f (OV v)
  | None => lwarn lineno ("unknown config directive " +:+ py_repr directive +:+ "; skipping")
  end end end end.

Definition _handle_config (lineno : Z) (tokens : list string) : L unit :=
  if (length tokens <? 2)%nat then lwarn lineno "config line needs a directive; skipping"
  else
    let directive := tok tokens 1 in
    let is_flag := ahas _FLAG_DIRECTIVES directive in
    let v := tok tokens 2 in
    if (length tokens <? 3)%nat && negb is_flag
    then lwarn lineno ("config " +:+ directive +:+ " needs a value; skipping")
    else if String.prefix "pageinterval" directive then l_set_int lineno "pageinterval_min" v
    else if String.prefix "logging" directive then l_set_logging lineno v
    else if String.prefix "loglevel" directive then l_set_loglevel lineno v
    else if String.prefix "dnslog" directive then l_set_int lineno "dnslog_s" v
    else if String.prefix "dnsexpire" directive then l_set_int lineno "dnsexpire_s" v
    else if String.prefix "heartbeat" directive then l_set_int lineno "heartbeat_s" v
    else if String.prefix "savestate" directive then _set_savestate lineno tokens
    else if String.prefix "statusfile" directive then l_set_statusfile lineno tokens
    else if String.prefix "numfailures" directive then set_numfailures lineno v
    else if String.prefix "sleeptime" directive
    then lwarn lineno "config sleeptime is obsolete; ignored (use --interval)"
    else if bool_decide (directive = "contact_on")
    then raw ← l_one_value lineno "contact_on" tokens; l_set_contact_on lineno raw
    else if bool_decide (directive = "source")
    then raw ← l_one_value lineno "source" tokens; _set_sticky_source lineno raw
    else if bool_decide (directive = "queuetime") then set_queuetime lineno tokens
    else if bool_decide (directive = "send_pings")
    then c ← _sticky_count lineno "send_pings" tokens; if_some c (λ z, lmod (λ st, st <| cur_send_pings := Some z |>))
    else if bool_decide (directive = "min_pings")
    then c ← _sticky_count lineno "min_pings" tokens; if_some c (λ z, lmod (λ st, st <| cur_min_pings := Some z |>))
    else table_directive lineno directive tokens.

(** ** Host lines *)

(** The node before its type's fields: the running defaults and the default port. *)
Definition snapshot (host : string) (ctype : CheckType) (lineno : Z) : L Node :=
  st ← lget id;
  src ← _source_for ctype lineno;
  let nd := (new_node host ctype) <| node_max_down := cur_numfailures st |> <| contact_on := cur_contact_on st |>
              <| send_pings := cur_send_pings st |> <| min_pings := cur_min_pings st |>
              <| interval := cur_interval st |> <| source := src |> in
  mret (match DEFAULT_PORT ctype with Some p => nd <| port := p |> | None => nd end).

Definition with_contact (tokens : list string) (k : nat) (nd : Node) : Node :=
  if (k <? length tokens)%nat then nd <| contact := tok tokens k |> else nd.

(** The positional fields after host and type. *)
Definition host_fields (lineno : Z) (tokens : list string) (nd : Node) : L (option Node) :=
  let n := length tokens in
  let ct := check_type nd in
  match ct with
  | TCP | UDP =>
      if (n <? 4)%nat then lwarn lineno (ct_value ct +:+ " needs a port and label; skipping");; mret None
      else match py_int (tok tokens 2) with
           | Some p =>
               if p <=? 0 then lwarn lineno ("invalid port " +:+ py_repr (tok tokens 2) +:+ "; skipping");; mret None
               else mret (Some (with_contact tokens 4 (nd <| port := p |> <| label := tok tokens 3 |>)))
           | None => lwarn lineno ("invalid port " +:+ py_repr (tok tokens 2) +:+ "; skipping");; mret None
           end
  | HTTP | HTTPS =>
      if (n <? 4)%nat then lwarn lineno (ct_value ct +:+ " needs a url and label; skipping");; mret None
      else if (n =? 4)%nat then mret (Some (nd <| url := tok tokens 2 |> <| label := tok tokens 3 |>))
      else mret (Some (with_contact tokens 5
             (nd <| url := tok tokens 2 |> <| url_text := Some (tok tokens 3) |> <| label := tok tokens 4 |>)))
  | POP3 | POP3S | IMAP | IMAPS | FTP | FTPS =>
      if (n <? 5)%nat then mret (Some (with_contact tokens 3 (nd <| label := tok tokens 2 |>)))
      else mret (Some (with_contact tokens 5
             (nd <| username := tok tokens 2 |> <| password := tok tokens 3 |> <| label := tok tokens 4 |>)))
  | DNS =>
      if (n <? 4)%nat then lwarn lineno "authdns needs a name and contact; skipping";; mret None
      else mret (Some (nd <| username := tok tokens 2 |> <| contact := tok tokens 3 |>))
  | SSH | MYSQL | TELNET =>
      let '(nd, idx) := match _as_port (tok tokens 2) with
                        | Some p => (nd <| port := p |>, 3%nat)
                        | None => (nd, 2%nat)
                        end in
      if (n <=? idx)%nat then lwarn lineno (ct_value ct +:+ " needs a label; skipping");; mret None
      else mret (Some (with_contact tokens (S idx) (nd <| label := tok tokens idx |>)))
  | PING | PING6 | SMTP =>
      lwhen (5 <=? n)%nat (lwarn lineno "unexpected fields after contact; ignoring");;
      mret (Some (with_contact tokens 3 (nd <| label := tok tokens 2 |>)))
  end.

Definition _parse_host (lineno : Z) (tokens : list string) : L (option Node) :=
  match _match_type (tok tokens 1) with
  | Some (_, Some ctype) =>
      nd ← snapshot (tok tokens 0) ctype lineno;
      host_fields lineno tokens nd
  | Some (kw, None) => lwarn lineno ("unsupported check type " +:+ py_repr kw +:+ "; skipping");; mret None
  | None => lwarn lineno ("invalid check type " +:+ py_repr (tok tokens 1) +:+ "; skipping");; mret None
  end.

(** ** Blocks *)

(** One line after its '{' is split off: what [parse_block] does before it reads a block. *)
Definition stanza (lineno : Z) (tokens : list string) (opens_block : bool) : L (option Node) :=
  match tokens with
  | [] => lwarn lineno "not enough fields; skipping";; mret None
  | t0 :: _ =>
      if bool_decide (t0 = "config") then
        _handle_config lineno tokens;;
        lwhen opens_block (lwarn lineno "a config line cannot open a block; ignoring the '{'");;
        mret None
      else if (length tokens <? 3)%nat then lwarn lineno "not enough fields; skipping";; mret None
      else
        o ← _parse_host lineno tokens;
        match o with
        | None => mret None
        | Some nd =>
            lwhen (opens_block && negb (_PING_LIKE (check_type nd)))
              (lwarn lineno (ct_value (check_type nd) +:+ " cannot have children; ignoring block"));;
            mret (Some nd)
        end
  end.

Definition cap_fields (lineno : Z) (tokens : list string) : L (list string) :=
  if (7 <? length tokens)%nat
  then lwarn lineno "too many fields; using the first 7";; mret (take 7 tokens)
  else mret tokens.

(** The node with the block that followed it, if it may have one. *)
Definition attach (nd : Node) (block : list tree) : tree :=
  Tree nd (if _PING_LIKE (check_type nd) then block else []).

Definition comment (t : string) : bool :=
  match t with
  | String c _ => bool_decide (c = ";"%char) || bool_decide (c = "#"%char)
  | EmptyString => false
  end.

(** The loop of [parse_block], [siblings] so far; [None] when the fuel runs out. *)
Fixpoint parse_block (fuel : nat) (depth : Z) (siblings : list tree) : L (option (list tree)) :=
  match fuel with
  | O => mret None
  | S fuel =>
      item ← _next;
      match item with
      | None => mret (Some siblings)
      | Some (lineno, raw) =>
          let tokens := split raw in
          match tokens with
          | [] => parse_block fuel depth siblings
          | t0 :: _ =>
              if comment t0 then parse_block fuel depth siblings
              else if bool_decide (t0 = "}") then
                if 0 <? depth then mret (Some siblings)
                else lwarn lineno "unexpected '}' at top level; ignoring";; parse_block fuel depth siblings
              else
                let opens_block := bool_decide (last tokens = Some "{") in
                tokens ← cap_fields lineno (if opens_block then removelast tokens else tokens);
                o ← stanza lineno tokens opens_block;
                block ←
                  (if (opens_block : bool) then
                     if _MAX_NESTING_DEPTH <? depth + 1 then lraise (ParseError nesting_error)
                     else parse_block fuel (depth + 1) []
                   else mret (Some []));
                match block with
                | None => mret None
                | Some ts =>
                    parse_block fuel depth
                      (match o with Some nd => siblings ++ [attach nd ts] | None => siblings end)
                end
          end
      end
  end.

(** ** parse *)

Record LResult : Type := MkLResult {
  lr_roots : list tree;
  lr_overrides : list (string * oval);
  lr_warnings : list string
}.

(** [None] when the fuel runs out. *)
Definition legacy_parse (numfailures : Z) (text : string) : option (res perror LResult) :=
  let ls := splitlines text in
  match parse_block (S (length ls)) 0 [] (legacy_init ls numfailures) with
  | Ok (Some roots, st) => Some (Ok (MkLResult roots (l_overrides st) (l_warnings st)))
  | Ok (None, _) => None
  | Raise e => Some (Raise e)
  end.

(** ** The nodes of a forest, numbered in preorder *)

Fixpoint tree_size (t : tree) : nat :=
  match t with Tree _ ts => S (list_sum (tree_size <$> ts)) end.

Fixpoint child_ids (n : nid) (ts : list tree) : list nid :=
  match ts with [] => [] | t :: ts' => n :: child_ids (n + tree_size t) ts' end.

Fixpoint layout (n : nid) (t : tree) : list Node :=
  match t with
  | Tree nd ts =>
      (nd <| children := child_ids (S n) ts |>) ::
      (fix layouts (n : nid) (ts : list tree) : list Node :=
         match ts with [] => [] | t :: ts' => layout n t ++ layouts (n + tree_size t)%nat ts' end) (S n) ts
  end.

Fixpoint layouts (n : nid) (ts : list tree) : list Node :=
  match ts with [] => [] | t :: ts' => layout n t ++ layouts (n + tree_size t)%nat ts' end.

Definition forest_store (ts : list tree) : gmap nid Node := map_seq 0 (layouts 0 ts).
Definition forest_roots (ts : list tree) : list nid := child_ids 0 ts.

Definition result_of (r : LResult) : ParseResult :=
  MkParseResult (forest_store (lr_roots r)) (forest_roots (lr_roots r)) (lr_overrides r) (lr_warnings r).

Definition unlines (ls : list string) : string := join (String (ascii_of_N 10) "") ls.

Example legacy_ex :
  match legacy_parse 2 (unlines ["config numfailures 3"; "gw ping router ops {"; "  db tcp 5432 pg"; "} ; x";
                                 "config queuetime 0"; "} "; "web www /x ok w c {"; "a ping b"; "}"; "x nntp y"]) with
  | Some (Ok r) =>
      ((λ nd, (hostname nd, ct_value (check_type nd), port nd, node_max_down nd, children nd)) <$> layouts 0 (lr_roots r),
       forest_roots (lr_roots r), lr_overrides r, lr_warnings r) =
      ([("gw", "ping", 0, 3, [1%nat]); ("db", "tcp", 5432, 3, []); ("web", "http", 80, 3, [])],
       [0%nat; 2%nat], [("numfailures", OV (JInt 3))],
       ["line 5: config queuetime must be a positive number, got 0.0; ignoring";
        "line 6: unexpected '}' at top level; ignoring";
        "line 7: http cannot have children; ignoring block";
        "line 10: unsupported check type 'nntp'; skipping"])
  | _ => False
  end.
Proof. vm_compute. reflexivity. Qed.
