(* ===== verification/LegacySpec.v ===== *)
(** * Properties of the legacy parser

    [lruns m Φ]: started in a state whose running defaults are valid, [m] raises nothing,
    reads no line, leaves the defaults valid and returns a value that satisfies [Φ]. *)
From Stdlib Require Import Ascii.
From S2P Require Import Prelude Status Model Graph Flatten Json PyStr PyNum NumText PyDict Modern ModernForest Legacy.

(** ** Words *)

(** A token: what [split] returns pieces of. *)
Definition word (s : string) : Prop := s ≠ "" ∧ no_space s = true.

Lemma split_aux_words s : no_space (split_aux s).1 = true ∧ Forall word (split_aux s).2.
Proof.
  induction s as [|c s [IH1 IH2]]; simpl; [by split|]. destruct (split_aux s) as [w ws]. simpl in *.
  destruct (is_space c) eqn:E; simpl.
  - split; [done|]. destruct w as [|d w]; [done|]. constructor; [|done]. by split.
  - split; [|done]. unfold no_space in *. simpl. by rewrite E, IH1.
Qed.

Lemma split_words s : Forall word (split s).
Proof.
  unfold split. pose proof (split_aux_words s) as [H1 H2]. destruct (split_aux s) as [w ws]. simpl in *.
  destruct w as [|c w]; [done|]. constructor; [|done]. by split.
Qed.

Lemma tok_word tokens k : Forall word tokens → (k < length tokens)%nat → word (tok tokens k).
Proof.
  intros Hw [t Ht]%lookup_lt_is_Some_2. unfold tok. rewrite Ht. by eapply Forall_lookup_1 in Hw.
Qed.

Lemma lstrip_char_space a s : no_space s = true → no_space (lstrip_char a s) = true.
Proof.
  induction s as [|c s IH]; [done|]. rewrite no_space_cons. intros [Hc Hs]%andb_true_iff. cbn [lstrip_char].
  case_bool_decide; [by apply IH|]. by rewrite no_space_cons, Hc, Hs.
Qed.

Lemma rstrip_char_space a s : no_space s = true → no_space (rstrip_char a s) = true.
Proof.
  induction s as [|c s IH]; [done|]. rewrite no_space_cons. intros [Hc Hs]%andb_true_iff. specialize (IH Hs). cbn [rstrip_char].
  destruct (rstrip_char a s) as [|d r]; [case_bool_decide; by rewrite ?no_space_cons, ?Hc|]. by rewrite no_space_cons, Hc, IH.
Qed.

(** ** Running defaults *)

Definition source_ok (s : string) : Prop :=
  no_space s = true ∧ (s = SOURCE_AUTO ∨ (lower s ≠ SOURCE_AUTO ∧ is_Some (ip_version s))).

(** The settings an override may set, with the values the parsers give them. *)
Definition override_ok (kv : string * oval) : bool :=
  match kv with
  | (k, OV (JStr s)) =>
      mem k ["status_path"; "state_path"; "source_ip"; "org_hostname"; "mail_from"; "control_bind"; "control_token_file";
             "control_tls_cert"; "control_tls_key"] ||
      (bool_decide (k = "syslog_facility") && mem s _FACILITIES) || (bool_decide (k = "log_level") && mem s _LOGLEVELS)
  | (k, OV (JInt _)) =>
      mem k ["pageinterval_min"; "numfailures"; "dnsexpire_s"; "dnslog_s"; "heartbeat_s"; "send_pings"; "min_pings";
             "statesave_s"; "state_max_age_s"; "max_concurrency"; "control_port"]
  | (k, OV (JBool _)) => mem k ["status_html"; "page_on_degraded"; "control_enabled"]
  | (k, OV JNull) => bool_decide (k = "syslog_facility")
  | (k, OV (JFloat _)) | (k, ONonFinite _) => bool_decide (k = "interval_s")
  | _ => false
  end.

Record sticky_ok (st : LState) : Prop := {
  sk_overrides : Forall (λ kv, override_ok kv = true) (l_overrides st);
  sk_contact_on : cur_contact_on st = "" ∨ cur_contact_on st ∈ CONTACT_ON_CHOICES;
  sk_source : ∀ s, cur_source st = Some s → source_ok s;
  sk_send : ∀ z, cur_send_pings st = Some z → 1 <= z;
  sk_min : ∀ z, cur_min_pings st = Some z → 1 <= z;
  sk_interval : ∀ q, cur_interval st = Some q → (0 < q)%Q
}.

Definition lruns {A} (m : L A) (Φ : A → Prop) : Prop :=
  ∀ st, sticky_ok st →
    match m st with
    | Ok (a, st') => sticky_ok st' ∧ lines st' = lines st ∧ Φ a
    | Raise _ => False
    end.

Lemma lruns_ret {A} (a : A) (Φ : A → Prop) : Φ a → lruns (mret a) Φ.
Proof. by intros H st. Qed.

Lemma lruns_bind {A B} (m : L A) (k : A → L B) (Φ : A → Prop) (Ψ : B → Prop) :
  lruns m Φ → (∀ a, Φ a → lruns (k a) Ψ) → lruns (m ≫= k) Ψ.
Proof.
  intros Hm Hk st Hst. specialize (Hm st Hst). unfold mbind, L_bind. destruct (m st) as [[a st1]|e]; [|done].
  destruct Hm as (H1 & Hl & Ha). specialize (Hk a Ha st1 H1). destruct (k a st1) as [[b st2]|e]; [|done].
  destruct Hk as (? & Hl2 & ?). by rewrite Hl2.
Qed.

Lemma lruns_mono {A} (m : L A) (Φ Φ' : A → Prop) : lruns m Φ → (∀ a, Φ a → Φ' a) → lruns m Φ'.
Proof.
  intros Hm H st Hst. specialize (Hm st Hst). destruct (m st) as [[a st1]|e]; [|done].
  destruct Hm as (? & ? & ?). auto.
Qed.

Lemma lruns_warn n msg : lruns (lwarn n msg) (λ _, True).
Proof. intros [] []. by split. Qed.

Lemma lruns_override f v : override_ok (f, v) = true → lruns (override f v) (λ _, True).
Proof.
  intros Hv st [Ho ? ? ? ? ?]. split; [|by destruct st]. destruct st; split; simpl in *; try done. apply Forall_forall.
  intros [k v'] [[-> ->]|H]%aset_elem; [done|]. by apply (proj1 (Forall_forall _ _) Ho).
Qed.

Lemma lruns_when b m : lruns m (λ _, True) → lruns (lwhen b m) (λ _, True).
Proof. intros H. destruct b; [done|by apply lruns_ret]. Qed.

Lemma lruns_if_some {A} (o : option A) k : (∀ a, o = Some a → lruns (k a) (λ _, True)) → lruns (if_some o k) (λ _, True).
Proof. intros H. destruct o; [by apply H|by apply lruns_ret]. Qed.

Create HintDb psy_lruns.
#[export] Hint Resolve lruns_warn : psy_lruns.

Ltac lrun_step :=
  lazymatch goal with
  | |- lruns (mret _) _ => apply lruns_ret; try done
  | |- lruns (lwhen _ _) _ => apply lruns_when
  | |- lruns (if_some _ _) _ => apply lruns_if_some; intros ? ?
  | |- lruns (mbind _ _) _ => eapply (lruns_bind _ _ (λ _, True)); [|intros ? _; cbv beta]
  | |- lruns (override _ _) _ => apply lruns_override; try reflexivity
  | |- lruns (match ?x with _ => _ end) _ => destruct x eqn:?
  | |- lruns (let _ := _ in _) _ => cbv zeta
  | |- lruns _ _ => eauto with psy_lruns
  end.

Ltac lrun := repeat lrun_step.

Lemma lruns_to_int n t : lruns (_to_int n t) (λ _, True).
Proof. unfold _to_int. lrun. Qed.
Lemma lruns_to_float n t : lruns (_to_float n t) (λ _, True).
Proof. unfold _to_float. lrun. Qed.
Lemma lruns_one_value n nm ts : lruns (l_one_value n nm ts) (λ r, r = tok ts 2).
Proof. unfold l_one_value. eapply lruns_bind; [apply lruns_when, lruns_warn|]. intros _ _. by apply lruns_ret. Qed.
Lemma lruns_one_value_true n nm ts : lruns (l_one_value n nm ts) (λ _, True).
Proof. eapply lruns_mono; [apply lruns_one_value|done]. Qed.
#[export] Hint Resolve lruns_to_int lruns_to_float lruns_one_value_true : psy_lruns.

Lemma lruns_valid_interval n t f : lruns (_valid_interval n t f) (λ o, ∀ q, o = Some q → (0 < q)%Q).
Proof.
  unfold _valid_interval. destruct f as [q| |]; [|lrun..]. destruct (Qle_bool q 0) eqn:E; [lrun|]. to_prop.
  apply lruns_ret. by intros ? [= <-].
Qed.

Lemma lruns_sticky_count n nm ts : lruns (_sticky_count n nm ts) (λ o, ∀ z, o = Some z → 1 <= z).
Proof.
  unfold _sticky_count. eapply (lruns_bind _ _ (λ _, True)); [eauto with psy_lruns|]. intros raw _. cbv beta.
  eapply (lruns_bind _ _ (λ _, True)); [eauto with psy_lruns|]. intros [z|] _; [|lrun].
  destruct (z <? 1) eqn:E; [lrun|]. to_prop. apply lruns_ret. intros ? [= <-]. lia.
Qed.

(** *** Setting a default *)
Lemma lruns_set_contact_on c : c ∈ CONTACT_ON_CHOICES → lruns (lmod (λ st, st <| cur_contact_on := c |>)) (λ _, True).
Proof. intros Hc st []. split; [|by destruct st]. destruct st; split; simpl in *; auto. Qed.

Lemma lruns_set_source s : source_ok s → lruns (lmod (λ st, st <| cur_source := Some s |>)) (λ _, True).
Proof. intros Hs st []. split; [|by destruct st]. destruct st; split; simpl in *; auto. by intros ? [= <-]. Qed.

Lemma lruns_set_send z : 1 <= z → lruns (lmod (λ st, st <| cur_send_pings := Some z |>)) (λ _, True).
Proof. intros Hz st []. split; [|by destruct st]. destruct st; split; simpl in *; auto. by intros ? [= <-]. Qed.

Lemma lruns_set_min z : 1 <= z → lruns (lmod (λ st, st <| cur_min_pings := Some z |>)) (λ _, True).
Proof. intros Hz st []. split; [|by destruct st]. destruct st; split; simpl in *; auto. by intros ? [= <-]. Qed.

Lemma lruns_set_interval q : (0 < q)%Q → lruns (lmod (λ st, st <| cur_interval := Some q |>)) (λ _, True).
Proof. intros Hq st []. split; [|by destruct st]. destruct st; split; simpl in *; auto. by intros ? [= <-]. Qed.

Lemma lruns_cur_numfailures z : lruns (lmod (λ st, st <| cur_numfailures := z |>)) (λ _, True).
Proof. intros st []. split; [|by destruct st]. by destruct st; split. Qed.
#[export] Hint Resolve lruns_cur_numfailures : psy_lruns.

Lemma lruns_sticky_source n v : no_space v = true → lruns (_set_sticky_source n v) (λ _, True).
Proof.
  intros Hv. unfold _set_sticky_source. cbv zeta. rewrite (strip_word v Hv).
  assert (no_space (strip_char dquote v) = true) as Hs by by apply rstrip_char_space, lstrip_char_space.
  case_bool_decide; [apply lruns_set_source; split; [done|by left]|].
  destruct (ip_version (strip_char dquote v)) eqn:E; [|lrun]. apply lruns_set_source. split; [done|right; by split; [|eexists]].
Qed.

Lemma lruns_sticky_contact n v : lruns (l_set_contact_on n v) (λ _, True).
Proof.
  unfold l_set_contact_on, mem. case_bool_decide; [by apply lruns_set_contact_on|]. lrun.
  apply lruns_set_contact_on. unfold CONTACT_ON_CHOICES. set_solver.
Qed.

(** The shared tables name settings of the right type. *)
Lemma table_ok (t : list (string * string)) (v : oval) d f :
  forallb (λ kv, override_ok (kv.2, v)) t = true → aget t d = Some f → override_ok (f, v) = true.
Proof. intros Ht Hd%aget_elem. apply list_elem_of_In in Hd. apply forallb_forall with (x := (d, f)) in Ht; done. Qed.

Lemma lruns_table n d ts : lruns (table_directive n d ts) (λ _, True).
Proof.
  unfold table_directive, _set_global_int, _set_global_float, _set_global_str. lrun.
  - by eapply (table_ok _INT_DIRECTIVES).
  - match goal with |- context [oval_of_float ?f] => destruct f end; by eapply (table_ok _FLOAT_DIRECTIVES).
  - by eapply (table_ok _STR_DIRECTIVES).
  - unfold ahas in *. assert (Forall (λ kv, override_ok (kv.2.1, OV kv.2.2) = true) _FLAG_DIRECTIVES) as Hf by by repeat constructor.
    eapply Forall_forall in Hf; [|by eapply aget_elem]. done.
Qed.

Lemma lruns_logging n v : lruns (l_set_logging n v) (λ _, True).
Proof.
  unfold l_set_logging. lrun. unfold override_ok. rewrite Heqb0. by rewrite orb_true_r.
Qed.

Lemma lruns_loglevel n v : lruns (l_set_loglevel n v) (λ _, True).
Proof. unfold l_set_loglevel. lrun. unfold override_ok. rewrite Heqb. by rewrite orb_true_r. Qed.
#[export] Hint Resolve lruns_logging lruns_loglevel : psy_lruns.

Lemma lruns_handle_config n ts : Forall word ts → lruns (_handle_config n ts) (λ _, True).
Proof.
  intros Hw. unfold _handle_config. destruct (length ts <? 2)%nat eqn:E2; [lrun|]. cbv zeta.
  destruct ((length ts <? 3)%nat && _) eqn:E3; [lrun|].
  assert (no_space (tok ts 2) = true) as Hv.
  { destruct (decide (2 < length ts)%nat) as [H|H]; [by apply tok_word|]. unfold tok. by rewrite lookup_ge_None_2 by lia. }
  unfold l_set_int, _set_savestate, l_set_statusfile, set_numfailures.
  repeat (match goal with |- lruns (if String.prefix ?p ?d then _ else _) _ => destruct (String.prefix p d); [solve [lrun]|] end).
  destruct (bool_decide (tok ts 1 = "contact_on")).
  { eapply lruns_bind; [apply lruns_one_value|]. intros r _. apply lruns_sticky_contact. }
  destruct (bool_decide (tok ts 1 = "source")).
  { eapply lruns_bind; [apply lruns_one_value|]. intros r ->. by apply lruns_sticky_source. }
  destruct (bool_decide (tok ts 1 = "queuetime")).
  { unfold set_queuetime. do 2 lrun_step; [solve [lrun]..|]. lrun_step.
    eapply lruns_bind; [apply lruns_valid_interval|]. intros o Ho. lrun_step. apply lruns_set_interval. auto. }
  destruct (bool_decide (tok ts 1 = "send_pings")).
  { eapply lruns_bind; [apply lruns_sticky_count|]. intros o Ho. lrun. apply lruns_set_send. auto. }
  destruct (bool_decide (tok ts 1 = "min_pings")).
  { eapply lruns_bind; [apply lruns_sticky_count|]. intros o Ho. lrun. apply lruns_set_min. auto. }
  apply lruns_table.
Qed.

(** ** Nodes *)

Definition web_type (t : CheckType) : bool := match t with HTTP | HTTPS => true | _ => false end.
Definition socket_type (t : CheckType) : bool := match t with TCP | UDP => true | _ => false end.
Definition mailbox_type (t : CheckType) : bool :=
  match t with POP3 | POP3S | IMAP | IMAPS | FTP | FTPS => true | _ => false end.

(** Who is looked up or logged in: nobody, both halves of a login, or a name to resolve. *)
Definition creds_ok (nd : Node) : Prop :=
  if mailbox_type (check_type nd)
  then (username nd = "" ∧ password nd = "") ∨ (word (username nd) ∧ word (password nd))
  else if bool_decide (check_type nd = DNS) then word (username nd) ∧ word (contact nd) ∧ password nd = ""
  else username nd = "" ∧ password nd = "".

Definition optional_port (t : CheckType) : bool := match t with SSH | MYSQL | TELNET => true | _ => false end.

Definition port_ok (nd : Node) : Prop :=
  if socket_type (check_type nd) then 1 <= port nd
  else port nd = default 0 (DEFAULT_PORT (check_type nd)) ∨
    (optional_port (check_type nd) = true ∧ 1 <= port nd <= 65535).

(** What every node of a parsed legacy file satisfies. *)
Record lnode_ok (nd : Node) : Prop := {
  ln_host : word (hostname nd);
  ln_port : port_ok nd;
  ln_label : if bool_decide (check_type nd = DNS) then label nd = "" else word (label nd);
  ln_contact : no_space (contact nd) = true;
  ln_group : group nd = "";
  ln_contact_on : contact_on nd = "" ∨ contact_on nd ∈ CONTACT_ON_CHOICES;
  ln_source : ∀ s, source nd = Some s → source_ok s ∧ _source_family_ok nd s = true;
  ln_creds : creds_ok nd;
  ln_url : if web_type (check_type nd) then word (url nd) else url nd = "" ∧ url_text nd = None;
  ln_url_text : ∀ t, url_text nd = Some t → word t;
  ln_interval : ∀ q, interval nd = Some q → (0 < q)%Q;
  ln_send : ∀ z, send_pings nd = Some z → 1 <= z;
  ln_min : ∀ z, min_pings nd = Some z → 1 <= z;
  ln_children : children nd = []
}.

(** The parts of a fresh node the positional fields leave alone. *)
Record fresh_node (ct : CheckType) (nd : Node) : Prop := {
  fn_host : word (hostname nd);
  fn_type : check_type nd = ct;
  fn_port : port nd = default 0 (DEFAULT_PORT ct);
  fn_texts : label nd = "" ∧ contact nd = "" ∧ group nd = "" ∧ username nd = "" ∧ password nd = "" ∧ url nd = "" ∧
    url_text nd = None ∧ children nd = [];
  fn_contact_on : contact_on nd = "" ∨ contact_on nd ∈ CONTACT_ON_CHOICES;
  fn_source : ∀ s, source nd = Some s → source_ok s ∧ _source_family_ok nd s = true;
  fn_interval : ∀ q, interval nd = Some q → (0 < q)%Q;
  fn_send : ∀ z, send_pings nd = Some z → 1 <= z;
  fn_min : ∀ z, min_pings nd = Some z → 1 <= z
}.

Lemma lruns_source_for ct n :
  lruns (_source_for ct n) (λ o, ∀ s, o = Some s → source_ok s ∧
    (s = SOURCE_AUTO ∨ ip_version s = Some (if bool_decide (ct = PING6) then 6 else 4))).
Proof.
  intros st Hst. unfold _source_for, mbind, L_bind, lget. destruct (cur_source st) as [s|] eqn:Es; [|by split].
  destruct (sk_source _ Hst s Es) as [Hn Hs]. case_bool_decide as Ha; [split_and!; [done..|]; intros ? [= <-]; split; [done|by left]|].
  destruct Hs as [?|[Hlow [v Hv]]]; [done|]. rewrite Hv. destruct (v =? _) eqn:E.
  - to_prop. split_and!; [done..|]. intros ? [= <-]. split; [split; [done|right; by split; [|eexists]]|right]. by rewrite Hv, E.
  - pose proof (lruns_warn n ("source " +:+ py_repr s +:+ " family does not match " +:+ ct_value ct +:+ "; leaving unbound") st Hst) as H.
    destruct (lwarn _ _ st) as [[[] st1]|]; [|done]. destruct H as (? & ? & _). by split_and!.
Qed.

Lemma lruns_snapshot h ct n : word h → lruns (snapshot h ct n) (fresh_node ct).
Proof.
  intros Hh st Hst. unfold snapshot, mbind, L_bind, lget, id. pose proof (lruns_source_for ct n st Hst) as H.
  destruct (_source_for ct n st) as [[src st1]|]; [|done]. destruct H as (H1 & Hl & Hsrc). simpl. split; [done|]. split; [done|].
  destruct Hst as [K1 K2 K3 K4 K5]. assert (∀ s, src = Some s → source_ok s ∧ (bool_decide (s = SOURCE_AUTO) ||
    bool_decide (ip_version s = Some (if bool_decide (ct = PING6) then 6 else 4)) = true)) as Hs.
  { intros s Hs. destruct (Hsrc s Hs) as [? Hf]. split; [done|]. apply orb_true_iff. rewrite !bool_decide_eq_true. done. }
  destruct ct; split; simpl; try done.
Qed.

Lemma with_contact_frame tokens k nd :
  with_contact tokens k nd = nd <| contact := contact (with_contact tokens k nd) |>.
Proof. unfold with_contact. destruct (_ <? _)%nat; by destruct nd. Qed.

Lemma with_contact_ok tokens k nd :
  Forall word tokens → contact nd = "" → no_space (contact (with_contact tokens k nd)) = true.
Proof.
  intros Hw Hc. unfold with_contact. destruct (k <? length tokens)%nat eqn:E; [|by rewrite Hc]. to_prop.
  destruct (tok_word tokens k Hw E). by destruct nd.
Qed.

Ltac host_ok Hwc Hk := rewrite with_contact_frame; match goal with |- context [with_contact ?ts ?k ?nd] =>
    pose proof (Hwc k nd eq_refl); generalize dependent (contact (with_contact ts k nd)); intros end;
    split; simpl; try done; unfold port_ok, creds_ok; simpl; auto; try lia; try (apply Hk; lia);
    try (right; split; apply Hk; lia); try (intros ? [= <-]; apply Hk; lia).
Ltac host_node Hr Hwc Hk := apply Hr; [host_ok Hwc Hk|by rewrite with_contact_frame].

Lemma lruns_host_fields n tokens ct nd :
  Forall word tokens → (3 <= length tokens)%nat → fresh_node ct nd →
  lruns (host_fields n tokens nd) (λ o, ∀ nd', o = Some nd' → lnode_ok nd' ∧ check_type nd' = ct).
Proof.
  intros Hw Hlen [Hh Ht Hp (Hl & Hc & Hg & Hu & Hpw & Hur & Hut & Hch) Hco Hs Hi Hse Hmi].
  assert (∀ k, (k < length tokens)%nat → word (tok tokens k)) as Hk by (intros; by apply tok_word).
  assert (∀ k nd', contact nd' = "" → no_space (contact (with_contact tokens k nd')) = true) as Hwc
    by (intros; by apply with_contact_ok).
  assert (∀ (m : L unit) o, lruns m (λ _, True) → (∀ nd', o = Some nd' → lnode_ok nd' ∧ check_type nd' = ct) →
    lruns (m;; mret o) (λ o, ∀ nd', o = Some nd' → lnode_ok nd' ∧ check_type nd' = ct)) as Hm
    by (intros m o H Ho; eapply lruns_bind; [exact H|]; intros _ _; by apply lruns_ret).
  assert (∀ nd', lnode_ok nd' → check_type nd' = ct →
    lruns (mret (Some nd')) (λ o, ∀ nd', o = Some nd' → lnode_ok nd' ∧ check_type nd' = ct)) as Hr
    by (intros nd' H1 H2; apply lruns_ret; by intros ? [= <-]).
  assert (∀ msg, lruns (lwarn n msg;; mret None) (λ o, ∀ nd', o = Some nd' → lnode_ok nd' ∧ check_type nd' = ct)) as Hnone
    by (intros msg; apply Hm; [apply lruns_warn|done]).
  unfold host_fields. rewrite Ht. destruct nd as [h t p l c g co s u pw ur ut m i sp mp ch]; simpl in *; subst.
  destruct ct.
  (* tcp, udp *)
  3, 4: destruct (length tokens <? 4)%nat eqn:E4; [apply Hnone|]; to_prop;
    destruct (py_int (tok tokens 2)) as [p|]; [|apply Hnone]; destruct (p <=? 0) eqn:Ep; [apply Hnone|]; to_prop;
    host_node Hr Hwc Hk.
  (* ping, ping6, smtp *)
  1, 2, 3: eapply lruns_bind; [apply lruns_when, lruns_warn|]; intros _ _; host_node Hr Hwc Hk.
  all: try (destruct (_as_port (tok tokens 2)) as [p|] eqn:Ep; (destruct (length tokens <=? _)%nat eqn:En; [apply Hnone|]; to_prop);
    [assert (1 <= p <= 65535) by (unfold _as_port, mbind, option_bind in Ep; case_match; [|done]; case_match; [|done]; simplify_eq; to_prop; lia)|];
    host_node Hr Hwc Hk).
  all: try (destruct (length tokens <? 5)%nat eqn:E5; to_prop; host_node Hr Hwc Hk).
  all: destruct (length tokens <? 4)%nat eqn:E4; [apply Hnone|]; to_prop.
  - apply Hr; [|done]. destruct (Hk 3%nat ltac:(lia)). split; simpl; try done; unfold port_ok, creds_ok; simpl; auto.
  - destruct (length tokens =? 4)%nat eqn:E; to_prop; [apply Hr; [|done]; split; simpl; try done; unfold port_ok; simpl; auto; apply Hk; lia|].
    host_node Hr Hwc Hk.
  - destruct (length tokens =? 4)%nat eqn:E; to_prop; [apply Hr; [|done]; split; simpl; try done; unfold port_ok; simpl; auto; apply Hk; lia|].
    host_node Hr Hwc Hk.
Qed.

(** ** Blocks *)

Lemma lruns_stanza n tokens ob :
  Forall word tokens → lruns (stanza n tokens ob) (λ o, ∀ nd, o = Some nd → lnode_ok nd).
Proof.
  intros Hw. assert (∀ (m : L unit), lruns m (λ _, True) → lruns (m;; mret None) (λ o, ∀ nd, o = Some nd → lnode_ok nd)) as Hm
    by (intros m H; eapply lruns_bind; [exact H|]; intros _ _; by apply lruns_ret).
  unfold stanza. destruct tokens as [|t0 ts]; [apply Hm, lruns_warn|]. case_bool_decide.
  { eapply lruns_bind; [by apply lruns_handle_config|]. intros _ _. apply Hm, lruns_when, lruns_warn. }
  destruct (length (t0 :: ts) <? 3)%nat eqn:E; [apply Hm, lruns_warn|]. to_prop. unfold _parse_host.
  eapply (lruns_bind _ _ (λ o, ∀ nd, o = Some nd → lnode_ok nd)).
  - destruct (_match_type _) as [[kw [ct|]]|]; [|apply Hm, lruns_warn..].
    eapply lruns_bind; [apply lruns_snapshot, tok_word; [done|simpl; lia]|]. intros nd Hnd.
    eapply lruns_mono; [by eapply lruns_host_fields|]. intros o Ho nd' Hnd'. by apply (Ho nd').
  - intros [nd|] Ho; [|by apply lruns_ret]. eapply lruns_bind; [apply lruns_when, lruns_warn|]. intros _ _. by apply lruns_ret.
Qed.

(** A tree at nesting level [d]: valid nodes, children only below ping-like ones, at most
    [_MAX_NESTING_DEPTH] levels. *)
Inductive tree_ok : Z → tree → Prop :=
| Tree_ok d nd ts :
    d <= _MAX_NESTING_DEPTH → lnode_ok nd → (ts ≠ [] → _PING_LIKE (check_type nd) = true) →
    Forall (tree_ok (d + 1)) ts → tree_ok d (Tree nd ts).

Lemma attach_ok d nd ts :
  d <= _MAX_NESTING_DEPTH → lnode_ok nd → Forall (tree_ok (d + 1)) ts → tree_ok d (attach nd ts).
Proof. intros Hd Hn Ht. unfold attach. constructor; [done..| |]; by destruct (_PING_LIKE _). Qed.

Lemma cap_fields_ok n tokens : Forall word tokens → lruns (cap_fields n tokens) (Forall word).
Proof.
  intros Hw. unfold cap_fields. destruct (7 <? _)%nat; [|by apply lruns_ret].
  eapply lruns_bind; [apply lruns_warn|]. intros _ _. apply lruns_ret. by apply Forall_take.
Qed.

Lemma removelast_words tokens : Forall word tokens → Forall word (removelast tokens).
Proof.
  induction 1 as [|t ts Ht Hts IH]; [done|]. simpl. destruct ts; [done|]. by constructor.
Qed.

(** With more fuel than lines the loop ends, its blocks are valid, and the only exception is
    the one for the nesting depth. *)
Lemma parse_block_ok fuel depth siblings st :
  sticky_ok st → (length (lines st) < fuel)%nat → 0 <= depth <= _MAX_NESTING_DEPTH → Forall (tree_ok depth) siblings →
  match parse_block fuel depth siblings st with
  | Ok (o, st') => sticky_ok st' ∧ (length (lines st') <= length (lines st))%nat ∧
      (depth = 0 → lines st' = []) ∧ ∃ ts, o = Some ts ∧ Forall (tree_ok depth) ts
  | Raise e => e = ParseError nesting_error
  end.
Proof.
  revert depth siblings st. induction fuel as [|fuel IH]; intros depth siblings st Hst Hf Hd Hs; [lia|].
  cbn [parse_block]. unfold mbind at 1, L_bind at 1, _next. destruct (lines st) as [|[n raw] rest] eqn:El.
  { split_and!; [done|by rewrite El|done|by eauto]. }
  simpl in Hf. set (st0 := st <| lines := rest |>).
  assert (sticky_ok st0 ∧ lines st0 = rest) as [Hst0 El0].
  { subst st0. destruct Hst. destruct st; split; [split|]; done. }
  (* going on from a state with no more lines than [st0] *)
  assert (∀ sib st1, sticky_ok st1 → (length (lines st1) <= length rest)%nat → Forall (tree_ok depth) sib →
    match parse_block fuel depth sib st1 with
    | Ok (o, st') => sticky_ok st' ∧ (length (lines st') <= S (length rest))%nat ∧ (depth = 0 → lines st' = []) ∧
        ∃ ts, o = Some ts ∧ Forall (tree_ok depth) ts
    | Raise e => e = ParseError nesting_error
    end) as Hgo.
  { intros sib st1 H1 Hl1 Hsib. specialize (IH depth sib st1 H1 ltac:(lia) Hd Hsib).
    destruct (parse_block fuel depth sib st1) as [[o st']|]; [|done]. destruct IH as (? & ? & ? & ?).
    split_and!; [done|lia|done|done]. }
  clearbody st0. clear Hst El. cbv zeta. pose proof (split_words raw) as Hw.
  destruct (split raw) as [|t0 ts] eqn:Et; [apply Hgo; [done|by rewrite El0|done]|].
  destruct (comment t0); [apply Hgo; [done|by rewrite El0|done]|].
  destruct (bool_decide (t0 = "}")).
  { destruct (0 <? depth) eqn:E0.
    - to_prop. split_and!; [done|rewrite El0; simpl; lia|lia|by eauto].
    - pose proof (lruns_warn n "unexpected '}' at top level; ignoring" st0 Hst0) as H.
      unfold mbind at 1, L_bind at 1. destruct (lwarn _ _ st0) as [[[] st1]|]; [|done]. destruct H as (? & Hl & _).
      apply Hgo; [done|by rewrite Hl, El0|done]. }
  set (ob := bool_decide (last (t0 :: ts) = Some "{")). clearbody ob.
  assert (Forall word (if ob then removelast (t0 :: ts) else t0 :: ts)) as Hw'
    by (destruct ob; [by apply removelast_words|done]).
  pose proof (cap_fields_ok n _ Hw' st0 Hst0) as H1. unfold mbind at 1, L_bind at 1.
  destruct (cap_fields n _ st0) as [[tokens st1]|]; [|done]. destruct H1 as (Hst1 & El1 & Hwt).
  pose proof (lruns_stanza n tokens ob Hwt st1 Hst1) as H2. unfold mbind at 1, L_bind at 1.
  destruct (stanza n tokens ob st1) as [[o st2]|]; [|done]. destruct H2 as (Hst2 & El2 & Ho).
  assert (lines st2 = rest) as E2 by congruence.
  unfold mbind at 1, L_bind at 1. destruct ob.
  - destruct (_MAX_NESTING_DEPTH <? depth + 1) eqn:Ed; [done|]. to_prop.
    specialize (IH (depth + 1) [] st2 Hst2 ltac:(rewrite E2; lia) ltac:(lia) ltac:(constructor)).
    destruct (parse_block fuel (depth + 1) [] st2) as [[b st3]|]; [|done].
    destruct IH as (Hst3 & Hl3 & _ & kids & -> & Hk). apply Hgo; [done|by rewrite <- E2|].
    destruct o as [nd|]; [|done]. apply Forall_app. split; [done|]. apply Forall_singleton, attach_ok; [lia|by apply Ho|done].
  - apply Hgo; [done|by rewrite E2|]. destruct o as [nd|]; [|done]. apply Forall_app. split; [done|].
    apply Forall_singleton, attach_ok; [lia|by apply Ho|constructor].
Qed.

Lemma length_enumerate_from n ls : length (enumerate_from n ls) = length ls.
Proof. revert n. induction ls as [|l ls IH]; intros n; simpl; [done|]. by rewrite IH. Qed.

Lemma legacy_init_ok ls nf : sticky_ok (legacy_init ls nf).
Proof. split; simpl; try done; by left. Qed.

Lemma legacy_parse_ok nf text :
  match legacy_parse nf text with
  | Some (Ok r) => Forall (tree_ok 0) (lr_roots r) ∧ Forall (λ kv, override_ok kv = true) (lr_overrides r)
  | Some (Raise e) => e = ParseError nesting_error
  | None => False
  end.
Proof.
  unfold legacy_parse. pose proof (parse_block_ok (S (length (splitlines text))) 0 [] (legacy_init (splitlines text) nf)
    (legacy_init_ok _ _)) as H. simpl lines in H. rewrite length_enumerate_from in H.
  specialize (H ltac:(lia) ltac:(unfold _MAX_NESTING_DEPTH; lia) ltac:(constructor)).
  destruct (parse_block _ _ _ _) as [[o st]|]; [|done]. destruct H as (Hst & _ & _ & ts & -> & Hts). split; [done|apply Hst].
Qed.

(** ** The numbering *)

(** Induction on trees and on forests together. *)
Lemma forest_ind (P : tree → Prop) (F : list tree → Prop) :
  (∀ nd ts, F ts → P (Tree nd ts)) → F [] → (∀ t ts, P t → F ts → F (t :: ts)) → (∀ t, P t) ∧ ∀ ts, F ts.
Proof.
  intros HT Hn Hc. assert (∀ t, P t) as HP.
  { fix IH 1. intros [nd ts]. apply HT. induction ts as [|t ts IHts]; [exact Hn|apply Hc; [apply IH|exact IHts]]. }
  split; [done|]. induction ts; auto.
Qed.

Lemma layout_eq n nd ts : layout n (Tree nd ts) = (nd <| children := child_ids (S n) ts |>) :: layouts (S n) ts.
Proof. done. Qed.

Definition forest_size (ts : list tree) : nat := list_sum (tree_size <$> ts).

Lemma layout_length :
  (∀ t n, length (layout n t) = tree_size t) ∧ ∀ ts n, length (layouts n ts) = forest_size ts.
Proof.
  apply forest_ind.
  - intros nd ts IH n. rewrite layout_eq. simpl. by rewrite IH.
  - done.
  - intros t ts IHt IHts n. simpl. rewrite length_app, IHt, IHts. done.
Qed.

(** Every identity of a forest occurs once among its roots and the children of its nodes. *)
Lemma layout_once :
  (∀ t n, mjoin (children <$> layout n t) ≡ₚ List.seq (S n) (pred (tree_size t))) ∧
  ∀ ts n, child_ids n ts ++ mjoin (children <$> layouts n ts) ≡ₚ List.seq n (forest_size ts).
Proof.
  apply forest_ind.
  - intros nd ts IH n. rewrite layout_eq, fmap_cons. simpl. destruct nd. simpl. apply IH.
  - done.
  - intros t ts IHt IHts n. cbn [layouts child_ids]. rewrite fmap_app, join_app. simpl.
    change (forest_size (t :: ts)) with (tree_size t + forest_size ts)%nat. rewrite seq_app.
    specialize (IHts (n + tree_size t)%nat). rewrite <- IHts.
    assert (List.seq n (tree_size t) = n :: List.seq (S n) (pred (tree_size t))) as -> by by destruct t.
    rewrite <- IHt. simpl. solve_Permutation.
Qed.

Lemma child_ids_ge n ts c : c ∈ child_ids n ts → (n <= c)%nat.
Proof.
  revert n. induction ts as [|t ts IH]; intros n; simpl; [by intros []%elem_of_nil|].
  intros [->|H%IH]%elem_of_cons; lia.
Qed.

(** A child comes after its parent. *)
Lemma layout_later :
  (∀ t n i nd c, layout n t !! i = Some nd → c ∈ children nd → (n + i < c)%nat) ∧
  ∀ ts n i nd c, layouts n ts !! i = Some nd → c ∈ children nd → (n + i < c)%nat.
Proof.
  apply forest_ind.
  - intros nd ts IH n [|i] nd' c; rewrite layout_eq; simpl.
    + intros [= <-] Hc. destruct nd. simpl in Hc. apply child_ids_ge in Hc. lia.
    + intros Hi Hc. specialize (IH _ _ _ _ Hi Hc). lia.
  - done.
  - intros t ts IHt IHts n i nd c. simpl. intros [Hi|[Hlen Hi]]%lookup_app_Some Hc; [by eapply IHt|].
    rewrite (proj1 layout_length) in *. specialize (IHts _ _ _ _ Hi Hc). lia.
Qed.

Section numbered.
Context (ts : list tree).

Lemma forest_lookup n : forest_store ts !! n = layouts 0 ts !! n.
Proof. apply lookup_map_seq_0. Qed.

Lemma forest_dom n : is_Some (forest_store ts !! n) ↔ (n < forest_size ts)%nat.
Proof. rewrite forest_lookup, lookup_lt_is_Some. by rewrite (proj2 layout_length). Qed.

Lemma forest_edge p c :
  edge (forest_store ts) p c ↔ ∃ nd, layouts 0 ts !! p = Some nd ∧ c ∈ children nd.
Proof. unfold edge. by setoid_rewrite forest_lookup. Qed.

Lemma forest_once : NoDup (forest_roots ts ++ mjoin (children <$> layouts 0 ts)) ∧
  ∀ c, c ∈ forest_roots ts ++ mjoin (children <$> layouts 0 ts) ↔ (c < forest_size ts)%nat.
Proof.
  pose proof (proj2 layout_once ts 0%nat) as H. split.
  - unfold forest_roots. rewrite H. apply NoDup_ListNoDup, seq_NoDup.
  - intros c. unfold forest_roots. rewrite H, list_elem_of_In, in_seq. lia.
Qed.

Lemma forest_edge_join p c : edge (forest_store ts) p c → c ∈ mjoin (children <$> layouts 0 ts).
Proof.
  intros (nd & Hp & Hc)%forest_edge. apply list_elem_of_join. exists (children nd). split; [done|].
  apply list_elem_of_fmap. exists nd. split; [done|]. by eapply list_elem_of_lookup_2.
Qed.

Lemma forest_join_edge c : c ∈ mjoin (children <$> layouts 0 ts) → ∃ p, edge (forest_store ts) p c.
Proof.
  intros (cs & Hc & (nd & -> & [p Hp]%list_elem_of_lookup)%list_elem_of_fmap)%list_elem_of_join.
  exists p. apply forest_edge. eauto.
Qed.

Lemma forest_edge_lt p c : edge (forest_store ts) p c → (p < c < forest_size ts)%nat.
Proof.
  intros He. split.
  - apply forest_edge in He as (nd & Hp & Hc). by apply (proj2 layout_later ts 0%nat p nd c).
  - apply forest_once, elem_of_app. right. by eapply forest_edge_join.
Qed.

Lemma join_unique (ls : list (list nat)) i j x y c :
  NoDup (mjoin ls) → ls !! i = Some x → ls !! j = Some y → c ∈ x → c ∈ y → i = j.
Proof.
  revert i j. induction ls as [|l ls IH]; intros i j; [done|]. cbn [mjoin list_join]. intros (_ & Hd & Hn)%NoDup_app.
  assert (∀ k z, ls !! k = Some z → c ∈ z → c ∈ mjoin ls) as Hin
    by (intros k z Hk Hc; apply list_elem_of_join; exists z; split; [done|]; by eapply list_elem_of_lookup_2).
  destruct i as [|i], j as [|j]; simpl; intros Hi Hj Hx Hy; simplify_eq; [done| | |].
  - by destruct (Hd c Hx); eapply Hin.
  - by destruct (Hd c Hy); eapply Hin.
  - f_equal. by eapply IH.
Qed.

Lemma forest_parent_unique p p' c : edge (forest_store ts) p c → edge (forest_store ts) p' c → p = p'.
Proof.
  intros (nd & Hp & Hc)%forest_edge (nd' & Hp' & Hc')%forest_edge. destruct forest_once as [(_ & _ & Hn)%NoDup_app _].
  eapply (join_unique (children <$> layouts 0 ts)); [done|..|exact Hc|exact Hc']; by rewrite list_lookup_fmap, ?Hp, ?Hp'.
Qed.

Lemma forest_root_iff n :
  n ∈ forest_roots ts ↔ is_Some (forest_store ts !! n) ∧ ¬ ∃ p, edge (forest_store ts) p n.
Proof.
  destruct forest_once as [(_ & Hd & _)%NoDup_app Hin]. rewrite forest_dom. split.
  - intros Hn. split; [apply Hin, elem_of_app; by left|]. intros [p Hp%forest_edge_join]. by destruct (Hd n Hn).
  - intros [Hlt Hno]. apply Hin, elem_of_app in Hlt as [?|H]; [done|]. by apply forest_join_edge in H.
Qed.

Lemma forest_below_root n :
  is_Some (forest_store ts !! n) → ∃ r, r ∈ forest_roots ts ∧ rtc (edge (forest_store ts)) r n.
Proof.
  induction n as [n IH] using lt_wf_ind. intros Hn%forest_dom. apply forest_once, elem_of_app in Hn as [Hn|Hn].
  { exists n. split; [done|reflexivity]. }
  apply forest_join_edge in Hn as [p Hp]. pose proof (forest_edge_lt _ _ Hp).
  destruct (IH p) as (r & Hr & Hrp); [lia|apply forest_dom; lia|]. exists r. split; [done|]. by eapply rtc_r.
Qed.

Lemma forest_closed : closed_graph (forest_store ts) (forest_roots ts).
Proof.
  split; [by intros r [? _]%forest_root_iff|]. intros n nd c Hn Hc.
  assert (edge (forest_store ts) n c) as [_ ?]%forest_edge_lt by by exists nd. by apply forest_dom.
Qed.

End numbered.

(** The nodes of a forest are its trees' nodes, with their children filled in. *)
Lemma layout_nodes :
  (∀ t d n i nd, tree_ok d t → layout n t !! i = Some nd →
     ∃ nd0, lnode_ok nd0 ∧ nd = nd0 <| children := children nd |> ∧ (children nd ≠ [] → _PING_LIKE (check_type nd0) = true)) ∧
  ∀ ts d n i nd, Forall (tree_ok d) ts → layouts n ts !! i = Some nd →
     ∃ nd0, lnode_ok nd0 ∧ nd = nd0 <| children := children nd |> ∧ (children nd ≠ [] → _PING_LIKE (check_type nd0) = true).
Proof.
  apply forest_ind.
  - intros nd ts IH d n [|i] nd' Hok; rewrite layout_eq; simpl; inversion Hok as [? ? ? Hd Hn Hp Hts]; subst; [|by apply (IH (d + 1))].
    intros [= <-]. exists nd. split; [done|]. destruct nd. simpl in *. split; [done|]. intros Hc. apply Hp. by intros ->.
  - done.
  - intros t ts IHt IHts d n i nd [Ht Hts]%Forall_cons. simpl. intros [Hi|[_ Hi]]%lookup_app_Some; [by eapply IHt|by eapply IHts].
Qed.

(** ** Properties *)

(** C21: the legacy parser ends and its forest is valid.  Every text gives a result; the only
    exception is the one for too deep nesting.  Every node has the fields its type needs, all
    of them free of white space, a port (bounded but for TCP and UDP), a source of the right
    family, a positive interval and positive ping counts; only ping, ping6 and smtp nodes have
    children, and no block is nested deeper than 64; an override names a setting and holds a
    value of its type. *)
Theorem legacy_parse_valid (numfailures : Z) (text : string) :
  match legacy_parse numfailures text with
  | Some (Ok r) => Forall (tree_ok 0) (lr_roots r) ∧ Forall (λ kv, override_ok kv = true) (lr_overrides r)
  | Some (Raise e) => e = ParseError nesting_error
  | None => False
  end.
Proof. apply legacy_parse_ok. Qed.

(** The legacy forest.  The nodes of a parsed file form trees: a child comes after its
    parent and has no other, the roots are, once each, the nodes without a parent, every node
    is below one, and each keeps the fields of its line. *)
Theorem legacy_forest (numfailures : Z) (text : string) (r : LResult)
    (Hp : legacy_parse numfailures text = Some (Ok r)) :
  let store := pr_store (result_of r) in
  let roots := pr_roots (result_of r) in
  closed_graph store roots ∧ NoDup roots ∧
  (∀ p c, edge store p c → (p < c)%nat) ∧
  (∀ p p' c, edge store p c → edge store p' c → p = p') ∧
  (∀ n, n ∈ roots ↔ is_Some (store !! n) ∧ ¬ ∃ p, edge store p n) ∧
  (∀ n, is_Some (store !! n) → ∃ root, root ∈ roots ∧ rtc (edge store) root n) ∧
  (∀ n nd, store !! n = Some nd → lnode_ok (nd <| children := [] |>) ∧
     (children nd ≠ [] → _PING_LIKE (check_type nd) = true)).
Proof.
  pose proof (legacy_parse_ok numfailures text) as H. rewrite Hp in H. destruct H as [H _]. unfold result_of. simpl. split_and!.
  - apply forest_closed.
  - by destruct (forest_once (lr_roots r)) as [[? _]%NoDup_app _].
  - intros p c [? _]%forest_edge_lt. done.
  - intros p p' c. apply forest_parent_unique.
  - intros n. apply forest_root_iff.
  - intros n. apply forest_below_root.
  - intros n nd Hn. rewrite forest_lookup in Hn. destruct (proj2 layout_nodes _ _ _ _ _ H Hn) as (nd0 & Hok & E & Hping).
    rewrite E. split; [|by destruct nd0]. destruct nd0. simpl. by rewrite <- (ln_children _ Hok).
Qed.

Definition legacy_text : string := unlines ["gw ping router ops {"; "db tcp 5432 pg"; "}"; "web www /x w"].

Definition legacy_result : LResult :=
  match legacy_parse 2 legacy_text with Some (Ok r) => r | _ => MkLResult [] [] [] end.

Lemma legacy_forest_witness :
  legacy_parse 2 legacy_text = Some (Ok legacy_result) ∧ closed_graph (pr_store (result_of legacy_result)) [0; 2]%nat.
Proof.
  assert (legacy_parse 2 legacy_text = Some (Ok legacy_result)) as Hp by (vm_compute; reflexivity).
  split; [exact Hp|]. exact (proj1 (legacy_forest 2 legacy_text legacy_result Hp)).
Defined.
