(* ===== verification/ConfigRun.v ===== *)
(** * From a configuration file to a running scheduler

    What the parser guarantees of its graph is what [Scheduler_init] and [reload] need of it:
    a parsed configuration starts a scheduler that satisfies every invariant of [SchedRun],
    and a reload with one keeps it there. *)
From S2P Require Import Prelude Status Model Gate Graph Flatten PingPool Scheduler SchedOps SchedInv SchedRun SchedReload Lexer Modern ModernForest ModernSpec Legacy LegacySpec.

(** The objects of a fresh scheduler are the flattened ones, with a due time. *)
Lemma init_objs cfg store roots p4 p6 o wall now stagger sch i x :
  Scheduler_init cfg store roots p4 p6 o wall now stagger = Ok sch →
  (_flatten store cfg wall 0 roots).1 !! i = Some x →
  i ∈ scheduled sch ∧ ∃ x', objs sch !! i = Some x' ∧ node_ref x' = node_ref x ∧ node x' = node x.
Proof.
  unfold Scheduler_init. case_match; [done|]. destruct (_flatten store cfg wall 0 roots) as [os_ ws]. simpl.
  intros [= <-] Hi. match goal with |- context [_build_heap ?c] => destruct (build_heap_frame c) as (-> & -> & _) end.
  match goal with |- context [_stagger_due cfg stagger now ?c] =>
    destruct (stagger_frame cfg stagger now c) as (-> & _); pose proof (stagger_undue cfg stagger now c i) as Hu end.
  simpl in Hu. split.
  - simpl. unfold fresh_ids. rewrite list_elem_of_In, in_seq. apply lookup_lt_Some in Hi. lia.
  - rewrite install_lookup in Hu. simpl in Hu. rewrite Nat.sub_0_r, Hi in Hu.
    destruct (objs _ !! i) as [x'|]; [|done]. exists x'. split; [done|].
    assert (undue x' = undue x) as E by (simpl in Hu; congruence).
    split; [apply (f_equal node_ref) in E|apply (f_equal node) in E]; by destruct x, x'.
Qed.

(** Where only pings have dependents, every node below a root is scheduled. *)
Lemma visited_below store roots r n :
  (∀ p pd, store !! p = Some pd → children pd ≠ [] → is_ping_type (check_type pd) = true) →
  r ∈ roots → rtc (edge store) r n → Visited store roots n.
Proof.
  intros Hping Hr%(Visited_root store). induction 1 as [|r m n (nd & Hn & Hm) _ IH]; [done|]. apply IH.
  eapply Visited_child; [exact Hr|done| |done]. apply (Hping r); [done|]. intros E. rewrite E in Hm. by apply elem_of_nil in Hm.
Qed.

(** What a configuration graph is good for: a scheduler built from it, which every invariant
    of the run holds of, and a reload that keeps a running scheduler there.  Where only pings
    have dependents every node is scheduled, under exactly one identity. *)
Definition runnable (cfg : SchedConfig) (store : gmap nid Node) (roots : list nid) : Prop :=
  ∀ (p4 p6 : _Pool) (o : OS) (wall now : Q) (stagger : bool),
  (∃ sch, Scheduler_init cfg store roots p4 p6 o wall now stagger = Ok sch ∧ reached cfg sch ∧
     ((∀ p pd, store !! p = Some pd → children pd ≠ [] → is_ping_type (check_type pd) = true) →
      ∀ n nd, store !! n = Some nd →
        ∃ s x, s ∈ scheduled sch ∧ objs sch !! s = Some x ∧ node_ref x = n ∧ node x = nd)) ∧
  NoDup (node_ref <$> (_flatten store cfg wall 0 roots).1) ∧
  ∀ sch, reached cfg sch → reached cfg (reload cfg store roots wall now sch).

Lemma rooted_runnable cfg store roots :
  0 <= max_concurrency cfg → closed_graph store roots →
  (∀ n, is_Some (store !! n) → ∃ r, r ∈ roots ∧ rtc (edge store) r n) → runnable cfg store roots.
Proof.
  intros Hmax Hc Hroot p4 p6 o wall now stagger. split_and!.
  - assert (∃ sch, Scheduler_init cfg store roots p4 p6 o wall now stagger = Ok sch) as [sch Hsch].
    { unfold Scheduler_init. rewrite (proj2 (Z.ltb_ge _ _) Hmax). destruct (_flatten _ _ _ _ _). by eexists. }
    exists sch. split; [done|]. split; [by eapply reached_init|]. intros Hping n nd Hn.
    destruct (Hroot n) as (rt & Hrt & Hrn); [by rewrite Hn|].
    pose proof (visited_below _ _ _ _ Hping Hrt Hrn) as Hv.
    apply (flatten_scheduled store cfg wall 0 roots Hc) in Hv as (i & x & Hi & Hx).
    destruct (init_objs _ _ _ _ _ _ _ _ _ _ i x Hsch Hi) as (Hs & x' & Hx' & Hr' & Hnd').
    exists i, x'. split_and!; [done..|congruence|]. rewrite Hnd'.
    destruct (flatten_made _ cfg wall 0 _ Hc i x Hi) as [[Hst _] _]. congruence.
  - apply flatten_nodup, Hc.
  - intros sch Hr. eapply reached_step; [exact Hr|by constructor].
Qed.

(** C20: a parsed configuration runs.  Whichever of the two parsers read it, the scheduler
    built from it exists (the semaphore's bound being valid) and is a state the invariants of
    the run hold in, and so is the one a reload with it makes of any running scheduler; if
    only pings have dependents, each object of the file is scheduled, with its own host and
    type, under exactly one identity. *)
Theorem parsed_config_runs (numfailures : Z) (text : string) (r : ParseResult) (cfg : SchedConfig)
    (Hmax : 0 <= max_concurrency cfg)
    (Hp : parse numfailures text = Some (Ok r) ∨
          ∃ l, legacy_parse numfailures text = Some (Ok l) ∧ r = result_of l) :
  runnable cfg (pr_store r) (pr_roots r).
Proof.
  destruct Hp as [Hp|(l & Hp & ->)].
  - apply parse_inv in Hp as (ts & st & _ & _ & [_ Hl]).
    apply rooted_runnable; [done|by eapply linked_closed|]. intros n. by apply (linked_rooted _ _ _ _ _ Hl).
  - apply rooted_runnable; [done|apply forest_closed|apply forest_below_root].
Qed.

Lemma parsed_config_runs_witness :
  0 <= max_concurrency demo_cfg ∧ runnable demo_cfg (pr_store demo_run.1) (pr_roots demo_run.1).
Proof.
  assert (0 <= max_concurrency demo_cfg) as Hmax by (vm_compute; discriminate). split; [exact Hmax|].
  exact (parsed_config_runs 4 demo_text demo_run.1 demo_cfg Hmax (or_introl demo_parses)).
Defined.
