(* ===== verification/Convert.v ===== *)
(** * The converter to the modern format (src/psysmon/config/convert.py)

    [_Serializer] as state passing over [SState]; it writes a legacy forest as modern text.
    An override whose value has a type its directive never stores makes [to_modern] [None]. *)
From Stdlib Require Import Ascii.
From S2P Require Import Prelude Status Model Graph Json PyStr PyNum PyDict Lexer Modern Legacy.

Definition _TYPE_KW (t : CheckType) : string :=
  match t with
  | PING => "ping" | PING6 => "ping6" | TCP => "tcp" | UDP => "udp" | SMTP => "smtp" | POP3 => "pop3"
  | POP3S => "pop3s" | IMAP => "imap" | IMAPS => "imaps" | DNS => "dns" | HTTP => "http" | HTTPS => "https"
  | SSH => "ssh" | MYSQL => "mysql" | FTP => "ftp" | FTPS => "ftps" | TELNET => "telnet"
  end.

Inductive emit_kind : Type := EStr | EInt | ENum | EBareword | EFlag.

Definition _GLOBAL_ORDER : list (string * string * emit_kind) :=
  [("source_ip", "source_ip", EStr); ("org_hostname", "hostname", EStr); ("mail_from", "sender", EStr);
   ("pageinterval_min", "pageinterval", EInt); ("interval_s", "queuetime", ENum); ("send_pings", "send_pings", EInt);
   ("min_pings", "min_pings", EInt); ("dnsexpire_s", "dnsexpire", EInt); ("dnslog_s", "dnslog", EInt);
   ("heartbeat_s", "heartbeat", EInt); ("statesave_s", "statesave_interval", EInt);
   ("state_max_age_s", "state_max_age", EInt); ("max_concurrency", "maxqueued", EInt); ("state_path", "savestate", EStr);
   ("log_level", "loglevel", EBareword); ("page_on_degraded", "page_on_degraded", EFlag)].

(** The characters a name may not have. *)
Definition _NAME_BAD (c : ascii) : bool :=
  bool_decide (c = dq) || bool_decide (c ∈ ["{"; "}"; "="; ";"; "#"]%char) || is_space c.

(** [_NAME_BAD.sub("_", s)] *)
Fixpoint clean_name (s : string) : string :=
  match s with
  | EmptyString => ""
  | String c s' => String (if _NAME_BAD c then "_"%char else c) (clean_name s')
  end.

(** [_fmt_num] on a finite float. *)
Definition fmt_float (q : Q) : string :=
  let r := Qred q in
  if (Qden r =? 1)%positive then pretty (Qnum r) else float_repr (Fin q).

Definition _fmt_num (v : oval) : option string :=
  match v with
  | OV (JInt z) => Some (pretty z)
  | OV (JFloat q) => Some (fmt_float q)
  | ONonFinite f => Some (float_repr f)
  | _ => None
  end.

(** ** State *)

Record SState : Type := MkS { out : list string; s_warnings : list string; used : list string }.

Definition _line (text : string) (st : SState) : SState := MkS (out st ++ [text]) (s_warnings st) (used st).
Definition s_warn (message : string) (st : SState) : SState := MkS (out st) (s_warnings st ++ [message]) (used st).

Definition s_warn_if (b : bool) (message : string) (st : SState) : SState := if b then s_warn message st else st.

Definition cr : ascii := ascii_of_N 13.

(** Quotes dropped, line ends turned into spaces. *)
Fixpoint strip_quotes (s : string) : string :=
  match s with
  | EmptyString => ""
  | String c s' =>
      if bool_decide (c = dq) then strip_quotes s'
      else String (if bool_decide (c = nl) || bool_decide (c = cr) then " "%char else c) (strip_quotes s')
  end.

Definition unquotable (s : string) : bool := has_char dq s || has_char nl s || has_char cr s.

Definition _quote (v : string) (st : SState) : string * SState :=
  if unquotable v
  then (strip_quotes v, s_warn ("value " +:+ py_repr v +:+ " contains a quote/newline (unrepresentable); stripped") st)
  else (v, st).

(** A line with a quoted value between [before] and [after]. *)
Definition quoted_line (before v : string) (st : SState) : SState :=
  let '(q, st') := _quote v st in _line (before +:+ String dq q +:+ String dq ";") st'.

Definition _attr (key v : string) (st : SState) : SState := quoted_line ("  " +:+ key +:+ " ") v st.

Definition attr_if (b : bool) (key v : string) (st : SState) : SState := if b then _attr key v st else st.

(** ** Globals *)

Definition _header (seed : Z) (st : SState) : SState :=
  _line ""
    (_line ("# default of " +:+ pretty seed +:+ "; '{}' nesting becomes named 'dep' edges.")
      (_line "# Per-object 'numfailures' is emitted only where it differs from the assumed"
        (_line "# Converted from a legacy sysmon.conf by psysmon.config.convert (#3)." st))).

Definition emit_statusfile (o : list (string * oval)) (st : SState) : option SState :=
  match aget o "status_path" with
  | None => Some st
  | Some (OV (JStr p)) =>
      match aget o "status_html" with
      | None | Some (OV (JBool true)) => Some (quoted_line "config statusfile html " p st)
      | Some (OV (JBool false)) => Some (quoted_line "config statusfile text " p st)
      | Some _ => None
      end
  | Some _ => None
  end.

Definition emit_logging (o : list (string * oval)) (st : SState) : option SState :=
  match aget o "syslog_facility" with
  | None => Some st
  | Some (OV JNull) => Some (_line "config logging none;" st)
  | Some (OV (JStr f)) => Some (_line ("config logging " +:+ f +:+ ";") st)
  | Some _ => None
  end.

Definition emit_global (kw : string) (kind : emit_kind) (v : oval) (st : SState) : option SState :=
  let plain s := _line ("config " +:+ kw +:+ " " +:+ s +:+ ";") st in
  match kind, v with
  | EFlag, OV (JBool b) => Some (if b then _line ("config " +:+ kw +:+ ";") st else st)
  | EStr, OV (JStr s) => Some (quoted_line ("config " +:+ kw +:+ " ") s st)
  | ENum, _ => s ← _fmt_num v; Some (plain s)
  | EBareword, OV (JStr s) => Some (plain s)
  | EInt, OV (JInt z) => Some (plain (pretty z))
  | _, _ => None
  end.

Fixpoint emit_globals_in (order : list (string * string * emit_kind)) (o : list (string * oval)) (st : SState)
    : option (list (string * oval) * SState) :=
  match order with
  | [] => Some (o, st)
  | (field, kw, kind) :: order' =>
      match aget o field with
      | None => emit_globals_in order' o st
      | Some v => st' ← emit_global kw kind v st; emit_globals_in order' (adel o field) st'
      end
  end.

Definition _emit_globals (overrides : list (string * oval)) (st : SState) : option SState :=
  st ← emit_statusfile overrides st;
  st ← emit_logging overrides st;
  let o := adel (adel (adel (adel overrides "status_path") "status_html") "syslog_facility") "numfailures" in
  '(rest, st) ← emit_globals_in _GLOBAL_ORDER o st;
  Some (foldl (λ st k, s_warn ("global override '" +:+ k +:+ "' has no modern directive; omitted") st) st (akeys rest)).

(** ** Objects *)

Fixpoint fresh_name (fuel : nat) (base : string) (n : Z) (used : list string) : string :=
  let name := base +:+ "-" +:+ pretty n in
  match fuel with
  | O => name
  | S fuel => if mem name used then fresh_name fuel base (n + 1) used else name
  end.

Definition name_base (host : string) : string :=
  if bool_decide (clean_name host = "") then "obj" else clean_name host.

(** The numbers below [length used + 2] cannot all be taken. *)
Definition _assign (nd : Node) (st : SState) : string * SState :=
  let base := name_base (hostname nd) in
  let name := if mem base (used st) then fresh_name (length (used st)) base 2 (used st) else base in
  (name, MkS (out st) (s_warnings st) (used st ++ [name])).

Definition emit_port (nd : Node) (name : string) (st : SState) : SState :=
  if negb (port nd =? 0) && negb (bool_decide (Some (port nd) = DEFAULT_PORT (check_type nd))) then
    let st := match check_type nd with
              | TCP | UDP =>
                  s_warn_if (negb ((1 <=? port nd) && (port nd <=? 65535)))
                    ("object '" +:+ name +:+ "': port " +:+ pretty (port nd)
                     +:+ " is outside 1..65535; the modern parser will reject this object on load") st
              | _ => st
              end in
    _line ("  port " +:+ pretty (port nd) +:+ ";") st
  else st.

Definition emit_typed (nd : Node) (st : SState) : SState :=
  match check_type nd with
  | HTTP | HTTPS =>
      let st := _attr "url" (url nd) st in
      match url_text nd with Some t => _attr "urltext" t st | None => st end
  | POP3 | POP3S | IMAP | IMAPS | FTP | FTPS =>
      if nonempty (username nd) && nonempty (password nd)
      then _attr "password" (password nd) (_attr "username" (username nd) st) else st
  | DNS => _attr "dns-query" (username nd) st
  | _ => st
  end.

Definition emit_max_down (seed : Z) (nd : Node) (name : string) (st : SState) : SState :=
  if negb (node_max_down nd =? seed) then
    _line ("  numfailures " +:+ pretty (node_max_down nd) +:+ ";")
      (s_warn_if (node_max_down nd <? 1)
         ("object '" +:+ name +:+ "': numfailures " +:+ pretty (node_max_down nd)
          +:+ " < 1 is not representable in modern; on load the threshold falls back to the default") st)
  else st.

Definition emit_opt {A} (key : string) (show : A → string) (v : option A) (st : SState) : SState :=
  match v with Some x => _line ("  " +:+ key +:+ " " +:+ show x +:+ ";") st | None => st end.

Definition attr_opt (key : string) (v : option string) (st : SState) : SState :=
  match v with Some x => _attr key x st | None => st end.

Definition _emit_object (seed : Z) (nd : Node) (name : string) (parent : option string) (st : SState) : SState :=
  let st := _line ("object " +:+ name +:+ " {") st in
  let st := _attr "host" (hostname nd) st in
  let st := _line ("  type " +:+ _TYPE_KW (check_type nd) +:+ ";") st in
  let st := emit_port nd name st in
  let st := emit_typed nd st in
  let st := attr_if (nonempty (label nd)) "desc" (label nd) st in
  let st := attr_if (nonempty (contact nd)) "contact" (contact nd) st in
  let st := attr_if (nonempty (group nd)) "group" (group nd) st in
  let st := attr_if (nonempty (contact_on nd)) "contact_on" (contact_on nd) st in
  let st := emit_max_down seed nd name st in
  let st := emit_opt "queuetime" fmt_float (interval nd) st in
  let st := emit_opt "send_pings" pretty (send_pings nd) st in
  let st := emit_opt "min_pings" pretty (min_pings nd) st in
  let st := attr_opt "source" (source nd) st in
  let st := attr_opt "dep" parent st in
  _line "" (_line "};" st).

Fixpoint _walk (seed : Z) (parent : option string) (t : tree) (st : SState) : SState :=
  match t with
  | Tree nd ts =>
      let '(name, st) := _assign nd st in
      (fix walk_all (ts : list tree) (st : SState) : SState :=
         match ts with [] => st | t :: ts' => walk_all ts' (_walk seed (Some name) t st) end)
        ts (_emit_object seed nd name parent st)
  end.

Fixpoint walk_all (seed : Z) (parent : option string) (ts : list tree) (st : SState) : SState :=
  match ts with [] => st | t :: ts' => walk_all seed parent ts' (_walk seed parent t st) end.

(** ** to_modern *)

(** [s.rstrip("\n")] *)
Fixpoint rstrip_nl (s : string) : string :=
  match s with
  | EmptyString => ""
  | String c s' =>
      match rstrip_nl s' with
      | EmptyString => if bool_decide (c = nl) then "" else String c ""
      | r => String c r
      end
  end.

Definition objectless_warning : string :=
  "output has globals but no objects; detect() routes an objectless file to the legacy parser — force the modern parser or add an object".

Definition to_modern (seed : Z) (r : LResult) : option (string * list string) :=
  st ← _emit_globals (lr_overrides r) (_header seed (MkS [] [] []));
  let st := if bool_decide (last (out st) = Some "") then st else _line "" st in
  let st := walk_all seed None (lr_roots r) st in
  let st := s_warn_if (bool_decide (lr_roots r = []) && existsb (String.prefix "config ") (out st)) objectless_warning st in
  Some (rstrip_nl (join (String nl "") (out st)) +:+ String nl "", s_warnings st).

Definition convert (numfailures : Z) (text : string) : option (res perror (string * list string)) :=
  match legacy_parse numfailures text with
  | None => None
  | Some (Raise e) => Some (Raise e)
  | Some (Ok r) =>
      '(modern, warns) ← to_modern numfailures r;
      Some (Ok (modern, lr_warnings r ++ warns))
  end.

Definition sample : string :=
  unlines ["config numfailures 3"; "config statusfile html /srv/s.html"; "config queuetime 0.5"; "gw ping router ops {"; "  gw tcp 5432 pg"; "}"; "web www /x ok w c";
           "x authdns q c"; "y pop3 u p l"].

Example convert_ex :
  match convert 2 sample with
  | Some (Ok (t, ws)) =>
      match parse 2 t, legacy_parse 2 sample with
      | Some (Ok r), Some (Ok l) =>
          (ws, pr_warnings r, pr_roots r, map_to_list (pr_store r)) =
          ([], [], forest_roots (lr_roots l), map_to_list (forest_store (lr_roots l)))
      | _, _ => False
      end
  | _ => False
  end.
Proof. vm_compute. reflexivity. Qed.
