(* ===== verification/ConvertText.v ===== *)
(** * The text the converter writes, and its tokens

    [lexes b s ks]: from the text [s], met at a statement boundary or not, the lexer makes
    tokens of the kinds and values [ks], on whatever lines. *)
From Stdlib Require Import Ascii Qcanon.
From S2P Require Import Prelude Status Model Graph Json PyStr PyNum NumText PyDict Lexer Modern ModernForest Legacy LegacySpec Convert.

Abbreviation shape_t := (list (TokenKind * string)).

Definition shape (ts : list Token) : shape_t := (λ t, (kind t, value t)) <$> ts.

Definition lexes (b : bool) (s : string) (ks : shape_t) : Prop :=
  ∀ l fuel, (String.length s <= fuel)%nat → ∃ ts, tokenize_loop fuel l b s = Some (Ok ts) ∧ shape ts = ks.

Lemma str_length_app s s' : String.length (s +:+ s') = (String.length s + String.length s')%nat.
Proof. induction s as [|c s IH]; [done|]. change (String.length (String c s +:+ s')) with (S (String.length (s +:+ s'))). by rewrite IH. Qed.

(** ** Rules *)

Lemma lexes_nil b : lexes b "" [].
Proof. intros l fuel _. exists []. by destruct fuel. Qed.

Lemma lexes_nl b s ks : lexes true s ks → lexes b (String nl s) ks.
Proof. intros H l [|fuel] Hf; simpl in Hf; [lia|]. cbn [tokenize_loop]. rewrite bool_decide_eq_true_2 by done. apply H. lia. Qed.

Lemma lexes_space b s ks : lexes b s ks → lexes b (String " " s) ks.
Proof. intros H l [|fuel] Hf; simpl in Hf; [lia|]. cbn. apply H. lia. Qed.

Definition no_nl (s : string) : bool := negb (has_char nl s).

Lemma no_nl_cons c s : no_nl (String c s) = negb (bool_decide (c = nl)) && no_nl s.
Proof. unfold no_nl, has_char. simpl. by rewrite negb_involutive, negb_involutive. Qed.

Lemma skip_comment_line c s : no_nl c = true → skip_comment (c +:+ String nl s) = String nl s.
Proof.
  induction c as [|a c IH]; [done|]. rewrite no_nl_cons. intros [Ha%negb_true_iff Hc]%andb_true_iff.
  change (String a c +:+ String nl s) with (String a (c +:+ String nl s)). cbn [skip_comment]. rewrite Ha. by apply IH.
Qed.

Lemma lexes_comment b c s ks : no_nl c = true → lexes b (String nl s) ks → lexes b (String "#" (c +:+ String nl s)) ks.
Proof.
  intros Hc H l [|fuel] Hf; simpl in Hf; [lia|]. cbn [tokenize_loop].
  change (bool_decide ("#"%char = nl)) with false. change (blank "#") with false. cbv iota.
  change (bool_decide ("#"%char = "#"%char)) with true. cbn [orb].
  change (skip_comment (String "#" (c +:+ String nl s))) with (skip_comment (c +:+ String nl s)).
  rewrite skip_comment_line by done. apply H. rewrite str_length_app in Hf. simpl in Hf |- *. lia.
Qed.

(** A token in front of more. *)
Lemma cons_token_lexes t (m : option (res string (list Token))) ks :
  (∃ ts, m = Some (Ok ts) ∧ shape ts = ks) → ∃ ts, cons_token t m = Some (Ok ts) ∧ shape ts = (kind t, value t) :: ks.
Proof. intros (ts & -> & <-). by exists (t :: ts). Qed.

Lemma lexes_semi s ks : lexes true s ks → lexes false (String ";" s) ((SEMI, "") :: ks).
Proof. intros H l [|fuel] Hf; simpl in Hf; [lia|]. cbn. apply (cons_token_lexes (MkToken SEMI "" l)), H. lia. Qed.

Lemma lexes_lbrace b s ks : lexes true s ks → lexes b (String "{" s) ((LBRACE, "") :: ks).
Proof. intros H l [|fuel] Hf; simpl in Hf; [lia|]. cbn. apply (cons_token_lexes (MkToken LBRACE "" l)), H. lia. Qed.

Lemma lexes_rbrace b s ks : lexes false s ks → lexes b (String "}" s) ((RBRACE, "") :: ks).
Proof. intros H l [|fuel] Hf; simpl in Hf; [lia|]. cbn. apply (cons_token_lexes (MkToken RBRACE "" l)), H. lia. Qed.

(** A value that may stand between quotes. *)
Definition quotable (s : string) : bool := negb (has_char dq s) && no_nl s.

Lemma has_char_cons a c s : has_char a (String c s) = bool_decide (c = a) || has_char a s.
Proof. unfold has_char. simpl. by rewrite negb_andb, negb_involutive. Qed.

Lemma read_string_quotable v s : quotable v = true → read_string (v +:+ String dq s) = Some (v, s).
Proof.
  induction v as [|c v IH]; [done|]. unfold quotable. rewrite has_char_cons, no_nl_cons.
  intros [[Hc Hv]%negb_true_iff%orb_false_iff [Hn%negb_true_iff Hnv]%andb_true_iff]%andb_true_iff.
  change (String c v +:+ String dq s) with (String c (v +:+ String dq s)). cbn [read_string]. rewrite Hc, Hn.
  rewrite IH; [done|]. unfold quotable. by rewrite Hv, Hnv.
Qed.

Lemma lexes_string b v s ks :
  quotable v = true → lexes false s ks → lexes b (String dq (v +:+ String dq s)) ((STRING, v) :: ks).
Proof.
  intros Hv H l [|fuel] Hf; simpl in Hf; [lia|]. cbn [tokenize_loop].
  change (bool_decide (dq = nl)) with false. change (blank dq) with false. change (bool_decide (dq = "#"%char)) with false.
  change (bool_decide (dq = ";"%char)) with false. change (bool_decide (dq = dq)) with true. cbn [orb andb].
  rewrite read_string_quotable by done. apply (cons_token_lexes (MkToken STRING v l)), H.
  rewrite str_length_app in Hf. simpl in Hf. lia.
Qed.

(** A bareword. *)
Definition bare (s : string) : bool := nonempty s && all_str word_char s.

Definition stops (s : string) : bool := match s with String c _ => negb (word_char c) | EmptyString => true end.

Lemma read_word_bare w s : all_str word_char w = true → stops s = true → read_word (w +:+ s) = (w, s).
Proof.
  intros Hw Hs. induction w as [|c w IH].
  - change ("" +:+ s) with s. destruct s as [|c s]; [done|]. simpl in Hs |- *. apply negb_true_iff in Hs. by rewrite Hs.
  - simpl in Hw. apply andb_true_iff in Hw as [Hc Hw]. change (String c w +:+ s) with (String c (w +:+ s)). cbn [read_word].
    by rewrite Hc, (IH Hw).
Qed.

Lemma word_char_plain c :
  word_char c = true → bool_decide (c = nl) = false ∧ blank c = false ∧ ∀ a, _SPECIAL a = true → bool_decide (c = a) = false.
Proof.
  unfold word_char. intros [Hs%negb_true_iff Hsp%negb_true_iff]%andb_true_iff. split_and!.
  - apply bool_decide_eq_false. intros ->. done.
  - unfold blank. apply bool_decide_eq_false. intros H. rewrite !elem_of_cons, elem_of_nil in H. naive_solver.
  - intros a Ha. apply bool_decide_eq_false. intros ->. congruence.
Qed.

Lemma lexes_word b w s ks : bare w = true → stops s = true → lexes false s ks → lexes b (w +:+ s) ((WORD, w) :: ks).
Proof.
  intros [Hne Hw]%andb_true_iff Hs H l fuel Hf. pose proof (read_word_bare w s Hw Hs) as Hr.
  destruct w as [|c w]; [done|]. destruct fuel as [|fuel]; [simpl in Hf; lia|].
  pose proof Hw as Hcw. simpl in Hcw. apply andb_true_iff in Hcw as [Hc _].
  change (String c w +:+ s) with (String c (w +:+ s)) in *.
  destruct (word_char_plain c Hc) as (Hnl & Hbl & Hsp). cbn [tokenize_loop]. rewrite Hnl, Hbl.
  rewrite (Hsp "#"%char), (Hsp ";"%char), (Hsp dq), (Hsp "{"%char), (Hsp "}"%char), (Hsp "="%char) by done. cbn [orb andb].
  rewrite Hr. apply (cons_token_lexes (MkToken WORD (String c w) l)), H. simpl in Hf. rewrite str_length_app in Hf. lia.
Qed.

(** ** Lines *)

(** A line with the tokens it makes, in front of further lines. *)
Definition line_lexes (line : string) (ks : shape_t) : Prop :=
  ∀ s ks', lexes true s ks' → lexes true (line +:+ String nl s) (ks ++ ks').

Fixpoint lines_text (ls : list string) : string :=
  match ls with [] => "" | l :: ls' => l +:+ String nl (lines_text ls') end.

Lemma lines_lex ls kss : Forall2 line_lexes ls kss → lexes true (lines_text ls) (mjoin kss).
Proof. induction 1 as [|l ks ls kss Hl _ IH]; [apply lexes_nil|]. cbn [lines_text mjoin list_join]. by apply Hl. Qed.

Lemma blank_line : line_lexes "" [].
Proof. intros s ks H. by apply lexes_nl. Qed.

Lemma comment_line c : no_nl c = true → line_lexes ("#" +:+ c) [].
Proof.
  intros Hc s ks H. change (("#" +:+ c) +:+ String nl s) with (String "#" (c +:+ String nl s)).
  apply lexes_comment; [done|]. by apply lexes_nl.
Qed.

(** ** Attribute lines *)

Definition field_t : Type := string * (TokenKind * string).

Definition attr_text (f : field_t) : string :=
  match f with
  | (k, (STRING, v)) => ("  " +:+ k +:+ " ") +:+ String dq v +:+ String dq ";"
  | (k, (_, v)) => "  " +:+ k +:+ " " +:+ v +:+ ";"
  end.

Definition attr_shape (f : field_t) : shape_t := [(WORD, f.1); f.2; (SEMI, "")].

(** A key that can be read and a value of its kind. *)
Definition field_ok (f : field_t) : bool :=
  bare f.1 && match f.2 with (STRING, v) => quotable v | (WORD, v) => bare v | _ => false end.

Lemma attr_line f : field_ok f = true → line_lexes (attr_text f) (attr_shape f).
Proof.
  destruct f as [k [kd v]]. unfold field_ok. simpl. intros [Hk Hv]%andb_true_iff s ks H. unfold attr_shape. simpl.
  destruct kd; try done; simpl attr_text.
  - rewrite !string_app_assoc. apply lexes_space, lexes_space, lexes_word; [done|done|].
    apply lexes_space, lexes_word; [done|done|]. by apply lexes_semi, lexes_nl.
  - rewrite !string_app_assoc. apply lexes_space, lexes_space, lexes_word; [done|done|].
    apply lexes_space. change (String dq v +:+ String dq ";" +:+ String nl s) with (String dq (v +:+ String dq (String ";" (String nl s)))).
    apply lexes_string; [done|]. by apply lexes_semi, lexes_nl.
Qed.

(** ** Objects *)

Definition when_opt {A} (b : bool) (a : A) : option A := if b then Some a else None.

(** What [_emit_object] may write, in its order. *)
Definition fields (seed : Z) (nd : Node) (parent : option string) : list (string * option (TokenKind * string)) :=
  let ct := check_type nd in
  let login := mailbox_type ct && nonempty (username nd) && nonempty (password nd) in
  [("host", Some (STRING, hostname nd));
   ("type", Some (WORD, _TYPE_KW ct));
   ("port", when_opt (negb (port nd =? 0) && negb (bool_decide (Some (port nd) = DEFAULT_PORT ct))) (WORD, pretty (port nd)));
   ("url", when_opt (web_type ct) (STRING, url nd));
   ("urltext", if web_type ct then (STRING,.) <$> url_text nd else None);
   ("username", when_opt login (STRING, username nd));
   ("password", when_opt login (STRING, password nd));
   ("dns-query", when_opt (bool_decide (ct = DNS)) (STRING, username nd));
   ("desc", when_opt (nonempty (label nd)) (STRING, label nd));
   ("contact", when_opt (nonempty (contact nd)) (STRING, contact nd));
   ("group", when_opt (nonempty (group nd)) (STRING, group nd));
   ("contact_on", when_opt (nonempty (contact_on nd)) (STRING, contact_on nd));
   ("numfailures", when_opt (negb (node_max_down nd =? seed)) (WORD, pretty (node_max_down nd)));
   ("queuetime", (λ q, (WORD, fmt_float q)) <$> interval nd);
   ("send_pings", (λ z, (WORD, pretty z)) <$> send_pings nd);
   ("min_pings", (λ z, (WORD, pretty z)) <$> min_pings nd);
   ("source", (STRING,.) <$> source nd);
   ("dep", (STRING,.) <$> parent)].

Definition present (table : list (string * option (TokenKind * string))) : list field_t :=
  omap (λ '(k, o), (λ v, (k, v)) <$> o) table.

Definition object_lines (name : string) (fs : list field_t) : list string :=
  ("object " +:+ name +:+ " {") :: (attr_text <$> fs) ++ ["};"; ""].

Definition object_shape (name : string) (fs : list field_t) : shape_t :=
  [(WORD, "object"); (WORD, name); (LBRACE, "")] ++ mjoin (attr_shape <$> fs) ++ [(RBRACE, ""); (SEMI, "")].

Lemma object_lines_lex name fs :
  bare name = true → Forall (λ f, field_ok f = true) fs →
  ∃ kss, Forall2 line_lexes (object_lines name fs) kss ∧ mjoin kss = object_shape name fs.
Proof.
  intros Hn Hfs. exists ([(WORD, "object"); (WORD, name); (LBRACE, "")] :: (attr_shape <$> fs) ++ [[(RBRACE, ""); (SEMI, "")]; []]).
  split.
  - constructor.
    + intros s ks H. rewrite !string_app_assoc. change ("object " +:+ name +:+ " {" +:+ String nl s) with ("object" +:+ String " " (name +:+ String " " (String "{" (String nl s)))).
      apply lexes_word; [done|done|]. apply lexes_space. apply lexes_word; [done|done|]. by apply lexes_space, lexes_lbrace, lexes_nl.
    + apply Forall2_app.
      * induction Hfs; constructor; [by apply attr_line|done].
      * repeat constructor; [|apply blank_line]. intros s ks H. by apply lexes_rbrace, lexes_semi, lexes_nl.
  - unfold object_shape. change (mjoin (?a :: ?l)) with (a ++ mjoin l). rewrite join_app. done.
Qed.

(** ** What is written for one object *)

#[export] Instance Q_leibniz_dec : EqDecision Q.
Proof. solve_decision. Defined.

#[export] Instance pyfloat_eq_dec : EqDecision pyfloat.
Proof. solve_decision. Defined.

(** A node the modern format can express as it is; [seed] is the converter's default. *)
Definition representable (seed : Z) (nd : Node) : bool :=
  forallb (λ s, negb (has_char dq s))
    [hostname nd; label nd; contact nd; username nd; password nd; url nd; default "" (url_text nd); default "" (source nd)] &&
  (port nd <=? 65535) &&
  ((node_max_down nd =? seed) || (1 <=? node_max_down nd)) &&
  match send_pings nd, min_pings nd with Some s, Some m => m <=? s | _, _ => true end &&
  match interval nd with Some q => bool_decide (py_float (fmt_float q) = Some (Fin q)) | None => true end.

Definition add_lines (ls : list string) (st : SState) : SState := MkS (out st ++ ls) (s_warnings st) (used st).

Lemma add_lines_app ls ls' st : add_lines ls' (add_lines ls st) = add_lines (ls ++ ls') st.
Proof. unfold add_lines. simpl. by rewrite (assoc_L (++)). Qed.

Definition field_lines (f : string * option (TokenKind * string)) : list string :=
  match f with (k, Some v) => [attr_text (k, v)] | (_, None) => [] end.

Lemma present_lines table : attr_text <$> present table = mjoin (field_lines <$> table).
Proof.
  induction table as [|[k [v|]] table IH]; [done|..]; cbn; [f_equal|]; exact IH.
Qed.

Lemma attr_plain k v st : unquotable v = false → _attr k v st = add_lines [attr_text (k, (STRING, v))] st.
Proof. intros Hv. unfold _attr, quoted_line, _quote. by rewrite Hv. Qed.

Lemma attr_if_plain b k v st :
  unquotable v = false → attr_if b k v st = add_lines (field_lines (k, when_opt b (STRING, v))) st.
Proof.
  intros Hv. destruct b; simpl; [by apply attr_plain|]. unfold add_lines. rewrite app_nil_r. by destruct st.
Qed.

Lemma add_lines_nil st : add_lines [] st = st.
Proof. unfold add_lines. rewrite app_nil_r. by destruct st. Qed.

Lemma no_space_char a s : is_space a = true → no_space s = true → has_char a s = false.
Proof.
  intros Ha Hs. unfold has_char. apply negb_false_iff. revert Hs. apply all_str_mono. intros c Hc.
  apply negb_true_iff, bool_decide_eq_false. intros ->. by rewrite Ha in Hc.
Qed.

Lemma plain_quotable s : no_space s = true → has_char dq s = false → unquotable s = false ∧ quotable s = true.
Proof.
  intros Hs Hd. unfold unquotable, quotable, no_nl. rewrite Hd, !no_space_char by done. done.
Qed.

Definition plain (s : string) : Prop := unquotable s = false ∧ quotable s = true.

(** The texts of a valid, representable node can be quoted. *)
Record texts_plain (nd : Node) : Prop := {
  tp_host : plain (hostname nd); tp_label : plain (label nd); tp_contact : plain (contact nd); tp_group : plain (group nd);
  tp_contact_on : plain (contact_on nd); tp_user : plain (username nd); tp_pass : plain (password nd);
  tp_url : plain (url nd); tp_url_text : ∀ t, url_text nd = Some t → plain t; tp_source : ∀ s, source nd = Some s → plain s
}.

Lemma representable_plain seed nd : lnode_ok nd → representable seed nd = true → texts_plain nd.
Proof.
  intros Hok Hrep. unfold representable in Hrep. apply andb_true_iff in Hrep as [[[[Hq _]%andb_true_iff _]%andb_true_iff _]%andb_true_iff _].
  cbn [forallb] in Hq. rewrite !andb_true_iff, !negb_true_iff in Hq. destruct Hq as (Q1 & Q2 & Q3 & Q4 & Q5 & Q6 & Q7 & Q8 & _).
  destruct Hok as [H1 _ H3 H4 H5 H6 H7 H8 H9 H10 _ _ _ _].
  assert (no_space (label nd) = true) as N2 by (case_bool_decide; [by rewrite H3|apply H3]).
  assert (no_space (username nd) = true ∧ no_space (password nd) = true) as [N4 N5].
  { unfold creds_ok in H8. destruct (mailbox_type _); [destruct H8 as [[-> ->]|[[_ ?] [_ ?]]]; done|].
    case_bool_decide; [destruct H8 as ([_ ?] & _ & ->)|destruct H8 as [-> ->]]; done. }
  assert (no_space (url nd) = true) as N6 by (destruct (web_type _); [apply H9|by destruct H9 as [-> _]]).
  assert (∀ s, no_space s = true → has_char dq s = false → plain s) as Hp by apply plain_quotable.
  split; auto.
  - apply Hp; [apply H1|done].
  - by rewrite H5.
  - destruct H6 as [->|Hin]; [done|]. unfold CONTACT_ON_CHOICES in Hin. rewrite !elem_of_cons, elem_of_nil in Hin.
    destruct Hin as [->|[->|[->|[->|[]]]]]; done.
  - intros t Ht. apply Hp; [by apply H10|]. by rewrite Ht in Q7.
  - intros s Hs. apply Hp; [by apply H7|]. by rewrite Hs in Q8.
Qed.

Lemma emit_port_plain seed nd name st :
  lnode_ok nd → representable seed nd = true →
  emit_port nd name st = add_lines (field_lines ("port", when_opt (negb (port nd =? 0) &&
    negb (bool_decide (Some (port nd) = DEFAULT_PORT (check_type nd)))) (WORD, pretty (port nd)))) st.
Proof.
  intros Hok Hrep. unfold emit_port. destruct (negb (port nd =? 0) && _) eqn:E; [|by rewrite add_lines_nil].
  unfold representable in Hrep. rewrite !andb_true_iff in Hrep. destruct Hrep as [[[[_ Hp] _] _] _].
  assert (1 <= port nd → (1 <=? port nd) = true) as Hlo by (intros; by apply Z.leb_le).
  pose proof (ln_port _ Hok) as Hport. unfold port_ok in Hport.
  by destruct (check_type nd); try done; simpl in Hport; rewrite (Hlo Hport), Hp.
Qed.

Lemma emit_typed_plain nd st :
  texts_plain nd →
  let ct := check_type nd in
  let login := mailbox_type ct && nonempty (username nd) && nonempty (password nd) in
  emit_typed nd st = add_lines (mjoin (field_lines <$>
    [("url", when_opt (web_type ct) (STRING, url nd));
     ("urltext", if web_type ct then (STRING,.) <$> url_text nd else None);
     ("username", when_opt login (STRING, username nd));
     ("password", when_opt login (STRING, password nd));
     ("dns-query", when_opt (bool_decide (ct = DNS)) (STRING, username nd))])) st.
Proof.
  intros [_ _ _ _ _ [Hu _] [Hp _] [Hur _] Ht _]. unfold emit_typed.
  destruct (check_type nd); cbn [web_type mailbox_type andb]; try by rewrite add_lines_nil.
  all: try (destruct (nonempty (username nd)), (nonempty (password nd)); cbn; try by rewrite add_lines_nil).
  all: rewrite ?attr_plain, ?add_lines_app by done; try done.
  all: destruct (url_text nd) as [t|] eqn:Et; rewrite ?attr_plain, ?add_lines_app by (done || by apply Ht); done.
Qed.

Lemma emit_max_down_plain seed nd name st :
  representable seed nd = true →
  emit_max_down seed nd name st =
  add_lines (field_lines ("numfailures", when_opt (negb (node_max_down nd =? seed)) (WORD, pretty (node_max_down nd)))) st.
Proof.
  intros Hrep. unfold representable in Hrep. rewrite !andb_true_iff in Hrep. destruct Hrep as [[[_ Hm] _] _].
  unfold emit_max_down. destruct (node_max_down nd =? seed); simpl; [by rewrite add_lines_nil|].
  simpl in Hm. apply Z.leb_le in Hm. by rewrite (proj2 (Z.ltb_ge _ _) Hm).
Qed.

Lemma emit_opt_plain {A} k (f : A → string) v st :
  emit_opt k f v st = add_lines (field_lines (k, (λ x, (WORD, f x)) <$> v)) st.
Proof. destruct v; [done|]. by rewrite add_lines_nil. Qed.

Lemma attr_opt_plain k v st :
  (∀ x, v = Some x → unquotable x = false) → attr_opt k v st = add_lines (field_lines (k, (STRING,.) <$> v)) st.
Proof. intros Hv. destruct v; [by apply attr_plain, Hv|]. by rewrite add_lines_nil. Qed.

(** One object's lines, and no warning. *)
Lemma emit_object_plain seed nd name parent st :
  lnode_ok nd → representable seed nd = true → (∀ p, parent = Some p → unquotable p = false) →
  _emit_object seed nd name parent st = add_lines (object_lines name (present (fields seed nd parent))) st.
Proof.
  intros Hok Hrep Hpar. pose proof (representable_plain seed nd Hok Hrep) as Hp.
  assert (∀ t s, _line t s = add_lines [t] s) as Hline by done.
  unfold _emit_object. rewrite (emit_port_plain seed), emit_typed_plain, emit_max_down_plain, !emit_opt_plain by done.
  rewrite (attr_opt_plain "dep" parent), (attr_opt_plain "source") by (done || intros s Hs; by apply (tp_source _ Hp)).
  destruct Hp as [[H1 _] [H2 _] [H3 _] [H4 _] [H5 _] _ _ _ _ _].
  rewrite !attr_if_plain, attr_plain by done. rewrite !Hline, !add_lines_app. f_equal.
  unfold object_lines. rewrite present_lines. unfold fields.
  cbn [fmap list_fmap mjoin list_join]. rewrite <- !(assoc_L (++)). cbn [app field_lines]. done.
Qed.

(** ** Numbers as barewords *)

Lemma nonempty_app_r s s' : nonempty s' = true → nonempty (s +:+ s') = true.
Proof. by destruct s. Qed.

Lemma bare_app s s' : all_str word_char s = true → bare s' = true → bare (s +:+ s') = true.
Proof.
  unfold bare. intros Hs [Hn Hs']%andb_true_iff. rewrite nonempty_app_r, all_str_app, Hs, Hs' by done. done.
Qed.

Lemma bare_app_l s s' : bare s = true → all_str word_char s' = true → bare (s +:+ s') = true.
Proof.
  unfold bare. intros [Hn Hs]%andb_true_iff Hs'. rewrite all_str_app, Hs, Hs', !andb_true_r. by destruct s.
Qed.

Lemma digits_word s : all_str dec_digit s = true → all_str word_char s = true.
Proof.
  apply all_str_mono. intros c Hc. unfold word_char. apply andb_true_iff. split.
  - apply negb_true_iff. unfold _SPECIAL. apply bool_decide_eq_false. rewrite !elem_of_cons, elem_of_nil. naive_solver.
  - assert (no_space (String c "") = true) as H; [apply digit_no_space; simpl; by rewrite Hc|].
    rewrite no_space_cons in H. by apply andb_true_iff in H as [? _].
Qed.

Lemma bare_pretty_N (x : N) : bare (pretty x) = true.
Proof.
  unfold bare, nonempty. rewrite bool_decide_eq_false_2 by apply pretty_N_nonempty. apply digits_word, pretty_N_all.
Qed.

Lemma bare_pretty (z : Z) : bare (pretty z) = true.
Proof. rewrite pretty_Z_N. apply bare_app; [by destruct (z <? 0)|apply bare_pretty_N]. Qed.

Lemma substring_all P i n s : all_str P s = true → all_str P (String.substring i n s) = true.
Proof.
  revert i n. induction s as [|c s IH]; intros i n; [by destruct i, n|]. simpl. intros [Hc Hs]%andb_true_iff.
  destruct i as [|i]; [destruct n as [|n]|]; [done| |by apply IH]. cbn [all_str]. rewrite Hc. by apply IH.
Qed.

Lemma zeros_all n : all_str word_char (zeros n) = true.
Proof. by induction n. Qed.

Lemma bare_repr_pos q : bare (repr_pos q) = true.
Proof.
  unfold repr_pos. destruct (shortest _ _ _ _ _) as [m e]. cbv zeta. pose proof (bare_pretty m) as Hm.
  pose proof Hm as [_ Hall]%andb_true_iff. pose proof (bare_pretty (Z.abs (Z.of_nat (String.length (pretty m)) + e - 1))) as He.
  pose proof He as [_ Hexp]%andb_true_iff. unfold pad_exp.
  repeat match goal with |- context [if ?b then _ else _] => destruct b end;
  repeat first [done | exact Hm | exact Hall | exact Hexp | apply substring_all, Hall | apply zeros_all
    | apply bare_app_l; [exact Hm || done|] | rewrite all_str_app; apply andb_true_iff; split | apply bare_app].
Qed.

Lemma bare_fmt_float q : bare (fmt_float q) = true.
Proof.
  unfold fmt_float. cbv zeta. destruct (_ =? 1)%positive; [apply bare_pretty|]. unfold float_repr.
  destruct (Qeq_bool q 0); [done|]. destruct (Qle_bool 0 q); [apply bare_repr_pos|].
  apply bare_app; [done|apply bare_repr_pos].
Qed.

Lemma fields_ok seed nd parent :
  texts_plain nd → (∀ p, parent = Some p → quotable p = true) → Forall (λ f, field_ok f = true) (present (fields seed nd parent)).
Proof.
  intros [[_ H1] [_ H2] [_ H3] [_ H4] [_ H5] [_ H6] [_ H7] [_ H8] H9 H10] Hp.
  assert (∀ k o table, bare k = true → (∀ v, o = Some v → field_ok (k, v) = true) → Forall (λ f, field_ok f = true) (present table) →
    Forall (λ f, field_ok f = true) (present ((k, o) :: table))) as Hcons.
  { intros k o table Hk Ho Ht. destruct o as [v|]; [|done]. constructor; [by apply Ho|done]. }
  assert (∀ b kd v, match kd with STRING => quotable v = true | WORD => bare v = true | _ => False end →
    ∀ k w, bare k = true → when_opt b (kd, v) = Some w → field_ok (k, w) = true) as Hw.
  { intros b kd v Hv k w Hk. destruct b; [|done]. intros [= <-]. unfold field_ok. simpl. rewrite Hk. by destruct kd. }
  unfold fields. cbv zeta.
  repeat (apply Hcons; [reflexivity| |]); [..|constructor]; intros v; try (by apply Hw);
    try (apply Hw; [apply bare_pretty|reflexivity]).
  - intros [= <-]. unfold field_ok. simpl. by rewrite H1.
  - intros [= <-]. by destruct (check_type nd).
  - destruct (web_type _); [|done]. intros (t & Ht & ->)%fmap_Some. unfold field_ok. simpl. by apply H9.
  - intros (q & _ & ->)%fmap_Some. unfold field_ok. simpl. apply bare_fmt_float.
  - intros (z & _ & ->)%fmap_Some. unfold field_ok. simpl. apply bare_pretty.
  - intros (z & _ & ->)%fmap_Some. unfold field_ok. simpl. apply bare_pretty.
  - intros (s & Hs & ->)%fmap_Some. unfold field_ok. simpl. by apply (H10 s).
  - intros (p & Hs & ->)%fmap_Some. unfold field_ok. simpl. by apply Hp.
Qed.

(** ** Names *)

Definition pick (used : list string) (nd : Node) : string :=
  let base := name_base (hostname nd) in
  if mem base used then fresh_name (length used) base 2 used else base.

Lemma assign_pick nd st : _assign nd st = (pick (used st) nd, MkS (out st) (s_warnings st) (used st ++ [pick (used st) nd])).
Proof. done. Qed.

Definition candidate (base : string) (n : Z) : string := base +:+ "-" +:+ pretty n.

Lemma string_app_inj s s1 s2 : s +:+ s1 = s +:+ s2 → s1 = s2.
Proof.
  induction s as [|c s IH]; [done|]. intros H. apply IH.
  change (String c s +:+ ?x) with (String c (s +:+ x)) in H. by injection H.
Qed.

Lemma candidate_inj base n m : candidate base n = candidate base m → n = m.
Proof. unfold candidate. intros H%string_app_inj%string_app_inj. by apply (inj pretty). Qed.

(** The search fails only when as many candidates are taken as it tried. *)
Lemma fresh_name_taken fuel base n used :
  fresh_name fuel base n used ∈ used → ∀ k, 0 <= k <= Z.of_nat fuel → candidate base (n + k) ∈ used.
Proof.
  revert n. induction fuel as [|fuel IH]; intros n; cbn [fresh_name].
  - intros H k Hk. assert (k = 0) as -> by lia. by rewrite Z.add_0_r.
  - unfold mem. fold (candidate base n). case_bool_decide as Hin; [|done]. intros H k Hk.
    destruct (decide (k = 0)) as [->|?]; [by rewrite Z.add_0_r|].
    specialize (IH (n + 1) H (k - 1)). replace (n + 1 + (k - 1)) with (n + k) in IH by lia. apply IH. lia.
Qed.

Lemma fresh_name_fresh base n used : fresh_name (length used) base n used ∉ used.
Proof.
  intros H. pose proof (fresh_name_taken _ _ _ _ H) as Hall.
  set (cs := (λ k : nat, candidate base (n + Z.of_nat k)) <$> List.seq 0 (S (length used))).
  assert (length cs <= length used)%nat as Hlen.
  { apply submseteq_length, NoDup_submseteq.
    - apply NoDup_fmap_2_strong; [|apply NoDup_ListNoDup, seq_NoDup]. intros x y _ _ Hxy%candidate_inj. lia.
    - intros s (k & -> & Hk)%list_elem_of_fmap. apply list_elem_of_In, in_seq in Hk. apply Hall. lia. }
  subst cs. rewrite length_fmap, length_seq in Hlen. lia.
Qed.

Lemma pick_fresh used nd : pick used nd ∉ used.
Proof. unfold pick, mem. case_bool_decide; [apply fresh_name_fresh|done]. Qed.

Lemma clean_name_word s : all_str word_char (clean_name s) = true.
Proof.
  induction s as [|c s IH]; [done|]. cbn [clean_name all_str]. rewrite IH, andb_true_r.
  destruct (_NAME_BAD c) eqn:E; [done|]. unfold _NAME_BAD in E. rewrite !orb_false_iff in E. destruct E as [[E1 E2] E3].
  unfold word_char, _SPECIAL. rewrite E3, andb_true_r. apply negb_true_iff. to_prop.
  rewrite !elem_of_cons, elem_of_nil in *. naive_solver.
Qed.

Lemma bare_name_base h : bare (name_base h) = true.
Proof.
  unfold name_base. case_bool_decide as E; [done|]. unfold bare, nonempty. rewrite bool_decide_eq_false_2 by done. apply clean_name_word.
Qed.

Lemma bare_fresh_name fuel base n used : bare base = true → bare (fresh_name fuel base n used) = true.
Proof.
  intros Hb. assert (∀ n, bare (candidate base n) = true) as Hc.
  { intros m. unfold candidate. apply bare_app_l; [done|]. rewrite all_str_app.
    pose proof (bare_pretty m) as [_ ->]%andb_true_iff. done. }
  revert n. induction fuel as [|fuel IH]; intros n; cbn [fresh_name]; [apply Hc|].
  destruct (mem _ used); [apply IH|apply Hc].
Qed.

Lemma bare_pick used nd : bare (pick used nd) = true.
Proof. unfold pick. destruct (mem _ _); [apply bare_fresh_name|]; apply bare_name_base. Qed.

Lemma bare_plain s : bare s = true → plain s.
Proof.
  intros [_ Hs]%andb_true_iff. apply plain_quotable.
  - revert Hs. apply all_str_mono. intros c [_ ?]%andb_true_iff. done.
  - unfold has_char. apply negb_false_iff. revert Hs. apply all_str_mono. intros c [Hc _]%andb_true_iff.
    apply negb_true_iff in Hc. apply negb_true_iff, bool_decide_eq_false. by intros ->.
Qed.

(** ** The walk as a pass over rows *)

(** A row is a node with its parent's identity. *)
Abbreviation row := (option nid * Node)%type.

Fixpoint tree_rows (par : option nid) (n : nid) (t : tree) : list row :=
  match t with
  | Tree nd ts =>
      (par, nd) ::
      (fix forest_rows (n' : nid) (ts : list tree) : list row :=
         match ts with [] => [] | t :: ts' => tree_rows (Some n) n' t ++ forest_rows (n' + tree_size t)%nat ts' end) (S n) ts
  end.

Fixpoint forest_rows (par : option nid) (n : nid) (ts : list tree) : list row :=
  match ts with [] => [] | t :: ts' => tree_rows par n t ++ forest_rows par (n + tree_size t) ts' end.

Lemma tree_rows_eq par n nd ts : tree_rows par n (Tree nd ts) = (par, nd) :: forest_rows (Some n) (S n) ts.
Proof.
  cbn [tree_rows]. f_equal. generalize (S n). induction ts as [|t ts IH]; intros m; [done|].
  cbn [forest_rows]. f_equal. apply IH.
Qed.

Lemma rows_length :
  (∀ t par n, length (tree_rows par n t) = tree_size t) ∧ ∀ ts par n, length (forest_rows par n ts) = forest_size ts.
Proof.
  apply forest_ind.
  - intros nd ts IH par n. rewrite tree_rows_eq. simpl. by rewrite IH.
  - done.
  - intros t ts IHt IHts par n. simpl. rewrite length_app, IHt, IHts. done.
Qed.

Definition emit_row (seed : Z) (st : SState) (r : row) : SState :=
  let '(name, st1) := _assign r.2 st in _emit_object seed r.2 name (r.1 ≫= λ p, used st !! p) st1.

Lemma used_attr k v st : used (_attr k v st) = used st.
Proof. unfold _attr, quoted_line, _quote. by destruct (unquotable v). Qed.

Lemma used_emit_object seed nd name parent st : used (_emit_object seed nd name parent st) = used st.
Proof.
  assert (∀ b k v st, used (attr_if b k v st) = used st) as H1 by (intros [] *; [apply used_attr|done]).
  assert (∀ k v st, used (attr_opt k v st) = used st) as H2 by (intros ? [] *; [apply used_attr|done]).
  assert (∀ A k (f : A → string) v st, used (emit_opt k f v st) = used st) as H3 by (by intros ? ? ? [] ?).
  assert (∀ b m st, used (s_warn_if b m st) = used st) as H4 by (by intros [] *).
  assert (∀ st, used (emit_typed nd st) = used st) as H5
    by (intros st'; unfold emit_typed; repeat case_match; rewrite ?used_attr; done).
  assert (∀ st, used (emit_port nd name st) = used st) as H6.
  { intros st'. unfold emit_port. destruct (_ && _); [|done]. cbn [_line used]. by destruct (check_type nd); rewrite ?H4. }
  assert (∀ st, used (emit_max_down seed nd name st) = used st) as H7.
  { intros st'. unfold emit_max_down. destruct (negb _); [|done]. cbn [_line used]. apply H4. }
  unfold _emit_object. cbn [_line used]. rewrite H2, H2, !H3, H7, !H1, H5, H6. cbn [_line used]. rewrite used_attr. done.
Qed.

Lemma used_emit_row seed st r : used (emit_row seed st r) = used st ++ [pick (used st) r.2].
Proof. unfold emit_row. rewrite assign_pick, used_emit_object. done. Qed.

Lemma used_emit_rows seed rows st :
  ∃ names, length names = length rows ∧ used (foldl (emit_row seed) st rows) = used st ++ names.
Proof.
  revert st. induction rows as [|r rows IH]; intros st; [exists []; by rewrite app_nil_r|]. simpl.
  destruct (IH (emit_row seed st r)) as (names & Hl & ->). rewrite used_emit_row.
  exists (pick (used st) r.2 :: names). split; [simpl; lia|]. by rewrite <- (assoc_L (++)).
Qed.

(** A parent's name stays where it is while later names are added. *)
Lemma parent_name_kept (par : option nid) (l names : list string) :
  (∀ p, par = Some p → (p < length l)%nat) → (par ≫= λ p, (l ++ names) !! p) = (par ≫= λ p, l !! p).
Proof. intros H. destruct par as [p|]; [|done]. simpl. apply lookup_app_l. by apply H. Qed.

Lemma walk_rows seed :
  (∀ t par st, (∀ p, par = Some p → (p < length (used st))%nat) →
     _walk seed (par ≫= λ p, used st !! p) t st = foldl (emit_row seed) st (tree_rows par (length (used st)) t)) ∧
  ∀ ts par st, (∀ p, par = Some p → (p < length (used st))%nat) →
     walk_all seed (par ≫= λ p, used st !! p) ts st = foldl (emit_row seed) st (forest_rows par (length (used st)) ts).
Proof.
  apply forest_ind.
  - intros nd ts IH par st Hpar. rewrite tree_rows_eq. cbn [foldl].
    assert (∀ name s, (fix walk_all (ts : list tree) (st : SState) : SState :=
      match ts with [] => st | t :: ts' => walk_all ts' (_walk seed (Some name) t st) end) ts s = walk_all seed (Some name) ts s) as Hfix.
    { intros name. clear. induction ts as [|t ts IHts]; intros s; [done|]. cbn [walk_all]. apply IHts. }
    cbn [_walk]. rewrite assign_pick. rewrite Hfix.
    specialize (IH (Some (length (used st))) (emit_row seed st (par, nd))). rewrite used_emit_row in IH.
    rewrite length_app in IH. simpl in IH. rewrite Nat.add_1_r in IH.
    rewrite <- IH by (intros ? [= <-]; lia). rewrite lookup_app_r, Nat.sub_diag by lia. done.
  - done.
  - intros t ts IHt IHts par st Hpar. cbn [walk_all forest_rows]. rewrite foldl_app.
    rewrite <- (IHt par st Hpar).
    destruct (used_emit_rows seed (tree_rows par (length (used st)) t) st) as (names & Hl & Hu).
    rewrite (proj1 rows_length) in Hl.
    specialize (IHts par (foldl (emit_row seed) st (tree_rows par (length (used st)) t))). rewrite Hu, length_app, Hl in IHts.
    rewrite <- (IHt par st Hpar) in IHts. rewrite parent_name_kept in IHts by done. apply IHts. intros p Hp. specialize (Hpar p Hp). lia.
Qed.

(** ** The objects of a forest *)

(** An object as it is written: its name, its node and its parent's name. *)
Record written : Type := MkW { w_name : string; w_node : Node; w_parent : option string }.

Fixpoint named (used : list string) (rows : list row) : list written :=
  match rows with
  | [] => []
  | (par, nd) :: rows' =>
      MkW (pick used nd) nd (par ≫= λ p, used !! p) :: named (used ++ [pick used nd]) rows'
  end.

Definition w_fields (seed : Z) (w : written) : list field_t := present (fields seed (w_node w) (w_parent w)).
Definition w_lines (seed : Z) (w : written) : list string := object_lines (w_name w) (w_fields seed w).
Definition w_shape (seed : Z) (w : written) : shape_t := object_shape (w_name w) (w_fields seed w).

Definition row_ok (seed : Z) (r : row) : Prop := lnode_ok r.2 ∧ representable seed r.2 = true.

Lemma parent_plain (par : option nid) (l : list string) p :
  Forall (λ s, bare s = true) l → (par ≫= λ p, l !! p) = Some p → plain p.
Proof.
  intros Hl. destruct par as [i|]; [|done]. simpl. intros H. apply bare_plain. by eapply Forall_lookup_1 in Hl.
Qed.

Lemma emit_rows_plain seed rows st :
  Forall (row_ok seed) rows → Forall (λ s, bare s = true) (used st) →
  foldl (emit_row seed) st rows =
  MkS (out st ++ mjoin (w_lines seed <$> named (used st) rows)) (s_warnings st) (used st ++ (w_name <$> named (used st) rows)).
Proof.
  intros Hok. revert st. induction Hok as [|[par nd] rows [Hn Hr] Hrows IH]; intros st Hu.
  { simpl. rewrite !app_nil_r. by destruct st. }
  cbn [foldl named]. assert (emit_row seed st (par, nd) = MkS (out st ++ w_lines seed (MkW (pick (used st) nd) nd (par ≫= λ p, used st !! p)))
    (s_warnings st) (used st ++ [pick (used st) nd])) as ->.
  { unfold emit_row. rewrite assign_pick. cbn [fst snd]. rewrite emit_object_plain; [done..|]. intros p Hp. by eapply parent_plain. }
  rewrite IH; cbn [out s_warnings used fmap list_fmap mjoin list_join w_name].
  - by rewrite <- !(assoc_L (++)).
  - apply Forall_app. split; [done|]. apply Forall_singleton, bare_pick.
Qed.

Lemma named_names_fresh l rows :
  NoDup l → NoDup (l ++ (w_name <$> named l rows)).
Proof.
  revert l. induction rows as [|[par nd] rows IH]; intros l Hl; [by rewrite app_nil_r|].
  cbn [named fmap list_fmap w_name]. change (l ++ pick l nd :: ?x) with (l ++ [pick l nd] ++ x). rewrite (assoc_L (++)).
  apply IH. apply NoDup_app. split_and!; [done| |apply NoDup_singleton]. intros s Hs ->%list_elem_of_singleton. by apply pick_fresh in Hs.
Qed.

Lemma named_length l rows : length (named l rows) = length rows.
Proof. revert l. induction rows as [|[par nd] rows IH]; intros l; simpl; [done|]. by rewrite IH. Qed.

Lemma named_bare l rows w : w ∈ named l rows → bare (w_name w) = true.
Proof.
  revert l. induction rows as [|[par nd] rows IH]; intros l; [by intros []%elem_of_nil|]. simpl.
  intros [->|H]%elem_of_cons; [apply bare_pick|by eapply IH].
Qed.

(** A named row, with the name its parent got. *)
Lemma named_lookup l rows i par nd :
  rows !! i = Some (par, nd) → (∀ p, par = Some p → (p < length l + i)%nat) →
  ∃ w, named l rows !! i = Some w ∧ w_node w = nd ∧
    w_parent w = (par ≫= λ p, (l ++ (w_name <$> named l rows)) !! p).
Proof.
  revert l i. induction rows as [|[par0 nd0] rows IH]; intros l i; [done|]. destruct i as [|i]; simpl.
  - intros [= -> ->] Hp. eexists. split; [done|]. split; [done|]. simpl. symmetry. apply parent_name_kept. intros p Hp'. specialize (Hp p Hp'). lia.
  - intros Hi Hp. destruct (IH (l ++ [pick l nd0]) i Hi) as (w & Hw & Hnd & Hpar).
    + intros p Hp'. specialize (Hp p Hp'). rewrite length_app. simpl. lia.
    + exists w. split; [done|]. split; [done|]. rewrite Hpar. by rewrite <- (assoc_L (++)).
Qed.

(** ** Lexing the objects *)

Lemma written_lex seed ws :
  Forall (λ w, bare (w_name w) = true ∧ texts_plain (w_node w) ∧ ∀ p, w_parent w = Some p → quotable p = true) ws →
  ∃ kss, Forall2 line_lexes (mjoin (w_lines seed <$> ws)) kss ∧ mjoin kss = mjoin (w_shape seed <$> ws).
Proof.
  induction 1 as [|w ws (Hb & Ht & Hp) _ (kss & IH1 & IH2)]; [by exists []|].
  destruct (object_lines_lex (w_name w) (w_fields seed w)) as (k1 & H1 & H2); [done|by apply fields_ok|].
  exists (k1 ++ kss). cbn [fmap list_fmap mjoin list_join]. split; [by apply Forall2_app|]. by rewrite join_app, H2, IH2.
Qed.

(** Whole intervals below [2 ^ 53] always read back. *)
Lemma whole_interval_reads (z : Z) : Z.abs z < 2 ^ 53 → py_float (fmt_float (inject_Z z)) = Some (Fin (inject_Z z)).
Proof.
  intros Hz. unfold fmt_float. assert (Qred (inject_Z z) = inject_Z z) as -> by (apply Qcanon.Qred_iff; apply Z.gcd_1_r).
  cbn [Qden inject_Z]. by apply py_float_pretty.
Qed.
