(* ===== verification/ConvertGlobals.v ===== *)
(** * The globals the converter writes

    Every line [_emit_globals] adds is one [config] statement, and it never meets an override
    of the wrong type. *)
From Stdlib Require Import Ascii.
From S2P Require Import Prelude Status Model Graph Json PyStr PyNum NumText PyDict Lexer Modern ModernForest Legacy LegacySpec Convert ConvertText.

(** A [config] statement: no semicolon but the last token. *)
Definition config_shape (ks : shape_t) : Prop :=
  ∃ body, ks = (WORD, "config") :: body ++ [(SEMI, "")] ∧ Forall (λ x, x.1 ≠ SEMI) body.

(** A line that does not end in a line break. *)
Definition solid (l : string) : Prop := l ≠ "" ∧ rstrip_nl l = l.

Lemma rstrip_nl_app s s' : s' ≠ "" → rstrip_nl s' = s' → rstrip_nl (s +:+ s') = s +:+ s'.
Proof.
  intros Hne Hs. induction s as [|c s IH]; [done|].
  change (String c s +:+ s') with (String c (s +:+ s')). cbn [rstrip_nl]. rewrite IH.
  destruct (s +:+ s') eqn:E; [|done]. by destruct s.
Qed.

Lemma solid_app s s' : solid s' → solid (s +:+ s').
Proof. intros [Hne Hs]. split; [by destruct s|by apply rstrip_nl_app]. Qed.

(** Adding [config] lines. *)
Definition grows (st st' : SState) : Prop :=
  ∃ ls kss, out st' = out st ++ ls ∧ used st' = used st ∧ Forall2 line_lexes ls kss ∧ Forall config_shape kss ∧ Forall solid ls.

Lemma grows_refl st : grows st st.
Proof. exists [], []. rewrite app_nil_r. by repeat split. Qed.

Lemma grows_trans st1 st2 st3 : grows st1 st2 → grows st2 st3 → grows st1 st3.
Proof.
  intros (ls & kss & Ho & Hu & H1 & H2 & H3) (ls' & kss' & Ho' & Hu' & H1' & H2' & H3').
  exists (ls ++ ls'), (kss ++ kss'). rewrite Ho', Ho, Hu', Hu, (assoc_L (++)).
  split_and!; [done..|by apply Forall2_app|by apply Forall_app|by apply Forall_app].
Qed.

Lemma grows_line st l ks : line_lexes l ks → config_shape ks → solid l → grows st (_line l st).
Proof. intros H1 H2 H3. exists [l], [ks]. split_and!; [done|done|by constructor; [|constructor]|by apply Forall_singleton|by apply Forall_singleton]. Qed.

Lemma grows_warn m st : grows st (s_warn m st).
Proof. exists [], []. rewrite app_nil_r. by repeat split. Qed.

(** The words in front of a value. *)
Definition lead (before : string) (kb : shape_t) : Prop :=
  Forall (λ x, x.1 ≠ SEMI) kb ∧
  ∀ s ks, lexes false s ks → lexes true (before +:+ s) ((WORD, "config") :: kb ++ ks).

Lemma lead_kw kw : bare kw = true → lead ("config " +:+ kw +:+ " ") [(WORD, kw)].
Proof.
  intros Hk. split; [by repeat constructor|]. intros s ks H. rewrite !string_app_assoc.
  change ("config " +:+ ?x) with ("config" +:+ String " " x). apply lexes_word; [done|done|].
  apply lexes_space, lexes_word; [done|done|]. by apply lexes_space.
Qed.

Lemma lead_statusfile fmt : bare fmt = true → lead ("config statusfile " +:+ fmt +:+ " ") [(WORD, "statusfile"); (WORD, fmt)].
Proof.
  intros Hk. split; [by repeat constructor|]. intros s ks H. rewrite !string_app_assoc.
  change ("config statusfile " +:+ ?x) with ("config" +:+ String " " ("statusfile" +:+ String " " x)). apply lexes_word; [done|done|].
  apply lexes_space, lexes_word; [done|done|]. apply lexes_space, lexes_word; [done|done|]. by apply lexes_space.
Qed.

Lemma strip_quotes_quotable s : quotable (strip_quotes s) = true.
Proof.
  induction s as [|c s IH]; [done|]. cbn [strip_quotes]. case_bool_decide as Hd; [done|].
  unfold quotable in *. rewrite has_char_cons, no_nl_cons. apply andb_true_iff in IH as [IH1%negb_true_iff IH2]. rewrite IH1, IH2, andb_true_r.
  destruct (bool_decide (c = nl)) eqn:E1; [done|]. simpl. destruct (bool_decide (c = cr)); [done|]. rewrite E1.
  by rewrite bool_decide_eq_false_2.
Qed.

Lemma grows_quoted before kb v st : lead before kb → grows st (quoted_line before v st).
Proof.
  intros [Hkb Hlead]. unfold quoted_line, _quote.
  assert (∀ q st', quotable q = true → grows st' (_line (before +:+ String dq q +:+ String dq ";") st')) as Hl.
  { intros q st' Hq. apply (grows_line _ _ ((WORD, "config") :: kb ++ [(STRING, q); (SEMI, "")])).
    - intros s ks H. rewrite !string_app_assoc. cbn [app]. rewrite <- (assoc_L (++)). apply Hlead.
      change (String dq q +:+ String dq ";" +:+ String nl s) with (String dq (q +:+ String dq (String ";" (String nl s)))).
      apply lexes_string; [done|]. by apply lexes_semi, lexes_nl.
    - exists (kb ++ [(STRING, q)]). split; [by rewrite <- (assoc_L (++))|]. apply Forall_app. by repeat constructor.
    - by apply solid_app, (solid_app (String dq q)). }
  destruct (unquotable v) eqn:E.
  - eapply grows_trans; [apply grows_warn|]. apply Hl, strip_quotes_quotable.
  - apply Hl. unfold unquotable in E. rewrite !orb_false_iff in E. destruct E as [[E1 E2] _]. unfold quotable, no_nl. by rewrite E1, E2.
Qed.

Lemma grows_plain kw v st : bare kw = true → bare v = true → grows st (_line ("config " +:+ kw +:+ " " +:+ v +:+ ";") st).
Proof.
  intros Hk Hv. apply (grows_line _ _ [(WORD, "config"); (WORD, kw); (WORD, v); (SEMI, "")]).
  - intros s ks H. rewrite !string_app_assoc. pose proof (proj2 (lead_kw kw Hk) (v +:+ ";" +:+ String nl s) ((WORD, v) :: (SEMI, "") :: ks)) as HL.
    rewrite !string_app_assoc in HL. apply HL. apply lexes_word; [done|done|]. by apply lexes_semi, lexes_nl.
  - exists [(WORD, kw); (WORD, v)]. split; [done|]. by repeat constructor.
  - by repeat apply solid_app.
Qed.

Lemma grows_flag kw st : bare kw = true → grows st (_line ("config " +:+ kw +:+ ";") st).
Proof.
  intros Hk. apply (grows_line _ _ [(WORD, "config"); (WORD, kw); (SEMI, "")]).
  - intros s ks H. rewrite !string_app_assoc. change ("config " +:+ ?x) with ("config" +:+ String " " x).
    apply lexes_word; [done|done|]. apply lexes_space, lexes_word; [done|done|]. by apply lexes_semi, lexes_nl.
  - exists [(WORD, kw)]. split; [done|]. by repeat constructor.
  - by repeat apply solid_app.
Qed.

(** ** Typed overrides *)

Definition global_typed (field : string) (kind : emit_kind) : Prop :=
  ∀ v, override_ok (field, v) = true →
    match kind, v with
    | EFlag, OV (JBool _) | EInt, OV (JInt _) | EStr, OV (JStr _) => True
    | EBareword, OV (JStr s) => bare s = true
    | ENum, v => match v with OV (JFloat _) | ONonFinite _ => True | _ => False end
    | _, _ => False
    end.

Lemma global_order_typed : Forall (λ '(field, kw, kind), bare kw = true ∧ global_typed field kind) _GLOBAL_ORDER.
Proof.
  unfold _GLOBAL_ORDER. repeat constructor; unfold global_typed; intros [[| | | | | |]|f] H; try (vm_compute in H; discriminate); try exact I.
  unfold override_ok in H. change (mem "log_level" _) with false in H. cbn [orb andb bool_decide] in H.
  change (bool_decide ("log_level" = "syslog_facility")) with false in H. cbn [orb andb] in H.
  apply andb_true_iff in H as [_ H]. unfold mem, _LOGLEVELS in H. to_prop. rewrite !elem_of_cons, elem_of_nil in H.
  destruct H as [->|[->|[->|[]]]]; done.
Qed.

Lemma emit_global_grows field kw kind v st :
  bare kw = true → global_typed field kind → override_ok (field, v) = true →
  ∃ st', emit_global kw kind v st = Some st' ∧ grows st st'.
Proof.
  intros Hk Ht Hv. specialize (Ht v Hv). destruct kind, v as [[| | | | | |]|f]; try done; eexists; (split; [reflexivity|]).
  - eapply grows_quoted, lead_kw; done.
  - apply grows_plain; [done|apply bare_pretty].
  - apply grows_plain; [done|apply bare_fmt_float].
  - apply grows_plain; [done|]. destruct f as [q|[]|]; [|done..]. unfold float_repr.
    destruct (Qeq_bool q 0); [done|]. destruct (Qle_bool 0 q); [apply bare_repr_pos|]. apply bare_app; [done|apply bare_repr_pos].
  - by apply grows_plain.
  - destruct b; [by apply grows_flag|apply grows_refl].
Qed.

Lemma emit_globals_in_grows order o st :
  Forall (λ '(field, kw, kind), bare kw = true ∧ global_typed field kind) order →
  Forall (λ kv, override_ok kv = true) o →
  ∃ o' st', emit_globals_in order o st = Some (o', st') ∧ grows st st'.
Proof.
  intros Hord. revert o st. induction Hord as [|[[field kw] kind] order [Hk Ht] _ IH]; intros o st Ho.
  { exists o, st. split; [done|apply grows_refl]. }
  cbn [emit_globals_in]. destruct (aget o field) as [v|] eqn:Ev; [|by apply IH].
  destruct (emit_global_grows field kw kind v st) as (st1 & -> & H1); [done|done| |].
  { apply aget_elem in Ev. by eapply (proj1 (Forall_forall _ _)) in Ev; [|exact Ho]. }
  destruct (IH (adel o field) st1) as (o' & st' & Hr & H2).
  { apply Forall_forall. intros kv [_ Hin]%list_elem_of_filter. by eapply (proj1 (Forall_forall _ _)) in Hin; [|exact Ho]. }
  exists o', st'. split; [exact Hr|]. by eapply grows_trans.
Qed.

Lemma adel_forall {A} (P : string * A → Prop) (d : list (string * A)) k : Forall P d → Forall P (adel d k).
Proof. intros Hd. apply Forall_forall. intros kv [_ Hin]%list_elem_of_filter. by eapply (proj1 (Forall_forall _ _)) in Hin; [|exact Hd]. Qed.

Lemma bare_facility f : mem f _FACILITIES = true → bare f = true.
Proof.
  unfold mem, _FACILITIES. intros H. to_prop. rewrite !elem_of_cons, elem_of_nil in H.
  repeat destruct H as [->|H]; done.
Qed.

Lemma emit_globals_grows o st :
  Forall (λ kv, override_ok kv = true) o → ∃ st', _emit_globals o st = Some st' ∧ grows st st'.
Proof.
  intros Ho. assert (∀ k v, aget o k = Some v → override_ok (k, v) = true) as Hget.
  { intros k v Hk%aget_elem. by eapply (proj1 (Forall_forall _ _)) in Hk; [|exact Ho]. }
  assert (∃ st1, emit_statusfile o st = Some st1 ∧ grows st st1) as (st1 & E1 & G1).
  { unfold emit_statusfile. destruct (aget o "status_path") as [v|] eqn:Ep; [|exists st; split; [done|apply grows_refl]].
    apply Hget in Ep. destruct v as [[| | | | | |]|f]; try (vm_compute in Ep; discriminate).
    destruct (aget o "status_html") as [v|] eqn:Eh.
    - apply Hget in Eh. destruct v as [[|[]| | | | |]|f]; try (vm_compute in Eh; discriminate); eexists; (split; [done|]).
      + eapply grows_quoted, (lead_statusfile "html"). done.
      + eapply grows_quoted, (lead_statusfile "text"). done.
    - eexists. split; [done|]. eapply grows_quoted, (lead_statusfile "html"). done. }
  assert (∃ st2, emit_logging o st1 = Some st2 ∧ grows st1 st2) as (st2 & E2 & G2).
  { unfold emit_logging. destruct (aget o "syslog_facility") as [v|] eqn:Ef; [|exists st1; split; [done|apply grows_refl]].
    apply Hget in Ef. destruct v as [[| | | |f| |]|f]; try (vm_compute in Ef; discriminate); eexists; (split; [done|]).
    - by apply (grows_plain "logging" "none").
    - apply (grows_plain "logging" f); [done|]. apply bare_facility. unfold override_ok in Ef.
      change (mem "syslog_facility" _) with false in Ef. change (bool_decide ("syslog_facility" = "syslog_facility")) with true in Ef.
      change (bool_decide ("syslog_facility" = "log_level")) with false in Ef. cbn [orb andb] in Ef. by rewrite orb_false_r in Ef. }
  unfold _emit_globals. rewrite E1. cbn [mbind option_bind]. rewrite E2. cbn [mbind option_bind].
  destruct (emit_globals_in_grows _GLOBAL_ORDER (adel (adel (adel (adel o "status_path") "status_html") "syslog_facility") "numfailures") st2)
    as (o' & st3 & -> & G3); [apply global_order_typed|by repeat apply adel_forall|].
  cbn [mbind option_bind]. eexists. split; [done|]. eapply grows_trans; [exact G1|]. eapply grows_trans; [exact G2|].
  eapply grows_trans; [exact G3|]. generalize (akeys o'). intros ks. clear. revert st3.
  induction ks as [|k ks IH]; intros st; [apply grows_refl|]. simpl. eapply grows_trans; [apply grows_warn|apply IH].
Qed.

(** ** The whole text *)

Lemma lexes_det b s ks ks' : lexes b s ks → lexes b s ks' → ks = ks'.
Proof.
  intros H H'. destruct (H 0 (String.length s) (le_n _)) as (ts & E & <-).
  destruct (H' 0 (String.length s) (le_n _)) as (ts' & E' & <-). congruence.
Qed.

Lemma lines_text_app ls ls' : lines_text (ls ++ ls') = lines_text ls +:+ lines_text ls'.
Proof.
  induction ls as [|l ls IH]; [done|]. cbn [app lines_text]. rewrite IH, !string_app_assoc. done.
Qed.

Lemma join_lines ls : join (String nl "") (ls ++ [""]) = lines_text ls.
Proof.
  induction ls as [|l ls IH]; [done|]. cbn [app lines_text]. rewrite <- IH. by destruct ls.
Qed.

Lemma rstrip_nl_end s : rstrip_nl (s +:+ String nl "") = rstrip_nl s.
Proof.
  induction s as [|c s IH]; [done|]. change (String c s +:+ String nl "") with (String c (s +:+ String nl "")).
  cbn [rstrip_nl]. by rewrite IH.
Qed.

(** Ending in exactly one line break. *)
Lemma final_text ls e :
  solid e → rstrip_nl (join (String nl "") ((ls ++ [e]) ++ [""])) +:+ String nl "" = lines_text (ls ++ [e]).
Proof.
  intros [Hne He]. rewrite join_lines, lines_text_app. cbn [lines_text].
  change (e +:+ String nl "") with (e +:+ String nl ""). rewrite <- string_app_assoc, rstrip_nl_end, rstrip_nl_app by done. done.
Qed.

Lemma out_lexes ls kss e :
  solid e → Forall2 line_lexes ((ls ++ [e]) ++ [""]) kss →
  lexes true (rstrip_nl (join (String nl "") ((ls ++ [e]) ++ [""])) +:+ String nl "") (mjoin kss).
Proof.
  intros He H. rewrite final_text by done. apply Forall2_app_inv_l in H as (k1 & k2 & H1 & H2 & ->).
  apply Forall2_cons_inv_l in H2 as (k & k' & Hk & Hnil & ->). apply Forall2_nil_inv_l in Hnil as ->.
  assert (k = []) as ->.
  { specialize (Hk "" [] (lexes_nil true)). pose proof (blank_line "" [] (lexes_nil true)) as Hb.
    rewrite app_nil_r in Hk. rewrite app_nil_r in Hb. by eapply lexes_det. }
  rewrite join_app. simpl. rewrite app_nil_r. by apply lines_lex.
Qed.

Lemma header_ok seed : ∃ ls e, out (_header seed (MkS [] [] [])) = (ls ++ [e]) ++ [""] ∧ solid e ∧
  Forall2 line_lexes ((ls ++ [e]) ++ [""]) [[]; []; []; []].
Proof.
  exists ["# Converted from a legacy sysmon.conf by psysmon.config.convert (#3).";
    "# Per-object 'numfailures' is emitted only where it differs from the assumed"],
    ("# default of " +:+ pretty seed +:+ "; '{}' nesting becomes named 'dep' edges.").
  split; [done|]. split; [by apply (solid_app "# default of "), solid_app|]. repeat constructor.
  - by apply (comment_line " Converted from a legacy sysmon.conf by psysmon.config.convert (#3).").
  - by apply (comment_line " Per-object 'numfailures' is emitted only where it differs from the assumed").
  - apply (comment_line (" default of " +:+ pretty seed +:+ "; '{}' nesting becomes named 'dep' edges.")).
    unfold no_nl, has_char. rewrite negb_involutive, !all_str_app.
    pose proof (pretty_Z_no_space seed) as Hs. apply (no_space_char nl) in Hs; [|done]. unfold has_char in Hs.
    apply negb_false_iff in Hs. by rewrite Hs.
  - apply blank_line.
Qed.

(** Output that ends in a blank line after a solid one. *)
Definition closed_out (st : SState) (kss : list shape_t) : Prop :=
  (∃ ls e, out st = (ls ++ [e]) ++ [""] ∧ solid e) ∧ Forall2 line_lexes (out st) kss.

Lemma named_ok seed l rows :
  Forall (λ s, bare s = true) l → Forall (row_ok seed) rows →
  Forall (λ w, bare (w_name w) = true ∧ texts_plain (w_node w) ∧ ∀ p, w_parent w = Some p → quotable p = true) (named l rows).
Proof.
  intros Hl Hrows. revert l Hl. induction Hrows as [|[par nd] rows [Hn Hr] _ IH]; intros l Hl; [constructor|]. cbn [named]. constructor.
  - split; [apply bare_pick|]. split; [by eapply representable_plain|]. intros p Hp. by eapply parent_plain.
  - apply IH, Forall_app. split; [done|]. apply Forall_singleton, bare_pick.
Qed.

(** Objects end in a closing brace and a blank line. *)
Lemma written_end seed ws st kss :
  closed_out st kss → ∃ ls e, out st ++ mjoin (w_lines seed <$> ws) = (ls ++ [e]) ++ [""] ∧ solid e.
Proof.
  intros [(ls & e & E & He) _]. destruct ws as [|w ws] using rev_ind; [exists ls, e; by rewrite app_nil_r|].
  rewrite fmap_app, join_app. cbn [fmap list_fmap mjoin list_join]. unfold w_lines at 2, object_lines. rewrite app_nil_r.
  exists (out st ++ mjoin (w_lines seed <$> ws) ++ ("object " +:+ w_name w +:+ " {") :: (attr_text <$> w_fields seed w)), "};".
  split; [|done]. rewrite <- !(assoc_L (++)). done.
Qed.

(** The converter's text makes the globals' statements, then the objects'. *)
Lemma to_modern_lexes seed r :
  Forall (λ kv, override_ok kv = true) (lr_overrides r) → Forall (row_ok seed) (forest_rows None 0 (lr_roots r)) →
  ∃ modern ws kss, to_modern seed r = Some (modern, ws) ∧ Forall config_shape kss ∧
    lexes true modern (mjoin kss ++ mjoin (w_shape seed <$> named [] (forest_rows None 0 (lr_roots r)))).
Proof.
  intros Ho Hrows. unfold to_modern.
  destruct (emit_globals_grows (lr_overrides r) (_header seed (MkS [] [] [])) Ho) as (st1 & -> & ls & kss & E1 & Eu & H1 & H2 & H3).
  cbn [mbind option_bind]. cbv zeta. destruct (header_ok seed) as (hl & he & Eh & Hhe & Hhl). rewrite Eh in E1.
  set (st2 := if bool_decide (last (out st1) = Some "") then st1 else _line "" st1).
  assert (∃ kss', closed_out st2 kss' ∧ mjoin kss' = mjoin kss ∧ used st2 = []) as (k2 & [(l2 & e2 & Eo2 & He2) Hk2] & Ek2 & Eu2).
  { subst st2. rewrite E1. destruct ls as [|l ls] using rev_ind.
    - rewrite app_nil_r in *. rewrite last_snoc, bool_decide_eq_true_2 by done. apply Forall2_nil_inv_l in H1 as ->.
      exists [[]; []; []; []]. split; [|by split]. split; [|by rewrite E1]. exists hl, he. by rewrite E1.
    - clear IHls. apply Forall_app in H3 as [_ [Hl _]%Forall_cons].
      rewrite (assoc_L (++)), last_snoc, bool_decide_eq_false_2 by (intros [= ->]; by destruct Hl).
      exists ([[]; []; []; []] ++ kss ++ [[]]). split; [|split; [by rewrite join_app, join_app, app_nil_r|done]].
      unfold closed_out. cbn [_line out]. rewrite E1. split.
      + exists (((hl ++ [he]) ++ [""]) ++ ls), l. by rewrite (assoc_L (++)).
      + rewrite <- (assoc_L (++)). apply Forall2_app; [done|]. apply Forall2_app; [done|]. by constructor; [apply blank_line|]. }
  clearbody st2. clear E1 H1 Hhl Eh.
  pose proof (proj2 (walk_rows seed) (lr_roots r) None st2 ltac:(done)) as Hw. rewrite Eu2 in Hw. cbn [mbind option_bind length] in Hw. rewrite Hw.
  rewrite emit_rows_plain by (done || by rewrite Eu2). rewrite Eu2.
  set (ws := named [] (forest_rows None 0 (lr_roots r))).
  destruct (written_lex seed ws) as (k3 & Hk3 & Ek3); [by apply (named_ok seed)|].
  destruct (written_end seed ws st2 k2) as (l4 & e4 & E4 & He4); [by split; [eauto|]|].
  eexists _, _, kss. split; [done|]. split; [done|]. rewrite <- Ek2, <- Ek3, <- join_app.
  assert (∀ b m s, out (s_warn_if b m s) = out s) as -> by (by intros []). cbn [out]. rewrite E4.
  apply out_lexes; [done|]. rewrite <- E4. by apply Forall2_app.
Qed.
