(* ===== verification/ConvertSpec.v ===== *)
(** * The converter's round trip

    The modern parser, run on the converter's text, rebuilds the legacy forest.  [calm m a]
    says that [m] returns and changes at most the overrides and the warnings. *)
From Stdlib Require Import Ascii.
From S2P Require Import Prelude Status Model Graph Json PyStr PyNum NumText PyDict Lexer Modern ModernForest ModernSpec Legacy LegacySpec Convert ConvertText ConvertGlobals.

(** Everything but the overrides and the warnings. *)
Definition mute (st : PState) : PState := st <| overrides := [] |> <| warnings := [] |>.

Definition calm {A} (m : M A) (Φ : PState → A → Prop) : Prop :=
  ∀ st, ∃ a st', m st = Ok (a, st') ∧ mute st' = mute st ∧ Φ st a.

Abbreviation quiet m := (calm m (λ _ _, True)).

Lemma calm_ret {A} (a : A) : calm (mret a) (λ _ b, b = a).
Proof. intros st. by exists a, st. Qed.

Lemma quiet_ret {A} (a : A) : quiet (mret a).
Proof. intros st. by exists a, st. Qed.

Lemma quiet_bind {A B} (m : M A) (k : A → M B) : quiet m → (∀ a, quiet (k a)) → quiet (m ≫= k).
Proof.
  intros Hm Hk st. destruct (Hm st) as (a & st1 & E1 & H1 & _). destruct (Hk a st1) as (b & st2 & E2 & H2 & _).
  exists b, st2. unfold mbind, M_bind. rewrite E1. split; [done|]. by rewrite H2.
Qed.

Lemma quiet_warn l m : quiet (_warn l m).
Proof. intros st. eexists _, _. split; [done|]. by destruct st. Qed.

Lemma quiet_override f v : quiet (set_override f v).
Proof. intros st. eexists _, _. split; [done|]. by destruct st. Qed.

Lemma quiet_when b m : quiet m → quiet (when b m).
Proof. intros H. destruct b; [done|apply quiet_ret]. Qed.

Lemma quiet_get {A} (f : PState → A) : quiet (get f).
Proof. intros st. by exists (f st), st. Qed.

Create HintDb psy_quiet.
#[export] Hint Resolve quiet_warn quiet_override quiet_get : psy_quiet.

Ltac quieten :=
  repeat lazymatch goal with
  | |- calm (mret _) _ => apply quiet_ret
  | |- calm (when _ _) _ => apply quiet_when
  | |- calm (mbind _ _) _ => apply quiet_bind; [|intros ?; cbv beta]
  | |- calm (match ?x with _ => _ end) _ => destruct x
  | |- calm (let _ := _ in _) _ => cbv zeta
  | |- calm _ _ => solve [eauto with psy_quiet]
  end.

Lemma quiet_segments l ss : quiet (expand_segments l ss).
Proof. induction ss as [|[c|n] ss IH]; cbn [expand_segments]; quieten. Qed.

Lemma quiet_subst l v : quiet (_subst l v).
Proof. apply quiet_segments. Qed.
#[export] Hint Resolve quiet_subst : psy_quiet.

Lemma quiet_with_value l nm vs k : (∀ r, quiet (k r)) → quiet (with_value l nm vs k).
Proof. intros Hk. unfold with_value, _one_value. quieten. Qed.

Lemma quiet_apply_config l nm vs : quiet (_apply_config l nm vs).
Proof.
  assert (∀ nm k, (∀ r, quiet (k r)) → quiet (with_value l nm vs k)) as Hw by (intros; by apply quiet_with_value).
  unfold _apply_config, _set_int, _set_float, _set_str, _set_loglevel, _set_logging, _set_contact_on, _set_statusfile.
  quieten; try (apply Hw; intros ?; quieten).
Qed.

(** ** No variable is defined *)

Fixpoint flat (ss : list segment) : string :=
  match ss with [] => "" | SLit c :: ss' => String c (flat ss') | SVar n :: ss' => String "$" (n +:+ flat ss') end.

Lemma name_run_app s : (name_run s).1 +:+ (name_run s).2 = s.
Proof.
  induction s as [|c s IH]; [done|]. cbn [name_run]. destruct (name_char c); [|done].
  destruct (name_run s) as [w r]. exact (f_equal (String c) IH).
Qed.

Lemma name_run_length s : (String.length (name_run s).2 <= String.length s)%nat.
Proof.
  induction s as [|c s IH]; [done|]. cbn [name_run]. destruct (name_char c); [|simpl; lia].
  destruct (name_run s) as [w r]. simpl in *. lia.
Qed.

Lemma segments_flat fuel s : (String.length s <= fuel)%nat → flat (segments fuel s) = s.
Proof.
  revert s. induction fuel as [|fuel IH]; intros s Hl; [by destruct s; [|simpl in Hl; lia]|].
  destruct s as [|c [|d s]]; [done..|]. cbn [segments]. simpl in Hl.
  destruct (bool_decide (c = "$"%char) && name_start d) eqn:E.
  - apply andb_true_iff in E as [->%bool_decide_eq_true _]. pose proof (name_run_app s) as Ha. pose proof (name_run_length s) as Hn.
    destruct (name_run s) as [w r]. cbn [flat]. rewrite IH by (simpl in Hn; lia).
    change (String d w +:+ r) with (String d (w +:+ r)). simpl in Ha. by rewrite Ha.
  - cbn [flat]. by rewrite IH by (simpl; lia).
Qed.

Lemma calm_segments l ss : calm (expand_segments l ss) (λ st v, vars st = ∅ → v = flat ss).
Proof.
  induction ss as [|[c|n] ss IH]; intros st; cbn [expand_segments flat]; [by eexists _, _| |].
  - destruct (IH st) as (r & st1 & E & Hm & Hv). eexists _, st1. unfold mbind, M_bind. rewrite E. split; [done|]. split; [done|].
    intros H. by rewrite Hv.
  - unfold mbind, M_bind, get. destruct (vars st !! n) as [v|] eqn:En.
    + destruct (IH st) as (r & st1 & E & Hm & Hv). eexists _, st1. simpl. rewrite E. split; [done|]. split; [done|].
      intros H. by rewrite H, lookup_empty in En.
    + simpl. unfold modify. match goal with |- context [expand_segments l ss ?s] => destruct (IH s) as (r & st1 & E & Hm & Hv) end.
      eexists _, st1. rewrite E. split; [done|]. split; [rewrite Hm; by destruct st|]. intros H. rewrite Hv by by destruct st. done.
Qed.

Lemma calm_subst l v : calm (_subst l v) (λ st r, vars st = ∅ → r = v).
Proof.
  intros st. destruct (calm_segments l (segments (String.length v) v) st) as (r & st1 & E & Hm & Hv).
  exists r, st1. split; [exact E|]. split; [done|]. intros H. rewrite Hv by done. by apply segments_flat.
Qed.

(** ** A [config] statement *)

Lemma shape_cons k v ks ts : shape ts = (k, v) :: ks → ∃ t ts', ts = t :: ts' ∧ kind t = k ∧ value t = v ∧ shape ts' = ks.
Proof. destruct ts as [|t ts]; [done|]. intros [= <- <- <-]. by exists t, ts. Qed.

Lemma shape_app ks ks' ts : shape ts = ks ++ ks' → ∃ ts1 ts2, ts = ts1 ++ ts2 ∧ shape ts1 = ks ∧ shape ts2 = ks'.
Proof. intros (ts1 & ts2 & -> & -> & ->)%fmap_app_inv. eauto. Qed.

Lemma until_semi_body body t rest :
  Forall (λ x, x.1 ≠ SEMI) (shape body) → kind t = SEMI → until_semi (body ++ t :: rest) = (body, true, rest).
Proof.
  intros Hb Ht. induction body as [|b body IH]; cbn [app until_semi]; [by rewrite bool_decide_eq_true_2|].
  cbn in Hb. apply Forall_cons in Hb as [Hne Hb]. rewrite bool_decide_eq_false_2 by done. by rewrite IH.
Qed.

Section runs.
Context (nf : Z).

Lemma statement_config st ks rest :
  config_shape ks → ∀ ts, shape ts = ks → toks st = ts ++ rest →
  ∃ st', _statement nf st = Ok (tt, st') ∧ mute st' = mute (st <| toks := rest |>).
Proof.
  intros (body & -> & Hb) ts Hts Ht. apply shape_cons in Hts as (t & ts' & -> & Hk & Hv & Hts).
  apply shape_app in Hts as (bs & ss & -> & Hbs & Hss). apply shape_cons in Hss as (s & ss' & -> & Hsk & _ & Hnil).
  apply fmap_nil_inv in Hnil as ->. cbn [app] in Ht. rewrite <- (assoc_L (++)) in Ht. cbn [app] in Ht.
  unfold _statement. unfold mbind at 1, M_bind at 1, get. rewrite Ht, Hk, Hv. cbn [negb].
  rewrite bool_decide_eq_true_2 by done. cbn [negb]. rewrite bool_decide_eq_true_2 by done.
  unfold advance, mbind at 1, M_bind at 1, modify. unfold _config, _collect_to_semi, mbind at 1, M_bind at 1.
  assert (toks (st <| toks := tail (toks st) |>) = bs ++ s :: rest) as -> by (destruct st; simpl in *; by rewrite Ht).
  rewrite until_semi_body by (done || by rewrite Hbs). unfold warn_unterminated, when, mbind, M_bind, mret, M_ret. cbn [negb]. cbv iota beta.
  set (st1 := (st <| toks := tail (toks st) |>) <| toks := rest |>).
  assert (mute st1 = mute (st <| toks := rest |>)) as Hm by by destruct st.
  clearbody st1. destruct bs as [|b bs].
  - edestruct (quiet_warn (line t) "config directive needs a name; skipping" st1) as ([] & st' & -> & H & _). exists st'. by rewrite H.
  - case_bool_decide.
    + edestruct (quiet_apply_config (line t) (value b) bs st1) as ([] & st' & -> & H' & _). exists st'. by rewrite H'.
    + edestruct (quiet_warn (line t) "config directive needs a name; skipping" st1) as ([] & st' & -> & H' & _). exists st'. by rewrite H'.
Qed.

(** ** The attributes of a block *)

(** An attribute as the block loop stores it. *)
Definition stored (f : field_t) (a : string * (Z * attr_value)) : Prop :=
  a.1 = f.1 ∧ ∃ t, (kind t, value t) = f.2 ∧ a.2.2 = (if bool_decide (f.1 = "dep") then Deps [[t]] else Scalar [t]).

Lemma aset_fresh {A} (d : list (string * A)) k v : k ∉ akeys d → aset d k v = d ++ [(k, v)].
Proof.
  unfold akeys. induction d as [|[k' v'] d IH]; [done|]. cbn. intros [Hne Hk]%not_elem_of_cons.
  rewrite bool_decide_eq_false_2 by done. f_equal. by apply IH.
Qed.

Lemma stored_keys fs attrs : Forall2 stored fs attrs → akeys attrs = fs.*1.
Proof. unfold akeys. induction 1 as [|f a fs attrs [E _] _ IH]; [done|]. cbn. by rewrite E, IH. Qed.

Lemma add_attr_stored name t tv attrs fs st :
  value t ∉ fs.*1 → Forall2 stored fs attrs →
  ∃ attrs', add_attr name "object" t [tv] attrs st = Ok (attrs', st) ∧
    Forall2 stored (fs ++ [(value t, (kind tv, value tv))]) attrs'.
Proof.
  intros Hk Hs. pose proof (stored_keys _ _ Hs) as Hkeys. unfold add_attr.
  assert (aget attrs (value t) = None) as Hn by (apply aget_None; by rewrite Hkeys).
  change (bool_decide ("object" = "object")) with true. rewrite andb_true_r. case_bool_decide as Hd.
  - rewrite <- Hd, Hn. eexists. split; [done|]. rewrite aset_fresh by by rewrite Hkeys.
    apply Forall2_app; [done|]. constructor; [|constructor]. split; [done|]. exists tv. simpl. by rewrite bool_decide_eq_true_2.
  - unfold ahas. rewrite Hn. eexists. split; [done|]. rewrite aset_fresh by by rewrite Hkeys.
    apply Forall2_app; [done|]. constructor; [|constructor]. split; [done|]. exists tv. simpl. by rewrite bool_decide_eq_false_2.
Qed.

Definition value_kind (f : field_t) : Prop := f.2.1 = WORD ∨ f.2.1 = STRING.

Lemma set_toks_toks st a b : (st <| toks := a |>) <| toks := b |> = st <| toks := b |>.
Proof. by destruct st. Qed.

Lemma set_toks_id st a : toks st = a → st <| toks := a |> = st.
Proof. destruct st. simpl. by intros ->. Qed.

Lemma toks_set st a : toks (st <| toks := a |>) = a.
Proof. by destruct st. Qed.

Lemma take_semi st s rest :
  kind s = SEMI → _take SEMI (st <| toks := s :: rest |>) = Ok (true, st <| toks := rest |>).
Proof.
  intros Hs. unfold _take, _peek_kind, mbind, M_bind, get, advance, modify. rewrite toks_set. cbn [head fmap option_fmap option_map].
  rewrite Hs, bool_decide_eq_true_2 by done. by destruct st.
Qed.

Lemma collect_one st tv ts rest :
  kind tv = WORD ∨ kind tv = STRING → kind ts = SEMI →
  _collect_attr (st <| toks := tv :: ts :: rest |>) = Ok ([tv], st <| toks := rest |>).
Proof.
  intros Hv Hs. unfold _collect_attr, mbind, M_bind, get, modify. rewrite toks_set. cbn [attr_run].
  destruct Hv as [Hv|Hv]; rewrite Hv, Hs; by destruct st.
Qed.

Lemma strip_equals_one tv : kind tv = WORD ∨ kind tv = STRING → strip_equals [tv] = [tv].
Proof. intros [H|H]; unfold strip_equals; by rewrite H. Qed.

Lemma block_loop_fields name fs : ∀ fuel fs0 attrs0 ts rest st,
  Forall value_kind fs → NoDup (fs0 ++ fs).*1 → Forall2 stored fs0 attrs0 →
  shape ts = mjoin (attr_shape <$> fs) ++ [(RBRACE, ""); (SEMI, "")] → (length fs < fuel)%nat →
  ∃ attrs, block_loop fuel name "object" attrs0 (st <| toks := ts ++ rest |>) = Ok (Some (attrs, true), st <| toks := rest |>) ∧
    Forall2 stored (fs0 ++ fs) attrs.
Proof.
  induction fs as [|f fs IH]; intros fuel fs0 attrs0 ts rest st Hvk Hnd Hst Hts Hf; destruct fuel as [|fuel]; simpl in Hf; try lia.
  - apply shape_cons in Hts as (r & ts' & -> & Hr & _ & Hts). apply shape_cons in Hts as (s & ts'' & -> & Hs & _ & Hnil).
    apply fmap_nil_inv in Hnil as ->. exists attrs0. rewrite app_nil_r. split; [|done].
    cbn [block_loop app]. unfold mbind at 1, M_bind at 1, get. rewrite toks_set, Hr, bool_decide_eq_true_2 by done.
    unfold advance, mbind at 1, M_bind at 1, modify. rewrite toks_set, set_toks_toks. cbn [tail].
    unfold mbind, M_bind. by rewrite take_semi.
  - apply Forall_cons in Hvk as [Hvf Hvk]. cbn [fmap list_fmap mjoin list_join] in Hts. unfold attr_shape at 1 in Hts. destruct f as [k [kd v]]. cbn [fst snd app] in Hts.
    apply shape_cons in Hts as (tk & t1 & -> & Hk & Hkv & Hts). apply shape_cons in Hts as (tv & t2 & -> & Hvkind & Hvv & Hts).
    apply shape_cons in Hts as (tsm & ts' & -> & Hs & _ & Hts).
    assert (kind tv = WORD ∨ kind tv = STRING) as Hkd by (rewrite Hvkind; exact Hvf).
    cbn [block_loop app]. unfold mbind at 1, M_bind at 1, get. rewrite toks_set, Hk. cbn [negb].
    rewrite bool_decide_eq_false_2, bool_decide_eq_true_2 by done. cbn [negb].
    unfold advance, mbind at 1, M_bind at 1, modify. rewrite toks_set, set_toks_toks. cbn [tail].
    unfold mbind at 1, M_bind at 1. rewrite collect_one by done. cbv zeta. rewrite strip_equals_one by done.
    cbn [length Nat.ltb Nat.leb when]. unfold mbind at 1, M_bind at 1, mret at 1, M_ret at 1.
    destruct (add_attr_stored name tk tv attrs0 fs0 (st <| toks := ts' ++ rest |>)) as (attrs1 & Ha & Hst1).
    { rewrite Hkv. rewrite fmap_app in Hnd. apply NoDup_app in Hnd as (_ & Hd & _). intros Hin. apply (Hd k Hin). apply list_elem_of_here. }
    { done. }
    unfold mbind at 1, M_bind at 1. rewrite Ha. rewrite Hkv, Hvkind, Hvv in Hst1.
    destruct (IH fuel (fs0 ++ [(k, (kd, v))]) attrs1 ts' rest st) as (attrs & Hb & Hs2); [done| |done|done|lia|].
    { by rewrite <- (assoc_L (++)). }
    exists attrs. split; [done|]. by rewrite <- (assoc_L (++)) in Hs2.
Qed.

Lemma shape_length ts : length (shape ts) = length ts.
Proof. apply length_fmap. Qed.

Lemma collect_block name fs ts rest st :
  Forall value_kind fs → NoDup fs.*1 → shape ts = mjoin (attr_shape <$> fs) ++ [(RBRACE, ""); (SEMI, "")] →
  ∃ attrs, _collect_block_attrs name "object" (st <| toks := ts ++ rest |>) = Ok ((attrs, true), st <| toks := rest |>) ∧
    Forall2 stored fs attrs.
Proof.
  intros Hv Hnd Hts.
  assert (length fs < length (ts ++ rest))%nat as Hlen.
  { assert (length fs <= length (mjoin (attr_shape <$> fs)))%nat .
    { clear. induction fs as [|f fs IH]; [done|]. change (mjoin (attr_shape <$> f :: fs)) with (attr_shape f ++ mjoin (attr_shape <$> fs)).
      rewrite length_app. simpl length at 1 2. lia. }
    rewrite length_app, <- (shape_length ts), Hts, length_app. cbn [length]. lia. }
  destruct (block_loop_fields name fs (length (ts ++ rest)) [] [] ts rest st) as (attrs & Hb & Hs); try done.
  exists attrs. split; [|done]. unfold _collect_block_attrs, mbind, M_bind, get. rewrite toks_set, Hb. done.
Qed.

(** ** Resolving the values *)

Definition resolved_of (fs : list field_t) : resolved_t :=
  omap (λ f, if bool_decide (f.1 = "dep") then None else Some (f.1, f.2.2)) fs.

Lemma mute_vars st st' : mute st' = mute st → vars st' = vars st.
Proof. intros H. apply (f_equal vars) in H. by destruct st, st'. Qed.

Lemma resolve_stored fs attrs st :
  Forall2 stored fs attrs → vars st = ∅ →
  ∃ st', resolve_attrs attrs st = Ok (resolved_of fs, st') ∧ mute st' = mute st.
Proof.
  intros Hs Hv. unfold resolve_attrs.
  set (f := λ '(k, (l, v)), match v with Scalar vs => r ← first_value l vs; mret (Some (k, r)) | Deps _ => mret None end : M (option (string * string))).
  assert (∃ rs st', map_m f attrs st = Ok (rs, st') ∧ omap id rs = resolved_of fs ∧ mute st' = mute st) as (rs & st' & E & <- & Hm).
  { revert st Hv. induction Hs as [|fd [k [l v]] fs attrs (Hk & t & Ht & Hval) _ IH]; intros st Hv; [by exists [], st|].
    simpl in Hk, Hval. subst k. cbn [map_m]. unfold mbind at 1, M_bind at 1.
    assert (∃ o st1, f (fd.1, (l, v)) st = Ok (o, st1) ∧ mute st1 = mute st ∧
      o = if bool_decide (fd.1 = "dep") then None else Some (fd.1, fd.2.2)) as (o & st1 & E1 & Hm1 & Ho).
    { rewrite Hval. case_bool_decide; cbn [f]; [by exists None, st|]. unfold first_value.
      destruct (calm_subst l (value t) st) as (r & st1 & E1 & Hm1 & Hr). exists (Some (fd.1, r)), st1.
      unfold mbind, M_bind. rewrite E1. split; [done|]. split; [done|]. rewrite (Hr Hv). rewrite <- Ht. done. }
    rewrite E1. destruct (IH st1) as (rs & st2 & E2 & Ers & Hm2); [by rewrite (mute_vars _ _ Hm1)|].
    unfold mbind, M_bind. rewrite E2. exists (o :: rs), st2. split; [done|]. split; [|by rewrite Hm2].
    cbn. rewrite Ho. case_bool_decide; cbn; [exact Ers|by f_equal]. }
  exists st'. unfold mbind, M_bind. change (map_m _ attrs st) with (map_m f attrs st). by rewrite E.
Qed.

Lemma dep_edges_stored fs attrs :
  Forall2 stored fs attrs → NoDup fs.*1 →
  match aget fs "dep" with
  | Some (_, p) => ∃ l t, dep_edges attrs = (l, [[t]]) ∧ value t = p
  | None => dep_edges attrs = (0, [])
  end.
Proof.
  intros Hs _. unfold dep_edges. induction Hs as [|[k [kd v]] [k' [l av]] fs attrs (Hk & t & Ht & Hval) _ IH]; [done|].
  simpl in Hk, Hval, Ht. subst k'. cbn [aget]. rewrite (bool_decide_ext ("dep" = k) (k = "dep")) by done.
  case_bool_decide; [|exact IH]. subst. injection Ht as <- <-. eauto.
Qed.

(** ** The table and its values *)

Lemma present_keys table : (present table).*1 ⊆ table.*1.
Proof.
  intros k. induction table as [|[k' [v|]] table IH]; cbn; [done|..].
  - intros [->|H]%elem_of_cons; [apply list_elem_of_here|]. apply list_elem_of_further. by apply IH.
  - intros H. apply list_elem_of_further. by apply IH.
Qed.

Lemma present_nodup table : NoDup table.*1 → NoDup (present table).*1.
Proof.
  induction table as [|[k' [v|]] table IH]; [done|..]; intros [Hk Hnd]%NoDup_cons; [|by apply IH].
  apply NoDup_cons. split; [|by apply IH]. intros H. by apply Hk, present_keys.
Qed.

Lemma aget_present table k : NoDup table.*1 → aget (present table) k = default None (aget table k).
Proof.
  induction table as [|[k' o] table IH]; [done|]. intros [Hk Hnd]%NoDup_cons. cbn [aget].
  destruct o as [v|].
  - change (present ((k', Some v) :: table)) with ((k', v) :: present table). cbn [aget]. case_bool_decide; [done|]. by apply IH.
  - change (present ((k', None) :: table)) with (present table). case_bool_decide; [|by apply IH]. subst. simpl.
    apply aget_None. intros H. by apply Hk, present_keys.
Qed.

Lemma aget_resolved fs k : k ≠ "dep" → aget (resolved_of fs) k = snd <$> aget fs k.
Proof.
  intros Hk. unfold resolved_of. induction fs as [|[k' [kd v]] fs IH]; [done|]. cbn.
  case_bool_decide as Hd; cbn.
  - rewrite bool_decide_eq_false_2 by congruence. exact IH.
  - case_bool_decide; [done|exact IH].
Qed.

(** ** Building the node back *)

Section node.
Context (nd : Node) (parent : option string) (Hok : lnode_ok nd) (Hrep : representable nf nd = true).

Abbreviation ct := (check_type nd).

Definition written_values : resolved_t := resolved_of (present (fields nf nd parent)).

Lemma fields_nodup : NoDup (fields nf nd parent).*1.
Proof. apply (bool_decide_unpack _). vm_compute. exact I. Qed.

Lemma values_get k o : k ≠ "dep" → default None (aget (fields nf nd parent) k) = o → aget written_values k = snd <$> o.
Proof.
  intros Hk <-. unfold written_values. rewrite aget_resolved by done. rewrite aget_present; [done|].
  apply fields_nodup.
Qed.

Lemma resolve_written attrs st :
  Forall2 stored (present (fields nf nd parent)) attrs → vars st = ∅ →
  ∃ st', resolve_attrs attrs st = Ok (written_values, st') ∧ mute st' = mute st.
Proof. apply resolve_stored. Qed.

#[local] Opaque written_values.

Lemma values_when k b kd v :
  k ≠ "dep" → default None (aget (fields nf nd parent) k) = when_opt b (kd, v) →
  aget written_values k = if b then Some v else None.
Proof. intros Hk H. rewrite (values_get k _ Hk H). by destruct b. Qed.

(** A value written when it is not empty reads as itself. *)
Lemma values_nonempty k v :
  k ≠ "dep" → default None (aget (fields nf nd parent) k) = when_opt (nonempty v) (STRING, v) →
  get_str written_values k = v.
Proof.
  intros Hk H. unfold get_str. rewrite (values_when k _ _ _ Hk H). unfold nonempty.
  destruct (bool_decide (v = "")) eqn:E; [|done]. by apply bool_decide_eq_true in E as ->.
Qed.

Lemma port_read l name p st : 1 <= p <= 65535 → _port l name (Some (pretty p)) st = Ok (Some p, st).
Proof.
  intros Hp. unfold _port. rewrite strip_word by apply pretty_Z_no_space. rewrite isdigit_pretty by lia. cbn [negb].
  rewrite py_int_pretty. destruct ((0 <? p) && (p <=? 65535)) eqn:E; [done|]. apply andb_false_iff in E as [E|E]; to_prop; lia.
Qed.

(** The node after its type's own fields. *)
Definition typed_node : Node :=
  (new_node (hostname nd) ct) <| node_max_down := nf |> <| port := port nd |> <| url := url nd |> <| url_text := url_text nd |>
    <| username := (if mailbox_type ct || bool_decide (ct = DNS) then username nd else "") |>
    <| password := (if mailbox_type ct then password nd else "") |>.

Lemma nonempty_word s : word s → nonempty s = true ∧ bool_decide (s = "") = false.
Proof. intros [Hs _]. unfold nonempty. by rewrite bool_decide_eq_false_2. Qed.

Lemma values_port :
  aget written_values "port" =
  if negb (port nd =? 0) && negb (bool_decide (Some (port nd) = DEFAULT_PORT ct)) then Some (pretty (port nd)) else None.
Proof. by apply (values_when "port" _ WORD). Qed.

Lemma port_representable : port nd <= 65535.
Proof. unfold representable in Hrep. rewrite !andb_true_iff in Hrep. destruct Hrep as [[[[_ Hp] _] _] _]. by apply Z.leb_le. Qed.

Lemma values_url : aget written_values "url" = if web_type ct then Some (url nd) else None.
Proof. by apply (values_when "url" _ STRING). Qed.

Lemma values_urltext : aget written_values "urltext" = if web_type ct then url_text nd else None.
Proof.
  rewrite (values_get "urltext" (if web_type ct then (STRING,.) <$> url_text nd else None)) by done.
  destruct (web_type ct); [|done]. by destruct (url_text nd).
Qed.

Abbreviation login := (mailbox_type ct && nonempty (username nd) && nonempty (password nd)).

Lemma values_username : aget written_values "username" = if login then Some (username nd) else None.
Proof. by apply (values_when "username" _ STRING). Qed.

Lemma values_password : aget written_values "password" = if login then Some (password nd) else None.
Proof. by apply (values_when "password" _ STRING). Qed.

Lemma values_query : aget written_values "dns-query" = if bool_decide (ct = DNS) then Some (username nd) else None.
Proof. by apply (values_when "dns-query" _ STRING). Qed.

Lemma values_contact : get_str written_values "contact" = contact nd.
Proof. by apply values_nonempty. Qed.

Lemma typed_read l name kw st :
  typed_fields l name kw written_values (base_node nf (hostname nd) ct) st = Ok (Some typed_node, st).
Proof.
  pose proof values_port as Vp. pose proof port_representable as Hp. pose proof (ln_port _ Hok) as Hport.
  pose proof (ln_creds _ Hok) as Hc. pose proof (ln_url _ Hok) as Hu.
  pose proof values_url as Vu. pose proof values_urltext as Vt. pose proof values_username as Vn. pose proof values_password as Vw.
  pose proof values_query as Vq. pose proof values_contact as Vc.
  revert Vp Vu Vt Vn Vw Vq Vc. generalize written_values. intros R Vp Vu Vt Vn Vw Vq Vc.
  unfold typed_fields, typed_node. unfold port_ok in Hport. unfold creds_ok in Hc.
  assert (check_type (base_node nf (hostname nd) ct) = ct) as -> by by destruct ct.
  assert (∀ p, 1 <= p → (p =? 0) = false) as Hnz by (intros; apply Z.eqb_neq; lia).
  destruct ct eqn:Ect; cbn [web_type mailbox_type socket_type optional_port DEFAULT_PORT from_option id] in *;
    change (bool_decide (DNS = DNS)) with true in *; rewrite ?(bool_decide_eq_false_2 (_ = DNS)) in * by done; cbn [andb orb] in *.
  (* tcp, udp *)
  3, 4: rewrite Hnz in Vp by done; simpl in Vp; unfold mbind, M_bind; rewrite Vp, port_read by lia; by destruct Hu as [-> ->].
  (* http, https *)
  all: try (destruct Hport as [Hport|[? _]]; [|done]; unfold get_str; rewrite Vu; destruct (nonempty_word _ Hu) as [_ He];
    cbn [from_option id]; rewrite He, Vt, Hport; by destruct (url_text nd)).
  (* mail and ftp *)
  all: try (destruct Hport as [Hport|[? _]]; [|done]; unfold get_str; rewrite Vn, Vw, Hport; destruct Hu as [-> ->], Hc as [[-> ->]|[Hn Hw]]; [done|];
    destruct (nonempty_word _ Hn) as [-> Hn'], (nonempty_word _ Hw) as [-> Hw']; cbn [andb from_option id]; by rewrite Hn', Hw').
  (* dns *)
  all: try (destruct Hport as [Hport|[? _]]; [|done]; destruct Hc as (Hn & Hct & _), Hu as [-> ->]; rewrite Vc, Hport; unfold get_str; rewrite Vq;
    destruct (nonempty_word _ Hn) as [_ Hn'], (nonempty_word _ Hct) as [_ Hct']; cbn [from_option id]; by rewrite Hn', Hct').
  (* the others: a port that is not the default is written *)
  all: destruct Hu as [-> ->].
  all: rewrite Vp; destruct (negb (port nd =? 0) && _) eqn:E.
  all: try (destruct Hport as [Hport|[_ Hport]]; try done; [rewrite Hport in E; done|]; unfold mbind, M_bind; by rewrite port_read).
  all: destruct Hport as [->|[? Hport]]; try done.
  all: rewrite Hnz in E by lia; cbn [negb andb] in E; apply negb_false_iff, bool_decide_eq_true in E; injection E as ->; done.
Qed.

(** *** The override attributes *)

Lemma representable_rest :
  ((node_max_down nd =? nf) = true ∨ 1 <= node_max_down nd) ∧
  (∀ s m, send_pings nd = Some s → min_pings nd = Some m → m <= s) ∧
  (∀ q, interval nd = Some q → py_float (fmt_float q) = Some (Fin q)).
Proof.
  unfold representable in Hrep. rewrite !andb_true_iff in Hrep. destruct Hrep as [[[_ Hm] Hc] Hi]. split_and!.
  - apply orb_true_iff in Hm as [?|?%Z.leb_le]; auto.
  - intros s m Hs Hmm. rewrite Hs, Hmm in Hc. by apply Z.leb_le.
  - intros q Hq. rewrite Hq in Hi. by apply bool_decide_eq_true in Hi.
Qed.

Lemma number_read l name k z st : _number_int l name k (pretty z) st = Ok (Some z, st).
Proof. unfold _number_int. by rewrite lstrip_dash_pretty, py_int_pretty. Qed.

Lemma read_queuetime l name x st :
  interval x = None →
  on_key written_values "queuetime" (apply_queuetime l name) x st = Ok (x <| interval := interval nd |>, st).
Proof.
  intros Hx. destruct representable_rest as (_ & _ & Hq). unfold on_key.
  rewrite (values_get "queuetime" ((λ q, (WORD, fmt_float q)) <$> interval nd)) by done.
  destruct (interval nd) as [q|] eqn:Ei; cbn [fmap option_fmap option_map snd]; [|destruct x; simpl in *; by rewrite Hx].
  unfold apply_queuetime, mbind, M_bind, _number_float. rewrite (Hq q eq_refl). cbn.
  pose proof (ln_interval _ Hok q Ei) as Hpos. destruct (Qle_bool q 0) eqn:E; [|done].
  apply Qle_bool_iff in E. by apply Qlt_not_le in Hpos.
Qed.

Lemma read_numfailures l name x st :
  node_max_down x = nf →
  on_key written_values "numfailures" (apply_numfailures l name) x st = Ok (x <| node_max_down := node_max_down nd |>, st).
Proof.
  intros Hx. destruct representable_rest as (Hm & _ & _). unfold on_key.
  rewrite (values_when "numfailures" (negb (node_max_down nd =? nf)) WORD (pretty (node_max_down nd))) by done.
  destruct (node_max_down nd =? nf) eqn:E; cbn [negb].
  - apply Z.eqb_eq in E. rewrite E. destruct x; simpl in *. by rewrite Hx.
  - destruct Hm as [?|Hm]; [done|]. unfold apply_numfailures, mbind, M_bind. rewrite number_read.
    by rewrite (proj2 (Z.ltb_ge _ _) Hm).
Qed.

Lemma read_group f x st : group x = "" → on_key written_values "group" f x st = Ok (x, st).
Proof.
  intros Hx. unfold on_key. rewrite (values_when "group" (nonempty (group nd)) STRING (group nd)) by done.
  by rewrite (ln_group _ Hok).
Qed.

Lemma read_contact_on l name x st :
  contact_on x = "" →
  on_key written_values "contact_on" (apply_contact_on l name) x st = Ok (x <| contact_on := contact_on nd |>, st).
Proof.
  intros Hx. unfold on_key. rewrite (values_when "contact_on" (nonempty (contact_on nd)) STRING (contact_on nd)) by done.
  destruct (ln_contact_on _ Hok) as [E|Hin].
  - rewrite E. destruct x; simpl in *. by rewrite Hx.
  - assert (nonempty (contact_on nd) = true) as ->.
    { unfold nonempty. apply negb_true_iff, bool_decide_eq_false. intros E. rewrite E in Hin. unfold CONTACT_ON_CHOICES in Hin. rewrite !elem_of_cons, elem_of_nil in Hin. naive_solver. }
    unfold apply_contact_on, mem. by rewrite bool_decide_eq_true_2.
Qed.

Lemma read_source l name x st :
  source x = None → check_type x = ct →
  on_key written_values "source" (apply_source l name) x st = Ok (x <| source := source nd |>, st).
Proof.
  intros Hx Ht. unfold on_key. rewrite (values_get "source" ((STRING,.) <$> source nd)) by done.
  destruct (source nd) as [s|] eqn:Es; cbn [fmap option_fmap option_map snd]; [|destruct x; simpl in *; by rewrite Hx].
  destruct (ln_source _ Hok s Es) as [[Hns Hs] Hf].
  assert (_source_family_ok x s = true) as Hfx by (unfold _source_family_ok in *; by rewrite Ht).
  unfold apply_source, mbind, M_bind, _parse_source. rewrite strip_word by done.
  destruct Hs as [->|[Hlow [v Hv]]].
  - change (lower SOURCE_AUTO) with SOURCE_AUTO. rewrite bool_decide_eq_true_2 by done. cbn. by rewrite Hfx.
  - rewrite bool_decide_eq_false_2, Hv by done. cbn. by rewrite Hfx.
Qed.

Lemma read_counts l name x st :
  send_pings x = None → min_pings x = None →
  _apply_ping_counts l name x written_values st = Ok (x <| send_pings := send_pings nd |> <| min_pings := min_pings nd |>, st).
Proof.
  intros Hs Hm. destruct representable_rest as (_ & Hc & _). unfold _apply_ping_counts.
  rewrite (values_get "send_pings" ((λ z, (WORD, pretty z)) <$> send_pings nd)) by done.
  rewrite (values_get "min_pings" ((λ z, (WORD, pretty z)) <$> min_pings nd)) by done.
  assert (∀ k z, z = None ∨ (∃ v, z = Some v ∧ 1 <= v) → opt_number l name k (snd <$> ((λ z, (WORD, pretty z)) <$> z)) st = Ok (z, st) ∧
    at_least_one l name k z st = Ok (z, st)) as Hread.
  { intros k z [->|(v & -> & Hv)]; [done|]. cbn [fmap option_fmap option_map snd opt_number at_least_one].
    rewrite number_read, (proj2 (Z.ltb_ge _ _) Hv). done. }
  destruct (Hread "send_pings" (send_pings nd)) as [R1 R2].
  { destruct (send_pings nd) as [v|] eqn:E; [right; exists v; split; [done|by apply (ln_send _ Hok)]|by left]. }
  destruct (Hread "min_pings" (min_pings nd)) as [R3 R4].
  { destruct (min_pings nd) as [v|] eqn:E; [right; exists v; split; [done|by apply (ln_min _ Hok)]|by left]. }
  unfold mbind, M_bind. rewrite R1, R3, R2, R4.
  destruct (send_pings nd) as [s|], (min_pings nd) as [m|]; cbn.
  - rewrite (proj2 (Z.ltb_ge _ _)) by by apply Hc. done.
  - destruct x; simpl in *. by rewrite Hm.
  - destruct x; simpl in *. by rewrite Hs.
  - destruct x; simpl in *. by rewrite Hs, Hm.
Qed.

(** The whole node: every field is back. *)
Definition read_label (x : Node) : Node := match aget written_values "desc" with Some d => x <| label := d |> | None => x end.
Definition read_contact (x : Node) : Node := match aget written_values "contact" with Some c => x <| contact := c |> | None => x end.

Lemma read_label_eq x : label x = "" → read_label x = x <| label := label nd |>.
Proof.
  intros Hx. unfold read_label. rewrite (values_when "desc" (nonempty (label nd)) STRING (label nd)) by done. unfold nonempty.
  destruct (bool_decide (label nd = "")) eqn:E; [|done]. apply bool_decide_eq_true in E as ->. destruct x; simpl in *. by rewrite Hx.
Qed.

Lemma read_contact_eq x : contact x = "" → read_contact x = x <| contact := contact nd |>.
Proof.
  intros Hx. unfold read_contact. rewrite (values_when "contact" (nonempty (contact nd)) STRING (contact nd)) by done. unfold nonempty.
  destruct (bool_decide (contact nd = "")) eqn:E; [|done]. apply bool_decide_eq_true in E as ->. destruct x; simpl in *. by rewrite Hx.
Qed.

Lemma typed_node_creds :
  (if mailbox_type ct || bool_decide (ct = DNS) then username nd else "") = username nd ∧
  (if mailbox_type ct then password nd else "") = password nd.
Proof.
  pose proof (ln_creds _ Hok) as Hc. unfold creds_ok in Hc. destruct (mailbox_type ct); [done|]. simpl.
  case_bool_decide; naive_solver.
Qed.

Lemma overrides_read l name st :
  _apply_overrides l name (read_contact (read_label typed_node)) written_values st = Ok (nd, st).
Proof.
  rewrite read_label_eq, read_contact_eq by done. unfold _apply_overrides, mbind, M_bind.
  rewrite read_queuetime by done. rewrite read_numfailures by done. rewrite read_group by done. rewrite read_contact_on by done.
  rewrite read_source by done. rewrite read_counts by done. unfold typed_node. destruct typed_node_creds as [-> ->].
  pose proof (ln_group _ Hok) as Hg. pose proof (ln_children _ Hok) as Hc. destruct nd; simpl in *. by rewrite Hg, Hc.
Qed.

Lemma unsupported_none who attrs st :
  Forall (λ k, mem k _OBJECT_ATTRS = true) (akeys attrs) → warn_unsupported _OBJECT_ATTRS who attrs st = Ok (tt, st).
Proof.
  unfold warn_unsupported, akeys. induction attrs as [|[k [l v]] attrs IH]; [done|]. cbn [fmap list_fmap fst].
  intros [Hk Hrest]%Forall_cons. cbn [for_each]. rewrite Hk. unfold mbind, M_bind. cbn. by apply IH.
Qed.

Lemma known_keys : Forall (λ k, mem k _OBJECT_ATTRS = true) (fields nf nd parent).*1.
Proof. cbn. repeat constructor. Qed.

Definition written_deps : list string := match parent with Some p => [p] | None => [] end.

Lemma deps_read attrs st :
  Forall2 stored (present (fields nf nd parent)) attrs → vars st = ∅ → (∀ p, parent = Some p → p ≠ "") →
  ∃ st', (let '(dl, edges) := dep_edges attrs in collect_deps dl edges []) st = Ok (written_deps, st') ∧ mute st' = mute st.
Proof.
  intros Hs Hv Hp. pose proof (dep_edges_stored _ _ Hs (present_nodup _ fields_nodup)) as Hd.
  rewrite aget_present in Hd by apply fields_nodup. change (aget (fields nf nd parent) "dep") with (Some ((STRING,.) <$> parent)) in Hd.
  unfold written_deps. destruct parent as [p|]; cbn in Hd; [|rewrite Hd; by exists st].
  destruct Hd as (l & t & -> & <-). cbn [collect_deps]. unfold first_value, mbind, M_bind.
  destruct (calm_subst l (value t) st) as (r & st1 & -> & Hm & Hr). rewrite (Hr Hv). exists st1. split; [|done].
  rewrite bool_decide_eq_false_2 by by apply Hp. done.
Qed.

Lemma type_kw_read : aget Modern._TYPE_KEYWORDS (_TYPE_KW ct) = Some ct.
Proof. by destruct ct. Qed.

Lemma build_node_read l name attrs st :
  Forall2 stored (present (fields nf nd parent)) attrs → vars st = ∅ → (∀ p, parent = Some p → p ≠ "") →
  ∃ st', _build_node nf l name attrs st = Ok (Some (nd, written_deps), st') ∧ mute st' = mute st.
Proof.
  intros Hs Hv Hp. destruct (resolve_written _ _ Hs Hv) as (st1 & E1 & Hm1). unfold _build_node.
  unfold mbind at 1, M_bind at 1. rewrite E1. cbv zeta.
  assert (aget written_values "host" = Some (hostname nd)) as Vh by by rewrite (values_get "host" (Some (STRING, hostname nd))).
  assert (aget written_values "ip" = None) as Vi by by rewrite (values_get "ip" None).
  assert (aget written_values "type" = Some (_TYPE_KW ct)) as Vt by by rewrite (values_get "type" (Some (WORD, _TYPE_KW ct))).
  assert (get_str written_values "host" = hostname nd) as Gh by (unfold get_str; by rewrite Vh).
  destruct (nonempty_word _ (ln_host _ Hok)) as [_ Hne]. rewrite Gh, Hne, Vh, Vi, Vt. cbn [when].
  unfold mbind at 1, M_bind at 1, mret at 1, M_ret at 1. cbn [mbind option_bind]. rewrite type_kw_read, Hne.
  change (match DEFAULT_PORT ct with
          | Some p => ((new_node (hostname nd) ct) <| node_max_down := nf |>) <| port := p |>
          | None => (new_node (hostname nd) ct) <| node_max_down := nf |>
          end) with (base_node nf (hostname nd) ct).
  unfold mbind at 1, M_bind at 1. rewrite typed_read. cbv zeta.
  change (match aget written_values "desc" with Some d => typed_node <| label := d |> | None => typed_node end) with (read_label typed_node).
  change (match aget written_values "contact" with Some c => (read_label typed_node) <| contact := c |> | None => read_label typed_node end)
    with (read_contact (read_label typed_node)).
  unfold mbind at 1, M_bind at 1. rewrite overrides_read.
  unfold mbind at 1, M_bind at 1. rewrite unsupported_none.
  - destruct (deps_read attrs st1) as (st2 & E2 & Hm2); [done|by rewrite (mute_vars _ _ Hm1)|done|].
    destruct (dep_edges attrs) as [dl edges]. unfold mbind, M_bind. rewrite E2. exists st2. split; [done|]. by rewrite Hm2.
  - rewrite (stored_keys _ _ Hs). apply Forall_forall. intros k Hk%present_keys.
    by apply (proj1 (Forall_forall _ _) known_keys).
Qed.
End node.

(** ** An [object] statement *)

(** A written object that can be read back. *)
Record readable (w : written) : Prop := {
  rd_name : bare (w_name w) = true;
  rd_node : lnode_ok (w_node w);
  rd_rep : representable nf (w_node w) = true;
  rd_parent : ∀ p, w_parent w = Some p → bare p = true
}.

Definition deps_of (w : written) : list string := written_deps (w_parent w).

Definition add_obj (w : written) (l : Z) (ks : list string) (st : PState) : PState :=
  st <| object_index := <[w_name w := length (objects st)]> (object_index st) |>
     <| objects := objects st ++ [MkObj (w_name w) (w_node w) (deps_of w) l] |>
     <| object_attr_keys := <[w_name w := ks]> (object_attr_keys st) |>.

Lemma mute_add_obj w l ks st st' : mute st' = mute st → mute (add_obj w l ks st') = mute (add_obj w l ks st).
Proof. destruct st, st'. unfold mute, add_obj. simpl. intros [= -> -> -> -> -> -> -> ->]. done. Qed.

Lemma mute_index st st' : mute st' = mute st → object_index st' = object_index st.
Proof. intros H. apply (f_equal object_index) in H. by destruct st, st'. Qed.

Lemma add_object_read w l attrs st :
  readable w → Forall2 stored (w_fields nf w) attrs → vars st = ∅ → object_index st !! w_name w = None →
  ∃ st' ks, _add_object nf l (w_name w) attrs st = Ok (tt, st') ∧ mute st' = mute (add_obj w l ks st).
Proof.
  intros [Hb Hn Hr Hp] Hs Hv Hi.
  destruct (build_node_read (w_node w) (w_parent w) Hn Hr l (w_name w) attrs st) as (st1 & E & Hm); [done|done| |].
  { intros p Hpp%Hp Ep. by subst. }
  unfold _add_object. unfold mbind at 1, M_bind at 1. rewrite E. unfold mbind at 1, M_bind at 1, get.
  rewrite (mute_index _ _ Hm), Hi. cbn [given]. eexists _, (akeys attrs). split; [done|]. by apply (mute_add_obj w l (akeys attrs)).
Qed.

Lemma take_kind st k t rest :
  kind t = k → _take k (st <| toks := t :: rest |>) = Ok (true, st <| toks := rest |>).
Proof.
  intros Hs. unfold _take, _peek_kind, mbind, M_bind, get, advance, modify. rewrite toks_set. cbn [head fmap option_fmap option_map].
  rewrite Hs, bool_decide_eq_true_2 by done. by destruct st.
Qed.

Lemma take_word_read st t rest :
  kind t = WORD → _take_word (st <| toks := t :: rest |>) = Ok (Some (value t), st <| toks := rest |>).
Proof.
  intros Hs. unfold _take_word, _take_value, _peek_kind, mbind, M_bind, get, advance, modify. rewrite toks_set.
  cbn [head fmap option_fmap option_map]. rewrite Hs, bool_decide_eq_true_2 by apply list_elem_of_here. by destruct st.
Qed.

Definition kind_ok (o : option (TokenKind * string)) : Prop :=
  match o with Some v => v.1 = WORD ∨ v.1 = STRING | None => True end.

Lemma when_kind b x : x.1 = WORD ∨ x.1 = STRING → kind_ok (when_opt b x).
Proof. by destruct b. Qed.

Lemma fmap_kind {A} (f : A → TokenKind * string) o : (∀ a, (f a).1 = WORD ∨ (f a).1 = STRING) → kind_ok (f <$> o).
Proof. intros Hf. destruct o; [apply Hf|done]. Qed.

Lemma value_kinds w : Forall value_kind (w_fields nf w).
Proof.
  unfold w_fields. assert (∀ table, Forall (λ f, kind_ok f.2) table → Forall value_kind (present table)) as H.
  { induction 1 as [|[k [v|]] table Hv _ IH]; [constructor| |done]. by constructor. }
  apply H. unfold fields. cbv zeta. destruct (web_type _); repeat (apply Forall_cons; split); try apply Forall_nil; try done; cbn [snd];
    first [by left | by right | by apply when_kind; auto | apply fmap_kind; auto].
Qed.

Lemma statement_object w st ts rest :
  readable w → shape ts = w_shape nf w → toks st = ts ++ rest → vars st = ∅ → object_index st !! w_name w = None →
  ∃ st' l ks, _statement nf st = Ok (tt, st') ∧ mute st' = mute (add_obj w l ks (st <| toks := rest |>)).
Proof.
  intros Hw Hts Ht Hv Hi. unfold w_shape, object_shape in Hts. cbn [app] in Hts.
  apply shape_cons in Hts as (t & t1 & -> & Hk & Hval & Hts). apply shape_cons in Hts as (tn & t2 & -> & Hkn & Hvn & Hts).
  apply shape_cons in Hts as (tb & t3 & -> & Hkb & _ & Hts).
  pose proof (set_toks_id st _ Ht) as Est. cbn [app] in Est.
  unfold _statement. unfold mbind at 1, M_bind at 1, get. rewrite Ht. cbn [app]. rewrite Hk, Hval. cbn [negb].
  rewrite bool_decide_eq_true_2 by done. cbn [negb]. change (bool_decide ("object" = "config")) with false.
  change (bool_decide ("object" = "set")) with false. change (bool_decide ("object" = "root")) with false.
  rewrite bool_decide_eq_true_2 by done. rewrite <- Est. unfold advance, mbind at 1, M_bind at 1, modify.
  rewrite toks_set, set_toks_toks. cbn [tail]. unfold _object. unfold mbind at 1, M_bind at 1.
  rewrite take_word_read by done. rewrite Hvn. unfold mbind at 1, M_bind at 1. rewrite take_kind by done.
  destruct (collect_block (w_name w) (w_fields nf w) t3 rest st) as (attrs & Hb & Hs);
    [apply value_kinds|apply present_nodup, fields_nodup|done|].
  unfold mbind at 1, M_bind at 1. rewrite Hb. cbn [negb when]. unfold mbind, M_bind, mret, M_ret.
  rewrite set_toks_toks.
  destruct (add_object_read w (line t) attrs (st <| toks := rest |>)) as (st' & ks & E & Hm); [done|done|by destruct st|by destruct st|].
  rewrite E. eauto.
Qed.

(** ** All statements *)

Definition read_as (w : written) (o : obj) : Prop := o_name o = w_name w ∧ o_node o = w_node w ∧ o_deps o = deps_of w.

(** The state after the objects [ws]. *)
Record read_state (ws : list written) (st : PState) : Prop := {
  rs_vars : vars st = ∅;
  rs_groups : group_defaults st = ∅;
  rs_root : root_name st = None;
  rs_objs : Forall2 read_as ws (objects st);
  rs_idx : ∀ nm i, object_index st !! nm = Some i ↔ w_name <$> ws !! i = Some nm
}.

Lemma read_state_mute ws st st' : mute st' = mute st → read_state ws st → read_state ws st'.
Proof.
  destruct st as [s1 s2 s3 s4 s5 s6 s7 s8 s9 s10], st' as [r1 r2 r3 r4 r5 r6 r7 r8 r9 r10].
  unfold mute. simpl. intros [= -> -> -> -> -> -> -> ->] [H1 H2 H3 H4 H5]. by split.
Qed.

Lemma read_state_toks ws st ts : read_state ws st → read_state ws (st <| toks := ts |>).
Proof. intros [H1 H2 H3 H4 H5]. destruct st. by split. Qed.

Lemma read_state_add ws st w l ks :
  read_state ws st → w_name w ∉ w_name <$> ws → read_state (ws ++ [w]) (add_obj w l ks st).
Proof.
  intros [H1 H2 H3 H4 H5] Hn. pose proof (Forall2_length _ _ _ H4) as Hlen.
  destruct st as [s1 s2 s3 s4 s5 s6 s7 s8 s9 s10]; simpl in *. split; simpl; try done.
  - by apply Forall2_app; [|constructor; [|constructor]].
  - intros nm i. rewrite lookup_insert_Some, lookup_app, <- Hlen. split.
    + intros [[<- <-]|[Hne Hi%H5]]; [|by destruct (ws !! i)].
      rewrite (proj2 (lookup_ge_None _ _)), Nat.sub_diag by lia. done.
    + destruct (ws !! i) as [w'|] eqn:Ei; simpl.
      * intros [= <-]. right. split; [|by apply H5; rewrite Ei]. intros E. apply Hn. rewrite E.
        apply list_elem_of_fmap. exists w'. split; [done|]. by eapply list_elem_of_lookup_2.
      * intros H. left. apply lookup_ge_None in Ei. destruct (i - length ws)%nat as [|k] eqn:Ek; [|by destruct k].
        simpl in H. injection H as <-. split; [done|lia].
Qed.

Lemma statements_objects ws : ∀ fuel ws0 st ts,
  Forall readable ws → NoDup (w_name <$> ws0 ++ ws) → read_state ws0 st →
  toks st = ts → shape ts = mjoin (w_shape nf <$> ws) → (length ws <= fuel)%nat →
  ∃ st', statements nf fuel st = Ok (true, st') ∧ read_state (ws0 ++ ws) st' ∧ toks st' = [].
Proof.
  induction ws as [|w ws IH]; intros fuel ws0 st ts Hr Hnd Hst Ht Hts Hf.
  - cbn in Hts. apply fmap_nil_inv in Hts as ->. exists st. rewrite app_nil_r.
    destruct fuel; cbn [statements]; unfold mbind at 1, M_bind at 1, get; by rewrite Ht.
  - apply Forall_cons in Hr as [Hw Hr]. cbn [fmap list_fmap mjoin list_join] in Hts. apply shape_app in Hts as (t1 & t2 & -> & H1 & H2).
    destruct fuel as [|fuel]; simpl in Hf; [lia|].
    assert (w_name w ∉ w_name <$> ws0) as Hfresh.
    { rewrite fmap_app in Hnd. apply NoDup_app in Hnd as (_ & Hd & _). intros Hin. apply (Hd _ Hin). apply list_elem_of_here. }
    destruct (statement_object w st t1 t2) as (st1 & l & ks & E1 & Hm1); [done..|apply Hst| |].
    { destruct (object_index st !! w_name w) as [i|] eqn:Ei; [|done]. apply (rs_idx _ _ Hst) in Ei. destruct Hfresh.
      apply fmap_Some in Ei as (w' & Hw' & Ew). rewrite Ew. apply list_elem_of_fmap. exists w'. split; [done|]. by eapply list_elem_of_lookup_2. }
    destruct (IH fuel (ws0 ++ [w]) st1 t2) as (st' & E2 & Hs2 & Ht2); [done| | | |done|lia|].
    + by rewrite <- (assoc_L (++)).
    + eapply read_state_mute; [exact Hm1|]. apply read_state_add; [by apply read_state_toks|done].
    + apply (f_equal toks) in Hm1. by destruct st1, st.
    + exists st'. rewrite <- (assoc_L (++)) in Hs2. split; [|done]. cbn [statements]. unfold mbind at 1, M_bind at 1, get. rewrite Ht.
      destruct (t1 ++ t2) as [|t ts'] eqn:Et.
      { apply app_eq_nil in Et as [-> _]. done. }
      unfold mbind, M_bind. by rewrite E1.
Qed.

Lemma statements_all kss : ∀ fuel ws st ts,
  Forall config_shape kss → Forall readable ws → NoDup (w_name <$> ws) → read_state [] st →
  toks st = ts → shape ts = mjoin kss ++ mjoin (w_shape nf <$> ws) → (length kss + length ws <= fuel)%nat →
  ∃ st', statements nf fuel st = Ok (true, st') ∧ read_state ws st' ∧ toks st' = [].
Proof.
  induction kss as [|ks kss IH]; intros fuel ws st ts Hk Hr Hnd Hst Ht Hts Hf.
  - by apply (statements_objects ws fuel [] st ts).
  - apply Forall_cons in Hk as [Hks Hk]. cbn [mjoin list_join] in Hts. rewrite <- (assoc_L (++)) in Hts.
    apply shape_app in Hts as (t1 & t2 & -> & H1 & H2). destruct fuel as [|fuel]; simpl in Hf; [lia|].
    destruct (statement_config st ks t2 Hks t1 H1 Ht) as (st1 & E1 & Hm1).
    destruct (IH fuel ws st1 t2) as (st' & E2 & Hs2 & Ht2); [done..| | |done|lia|].
    + eapply read_state_mute; [exact Hm1|by apply read_state_toks].
    + apply (f_equal toks) in Hm1. by destruct st1, st.
    + exists st'. split; [|done]. cbn [statements]. unfold mbind at 1, M_bind at 1, get. rewrite Ht.
      destruct (t1 ++ t2) as [|t ts'] eqn:Et.
      { apply app_eq_nil in Et as [-> _]. destruct Hks as (body & -> & _). done. }
      unfold mbind, M_bind. by rewrite E1.
Qed.

(** No group is defined, so nothing is inherited. *)
Lemma resolve_nothing st : group_defaults st = ∅ → _resolve_group_defaults st = Ok (tt, st).
Proof.
  intros Hg. unfold _resolve_group_defaults, mbind, M_bind, get, modify.
  assert (∀ os, map_m resolve_one os st = Ok (os, st)) as ->.
  { induction os as [|o os IH]; [done|]. cbn [map_m]. unfold mbind, M_bind.
    assert (resolve_one o st = Ok (o, st)) as ->; [|by rewrite IH].
    unfold resolve_one, mbind, M_bind, get. rewrite Hg, lookup_empty. by destruct (bool_decide _). }
  by destruct st.
Qed.
End runs.
