(* ===== verification/ConvertLink.v ===== *)
(** * Linking the converted objects

    The objects of a converted forest come in preorder, each naming its parent; [_build_forest]
    gives them back the children and the roots of the forest. *)
From S2P Require Import Prelude Status Model Graph PyDict Lexer Modern ModernForest Legacy LegacySpec Convert ConvertText ConvertGlobals ConvertSpec.

(** ** Children by parent *)

(** The positions, from [n] on, whose parent is [p]. *)
Fixpoint kids (n : nid) (ps : list (option nid)) (p : option nid) : list nid :=
  match ps with
  | [] => []
  | q :: ps' => if bool_decide (q = p) then n :: kids (S n) ps' p else kids (S n) ps' p
  end.

Lemma kids_app n l l' p : kids n (l ++ l') p = kids n l p ++ kids (n + length l) l' p.
Proof.
  revert n. induction l as [|q l IH]; intros n; simpl; [by rewrite Nat.add_0_r|]. rewrite IH, Nat.add_succ_r. by case_bool_decide.
Qed.

Lemma kids_elem n l p c : c ∈ kids n l p ↔ (n <= c)%nat ∧ l !! (c - n)%nat = Some p.
Proof.
  revert n. induction l as [|q l IH]; intros n; simpl.
  { split; [by intros []%elem_of_nil|]. rewrite lookup_nil. by intros [_ ?]. }
  assert (c ∈ kids (S n) l p ↔ (n < c)%nat ∧ l !! (c - S n)%nat = Some p) as IH' by (rewrite IH; naive_solver lia).
  assert ((n < c)%nat → (q :: l) !! (c - n)%nat = l !! (c - S n)%nat) as Hc.
  { intros Hlt. replace (c - n)%nat with (S (c - S n)) by lia. done. }
  case_bool_decide as Hq.
  - rewrite elem_of_cons, IH'. split.
    + intros [->|[? ?]]; [rewrite Nat.sub_diag; simpl; split; [lia|by rewrite Hq]|]. rewrite Hc by done. split; [lia|done].
    + intros [Hle H]. destruct (decide (c = n)) as [?|?]; [by left|right]. rewrite Hc in H by lia. split; [lia|done].
  - rewrite IH'. split.
    + intros [? ?]. rewrite Hc by done. split; [lia|done].
    + intros [Hle H]. destruct (decide (c = n)) as [->|?]; [rewrite Nat.sub_diag in H; by injection H|].
      rewrite Hc in H by lia. split; [lia|done].
Qed.

Lemma kids_none n l p : p ∉ l → kids n l p = [].
Proof.
  revert n. induction l as [|q l IH]; intros n; [done|]. intros [Hne Hl]%not_elem_of_cons. simpl.
  rewrite bool_decide_eq_false_2 by done. by apply IH.
Qed.

(** ** The rows of a forest *)

(** Parents are the given one or inside. *)
Lemma rows_parents :
  (∀ t par n q, q ∈ (tree_rows par n t).*1 → q = par ∨ ∃ i, q = Some i ∧ (n <= i < n + tree_size t)%nat) ∧
  ∀ ts par n q, q ∈ (forest_rows par n ts).*1 → q = par ∨ ∃ i, q = Some i ∧ (n <= i < n + forest_size ts)%nat.
Proof.
  apply forest_ind.
  - intros nd ts IH par n q. rewrite tree_rows_eq. cbn. change (foldr Nat.add 0 (tree_size <$> ts))%nat with (forest_size ts).
    intros [->|H]%elem_of_cons; [by left|]. right.
    destruct (IH _ _ _ H) as [->|(i & -> & Hi)]; [exists n; split; [done|]|exists i; split; [done|]];
      change (list_sum (tree_size <$> ts)) with (forest_size ts); lia.
  - intros par n q []%elem_of_nil.
  - intros t ts IHt IHts par n q. cbn [forest_rows]. rewrite fmap_app. change (forest_size (t :: ts)) with (tree_size t + forest_size ts)%nat.
    intros [H|H]%elem_of_app; [destruct (IHt _ _ _ H) as [->|(i & -> & Hi)]|destruct (IHts _ _ _ H) as [->|(i & -> & Hi)]]; auto;
      right; exists i; (split; [done|lia]).
Qed.

(** The given parent's children are the roots of the trees. *)
Lemma rows_roots :
  (∀ t par n, (∀ i, par = Some i → (i < n)%nat) → kids n (tree_rows par n t).*1 par = [n]) ∧
  ∀ ts par n, (∀ i, par = Some i → (i < n)%nat) → kids n (forest_rows par n ts).*1 par = child_ids n ts.
Proof.
  apply forest_ind.
  - intros nd ts _ par n Hpar. rewrite tree_rows_eq. cbn. rewrite bool_decide_eq_true_2 by done. f_equal.
    apply kids_none. intros [->|(i & -> & Hi)]%(proj2 rows_parents); [specialize (Hpar n eq_refl); lia|].
    specialize (Hpar i eq_refl). lia.
  - done.
  - intros t ts IHt IHts par n Hpar. cbn [forest_rows child_ids]. rewrite fmap_app, kids_app, length_fmap, (proj1 rows_length), IHt by done.
    simpl. f_equal. apply IHts. intros i Hi. specialize (Hpar i Hi). lia.
Qed.

(** Every node's children are the rows below it. *)
Lemma rows_layout :
  (∀ t par n, (∀ i, par = Some i → (i < n)%nat) →
     layout n t = imap (λ i r, r.2 <| children := kids n (tree_rows par n t).*1 (Some (n + i)%nat) |>) (tree_rows par n t)) ∧
  ∀ ts par n, (∀ i, par = Some i → (i < n)%nat) →
     layouts n ts = imap (λ i r, r.2 <| children := kids n (forest_rows par n ts).*1 (Some (n + i)%nat) |>) (forest_rows par n ts).
Proof.
  apply forest_ind.
  - intros nd ts IH par n Hpar. rewrite layout_eq, tree_rows_eq. cbn [imap].
    assert (∀ i, (n <= i)%nat → kids n ((par, nd) :: forest_rows (Some n) (S n) ts).*1 (Some i) =
      kids (S n) (forest_rows (Some n) (S n) ts).*1 (Some i)) as Hk.
    { intros i Hi. cbn. rewrite bool_decide_eq_false_2; [done|]. intros E. specialize (Hpar i E). lia. }
    f_equal.
    + rewrite Nat.add_0_r, Hk by lia. rewrite (proj2 rows_roots) by (intros ? [= <-]; lia). done.
    + rewrite (IH (Some n) (S n)) by (intros ? [= <-]; lia). apply imap_ext. intros i r _. unfold compose. cbv beta. rewrite Hk by lia.
      by rewrite Nat.add_succ_r.
  - done.
  - intros t ts IHt IHts par n Hpar. cbn [layouts forest_rows]. rewrite imap_app.
    assert (∀ i, par = Some i → (i < n + tree_size t)%nat) as Hpar' by (intros i Hi; specialize (Hpar i Hi); lia).
    rewrite (IHt par n Hpar), (IHts par (n + tree_size t)%nat Hpar').
    assert (∀ p, kids n (tree_rows par n t ++ forest_rows par (n + tree_size t) ts).*1 p =
      kids n (tree_rows par n t).*1 p ++ kids (n + tree_size t) (forest_rows par (n + tree_size t) ts).*1 p) as Hk.
    { intros p. by rewrite fmap_app, kids_app, length_fmap, (proj1 rows_length). }
    f_equal; apply imap_ext; intros i r Hi; rewrite Hk; do 2 f_equal.
    + rewrite (kids_none (n + tree_size t)); [by rewrite app_nil_r|]. apply lookup_lt_Some in Hi. rewrite (proj1 rows_length) in Hi.
      intros [E|(j & [= <-] & Hj)]%(proj2 rows_parents); [|lia]. specialize (Hpar (n + i)%nat ltac:(done)). lia.
    + rewrite (proj1 rows_length). rewrite (kids_none n); [rewrite Nat.add_assoc; done|].
      intros [E|(j & [= <-] & Hj)]%(proj1 rows_parents); [|lia]. specialize (Hpar (n + (tree_size t + i))%nat ltac:(done)). lia.
Qed.

(** ** Linking *)

Section link.
Context (idx : gmap string nid) (rows : list row) (os : list obj).
(** Each object has its row's node and names its row's parent, which comes before it. *)
Context (Hrow : ∀ i par nd, rows !! i = Some (par, nd) → ∃ o, os !! i = Some o ∧ o_node o = nd ∧
  match par with
  | None => o_deps o = []
  | Some p => (p < i)%nat ∧ ∃ d, o_deps o = [d] ∧ idx !! d = Some p
  end).
Context (Hlen : length os = length rows).

Abbreviation ps := (rows.*1).

(** The store when the first [k] objects are linked. *)
Definition linked_store (k : nat) : gmap nid Node :=
  map_seq 0 (imap (λ i (r : row), r.2 <| children := children r.2 ++ kids 0 (take k ps) (Some i) |>) rows).

Lemma linked_lookup k i :
  linked_store k !! i = (λ r : row, r.2 <| children := children r.2 ++ kids 0 (take k ps) (Some i) |>) <$> rows !! i.
Proof. unfold linked_store. by rewrite lookup_map_seq_0, list_lookup_imap. Qed.

Lemma take_S_row k par nd : rows !! k = Some (par, nd) → take (S k) ps = take k ps ++ [par].
Proof. intros H. apply take_S_r. by rewrite list_lookup_fmap, H. Qed.

Lemma kids_snoc k par nd p :
  rows !! k = Some (par, nd) → kids 0 (take (S k) ps) p = kids 0 (take k ps) p ++ (if bool_decide (par = p) then [k] else []).
Proof.
  intros H. rewrite (take_S_row k par nd H), kids_app. f_equal. simpl.
  rewrite length_take, length_fmap, Nat.min_l by (apply lookup_lt_Some in H; lia). by case_bool_decide.
Qed.

Lemma no_kids_yet k : kids 0 (take k ps) (Some k) = [].
Proof.
  destruct (kids 0 (take k ps) (Some k)) as [|c l] eqn:E; [done|].
  assert (c ∈ kids 0 (take k ps) (Some k)) as Hc by (rewrite E; apply list_elem_of_here).
  apply kids_elem in Hc as [_ Hc]. rewrite Nat.sub_0_r in Hc. apply lookup_take_Some in Hc as [Hc Hlt].
  rewrite list_lookup_fmap in Hc. apply fmap_Some in Hc as ([par nd] & Hr & Hpar). simpl in Hpar. subst par.
  destruct (Hrow c _ _ Hr) as (o & _ & _ & Hp & _). lia.
Qed.

Lemma linked_step_none k nd : rows !! k = Some (None, nd) → linked_store (S k) = linked_store k.
Proof.
  intros H. apply map_eq. intros i. rewrite !linked_lookup. rewrite (kids_snoc _ _ _ _ H), bool_decide_eq_false_2 by done.
  by rewrite app_nil_r.
Qed.

Lemma linked_step_some k p nd : rows !! k = Some (Some p, nd) → linked_store (S k) = alter (add_child k) p (linked_store k).
Proof.
  intros H. apply map_eq. intros i. rewrite linked_lookup, (kids_snoc _ _ _ _ H). destruct (decide (p = i)) as [->|Hne].
  - rewrite lookup_alter_eq, linked_lookup, bool_decide_eq_true_2 by done. rewrite <- option_fmap_compose. apply option_fmap_ext.
    intros [q x]. unfold compose, add_child. destruct x. simpl. by rewrite (assoc_L (++)).
  - rewrite lookup_alter_ne, linked_lookup by done. rewrite bool_decide_eq_false_2 by congruence. by rewrite app_nil_r.
Qed.

Hypothesis Hnochild : ∀ i par nd, rows !! i = Some (par, nd) → children nd = [].

Lemma not_reached k p nd : rows !! k = Some (Some p, nd) → _reaches (linked_store k) k p = false.
Proof.
  intros H. apply not_true_iff_false. rewrite reaches_spec. intros Hr. destruct (Hrow k _ _ H) as (o & _ & _ & Hp & _).
  apply rtc_inv in Hr as [->|(c & (x & Hx & Hc) & _)]; [lia|]. rewrite linked_lookup, H in Hx. simpl in Hx. injection Hx as <-.
  rewrite no_kids_yet, app_nil_r in Hc. pose proof (Hnochild k _ _ H) as Hn. destruct nd; simpl in *. rewrite Hn in Hc. by apply elem_of_nil in Hc.
Qed.

Lemma link_all_rows k :
  (k <= length rows)%nat →
  link_all idx k (drop k os) (linked_store k) (kids 0 (take k ps) None) = (linked_store (length rows), kids 0 ps None).
Proof.
  intros Hk. remember (length rows - k)%nat as m eqn:Hm. revert k Hk Hm. induction m as [|m IH]; intros k Hk Hm.
  - assert (k = length rows) as -> by lia. rewrite drop_ge by lia. cbn [link_all]. rewrite take_ge by (rewrite length_fmap; lia). done.
  - assert (k < length rows)%nat as Hlt by lia. destruct (lookup_lt_is_Some_2 _ _ Hlt) as [[par nd] Hr].
    destruct (Hrow k _ _ Hr) as (o & Ho & _ & Hd). rewrite (drop_S _ _ _ Ho). cbn [link_all].
    specialize (IH (S k) ltac:(lia) ltac:(lia)). rewrite (kids_snoc _ _ _ _ Hr) in IH.
    destruct par as [p|].
    + destruct Hd as (Hp & d & -> & Hi). cbn [link_edges]. rewrite Hi, (not_reached _ _ _ Hr), <- (linked_step_some _ _ _ Hr).
      rewrite bool_decide_eq_false_2, app_nil_r in IH by done. exact IH.
    + rewrite Hd. cbn [link_edges]. rewrite <- (linked_step_none _ _ Hr). exact IH.
Qed.
End link.

(** ** The round trip *)

Lemma rows_before :
  (∀ t par n i q nd, (∀ j, par = Some j → (j < n)%nat) → tree_rows par n t !! i = Some (Some q, nd) → (q < n + i)%nat) ∧
  ∀ ts par n i q nd, (∀ j, par = Some j → (j < n)%nat) → forest_rows par n ts !! i = Some (Some q, nd) → (q < n + i)%nat.
Proof.
  apply forest_ind.
  - intros nd ts IH par n [|i] q nd' Hpar; rewrite tree_rows_eq; simpl.
    + intros [= -> ->]. specialize (Hpar q eq_refl). lia.
    + intros Hi. specialize (IH (Some n) (S n) i q nd'). assert (q < S n + i)%nat; [|lia]. apply IH; [|done]. intros ? [= <-]. lia.
  - done.
  - intros t ts IHt IHts par n i q nd Hpar. simpl. intros [Hi|[Hl Hi]]%lookup_app_Some; [by eapply IHt|].
    rewrite (proj1 rows_length) in *. assert (q < n + tree_size t + (i - tree_size t))%nat; [|lia]. eapply IHts; [|done].
    intros j Hj. specialize (Hpar j Hj). lia.
Qed.

Lemma rows_nodes :
  (∀ t d par n, tree_ok d t → Forall (λ r : row, lnode_ok r.2) (tree_rows par n t)) ∧
  ∀ ts d par n, Forall (tree_ok d) ts → Forall (λ r : row, lnode_ok r.2) (forest_rows par n ts).
Proof.
  apply forest_ind.
  - intros nd ts IH d par n Hok. inversion Hok as [? ? ? _ Hn _ Hts]; subst. rewrite tree_rows_eq. constructor; [done|]. by eapply IH.
  - constructor.
  - intros t ts IHt IHts d par n [Ht Hts]%Forall_cons. simpl. apply Forall_app. split; [by eapply IHt|by eapply IHts].
Qed.

Lemma representable_children nf nd cs : representable nf (nd <| children := cs |>) = representable nf nd.
Proof. by destruct nd. Qed.

Section roundtrip.
Context (nf : Z) (ts : list tree) (Hts : Forall (tree_ok 0) ts).
Context (Hrep : ∀ n nd, forest_store ts !! n = Some nd → representable nf nd = true).

Abbreviation rows := (forest_rows None 0 ts).

Lemma rows_ok : Forall (row_ok nf) rows.
Proof.
  apply Forall_lookup. intros i [par nd] Hi. split; [by apply (Forall_lookup_1 _ _ _ _ (proj2 rows_nodes ts 0 None 0%nat Hts) Hi)|].
  simpl. assert (forest_store ts !! i = Some (nd <| children := kids 0 rows.*1 (Some i) |>)) as Hn.
  { rewrite forest_lookup, (proj2 rows_layout ts None 0%nat) by done. rewrite list_lookup_imap, Hi. done. }
  apply Hrep in Hn. by rewrite representable_children in Hn.
Qed.

Lemma rows_readable : Forall (readable nf) (named [] rows).
Proof.
  assert (∀ l rs, Forall (row_ok nf) rs → Forall (λ s, bare s = true) l → Forall (readable nf) (named l rs)) as H.
  { intros l rs Hrs. revert l. induction Hrs as [|[par nd] rs [Hn Hr] _ IH]; intros l Hl; [constructor|]. cbn [named]. constructor.
    - split; [apply bare_pick|done|done|]. intros p. destruct par as [i|]; [|done]. simpl. intros Hp. by eapply Forall_lookup_1 in Hl.
    - apply IH, Forall_app. split; [done|]. apply Forall_singleton, bare_pick. }
  apply H; [apply rows_ok|constructor].
Qed.

(** The objects read back fit the rows. *)
Lemma objects_fit st :
  read_state (named [] rows) st →
  length (objects st) = length rows ∧
  ∀ i par nd, rows !! i = Some (par, nd) → ∃ o, objects st !! i = Some o ∧ o_node o = nd ∧
    match par with
    | None => o_deps o = []
    | Some p => (p < i)%nat ∧ ∃ d, o_deps o = [d] ∧ object_index st !! d = Some p
    end.
Proof.
  intros [_ _ _ Hobjs Hidx]. pose proof (Forall2_length _ _ _ Hobjs) as Hl. rewrite named_length in Hl. split; [done|].
  intros i par nd Hi.
  assert (∀ p, par = Some p → (p < i)%nat) as Hbefore.
  { intros p ->. by apply (proj2 rows_before ts None 0%nat i p nd). }
  destruct (named_lookup [] rows i par nd Hi) as (w & Hw & Hnd & Hpar); [done|].
  destruct (Forall2_lookup_l _ _ _ _ _ Hobjs Hw) as (o & Ho & _ & Hon & Hod). exists o. split; [done|]. split; [congruence|].
  rewrite Hod. unfold deps_of, written_deps. rewrite Hpar. destruct par as [p|]; [|done]. simpl. specialize (Hbefore p eq_refl).
  split; [done|]. assert (is_Some ((w_name <$> named [] rows) !! p)) as [d Hd].
  { apply lookup_lt_is_Some. rewrite length_fmap, named_length. apply lookup_lt_Some in Hi. lia. }
  rewrite Hd. exists d. split; [done|]. apply Hidx. by rewrite <- list_lookup_fmap.
Qed.

Lemma build_back st :
  read_state (named [] rows) st →
  ∃ st', _build_forest st = Ok ((forest_store ts, forest_roots ts), st') ∧ unwarned st' = unwarned st.
Proof.
  intros Hst. destruct (objects_fit st Hst) as [Hlen Hrow]. unfold _build_forest, mbind, M_bind, get.
  rewrite (rs_root _ _ Hst). cbn. destruct (link_objects_run 0 (objects st) (store_of (objects st)) [] st) as (st' & -> & Hu).
  exists st'. split; [|done]. do 2 f_equal.
  assert (∀ i par nd, rows !! i = Some (par, nd) → children nd = []) as Hnc.
  { intros i par nd Hi. apply (ln_children nd). exact (Forall_lookup_1 _ _ _ _ (proj2 rows_nodes ts 0 None 0%nat Hts) Hi). }
  pose proof (link_all_rows (object_index st) rows (objects st) Hrow Hlen Hnc 0 ltac:(lia)) as HL.
  rewrite take_0, drop_0 in HL. cbn [kids] in HL.
  assert (linked_store rows 0 = store_of (objects st)) as E0.
  { apply map_eq. intros i. rewrite linked_lookup. unfold store_of. rewrite lookup_map_seq_0, list_lookup_fmap.
    destruct (rows !! i) as [[par nd]|] eqn:Ei.
    - destruct (Hrow i par nd Ei) as (o & -> & <- & _). simpl. rewrite app_nil_r. by destruct (o_node o).
    - apply lookup_ge_None in Ei. by rewrite (proj2 (lookup_ge_None _ _)) by lia. }
  rewrite E0 in HL. rewrite HL. f_equal.
  - apply map_eq. intros i. rewrite linked_lookup, forest_lookup, (proj2 rows_layout ts None 0%nat), list_lookup_imap by done.
    destruct (rows !! i) as [[par nd]|] eqn:Ei; [|done]. simpl. rewrite (Hnc _ _ _ Ei), take_ge by (rewrite length_fmap; lia). done.
  - by apply (proj2 rows_roots ts None 0%nat).
Qed.

Lemma read_back modern kss :
  Forall config_shape kss → lexes true modern (mjoin kss ++ mjoin (w_shape nf <$> named [] rows)) →
  ∃ r, parse nf modern = Some (Ok r) ∧ pr_store r = forest_store ts ∧ pr_roots r = forest_roots ts.
Proof.
  intros Hk Hlex. destruct (Hlex 1 (String.length modern) (le_n _)) as (tks & Et & Hsh). unfold parse, tokenize. rewrite Et.
  assert (length kss + length (named [] rows) <= length tks)%nat as Hfuel.
  { rewrite <- (length_fmap (λ t, (kind t, value t)) tks). fold (shape tks). rewrite Hsh, length_app. apply Nat.add_le_mono.
    - clear -Hk. induction Hk as [|ks kss (body & -> & _) _ IH]; [done|].
      cbn [mjoin list_join]. rewrite length_app. simpl. unfold mjoin in *. lia.
    - generalize (named [] rows). intros ws. induction ws as [|w ws IH]; [done|].
      change (mjoin (w_shape nf <$> w :: ws)) with (w_shape nf w ++ mjoin (w_shape nf <$> ws)). rewrite length_app. simpl. lia. }
  destruct (statements_all nf kss (length tks) (named [] rows) (parser_init tks) tks) as (st1 & E1 & Hst1 & Ht1); try done.
  { apply rows_readable. }
  { apply (named_names_fresh [] rows). constructor. }
  unfold parse_top. unfold mbind at 1 2, M_bind at 1 2, get at 1. change (length (toks (parser_init tks))) with (length tks). rewrite E1.
  unfold mbind at 1, M_bind at 1. rewrite resolve_nothing by apply Hst1. unfold mbind at 1, M_bind at 1.
  destruct (build_back st1 Hst1) as (st2 & -> & _). cbn. eexists. split; [done|]. done.
Qed.
End roundtrip.



(** Where the contract fails: the legacy parser takes a [min_pings] above [send_pings] (the check
    clamps it), the converter writes both without a warning, and the modern parser drops both. *)
Example convert_loses_ping_counts :
  let text := unlines ["config send_pings 2"; "config min_pings 3"; "h ping l"] in
  match convert 2 text, legacy_parse 2 text with
  | Some (Ok (modern, warns)), Some (Ok l) =>
      match parse 2 modern with
      | Some (Ok r) =>
          (warns, (λ nd, (send_pings nd, min_pings nd)) <$> layouts 0 (lr_roots l),
           (λ nd, (send_pings nd, min_pings nd)) <$> (pr_store r !! 0%nat)) =
          ([], [(Some 2, Some 3)], Some (None, None))
      | _ => False
      end
  | _, _ => False
  end.
Proof. vm_compute. reflexivity. Qed.
