(* ===== verification/ConvertMain.v ===== *)
(** * The converter's command line (main of src/psysmon/config/convert.py)

    The namespace is the one argparse builds; reading the input and writing the output are
    answers of the system.  A byte-order mark is not an 8-bit character, so taking it off the
    front of the text does nothing here. *)
From S2P Require Import Prelude Model PyStr Modern Legacy LegacySpec Convert ConvertText ConvertGlobals ConvertSpec ConvertLink.

Record convert_args : Type := MkConvertArgs { ca_input : string; ca_output : option string; ca_numfailures : Z }.

(** [int] default of the option. *)
Definition default_args (input : string) : convert_args := MkConvertArgs input None 2.

(** What the command leaves: the exit status, the lines on the error stream, the text on the
    output stream, the file written. *)
Record convert_result : Type := MkConvertResult {
  cr_exit : Z;
  cr_errors : list string;
  cr_stdout : string;
  cr_file : option (string * string)
}.

(** [read] is the input or what reading it raises, as text; [perror_text] the text of a parse
    error; [write_ok] whether the output can be written, or the error.  [None] where [convert]
    does not answer. *)
Definition convert_main (stdin read : string + string) (write_error : option string) (perror_text : perror → string)
    (args : convert_args) : option convert_result :=
  let failed e := MkConvertResult 1 ["psysmon: " +:+ e] "" None in
  match (if bool_decide (ca_input args = "-") then stdin else read) with
  | inr e => Some (failed e)
  | inl text =>
      match convert (ca_numfailures args) text with
      | None => None
      | Some (Raise e) => Some (failed (perror_text e))
      | Some (Ok (modern, warnings)) =>
          let shown := (λ w, "warning: " +:+ w) <$> warnings in
          match ca_output args with
          | Some out =>
              if bool_decide (out = "") then Some (MkConvertResult 0 shown modern None)
              else match write_error with
                   | Some e => Some (failed e)
                   | None => Some (MkConvertResult 0 shown "" (Some (out, modern)))
                   end
          | None => Some (MkConvertResult 0 shown modern None)
          end
      end
  end.

(** The command answers whenever [convert] does; status 0 means that exactly the converted text
    is on the output stream or in the file, never both, with every warning shown; any other
    outcome is status 1, one line of error, and no output at all. *)
Theorem convert_main_exact (stdin read : string + string) (write_error : option string) (perror_text : perror → string)
    (args : convert_args) (r : convert_result)
    (Hr : convert_main stdin read write_error perror_text args = Some r) :
  (cr_exit r = 0 ∧ ∃ text modern warnings,
     (if bool_decide (ca_input args = "-") then stdin else read) = inl text ∧
     convert (ca_numfailures args) text = Some (Ok (modern, warnings)) ∧
     cr_errors r = (λ w, "warning: " +:+ w) <$> warnings ∧
     ((cr_stdout r = modern ∧ cr_file r = None ∧ (ca_output args = None ∨ ca_output args = Some "")) ∨
      ∃ out, ca_output args = Some out ∧ out ≠ "" ∧ cr_stdout r = "" ∧ cr_file r = Some (out, modern))) ∨
  (cr_exit r = 1 ∧ cr_stdout r = "" ∧ cr_file r = None ∧ ∃ e, cr_errors r = ["psysmon: " +:+ e]).
Proof.
  unfold convert_main in Hr. destruct (if bool_decide _ then stdin else read) as [text|e]; [|simplify_eq/=; right; eauto].
  destruct (convert _ text) as [[[modern warnings]|e]|] eqn:Ec; [|simplify_eq/=; right; eauto|done].
  destruct (ca_output args) as [out|]; [|simplify_eq/=; left; eauto 12].
  case_bool_decide as Ho; [simplify_eq/=; left; eauto 12|].
  destruct write_error as [e|]; simplify_eq/=; [right; eauto|]. left. split; [done|]. exists text, modern, warnings. eauto 12.
Qed.

Example convert_main_ex :
  convert_main (inr "closed") (inl (unlines ["gw ping router ops"])) None (λ _, "") (default_args "a.conf") =
  match convert 2 (unlines ["gw ping router ops"]) with
  | Some (Ok (modern, ws)) => Some (MkConvertResult 0 ((λ w, "warning: " +:+ w) <$> ws) modern None)
  | _ => None
  end.
Proof. vm_compute. reflexivity. Qed.
