(* ===== verification/JsonOut.v ===== *)
(** * The JSON status document (src/psysmon/output/jsonout.py)

    [json.dumps] is the identity on the values, as for the state file: [to_json] is the
    document as a value. *)
From S2P Require Import Prelude Status Model StateMachine PingPool Graph Gate Flatten Scheduler Json SchedOps.

(** [x or None] for strings and floats. *)
Definition str_or_null (s : string) : json := if bool_decide (s = "") then JNull else JStr s.
Definition float_or_null (q : Q) : json := if Qeqb q 0 then JNull else JFloat q.

Definition note_json (n : option string) : json :=
  match n with Some s => JStr s | None => JNull end.

Definition _host (nd : Node) (st : NodeState) : dict :=
  [("hostname", JStr (hostname nd));
   ("type", JStr (ct_value (check_type nd)));
   ("port", JInt (port nd));
   ("label", JStr (label nd));
   ("contact", JStr (contact nd));
   ("group", str_or_null (group nd));
   ("up", JBool (is_up (lastcheck st)));
   ("degraded", JBool (lastcheck st =? DEGRADED));
   ("status", JInt (lastcheck st));
   ("status_text", JStr (errtostr (lastcheck st)));
   ("count", JInt (downct st));
   ("notified", JBool (contacted st));
   ("acked", JBool (acked st));
   ("note", note_json (note st));
   ("suppressed", JBool (suppressed st));
   ("down_parents", JArr (JStr <$> down_parents st));
   ("deathtime", float_or_null (deathtime st));
   ("last_up", float_or_null (last_up st))].

(** [not h["up"] and not h["suppressed"]] *)
Definition host_down (h : dict) : bool :=
  match get_or_none h "up", get_or_none h "suppressed" with
  | JBool u, JBool s => negb u && negb s
  | _, _ => false
  end.

Definition to_json (node_states : list (Node * NodeState)) (now_wall : Q) : json :=
  let hosts := (λ '(nd, st), _host nd st) <$> node_states in
  JObj [("generated", JFloat now_wall);
        ("down", JInt (Z.of_nat (length (filter (λ h, host_down h = true) hosts))));
        ("total", JInt (Z.of_nat (length hosts)));
        ("hosts", JArr (JObj <$> hosts))].

(** A host counts as down in the document exactly when its state is not up and it is not
    suppressed by a parent. *)
Lemma host_down_spec nd st :
  host_down (_host nd st) = negb (is_up (lastcheck st)) && negb (suppressed st).
Proof. reflexivity. Qed.
