(* ===== verification/Control.v ===== *)
(** * The control channel (src/psysmon/control/server.py, auth.py)

    [start] decides whether the channel may open; [_handle] is split at its awaits into
    [conn_accept], [conn_request], [conn_flushed] and [conn_cancelled]; [_dispatch] and the
    command handlers run without awaiting and act on the scheduler of [Scheduler.v].  What
    the operating system, the resolver and the TLS library answer are arguments.  The text
    of a request is identified with the JSON value it denotes. *)
From S2P Require Import Prelude Status Model StateMachine PingPool Graph Gate Flatten Scheduler Json SchedOps Settings PyStr JsonOut.

(** ** The bearer token (auth.py) *)

Definition _MAX_TOKEN_LEN : Z := 4096.

Definition slen (s : string) : Z := Z.of_nat (String.length s).

(** An opened token file: its mode bits, whether it can be read, its size and its text,
    [None] when its bytes are not UTF-8. *)
Record token_file : Type :=
  MkTokenFile { st_mode : Z; tf_readable : bool; tf_size : Z; tf_text : option string }.

(** What [start] raises; [StartOSError] is an [OSError] nobody translates. *)
Inductive control_error : Type := TokenError | ControlError | StartOSError.

#[export] Instance control_error_eq_dec : EqDecision control_error.
Proof. solve_decision. Defined.

(** [load_token]; [opened] is [None] when [os.open] fails, as it does on a symbolic link;
    [posix] is [os.name == "posix"]. *)
Definition load_token (posix : bool) (opened : option token_file) : res control_error string :=
  match opened with
  | None => Raise TokenError
  | Some f =>
      if posix && negb (Z.land (st_mode f) 63 =? 0) then Raise TokenError
      else if negb (tf_readable f) then Raise StartOSError
      else if _MAX_TOKEN_LEN <? tf_size f then Raise TokenError
      else match tf_text f with
           | None => Raise TokenError
           | Some text => let token := strip text in
                          if bool_decide (token = "") then Raise TokenError else Ok token
           end
  end.

(** [hmac.compare_digest] on two [str]: both must be ASCII. *)
Definition compare_digest (a b : string) : res pyexn bool :=
  if is_ascii a && is_ascii b then Ok (bool_decide (a = b)) else Raise TypeError.

Definition token_matches (provided : json) (expected : string) : res pyexn bool :=
  match provided with
  | JStr s => if _MAX_TOKEN_LEN <? slen s then Ok false else compare_digest s expected
  | _ => Ok false
  end.

(** ** Binding *)

Inductive ip_address : Type := IPv4Address (a : Z) | IPv6Address (a : Z).

Definition is_loopback (ip : ip_address) : bool :=
  match ip with
  | IPv4Address a => Z.shiftr a 24 =? 127
  | IPv6Address a => a =? 1
  end.

(** [ip.ipv4_mapped or ip]: an address of ::ffff:0:0/96 stands for an IPv4 address. *)
Definition unmap (ip : ip_address) : ip_address :=
  match ip with
  | IPv6Address a => if Z.shiftr a 32 =? 65535 then IPv4Address (Z.land a (Z.ones 32)) else ip
  | IPv4Address _ => ip
  end.

(** [infos] is the answer of [getaddrinfo]: [None] when it raises. *)
Definition _all_loopback (infos : option (list ip_address)) : res control_error bool :=
  match infos with
  | None => Raise ControlError
  | Some [] => Raise ControlError
  | Some addrs => Ok (forallb (λ ip, is_loopback (unmap ip)) addrs)
  end.

(** Whether a TLS context is built; [chain_ok] is whether [load_cert_chain] succeeds. *)
Definition _build_tls (cert key : json) (chain_ok : bool) : res control_error bool :=
  if negb (truthy cert) && negb (truthy key) then Ok false
  else if negb (truthy cert && truthy key) then Raise ControlError
  else if chain_ok then Ok true else Raise ControlError.

(** ** The server *)

(** A connection between two awaits: reading its request, or flushing its reply. *)
Inductive conn : Type := CReading | CFlushing.

Abbreviation connid := nat.

Record ControlServer : Type := MkServer {
  _scheduler : Scheduler;
  _reload_flag : bool;
  _token : option string;
  _listening : option bool;
  _conns : gmap connid conn;
  _active : Z;
  replies : list (connid * dict)
}.

#[export] Instance set__scheduler : SetField _scheduler := λ f x,
  let '(MkServer a b c d e g h) := x in MkServer (f a) b c d e g h.
#[export] Instance set__reload_flag : SetField _reload_flag := λ f x,
  let '(MkServer a b c d e g h) := x in MkServer a (f b) c d e g h.
#[export] Instance set__token : SetField _token := λ f x,
  let '(MkServer a b c d e g h) := x in MkServer a b (f c) d e g h.
#[export] Instance set__listening : SetField _listening := λ f x,
  let '(MkServer a b c d e g h) := x in MkServer a b c (f d) e g h.
#[export] Instance set__conns : SetField _conns := λ f x,
  let '(MkServer a b c d e g h) := x in MkServer a b c d (f e) g h.
#[export] Instance set__active : SetField _active := λ f x,
  let '(MkServer a b c d e g h) := x in MkServer a b c d e (f g) h.
#[export] Instance set_replies : SetField replies := λ f x,
  let '(MkServer a b c d e g h) := x in MkServer a b c d e g (f h).

Definition server_init (sch : Scheduler) (flag : bool) : ControlServer :=
  MkServer sch flag None None ∅ 0 [].

(** What [start] asks of its environment. *)
Record start_env : Type := MkStartEnv {
  se_infos : option (list ip_address);
  se_chain_ok : bool;
  se_posix : bool;
  se_token_file : option token_file;
  se_bind_ok : bool
}.

Definition setting (s : Settings) (k : string) : json := default JNull (s !! k).

(** [start]: the token and the listening socket are set only on the way out. *)
Definition start (s : Settings) (e : start_env) (srv : ControlServer)
    : ControlServer * res control_error unit :=
  match _all_loopback (se_infos e) with
  | Raise x => (srv, Raise x)
  | Ok loopback =>
      match _build_tls (setting s "control_tls_cert") (setting s "control_tls_key") (se_chain_ok e) with
      | Raise x => (srv, Raise x)
      | Ok tls =>
          if negb loopback && negb tls then (srv, Raise ControlError)
          else
            let loaded :=
              if truthy (setting s "control_token_file")
              then match load_token (se_posix e) (se_token_file e) with
                   | Ok t => Ok (Some t)
                   | Raise x => Raise x
                   end
              else Ok (_token srv) in
            match loaded with
            | Raise x => (srv, Raise x)
            | Ok tok =>
                let srv1 := srv <| _token := tok |> in
                if se_bind_ok e then (srv1 <| _listening := Some tls |>, Ok tt)
                else (srv1, Raise StartOSError)
            end
      end
  end.

(** ** Commands *)

Definition error_reply (e : string) : dict := [("ok", JBool false); ("error", JStr e)].

Definition matched_reply (n : nat) : dict :=
  if bool_decide (n = 0%nat) then error_reply "not_found"
  else [("ok", JBool true); ("matched", JInt (Z.of_nat n))].

(** [_object_key] *)
Definition _object_key (req : dict) : option (string * string * Z) :=
  match get_or_none req "object" with
  | JObj obj =>
      match get_or_none obj "hostname", get_or_none obj "type", default (JInt 0) (dict_get obj "port") with
      | JStr host, JStr type_value, JInt port => Some (host, type_value, port)
      | _, _, _ => None
      end
  | _ => None
  end.

Section commands.
Context (version : string).

Definition handler : Type := ControlServer → dict → Q → ControlServer * res pyexn dict.

Definition _cmd_status : handler := λ srv req now,
  let '(sch, states) := node_states (_scheduler srv) in
  (srv <| _scheduler := sch |>, Ok [("ok", JBool true); ("status", to_json states now)]).

Definition _cmd_version : handler := λ srv req now,
  (srv, Ok [("ok", JBool true); ("version", JStr version)]).

Definition _cmd_ack : handler := λ srv req now,
  match _object_key req with
  | None => (srv, Ok (error_reply "bad_request"))
  | Some (h, ty, p) =>
      let '(sch, n) := ack h ty p (_scheduler srv) in
      (srv <| _scheduler := sch |>, Ok (matched_reply n))
  end.

(** [text is not None and not isinstance(text, str)] is the [None] of this function. *)
Definition note_text (j : json) : option (option string) :=
  match j with JNull => Some None | JStr s => Some (Some s) | _ => None end.

Definition _cmd_note : handler := λ srv req now,
  match _object_key req, note_text (get_or_none req "text") with
  | Some (h, ty, p), Some text =>
      let '(sch, n) := set_note h ty p text (_scheduler srv) in
      (srv <| _scheduler := sch |>, Ok (matched_reply n))
  | _, _ => (srv, Ok (error_reply "bad_request"))
  end.

Definition _cmd_reload : handler := λ srv req now,
  (srv <| _reload_flag := true |>, Ok [("ok", JBool true)]).

(** The command table: the handler, and whether it requires the token. *)
Definition _COMMANDS (cmd : string) : option (handler * bool) :=
  if bool_decide (cmd = "status") then Some (_cmd_status, false)
  else if bool_decide (cmd = "version") then Some (_cmd_version, false)
  else if bool_decide (cmd = "ack") then Some (_cmd_ack, true)
  else if bool_decide (cmd = "note") then Some (_cmd_note, true)
  else if bool_decide (cmd = "reload") then Some (_cmd_reload, true)
  else None.

(** [return handler(self, req)] under its [try]. *)
Definition run_handler (h : handler) (srv : ControlServer) (req : dict) (now : Q)
    : ControlServer * res pyexn dict :=
  match h srv req now with
  | (srv', Ok resp) => (srv', Ok resp)
  | (srv', Raise _) => (srv', Ok (error_reply "internal_error"))
  end.

(** [_dispatch]: the token check is outside the [try], so its exception leaves. *)
Definition _dispatch (srv : ControlServer) (req : dict) (now : Q) : ControlServer * res pyexn dict :=
  let entry := match get_or_none req "cmd" with JStr cmd => _COMMANDS cmd | _ => None end in
  match entry with
  | None => (srv, Ok (error_reply "unknown_command"))
  | Some (h, requires_token) =>
      if requires_token then
        match _token srv with
        | None => (srv, Ok (error_reply "mutations_disabled"))
        | Some expected =>
            match token_matches (get_or_none req "token") expected with
            | Raise e => (srv, Raise e)
            | Ok false => (srv, Ok (error_reply "unauthorized"))
            | Ok true => run_handler h srv req now
            end
        end
      else run_handler h srv req now
  end.

(** ** Connections *)

Definition _MAX_CONNS : Z := 32.

(** What the read ends with: a failure (the deadline, a line over the limit, the end of the
    stream, an I/O error), a line that is not JSON, or a value. *)
Inductive request : Type := ReqFailed | ReqNotJson | ReqJson (j : json).

Definition _read_request (srv : ControlServer) (r : request) (now : Q) : ControlServer * res pyexn dict :=
  match r with
  | ReqJson (JObj req) => _dispatch srv req now
  | _ => (srv, Ok (error_reply "bad_request"))
  end.

(** [writer.write]: the reply is handed to the transport. *)
Definition _write (id : connid) (resp : dict) (srv : ControlServer) : ControlServer :=
  srv <| replies := (id, resp) :: replies srv |>.

(** The [finally] of [_handle]. *)
Definition conn_close (id : connid) (srv : ControlServer) : ControlServer :=
  srv <| _active := _active srv - 1 |> <| _conns := delete id (_conns srv) |>.

(** [_handle] up to the read. *)
Definition conn_accept (id : connid) (srv : ControlServer) : ControlServer :=
  if _MAX_CONNS <=? _active srv then _write id (error_reply "busy") srv
  else srv <| _active := _active srv + 1 |> <| _conns := <[id := CReading]> (_conns srv) |>.

(** The request is read and answered; an exception closes the connection without a reply. *)
Definition conn_request (id : connid) (r : request) (now : Q) (srv : ControlServer) : option ControlServer :=
  match _conns srv !! id with
  | Some CReading =>
      Some (match _read_request srv r now with
            | (srv', Ok resp) => _write id resp srv' <| _conns := <[id := CFlushing]> (_conns srv') |>
            | (srv', Raise _) => conn_close id srv'
            end)
  | _ => None
  end.

(** The reply is flushed, or its deadline passes, or the transport fails. *)
Definition conn_flushed (id : connid) (srv : ControlServer) : option ControlServer :=
  match _conns srv !! id with
  | Some CFlushing => Some (conn_close id srv)
  | _ => None
  end.

(** [stop] cancels a connection wherever it awaits. *)
Definition conn_cancelled (id : connid) (srv : ControlServer) : option ControlServer :=
  match _conns srv !! id with
  | Some _ => Some (conn_close id srv)
  | None => None
  end.

(** A step of the channel; [sstep_engine] is the scheduler acting in between. *)
Inductive sstep : ControlServer → ControlServer → Prop :=
| sstep_accept id srv : _conns srv !! id = None → sstep srv (conn_accept id srv)
| sstep_request id r now srv srv' : conn_request id r now srv = Some srv' → sstep srv srv'
| sstep_flushed id srv srv' : conn_flushed id srv = Some srv' → sstep srv srv'
| sstep_cancelled id srv srv' : conn_cancelled id srv = Some srv' → sstep srv srv'
| sstep_engine sch flag srv : sstep srv (srv <| _scheduler := sch |> <| _reload_flag := flag |>).

End commands.
