(* ===== verification/ControlSpec.v ===== *)
(** * Properties of the control channel

    Authorisation, what an operator command does, what a reply can reveal, when the channel
    opens, and how many connections it holds. *)
From Stdlib Require Import Ascii.
From S2P Require Import Prelude Status Model StateMachine PingPool Graph Gate Flatten Scheduler Json SchedOps SchedInv SchedRun SchedReload Settings PyStr JsonOut Control.

(** ** The scheduler's operations under a map of its objects *)

Definition map_objs (φ : _Scheduled → _Scheduled) (sch : Scheduler) : Scheduler :=
  sch <| objs := φ <$> objs sch |>.

Lemma objs_map_objs φ sch : objs (map_objs φ sch) = φ <$> objs sch.
Proof. by destruct sch. Qed.

Lemma live_objs_map φ sch :
  live_objs (map_objs φ sch) = (λ '(s, o), (s, φ o)) <$> live_objs sch.
Proof.
  unfold live_objs. destruct sch as [ob ns sc]; simpl. induction sc as [|s sc IH]; simpl; [done|].
  rewrite lookup_fmap. destruct (ob !! s); simpl; [f_equal; exact IH|exact IH].
Qed.

Lemma omap_fmap {A B C} (f : A → B) (g : B → option C) (l : list A) :
  omap g (f <$> l) = omap (g ∘ f) l.
Proof. induction l as [|a l IH]; csimpl; [done|]. by rewrite IH. Qed.

Lemma foldl_commute {A B C} (g : A → B) (f : A → C → A) (f' : B → C → B) l a :
  (∀ a c, f' (g a) c = g (f a c)) → foldl f' (g a) l = g (foldl f a l).
Proof. intros H. revert a. induction l as [|c l IH]; intros a; simpl; [done|]. by rewrite H, IH. Qed.

Lemma foldl_invariant {A B C} (g : A → B) (f : A → C → A) l a :
  (∀ a c, g (f a c) = g a) → g (foldl f a l) = g a.
Proof. intros H. revert a. induction l as [|c l IH]; intros a; simpl; [done|]. by rewrite IH, H. Qed.

(** A map of the objects that leaves states alone commutes with a state update. *)
Lemma map_objs_upd_state φ s f sch :
  (∀ o, φ (o <| state := f (state o) |>) = (φ o) <| state := f (state (φ o)) |>) →
  upd_state s f (map_objs φ sch) = map_objs φ (upd_state s f sch).
Proof.
  intros H. destruct sch as [ob]. unfold upd_state, upd, map_objs. simpl. f_equal.
  apply map_eq. intros i. rewrite lookup_fmap. destruct (decide (s = i)) as [->|Hne].
  - rewrite !lookup_alter_eq, lookup_fmap. destruct (ob !! i) as [o|]; [|done].
    simpl. f_equal. symmetry. apply H.
  - rewrite !lookup_alter_ne, lookup_fmap by done. done.
Qed.

(** ** What is public *)

(** A node with everything but the fields of the status document at its default:
    credentials, URLs, sources and thresholds are gone. *)
Definition public_node (n : Node) : Node :=
  (new_node (hostname n) (check_type n)) <| port := port n |> <| label := label n |>
    <| contact := contact n |> <| group := group n |>.

Definition public_obj (o : _Scheduled) : _Scheduled :=
  let '(MkScheduled r n st g i so d fl c a) := o in
  MkScheduled r (public_node n) st g i None d fl c a.

Definition public (sch : Scheduler) : Scheduler := map_objs public_obj sch.

Definition public_server (srv : ControlServer) : ControlServer :=
  srv <| _scheduler := public (_scheduler srv) |>.

Lemma public_upd_state s f sch : upd_state s f (public sch) = public (upd_state s f sch).
Proof. apply map_objs_upd_state. by intros []. Qed.

Lemma public_obj_proj o :
  state (public_obj o) = state o ∧ gate (public_obj o) = gate o ∧ checked (public_obj o) = checked o ∧
  node (public_obj o) = public_node (node o).
Proof. by destruct o. Qed.

Lemma public_down_parents m o :
  down_parent_names (public_obj <$> m) (public_obj o) = down_parent_names m o.
Proof.
  unfold down_parent_names. destruct (public_obj_proj o) as (_ & -> & _). apply list_omap_ext.
  apply Forall_Forall2_diag, Forall_true. intros p. rewrite lookup_fmap.
  destruct (m !! p) as [po|]; [|done]. simpl. destruct (public_obj_proj po) as (-> & _ & -> & ->). done.
Qed.

Lemma public_node_states sch :
  node_states (public sch) =
  (public (node_states sch).1, (λ '(nd, st), (public_node nd, st)) <$> (node_states sch).2).
Proof.
  unfold node_states. cbn [fst snd].
  assert (scheduled (public sch) = scheduled sch) as -> by by destruct sch.
  rewrite (foldl_commute public (λ sch s,
      match objs sch !! s with
      | Some o => upd_state s (λ st, st <| down_parents := down_parent_names (objs sch) o |>) sch
      | None => sch
      end)).
  - f_equal. unfold public. rewrite live_objs_map, <- !list_fmap_compose. apply list_fmap_ext.
    intros _ [s o] _. simpl. by destruct o.
  - intros sch' s. unfold public at 1 2. rewrite objs_map_objs, lookup_fmap.
    destruct (objs sch' !! s) as [o|]; simpl; [|done].
    rewrite public_down_parents. apply public_upd_state.
Qed.

Lemma public_mutate f h ty p sch :
  mutate_matching f h ty p (public sch) =
  (public (mutate_matching f h ty p sch).1, (mutate_matching f h ty p sch).2).
Proof.
  unfold mutate_matching. cbn [fst snd].
  assert (_match h ty p (public sch) = _match h ty p sch) as ->.
  { unfold _match, public. rewrite live_objs_map, omap_fmap. apply list_omap_ext.
    apply Forall_Forall2_diag, Forall_true. intros [s o]. by destruct o. }
  rewrite (foldl_commute public (λ sch s, upd_state s f sch)) by (intros; apply public_upd_state).
  f_equal. case_bool_decide; [done|]. by destruct (foldl _ sch _).
Qed.

Lemma to_json_public states now :
  to_json ((λ '(nd, st), (public_node nd, st)) <$> states) now = to_json states now.
Proof.
  unfold to_json.
  assert ((λ '(nd, st), _host nd st) <$> ((λ '(nd, st), (public_node nd, st)) <$> states) =
    (λ '(nd, st), _host nd st) <$> states) as ->; [|done].
  rewrite <- list_fmap_compose. apply list_fmap_ext. by intros _ [nd st] _.
Qed.

(** ** Refreshing [down_parents] *)

(** [node_states] refreshes the display field [down_parents]; this forgets it. *)
Definition quiet_obj (o : _Scheduled) : _Scheduled :=
  o <| state := (state o) <| down_parents := [] |> |>.

Definition quiet (sch : Scheduler) : Scheduler := map_objs quiet_obj sch.

Lemma quiet_node_states sch : quiet (node_states sch).1 = quiet sch.
Proof.
  unfold node_states. cbn [fst]. apply foldl_invariant. intros sch' s.
  destruct (objs sch' !! s) as [o|] eqn:Eo; [|done]. generalize (down_parent_names (objs sch') o). intros l.
  destruct sch' as [ob]. unfold quiet, map_objs, upd_state, upd. simpl in *. f_equal.
  apply map_eq. intros i. rewrite !lookup_fmap. destruct (decide (s = i)) as [->|Hne].
  - rewrite lookup_alter_eq, Eo. simpl. f_equal. destruct o as [? ? st]; by destruct st.
  - by rewrite lookup_alter_ne.
Qed.

(** ** The operator's mutation *)

Lemma mutate_nothing f h ty p sch :
  (mutate_matching f h ty p sch).2 = 0%nat → (mutate_matching f h ty p sch).1 = sch.
Proof. unfold mutate_matching. cbn [fst snd]. intros H%nil_length_inv. by rewrite H. Qed.

Lemma objs_foldl_upd f l sch s :
  objs (foldl (λ sch s, upd_state s f sch) sch l) !! s =
  Nat.iter (length (filter (λ x, x = s) l)) (fmap (λ o, o <| state := f (state o) |>)) (objs sch !! s).
Proof.
  revert sch. induction l as [|x l IH]; intros sch; cbn [foldl]; [done|]. rewrite IH, filter_cons.
  destruct sch as [ob]. unfold upd_state, upd. simpl objs. destruct (decide (x = s)) as [->|Hne].
  - rewrite lookup_alter_eq. cbn [length]. rewrite Nat.iter_succ_r. done.
  - by rewrite lookup_alter_ne.
Qed.

Lemma match_spec h ty p sch s :
  s ∈ _match h ty p sch ↔
  ∃ o, s ∈ scheduled sch ∧ objs sch !! s = Some o ∧ node_matches h ty p (node o) = true.
Proof.
  unfold _match. rewrite list_elem_of_omap. split.
  - intros ([s' o] & [Hs Ho]%live_objs_spec & H). exists o. destruct (node_matches _ _ _ _) eqn:E; naive_solver.
  - intros (o & Hs & Ho & Hm). exists (s, o). rewrite live_objs_spec, Hm. done.
Qed.

Lemma match_nodup h ty p sch : NoDup (scheduled sch) → NoDup (_match h ty p sch).
Proof.
  unfold _match, live_objs. generalize (scheduled sch). intros l. induction l as [|s l IH]; csimpl; [done|].
  intros [Hs Hl]%NoDup_cons. specialize (IH Hl). destruct (objs sch !! s) as [o|]; csimpl; [|done].
  destruct (node_matches h ty p (node o)); [|done]. apply NoDup_cons. split; [|done].
  intros ([s' o'] & Hin & H)%list_elem_of_omap. apply list_elem_of_omap in Hin as (x & Hx & Hx').
  apply fmap_Some in Hx' as (o'' & _ & [= -> ->]). destruct (node_matches _ _ _ _); naive_solver.
Qed.

Lemma filter_eq_NoDup (l : list sid) s :
  NoDup l → length (filter (λ x, x = s) l) = if bool_decide (s ∈ l) then 1%nat else 0%nat.
Proof.
  induction l as [|x l IH]; intros Hnd; [done|]. apply NoDup_cons in Hnd as [Hx Hnd].
  specialize (IH Hnd). rewrite filter_cons. destruct (decide (x = s)) as [->|Hne]; cbn [length]; rewrite IH.
  - rewrite (bool_decide_eq_false_2 (s ∈ l)), bool_decide_eq_true_2; [done|apply list_elem_of_here|done].
  - assert (s ∈ l ↔ s ∈ x :: l) as Hiff by (rewrite elem_of_cons; naive_solver).
    by rewrite (bool_decide_ext _ _ Hiff).
Qed.

(** A mutation of the matching nodes: exactly the scheduled nodes with the key change, by
    [f], and the count is their number. *)
Lemma mutate_exact f h ty p sch :
  NoDup (scheduled sch) →
  let '(sch', n) := mutate_matching f h ty p sch in
  n = length (_match h ty p sch) ∧
  (∀ s, objs sch' !! s =
     (λ o, if bool_decide (s ∈ scheduled sch) && node_matches h ty p (node o)
           then o <| state := f (state o) |> else o) <$> objs sch !! s) ∧
  (dirty sch' = true ↔ dirty sch = true ∨ n ≠ 0%nat) ∧
  scheduled sch' = scheduled sch ∧ heap sch' = heap sch ∧ tasks sch' = tasks sch ∧ sent sch' = sent sch.
Proof.
  intros Hnd. unfold mutate_matching. set (ms := _match h ty p sch).
  set (sch1 := foldl _ sch ms).
  assert (∀ s, objs sch1 !! s =
    (λ o, if bool_decide (s ∈ scheduled sch) && node_matches h ty p (node o)
          then o <| state := f (state o) |> else o) <$> objs sch !! s) as Hobj.
  { intros s. subst sch1. rewrite objs_foldl_upd, filter_eq_NoDup by by apply match_nodup.
    destruct (objs sch !! s) as [o|] eqn:Eo; simpl; [|by case_bool_decide].
    assert (s ∈ ms ↔ s ∈ scheduled sch ∧ node_matches h ty p (node o) = true) as Hms
      by (subst ms; rewrite match_spec; naive_solver).
    rewrite (bool_decide_ext _ _ Hms), bool_decide_and.
    destruct (bool_decide (s ∈ _)), (node_matches h ty p (node o)); simpl; done. }
  assert (dirty sch1 = dirty sch ∧ scheduled sch1 = scheduled sch ∧ heap sch1 = heap sch ∧
    tasks sch1 = tasks sch ∧ sent sch1 = sent sch) as (Hd & Hs & Hh & Ht & Hse).
  { subst sch1. split_and!; apply foldl_invariant; by intros []. }
  clearbody sch1 ms. case_bool_decide as Hm.
  - subst ms. split_and!; try done. rewrite Hd. naive_solver.
  - assert (length ms ≠ 0%nat) by by destruct ms. destruct sch1; simpl in *. naive_solver.
Qed.

(** ** Dispatching *)

Lemma commands_inv version cmd h t :
  _COMMANDS version cmd = Some (h, t) →
  (t = false ∧ (h = _cmd_status ∨ h = _cmd_version version)) ∨
  (t = true ∧ (h = _cmd_ack ∨ h = _cmd_note ∨ h = _cmd_reload)).
Proof. unfold _COMMANDS. repeat case_bool_decide; naive_solver. Qed.

Lemma token_matches_true j t :
  token_matches j t = Ok true ↔ j = JStr t ∧ is_ascii t = true ∧ slen t <= _MAX_TOKEN_LEN.
Proof.
  unfold token_matches, compare_digest. destruct j as [| | | |s| |]; try naive_solver.
  destruct (_MAX_TOKEN_LEN <? slen s) eqn:El; to_prop.
  { split; [done|]. intros ([= ->] & _ & ?). lia. }
  destruct (is_ascii s && is_ascii t) eqn:Ea; to_prop.
  - split; [intros [= H%bool_decide_eq_true]; naive_solver|].
    intros ([= ->] & _). by rewrite bool_decide_eq_true_2.
  - split; [done|]. intros ([= ->] & ? & _). naive_solver congruence.
Qed.

(** The handlers answer; they change nothing when they answer with an error. *)
Definition is_error (resp : dict) : bool := eq_int (get_or_none resp "ok") 0.

Lemma set_scheduler_id srv : srv <| _scheduler := _scheduler srv |> = srv.
Proof. by destruct srv. Qed.

Lemma matched_reply_error n : is_error (matched_reply n) = true ↔ n = 0%nat.
Proof. unfold matched_reply. case_bool_decide; [done|]. naive_solver. Qed.

Lemma run_mutation srv h ty p f :
  let '(sch, n) := mutate_matching f h ty p (_scheduler srv) in
  is_error (matched_reply n) = true → srv <| _scheduler := sch |> = srv.
Proof.
  pose proof (mutate_nothing f h ty p (_scheduler srv)) as H.
  destruct (mutate_matching f h ty p (_scheduler srv)) as [sch n]. simpl in H.
  intros ->%matched_reply_error. rewrite H by done. apply set_scheduler_id.
Qed.

Lemma handlers_answer version cmd h t srv req now :
  _COMMANDS version cmd = Some (h, t) →
  ∃ srv' resp, h srv req now = (srv', Ok resp) ∧ (is_error resp = true → srv' = srv).
Proof.
  intros [[_ [->| ->]]|[_ [->|[->| ->]]]]%commands_inv.
  - unfold _cmd_status. destruct (node_states _) as [sch states]. eexists _, _. split; done.
  - eexists _, _. split; done.
  - unfold _cmd_ack. destruct (_object_key req) as [[[h ty] p]|]; [|eexists _, _; split; done].
    pose proof (run_mutation srv h ty p (λ st, st <| acked := true |>)) as H. unfold ack.
    destruct (mutate_matching _ _ _ _ _). eexists _, _. split; done.
  - unfold _cmd_note.
    destruct (_object_key req) as [[[h ty] p]|], (note_text (get_or_none req "text")) as [text|]; try (eexists _, _; split; done).
    pose proof (run_mutation srv h ty p (λ st, st <| note := clean_note text |>)) as H. unfold set_note.
    destruct (mutate_matching _ _ _ _ _). eexists _, _. split; done.
  - eexists _, _. split; done.
Qed.

(** The three ways through [_dispatch]: an error answer or an exception that changes
    nothing, an open command, or a mutating command with the right token. *)
Lemma dispatch_inv version srv req now :
  (∃ r, _dispatch version srv req now = (srv, r) ∧
     match r with Ok resp => is_error resp = true | Raise _ => True end) ∨
  ∃ cmd h t srv' resp, get_or_none req "cmd" = JStr cmd ∧ _COMMANDS version cmd = Some (h, t) ∧
    h srv req now = (srv', Ok resp) ∧ _dispatch version srv req now = (srv', Ok resp) ∧
    (is_error resp = true → srv' = srv) ∧
    (t = true → ∃ tok, _token srv = Some tok ∧ token_matches (get_or_none req "token") tok = Ok true).
Proof.
  unfold _dispatch.
  destruct (match get_or_none req "cmd" with JStr cmd => _COMMANDS version cmd | _ => None end)
    as [[h t]|] eqn:Ec; [|left; eexists; split; done].
  destruct (get_or_none req "cmd") as [| | | |cmd| |]; try done.
  destruct (handlers_answer version cmd h t srv req now Ec) as (srv' & resp & Hh & He).
  assert (run_handler h srv req now = (srv', Ok resp)) as Hrun by (unfold run_handler; by rewrite Hh).
  destruct t.
  - destruct (_token srv) as [tok|]; [|left; eexists; split; done].
    destruct (token_matches _ tok) as [[]|e] eqn:Et; [|left; eexists; split; done..].
    right. exists cmd, h, true, srv', resp. naive_solver.
  - right. exists cmd, h, false, srv', resp. naive_solver.
Qed.

(** ** Starting *)

Lemma load_token_ok posix opened t :
  load_token posix opened = Ok t →
  ∃ f text, opened = Some f ∧ tf_text f = Some text ∧ t = strip text ∧ t ≠ "" ∧
    tf_size f <= _MAX_TOKEN_LEN ∧ (posix = true → Z.land (st_mode f) 63 = 0).
Proof.
  unfold load_token. destruct opened as [f|]; [|done].
  destruct (posix && _) eqn:Em; [done|]. destruct (tf_readable f); [|done]. cbn [negb].
  destruct (_MAX_TOKEN_LEN <? tf_size f) eqn:Es; [done|]. destruct (tf_text f) as [text|] eqn:Et; [|done].
  case_bool_decide; [done|]. intros [= <-]. to_prop. exists f, text. split_and!; [done..|].
  intros ->. by destruct Em.
Qed.

Lemma build_tls_ok cert key ok :
  _build_tls cert key ok = Ok true → truthy cert = true ∧ truthy key = true ∧ ok = true.
Proof. unfold _build_tls. by destruct (truthy cert), (truthy key), ok. Qed.

Lemma all_loopback_ok infos :
  _all_loopback infos = Ok true →
  ∃ addrs, infos = Some addrs ∧ addrs ≠ [] ∧ ∀ ip, ip ∈ addrs → is_loopback (unmap ip) = true.
Proof.
  unfold _all_loopback. destruct infos as [[|ip addrs]|]; [done| |done]. intros [= H].
  exists (ip :: addrs). split_and!; [done..|]. intros ip' Hin%list_elem_of_In.
  exact (proj1 (forallb_forall _ (ip :: addrs)) H ip' Hin).
Qed.

(** The token after a successful start: that of the configured file, or none. *)
Definition start_token_ok (s : Settings) (e : start_env) (tok : option string) : Prop :=
  if truthy (setting s "control_token_file")
  then ∃ f text, se_token_file e = Some f ∧ tf_text f = Some text ∧
    tok = Some (strip text) ∧ strip text ≠ "" ∧ tf_size f <= _MAX_TOKEN_LEN ∧
    (se_posix e = true → Z.land (st_mode f) 63 = 0)
  else tok = None.

(** ** Properties *)

(** C18: mutations need the token, and errors mutate nothing.  Whatever JSON object arrives,
    the request is refused or only read (the scheduler is the same up to the [down_parents]
    shown, the reload flag is the same), unless a token is configured and the request carries
    exactly it; and a request that is answered with an error, or whose handling raises, leaves
    the server exactly as it was. *)
Theorem mutation_needs_token (version : string) (srv : ControlServer) (req : dict) (now : Q) :
  let '(srv', r) := _dispatch version srv req now in
  (srv' = srv ∨
   (get_or_none req "cmd" = JStr "status" ∧
    srv' = srv <| _scheduler := (node_states (_scheduler srv)).1 |> ∧
    quiet (_scheduler srv') = quiet (_scheduler srv)) ∨
   (∃ t, _token srv = Some t ∧ get_or_none req "token" = JStr t ∧ slen t <= _MAX_TOKEN_LEN)) ∧
  match r with
  | Ok resp => is_error resp = true → srv' = srv
  | Raise _ => srv' = srv
  end.
Proof.
  destruct (dispatch_inv version srv req now) as [(r & -> & Hr)|(cmd & h & t & srv' & resp & Hc & Hh & Ha & -> & He & Ht)].
  { split; [by left|by destruct r]. }
  split; [|done]. destruct t.
  - right; right. destruct (Ht eq_refl) as (tok & Htok & (? & _ & ?)%token_matches_true). eauto.
  - unfold _COMMANDS in Hh. case_bool_decide as Es.
    + right; left. injection Hh as <-. subst cmd. unfold _cmd_status in Ha.
      pose proof (quiet_node_states (_scheduler srv)) as Hq.
      destruct (node_states (_scheduler srv)) as [sch states]. injection Ha as <- _.
      split_and!; [done|done|]. by destruct srv.
    + left. repeat case_bool_decide; simplify_eq. unfold _cmd_version in Ha. congruence.
Qed.


(** An authorised acknowledgement does exactly its job.  With the token and an object
    key, on any reachable scheduler, exactly the scheduled nodes with that hostname, type
    and port are marked acknowledged; nothing else of any object, the queue, the tasks or
    the pages sent changes; the reply counts the nodes, or is [not_found] when there is
    none. *)
Theorem ack_command_exact (cfg : SchedConfig) (version : string) (srv : ControlServer) (req : dict) (now : Q)
    (h ty t : string) (p : Z) (Hr : reached cfg (_scheduler srv))
    (Hcmd : get_or_none req "cmd" = JStr "ack") (Hkey : _object_key req = Some (h, ty, p))
    (Htok : _token srv = Some t) (Hgiven : token_matches (get_or_none req "token") t = Ok true) :
  ∃ srv', _dispatch version srv req now =
      (srv', Ok (matched_reply (length (_match h ty p (_scheduler srv))))) ∧
    (∀ s, objs (_scheduler srv') !! s =
       (λ o, if bool_decide (s ∈ scheduled (_scheduler srv)) && node_matches h ty p (node o)
             then o <| state := (state o) <| acked := true |> |> else o)
         <$> objs (_scheduler srv) !! s) ∧
    scheduled (_scheduler srv') = scheduled (_scheduler srv) ∧
    heap (_scheduler srv') = heap (_scheduler srv) ∧ tasks (_scheduler srv') = tasks (_scheduler srv) ∧
    sent (_scheduler srv') = sent (_scheduler srv) ∧ _reload_flag srv' = _reload_flag srv.
Proof.
  unfold _dispatch. rewrite Hcmd, Htok. change (_COMMANDS version "ack") with (Some (_cmd_ack, true)).
  cbv iota beta. rewrite Hgiven. unfold run_handler, _cmd_ack, ack. rewrite Hkey.
  pose proof (mutate_exact (λ st, st <| acked := true |>) h ty p (_scheduler srv)
    (wf_nodup _ _ (reached_WF _ _ Hr))) as H.
  destruct (mutate_matching _ h ty p (_scheduler srv)) as [sch n]. destruct H as (-> & Ho & _ & Hs & Hh & Ht & Hse).
  eexists. split; [done|]. by destruct srv.
Qed.

(** C29: the channel fails closed.  [start] opens the listening socket only when every
    address the bind name resolves to is a loopback address or the certificate and key were
    both given and loaded (and then it listens with TLS); when a token file is configured it
    also has to be a readable file that no group or other user can access (on POSIX), of at
    most 4096 bytes, with a non-empty text, whose stripped text is then the token, and
    without one the token stays unset.  When it raises, nothing is listening. *)
Theorem start_fail_closed (s : Settings) (e : start_env) (sch : Scheduler) (flag : bool) :
  let '(srv, r) := start s e (server_init sch flag) in
  match r with
  | Raise _ => _listening srv = None
  | Ok _ =>
      (∃ tls, _listening srv = Some tls ∧
        (tls = true → truthy (setting s "control_tls_cert") = true ∧
           truthy (setting s "control_tls_key") = true ∧ se_chain_ok e = true) ∧
        (tls = false → ∃ addrs, se_infos e = Some addrs ∧ addrs ≠ [] ∧
           ∀ ip, ip ∈ addrs → is_loopback (unmap ip) = true)) ∧
      start_token_ok s e (_token srv)
  end.
Proof.
  unfold start. destruct (_all_loopback (se_infos e)) as [lo|] eqn:Elo; [|done].
  destruct (_build_tls _ _ _) as [tls|] eqn:Etls; [|done].
  destruct (negb lo && negb tls) eqn:Eno; [done|].
  assert (∀ tok, (if truthy (setting s "control_token_file")
    then match load_token (se_posix e) (se_token_file e) with Ok t => Ok (Some t) | Raise x => Raise x end
    else Ok None) = Ok tok → start_token_ok s e tok) as Htok.
  { unfold start_token_ok. intros tok. destruct (truthy _); [|by intros [= <-]].
    destruct (load_token _ _) as [t|] eqn:El; [|done]. intros [= <-].
    apply load_token_ok in El as (f & text & ? & ? & -> & ?). eauto 10. }
  cbn [_token server_init]. destruct (if truthy _ then _ else _) as [tok|]; [|done].
  specialize (Htok tok eq_refl). destruct (se_bind_ok e); [|done]. split; [|exact Htok].
  exists tls. split_and!; [done| |].
  - intros ->. by apply build_tls_ok in Etls.
  - intros ->. destruct lo; [|done]. by apply all_loopback_ok in Elo.
Qed.

(** ** Connections *)

Record conns_ok (srv : ControlServer) : Prop := {
  cs_active : _active srv = Z.of_nat (size (_conns srv));
  cs_bound : _active srv <= _MAX_CONNS
}.

Lemma dispatch_frame version srv req now :
  let srv' := (_dispatch version srv req now).1 in
  _conns srv' = _conns srv ∧ _active srv' = _active srv ∧ replies srv' = replies srv ∧
  _token srv' = _token srv ∧ _listening srv' = _listening srv.
Proof.
  destruct (dispatch_inv version srv req now) as [(r & -> & _)|(cmd & h & t & srv' & resp & _ & Hh & Ha & -> & _)];
    [done|]. simpl. apply commands_inv in Hh as [[_ [->| ->]]|[_ [->|[->| ->]]]].
  - unfold _cmd_status in Ha. destruct (node_states _). destruct srv; naive_solver.
  - unfold _cmd_version in Ha. naive_solver.
  - unfold _cmd_ack in Ha. destruct (_object_key req) as [[[h ty] p]|]; [|naive_solver].
    destruct (ack _ _ _ _). destruct srv; naive_solver.
  - unfold _cmd_note in Ha.
    destruct (_object_key req) as [[[h ty] p]|], (note_text (get_or_none req "text")); try naive_solver.
    destruct (set_note _ _ _ _ _). destruct srv; naive_solver.
  - unfold _cmd_reload in Ha. destruct srv; naive_solver.
Qed.

Lemma read_request_frame version srv r now :
  let srv' := (_read_request version srv r now).1 in
  _conns srv' = _conns srv ∧ _active srv' = _active srv ∧ replies srv' = replies srv.
Proof.
  destruct r as [| |[| | | | | |req]]; try done. simpl.
  destruct (dispatch_frame version srv req now) as (? & ? & ? & _). done.
Qed.

Lemma conns_ok_close id srv c : _conns srv !! id = Some c → conns_ok srv → conns_ok (conn_close id srv).
Proof.
  intros Hc [H1 H2]. destruct srv; simpl in *.
  assert (size _conns ≠ 0%nat) by (apply map_size_non_empty_iff; intros ->; by rewrite lookup_empty in Hc).
  split; simpl; [|lia]. rewrite map_size_delete, Hc. simpl. lia.
Qed.

Lemma conns_ok_step version srv srv' : sstep version srv srv' → conns_ok srv → conns_ok srv'.
Proof.
  intros Hstep Hok. destruct Hstep as [id srv Hn|id r now srv srv' H|id srv srv' H|id srv srv' H|sch flag srv].
  - unfold conn_accept. destruct Hok as [H1 H2]. destruct (_MAX_CONNS <=? _active srv) eqn:E; to_prop;
      destruct srv; simpl in *; split; simpl; [done|done| |lia].
    rewrite map_size_insert_None by done. lia.
  - unfold conn_request in H. destruct (_conns srv !! id) as [[]|] eqn:Hc; try done.
    pose proof (read_request_frame version srv r now) as (Hf1 & Hf2 & _).
    destruct (_read_request version srv r now) as [srv1 [resp|e]]; simplify_eq/=.
    + destruct Hok as [H1 H2]. destruct srv1; simpl in *. subst. split; simpl; [|done].
      rewrite map_size_insert_Some by done. done.
    + eapply conns_ok_close; [by rewrite Hf1|]. destruct Hok. split; congruence.
  - unfold conn_flushed in H. destruct (_conns srv !! id) as [[]|] eqn:Hc; simplify_eq. by eapply conns_ok_close.
  - unfold conn_cancelled in H. destruct (_conns srv !! id) as [c|] eqn:Hc; simplify_eq. by eapply conns_ok_close.
  - destruct Hok, srv. by split.
Qed.

(** C37: the connection count is right and bounded.  However connections arrive, are
    answered, time out and are cancelled, and whatever the engine does in between, the
    counter is the number of connections in progress, never more than 32; a new client is
    turned away with [busy] exactly when 32 are in progress, and that changes nothing else. *)
Theorem connections_bounded (version : string) (sch : Scheduler) (flag : bool) (srv : ControlServer)
    (Hrun : rtc (sstep version) (server_init sch flag) srv) :
  _active srv = Z.of_nat (size (_conns srv)) ∧ (size (_conns srv) <= 32)%nat ∧
  ∀ id, _conns srv !! id = None →
    (_conns (conn_accept id srv) !! id = None ↔ size (_conns srv) = 32%nat) ∧
    (size (_conns srv) = 32%nat →
       conn_accept id srv = srv <| replies := (id, error_reply "busy") :: replies srv |>).
Proof.
  assert (conns_ok srv) as [H1 H2].
  { apply (rtc_ind_r conns_ok) in Hrun; [done| |].
    - split; simpl; [by rewrite map_size_empty|unfold _MAX_CONNS; lia].
    - intros x y _ Hs Hx. by eapply conns_ok_step. }
  unfold _MAX_CONNS in *. split_and!; [done|lia|]. intros id Hid. unfold conn_accept, _MAX_CONNS.
  destruct (32 <=? _active srv) eqn:E; to_prop.
  - split; [|done]. destruct srv; simpl in *. split; [lia|done].
  - split; [|lia]. destruct srv; simpl in *. rewrite lookup_insert_eq. split; [done|lia].
Qed.

Lemma token_matches_raises_iff (provided : json) (expected : string) (e : pyexn) :
  token_matches provided expected = Raise e ↔
  e = TypeError ∧ ∃ s, provided = JStr s ∧ slen s <= _MAX_TOKEN_LEN ∧
    (is_ascii s = false ∨ is_ascii expected = false).
Proof.
  unfold token_matches, compare_digest. destruct provided as [| | | |s| |]; try naive_solver.
  destruct (_MAX_TOKEN_LEN <? slen s) eqn:El; to_prop.
  { split; [done|]. intros (_ & ? & [= <-] & ? & _). lia. }
  destruct (is_ascii s && is_ascii expected) eqn:Ea; to_prop.
  - split; [done|]. intros (_ & ? & [= <-] & _ & ?). naive_solver congruence.
  - split; [intros [= <-]; eauto 10|by intros [-> _]].
Qed.

(** a token outside ASCII gets no answer.  When a request for a mutating command carries
    a token string of admissible length and it or the expected token has a character
    outside ASCII, comparing them raises [TypeError]: the connection is closed without any
    reply and without any other effect. *)
Theorem non_ascii_token_unanswered (version cmd s expected : string) (srv : ControlServer) (id : connid)
    (req : dict) (now : Q) (Hconn : _conns srv !! id = Some CReading)
    (Hcmd : get_or_none req "cmd" = JStr cmd) (Hmut : cmd ∈ ["ack"; "note"; "reload"])
    (Htok : _token srv = Some expected) (Hgiven : get_or_none req "token" = JStr s)
    (Hlen : slen s <= _MAX_TOKEN_LEN) (Hascii : is_ascii s = false ∨ is_ascii expected = false) :
  token_matches (JStr s) expected = Raise TypeError ∧
  conn_request version id (ReqJson (JObj req)) now srv = Some (conn_close id srv) ∧
  replies (conn_close id srv) = replies srv.
Proof.
  assert (token_matches (JStr s) expected = Raise TypeError) as Hr
    by (apply token_matches_raises_iff; eauto).
  split_and!; [done| |by destruct srv].
  unfold conn_request. rewrite Hconn. cbn [_read_request]. unfold _dispatch. rewrite Hcmd, Htok, Hgiven.
  rewrite !elem_of_cons, elem_of_nil in Hmut.
  destruct Hmut as [->|[->|[->|[]]]];
    match goal with |- context [_COMMANDS version ?c] =>
      let r := eval vm_compute in (bool_decide (c = "ack"), bool_decide (c = "note")) in
      lazymatch r with
      | (true, _) => change (_COMMANDS version c) with (Some (_cmd_ack, true))
      | (_, true) => change (_COMMANDS version c) with (Some (_cmd_note, true))
      | _ => change (_COMMANDS version c) with (Some (_cmd_reload, true))
      end
    end; cbv iota beta; by rewrite Hr.
Qed.

(** ** Witnesses *)

Definition demo_server : ControlServer :=
  (server_init demo_sch false) <| _token := Some "s3cret" |>.

Definition demo_ack (t : string) : dict :=
  [("cmd", JStr "ack"); ("token", JStr t);
   ("object", JObj [("hostname", JStr "r1"); ("type", JStr "ping")])].

Lemma ack_command_exact_witness :
  ∃ srv', _dispatch "1.0" demo_server (demo_ack "s3cret") 0 = (srv', Ok (matched_reply 1)) ∧
    (acked ∘ state) <$> (objs (_scheduler srv') !! 0%nat) = Some true.
Proof.
  destruct (ack_command_exact demo_cfg "1.0" demo_server (demo_ack "s3cret") 0 "r1" "ping" "s3cret" 0)
    as (srv' & Hd & Ho & _).
  - exact demo_reached.
  - reflexivity.
  - reflexivity.
  - reflexivity.
  - reflexivity.
  - exists srv'. split.
    + rewrite Hd. f_equal.
    + rewrite Ho. vm_compute. reflexivity.
Defined.

Lemma connections_bounded_witness :
  ∃ srv, rtc (sstep "1.0") (server_init demo_sch false) srv ∧ _active srv = Z.of_nat (size (_conns srv)) ∧
    _active srv = 1 ∧ replies srv = [(0%nat, error_reply "bad_request")].
Proof.
  assert (rtc (sstep "1.0") (server_init demo_sch false)
    (default (server_init demo_sch false)
      (conn_request "1.0" 0 ReqNotJson 0 (conn_accept 1 (conn_accept 0 (server_init demo_sch false)))
        ≫= conn_flushed 0))) as Hrun.
  { eapply rtc_l; [by apply (sstep_accept _ 0)|]. eapply rtc_l; [by apply (sstep_accept _ 1)|].
    eapply rtc_l; [by apply (sstep_request _ 0 ReqNotJson 0)|].
    eapply rtc_l; [by apply (sstep_flushed _ 0)|]. reflexivity. }
  eexists. split; [exact Hrun|].
  split; [exact (proj1 (connections_bounded "1.0" demo_sch false _ Hrun))|]. split; reflexivity.
Defined.

Lemma non_ascii_token_unanswered_witness :
  conn_request "1.0" 0 (ReqJson (JObj (demo_ack (String "233"%char "")))) 0 (conn_accept 0 demo_server)
  = Some (conn_close 0 (conn_accept 0 demo_server)).
Proof.
  apply (non_ascii_token_unanswered "1.0" "ack" (String "233"%char "") "s3cret").
  - reflexivity.
  - reflexivity.
  - apply list_elem_of_here.
  - reflexivity.
  - reflexivity.
  - vm_compute. discriminate.
  - left. reflexivity.
Defined.
