(* ===== verification/ControlTools.v ===== *)
(** * The operator's tools (src/psysmon/control/client.py, token.py)

    [psysmonctl] builds one request and sends it; [psysmon-token] writes the token file.
    argparse's result is the namespace: the values of the sub-parser overwrite those of the
    main parser, as its documentation states.  The peer, the file system and the random
    generator are arguments. *)
From Stdlib Require Import Ascii.
From S2P Require Import Prelude Status Model StateMachine PingPool Graph Gate Flatten Scheduler Json SchedOps Settings PyStr JsonOut Control.

(** ** psysmonctl *)

Abbreviation namespace := (gmap string json).

Definition ns_get (k : string) (ns : namespace) : json := default JNull (ns !! k).

(** The main parser's options with their defaults. *)
Record main_opts : Type := MkMainOpts {
  opt_host : string; opt_port : Z; opt_token_file : option string; opt_tls_ca : option string
}.

Definition default_opts : main_opts := MkMainOpts "127.0.0.1" 2026 None None.

Definition opt_json (o : option string) : json := match o with Some s => JStr s | None => JNull end.

(** A sub-command and its positional arguments; a missing port is [None]. *)
Inductive subcommand : Type :=
| CmdStatus
| CmdVersion
| CmdReload
| CmdAck (hostname type : string) (port : option Z)
| CmdNote (hostname type : string) (port : option Z) (text : string).

Definition cmd_name (c : subcommand) : string :=
  match c with
  | CmdStatus => "status" | CmdVersion => "version" | CmdReload => "reload"
  | CmdAck _ _ _ => "ack" | CmdNote _ _ _ _ => "note"
  end.

Definition object_values (h ty : string) (p : option Z) : namespace :=
  <["hostname" := JStr h]> (<["type" := JStr ty]> {["port" := JInt (default 0 p)]}).

(** What the sub-parser puts into the namespace. *)
Definition sub_values (c : subcommand) : namespace :=
  match c with
  | CmdAck h ty p => object_values h ty p
  | CmdNote h ty p text => <["text" := JStr text]> (object_values h ty p)
  | _ => ∅
  end.

Definition main_values (o : main_opts) : namespace :=
  <["host" := JStr (opt_host o)]> (<["port" := JInt (opt_port o)]>
    (<["token_file" := opt_json (opt_token_file o)]> {["tls_ca" := opt_json (opt_tls_ca o)]})).

(** [ap.parse_args]: the sub-parser's values win. *)
Definition parse_args (o : main_opts) (c : subcommand) : namespace :=
  sub_values c ∪ <["cmd" := JStr (cmd_name c)]> (main_values o).

(** What leaves the client: [SystemExit] with a message, or an exception of the listed
    kinds, caught by [main]. *)
Inductive client_exn : Type := SystemExit | CaughtError.

Definition is_one_of (j : json) (l : list string) : bool := existsb (eq_str j) l.

(** [_payload]; [token_text] is the decoded content of the token file, [None] when reading
    it fails. *)
Definition _payload (args : namespace) (token_text : option string) : res client_exn dict :=
  let cmd := ns_get "cmd" args in
  let req := [("cmd", cmd)] in
  let req := if is_one_of cmd ["ack"; "note"]
             then dict_set req "object"
                    (JObj [("hostname", ns_get "hostname" args); ("type", ns_get "type" args);
                           ("port", ns_get "port" args)])
             else req in
  let req := if eq_str cmd "note" then dict_set req "text" (ns_get "text" args) else req in
  if is_one_of cmd ["ack"; "note"; "reload"]
  then if truthy (ns_get "token_file" args)
       then match token_text with
            | Some text => Ok (dict_set req "token" (JStr (strip text)))
            | None => Raise CaughtError
            end
       else Raise SystemExit
  else Ok req.

(** The connection [_request] makes. *)
Definition connect_to (args : namespace) : json * json := (ns_get "host" args, ns_get "port" args).

(** The receive loop of [_request], on what the peer sends: up to a newline at the end of what
    has come, the limit, or the end of the stream. *)
Definition _MAX_RESPONSE : Z := 8 * 1024 * 1024.

Fixpoint ends_nl (buf : string) : bool :=
  match buf with
  | EmptyString => false
  | String c EmptyString => bool_decide (c = ascii_of_N 10)
  | String _ buf' => ends_nl buf'
  end.

Fixpoint recv_loop (chunks : list string) (buf : string) : string :=
  if ends_nl buf || (_MAX_RESPONSE <=? slen buf) then buf
  else match chunks with
       | [] | EmptyString :: _ => buf
       | chunk :: chunks' => recv_loop chunks' (buf +:+ chunk)
       end.

(** [main]: the exit code, or [SystemExit].  [peer] answers a request sent to an address
    with a JSON object, or not at all. *)
Definition client_main (o : main_opts) (c : subcommand) (token_text : option string)
    (peer : json * json → dict → option dict) : res client_exn Z :=
  let args := parse_args o c in
  match _payload args token_text with
  | Raise SystemExit => Raise SystemExit
  | Raise CaughtError => Ok 1
  | Ok payload =>
      match peer (connect_to args) payload with
      | None => Ok 1
      | Some resp => Ok (if truthy (get_or_none resp "ok") then 0 else 1)
      end
  end.

(** ** psysmon-token *)

Definition _TOKEN_BYTES : Z := 32.

Inductive entry : Type := Regular (mode : Z) (text : string) | Symlink.

Abbreviation tokfs := (gmap string entry).

Inductive gen_error : Type := FileExistsError | GenOSError.

(** [os.open] with [O_CREAT], [O_NOFOLLOW] and [O_TRUNC] or [O_EXCL]; [umask] clears bits of
    the mode of a new file. *)
Definition open_token (path : string) (force : bool) (umask : Z) (fs : tokfs) : res gen_error tokfs :=
  match fs !! path with
  | None => Ok (<[path := Regular (Z.ldiff 384 umask) ""]> fs)
  | Some e =>
      if force then match e with
                    | Regular m _ => Ok (<[path := Regular m ""]> fs)
                    | Symlink => Raise GenOSError
                    end
      else Raise FileExistsError
  end.

Definition newline : string := String "010"%char "".

(** [generate]: [token] is what [secrets.token_urlsafe] returns; [write_ok] whether
    [os.write] succeeds. *)
Definition generate (path : string) (force : bool) (token : string) (umask : Z) (write_ok : bool)
    (fs : tokfs) : tokfs * res gen_error string :=
  match open_token path force umask fs with
  | Raise e => (fs, Raise e)
  | Ok fs1 =>
      if write_ok then (<[path := Regular 384 (token ++ newline)%string]> fs1, Ok token)
      else (<[path := Regular 384 ""]> fs1, Raise GenOSError)
  end.

(** [main]: with no path the token is printed. *)
Definition token_main (path : option string) (force : bool) (token : string) (umask : Z) (write_ok : bool)
    (fs : tokfs) : tokfs * Z :=
  match path with
  | None => (fs, 0)
  | Some p => match generate p force token umask write_ok fs with
              | (fs', Ok _) => (fs', 0)
              | (fs', Raise _) => (fs', 1)
              end
  end.

(** The file [load_token] opens: [O_NOFOLLOW] refuses a symbolic link, and [fstat] reports
    a regular file. *)
Definition open_for_load (fs : tokfs) (path : string) : option token_file :=
  match fs !! path with
  | Some (Regular m text) => Some (MkTokenFile (Z.lor 32768 m) true (slen text) (Some text))
  | _ => None
  end.

(** ** Facts *)

Definition urlsafe (c : ascii) : bool :=
  let n := N_of_ascii c in
  ((48 <=? n)%N && (n <=? 57)%N) || ((65 <=? n)%N && (n <=? 90)%N) || (n =? 95)%N
  || ((97 <=? n)%N && (n <=? 122)%N) || (n =? 45)%N.

Fixpoint all_chars (P : ascii → bool) (s : string) : bool :=
  match s with EmptyString => true | String c s' => P c && all_chars P s' end.

Lemma urlsafe_not_space c : urlsafe c = true → is_space c = false ∧ (N_of_ascii c <? 128)%N = true.
Proof.
  unfold urlsafe, is_space. rewrite !orb_true_iff, !andb_true_iff, !N.leb_le, !N.eqb_eq. intros H.
  split; [|apply N.ltb_lt; lia]. rewrite !orb_false_iff, !andb_false_iff, !N.leb_gt, !N.eqb_neq. lia.
Qed.

Lemma urlsafe_ascii s : all_chars urlsafe s = true → is_ascii s = true.
Proof.
  induction s as [|c s IH]; simpl; [done|]. intros [Hc Hs]%andb_true_iff.
  apply urlsafe_not_space in Hc as [_ ->]. by apply IH.
Qed.

Lemma rstrip_token s : all_chars urlsafe s = true → rstrip (s ++ newline) = s.
Proof.
  induction s as [|c s IH]; [done|]. simpl. intros [Hc Hs]%andb_true_iff. rewrite IH by done.
  apply urlsafe_not_space in Hc as [Hc _]. destruct s; [by rewrite Hc|done].
Qed.

Lemma strip_token s : all_chars urlsafe s = true → strip (s ++ newline) = s.
Proof.
  unfold strip. intros Hs. destruct s as [|c s]; [done|].
  assert (lstrip (String c s ++ newline) = (String c s ++ newline)%string) as ->; [|by apply rstrip_token].
  simpl in *. apply andb_true_iff in Hs as [Hc _]. apply urlsafe_not_space in Hc as [Hc _]. by rewrite Hc.
Qed.

Lemma slen_app s1 s2 : slen (s1 ++ s2) = slen s1 + slen s2.
Proof.
  unfold slen. induction s1 as [|c s IH]; [done|]. 
  change (String.length (String c s +:+ s2)) with (S (String.length (s +:+ s2))).
  cbn [String.length]. lia.
Qed.

(** *** The client reads a reply whole *)

Fixpoint no_nl (s : string) : bool :=
  match s with EmptyString => true | String c s' => negb (bool_decide (c = ascii_of_N 10)) && no_nl s' end.

Definition line_end : string := String (ascii_of_N 10) "".

Lemma str_app_assoc (a b c : string) : (a +:+ b) +:+ c = a +:+ (b +:+ c).
Proof. induction a as [|x a IH]; [done|]. exact (f_equal (String x) IH). Qed.

Lemma str_app_nil (a : string) : a +:+ "" = a.
Proof. induction a as [|x a IH]; [done|]. exact (f_equal (String x) IH). Qed.

Lemma ends_line line : ends_nl (line +:+ line_end) = true.
Proof. induction line as [|c line IH]; [done|]. by destruct line. Qed.

(** Nothing can follow a newline that ends what has come of a one-line reply. *)
Lemma line_complete buf rest line :
  no_nl line = true → buf +:+ rest = line +:+ line_end → ends_nl buf = true → rest = "".
Proof.
  revert line. induction buf as [|c buf IH]; intros line Hl He Hn; [done|]. destruct line as [|a line].
  - cbn in He. injection He as -> He. by destruct buf.
  - cbn in Hl, He. apply andb_true_iff in Hl as [Ha Hl]. injection He as -> He. destruct buf as [|d buf].
    + cbn in Hn. by rewrite Hn in Ha.
    + eapply (IH line); done.
Qed.

(** However the network cuts it up, a one-line reply within the limit is read whole, and no
    further chunk is waited for. *)
Lemma recv_whole chunks line more :
  no_nl line = true → slen line < _MAX_RESPONSE → Forall (λ c, c ≠ "") chunks →
  foldr String.append "" chunks = line +:+ line_end → recv_loop (chunks ++ more)%list "" = line +:+ line_end.
Proof.
  intros Hl Hmax Hne He.
  assert (∀ buf, buf +:+ foldr String.append "" chunks = line +:+ line_end → recv_loop (chunks ++ more)%list buf = line +:+ line_end) as H;
    [|by apply H]. clear He. induction Hne as [|c chunks Hc Hne IH]; intros buf He; cbn [foldr] in He.
  - rewrite str_app_nil in He. subst buf. simpl app. pose proof (ends_line line) as E. destruct more; cbn [recv_loop]; by rewrite E.
  - rewrite <- app_comm_cons. cbn [recv_loop]. pose proof (f_equal slen He) as Hs. rewrite !slen_app in Hs.
    change (slen line_end) with 1 in Hs. assert (1 <= slen c) as Hc1 by (destruct c; [done|unfold slen; cbn; lia]).
    assert (0 <= slen (foldr String.append "" chunks)) as H0 by (unfold slen; lia).
    destruct (ends_nl buf) eqn:En.
    { apply (line_complete buf _ line Hl He) in En. by destruct c. }
    destruct (_MAX_RESPONSE <=? slen buf) eqn:Em; [apply Z.leb_le in Em; lia|]. cbn [orb]. destruct c as [|x c]; [done|].
    apply IH. by rewrite str_app_assoc.
Qed.

(** ** Properties *)

(** A generated token works.  When [generate] returns, the file at that path is a
    regular file of mode 0600, every other file is untouched, and the daemon that loads it
    gets exactly the token it returned and then accepts a request that carries it; it never
    writes through a symbolic link, and without [--force] it leaves an existing file alone. *)
Theorem generated_token_accepted (path token : string) (force write_ok : bool) (umask : Z) (fs : tokfs)
    (Hsafe : all_chars urlsafe token = true) (Hne : token ≠ "") (Hlen : slen token < _MAX_TOKEN_LEN) :
  let '(fs', r) := generate path force token umask write_ok fs in
  (∀ p, p ≠ path → fs' !! p = fs !! p) ∧
  (fs !! path = Some Symlink → fs' = fs ∧ r ≠ Ok token) ∧
  (force = false → is_Some (fs !! path) → fs' = fs ∧ r = Raise FileExistsError) ∧
  (∀ t, r = Ok t → t = token ∧ fs' !! path = Some (Regular 384 (token ++ newline)%string) ∧
     load_token true (open_for_load fs' path) = Ok token ∧
     token_matches (JStr token) token = Ok true).
Proof.
  unfold generate, open_token.
  assert (∀ m m' : entry, ∀ p, p ≠ path → <[path := m]> (<[path := m']> fs) !! p = fs !! p) as Ho
    by (intros; by rewrite !lookup_insert_ne).
  assert (∀ fs1 : tokfs, load_token true (open_for_load (<[path := Regular 384 (token ++ newline)%string]> fs1) path) = Ok token)
    as Hload.
  { intros fs1. unfold open_for_load. rewrite lookup_insert_eq. unfold load_token. simpl st_mode.
    change (negb (Z.land (Z.lor 32768 384) 63 =? 0)) with false. cbn [andb tf_readable negb tf_size tf_text].
    rewrite slen_app. change (slen newline) with 1.
    rewrite (proj2 (Z.ltb_ge _ _)) by lia. rewrite strip_token by done. by rewrite bool_decide_eq_false_2. }
  assert (token_matches (JStr token) token = Ok true) as Hm.
  { unfold token_matches, compare_digest. rewrite (proj2 (Z.ltb_ge _ _)) by lia.
    rewrite urlsafe_ascii by done. simpl. by rewrite bool_decide_eq_true_2. }
  destruct (fs !! path) as [[m text|]|] eqn:E; [destruct force, write_ok|destruct force|destruct write_ok]; cbv iota beta.
  all: split_and!; [by auto|naive_solver|naive_solver|].
  all: intros t Ht; simplify_eq.
  all: split_and!; [done|by rewrite lookup_insert_eq|apply Hload|exact Hm].
Qed.

(** where [psysmonctl ack] connects.  The request it builds names exactly the object and
    the token, as the server reads them; but the connection goes to the port of the
    monitored object (0 when none is given), whatever [--port] says: the positional
    argument and the option share a name in the namespace. *)
Theorem ack_connects_to_object_port (o : main_opts) (h ty text tf : string) (p : option Z)
    (Htf : opt_token_file o = Some tf) (Hne : tf ≠ "") :
  let args := parse_args o (CmdAck h ty p) in
  connect_to args = (JStr (opt_host o), JInt (default 0 p)) ∧
  ∃ req, _payload args (Some text) = Ok req ∧ get_or_none req "cmd" = JStr "ack" ∧
    _object_key req = Some (h, ty, default 0 p) ∧ get_or_none req "token" = JStr (strip text).
Proof.
  assert (∀ k v, sub_values (CmdAck h ty p) !! k = Some v → ns_get k (parse_args o (CmdAck h ty p)) = v) as Hsub
    by (intros k v Hk; unfold ns_get, parse_args; by erewrite lookup_union_Some_l by exact Hk).
  assert (∀ k v, sub_values (CmdAck h ty p) !! k = None → (<["cmd" := JStr "ack"]> (main_values o)) !! k = Some v →
    ns_get k (parse_args o (CmdAck h ty p)) = v) as Hmain
    by (intros k v Hk Hv; unfold ns_get, parse_args; rewrite lookup_union_r by exact Hk; cbn [cmd_name]; by rewrite Hv).
  intros args. subst args. unfold connect_to.
  rewrite (Hmain "host" (JStr (opt_host o))), (Hsub "port" (JInt (default 0 p))) by done.
  split; [done|]. unfold _payload.
  assert ((<["cmd" := JStr "ack"]> (main_values o)) !! "token_file" = Some (JStr tf)) as Ht
    by (transitivity (Some (opt_json (opt_token_file o))); [done|by rewrite Htf]).
  rewrite (Hmain "cmd" (JStr "ack")), (Hsub "port" (JInt (default 0 p))), (Hsub "hostname" (JStr h)),
    (Hsub "type" (JStr ty)), (Hmain "token_file" (JStr tf)) by done.
  cbn [truthy is_one_of existsb eq_str]. rewrite (bool_decide_eq_false_2 (tf = "")) by done.
  eexists. split; [reflexivity|]. split_and!; reflexivity.
Qed.

Lemma generated_token_accepted_witness :
  load_token true (open_for_load (generate "/etc/t" true "aB-_9" 18 true {["/etc/t" := Regular 420 "old"]}).1 "/etc/t")
  = Ok "aB-_9".
Proof.
  destruct (generated_token_accepted "/etc/t" "aB-_9" true true 18 {["/etc/t" := Regular 420 "old"]})
    as (_ & _ & _ & H).
  - reflexivity.
  - discriminate.
  - vm_compute. reflexivity.
  - destruct (H "aB-_9" eq_refl) as (_ & _ & Hl & _). exact Hl.
Defined.

Lemma ack_connects_to_object_port_witness :
  connect_to (parse_args (MkMainOpts "127.0.0.1" 2026 (Some "/etc/t") None) (CmdAck "r1" "ping" None))
  = (JStr "127.0.0.1", JInt 0).
Proof.
  apply (ack_connects_to_object_port (MkMainOpts "127.0.0.1" 2026 (Some "/etc/t") None) "r1" "ping" "s3cret" "/etc/t" None).
  - reflexivity.
  - discriminate.
Defined.
