(* ===== verification/Notify.v ===== *)
(** * Paging (src/psysmon/timefmt.py, notify/base.py, notify/email_smtp.py)

    The page text and the SMTP notifier.  [time.strftime] on the local time, the host's own
    name and the delivery are arguments. *)
From Stdlib Require Import Ascii.
From S2P Require Import Prelude Status Model StateMachine Json Settings PyStr.

(** ** timefmt *)

(** [int(x)] of a float truncates towards zero. *)
Definition Qtrunc (q : Q) : Z := Z.quot (Qnum q) (Zpos (Qden q)).

(** [f"{z:02d}"] for a non-negative integer. *)
Definition pad2 (z : Z) : string := if z <? 10 then "0" +:+ pretty z else pretty z.

Definition duration (seconds : Q) : string :=
  let secs := Z.max 0 (Qtrunc seconds) in
  let days := secs / 86400 in
  let rem := secs mod 86400 in
  let hours := rem / 3600 in
  let rem := rem mod 3600 in
  let minutes := rem / 60 in
  pad2 days +:+ ":" +:+ pad2 hours +:+ ":" +:+ pad2 minutes.

Definition elapsed (since now : Q) : string := duration (now - since).

(** ** The page text *)

Definition DEFAULT_TEMPLATE : string := "%t: %h %w is %u %d".

Section message.
(** [strftime("%b %d %H:%M:%S", localtime(epoch))] *)
Context (strftime_local : Q → string).

Definition clock_time (epoch : Q) (never_if_zero : bool) : string :=
  if never_if_zero && Qeqb epoch 0 then "Never" else strftime_local epoch.

(** The token dict. *)
Definition tokens (nd : Node) (st : NodeState) (myname : string) (now_wall : Q) (c : ascii) : option string :=
  let is_ping := is_ping_type (check_type nd) in
  match c with
  | "m"%char => Some myname
  | "h"%char => Some (hostname nd +:+ (if is_ping then "" else "'s"))
  | "t"%char => Some (clock_time now_wall false)
  | "d"%char => Some (elapsed (deathtime st) now_wall)
  | "u"%char => Some (errtostr (lastcheck st))
  | "w"%char => Some (if is_ping then "" else label nd)
  | _ => None
  end.

(** The expansion loop, from index [i] on. *)
Fixpoint expand (toks : ascii → option string) (template : string) : string :=
  match template with
  | EmptyString => ""
  | String c rest =>
      match rest with
      | String d rest' =>
          if ascii_dec c "%"%char then default (String c (String d "")) (toks d) +:+ expand toks rest'
          else String c (expand toks rest)
      | EmptyString => String c ""
      end
  end.

Definition render_message (template : string) (nd : Node) (st : NodeState) (myname : string) (now_wall : Q)
    : string := expand (tokens nd st myname now_wall) template.

(** ** The SMTP notifier *)

Record message : Type := MkMessage { m_from : string; m_to : string; m_subject : string; m_body : string }.

(** [EmailMessage] refuses a header value with a CR or an LF. *)
Fixpoint header_ok (s : string) : bool :=
  match s with
  | EmptyString => true
  | String c s' => negb ((code c =? 10)%N || (code c =? 13)%N) && header_ok s'
  end.

(** [self._myname] and [self._from] of [SmtpNotifier.__init__]: [gethostname] is the host's
    own name. *)
Definition str_setting (s : Settings) (k : string) : string :=
  match s !! k with Some (JStr v) => v | _ => "" end.

Definition _myname (s : Settings) (gethostname : string) : string :=
  if bool_decide (str_setting s "org_hostname" = "") then gethostname else str_setting s "org_hostname".

Definition _from (s : Settings) (gethostname : string) : string :=
  if bool_decide (str_setting s "mail_from" = "") then "psysmon@" +:+ _myname s gethostname
  else str_setting s "mail_from".

Definition subject (nd : Node) (st : NodeState) (i : PageIntent) : string :=
  match i with
  | PI_RECOVERY => hostname nd +:+ " has recovered"
  | _ => hostname nd +:+ " is " +:+ errtostr (lastcheck st)
  end.

Definition _build (s : Settings) (gethostname template : string) (now_wall : Q)
    (nd : Node) (st : NodeState) (i : PageIntent) : res pyexn message :=
  let m := MkMessage (_from s gethostname) (contact nd) (subject nd st i)
             (render_message template nd st (_myname s gethostname) now_wall) in
  if header_ok (m_from m) && header_ok (m_to m) && header_ok (m_subject m) then Ok m else Raise ValueError.

(** [send]: what is handed to the transport, and the result; [deliver] says whether the
    transport accepts a message. *)
Definition send (s : Settings) (gethostname template : string) (now_wall : Q) (deliver : message → bool)
    (nd : Node) (st : NodeState) (i : PageIntent) : list message * bool :=
  if bool_decide (contact nd = "") then ([], true)
  else if negb (truthy (default JNull (s !! "notify_enabled"))) then ([], true)
  else match _build s gethostname template now_wall nd st i with
       | Raise _ => ([], false)
       | Ok m => ([m], deliver m)
       end.

(** [_smtp_send]: the connection smtplib is asked for, bounded in time and from the
    configured source. *)
Definition DEFAULT_SMTP_TIMEOUT_S : Q := 30.

Record smtp_call : Type := MkSmtpCall {
  sc_host : json;
  sc_port : json;
  sc_timeout : Q;
  sc_source : option (string * Z);
  sc_message : message
}.

Definition _smtp_send (s : Settings) (timeout : Q) (m : message) : smtp_call :=
  MkSmtpCall (default JNull (s !! "smtp_host")) (default JNull (s !! "smtp_port")) timeout
    (if bool_decide (str_setting s "source_ip" = "") then None else Some (str_setting s "source_ip", 0)) m.

(** The daemon's notifier: no [send_fn], the default template and timeout; [smtp] says whether
    the exchange succeeds. *)
Definition notifier_send (s : Settings) (gethostname : string) (now_wall : Q) (smtp : smtp_call → bool)
    (nd : Node) (st : NodeState) (i : PageIntent) : list message * bool :=
  send s gethostname DEFAULT_TEMPLATE now_wall (λ m, smtp (_smtp_send s DEFAULT_SMTP_TIMEOUT_S m)) nd st i.

End message.

(** ** Facts *)

(** A template in pieces: text without a percent sign, or a percent sign and a letter. *)
Inductive piece : Type := Lit (s : string) | Tok (c : ascii).

Fixpoint no_percent (s : string) : bool :=
  match s with
  | EmptyString => true
  | String c s' => negb (bool_decide (c = "%"%char)) && no_percent s'
  end.

Definition piece_text (p : piece) : string :=
  match p with Lit s => s | Tok c => String "%" (String c "") end.

Definition piece_ok (p : piece) : bool := match p with Lit s => no_percent s | Tok _ => true end.

Definition piece_value (toks : ascii → option string) (p : piece) : string :=
  match p with
  | Lit s => s
  | Tok c => default (String "%" (String c "")) (toks c)
  end.

Definition join (l : list string) : string := foldr String.append "" l.

Lemma append_nil_r (s : string) : s +:+ "" = s.
Proof. induction s as [|c s IH]; [done|]. change (String c (s +:+ "") = String c s). by rewrite IH. Qed.

Lemma append_assoc (s1 s2 s3 : string) : (s1 +:+ s2) +:+ s3 = s1 +:+ (s2 +:+ s3).
Proof.
  induction s1 as [|c s IH]; [done|].
  change (String c ((s +:+ s2) +:+ s3) = String c (s +:+ (s2 +:+ s3))). by rewrite IH.
Qed.

Lemma expand_lit toks s rest :
  no_percent s = true → expand toks (s +:+ rest) = s +:+ expand toks rest.
Proof.
  induction s as [|c s IH]; [done|]. cbn [no_percent]. intros [Hc%negb_true_iff%bool_decide_eq_false Hs]%andb_true_iff.
  change (String c s +:+ rest) with (String c (s +:+ rest)).
  change (String c s +:+ expand toks rest) with (String c (s +:+ expand toks rest)). rewrite <- IH by done.
  cbn [expand]. destruct (s +:+ rest) as [|d r]; [done|].
  destruct (ascii_dec c "%"); [done|]. done.
Qed.

Lemma expand_pieces toks ps :
  forallb piece_ok ps = true →
  expand toks (join (piece_text <$> ps)) = join (piece_value toks <$> ps).
Proof.
  induction ps as [|p ps IH]; [done|]. cbn [forallb fmap list_fmap join foldr].
  intros [Hp Hps]%andb_true_iff. specialize (IH Hps). unfold join in IH. destruct p as [s|c].
  - cbn [piece_text piece_value]. rewrite expand_lit by exact Hp. by rewrite <- IH.
  - cbn [piece_text piece_value]. rewrite <- IH. done.
Qed.

(** ** Properties *)

(** the page text.  A template made of text and %-letters renders to the same text with
    every letter of the table replaced by its value and every other %-letter kept as it
    stands; nothing is expanded twice.  In particular the default template gives time, host,
    label, status and downtime. *)
Theorem render_message_exact (fmt : Q → string) (nd : Node) (st : NodeState) (myname : string) (now : Q)
    (ps : list piece) (Hps : forallb piece_ok ps = true) :
  render_message fmt (join (piece_text <$> ps)) nd st myname now =
    join (piece_value (tokens fmt nd st myname now) <$> ps) ∧
  render_message fmt DEFAULT_TEMPLATE nd st myname now =
    fmt now +:+ ": " +:+ hostname nd +:+ (if is_ping_type (check_type nd) then "" else "'s") +:+ " " +:+
    (if is_ping_type (check_type nd) then "" else label nd) +:+ " is " +:+ errtostr (lastcheck st) +:+ " " +:+
    elapsed (deathtime st) now.
Proof.
  split; [by apply expand_pieces|].
  change DEFAULT_TEMPLATE with (join (piece_text <$>
    [Tok "t"; Lit ": "; Tok "h"; Lit " "; Tok "w"; Lit " is "; Tok "u"; Lit " "; Tok "d"]%char)).
  unfold render_message. rewrite expand_pieces by done. simpl. by rewrite append_nil_r, append_assoc.
Qed.

Lemma Qtrunc_spec q : (0 <= q)%Q → (inject_Z (Qtrunc q) <= q)%Q ∧ (q < inject_Z (Qtrunc q + 1))%Q ∧ 0 <= Qtrunc q.
Proof.
  destruct q as [n d]. unfold Qtrunc, Qle, Qlt, inject_Z. simpl. intros H. rewrite Z.mul_1_r in H.
  rewrite Z.quot_div_nonneg by lia. pose proof (Z.div_mod n (Z.pos d) ltac:(lia)).
  pose proof (Z.mod_pos_bound n (Z.pos d) ltac:(lia)). pose proof (Z.div_pos n (Z.pos d) ltac:(lia) ltac:(lia)).
  split_and!; nia.
Qed.

Lemma Qtrunc_neg q : (q < 0)%Q → Qtrunc q <= 0.
Proof.
  destruct q as [n d]. unfold Qtrunc, Qlt. simpl. intros H. rewrite Z.mul_1_r in H.
  rewrite <- (Z.opp_involutive n), Z.quot_opp_l by lia.
  pose proof (Z.quot_pos (- n) (Z.pos d) ltac:(lia) ltac:(lia)). lia.
Qed.

(** the downtime shown.  [duration] prints days, hours and minutes, with hours below 24
    and minutes below 60, of which the span is less than one minute longer, never shorter;
    a negative span prints as zero. *)
Theorem duration_exact (q : Q) :
  ∃ d h m, duration q = pad2 d +:+ ":" +:+ pad2 h +:+ ":" +:+ pad2 m ∧
    0 <= d ∧ 0 <= h < 24 ∧ 0 <= m < 60 ∧
    ((q < 0)%Q → d = 0 ∧ h = 0 ∧ m = 0) ∧
    ((0 <= q)%Q → (inject_Z (60 * (60 * (24 * d + h) + m)) <= q)%Q ∧
       (q < inject_Z (60 * (60 * (24 * d + h) + m) + 60))%Q).
Proof.
  unfold duration. set (s := Z.max 0 (Qtrunc q)). exists (s / 86400), (s mod 86400 / 3600), (s mod 86400 mod 3600 / 60).
  assert (0 <= s) by lia.
  pose proof (Z.div_mod s 86400 ltac:(lia)) as H1. pose proof (Z.mod_pos_bound s 86400 ltac:(lia)) as H2.
  pose proof (Z.div_mod (s mod 86400) 3600 ltac:(lia)) as H3.
  pose proof (Z.mod_pos_bound (s mod 86400) 3600 ltac:(lia)) as H4.
  pose proof (Z.div_mod (s mod 86400 mod 3600) 60 ltac:(lia)) as H5.
  pose proof (Z.mod_pos_bound (s mod 86400 mod 3600) 60 ltac:(lia)) as H6.
  split; [reflexivity|]. split; [lia|]. split; [lia|]. split; [lia|]. split.
  - intros Hq%Qtrunc_neg. lia.
  - intros Hq. destruct (Qtrunc_spec q Hq) as (Hl & Hu & Hp). split.
    + eapply Qle_trans; [|exact Hl]. rewrite <- Zle_Qle. lia.
    + eapply Qlt_le_trans; [exact Hu|]. rewrite <- Zle_Qle. lia.
Qed.

(** The notifier's contract.  [send] always answers, hands at most one message to the
    transport, and only to the node's contact; every header it sends is a single line, so no
    hostname or contact can smuggle in another header; it answers [False] (page again later)
    exactly when there is someone to page, paging is on, and the message cannot be built or
    is not accepted. *)
Theorem notifier_contract (fmt : Q → string) (s : Settings) (me template : string) (now : Q)
    (deliver : message → bool) (nd : Node) (st : NodeState) (i : PageIntent) :
  let '(ms, ok) := send fmt s me template now deliver nd st i in
  (length ms <= 1)%nat ∧
  (∀ m, m ∈ ms → m_to m = contact nd ∧ m_to m ≠ "" ∧
     header_ok (m_from m) = true ∧ header_ok (m_to m) = true ∧ header_ok (m_subject m) = true) ∧
  (ok = false ↔
     contact nd ≠ "" ∧ truthy (default JNull (s !! "notify_enabled")) = true ∧
     (header_ok (_from s me) = false ∨ header_ok (contact nd) = false ∨
      header_ok (subject nd st i) = false ∨
      ∃ m, ms = [m] ∧ deliver m = false)).
Proof.
  unfold send, _build. case_bool_decide as Hc; [split_and!; [simpl; lia|by intros ? []%elem_of_nil|naive_solver]|].
  destruct (truthy _); cbn [negb]; [|split_and!; [simpl; lia|by intros ? []%elem_of_nil|naive_solver]].
  cbn [m_from m_to m_subject].
  destruct (header_ok (_from s me)) eqn:E1, (header_ok (contact nd)) eqn:E2, (header_ok (subject nd st i)) eqn:E3;
    cbn [andb]; split_and!; try (simpl; lia); try (by intros ? []%elem_of_nil); try naive_solver.
  intros m ->%list_elem_of_singleton. done.
Qed.

Lemma render_message_exact_witness :
  render_message (λ _, "Jan 01 00:00:00") "%h: 100%x %d" (new_node "r1" PING) (new_state 2 0) "me" 3720
  = "r1: 100%x 00:01:02".
Proof.
  destruct (render_message_exact (λ _, "Jan 01 00:00:00") (new_node "r1" PING) (new_state 2 0) "me" 3720
    [Tok "h"%char; Lit ": 100"; Tok "x"%char; Lit " "; Tok "d"%char]) as [H _].
  - reflexivity.
  - exact H.
Defined.
