(* ===== verification/Detect.v ===== *)
(** * Config-format detection (src/psysmon/config/detect.py) *)
From Stdlib Require Import Ascii.
From S2P Require Import Prelude PyStr.

Inductive ConfigFormat : Type := LEGACY | MODERN.

#[export] Instance ConfigFormat_eq_dec : EqDecision ConfigFormat.
Proof. solve_decision. Defined.

(** [object NAME {], [root = ...] or [set NAME = ...], on whitespace-separated tokens. *)
Definition _is_modern_line (stripped first : string) : bool :=
  let tokens := split stripped in
  (bool_decide (first = "object") && bool_decide (tokens !! 2%nat = Some "{"))
  || (bool_decide (first ∈ ["root"; "set"]) && bool_decide ("=" ∈ tokens)).

(** A blank line or a comment. *)
Definition skipped (stripped : string) : bool :=
  match stripped with
  | EmptyString => true
  | String c _ => bool_decide (c = ";"%char) || bool_decide (c = "#"%char)
  end.

(** [stripped.split(None, 1)[0]] of a non-empty stripped line. *)
Definition first_word (stripped : string) : string := default "" (head (split stripped)).

Fixpoint detect_lines (lines : list string) : ConfigFormat :=
  match lines with
  | [] => LEGACY
  | raw :: lines' =>
      let stripped := strip raw in
      if skipped stripped then detect_lines lines'
      else
        let first := first_word stripped in
        if bool_decide (first = "config") then detect_lines lines'
        else if _is_modern_line stripped first then MODERN else LEGACY
  end.

Definition detect (text : string) : ConfigFormat := detect_lines (splitlines text).

(** ** Properties *)

(** A line that does not discriminate. *)
Definition neutral (raw : string) : bool :=
  skipped (strip raw) || bool_decide (first_word (strip raw) = "config").

(** The format is modern exactly when the first discriminating line has a modern shape:
    everything before it is blank, a comment or a [config] line. *)
Theorem detect_first_signal (text : string) :
  detect text = MODERN ↔
  ∃ pre line post, splitlines text = pre ++ line :: post ∧ forallb neutral pre = true ∧
    neutral line = false ∧ _is_modern_line (strip line) (first_word (strip line)) = true.
Proof.
  unfold detect. induction (splitlines text) as [|raw lines IH]; cbn [detect_lines].
  { split; [done|]. intros (pre & line & post & H & _). by destruct pre. }
  assert (neutral raw = true → detect_lines lines = MODERN ↔ ∃ pre line post, raw :: lines = pre ++ line :: post ∧
    forallb neutral pre = true ∧ neutral line = false ∧
    _is_modern_line (strip line) (first_word (strip line)) = true) as Hn.
  { intros Hraw. rewrite IH. split.
    - intros (pre & line & post & -> & Hp & ?). exists (raw :: pre), line, post. simpl. by rewrite Hraw.
    - intros (pre & line & post & H & Hp & Hl & ?). destruct pre as [|x pre]; simplify_eq/=; [congruence|].
      apply andb_true_iff in Hp as [_ Hp]. eauto 10. }
  unfold neutral in Hn at 1.
  destruct (skipped (strip raw)) eqn:Es; [by apply Hn|].
  destruct (bool_decide (first_word (strip raw) = "config")) eqn:Ec; [by apply Hn|].
  assert (neutral raw = false) as Hf by (unfold neutral; by rewrite Es, Ec).
  destruct (_is_modern_line _ _) eqn:Em.
  - split; [|done]. intros _. exists [], raw, lines. done.
  - split; [done|]. intros (pre & line & post & H & Hp & Hl & Hm). destruct pre as [|x pre]; simplify_eq/=.
    + congruence.
    + apply andb_true_iff in Hp as [Hp _]. congruence.
Qed.
