(* ===== verification/Privilege.v ===== *)
(** * Dropping privileges (src/psysmon/privilege.py)

    The credentials of a process and the POSIX rules by which the three calls change them:
    a process with effective user 0 may become anyone, another one only switch its effective
    ids among its real and saved ones. *)
From S2P Require Import Prelude.

Record creds : Type := MkCreds {
  ruid : Z; euid : Z; suid : Z;
  rgid : Z; egid : Z; sgid : Z;
  groups : list Z
}.

(** [PermissionError] of a call, [KeyError] of an unknown name, [PrivilegeError]. *)
Inductive priv_error : Type := PermissionError | UnknownName | PrivilegeError.

Definition setgroups (gs : list Z) (c : creds) : res priv_error creds :=
  if euid c =? 0 then Ok (MkCreds (ruid c) (euid c) (suid c) (rgid c) (egid c) (sgid c) gs) else Raise PermissionError.

Definition setgid (g : Z) (c : creds) : res priv_error creds :=
  if euid c =? 0 then Ok (MkCreds (ruid c) (euid c) (suid c) g g g (groups c))
  else if (g =? rgid c) || (g =? sgid c)
  then Ok (MkCreds (ruid c) (euid c) (suid c) (rgid c) g (sgid c) (groups c)) else Raise PermissionError.

Definition setuid (u : Z) (c : creds) : res priv_error creds :=
  if euid c =? 0 then Ok (MkCreds u u u (rgid c) (egid c) (sgid c) (groups c))
  else if (u =? ruid c) || (u =? suid c)
  then Ok (MkCreds (ruid c) u (suid c) (rgid c) (egid c) (sgid c) (groups c)) else Raise PermissionError.

(** [drop_privileges]; [getgrnam] and [getpwnam] are the account databases. *)
Definition drop_privileges (posix : bool) (getgrnam getpwnam : string → option Z) (user group : string) (c : creds)
    : res priv_error creds :=
  if negb posix then Raise PrivilegeError
  else if negb (euid c =? 0) then Raise PrivilegeError
  else
    match getgrnam group, getpwnam user with
    | Some gid, Some uid =>
        let! c1 := setgroups [] c in
        let! c2 := setgid gid c1 in
        setuid uid c2
    | _, _ => Raise UnknownName
    end.

(** Any call made afterwards, failed ones included. *)
Inductive cred_step : creds → creds → Prop :=
| cs_groups gs c c' : setgroups gs c = Ok c' → cred_step c c'
| cs_gid g c c' : setgid g c = Ok c' → cred_step c c'
| cs_uid u c c' : setuid u c = Ok c' → cred_step c c'.

(** C38: the drop is for good.  On POSIX, as root and with both names known, it always succeeds;
    and if the user is not root itself, nothing the process does afterwards changes a user or
    group id or adds a supplementary group. *)
Theorem drop_is_permanent (getgrnam getpwnam : string → option Z) (user group : string) (c : creds) (uid gid : Z)
    (Hroot : euid c = 0) (Hg : getgrnam group = Some gid) (Hu : getpwnam user = Some uid) (Hnot : uid ≠ 0) :
  ∃ c', drop_privileges true getgrnam getpwnam user group c = Ok c' ∧ c' = MkCreds uid uid uid gid gid gid [] ∧
    ∀ c'', rtc cred_step c' c'' → c'' = c'.
Proof.
  exists (MkCreds uid uid uid gid gid gid []). split_and!; [|done|].
  - unfold drop_privileges, setgroups, setgid, setuid. rewrite Hroot, Hg, Hu. reflexivity.
  - assert (∀ c'', cred_step (MkCreds uid uid uid gid gid gid []) c'' → c'' = MkCreds uid uid uid gid gid gid []) as Hstep.
    { apply Z.eqb_neq in Hnot. intros c'' Hs.
      inversion Hs as [gs ? ? H|g ? ? H|u ? ? H]; subst; unfold setgroups, setgid, setuid in H; simpl in H; rewrite Hnot in H.
      - done.
      - destruct (g =? gid) eqn:E; [|done]. apply Z.eqb_eq in E. by simplify_eq/=.
      - destruct (u =? uid) eqn:E; [|done]. apply Z.eqb_eq in E. by simplify_eq/=. }
    intros c'' Hrun. remember (MkCreds uid uid uid gid gid gid []) as c0. induction Hrun as [|a b d Hab _ IH]; [done|].
    subst a. apply Hstep in Hab as ->. by apply IH.
Qed.

(** The order matters: with the user dropped first, the group and the supplementary groups
    can no longer be. *)
Lemma uid_first_fails c uid gid c1 :
  euid c = 0 → uid ≠ 0 → gid ≠ rgid c → gid ≠ sgid c → setuid uid c = Ok c1 →
  setgid gid c1 = Raise PermissionError ∧ setgroups [] c1 = Raise PermissionError.
Proof.
  intros Hroot Hu Hr Hs H. unfold setuid in H. rewrite Hroot in H. simpl in H. injection H as <-.
  unfold setgid, setgroups. simpl. rewrite (proj2 (Z.eqb_neq _ _) Hu), (proj2 (Z.eqb_neq _ _) Hr), (proj2 (Z.eqb_neq _ _) Hs). done.
Qed.

Lemma drop_is_permanent_witness :
  ∃ c', drop_privileges true (λ _, Some 65534) (λ _, Some 65534) "nobody" "nogroup" (MkCreds 1000 0 0 1000 0 0 [4; 27]) = Ok c' ∧
    ruid c' = 65534 ∧ groups c' = [] ∧ ∀ c'', rtc cred_step c' c'' → c'' = c'.
Proof.
  destruct (drop_is_permanent (λ _, Some 65534) (λ _, Some 65534) "nobody" "nogroup" (MkCreds 1000 0 0 1000 0 0 [4; 27]) 65534 65534)
    as (c' & Hd & Hc & Hp).
  - reflexivity.
  - reflexivity.
  - reflexivity.
  - discriminate.
  - exists c'. split; [exact Hd|]. rewrite Hc. split; [reflexivity|]. split; [reflexivity|]. rewrite <- Hc. exact Hp.
Defined.
