(* ===== verification/Cli.v ===== *)
(** * The command line (src/psysmon/config/settings.py)

    The option table of [build_parser] and what argparse makes of a command line.  A command
    line is given as the occurrences argparse splits it into: the option as written in full,
    and its value if it has one (the spellings [--opt value], [--opt=value], [-fvalue] and
    unambiguous abbreviations are one occurrence each).  The parser has no positional
    arguments. *)
From Stdlib Require Import Ascii.
From S2P Require Import Prelude Json Model Settings PyStr PyNum PyDict Modern.

Inductive action : Type :=
| Store
| StoreInt
| StoreFloat
| Choice (choices : list string)
| StoreTrue
| Count
| ShowVersion
| ShowHelp.

Record opt : Type := MkOpt { flags : list string; dest : string; act : action }.

(** [build_parser]; [-h] is argparse's own. *)
Definition build_parser : list opt :=
  [MkOpt ["-h"; "--help"] "help" ShowHelp;
   MkOpt ["--version"] "version" ShowVersion;
   MkOpt ["-f"; "--config"] "config_path" Store;
   MkOpt ["--status-file"] "status_path" Store;
   MkOpt ["--status-format"] "status_format" (Choice ["html"; "text"]);
   MkOpt ["--status-refresh"] "status_refresh_s" StoreInt;
   MkOpt ["--show-up"] "show_up" StoreTrue;
   MkOpt ["--source-ip"] "source_ip" Store;
   MkOpt ["--hostname"] "org_hostname" Store;
   MkOpt ["--interval"] "interval_s" StoreFloat;
   MkOpt ["--max-concurrency"] "max_concurrency" StoreInt;
   MkOpt ["--numfailures"] "numfailures" StoreInt;
   MkOpt ["--pageinterval"] "pageinterval_min" StoreInt;
   MkOpt ["--slow-check"] "slow_check_s" StoreFloat;
   MkOpt ["--send-pings"] "send_pings" StoreInt;
   MkOpt ["--min-pings"] "min_pings" StoreInt;
   MkOpt ["--page-on-degraded"] "page_on_degraded" StoreTrue;
   MkOpt ["--contact-on"] "contact_on" (Choice CONTACT_ON_CHOICES);
   MkOpt ["--dnsexpire"] "dnsexpire_s" StoreInt;
   MkOpt ["--dnslog"] "dnslog_s" StoreInt;
   MkOpt ["--state-file"] "state_path" Store;
   MkOpt ["--state-save-interval"] "statesave_s" StoreInt;
   MkOpt ["--state-max-age"] "state_max_age_s" StoreInt;
   MkOpt ["--smtp-host"] "smtp_host" Store;
   MkOpt ["--smtp-port"] "smtp_port" StoreInt;
   MkOpt ["--mail-from"] "mail_from" Store;
   MkOpt ["-n"; "--no-notify"] "no_notify" StoreTrue;
   MkOpt ["--syslog-facility"] "syslog_facility" Store;
   MkOpt ["--log-level"] "log_level" (Choice ["warning"; "info"; "debug"]);
   MkOpt ["-v"; "--verbose"] "verbose" Count;
   MkOpt ["--heartbeat"] "heartbeat_s" StoreInt;
   MkOpt ["-d"; "--no-fork"] "no_fork" StoreTrue;
   MkOpt ["--control"] "control" StoreTrue;
   MkOpt ["--control-bind"] "control_bind" Store;
   MkOpt ["--control-port"] "control_port" StoreInt;
   MkOpt ["--control-token-file"] "control_token_file" Store;
   MkOpt ["--control-tls-cert"] "control_tls_cert" Store;
   MkOpt ["--control-tls-key"] "control_tls_key" Store].

(** One occurrence of an option. *)
Abbreviation occurrence := (string * option string)%type.
Abbreviation namespace := (list (string * oval)).

(** [SystemExit]: 0 after the help or the version, 2 after a usage error. *)
Inductive cli_exit : Type := SystemExit (code : Z).

Definition usage_error {A} : res cli_exit A := Raise (SystemExit 2).

Definition find_opt (flag : string) : option opt :=
  head (filter (λ o, flag ∈ flags o) build_parser).

(** [namespace.dest += 1], from an absent attribute. *)
Definition count_up (ns : namespace) (d : string) : oval :=
  match aget ns d with Some (OV (JInt n)) => OV (JInt (n + 1)) | _ => OV (JInt 1) end.

(** The action of one occurrence. *)
Definition take_action (ns : namespace) (o : opt) (value : option string) : res cli_exit namespace :=
  match act o, value with
  | Store, Some v => Ok (aset ns (dest o) (OV (JStr v)))
  | StoreInt, Some v =>
      match py_int v with Some z => Ok (aset ns (dest o) (OV (JInt z))) | None => usage_error end
  | StoreFloat, Some v =>
      match py_float v with Some f => Ok (aset ns (dest o) (oval_of_float f)) | None => usage_error end
  | Choice cs, Some v => if bool_decide (v ∈ cs) then Ok (aset ns (dest o) (OV (JStr v))) else usage_error
  | StoreTrue, None => Ok (aset ns (dest o) (OV (JBool true)))
  | Count, None => Ok (aset ns (dest o) (count_up ns (dest o)))
  | ShowVersion, None | ShowHelp, None => Raise (SystemExit 0)
  | _, _ => usage_error
  end.

Fixpoint parse_args (ns : namespace) (argv : list occurrence) : res cli_exit namespace :=
  match argv with
  | [] => Ok ns
  | (flag, value) :: argv' =>
      match find_opt flag with
      | None => usage_error
      | Some o => let! ns' := take_action ns o value in parse_args ns' argv'
      end
  end.

(** The values as settings; [None] when one is a non-finite float. *)
Definition finite (ns : namespace) : option dict :=
  mapM (λ kv : string * oval, match kv.2 with OV j => Some (kv.1, j) | ONonFinite _ => None end) ns.

(** ** Types of the settings *)

Inductive kind_of_field : Type := FStr | FOptStr | FInt | FFloat | FBool | FChoice (cs : list string).

Definition field_kinds : list (string * kind_of_field) :=
  [("config_path", FStr); ("status_path", FOptStr); ("status_html", FBool);
   ("status_refresh_s", FInt); ("show_up_also", FBool);
   ("source_ip", FOptStr); ("org_hostname", FOptStr);
   ("interval_s", FFloat); ("max_concurrency", FInt); ("numfailures", FInt);
   ("pageinterval_min", FInt); ("slow_check_s", FFloat);
   ("send_pings", FInt); ("min_pings", FInt); ("page_on_degraded", FBool);
   ("contact_on", FChoice CONTACT_ON_CHOICES);
   ("dnsexpire_s", FInt); ("dnslog_s", FInt);
   ("state_path", FOptStr); ("statesave_s", FInt); ("state_max_age_s", FInt);
   ("smtp_host", FStr); ("smtp_port", FInt); ("mail_from", FOptStr);
   ("notify_enabled", FBool);
   ("syslog_facility", FOptStr); ("log_level", FChoice _LOGLEVELS); ("heartbeat_s", FInt);
   ("foreground", FBool);
   ("control_enabled", FBool); ("control_bind", FStr); ("control_port", FInt);
   ("control_token_file", FOptStr); ("control_tls_cert", FOptStr); ("control_tls_key", FOptStr)].

(** The value has the type the field is declared with. *)
Definition has_kind (k : kind_of_field) (v : json) : bool :=
  match k, v with
  | FStr, JStr _ | FOptStr, JStr _ | FOptStr, JNull | FInt, JInt _ | FFloat, JFloat _ | FBool, JBool _ => true
  | FChoice cs, JStr s => bool_decide (s ∈ cs)
  | _, _ => false
  end.

Definition typed_item (kv : string * json) : bool :=
  match aget field_kinds kv.1 with Some k => has_kind k kv.2 | None => false end.

Definition settings_typed (s : Settings) : Prop :=
  ∀ k, k ∈ _FIELD_NAMES → ∃ v, s !! k = Some v ∧ typed_item (k, v) = true.

(** ** Facts *)

Example parse_ex :
  parse_args [] [("-f", Some "/etc/x"); ("--interval", Some "15"); ("-v", None); ("-v", None); ("--no-fork", None)] =
  Ok [("config_path", OV (JStr "/etc/x")); ("interval_s", OV (JFloat 15)); ("verbose", OV (JInt 2));
      ("no_fork", OV (JBool true))].
Proof. vm_compute. reflexivity. Qed.

Lemma field_kinds_names : akeys field_kinds = _FIELD_NAMES.
Proof. vm_compute. reflexivity. Qed.

Lemma typed_item_field k v : typed_item (k, v) = true → k ∈ _FIELD_NAMES.
Proof.
  unfold typed_item. cbn [fst snd]. rewrite <- field_kinds_names. destruct (aget field_kinds k) eqn:E; [|done]. intros _.
  apply aget_elem in E. apply list_elem_of_fmap. by exists (k, k0).
Qed.

(** An item of the namespace: of its field's type, or one of the options that are translated. *)
Definition cli_ok (kv : string * oval) : bool :=
  match aget field_kinds kv.1, kv.2 with
  | Some kd, OV j => has_kind kd j
  | Some FFloat, ONonFinite _ => true
  | None, OV (JStr _) => bool_decide (kv.1 = "status_format")
  | None, OV (JBool _) => bool_decide (kv.1 ∈ ["no_notify"; "no_fork"; "show_up"; "control"])
  | None, OV (JInt _) => bool_decide (kv.1 = "verbose")
  | _, _ => false
  end.

(** The table agrees with the fields. *)
Definition opt_ok (o : opt) : bool :=
  match act o, aget field_kinds (dest o) with
  | Store, Some FStr | Store, Some FOptStr | StoreInt, Some FInt | StoreFloat, Some FFloat | StoreTrue, Some FBool => true
  | Choice cs, Some (FChoice cs') => forallb (λ c, bool_decide (c ∈ cs')) cs
  | Choice _, None => bool_decide (dest o = "status_format")
  | StoreTrue, None => bool_decide (dest o ∈ ["no_notify"; "no_fork"; "show_up"; "control"])
  | Count, None => bool_decide (dest o = "verbose")
  | ShowVersion, _ | ShowHelp, _ => true
  | _, _ => false
  end.

Lemma table_matches_fields : forallb opt_ok build_parser = true.
Proof. vm_compute. reflexivity. Qed.

Lemma find_opt_ok flag o : find_opt flag = Some o → opt_ok o = true.
Proof.
  unfold find_opt. intros H. assert (o ∈ filter (λ o, flag ∈ flags o) build_parser) as Hin.
  { destruct (filter _ _); [done|]. injection H as ->. apply list_elem_of_here. }
  apply list_elem_of_filter in Hin as [_ Hin%list_elem_of_In].
  by eapply forallb_forall in Hin; [|apply table_matches_fields].
Qed.

Lemma aset_forall {A} (P : string * A → Prop) d k v : Forall P d → P (k, v) → Forall P (aset d k v).
Proof.
  intros Hd Hv. apply Forall_forall. intros [k' v'] [[-> ->]|Hin]%aset_elem; [done|]. by eapply Forall_forall in Hin.
Qed.

Lemma take_action_ok ns o value ns' :
  opt_ok o = true → Forall (λ kv, cli_ok kv = true) ns → take_action ns o value = Ok ns' →
  Forall (λ kv, cli_ok kv = true) ns'.
Proof.
  intros Ho Hns. unfold take_action, opt_ok, usage_error in *.
  destruct (act o), value as [v|]; try done; repeat case_match; intros [= <-]; try done;
    apply aset_forall; try done; unfold cli_ok; cbn [fst snd].
  all: repeat match goal with H : aget field_kinds (dest ?x) = _ |- context [aget field_kinds (dest ?x)] => rewrite H end; try done.
  - by destruct p.
  - cbn [has_kind]. to_prop. eapply forallb_forall in Ho; [by apply bool_decide_eq_true in Ho|]. by apply list_elem_of_In.
  - unfold count_up. by repeat case_match.
Qed.

Lemma parse_args_ok argv ns ns' :
  Forall (λ kv, cli_ok kv = true) ns → parse_args ns argv = Ok ns' → Forall (λ kv, cli_ok kv = true) ns'.
Proof.
  revert ns. induction argv as [|[flag value] argv IH]; intros ns Hns; simpl; [by intros [= <-]|].
  destruct (find_opt flag) as [o|] eqn:Eo; [|done]. intros (ns1 & Ht & Hp)%res_bind_ok.
  eapply IH; [|exact Hp]. eapply take_action_ok; [by eapply find_opt_ok|exact Hns|exact Ht].
Qed.

(** Each key once. *)
Lemma aset_nodup {A} (d : list (string * A)) k v : NoDup (akeys d) → NoDup (akeys (aset d k v)).
Proof.
  intros H. destruct (decide (k ∈ akeys d)); [by rewrite akeys_aset|]. rewrite akeys_aset_fresh by done.
  apply NoDup_app. split; [done|]. split; [|apply NoDup_singleton]. by intros x ? ->%list_elem_of_singleton.
Qed.

Lemma parse_args_nodup argv ns ns' : NoDup (akeys ns) → parse_args ns argv = Ok ns' → NoDup (akeys ns').
Proof.
  revert ns. induction argv as [|[flag value] argv IH]; intros ns Hns; simpl; [by intros [= <-]|].
  destruct (find_opt flag) as [o|] eqn:Eo; [|done]. intros (ns1 & Ht & Hp)%res_bind_ok. eapply IH; [|exact Hp].
  unfold take_action, usage_error in Ht. repeat case_match; simplify_eq; by apply aset_nodup.
Qed.

Lemma finite_items ns d : finite ns = Some d → Forall2 (λ kv kv', kv.1 = kv'.1 ∧ kv.2 = OV kv'.2) ns d.
Proof.
  unfold finite. intros H%mapM_Some. eapply Forall2_impl; [exact H|]. intros [k v] [k' v'] Hv. simpl in *.
  destruct v; [|done]. by simplify_eq.
Qed.

Lemma finite_keys ns d : finite ns = Some d → fst <$> d = akeys ns.
Proof. intros H%finite_items. unfold akeys. induction H as [|[] [] ?? []]; csimpl in *; [done|]. congruence. Qed.

Definition raw_ok (kv : string * json) : bool := cli_ok (kv.1, OV kv.2).

Lemma finite_ok ns d : Forall (λ kv, cli_ok kv = true) ns → finite ns = Some d → Forall (λ kv, raw_ok kv = true) d.
Proof.
  intros Hns H%finite_items. induction H as [|[k v] [k' v'] ns d [Hk Hv] _ IH]; [constructor|]. simpl in *. subst.
  apply Forall_cons in Hns as [? ?]. constructor; [done|by apply IH].
Qed.

Lemma dict_set_typed d k v :
  Forall (λ kv, typed_item kv = true) d → typed_item (k, v) = true → Forall (λ kv, typed_item kv = true) (dict_set d k v).
Proof.
  intros Hd Hv. induction Hd as [|[k' v'] d Hk Hd IH]; simpl; [by repeat constructor|]. case_bool_decide; by constructor.
Qed.

Lemma dict_set_keys d k v : dict_ok d → dict_ok (dict_set d k v).
Proof.
  unfold dict_ok. intros Hd. induction d as [|[k' v'] d IH]; csimpl; [apply NoDup_singleton|].
  apply NoDup_cons in Hd as [Hni Hd]. case_bool_decide as E; csimpl.
  - subst. by apply NoDup_cons.
  - apply NoDup_cons. split; [|by apply IH]. intros Hin. apply Hni.
    clear -Hin E. induction d as [|[k1 v1] d IHd]; csimpl in *; [by apply list_elem_of_singleton in Hin|].
    case_bool_decide; csimpl in *; apply elem_of_cons in Hin as [->|Hin]; apply elem_of_cons; auto.
Qed.

Lemma set_if_typed b d k v :
  typed_item (k, v) = true → Forall (λ kv, typed_item kv = true) d → dict_ok d →
  Forall (λ kv, typed_item kv = true) (set_if b k v d) ∧ dict_ok (set_if b k v d).
Proof. intros Hv Hd Hok. destruct b; simpl; [|done]. split; [by apply dict_set_typed|by apply dict_set_keys]. Qed.

Lemma cli_overrides_typed raw :
  Forall (λ kv, raw_ok kv = true) raw → dict_ok raw →
  Forall (λ kv, typed_item kv = true) (cli_overrides raw) ∧ dict_ok (cli_overrides raw).
Proof.
  intros Hraw Hok. unfold cli_overrides.
  set (out0 := filter (λ kv : string * json, kv.1 ∈ _FIELD_NAMES) raw).
  assert (Forall (λ kv, typed_item kv = true) out0 ∧ dict_ok out0) as H0.
  { split.
    - apply Forall_forall. intros [k v] [Hk Hin]%list_elem_of_filter. eapply Forall_forall in Hraw; [|exact Hin].
      unfold raw_ok, cli_ok, typed_item in *. cbn [fst snd] in *. rewrite <- field_kinds_names in Hk.
      destruct (aget field_kinds k) as [kd|] eqn:E; [by destruct kd|]. by apply aget_None in E.
    - unfold dict_ok, out0 in *. clear Hraw. induction raw as [|[k v] raw IH]; [constructor|]. csimpl in *.
      apply NoDup_cons in Hok as [Hni Hok]. rewrite filter_cons. case_decide; [|by apply IH]. csimpl.
      apply NoDup_cons. split; [|by apply IH]. intros (kv & -> & [_ Hin]%list_elem_of_filter)%list_elem_of_fmap.
      apply Hni. by apply list_elem_of_fmap_2. }
  set (out1 := match dict_get raw "status_format" with Some _ => _ | None => _ end).
  assert (Forall (λ kv, typed_item kv = true) out1 ∧ dict_ok out1) as H1.
  { subst out1. destruct (dict_get raw "status_format"); [|exact H0]. by apply (set_if_typed true); [|apply H0..]. }
  destruct (set_if_typed (truthy (get_or_none raw "no_notify")) out1 "notify_enabled" (JBool false)) as [H2 H2']; [done|apply H1..|].
  destruct (set_if_typed (truthy (get_or_none raw "no_fork")) _ "foreground" (JBool true) eq_refl H2 H2') as [H3 H3'].
  destruct (set_if_typed (truthy (get_or_none raw "show_up")) _ "show_up_also" (JBool true) eq_refl H3 H3') as [H4 H4'].
  destruct (set_if_typed (truthy (get_or_none raw "control")) _ "control_enabled" (JBool true) eq_refl H4 H4') as [H5 H5'].
  revert H5 H5'. generalize (set_if (truthy (get_or_none raw "control")) "control_enabled" (JBool true)
    (set_if (truthy (get_or_none raw "show_up")) "show_up_also" (JBool true)
       (set_if (truthy (get_or_none raw "no_fork")) "foreground" (JBool true)
          (set_if (truthy (get_or_none raw "no_notify")) "notify_enabled" (JBool false) out1)))).
  intros out H5 H5'. destruct (dict_get out "log_level"); [done|]. destruct (get_or_none raw "verbose"); try done.
  apply set_if_typed; [by destruct (2 <=? z)|done|done].
Qed.

Lemma apply_layer_typed d s :
  Forall (λ kv, typed_item kv = true) d → settings_typed s → ∃ s', apply_layer d s = Ok s' ∧ settings_typed s'.
Proof.
  intros Hd. revert s. induction Hd as [|[k v] d Hk Hd IH]; intros s Hs; simpl; [by exists s|].
  rewrite bool_decide_eq_true_2 by (by eapply typed_item_field). apply IH. intros k' Hk'.
  destruct (decide (k' = k)) as [->|Hne]; [exists v; by rewrite lookup_insert_eq|]. rewrite lookup_insert_ne by done. by apply Hs.
Qed.

Lemma default_typed : settings_typed Settings_default.
Proof.
  intros k Hk. rewrite default_lookup. apply list_elem_of_fmap in Hk as ([k' v] & -> & Hin). exists v. split.
  - apply list_elem_of_lookup in Hin as [i Hi]. revert i Hi. assert (∀ d : dict, dict_ok d → ∀ i, d !! i = Some (k', v) → dict_get d k' = Some v) as H.
    { induction d as [|[k1 v1] d IH]; intros Hok i Hi; [done|]. unfold dict_ok in Hok. csimpl in *. apply NoDup_cons in Hok as [Hni Hok].
      destruct i as [|i]; simpl in Hi; [simplify_eq; by rewrite bool_decide_eq_true_2|].
      rewrite bool_decide_eq_false_2; [by eapply IH|]. intros ->. apply Hni. apply list_elem_of_fmap.
      exists (k1, v). split; [done|]. by eapply list_elem_of_lookup_2. }
    intros i Hi. eapply H; [apply default_fields_ok|exact Hi].
  - assert (forallb typed_item default_fields = true) as H by (vm_compute; reflexivity).
    eapply forallb_forall in H; [exact H|]. by apply list_elem_of_In.
Qed.

Lemma merge_typed file cli :
  Forall (λ kv, typed_item kv = true) file → Forall (λ kv, typed_item kv = true) cli →
  ∃ s, merge file cli = Ok s ∧ settings_typed s.
Proof.
  intros Hf Hc. unfold merge. destruct (apply_layer_typed file Settings_default Hf default_typed) as (s1 & -> & H1).
  simpl. by apply apply_layer_typed.
Qed.

(** The command line and the settings.  A command line that argparse accepts, with finite
    numbers, merges over any well-typed layer of the configuration file without an error, and
    every field of the effective settings has its declared type; a field the command line
    sets has the value it gives, the others that of the file, or the default. *)
Theorem cli_settings_typed (argv : list occurrence) (ns : namespace) (raw file : dict)
    (Hp : parse_args [] argv = Ok ns) (Hfin : finite ns = Some raw)
    (Hfile : Forall (λ kv, typed_item kv = true) file) (Hkeys : dict_ok file) :
  ∃ s, merge file (cli_overrides raw) = Ok s ∧ settings_typed s ∧
    ∀ k, s !! k = match dict_get (cli_overrides raw) k with
                  | Some v => Some v
                  | None => match dict_get file k with Some v => Some v | None => dict_get default_fields k end
                  end.
Proof.
  assert (Forall (λ kv, raw_ok kv = true) raw) as Hraw by (eapply finite_ok; [eapply parse_args_ok; [constructor|exact Hp]|exact Hfin]).
  assert (dict_ok raw) as Hok.
  { unfold dict_ok. rewrite (finite_keys _ _ Hfin). eapply (parse_args_nodup argv []); [apply NoDup_nil_2|exact Hp]. }
  destruct (cli_overrides_typed raw Hraw Hok) as [Ht Hd]. destruct (merge_typed file _ Hfile Ht) as (s & Hm & Hs).
  exists s. split_and!; [done|done|]. pose proof (merge_precedence file (cli_overrides raw) Hkeys Hd) as H. rewrite Hm in H. apply H.
Qed.

Lemma cli_settings_typed_witness :
  ∃ s, merge [("numfailures", JInt 5)] (cli_overrides [("interval_s", JFloat 15); ("no_fork", JBool true)]) = Ok s ∧
    settings_typed s ∧ s !! "interval_s" = Some (JFloat 15) ∧ s !! "numfailures" = Some (JInt 5).
Proof.
  destruct (cli_settings_typed [("--interval", Some "15"); ("-d", None)] [("interval_s", OV (JFloat 15)); ("no_fork", OV (JBool true))]
    [("interval_s", JFloat 15); ("no_fork", JBool true)] [("numfailures", JInt 5)]) as (s & Hm & Ht & Hs).
  - vm_compute. reflexivity.
  - reflexivity.
  - repeat constructor.
  - apply NoDup_singleton.
  - exists s. split; [exact Hm|]. split; [exact Ht|]. split; rewrite Hs; vm_compute; reflexivity.
Defined.
