(* ===== verification/ConfigTyped.v ===== *)
(** * The overrides of a configuration file

    Both parsers fill a dict of settings overrides.  Here: every override names a field of
    [Settings] and holds a value of that field's type, so that [merge] accepts it. *)
From Stdlib Require Import Ascii.
From S2P Require Import Prelude Status Model Json Settings PyStr PyNum PyDict Lexer Modern ModernForest ModernSpec Legacy LegacySpec Cli.

#[export] Instance kind_of_field_eq_dec : EqDecision kind_of_field.
Proof. solve_decision. Defined.

(** A typed override; the only non-finite ones are floats. *)
Definition typed_override (kv : string * oval) : bool :=
  match kv.2 with
  | OV j => typed_item (kv.1, j)
  | ONonFinite _ => bool_decide (aget field_kinds kv.1 = Some FFloat)
  end.

Abbreviation typed_overrides := (Forall (λ kv, typed_override kv = true)).

(** ** The legacy parser *)

Lemma mem_cases k l : mem k l = true → k ∈ l.
Proof. unfold mem. by intros ?%bool_decide_eq_true. Qed.

(** One case for each key of an explicit list. *)
Ltac each_key H :=
  apply mem_cases in H; repeat (apply elem_of_cons in H as [->|H]; [try reflexivity|]); [..|by apply elem_of_nil in H].

Lemma legacy_override_typed kv : override_ok kv = true → typed_override kv = true.
Proof.
  destruct kv as [k [j|f]]; [destruct j as [|b|z|q|s|l|d]|]; simpl; try done; unfold typed_override, typed_item; cbn [fst snd].
  - by intros ->%bool_decide_eq_true.
  - intros H. by each_key H.
  - intros H. by each_key H.
  - by intros ->%bool_decide_eq_true.
  - intros [[H|[->%bool_decide_eq_true H]%andb_true_iff]%orb_true_iff|[->%bool_decide_eq_true H]%andb_true_iff]%orb_true_iff.
    + by each_key H.
    + done.
    + exact H.
  - by intros ->%bool_decide_eq_true.
Qed.

(** ** The modern parser *)

Definition oks {A} (m : M A) : Prop :=
  ∀ st, typed_overrides (overrides st) →
    match m st with Ok (_, st') => typed_overrides (overrides st') | Raise _ => True end.

Lemma oks_ret {A} (a : A) : oks (mret a).
Proof. by intros st. Qed.

Lemma oks_bind {A B} (m : M A) (k : A → M B) : oks m → (∀ a, oks (k a)) → oks (m ≫= k).
Proof.
  intros Hm Hk st H. specialize (Hm st H). unfold mbind, M_bind. destruct (m st) as [[a st1]|]; [|done].
  by apply Hk.
Qed.

Lemma oks_get {A} (f : PState → A) : oks (get f).
Proof. by intros st. Qed.

Lemma oks_raise {A} e : oks (raise (A := A) e).
Proof. by intros st. Qed.

Lemma oks_modify f : (∀ st, overrides (f st) = overrides st) → oks (modify f).
Proof. intros Hf st H. unfold modify. by rewrite Hf. Qed.

Lemma oks_warn l msg : oks (_warn l msg).
Proof. apply oks_modify. by intros []. Qed.

Lemma oks_override f v : typed_override (f, v) = true → oks (set_override f v).
Proof. intros Hv st H. unfold set_override, modify. destruct st. simpl in *. by apply aset_forall. Qed.

Lemma oks_when b m : oks m → oks (when b m).
Proof. intros H. destruct b; [done|apply oks_ret]. Qed.

Lemma oks_for_each {A} (f : A → M unit) l : (∀ a, oks (f a)) → oks (for_each f l).
Proof. intros H. induction l; simpl; [apply oks_ret|]. by apply oks_bind. Qed.

Lemma oks_map_m {A B} (f : A → M B) l : (∀ a, oks (f a)) → oks (map_m f l).
Proof.
  intros H. induction l; simpl; [apply oks_ret|]. apply oks_bind; [done|]. intros b. apply oks_bind; [done|]. intros. apply oks_ret.
Qed.

Lemma oks_collect : oks _collect_to_semi.
Proof. intros st H. unfold _collect_to_semi. destruct (until_semi (toks st)) as [[c b] r]. by destruct st. Qed.

Create HintDb oks.
#[local] Hint Resolve oks_ret oks_get oks_raise oks_warn oks_collect oks_for_each oks_map_m : oks.

(** Follows the code: binds, conditionals, then the lemmas of what is called. *)
Ltac oks_code :=
  repeat match goal with
    | |- oks (mbind _ _) => apply oks_bind; [|intros]
    | |- oks (modify _) => apply oks_modify; by intros []
    | |- oks (when _ _) => apply oks_when
    | |- oks (for_each _ _) => apply oks_for_each; intros
    | |- oks (map_m _ _) => apply oks_map_m; intros
    | |- oks (let '(_, _) := ?p in _) => destruct p
    | |- oks (match ?x with _ => _ end) => destruct x
    | |- oks ((λ _, _) _) => cbv beta
    | |- _ => solve [auto with oks]
    end.

Lemma oks_segments l ss : oks (expand_segments l ss).
Proof. induction ss as [|[c|n] ss IH]; simpl; oks_code; by auto. Qed.
#[local] Hint Resolve oks_segments : oks.
Lemma oks_subst l v : oks (_subst l v).
Proof. apply oks_segments. Qed.
#[local] Hint Resolve oks_subst : oks.

Lemma oks_with_value l n vs k : (∀ r, oks (k r)) → oks (with_value l n vs k).
Proof. intros H. unfold with_value, _one_value. oks_code; auto. Qed.

(** Every field a directive sets, with the type of what it stores. *)
Lemma directives_typed :
  forallb (λ kv, bool_decide (aget field_kinds kv.2 = Some FInt)) _INT_DIRECTIVES &&
  forallb (λ kv, bool_decide (aget field_kinds kv.2 = Some FFloat)) _FLOAT_DIRECTIVES &&
  forallb (λ kv, bool_decide (aget field_kinds kv.2 = Some FStr) || bool_decide (aget field_kinds kv.2 = Some FOptStr)) _STR_DIRECTIVES &&
  forallb (λ kv, typed_item kv.2) _FLAG_DIRECTIVES = true.
Proof. vm_compute. reflexivity. Qed.

Lemma aget_forallb {A} (P : string * A → bool) d k v : forallb P d = true → aget d k = Some v → P (k, v) = true.
Proof. intros H Hk%aget_elem%list_elem_of_In. by eapply forallb_forall in H. Qed.

Lemma oks_apply_config l name vs : oks (_apply_config l name vs).
Proof.
  pose proof directives_typed as H. apply andb_true_iff in H as [[[Hi Hf]%andb_true_iff Hs]%andb_true_iff Hb].
  unfold _apply_config. destruct (aget _INT_DIRECTIVES name) as [f|] eqn:Ei.
  { eapply aget_forallb in Ei; [|exact Hi]. cbn [snd] in Ei. apply bool_decide_eq_true in Ei. apply oks_with_value. intros r. oks_code.
    apply oks_override. unfold typed_override, typed_item. cbn [fst snd]. by rewrite Ei. }
  destruct (aget _FLOAT_DIRECTIVES name) as [f|] eqn:Ef.
  { eapply aget_forallb in Ef; [|exact Hf]. cbn [snd] in Ef. apply bool_decide_eq_true in Ef. apply oks_with_value. intros r. oks_code.
    apply oks_override. unfold typed_override, typed_item. destruct p; cbn [oval_of_float fst snd]; rewrite Ef; done. }
  destruct (aget _STR_DIRECTIVES name) as [f|] eqn:Es.
  { eapply aget_forallb in Es; [|exact Hs]. cbn [snd] in Es. apply oks_with_value. intros r. apply oks_override.
    unfold typed_override, typed_item. cbn [fst snd]. by apply orb_true_iff in Es as [->%bool_decide_eq_true| ->%bool_decide_eq_true]. }
  destruct (aget _FLAG_DIRECTIVES name) as [[f v]|] eqn:Eb.
  { eapply aget_forallb in Eb; [|exact Hb]. cbn [snd] in Eb. oks_code. by apply oks_override. }
  repeat case_bool_decide; try apply oks_warn.
  - apply oks_with_value. intros r. destruct (mem (lower r) _LOGLEVELS) eqn:E; oks_code; apply oks_override; [exact E|reflexivity].
  - apply oks_with_value. intros r. case_bool_decide; [by apply oks_override|].
    destruct (mem r _FACILITIES); oks_code; by apply oks_override.
  - apply oks_with_value. intros r. destruct (mem r CONTACT_ON_CHOICES) eqn:E; oks_code; apply oks_override; [exact E|reflexivity].
  - unfold _set_statusfile. oks_code; by apply oks_override.
Qed.
#[local] Hint Resolve oks_apply_config : oks.

Lemma oks_take k : oks (_take k).
Proof. unfold _take, _peek_kind, advance. oks_code. Qed.
Lemma oks_take_value ks : oks (_take_value ks).
Proof. unfold _take_value, _peek_kind, advance. oks_code. Qed.
#[local] Hint Resolve oks_take oks_take_value : oks.
#[local] Hint Extern 1 (oks _take_word) => apply oks_take_value : oks.
#[local] Hint Extern 1 (oks _take_name) => apply oks_take_value : oks.
#[local] Hint Extern 1 (oks _skip_balanced) => apply oks_modify; by intros [] : oks.
#[local] Hint Extern 1 (oks advance) => apply oks_modify; by intros [] : oks.

Lemma oks_skip : oks _skip_block_or_semi.
Proof. unfold _skip_block_or_semi, _skip_block, _peek_kind. oks_code. Qed.
Lemma oks_collect_attr : oks _collect_attr.
Proof. unfold _collect_attr. oks_code. Qed.
Lemma oks_add_attr nm bl t vs at_ : oks (add_attr nm bl t vs at_).
Proof. unfold add_attr. oks_code. Qed.
#[local] Hint Resolve oks_skip oks_collect_attr oks_add_attr : oks.

Lemma oks_block_loop fuel nm bl at_ : oks (block_loop fuel nm bl at_).
Proof. revert at_. induction fuel as [|fuel IH]; intros at_; simpl; oks_code; apply IH. Qed.
#[local] Hint Resolve oks_block_loop : oks.
Lemma oks_block_attrs nm bl : oks (_collect_block_attrs nm bl).
Proof. unfold _collect_block_attrs. oks_code. Qed.
Lemma oks_first_value l vs : oks (first_value l vs).
Proof. unfold first_value. oks_code. Qed.
#[local] Hint Resolve oks_block_attrs oks_first_value : oks.
Lemma oks_resolve_attrs at_ : oks (resolve_attrs at_).
Proof. unfold resolve_attrs. oks_code. Qed.
Lemma oks_port l nm raw : oks (_port l nm raw).
Proof. unfold _port. oks_code. Qed.
Lemma oks_number_int l nm k raw : oks (_number_int l nm k raw).
Proof. unfold _number_int, bad_number. oks_code. Qed.
Lemma oks_number_float l nm k raw : oks (_number_float l nm k raw).
Proof. unfold _number_float, bad_number. oks_code. Qed.
Lemma oks_parse_source l who raw : oks (_parse_source l who raw).
Proof. unfold _parse_source. oks_code. Qed.
#[local] Hint Resolve oks_resolve_attrs oks_port oks_number_int oks_number_float oks_parse_source : oks.

Lemma oks_ping_counts l nm nd rs : oks (_apply_ping_counts l nm nd rs).
Proof. unfold _apply_ping_counts, opt_number, at_least_one. oks_code. Qed.
#[local] Hint Resolve oks_ping_counts : oks.
Lemma oks_apply_overrides l nm nd rs : oks (_apply_overrides l nm nd rs).
Proof. unfold _apply_overrides, on_key, apply_queuetime, apply_numfailures, apply_contact_on, apply_source. oks_code. Qed.
Lemma oks_typed_fields l nm kw rs nd : oks (typed_fields l nm kw rs nd).
Proof. unfold typed_fields. oks_code. Qed.
Lemma oks_unsupported ks who at_ : oks (warn_unsupported ks who at_).
Proof. unfold warn_unsupported. oks_code. Qed.
Lemma oks_collect_deps l es acc : oks (collect_deps l es acc).
Proof. revert acc. induction es; intros acc; simpl; oks_code; auto. Qed.
#[local] Hint Resolve oks_apply_overrides oks_typed_fields oks_unsupported oks_collect_deps : oks.

Lemma oks_add_object nf l nm at_ : oks (_add_object nf l nm at_).
Proof. unfold _add_object, _build_node. oks_code. Qed.
Lemma oks_add_group l nm at_ : oks (_add_group l nm at_).
Proof. unfold _add_group. oks_code. Qed.
#[local] Hint Resolve oks_add_object oks_add_group : oks.

Lemma oks_statement nf : oks (_statement nf).
Proof. unfold _statement, _config, _set, _root, _object, _group, warn_unterminated. oks_code. Qed.
#[local] Hint Resolve oks_statement : oks.
Lemma oks_statements nf fuel : oks (statements nf fuel).
Proof. induction fuel; simpl; oks_code; auto. Qed.
Lemma oks_resolve_one o : oks (resolve_one o).
Proof. unfold resolve_one. oks_code. Qed.
Lemma oks_link_deps l nm i ds store lk : oks (link_deps l nm i ds store lk).
Proof. revert store lk. induction ds; intros; simpl; oks_code; auto. Qed.
#[local] Hint Resolve oks_statements oks_resolve_one oks_link_deps : oks.
Lemma oks_link_objects i os store roots : oks (link_objects i os store roots).
Proof. revert i store roots. induction os; intros; simpl; oks_code; auto. Qed.
#[local] Hint Resolve oks_link_objects : oks.

(** ** Both *)

Lemma modern_overrides_typed nf text r : parse nf text = Some (Ok r) → typed_overrides (pr_overrides r).
Proof.
  unfold parse. destruct (tokenize text) as [[ts|e]|]; [|done..]. destruct (parse_top nf (parser_init ts)) as [[r' st]|] eqn:E; [|done].
  intros [= ->]. unfold parse_top in E.
  assert (oks (n ← get (λ st, length (toks st)); statements nf n;; _resolve_group_defaults;; _build_forest)) as H.
  { unfold _resolve_group_defaults, _build_forest. oks_code. }
  specialize (H (parser_init ts) (Forall_nil_2 _)). cbv [mbind M_bind get id mret M_ret] in E, H.
  destruct (statements nf _ _) as [[b st1]|]; [|done]. destruct (_resolve_group_defaults st1) as [[[] st2]|]; [|done].
  destruct (_build_forest st2) as [[[store roots] st3]|]; [|done]. by injection E as <- <-.
Qed.

Lemma legacy_overrides_typed nf text l : legacy_parse nf text = Some (Ok l) → typed_overrides (pr_overrides (result_of l)).
Proof.
  intros H. pose proof (legacy_parse_ok nf text) as Hok. rewrite H in Hok. destruct Hok as [_ Hok]. simpl.
  eapply Forall_impl; [exact Hok|]. apply legacy_override_typed.
Qed.
