(* ===== verification/HtmlText.v ===== *)
(** * Text of the status page

    The status page holds characters outside the 8-bit range (a dash, a check mark), so it is
    a sequence of Unicode code points.  This file has the string operations the renderer uses
    on them, the UTF-8 encoding of the published bytes, and a scanner for the tags of an HTML
    text, against which the renderer is specified. *)
From Stdlib Require Import Ascii.
From S2P Require Import Prelude PyStr.

Abbreviation utext := (list N).

(** An 8-bit string as code points. *)
Fixpoint u (s : string) : utext :=
  match s with
  | EmptyString => []
  | String c s' => code c :: u s'
  end.

(** A literal of the source; a back quote stands for a double quote. *)
Definition requote (c : N) : N := if (c =? 96)%N then 34%N else c.
Definition lit (s : string) : utext := requote <$> u s.

(** [html.escape]: the five characters with a meaning in HTML. *)
Definition esc_char (c : N) : utext :=
  if (c =? 38)%N then u "&amp;"
  else if (c =? 60)%N then u "&lt;"
  else if (c =? 62)%N then u "&gt;"
  else if (c =? 34)%N then u "&quot;"
  else if (c =? 39)%N then u "&#x27;"
  else [c].

Definition html_escape (t : utext) : utext := c ← t; esc_char c.

(** [sep.join(pieces)] *)
Fixpoint ujoin (sep : utext) (pieces : list utext) : utext :=
  match pieces with
  | [] => []
  | [p] => p
  | p :: ps => p ++ sep ++ ujoin sep ps
  end.

Definition newline : utext := [10%N].

(** [f"{t:<n}"] *)
Definition ljust (n : nat) (t : utext) : utext := t ++ replicate (n - length t) 32%N.

(** [t.encode("utf-8")]: [None] is the [UnicodeEncodeError] of a lone surrogate. *)
Definition utf8_char (c : N) : option (list N) :=
  (if c <? 128 then Some [c]
   else if c <? 2048 then Some [192 + c / 64; 128 + c mod 64]
   else if (55296 <=? c) && (c <=? 57343) then None
   else if c <? 65536 then Some [224 + c / 4096; 128 + c / 64 mod 64; 128 + c mod 64]
   else Some [240 + c / 262144; 128 + c / 4096 mod 64; 128 + c / 64 mod 64; 128 + c mod 64])%N.

Definition utf8 (t : utext) : option (list N) := @concat N <$> mapM utf8_char t.

(** ** The tags of an HTML text

    The scanner of a browser, as far as tags go: a tag runs from [<] to the next [>] outside
    quotes. *)
Inductive mode : Type :=
| InText
| InTag (rev_tag : utext)
| InQuote (q : N) (rev_tag : utext).

Definition scan_char (m : mode) (c : N) : mode * list utext :=
  match m with
  | InText => if (c =? 60)%N then (InTag [], []) else (InText, [])
  | InTag t =>
      if (c =? 62)%N then (InText, [rev t])
      else if (c =? 34)%N || (c =? 39)%N then (InQuote c (c :: t), [])
      else (InTag (c :: t), [])
  | InQuote q t => if (c =? q)%N then (InTag (c :: t), []) else (InQuote q (c :: t), [])
  end.

Fixpoint scan (m : mode) (t : utext) : mode * list utext :=
  match t with
  | [] => (m, [])
  | c :: t' =>
      let '(m1, tags1) := scan_char m c in
      let '(m2, tags2) := scan m1 t' in (m2, tags1 ++ tags2)
  end.

(** [html t tags]: [t] is text with complete tags, which are [tags]. *)
Definition html (t : utext) (tags : list utext) : Prop := scan InText t = (InText, tags).

(** A text with no character that opens a tag or closes an attribute. *)
Definition inert (t : utext) : Prop := Forall (λ c, c ∉ [60; 62; 34; 39]%N) t.

(** ** Facts *)

Lemma scan_app m s t :
  scan m (s ++ t) = let '(m1, tags1) := scan m s in let '(m2, tags2) := scan m1 t in (m2, tags1 ++ tags2).
Proof.
  revert m. induction s as [|c s IH]; intros m; simpl; [by destruct (scan m t)|].
  destruct (scan_char m c) as [m1 l1]. rewrite IH. destruct (scan m1 s) as [m2 l2].
  destruct (scan m2 t) as [m3 l3]. by rewrite (assoc_L (++)).
Qed.

Lemma html_nil : html [] [].
Proof. done. Qed.

Lemma html_app s t ks ls : html s ks → html t ls → html (s ++ t) (ks ++ ls).
Proof. unfold html. intros Hs Ht. by rewrite scan_app, Hs, Ht. Qed.

Lemma html_inert t : inert t → html t [].
Proof.
  unfold html. induction 1 as [|c t Hc Ht IH]; simpl; [done|].
  destruct (c =? 60)%N eqn:E; [|by rewrite IH].
  apply N.eqb_eq in E as ->. destruct Hc. apply list_elem_of_here.
Qed.

Lemma html_det t ks ls : html t ks → html t ls → ks = ls.
Proof. unfold html. intros -> [= ->]. done. Qed.

Lemma inert_app s t : inert (s ++ t) ↔ inert s ∧ inert t.
Proof. apply Forall_app. Qed.

(** Escaped text is inert, whatever it was. *)
Lemma inert_escape t : inert (html_escape t).
Proof.
  unfold inert, html_escape. induction t as [|c t IH]; csimpl; [by constructor|].
  apply Forall_app. split; [|done]. unfold esc_char.
  repeat case_match; try (apply (bool_decide_eq_true_1 _); vm_compute; reflexivity).
  apply Forall_singleton.
  repeat match goal with H : (_ =? _)%N = false |- _ => apply N.eqb_neq in H end. set_solver.
Qed.

(** Printed integers are inert. *)
Lemma u_app s t : u (s +:+ t) = u s ++ u t.
Proof. induction s as [|c s IH]; [done|]. change (String c s +:+ t) with (String c (s +:+ t)). simpl. by rewrite IH. Qed.

Lemma length_u s : length (u s) = String.length s.
Proof. induction s; simpl; congruence. Qed.

Lemma utf8_app s t bs cs : utf8 s = Some bs → utf8 t = Some cs → utf8 (s ++ t) = Some (bs ++ cs).
Proof.
  unfold utf8. rewrite !fmap_Some. intros (xs & Hs & ->) (ys & Ht & ->). exists (xs ++ ys).
  split; [|by rewrite concat_app]. apply mapM_Some in Hs, Ht. apply mapM_Some. by apply Forall2_app.
Qed.

(** What can be encoded: everything but surrogates. *)
Definition plain_char (c : N) : Prop := ¬ (55296 <= c <= 57343)%N.

Lemma utf8_plain t : Forall plain_char t → is_Some (utf8 t).
Proof.
  unfold utf8. intros H. assert (is_Some (mapM utf8_char t)) as [x ->]; [|by eexists].
  apply mapM_is_Some. eapply Forall_impl; [exact H|]. intros c Hc. unfold compose, utf8_char.
  destruct ((55296 <=? c) && (c <=? 57343))%N eqn:E.
  - exfalso. apply Hc. apply andb_true_iff in E as [?%N.leb_le ?%N.leb_le]. done.
  - destruct (c <? 128)%N; [by eexists|]. destruct (c <? 2048)%N; [by eexists|]. destruct (c <? 65536)%N; by eexists.
Qed.

Lemma plain_u s : Forall plain_char (u s).
Proof.
  induction s as [|c s IH]; simpl; constructor; [|done]. intros [H _].
  pose proof (N_ascii_bounded c). lia.
Qed.

Lemma plain_requote c : plain_char c → plain_char (requote c).
Proof. unfold plain_char, requote. destruct (N.eqb_spec c 96); lia. Qed.

Lemma plain_lit s : Forall plain_char (lit s).
Proof. unfold lit. apply Forall_fmap. eapply Forall_impl; [apply plain_u|]. exact plain_requote. Qed.

Lemma plain_escape t : Forall plain_char t → Forall plain_char (html_escape t).
Proof.
  unfold html_escape. induction 1 as [|c t Hc Ht IH]; csimpl; [by constructor|].
  apply Forall_app. split; [|done]. unfold esc_char. repeat case_match; try apply plain_u. by apply Forall_singleton.
Qed.
