(* ===== verification/StatusPage.v ===== *)
(** * The status page (src/psysmon/output/statuspage.py)

    Rows, sections, the HTML and the text rendering, and the atomic publication of the file
    and of the logo beside it.  [time.strftime] on the local time, the package version, the
    bytes of the bundled logo and the outcomes of the system calls are arguments. *)
From Stdlib Require Import Ascii.
From stdpp Require Import sorting.
From S2P Require Import Prelude Status Model Json Settings PyStr PyDict Notify HtmlText.

Abbreviation row := (Node * NodeState)%type.

(** ** Which rows, in which sections *)

(** [_partition]: one iteration, then the loop; suppressed nodes are left out. *)
Definition partition_one (acc : list row * list row) (r : row) : list row * list row :=
  let '(down, up) := acc in
  if suppressed r.2 then (down, up)
  else if is_up (lastcheck r.2) then (down, up ++ [r]) else (down ++ [r], up).

Definition _partition (node_states : list row) : list row * list row :=
  foldl partition_one ([], []) node_states.

(** [buckets.setdefault(node.group, []).append((node, state))] *)
Definition bucket_add (buckets : list (string * list row)) (r : row) : list (string * list row) :=
  aset buckets (group r.1) (default [] (aget buckets (group r.1)) ++ [r]).

Definition buckets_of (rows : list row) : list (string * list row) := foldl bucket_add [] rows.

Definition _grouped (rows : list row) : list (string * list row) :=
  let buckets := buckets_of rows in
  if forallb (λ g, bool_decide (g = "")) (akeys buckets) then [("", rows)]
  else
    let no_group := default [] (aget buckets "") in
    let buckets := adel buckets "" in
    let '(buckets, no_group) :=
      match no_group, aget buckets "Ungrouped" with
      | _ :: _, Some l => (aset buckets "Ungrouped" (l ++ no_group), [])
      | _, _ => (buckets, no_group)
      end in
    let sections := (λ g, (g, default [] (aget buckets g))) <$> merge_sort String.le (akeys buckets) in
    match no_group with [] => sections | _ => sections ++ [("Ungrouped", no_group)] end.

(** ** The pieces of a page *)

Definition _LOGO_NAME : string := "psysmon-logo.png".

Definition _CSS : string :=
"
:root {
  --bg:#15254A; --panel:#1F3158; --border:#2E4470; --text:#E6ECF7; --muted:#93A4C4;
  --glow:#1D708C; --green:#4CD137; --yellow:#F4D03F; --down:#E84118;
}
* { box-sizing:border-box; }
body { margin:0; background:var(--bg); color:var(--text);
  font-family:-apple-system,Segoe UI,Roboto,Helvetica,Arial,sans-serif; }
.header { display:flex; align-items:center; gap:22px; padding:18px 26px;
  background:linear-gradient(180deg,#1C2E58,#101D3C); border-bottom:2px solid var(--border); }
.header .glow { display:grid; place-items:center; border-radius:14px;
  background:radial-gradient(circle at center, var(--glow) 0%, transparent 68%); }
.header img.logo { height:104px; width:104px; image-rendering:auto; display:block; }
.header h1 { margin:0; font-size:30px; letter-spacing:1px; }
.header .sub { margin:3px 0 0; color:var(--muted); font-size:14px; }
.bar { display:flex; justify-content:space-between; align-items:center;
  padding:12px 26px; font-size:14px; color:var(--muted); }
.bar .count { font-weight:700; }
.bar .count.down { color:var(--down); }
.bar .count.ok { color:var(--green); }
.wrap { padding:0 26px 26px; }
h2.group { margin:24px 0 8px; font-size:14px; text-transform:uppercase; letter-spacing:.6px;
  color:var(--muted); }
.wrap > table { margin-bottom:6px; }
table { width:100%; border-collapse:collapse; background:var(--panel);
  border:1px solid var(--border); border-radius:10px; overflow:hidden; }
th { text-align:left; font-size:12px; text-transform:uppercase; letter-spacing:.6px;
  color:var(--muted); padding:11px 14px; background:#1A2C54;
  border-bottom:1px solid var(--border); }
td { padding:10px 14px; border-bottom:1px solid var(--border); font-size:14px; }
tr:last-child td { border-bottom:none; }
td.host { font-weight:600; }
.badge { display:inline-block; padding:2px 9px; border-radius:999px;
  font-size:12px; font-weight:700; }
.badge.down { background:rgba(232,65,24,.18); color:#FF7A5C; }
.badge.up { background:rgba(76,209,55,.16); color:var(--green); }
.badge.degraded { background:rgba(244,208,63,.18); color:var(--yellow); }
.badge.acked { background:rgba(147,164,196,.20); color:var(--muted); }
.note { margin-top:4px; font-size:12px; color:var(--muted); font-style:italic; }
.mono { font-variant-numeric:tabular-nums; color:var(--muted); }
.ok-panel { background:var(--panel); border:1px solid var(--border); border-radius:10px;
  padding:40px; text-align:center; }
.ok-panel .big { font-size:42px; color:var(--green); margin-bottom:6px; }
.footer { padding:14px 26px 26px; color:var(--muted); font-size:12px; }
details.healthy { margin-top:22px; }
details.healthy > summary { cursor:pointer; padding:8px 0; font-size:13px; text-transform:uppercase;
  letter-spacing:.6px; color:var(--green); }
".

Definition _COLUMNS : list string :=
  ["HostName"; "Type"; "Port"; "Count"; "Notified"; "Status"; "Time Failed"; "Last Outage"].

Definition em_dash : utext := [8212%N].
Definition check_mark : utext := [10003%N].
Definition middle_dot : utext := [183%N].

Definition _esc (value : utext) : utext := html_escape value.

Definition _port (nd : Node) : utext := if port nd =? 0 then em_dash else u (pretty (port nd)).

Definition _last_outage (st : NodeState) (now_wall : Q) : utext :=
  if Qeqb (last_up st) 0 then u "Never" else u (elapsed (last_up st) now_wall).

(** A note that is present and not empty. *)
Definition shown_note (st : NodeState) : option string :=
  match note st with Some s => if bool_decide (s = "") then None else Some s | None => None end.

Definition yes_no (b : bool) : utext := u (if b then "Yes" else "No").

Definition badge (lastcheck : Z) : string :=
  if is_up lastcheck then "up" else if lastcheck =? DEGRADED then "degraded" else "down".

Section render.
(** [strftime] as in [Notify]; the package version. *)
Context (strftime_local : Q → string) (version : string).

(** ** HTML *)

Definition _html_row (now_wall : Q) (r : row) : utext :=
  let '(nd, st) := r in
  let host := _esc (u (hostname nd)) in
  let host := if acked st then host ++ lit " <span class=`badge acked`>ACK</span>" else host in
  let host := match shown_note st with
              | Some n => host ++ lit "<div class=`note`>" ++ _esc (u n) ++ lit "</div>"
              | None => host
              end in
  let cells :=
    [lit "<td class=`host`>" ++ host ++ lit "</td>";
     lit "<td>" ++ _esc (u (type_to_name (check_type nd))) ++ lit "</td>";
     lit "<td class=`mono`>" ++ _esc (_port nd) ++ lit "</td>";
     lit "<td class=`mono`>" ++ u (pretty (downct st)) ++ lit "</td>";
     lit "<td>" ++ yes_no (contacted st) ++ lit "</td>";
     lit "<td><span class=`badge " ++ u (badge (lastcheck st)) ++ lit "`>"
       ++ _esc (u (errtostr (lastcheck st))) ++ lit "</span></td>";
     lit "<td class=`mono`>" ++ _esc (u (clock_time strftime_local (deathtime st) true)) ++ lit "</td>";
     lit "<td class=`mono`>" ++ _esc (_last_outage st now_wall) ++ lit "</td>"] in
  lit "<tr>" ++ concat cells ++ lit "</tr>".

Definition headers : utext := concat ((λ h, lit "<th>" ++ u h ++ lit "</th>") <$> _COLUMNS).

Definition html_section (now_wall : Q) (section : string * list row) : utext :=
  let '(label, grp) := section in
  let body := ujoin newline (_html_row now_wall <$> grp) in
  let heading := if bool_decide (label = "") then []
                 else lit "<h2 class=`group`>" ++ _esc (u label) ++ lit "</h2>" ++ newline in
  heading ++ lit "<table><tr>" ++ headers ++ lit "</tr>" ++ newline ++ body ++ newline ++ lit "</table>".

Definition _render_tables (now_wall : Q) (rows : list row) : utext :=
  concat (html_section now_wall <$> _grouped rows).

(** The table of the down hosts, or the panel that says there are none. *)
Definition bad_panel (now_wall : Q) (down_rows : list row) : utext :=
  match down_rows with
  | [] => lit "<div class=`ok-panel`><div class=`big`>" ++ check_mark ++ lit "</div>"
            ++ lit "<div>All systems operational</div></div>"
  | _ => _render_tables now_wall down_rows
  end.

Definition healthy_panel (now_wall : Q) (show_up_also : bool) (up_rows : list row) : utext :=
  match up_rows with
  | [] => []
  | _ =>
      if show_up_also then
        lit "<details class=`healthy`><summary>Healthy hosts (" ++ u (pretty (Z.of_nat (length up_rows)))
          ++ lit ")</summary>" ++ newline ++ _render_tables now_wall up_rows ++ lit "</details>"
      else []
  end.

Definition summary_text (down : nat) : utext :=
  match down with
  | O => lit "<span class=`count ok`>All clear</span>"
  | _ => lit "<span class=`count down`>" ++ u (pretty (Z.of_nat down)) ++ lit "</span> host"
           ++ u (if (down =? 1)%nat then "" else "s") ++ u " down"
  end.

Definition render_html (node_states : list row) (org_hostname : string) (refresh_s : Z) (show_up_also : bool)
    (logo_url : string) (now_wall : Q) : utext :=
  let '(down_rows, up_rows) := _partition node_states in
  let bad := bad_panel now_wall down_rows in
  let healthy := healthy_panel now_wall show_up_also up_rows in
  let content := lit "<div class=`wrap`>" ++ bad ++ healthy ++ lit "</div>" in
  let summary := summary_text (length down_rows) in
  let footer := u "psysmon " ++ u version ++ u " " ++ middle_dot ++ u " auto-refresh "
                ++ u (pretty refresh_s) ++ u "s" in
  ujoin newline
    [lit "<!DOCTYPE html>";
     lit "<html lang=`en`><head><meta charset=`utf-8`>";
     lit "<meta http-equiv=`refresh` content=`" ++ u (pretty refresh_s) ++ lit "`>";
     lit "<title>Network Status " ++ em_dash ++ u " " ++ _esc (u org_hostname) ++ lit "</title>";
     lit "<style>" ++ u _CSS ++ lit "</style></head><body>";
     lit "<div class=`header`>"
       ++ lit "<div class=`glow`><img class=`logo` src=`" ++ _esc (u logo_url) ++ lit "` alt=`psysmon logo`></div>"
       ++ lit "<div><h1>PSYSMON</h1>"
       ++ lit "<p class=`sub`>Network status for " ++ _esc (u org_hostname) ++ lit "</p></div></div>";
     lit "<div class=`bar`><div>" ++ summary ++ lit "</div>"
       ++ lit "<div>Updated " ++ _esc (u (clock_time strftime_local now_wall false)) ++ lit "</div></div>";
     content;
     lit "<div class=`footer`>" ++ _esc footer ++ lit "</div>";
     lit "</body></html>"].

(** ** Text *)

Definition text_row (now_wall : Q) (r : row) : utext :=
  let '(nd, st) := r in
  let extra := u (if acked st then "  [ACK]" else "") in
  let extra := match shown_note st with Some n => extra ++ u "  note: " ++ u n | None => extra end in
  ljust 28 (u (hostname nd)) ++ ljust 8 (u (type_to_name (check_type nd))) ++ ljust 6 (_port nd)
    ++ ljust 5 (u (pretty (downct st))) ++ ljust 5 (yes_no (contacted st))
    ++ ljust 16 (u (errtostr (lastcheck st)))
    ++ ljust 16 (u (clock_time strftime_local (deathtime st) true))
    ++ _last_outage st now_wall ++ extra.

Definition text_section (now_wall : Q) (section : string * list row) : list utext :=
  let '(label, grp) := section in
  (if bool_decide (label = "") then [] else [u "== " ++ u label ++ u " =="]) ++ (text_row now_wall <$> grp).

Definition _emit_text_rows (now_wall : Q) (lines : list utext) (rows : list row) : list utext :=
  lines ++ concat (text_section now_wall <$> _grouped rows).

Definition render_text (node_states : list row) (org_hostname : string) (show_up_also : bool) (now_wall : Q)
    : utext :=
  let '(down_rows, up_rows) := _partition node_states in
  let lines :=
    [u "Network status for " ++ u org_hostname ++ u " " ++ em_dash ++ u " "
       ++ u (clock_time strftime_local now_wall false);
     ljust 28 (u "Hostname") ++ ljust 8 (u "Type") ++ ljust 6 (u "Port") ++ ljust 5 (u "Cnt")
       ++ ljust 5 (u "Noti") ++ ljust 16 (u "Status") ++ ljust 16 (u "Time Failed") ++ u "Last Outage"] in
  let lines := _emit_text_rows now_wall lines down_rows in
  let lines := match down_rows with [] => lines ++ [u "All systems operational."] | _ => lines end in
  let lines :=
    match up_rows with
    | [] => lines
    | _ =>
        if show_up_also then
          _emit_text_rows now_wall
            (lines ++ [[]; u "-- Healthy hosts (" ++ u (pretty (Z.of_nat (length up_rows))) ++ u ") --"]) up_rows
        else lines
    end in
  ujoin newline lines ++ newline.
End render.

(** ** Publication

    Files have a mode and bytes.  The platform is POSIX: [os.name] is not ["nt"], and paths
    are joined with a slash. *)
Record pfile : Type := MkPFile { p_mode : Z; p_data : list N }.
Abbreviation pfs := (gmap string pfile).

Inductive pub_error : Type := PubOSError | PubEncodeError.

(** What the system calls of one write do: the name [mkstemp] returns, whether it succeeds,
    the bytes in the file while it is being written, and whether the write, the [chmod], the
    [replace] and, on the way out, the second [chmod] and the [remove] succeed. *)
Record write_calls : Type := MkCalls {
  c_tmp : string;
  c_mkstemp : bool;
  c_partial : list N;
  c_write : bool;
  c_chmod : bool;
  c_replace : bool;
  c_unlock : bool;
  c_remove : bool
}.

Definition mode_0444 : Z := 4 * 64 + 4 * 8 + 4.
Definition mode_0600 : Z := 6 * 64.
Definition mode_0644 : Z := 6 * 64 + 4 * 8 + 4.

Definition chmod (path : string) (mode : Z) (fs : pfs) : pfs := alter (λ f, MkPFile mode (p_data f)) path fs.

(** The states of the file system the removal goes through. *)
Definition _unlink_quietly (c : write_calls) (path : string) (fs : pfs) : list pfs :=
  let fs1 := if c_unlock c then chmod path mode_0644 fs else fs in
  [fs1; if c_remove c then delete path fs1 else fs1].

(** The states of the file system, oldest first, and the result. *)
Definition _atomic_write (path : string) (data : list N) (c : write_calls) (fs : pfs)
    : list pfs * res pub_error unit :=
  let tmp := c_tmp c in
  if negb (c_mkstemp c) then ([fs], Raise PubOSError)
  else
    let fs1 := <[tmp := MkPFile mode_0600 []]> fs in
    let fs2 := <[tmp := MkPFile mode_0600 (c_partial c)]> fs1 in
    if negb (c_write c) then ([fs; fs1; fs2] ++ _unlink_quietly c tmp fs2, Raise PubOSError)
    else
      let fs3 := <[tmp := MkPFile mode_0600 data]> fs2 in
      if negb (c_chmod c) then ([fs; fs1; fs2; fs3] ++ _unlink_quietly c tmp fs3, Raise PubOSError)
      else
        let fs4 := chmod tmp mode_0444 fs3 in
        if negb (c_replace c) then ([fs; fs1; fs2; fs3; fs4] ++ _unlink_quietly c tmp fs4, Raise PubOSError)
        else ([fs; fs1; fs2; fs3; fs4; <[path := MkPFile mode_0444 data]> (delete tmp fs4)], Ok tt).

Definition publish (content : utext) (path : string) (c : write_calls) (fs : pfs)
    : list pfs * res pub_error unit :=
  match utf8 content with
  | None => ([fs], Raise PubEncodeError)
  | Some data => _atomic_write path data c fs
  end.

(** [os.path.dirname]: the text before the last slash, without trailing slashes unless it is
    all slashes. *)
Fixpoint upto_slash (s : string) : option string :=
  match s with
  | EmptyString => None
  | String c s' =>
      match upto_slash s' with
      | Some h => Some (String c h)
      | None => if bool_decide (c = "/"%char) then Some "/" else None
      end
  end.

Fixpoint rstrip_slash (s : string) : string :=
  match s with
  | EmptyString => EmptyString
  | String c s' =>
      match rstrip_slash s' with
      | EmptyString => if bool_decide (c = "/"%char) then EmptyString else String c EmptyString
      | r => String c r
      end
  end.

Definition dirname (path : string) : string :=
  let head := default "" (upto_slash path) in
  if bool_decide (rstrip_slash head = "") then head else rstrip_slash head.

(** [os.path.join(dir, name)] for a relative [name]. *)
Definition path_join (dir name : string) : string :=
  if bool_decide (dir = "") || bool_decide (upto_slash dir = Some dir) then dir +:+ name else dir +:+ "/" +:+ name.

Definition logo_target (status_path : string) : string :=
  let d := dirname status_path in
  path_join (if bool_decide (d = "") then "." else d) _LOGO_NAME.

(** [logo] is the bundled image, if it can be read. *)
Definition _ensure_logo (status_path : string) (logo : option (list N)) (c : write_calls) (fs : pfs)
    : list pfs * res pub_error unit :=
  let target := logo_target status_path in
  match fs !! target with
  | Some _ => ([fs], Ok tt)
  | None =>
      match logo with
      | None => ([fs], Ok tt)
      | Some data =>
          match _atomic_write target data c fs with
          | (trace, Raise PubOSError) => (trace, Ok tt)
          | r => r
          end
      end
  end.

(** Runs [k] from the last state of [r] unless it raised. *)
Definition and_then (fs : pfs) (r : list pfs * res pub_error unit) (k : pfs → list pfs * res pub_error unit)
    : list pfs * res pub_error unit :=
  match r with
  | (trace, Ok _) => let '(trace', r') := k (default fs (last trace)) in (trace ++ trace', r')
  | (trace, Raise e) => (trace, Raise e)
  end.

Section page.
Context (strftime_local : Q → string) (version : string) (logo : option (list N)).

(** The configured page. *)
Definition page (settings : Settings) (node_states : list row) (now : Q) : utext :=
  let org := if bool_decide (str_setting settings "org_hostname" = "") then "psysmon"
             else str_setting settings "org_hostname" in
  let show_up := truthy (default JNull (settings !! "show_up_also")) in
  if truthy (default JNull (settings !! "status_html")) then
    render_html strftime_local version node_states org
      (match settings !! "status_refresh_s" with Some (JInt z) => z | _ => 0 end) show_up _LOGO_NAME now
  else render_text strftime_local node_states org show_up now.

(** [c] and [c'] are the system calls of the two writes. *)
Definition render_and_publish (node_states : list row) (settings : Settings) (now : Q) (c c' : write_calls)
    (fs : pfs) : list pfs * res pub_error unit :=
  let path := str_setting settings "status_path" in
  if bool_decide (path = "") then ([fs], Ok tt)
  else
    and_then fs (publish (page settings node_states now) path c fs)
      (λ fs', if truthy (default JNull (settings !! "status_html")) then _ensure_logo path logo c' fs'
              else ([fs'], Ok tt)).
End page.

(** ** Examples *)

Definition stamp (q : Q) : string := "Jan 01 00:00:00".

Definition demo_row (host grp : string) (code : Z) : row :=
  ((new_node host PING) <| group := grp |>, (new_state 2 0) <| lastcheck := code |>).

Example grouped_ex :
  (λ s : string * list row, (s.1, (λ r : row, hostname r.1) <$> s.2)) <$>
    _grouped [demo_row "a" "" 1; demo_row "b" "web" 1; demo_row "c" "db" 1; demo_row "d" "web" 1] =
  [("db", ["c"]); ("web", ["b"; "d"]); ("Ungrouped", ["a"])].
Proof. vm_compute. reflexivity. Qed.

Example text_ex :
  render_text stamp [demo_row "a" "" 3] "lab" false 0 =
  ujoin newline
    [u "Network status for lab " ++ em_dash ++ u " Jan 01 00:00:00";
     u "Hostname                    Type    Port  Cnt  Noti Status          Time Failed     Last Outage";
     u "a                           ping    " ++ em_dash ++ u "     0    No   Host Down       Never           Never"]
  ++ newline.
Proof. vm_compute. reflexivity. Qed.

Example logo_target_ex :
  (logo_target "status.html", logo_target "/var/www/status.html", logo_target "/status.html", logo_target "a//b") =
  ("./psysmon-logo.png", "/var/www/psysmon-logo.png", "/psysmon-logo.png", "a/psysmon-logo.png").
Proof. vm_compute. reflexivity. Qed.
