(* ===== verification/StatusPageSpec.v ===== *)
(** * Properties of the status page

    Which rows the page shows and in which sections; its tags, which no text of the
    configuration or of an operator can change; its publication, atomic for every reader. *)
From Stdlib Require Import Ascii Sorting.Sorted.
From stdpp Require Import sorting.
From S2P Require Import Prelude Status Model Json Settings PyStr PyNum NumText PyDict Notify HtmlText StatusPage.

(** ** Rows and sections *)

Definition visible_down (r : row) : Prop := suppressed r.2 = false ∧ is_up (lastcheck r.2) = false.
Definition visible_up (r : row) : Prop := suppressed r.2 = false ∧ is_up (lastcheck r.2) = true.

#[export] Instance visible_down_dec r : Decision (visible_down r).
Proof. unfold visible_down. apply _. Defined.
#[export] Instance visible_up_dec r : Decision (visible_up r).
Proof. unfold visible_up. apply _. Defined.

Lemma partition_spec ns : _partition ns = (filter visible_down ns, filter visible_up ns).
Proof.
  unfold _partition. induction ns as [|r ns IH] using rev_ind; [done|].
  rewrite foldl_snoc, IH, !filter_app, !filter_cons, !filter_nil. unfold partition_one.
  destruct (decide (visible_down r)) as [[Hs Hu]|Hd], (decide (visible_up r)) as [[Hs' Hu']|Hu'']; try congruence.
  - by rewrite Hs, Hu, app_nil_r.
  - by rewrite Hs', Hu', app_nil_r.
  - destruct (suppressed r.2) eqn:Es; [by rewrite !app_nil_r|].
    destruct (is_up (lastcheck r.2)) eqn:Eu; exfalso; [apply Hu''|apply Hd]; done.
Qed.

(** The rows of a group, in their order. *)
Definition rows_of (g : string) (rows : list row) : list row := filter (λ r : row, group r.1 = g) rows.

Definition keys_of (rows : list row) : list string := akeys (buckets_of rows).

Lemma rows_of_snoc g rows r :
  rows_of g (rows ++ [r]) = rows_of g rows ++ (if bool_decide (group r.1 = g) then [r] else []).
Proof.
  unfold rows_of. rewrite filter_app, filter_cons, filter_nil. f_equal.
  case_bool_decide; [by rewrite decide_True|by rewrite decide_False].
Qed.

Lemma buckets_get rows g :
  aget (buckets_of rows) g = match rows_of g rows with [] => None | l => Some l end.
Proof.
  induction rows as [|r rows IH] using rev_ind in g |- *; [done|].
  unfold buckets_of. rewrite foldl_snoc. fold (buckets_of rows). unfold bucket_add.
  rewrite aget_aset, !IH, rows_of_snoc. destruct (bool_decide (g = group r.1)) eqn:E.
  - apply bool_decide_eq_true in E as ->. rewrite bool_decide_eq_true_2 by done.
    by destruct (rows_of (group r.1) rows).
  - apply bool_decide_eq_false in E. by rewrite (bool_decide_eq_false_2 (group r.1 = g)), app_nil_r by congruence.
Qed.

Lemma buckets_default rows g : default [] (aget (buckets_of rows) g) = rows_of g rows.
Proof. rewrite buckets_get. by destruct (rows_of g rows). Qed.

Lemma keys_of_spec rows g : g ∈ keys_of rows ↔ rows_of g rows ≠ [].
Proof.
  unfold keys_of. pose proof (aget_None (buckets_of rows) g) as H. rewrite buckets_get in H.
  destruct (decide (g ∈ akeys (buckets_of rows))) as [Hin|Hni].
  - split; [|done]. intros _ E. rewrite E in H. by apply H.
  - apply H in Hni as E. split; [done|]. by destruct (rows_of g rows).
Qed.

Lemma elem_rows_of r rows : r ∈ rows → group r.1 ∈ keys_of rows.
Proof. intros H. apply keys_of_spec. intros E. apply (not_elem_of_nil r). rewrite <- E. by apply list_elem_of_filter. Qed.

Lemma keys_of_snoc rows r :
  keys_of (rows ++ [r]) = if bool_decide (group r.1 ∈ keys_of rows) then keys_of rows else keys_of rows ++ [group r.1].
Proof.
  unfold keys_of, buckets_of. rewrite foldl_snoc. unfold bucket_add at 1.
  case_bool_decide; [by apply akeys_aset|by apply akeys_aset_fresh].
Qed.

Lemma keys_of_nodup rows : NoDup (keys_of rows).
Proof.
  induction rows as [|r rows IH] using rev_ind; [constructor|]. rewrite keys_of_snoc.
  case_bool_decide; [done|]. apply NoDup_app. split; [done|]. split; [|apply NoDup_singleton].
  intros g Hg ->%list_elem_of_singleton. done.
Qed.

(** The labels of the sections, a function of the groups in use. *)
Definition labels (keys : list string) : list string :=
  if forallb (λ g, bool_decide (g = "")) keys then [""]
  else
    let named := filter (λ g, g ≠ "") keys in
    merge_sort String.le named ++
      (if bool_decide ("" ∈ keys) && negb (bool_decide ("Ungrouped" ∈ named)) then ["Ungrouped"] else []).

(** The rows of a section: those of its group, and in "Ungrouped" also those without one. *)
Definition section_rows (rows : list row) (g : string) : list row :=
  rows_of g rows ++ (if bool_decide (g = "Ungrouped") then rows_of "" rows else []).

Lemma filter_all {A} (P : A → Prop) `{!∀ x, Decision (P x)} (l : list A) : (∀ x, x ∈ l → P x) → filter P l = l.
Proof.
  induction l as [|x l IH]; intros HP; [done|]. rewrite filter_cons_True by (apply HP, list_elem_of_here).
  f_equal. apply IH. intros y Hy. by apply HP, list_elem_of_further.
Qed.

Lemma grouped_eq rows : _grouped rows = (λ g, (g, section_rows rows g)) <$> labels (keys_of rows).
Proof.
  unfold _grouped, labels. fold (keys_of rows). destruct (forallb _ _) eqn:Ef.
  { csimpl. unfold section_rows. rewrite bool_decide_eq_false_2, app_nil_r by done. do 2 f_equal.
    unfold rows_of. symmetry. apply filter_all. intros r Hr.
    apply forallb_forall with (x := group r.1) in Ef; [by to_prop|]. apply list_elem_of_In. by apply elem_rows_of. }
  rewrite buckets_default, adel_aget, buckets_get, bool_decide_eq_false_2 by done.
  set (named := filter (λ g, g ≠ "") (keys_of rows)).
  assert (∀ g, g ∈ named → default [] (aget (adel (buckets_of rows) "") g) = rows_of g rows) as Hg.
  { intros g [Hne _]%list_elem_of_filter. by rewrite adel_aget, bool_decide_eq_false_2, buckets_default. }
  assert (∀ (bk : list (string * list row)) sec, (∀ g, g ∈ named → default [] (aget bk g) = sec g) →
    (λ g, (g, default [] (aget bk g))) <$> merge_sort String.le named = (λ g, (g, sec g)) <$> merge_sort String.le named) as Hm.
  { intros bk sec H. apply list_fmap_ext. intros i g Hi. f_equal. apply H.
    rewrite <- (merge_sort_Permutation String.le). by eapply list_elem_of_lookup_2. }
  pose proof (keys_of_spec rows "") as He. pose proof (keys_of_spec rows "Ungrouped") as Hu.
  assert ("Ungrouped" ∈ named ↔ "Ungrouped" ∈ keys_of rows) as Hn.
  { unfold named. rewrite list_elem_of_filter. naive_solver. }
  assert (∀ g, g ∈ named → rows_of "" rows = [] ∨ g ≠ "Ungrouped" → rows_of g rows = section_rows rows g) as Hs.
  { intros g _ H. unfold section_rows. case_bool_decide; [|by rewrite app_nil_r].
    destruct H as [->|H]; [by rewrite app_nil_r|done]. }
  assert (bool_decide ("" ∈ keys_of rows) = negb (bool_decide (rows_of "" rows = []))) as ->.
  { destruct (decide (rows_of "" rows = [])) as [E|E]; [rewrite (bool_decide_eq_true_2 (_ = [])) by done; apply bool_decide_eq_false_2|
      rewrite (bool_decide_eq_false_2 (_ = [])) by done; apply bool_decide_eq_true_2]; tauto. }
  assert (bool_decide ("Ungrouped" ∈ named) = negb (bool_decide (rows_of "Ungrouped" rows = []))) as ->.
  { destruct (decide (rows_of "Ungrouped" rows = [])) as [E|E]; [rewrite (bool_decide_eq_true_2 (_ = [])) by done; apply bool_decide_eq_false_2|
      rewrite (bool_decide_eq_false_2 (_ = [])) by done; apply bool_decide_eq_true_2]; tauto. }
  destruct (rows_of "" rows) as [|r0 rs0] eqn:E0.
  - rewrite (bool_decide_eq_true_2 ([] = [])) by done. cbn [negb andb]. rewrite app_nil_r, akeys_adel.
    apply Hm. intros g Hin. rewrite Hg by done. apply Hs; [done|by left].
  - rewrite (bool_decide_eq_false_2 (_ :: _ = [])) by done. cbn [negb andb].
    destruct (rows_of "Ungrouped" rows) as [|r1 rs1] eqn:E1.
    + rewrite bool_decide_eq_true_2 by done. cbn [negb]. rewrite fmap_app, akeys_adel. f_equal.
      * apply Hm. intros g Hin. rewrite Hg by done. apply Hs; [done|right]. intros ->. apply Hn, Hu in Hin. done.
      * csimpl. unfold section_rows. by rewrite E1, E0.
    + rewrite bool_decide_eq_false_2 by done. cbn [negb]. rewrite app_nil_r, akeys_aset, akeys_adel;
        [|rewrite akeys_adel; apply Hn, Hu; done]. fold (keys_of rows) named. apply Hm. intros g Hin.
      rewrite aget_aset. case_bool_decide as Eg.
      * subst. unfold section_rows. by rewrite E1, E0.
      * rewrite Hg by done. apply Hs; [done|by right].
Qed.

(** Rows split by their groups. *)
Lemma rows_by_key (keys : list string) rows :
  NoDup keys → (∀ r, r ∈ rows → group r.1 ∈ keys) → concat ((λ g, rows_of g rows) <$> keys) ≡ₚ rows.
Proof.
  intros Hnd. revert rows. induction Hnd as [|k keys Hk Hnd IH]; intros rows Hin.
  { destruct rows as [|r rows]; [done|]. destruct (not_elem_of_nil (group r.1)). apply Hin, list_elem_of_here. }
  csimpl. rewrite <- (filter_app_complement (λ r : row, group r.1 = k) rows) at 2. apply Permutation_app; [done|].
  rewrite <- (IH (filter (λ r : row, group r.1 ≠ k) rows)).
  - apply Permutation_refl'. f_equal. apply list_fmap_ext. intros i g Hi. unfold rows_of.
    rewrite list_filter_filter. apply list_filter_iff. intros r. assert (g ≠ k); [|naive_solver].
    intros ->. apply Hk. by eapply list_elem_of_lookup_2.
  - intros r [Hne Hr]%list_elem_of_filter. apply Hin in Hr. by apply elem_of_cons in Hr as [?|?].
Qed.

Lemma concat_section_rows rows L :
  NoDup L →
  concat (section_rows rows <$> L) ≡ₚ
  concat ((λ g, rows_of g rows) <$> L) ++ (if bool_decide ("Ungrouped" ∈ L) then rows_of "" rows else []).
Proof.
  induction 1 as [|g L Hg HL IH]; [done|]. csimpl. rewrite IH. unfold section_rows at 1.
  destruct (bool_decide (g = "Ungrouped")) eqn:E.
  - apply bool_decide_eq_true in E as ->. rewrite (bool_decide_eq_false_2 ("Ungrouped" ∈ L)) by done.
    rewrite (bool_decide_eq_true_2 ("Ungrouped" ∈ _ :: _)) by apply list_elem_of_here.
    rewrite app_nil_r, <- !app_assoc. apply Permutation_app_head, Permutation_app_comm.
  - apply bool_decide_eq_false in E. rewrite app_nil_r, <- app_assoc. do 2 apply Permutation_app_head.
    apply Permutation_refl'. destruct (decide ("Ungrouped" ∈ L)).
    + rewrite !bool_decide_eq_true_2; [done|by apply list_elem_of_further|done].
    + rewrite !bool_decide_eq_false_2; [done| |done]. by intros [?|?]%elem_of_cons.
Qed.

Lemma labels_spec rows :
  let L := labels (keys_of rows) in
  NoDup L ∧
  (∀ r, r ∈ rows → group r.1 ∈ L ∨ group r.1 = "" ∧ "Ungrouped" ∈ L) ∧
  ("" ∈ L → L = [""]) ∧
  (∃ named rest, L = named ++ rest ∧ StronglySorted String.le named ∧ (rest = [] ∨ rest = ["Ungrouped"])).
Proof.
  unfold labels. destruct (forallb _ _) eqn:Ef.
  { split_and!; [apply NoDup_singleton| |done|].
    - intros r Hr. left. apply list_elem_of_singleton. apply elem_rows_of in Hr.
      apply list_elem_of_In in Hr. eapply forallb_forall in Ef; [|exact Hr]. by to_prop.
    - exists [""], []. split_and!; [done|by repeat constructor|by left]. }
  set (named := filter (λ g, g ≠ "") (keys_of rows)).
  set (rest := if bool_decide ("" ∈ keys_of rows) && _ then ["Ungrouped"] else []).
  assert (NoDup named) as Hnd by apply NoDup_filter, keys_of_nodup.
  assert (∀ g, g ∈ merge_sort String.le named ↔ g ∈ named) as Hm by (intros; by rewrite merge_sort_Permutation).
  assert (rest = [] ∨ rest = ["Ungrouped"] ∧ "Ungrouped" ∉ named) as Hr.
  { subst rest. destruct (_ && _) eqn:E; [|by left]. to_prop. tauto. }
  split_and!.
  - apply NoDup_app. split_and!; [by rewrite merge_sort_Permutation| |].
    + intros g Hg Hin. apply Hm in Hg. destruct Hr as [->|[-> Hu]]; [by apply elem_of_nil in Hin|].
      by apply list_elem_of_singleton in Hin as ->.
    + destruct Hr as [->|[-> _]]; [constructor|apply NoDup_singleton].
  - intros r Hin%elem_rows_of. rewrite !elem_of_app, !Hm.
    destruct (decide (group r.1 = "")) as [E|E]; [|left; left; by apply list_elem_of_filter].
    right. split; [done|]. rewrite E in Hin. subst rest. rewrite bool_decide_eq_true_2 by done.
    destruct (decide ("Ungrouped" ∈ named)); [by left|right]. rewrite bool_decide_eq_false_2 by done. by apply list_elem_of_singleton.
  - rewrite elem_of_app, Hm. intros [[? _]%list_elem_of_filter|Hin]; [done|].
    destruct Hr as [->|[-> _]]; [by apply elem_of_nil in Hin|by apply list_elem_of_singleton in Hin].
  - exists (merge_sort String.le named), rest. split_and!; [done|apply StronglySorted_merge_sort; apply _|tauto].
Qed.


(** ** Tags *)

Lemma inert_word s : all_str dec_digit s = true → inert (u s).
Proof.
  unfold inert. induction s as [|c s IH]; simpl; intros H; constructor.
  - to_prop. destruct H as [H _]. unfold dec_digit, between in H.
    apply andb_true_iff in H as [?%N.leb_le ?%N.leb_le]. intros Hin.
    repeat (apply elem_of_cons in Hin as [Hin|Hin]; [lia|]). by apply elem_of_nil in Hin.
  - to_prop. tauto.
Qed.

Lemma inert_pretty (z : Z) : inert (u (pretty z)).
Proof.
  rewrite pretty_Z_N, u_app. apply inert_app. split; [|apply inert_word, pretty_N_all].
  destruct (z <? 0); apply (bool_decide_eq_true_1 _); vm_compute; reflexivity.
Qed.

Lemma html_cat (ts : list utext) (ks : list (list utext)) : Forall2 html ts ks → html (concat ts) (concat ks).
Proof. induction 1; simpl; [apply html_nil|by apply html_app]. Qed.

Lemma html_lines (ts : list utext) (ks : list (list utext)) : Forall2 html ts ks → html (ujoin newline ts) (concat ks).
Proof.
  induction 1 as [|t k ts ks Ht Hts IH]; [done|]. destruct Hts as [|t' k' ts ks Ht' Hts]; [simpl; by rewrite app_nil_r|].
  change (ujoin newline (t :: t' :: ts)) with (t ++ newline ++ ujoin newline (t' :: ts)).
  simpl concat in *. apply html_app; [done|]. rewrite <- (app_nil_l (k' ++ _)). by apply html_app.
Qed.

(** Inert text inside a quoted attribute. *)
Lemma scan_quoted q acc t : q ∈ [34; 39]%N → inert t → scan (InQuote q acc) t = (InQuote q (rev t ++ acc), []).
Proof.
  intros Hq Ht. revert acc. induction Ht as [|c t Hc Ht IH]; intros acc; simpl; [done|].
  destruct (c =? q)%N eqn:E.
  - apply N.eqb_eq in E as ->. destruct Hc. set_solver.
  - rewrite IH. by rewrite <- (assoc_L (++)).
Qed.

Lemma html_attr a a' t b b' ks ls :
  scan InText a = (InQuote 34 (rev a'), ks) → inert t →
  (∀ acc, scan (InTag acc) b = (InText, (rev acc ++ b') :: ls)) →
  html (a ++ t ++ 34%N :: b) (ks ++ (a' ++ t ++ 34%N :: b') :: ls).
Proof.
  intros Ha Ht Hb. unfold html. rewrite scan_app, Ha, scan_app, scan_quoted by (done || apply list_elem_of_here).
  change (scan (InQuote 34 ?x) (34%N :: b)) with
    (let '(m2, tags2) := scan (InTag (34%N :: x)) b in (m2, [] ++ tags2)). rewrite Hb.
  simpl. by rewrite rev_app_distr, !rev_involutive, <- !(assoc_L (++)).
Qed.

(** The tags of the page, from what the page may show of a row: its badge, whether it is
    acknowledged, whether it has a note, and its group. *)
Definition tags (ts : list string) : list utext := lit <$> ts.

Definition cell_tags : list utext := tags ["td"; "/td"].
Definition mono_tags : list utext := tags ["td class=`mono`"; "/td"].

Definition row_tags (r : row) : list utext :=
  tags ["tr"; "td class=`host`"]
  ++ (if acked r.2 then tags ["span class=`badge acked`"; "/span"] else [])
  ++ (if shown_note r.2 is Some _ then tags ["div class=`note`"; "/div"] else [])
  ++ tags ["/td"] ++ cell_tags ++ mono_tags ++ mono_tags ++ cell_tags
  ++ tags ["td"; "span class=`badge " +:+ badge (lastcheck r.2) +:+ "`"; "/span"; "/td"]
  ++ mono_tags ++ mono_tags ++ tags ["/tr"].

Definition section_tags (section : string * list row) : list utext :=
  (if bool_decide (section.1 = "") then [] else tags ["h2 class=`group`"; "/h2"])
  ++ tags ["table"; "tr"] ++ concat (replicate 8 (tags ["th"; "/th"])) ++ tags ["/tr"]
  ++ concat (row_tags <$> section.2) ++ tags ["/table"].

Definition tables_tags (rows : list row) : list utext := concat (section_tags <$> _grouped rows).

Definition panel_tags (down_rows : list row) : list utext :=
  match down_rows with
  | [] => tags ["div class=`ok-panel`"; "div class=`big`"; "/div"; "div"; "/div"; "/div"]
  | _ => tables_tags down_rows
  end.

Definition healthy_tags (show_up_also : bool) (up_rows : list row) : list utext :=
  match up_rows with
  | [] => []
  | _ => if show_up_also
         then tags ["details class=`healthy`"; "summary"; "/summary"] ++ tables_tags up_rows ++ tags ["/details"]
         else []
  end.

Definition summary_tags (down_rows : list row) : list utext :=
  match down_rows with
  | [] => tags ["span class=`count ok`"; "/span"]
  | _ => tags ["span class=`count down`"; "/span"]
  end.

Definition page_tags (refresh_s : Z) (logo_url : string) (show_up_also : bool) (ns : list row) : list utext :=
  let down := filter visible_down ns in
  let up := filter visible_up ns in
  tags ["!DOCTYPE html"; "html lang=`en`"; "head"; "meta charset=`utf-8`"]
  ++ [lit "meta http-equiv=`refresh` content=`" ++ u (pretty refresh_s) ++ lit "`"]
  ++ tags ["title"; "/title"; "style"; "/style"; "/head"; "body"; "div class=`header`"; "div class=`glow`"]
  ++ [lit "img class=`logo` src=`" ++ _esc (u logo_url) ++ lit "` alt=`psysmon logo`"]
  ++ tags ["/div"; "div"; "h1"; "/h1"; "p class=`sub`"; "/p"; "/div"; "/div"; "div class=`bar`"; "div"]
  ++ summary_tags down
  ++ tags ["/div"; "div"; "/div"; "/div"; "div class=`wrap`"]
  ++ panel_tags down ++ healthy_tags show_up_also up
  ++ tags ["/div"; "div class=`footer`"; "/div"; "/body"; "/html"].

(** One piece of a page: a literal, whose tags are computed, or inert text. *)
Ltac html_piece :=
  first [apply html_inert; first [apply inert_escape | apply inert_pretty
                                 | apply (bool_decide_eq_true_1 _); vm_compute; reflexivity]
        | vm_compute; reflexivity].

(** [html t ?ks], piece by piece. *)
Ltac html_pieces := repeat (eapply html_app; [html_piece|]); html_piece.

Lemma html_eq t ks ls : html t ks → ks = ls → html t ls.
Proof. by intros ? <-. Qed.

Lemma html_badge l :
  html (lit "<td><span class=`badge " ++ u (badge l) ++ lit "`>") (tags ["td"; "span class=`badge " +:+ badge l +:+ "`"]).
Proof. unfold badge. destruct (is_up l); [|destruct (l =? DEGRADED)]; vm_compute; reflexivity. Qed.

Lemma html_app3 a b c d ks ls : html (a ++ b ++ c) ks → html d ls → html (a ++ b ++ c ++ d) (ks ++ ls).
Proof. intros H1 H2. rewrite !(assoc_L (++)), <- (assoc_L (++) a b c). by apply html_app. Qed.

Lemma html_row strf now r : html (_html_row strf now r) (row_tags r).
Proof.
  destruct r as [nd st]. unfold _html_row, row_tags. simpl fst. simpl snd.
  set (host := match shown_note st with Some _ => _ | None => _ end).
  assert (html host ((if acked st then tags ["span class=`badge acked`"; "/span"] else [])
    ++ (if shown_note st is Some _ then tags ["div class=`note`"; "/div"] else []))) as Hh.
  { subst host. destruct (acked st), (shown_note st); rewrite <- ?app_assoc;
      (eapply html_eq; [html_pieces|vm_compute; reflexivity]). }
  generalize dependent (if acked st then tags ["span class=`badge acked`"; "/span"] else []).
  generalize (if shown_note st is Some _ then tags ["div class=`note`"; "/div"] else []). intros ns as_ Hh.
  eapply html_eq; [eapply html_app; [html_piece|]; eapply html_app; [|html_piece]; apply html_cat|].
  - repeat apply Forall2_cons_2; [| | | | | | | |apply Forall2_nil_2].
    6: apply html_app3; [apply html_badge|html_pieces].
    1: eapply html_app; [html_piece|]; eapply html_app; [exact Hh|html_piece].
    4: eapply html_app; [html_piece|]; eapply html_app; [destruct (contacted st); html_piece|html_piece].
    all: html_pieces.
  - cbn [concat app]. rewrite <- !app_assoc. reflexivity.
Qed.

Lemma Forall2_html {A} (f : A → utext) (g : A → list utext) l :
  (∀ x, html (f x) (g x)) → Forall2 html (f <$> l) (g <$> l).
Proof. intros H. induction l; csimpl; constructor; auto. Qed.

Lemma html_headers : html headers (concat (replicate 8 (tags ["th"; "/th"]))).
Proof. vm_compute. reflexivity. Qed.

Lemma html_section_tags strf now sec : html (html_section strf now sec) (section_tags sec).
Proof.
  destruct sec as [label rs]. unfold html_section, section_tags. simpl fst. simpl snd.
  apply html_app.
  { case_bool_decide; [apply html_nil|]. eapply html_eq; [html_pieces|vm_compute; reflexivity]. }
  eapply html_eq; [eapply html_app; [html_piece|]; eapply html_app; [apply html_headers|]; eapply html_app; [html_piece|];
    eapply html_app; [html_piece|]; eapply html_app; [apply html_lines, Forall2_html, html_row|];
    eapply html_app; html_piece|].
  reflexivity.
Qed.

Lemma html_tables strf now rows : html (_render_tables strf now rows) (tables_tags rows).
Proof. apply html_cat, Forall2_html, html_section_tags. Qed.

Lemma html_panel strf now rows : html (bad_panel strf now rows) (panel_tags rows).
Proof. destruct rows; [vm_compute; reflexivity|apply html_tables]. Qed.

Lemma html_healthy strf now show rows : html (healthy_panel strf now show rows) (healthy_tags show rows).
Proof.
  unfold healthy_panel, healthy_tags. destruct rows as [|r rows]; [apply html_nil|]. destruct show; [|apply html_nil].
  eapply html_eq; [do 4 (eapply html_app; [html_piece|]); eapply html_app; [apply html_tables|html_piece]|reflexivity].
Qed.

Lemma html_summary rows : html (summary_text (length rows)) (summary_tags rows).
Proof.
  destruct rows as [|r rows]; [vm_compute; reflexivity|]. unfold summary_text, summary_tags. simpl length. cbv iota.
  eapply html_eq; [do 3 (eapply html_app; [html_piece|]); eapply html_app; [case_match; html_piece|html_piece]|].
  vm_compute. reflexivity.
Qed.

Lemma html_refresh (z : Z) :
  html (lit "<meta http-equiv=`refresh` content=`" ++ u (pretty z) ++ lit "`>")
    [lit "meta http-equiv=`refresh` content=`" ++ u (pretty z) ++ lit "`"].
Proof.
  apply (html_attr _ (lit "meta http-equiv=`refresh` content=`") _ (u ">") [] []);
    [vm_compute; reflexivity|apply inert_pretty|]. intros acc. by rewrite app_nil_r.
Qed.

Lemma html_logo l :
  html (lit "<div class=`glow`><img class=`logo` src=`" ++ _esc (u l) ++ lit "` alt=`psysmon logo`></div>")
    (tags ["div class=`glow`"] ++ [lit "img class=`logo` src=`" ++ _esc (u l) ++ lit "` alt=`psysmon logo`"] ++ tags ["/div"]).
Proof.
  apply (html_attr _ (lit "img class=`logo` src=`") _ (lit " alt=`psysmon logo`></div>") (lit " alt=`psysmon logo`") _ (tags ["/div"]));
    [vm_compute; reflexivity|apply inert_escape|]. intros acc. simpl. do 2 f_equal. by rewrite <- !app_assoc.
Qed.

Lemma html_page strf ver ns org refresh show logo now :
  html (render_html strf ver ns org refresh show logo now) (page_tags refresh logo show ns).
Proof.
  unfold render_html, page_tags. rewrite partition_spec.
  eapply html_eq; [apply html_lines; repeat apply Forall2_cons_2; [| | | | | | | | | |apply Forall2_nil_2]|].
  1: html_piece.
  1: html_piece.
  1: apply html_refresh.
  1: html_pieces.
  1: html_pieces.
  1: eapply html_app; [html_piece|]; apply html_app3; [apply html_logo|]; html_pieces.
  1: eapply html_app; [html_piece|]; eapply html_app; [apply html_summary|]; html_pieces.
  1: eapply html_app; [html_piece|]; eapply html_app; [apply html_panel|]; eapply html_app; [apply html_healthy|html_piece].
  1: html_pieces.
  1: html_piece.
  cbn [concat]. rewrite <- !app_assoc. reflexivity.
Qed.

(** Two rows that may differ in every text and number shown, but not in what the page's
    structure depends on. *)
Record same_shape (r r' : row) : Prop := {
  ss_group : group r.1 = group r'.1;
  ss_suppressed : suppressed r.2 = suppressed r'.2;
  ss_badge : badge (lastcheck r.2) = badge (lastcheck r'.2);
  ss_acked : acked r.2 = acked r'.2;
  ss_note : is_Some (shown_note r.2) ↔ is_Some (shown_note r'.2)
}.

Lemma badge_up l : badge l = "up" ↔ is_up l = true.
Proof. unfold badge. destruct (is_up l), (l =? DEGRADED); done. Qed.

Lemma shape_visible r r' :
  same_shape r r' → (visible_down r ↔ visible_down r') ∧ (visible_up r ↔ visible_up r').
Proof.
  intros [_ Hs Hb _ _]. unfold visible_down, visible_up. rewrite Hs.
  assert (is_up (lastcheck r.2) = is_up (lastcheck r'.2)) as ->; [|done].
  apply eq_bool_prop_intro. rewrite !Is_true_true, <- !badge_up. by rewrite Hb.
Qed.

Lemma shape_row_tags r r' : same_shape r r' → row_tags r = row_tags r'.
Proof.
  intros [_ _ Hb Ha Hn]. unfold row_tags. rewrite Hb, Ha.
  destruct (shown_note r.2), (shown_note r'.2); [done| | |done]; exfalso.
  - apply (is_Some_None (A := string)), Hn. by eexists.
  - apply (is_Some_None (A := string)), Hn. by eexists.
Qed.

Lemma Forall2_filter_shape (P Q : row → Prop) `{!∀ r, Decision (P r), !∀ r, Decision (Q r)} ns ns' :
  (∀ r r', same_shape r r' → P r ↔ Q r') → Forall2 same_shape ns ns' →
  Forall2 same_shape (filter P ns) (filter Q ns').
Proof.
  intros HPQ. induction 1 as [|r r' ns ns' Hr Hns IH]; [constructor|]. rewrite !filter_cons.
  specialize (HPQ r r' Hr). do 2 case_decide; [by constructor|tauto|tauto|done].
Qed.

Lemma shape_keys ns ns' : Forall2 same_shape ns ns' → keys_of ns = keys_of ns'.
Proof.
  revert ns'. induction ns as [|r ns IH] using rev_ind; intros ns' H.
  - by apply Forall2_nil_inv_l in H as ->.
  - apply Forall2_app_inv_l in H as (l & l' & Hl & Hr & ->). apply Forall2_cons_inv_l in Hr as (r' & l'' & Hr & Hn & ->).
    apply Forall2_nil_inv_l in Hn as ->. by rewrite !keys_of_snoc, (IH l Hl), (ss_group _ _ Hr).
Qed.

Lemma shape_rows_tags ns ns' : Forall2 same_shape ns ns' → row_tags <$> ns = row_tags <$> ns'.
Proof. induction 1; csimpl; [done|]. f_equal; [by apply shape_row_tags|done]. Qed.

Lemma shape_tables ns ns' : Forall2 same_shape ns ns' → tables_tags ns = tables_tags ns'.
Proof.
  intros H. unfold tables_tags. rewrite !grouped_eq, <- !list_fmap_compose, (shape_keys _ _ H). f_equal.
  apply list_fmap_ext. intros _ g _. unfold compose, section_tags. cbn [fst snd]. do 4 f_equal.
  f_equal. f_equal. apply shape_rows_tags.
  unfold section_rows. apply Forall2_app.
  - apply Forall2_filter_shape; [|done]. intros r r' Hr. by rewrite (ss_group _ _ Hr).
  - case_bool_decide; [|constructor]. apply Forall2_filter_shape; [|done]. intros r r' Hr. by rewrite (ss_group _ _ Hr).
Qed.

Lemma shape_page refresh logo show ns ns' :
  Forall2 same_shape ns ns' → page_tags refresh logo show ns = page_tags refresh logo show ns'.
Proof.
  intros H. unfold page_tags.
  assert (Forall2 same_shape (filter visible_down ns) (filter visible_down ns')) as Hd
    by (apply Forall2_filter_shape; [apply shape_visible|done]).
  assert (Forall2 same_shape (filter visible_up ns) (filter visible_up ns')) as Hu
    by (apply Forall2_filter_shape; [apply shape_visible|done]).
  revert Hd Hu. generalize (filter visible_down ns) (filter visible_down ns') (filter visible_up ns) (filter visible_up ns').
  intros d d' up up' Hd Hu.
  assert (summary_tags d = summary_tags d') as -> by by destruct Hd.
  assert (panel_tags d = panel_tags d') as ->.
  { destruct Hd; [done|]. apply shape_tables. by constructor. }
  assert (healthy_tags show up = healthy_tags show up') as ->; [|done].
  destruct Hu; [done|]. simpl. destruct show; [|done]. do 3 f_equal. f_equal. apply shape_tables. by constructor.
Qed.

(** C4: no text reaches the markup.  Scanned as a browser does, the HTML page has exactly the
    tags of [page_tags], whatever the host names, notes, group names, the organisation, the
    version and the clock texts contain; and these tags are the same for any two lists of nodes
    that agree row by row in group, suppression, badge, acknowledgement and presence of a note. *)
Theorem page_markup_fixed (strf : Q → string) (ver : string) (ns : list row) (org : string) (refresh : Z)
    (show : bool) (logo : string) (now : Q) :
  html (render_html strf ver ns org refresh show logo now) (page_tags refresh logo show ns) ∧
  ∀ strf' ver' ns' org' now', Forall2 same_shape ns ns' →
    html (render_html strf' ver' ns' org' refresh show logo now') (page_tags refresh logo show ns).
Proof.
  split; [apply html_page|]. intros strf' ver' ns' org' now' H. rewrite (shape_page _ _ _ _ _ H). apply html_page.
Qed.

(** ** Publication *)

Abbreviation plain_text := (Forall plain_char).

Lemma plain_concat ts : Forall plain_text ts → plain_text (concat ts).
Proof. induction 1; simpl; [constructor|by apply Forall_app]. Qed.

Lemma plain_newline : plain_text newline.
Proof. apply Forall_singleton. unfold plain_char. lia. Qed.

Lemma plain_join ts : Forall plain_text ts → plain_text (ujoin newline ts).
Proof.
  induction 1 as [|t ts Ht Hts IH]; [constructor|]. destruct ts as [|t' ts]; [done|].
  change (ujoin newline (t :: t' :: ts)) with (t ++ newline ++ ujoin newline (t' :: ts)).
  apply Forall_app. split; [done|]. apply Forall_app. split; [apply plain_newline|done].
Qed.

Lemma plain_map {A} (f : A → utext) l : (∀ x, plain_text (f x)) → Forall plain_text (f <$> l).
Proof. intros H. induction l; csimpl; constructor; auto. Qed.

Lemma plain_ljust n t : plain_text t → plain_text (ljust n t).
Proof. intros H. apply Forall_app. split; [done|]. apply Forall_replicate. unfold plain_char. lia. Qed.

Lemma plain_special : plain_text em_dash ∧ plain_text check_mark ∧ plain_text middle_dot.
Proof. split_and!; apply Forall_singleton; unfold plain_char; lia. Qed.

Lemma plain_port nd : plain_text (_port nd).
Proof. unfold _port. destruct (port nd =? 0); [apply plain_special|apply plain_u]. Qed.

Lemma plain_outage st now : plain_text (_last_outage st now).
Proof. unfold _last_outage. destruct (Qeqb _ _); apply plain_u. Qed.

Create HintDb plain.
#[local] Hint Resolve plain_u plain_lit plain_escape plain_port plain_outage plain_ljust plain_newline : plain.
#[local] Hint Extern 1 (plain_text em_dash) => apply plain_special : plain.
#[local] Hint Extern 1 (plain_text check_mark) => apply plain_special : plain.
#[local] Hint Extern 1 (plain_text middle_dot) => apply plain_special : plain.
#[local] Hint Extern 1 (plain_text (yes_no _)) => apply plain_u : plain.
#[local] Hint Extern 1 (plain_text (_esc _)) => apply plain_escape : plain.

(** [plain_text] of a concatenation, and of every line of an explicit list. *)
Ltac plain_pieces :=
  repeat match goal with |- plain_text (_ ++ _) => apply Forall_app; split end; auto with plain.
Ltac plain_list := repeat match goal with
  | |- Forall plain_text (_ :: _) => apply Forall_cons_2
  | |- Forall plain_text [] => apply Forall_nil_2
  end.

Lemma plain_row strf now r : plain_text (_html_row strf now r) ∧ plain_text (text_row strf now r).
Proof.
  destruct r as [nd st]. unfold _html_row, text_row. split.
  - apply Forall_app. split; [auto with plain|]. apply Forall_app. split; [|auto with plain].
    apply plain_concat. plain_list; plain_pieces.
    destruct (acked st), (shown_note st); plain_pieces.
  - plain_pieces. destruct (shown_note st); plain_pieces.
Qed.

Lemma plain_tables strf now rows : plain_text (_render_tables strf now rows).
Proof.
  apply plain_concat, plain_map. intros [label rs]. unfold html_section. apply Forall_app. split.
  { case_bool_decide; plain_pieces. }
  plain_pieces; [|by apply plain_join, plain_map, plain_row].
  unfold headers. apply plain_concat, plain_map. intros h. plain_pieces.
Qed.

Lemma plain_text_rows strf now lines rows :
  Forall plain_text lines → Forall plain_text (_emit_text_rows strf now lines rows).
Proof.
  intros H. apply Forall_app. split; [done|]. apply Forall_concat, Forall_fmap, Forall_true. intros [label rs]. unfold compose, text_section.
  apply Forall_app. split; [|apply plain_map, plain_row]. case_bool_decide; plain_list. plain_pieces.
Qed.

Lemma plain_page strf ver s ns now : plain_text (page strf ver s ns now).
Proof.
  unfold page. case_match.
  - unfold render_html. destruct (_partition ns) as [down up]. apply plain_join.
    plain_list; plain_pieces.
    + unfold summary_text. destruct (length down); plain_pieces.
    + unfold bad_panel. destruct down; [plain_pieces|apply plain_tables].
    + unfold healthy_panel. destruct up; [constructor|]. case_match; [|constructor]. plain_pieces. apply plain_tables.
    + apply plain_escape. plain_pieces.
  - unfold render_text. destruct (_partition ns) as [down up]. apply Forall_app. split; [|apply plain_newline].
    apply plain_join.
    set (lines := match down with [] => _ | _ => _ end).
    assert (Forall plain_text lines) as Hl.
    { assert (∀ l, Forall plain_text l → Forall plain_text (match down with [] => l ++ [u "All systems operational."] | _ => l end)) as Hk
        by (intros l Hl; destruct down; [apply Forall_app; split; [done|]; plain_list; apply plain_u|done]).
      apply Hk, plain_text_rows. plain_list; plain_pieces. }
    destruct up; [done|]. case_match; [|done]. apply plain_text_rows, Forall_app. split; [done|].
    plain_list; [constructor|]. plain_pieces.
Qed.

(** A page can always be encoded. *)
Lemma page_encodes strf ver s ns now : ∃ bytes, utf8 (page strf ver s ns now) = Some bytes.
Proof. destruct (utf8_plain _ (plain_page strf ver s ns now)) as [b Hb]. by exists b. Qed.

(** What one write does to the file system: [new] at [target] or nothing, and [tmp] aside
    nothing else. *)
Definition wrote (target tmp : string) (new : pfile) (fs fs' : pfs) : Prop :=
  (fs' !! target = fs !! target ∨ fs' !! target = Some new) ∧ ∀ p, p ≠ tmp → p ≠ target → fs' !! p = fs !! p.

(** File systems that differ in the temporary file only. *)
Definition aside (tmp : string) (fs fs' : pfs) : Prop := ∀ p, p ≠ tmp → fs' !! p = fs !! p.

Lemma aside_refl tmp fs : aside tmp fs fs.
Proof. done. Qed.
Lemma aside_insert tmp fs fs' f : aside tmp fs fs' → aside tmp fs (<[tmp := f]> fs').
Proof. intros H p Hp. rewrite lookup_insert_ne by done. by apply H. Qed.
Lemma aside_chmod tmp fs fs' m : aside tmp fs fs' → aside tmp fs (chmod tmp m fs').
Proof. intros H p Hp. unfold chmod. rewrite lookup_alter_ne by done. by apply H. Qed.
Lemma aside_delete tmp fs fs' : aside tmp fs fs' → aside tmp fs (delete tmp fs').
Proof. intros H p Hp. rewrite lookup_delete_ne by done. by apply H. Qed.

Lemma aside_gone tmp fs fs' : fs !! tmp = None → aside tmp fs fs' → delete tmp fs' = fs.
Proof.
  intros Hf H. apply map_eq. intros p. destruct (decide (p = tmp)) as [->|Hp]; [by rewrite lookup_delete_eq|].
  by rewrite (aside_delete _ _ _ H p Hp).
Qed.

Lemma aside_wrote tmp target new fs fs' : tmp ≠ target → aside tmp fs fs' → wrote target tmp new fs fs'.
Proof. intros Hne H. split; [left; by apply H|]. intros p Hp _. by apply H. Qed.

#[local] Hint Resolve aside_refl aside_insert aside_chmod aside_delete : plain.

Lemma unlink_spec c fs fs' :
  fs !! c_tmp c = None → aside (c_tmp c) fs fs' →
  Forall (aside (c_tmp c) fs) (_unlink_quietly c (c_tmp c) fs') ∧
  ∃ final, last (_unlink_quietly c (c_tmp c) fs') = Some final ∧ (c_remove c = true → final = fs).
Proof.
  intros Hf H. unfold _unlink_quietly.
  assert (aside (c_tmp c) fs (if c_unlock c then chmod (c_tmp c) mode_0644 fs' else fs')) as H1
    by (destruct (c_unlock c); auto with plain).
  split; [repeat constructor; [done|]; destruct (c_remove c); auto with plain|].
  eexists. split; [reflexivity|]. intros ->. by apply aside_gone.
Qed.

(** A failed write, by the fact [H] on the states before the removal and the removal's own. *)
Ltac clean_up H :=
  lazymatch goal with |- context [?pre ++ _unlink_quietly _ _ ?f] =>
    let Hall := fresh in let final := fresh in let Hl := fresh in let Ht := fresh in
    destruct (H pre f) as (Hall & final & Hl & Ht); [repeat constructor; auto 6 with plain|auto 6 with plain|];
    split; [exact Hall|exists final; split; [exact Hl|by right]]
  end.

Lemma atomic_write_spec target data c fs :
  fs !! c_tmp c = None → c_tmp c ≠ target →
  let new := MkPFile mode_0444 data in
  let '(trace, r) := _atomic_write target data c fs in
  (∀ fs', fs' ∈ trace → wrote target (c_tmp c) new fs fs') ∧
  ∃ final, last trace = Some final ∧
    ((r = Ok tt ∧ final = <[target := new]> fs ∧ c_mkstemp c && c_write c && c_chmod c && c_replace c = true) ∨
     (r = Raise PubOSError ∧ c_mkstemp c && c_write c && c_chmod c && c_replace c = false ∧
        final !! target = fs !! target ∧ (c_remove c = true → final = fs))).
Proof.
  intros Hf Hne new. set (tmp := c_tmp c) in *.
  assert (∀ pre fs', Forall (aside tmp fs) pre → aside tmp fs fs' →
    (∀ f, f ∈ pre ++ _unlink_quietly c tmp fs' → wrote target tmp new fs f) ∧
    ∃ final, last (pre ++ _unlink_quietly c tmp fs') = Some final ∧ final !! target = fs !! target ∧
      (c_remove c = true → final = fs)) as Hfail.
  { intros pre fs' Hpre Hfs'. destruct (unlink_spec c fs fs' Hf Hfs') as (Hall & final & Hl & Hrm). fold tmp in Hall, Hl.
    assert (Forall (aside tmp fs) (pre ++ _unlink_quietly c tmp fs')) as H by (by apply Forall_app).
    split; [intros f Hin; apply aside_wrote; [done|]; by eapply Forall_forall in H|].
    exists final. rewrite last_app, Hl. split_and!; [done| |done].
    eapply Forall_forall in Hall; [by apply Hall|]. by apply last_Some_elem_of. }
  unfold _atomic_write. fold tmp.
  destruct (c_mkstemp c); cbn [negb].
  2: { split; [intros f ->%list_elem_of_singleton; apply aside_wrote; auto with plain|].
       exists fs. split; [done|]. by right. }
  destruct (c_write c); cbn [negb].
  2: { clean_up Hfail. }
  destruct (c_chmod c); cbn [negb]; [|clean_up Hfail].
  destruct (c_replace c); cbn [negb]; [|clean_up Hfail].
  set (fs4 := chmod tmp mode_0444 _).
  assert (aside tmp fs fs4) as H4 by (subst fs4; auto 6 with plain).
  rewrite (aside_gone tmp fs fs4 Hf H4). split.
  - intros f Hin. repeat (apply elem_of_cons in Hin as [->|Hin]; [first [by apply aside_wrote; auto 6 with plain
      |split; [right; apply lookup_insert_eq|intros p ??; by rewrite lookup_insert_ne]]|]). by apply elem_of_nil in Hin.
  - eexists. split; [reflexivity|]. left. done.
Qed.

Lemma ensure_logo_spec path logo c fs :
  let target := logo_target path in
  fs !! c_tmp c = None → c_tmp c ≠ target →
  let '(trace, r) := _ensure_logo path logo c fs in
  r = Ok tt ∧
  ∀ fs', fs' ∈ trace →
    (fs' !! target = fs !! target ∨
       fs !! target = None ∧ ∃ img, logo = Some img ∧ fs' !! target = Some (MkPFile mode_0444 img)) ∧
    ∀ p, p ≠ c_tmp c → p ≠ target → fs' !! p = fs !! p.
Proof.
  intros target Hf Hne. unfold _ensure_logo. fold target.
  destruct (fs !! target) as [f|] eqn:Et.
  { split; [done|]. intros fs' ->%list_elem_of_singleton. auto. }
  destruct logo as [img|]; [|split; [done|]; intros fs' ->%list_elem_of_singleton; auto].
  pose proof (atomic_write_spec target img c fs Hf Hne) as H. destruct (_atomic_write target img c fs) as [trace r].
  destruct H as [Hall (final & _ & Hr)].
  assert (∀ fs', fs' ∈ trace → (fs' !! target = None ∨
    None = @None pfile ∧ ∃ img0, Some img = Some img0 ∧ fs' !! target = Some (MkPFile mode_0444 img0)) ∧
    ∀ p, p ≠ c_tmp c → p ≠ target → fs' !! p = fs !! p) as Hall'.
  { intros fs' Hin. destruct (Hall fs' Hin) as [[H|H] Hp]; (split; [|done]); [left; by rewrite H|right]. eauto. }
  destruct Hr as [(-> & _)|(-> & _)]; by split.
Qed.

Lemma not_in4 (p a b c d : string) : p ∉ [a; b; c; d] → p ≠ a ∧ p ≠ b ∧ p ≠ c ∧ p ≠ d ∧ True.
Proof. rewrite !not_elem_of_cons. tauto. Qed.

Section publication.
Context (strf : Q → string) (ver : string) (logo : option (list N)) (s : Settings) (ns : list row) (now : Q).
Context (c c' : write_calls) (fs : pfs).

Abbreviation path := (str_setting s "status_path").
Abbreviation target := (logo_target path).

(** The temporary name is new. *)
Definition fresh_for (c : write_calls) : Prop := fs !! c_tmp c = None ∧ c_tmp c ≠ path ∧ c_tmp c ≠ target.

(** A state during a publication of [bytes]. *)
Definition publishing (bytes : list N) (fs' : pfs) : Prop :=
  (fs' !! path = fs !! path ∨ fs' !! path = Some (MkPFile mode_0444 bytes)) ∧
  (fs' !! target = fs !! target ∨
     fs !! target = None ∧ ∃ img, logo = Some img ∧ fs' !! target = Some (MkPFile mode_0444 img)) ∧
  ∀ p, p ∉ [c_tmp c; c_tmp c'; path; target] → fs' !! p = fs !! p.

Lemma publication_spec :
  path ≠ "" → path ≠ target → fresh_for c → fresh_for c' →
  ∃ bytes, utf8 (page strf ver s ns now) = Some bytes ∧
  let '(trace, r) := render_and_publish strf ver logo ns s now c c' fs in
  (∀ fs', fs' ∈ trace → publishing bytes fs') ∧
  ((r = Ok tt ∧ ∃ final, last trace = Some final ∧ final !! path = Some (MkPFile mode_0444 bytes)) ∨
   (r = Raise PubOSError ∧ (c_mkstemp c && c_write c && c_chmod c && c_replace c = false))).
Proof.
  intros Hp Hpt (Hf & Hcp & Hct) (Hf' & Hcp' & Hct').
  destruct (page_encodes strf ver s ns now) as [bytes Hb]. exists bytes. split; [done|].
  unfold render_and_publish, publish. rewrite bool_decide_eq_false_2, Hb by done.
  pose proof (atomic_write_spec path bytes c fs Hf Hcp) as H. destruct (_atomic_write path bytes c fs) as [trace r] eqn:Ew.
  destruct H as [Hall (final & Hl & Hr)].
  assert (∀ fs', fs' ∈ trace → publishing bytes fs') as Hall'.
  { intros fs' Hin. destruct (Hall fs' Hin) as [Ht Ho]. split_and!; [done|left; by apply Ho|].
    intros p (? & ? & ? & ? & _)%not_in4. by apply Ho. }
  unfold and_then. destruct Hr as [(-> & -> & _)|(-> & Hcalls & _)]; [|split; [done|by right]].
  rewrite Hl. cbn [from_option id]. set (fs1 := <[path := _]> fs).
  assert (fs1 !! path = Some (MkPFile mode_0444 bytes)) as Hnew by apply lookup_insert_eq.
  destruct (truthy _).
  - assert (fs1 !! c_tmp c' = None) as Hf1 by (by subst fs1; rewrite lookup_insert_ne).
    pose proof (ensure_logo_spec path logo c' fs1) as H. specialize (H Hf1 Hct').
    destruct (_ensure_logo path logo c' fs1) as [trace' r'] eqn:El. destruct H as [-> Hlogo].
    assert (∀ p, p ≠ path → fs1 !! p = fs !! p) as Hkeep by (intros; subst fs1; by rewrite lookup_insert_ne).
    split.
    + intros fs' [Hin|Hin]%elem_of_app; [by apply Hall'|]. destruct (Hlogo fs' Hin) as [Ht Ho].
      rewrite !Hkeep in Ht by done. split_and!; [right; by rewrite Ho|done|].
      intros p (? & ? & ? & ? & _)%not_in4. rewrite Ho by done. by apply Hkeep.
    + left. split; [done|]. destruct (last trace') as [final|] eqn:El'.
      * exists final. rewrite last_app, El'. split; [done|].
        destruct (Hlogo final) as [_ Ho]; [by apply last_Some_elem_of|]. by rewrite Ho.
      * exists fs1. by rewrite last_app, El', Hl.
  - split.
    + intros fs' [Hin|Hin]%elem_of_app; [by apply Hall'|]. apply list_elem_of_singleton in Hin as ->.
      apply Hall'. by apply last_Some_elem_of.
    + left. split; [done|]. exists fs1. by rewrite last_snoc.
Qed.
End publication.


(** ** Witnesses *)

Definition demo_calls (tmp : string) : write_calls := MkCalls tmp true [60%N] true true true true true.

Lemma page_markup_fixed_witness :
  Forall2 same_shape [demo_row "<script>alert(1)</script>" "" 3] [demo_row "gw" "" 1] ∧
  html (render_html stamp "1" [demo_row "gw" "" 1] "lab" 30 false _LOGO_NAME 5)
    (page_tags 30 _LOGO_NAME false [demo_row "<script>alert(1)</script>" "" 3]).
Proof.
  assert (Forall2 same_shape [demo_row "<script>alert(1)</script>" "" 3] [demo_row "gw" "" 1]) as H
    by (repeat constructor; simpl; intros [? [=]]).
  split; [exact H|].
  exact (proj2 (page_markup_fixed stamp "1" [demo_row "<script>alert(1)</script>" "" 3] "<b>" 30 false _LOGO_NAME 0)
    stamp "1" [demo_row "gw" "" 1] "lab" 5%Q H).
Defined.

Definition demo_settings : Settings := <["status_path" := JStr "/www/status.html"]> Settings_default.

