(* ===== verification/Daemon.v ===== *)
(** * The daemon (src/psysmon/daemon.py; Scheduler.run, stop, drain, wait_until_dirty)

    Start-up is a function from the command line and what the system answers; [serve] is a
    step relation over the state its tasks share.  The steps are the pieces of code between
    awaits: those of the event loop ([Scheduler.v]), of the control channel ([Control.v]) and
    of the helper tasks below.  The status page is rendered by a worker thread, so its
    publication is a step of its own, which cancelling the helper task does not undo. *)
From S2P Require Import Prelude Status Model StateMachine PingPool Graph Gate Flatten Scheduler Json SchedOps SchedRun Ping DnsCache StateStore Settings PyStr PyNum PyDict Modern Legacy Control Notify Detect Cli HtmlText StatusPage.

(** ** Reading typed settings *)

Definition int_of (s : Settings) (k : string) : Z := match s !! k with Some (JInt z) => z | _ => 0 end.
Definition float_of (s : Settings) (k : string) : Q := match s !! k with Some (JFloat q) => q | _ => 0%Q end.
Definition flag_of (s : Settings) (k : string) : bool := truthy (default JNull (s !! k)).
Definition opt_str (s : Settings) (k : string) : option string := match s !! k with Some (JStr v) => Some v | _ => None end.

(** What [Scheduler.__init__] takes from the settings. *)
Definition sched_config (s : Settings) : SchedConfig :=
  MkSchedConfig (float_of s "interval_s") (inject_Z (int_of s "pageinterval_min" * 60)) (float_of s "slow_check_s")
    (flag_of s "page_on_degraded") (str_setting s "contact_on") (int_of s "max_concurrency") (opt_str s "source_ip").

(** ** Start-up *)

(** What start-up raises: [SystemExit] by argparse, a missing file, another [OSError], a
    [ValueError] (the parsers' [ParseError] is one). *)
Inductive boot_error : Type := BExit (code : Z) | BNotFound | BOSError | BValueError.

(** The configuration files: what reading and decoding a path gives. *)
Abbreviation config_files := (string → res boot_error string).

(** [parser(text, numfailures=...)], the parser chosen by [detect]. *)
Definition parse_config (numfailures : Z) (text : string) : option (res perror ParseResult) :=
  match detect text with
  | MODERN => Modern.parse numfailures text
  | LEGACY =>
      match legacy_parse numfailures text with
      | Some (Ok l) => Some (Ok (result_of l))
      | Some (Raise e) => Some (Raise e)
      | None => None
      end
  end.

(** [load_roots]; [None] when the lexer does not end. *)
Definition load_roots (files : config_files) (s : Settings) : option (res boot_error ParseResult) :=
  match files (str_setting s "config_path") with
  | Raise e => Some (Raise e)
  | Ok text =>
      match parse_config (int_of s "numfailures") text with
      | None => None
      | Some (Ok r) => Some (Ok r)
      | Some (Raise _) => Some (Raise BValueError)
      end
  end.

(** What the system answers during start-up: the configuration, the file system of the state
    file, whether a read of it succeeds, the clocks, the sockets. *)
Record boot_env : Type := MkBoot {
  be_files : config_files;
  be_state : fsys;
  be_read_ok : bool;
  be_wall : Q;
  be_mono : Q;
  be_load_wall : Q;
  be_load_mono : Q;
  be_os : OS
}.

(** [_restore_state]: whatever goes wrong, the scheduler is returned. *)
Definition _restore_state (s : Settings) (fs : fsys) (io_ok : bool) (now_wall now_mono : Q) (sch : Scheduler) : Scheduler :=
  let p := str_setting s "state_path" in
  if bool_decide (p = "") then sch
  else match StateStore.load (MkStore p (int_of s "state_max_age_s")) fs io_ok now_wall with
       | Raise _ => sch
       | Ok [] => sch
       | Ok records =>
           match import_state records now_mono sch with
           | (sch', Raise _) => sch'
           | (sch', Ok _) => (node_states sch').1
           end
       end.

(** [merge], whose error is a [ValueError]. *)
Definition merged (file cli : dict) : res boot_error Settings :=
  match merge file cli with Ok s => Ok s | Raise _ => Raise BValueError end.

(** [build] after the settings are known. *)
Definition build_scheduler (s : Settings) (r : ParseResult) (e : boot_env) : res boot_error Scheduler :=
  match _validate_counts (int_of s "send_pings") (int_of s "min_pings") with
  | Raise _ => Raise BValueError
  | Ok _ =>
      let '(p4, p6) := pools_init [] in
      match Scheduler_init (sched_config s) (pr_store r) (pr_roots r) p4 p6 (be_os e) (be_wall e) (be_mono e) true with
      | Raise _ => Raise BValueError
      | Ok sch => Ok (_restore_state s (be_state e) (be_read_ok e) (be_load_wall e) (be_load_mono e) sch)
      end
  end.

(** [build]; [None] when the lexer does not end, or an interval is not finite. *)
Definition build (argv : list occurrence) (e : boot_env) : option (res boot_error (Scheduler * Settings)) :=
  match parse_args [] argv with
  | Raise (SystemExit c) => Some (Raise (BExit c))
  | Ok ns =>
      raw ← finite ns;
      let cli := cli_overrides raw in
      match merged [] cli with
      | Raise x => Some (Raise x)
      | Ok bootstrap =>
          loaded ← load_roots (be_files e) bootstrap;
          match loaded with
          | Raise x => Some (Raise x)
          | Ok r =>
              file ← finite (pr_overrides r);
              Some (let! s := merged file cli in
                    let! sch := build_scheduler s r e in
                    Ok (sch, s))
          end
      end
  end.

Definition _has_ping (sch : Scheduler) : bool :=
  existsb (λ r : row, is_ping_type (check_type r.1)) (node_states sch).2.

(** The part of [main] that ends a failed start-up: the exit status. *)
Definition boot_exit (e : boot_error) : Z := match e with BExit c => c | _ => 1 end.

(** [main] opens the raw sockets up front when it runs as root; a failure is only logged. *)
Definition open_sockets (is_root : bool) (sch : Scheduler) : Scheduler :=
  let sch := (node_states sch).1 in
  if _has_ping sch && is_root then
    let '(p4, p6, o, _) := prepare (pool4 sch) (pool6 sch) (os sch) in with_pools p4 p6 o sch
  else sch.

(** *** Where the log goes *)

Inductive log_dest : Type := ToStderr | ToSyslog (facility : Z) | ToNowhere.

(** [_setup_syslog]: the handlers of the root logger; [facility_names] is the table of
    [SysLogHandler], [connects] whether it can be created. *)
Definition _setup_syslog (facility_names : string → option Z) (connects : bool) (s : Settings) : log_dest :=
  let name := match opt_str s "syslog_facility" with
              | Some f => if bool_decide (f = "") then "none" else f
              | None => "none"
              end in
  let name := lower name in
  if bool_decide (name = "none") then ToStderr
  else match facility_names name with
       | None => ToStderr
       | Some f => if connects then ToSyslog f else ToStderr
       end.

(** [_daemonize] sends the standard streams to /dev/null; without [fork] it does nothing. *)
Definition _daemonize (has_fork : bool) (d : log_dest) : log_dest :=
  if has_fork then match d with ToStderr => ToNowhere | d => d end else d.

(** The rest of [main] before [serve]. *)
Definition log_destination (facility_names : string → option Z) (connects has_fork : bool) (s : Settings) : log_dest :=
  if flag_of s "foreground" then ToStderr
  else _daemonize has_fork (if has_fork then _setup_syslog facility_names connects s else ToStderr).

(** [_apply_log_level]: WARNING, INFO and DEBUG of the logging module. *)
Definition _LEVELS : list (string * Z) := [("warning", 30); ("info", 20); ("debug", 10)].
Definition _apply_log_level (s : Settings) : Z := default 20 (aget _LEVELS (str_setting s "log_level")).

(** ** Serving *)

Inductive serve_phase : Type :=
| PStarting   (* the signal handlers are installed, the channel may be starting *)
| PRunning    (* the scheduler's loop and the helpers run *)
| PStopped    (* the loop has returned *)
| PClosed     (* the channel is closed and the helpers are cancelled *)
| PDone.

Record Daemon : Type := MkDaemon {
  d_server : ControlServer;
  d_stop : bool;
  d_phase : serve_phase;
  d_state : fsys;
  d_pages : pfs;
  d_thread : option (list row)
}.

#[export] Instance set_d_server : SetField d_server := λ f x,
  let '(MkDaemon a b c d e g) := x in MkDaemon (f a) b c d e g.
#[export] Instance set_d_stop : SetField d_stop := λ f x,
  let '(MkDaemon a b c d e g) := x in MkDaemon a (f b) c d e g.
#[export] Instance set_d_phase : SetField d_phase := λ f x,
  let '(MkDaemon a b c d e g) := x in MkDaemon a b (f c) d e g.
#[export] Instance set_d_state : SetField d_state := λ f x,
  let '(MkDaemon a b c d e g) := x in MkDaemon a b c (f d) e g.
#[export] Instance set_d_pages : SetField d_pages := λ f x,
  let '(MkDaemon a b c d e g) := x in MkDaemon a b c d (f e) g.
#[export] Instance set_d_thread : SetField d_thread := λ f x,
  let '(MkDaemon a b c d e g) := x in MkDaemon a b c d e (f g).

Definition d_sched (d : Daemon) : Scheduler := _scheduler (d_server d).
Definition with_sched (sch : Scheduler) (d : Daemon) : Daemon := d <| d_server := (d_server d) <| _scheduler := sch |> |>.
Definition with_flag (b : bool) (d : Daemon) : Daemon := d <| d_server := (d_server d) <| _reload_flag := b |> |>.

(** [serve] on entry. *)
Definition daemon_init (sch : Scheduler) (state : fsys) (pages : pfs) : Daemon :=
  MkDaemon (server_init sch false) false PStarting state pages None.

(** [main]: an exit status, or the daemon that [serve] is entered with.  It exits with 0 when
    [serve] returns. *)
Definition daemon_main (argv : list occurrence) (e : boot_env) (is_root : bool) (pages : pfs)
    : option (Z + (Settings * Daemon)) :=
  match build argv e with
  | None => None
  | Some (Raise x) => Some (inl (boot_exit x))
  | Some (Ok (sch, s)) => Some (inr (s, daemon_init (open_sockets is_root sch) (be_state e) pages))
  end.

Section serve.
Context (strftime_local : Q → string) (version : string) (logo : option (list N)).
Context (s : Settings).

Abbreviation cfg := (sched_config s).

Definition state_store : option StateStore :=
  let p := str_setting s "state_path" in
  if bool_decide (p = "") then None else Some (MkStore p (int_of s "state_max_age_s")).

(** *** Signals, and the loop of [Scheduler.run] *)

Definition stop (d : Daemon) : Daemon := d <| d_stop := true |>.

(** SIGTERM and SIGINT: [Scheduler.stop]. *)
Definition on_term : Daemon → Daemon := stop.
(** SIGHUP: [reload_flag.set]. *)
Definition on_hup (d : Daemon) : Daemon := with_flag true d.

(** [run] up to its loop: [self._stop.clear()]. *)
Definition run_begin (d : Daemon) : Daemon := d <| d_stop := false |> <| d_phase := PRunning |>.

(** One iteration of the loop, while [_stop] is not set. *)
Definition run_tick (now : Q) (d : Daemon) : option Daemon :=
  if d_stop d then None else Some (with_sched (tick now (d_sched d)) d).

(** [drain] returns once every task has ended, and with it [run]. *)
Definition drain (sch : Scheduler) : bool := bool_decide (tasks sch = ∅).

Definition run_end (d : Daemon) : option Daemon :=
  if d_stop d && drain (d_sched d) then Some (d <| d_phase := PStopped |>) else None.

(** *** The helper tasks *)

(** [_reload_loop], once the flag is set; [None] when the lexer does not end. *)
Definition reload_once (files : config_files) (wall now : Q) (d : Daemon) : option Daemon :=
  let d := with_flag false d in
  match load_roots files s with
  | None => None
  | Some (Raise _) => Some d
  | Some (Ok r) =>
      let sch := reload cfg (pr_store r) (pr_roots r) wall now (d_sched d) in
      Some (with_sched (node_states sch).1 d)
  end.

(** [wait_until_dirty], when it returns. *)
Definition wait_until_dirty (sch : Scheduler) : Scheduler := sch <| dirty := false |>.

(** If there is a status path, the rows then go to the worker. *)
Definition render_begin (d : Daemon) : Daemon :=
  let sch := wait_until_dirty (d_sched d) in
  if bool_decide (str_setting s "status_path" = "") then with_sched sch d
  else let '(sch', rows) := node_states sch in (with_sched sch' d) <| d_thread := Some rows |>.

(** The worker publishes.  It shares the states with the loop, so what it renders are the
    nodes it was given in whatever states it reads. *)
Definition render_end (seen : list NodeState) (now : Q) (c c' : write_calls) (d : Daemon) : option Daemon :=
  match d_thread d with
  | Some rows =>
      if bool_decide (length rows = length seen) then
        let '(trace, _) := render_and_publish strftime_local version logo (zip rows.*1 seen) s now c c' (d_pages d) in
        Some (d <| d_pages := default (d_pages d) (last trace) |> <| d_thread := None |>)
      else None
  | None => None
  end.

(** [_save_state], with any exception logged. *)
Definition save_once (now : Q) (tmp : string) (size : Z) (o : outcomes) (d : Daemon) : Daemon :=
  match state_store with
  | None => d
  | Some st =>
      let '(trace, _) := save st (export_state (d_sched d)) now tmp size o (d_state d) in
      d <| d_state := default (d_state d) (last trace) |>
  end.

(** [_periodic]: a non-positive interval disables the task. *)
Definition periodic_enabled (interval : Z) : bool := 0 <? interval.

(** *** Shutdown *)

(** [control.stop]: the live connections are cancelled and the socket closed. *)
Definition control_stop (srv : ControlServer) : ControlServer :=
  MkServer (_scheduler srv) (_reload_flag srv) (_token srv) None ∅ (_active srv - Z.of_nat (size (_conns srv))) (replies srv).

(** The [finally] of [serve] up to the helpers' end; a running worker is not interrupted. *)
Definition close_all (d : Daemon) : Daemon := d <| d_server := control_stop (d_server d) |> <| d_phase := PClosed |>.

(** The final flush and the final snapshot. *)
Definition final_flush (wall : Q) (tmp : string) (size : Z) (o : outcomes) (now : Q) (c c' : write_calls) (d : Daemon) : Daemon :=
  let d := save_once wall tmp size o d in
  let d :=
    if bool_decide (str_setting s "status_path" = "") then d
    else
      let '(sch, rows) := node_states (d_sched d) in
      let '(trace, _) := render_and_publish strftime_local version logo rows s now c c' (d_pages d) in
      (with_sched sch d) <| d_pages := default (d_pages d) (last trace) |> in
  d <| d_phase := PDone |>.

(** *** Steps *)

(** The event loop between ticks: tasks that start, return and send, and the ping sockets. *)
Inductive task_step : Scheduler → Scheduler → Prop :=
| ts_start x sch sch' : check_start x sch = Some sch' → task_step sch sch'
| ts_returned x code wall mono mono' sch sch' :
    check_returned cfg x code wall mono mono' sch = Some sch' → task_step sch sch'
| ts_raised x sch sch' : check_raised x sch = Some sch' → task_step sch sch'
| ts_sent x ok mono sch sch' : send_returned x ok mono sch = Some sch' → task_step sch sch'
| ts_send_raised x sch sch' : send_raised x sch = Some sch' → task_step sch sch'
| ts_pools p4 p6 o sch :
    svc_step (pool4 sch, pool6 sch, os sch) (p4, p6, o) → task_step sch (with_pools p4 p6 o sch).

(** The helpers live from the start of the loop until they are cancelled. *)
Definition helpers_live (d : Daemon) : Prop := d_phase d = PRunning ∨ d_phase d = PStopped.

(** Fresh temporary names, as [mkstemp] chooses them; the state file and the status file are
    on file systems of their own. *)
Definition fresh_save (tmp : string) (d : Daemon) : Prop :=
  d_state d !! tmp = None ∧ tmp ≠ str_setting s "state_path".

Definition fresh_write (c : write_calls) (d : Daemon) : Prop :=
  d_pages d !! c_tmp c = None ∧ c_tmp c ≠ str_setting s "status_path" ∧
  c_tmp c ≠ logo_target (str_setting s "status_path").

Inductive dstep : Daemon → Daemon → Prop :=
| ds_term d : dstep d (on_term d)
| ds_hup d : dstep d (on_hup d)
| ds_listen env d srv :
    d_phase d = PStarting → flag_of s "control_enabled" = true →
    start s env (d_server d) = (srv, Ok tt) → dstep d (d <| d_server := srv |>)
| ds_run d :
    d_phase d = PStarting → (flag_of s "control_enabled" = true → is_Some (_listening (d_server d))) →
    dstep d (run_begin d)
| ds_tick now d d' : d_phase d = PRunning → run_tick now d = Some d' → dstep d d'
| ds_task d sch : d_phase d = PRunning → task_step (d_sched d) sch → dstep d (with_sched sch d)
| ds_control d srv :
    is_Some (_listening (d_server d)) → d_phase d ≠ PClosed → d_phase d ≠ PDone →
    (∃ id, _conns (d_server d) !! id = None ∧ srv = conn_accept id (d_server d)) ∨
    (∃ id r now, conn_request version id r now (d_server d) = Some srv) ∨
    (∃ id, conn_flushed id (d_server d) = Some srv) → dstep d (d <| d_server := srv |>)
| ds_reload files wall now d d' :
    helpers_live d → _reload_flag (d_server d) = true → reload_once files wall now d = Some d' → dstep d d'
| ds_render d : helpers_live d → d_thread d = None → dstep d (render_begin d)
| ds_publish seen now c c' d d' :
    fresh_write c d → fresh_write c' d → render_end seen now c c' d = Some d' → dstep d d'
| ds_save now tmp size o d :
    helpers_live d → periodic_enabled (int_of s "statesave_s") = true → fresh_save tmp d →
    dstep d (save_once now tmp size o d)
| ds_run_end d d' : d_phase d = PRunning → run_end d = Some d' → dstep d d'
| ds_close d : d_phase d = PStopped → dstep d (close_all d)
| ds_final wall tmp size o now c c' d :
    d_phase d = PClosed → fresh_save tmp d → fresh_write c d → fresh_write c' d →
    dstep d (final_flush wall tmp size o now c c' d).

(** *** The periodic log lines *)

(** [_log_heartbeat]: total, up, down, suppressed. *)
Definition _log_heartbeat (sch : Scheduler) : Z * Z * Z * Z :=
  let states := (node_states sch).2 in
  let count (P : row → bool) := Z.of_nat (length (filter (λ r, P r = true) states)) in
  let total := Z.of_nat (length states) in
  let suppressed_ := count (λ r, suppressed r.2) in
  let down := count (λ r, negb (suppressed r.2) && negb (is_up (lastcheck r.2))) in
  (total, total - suppressed_ - down, down, suppressed_).

(** [_log_dns_stats]: hits, misses and expired entries. *)
Definition _log_dns_stats (c : DnsCache) : Z * Z * Z :=
  let '(hits, misses, expired, _) := stats c in (hits, misses, expired).
End serve.
