(* ===== verification/DaemonSpec.v ===== *)
(** * What the daemon guarantees

    Over every interleaving of the loop, the tasks, the control channel, the signals and the
    helpers: the scheduler stays in the states its invariants hold in, the two files are at
    every step whole, a stop drains and ends, and a graceful stop followed by a start loses
    nothing. *)
From S2P Require Import Prelude Status Model StateMachine PingPool Graph Gate Flatten Scheduler Json SchedOps SchedInv SchedRun SchedReload Ping DnsCache StateStore Settings PyStr PyNum PyDict Lexer Modern ModernForest ModernSpec Legacy LegacySpec Control ControlSpec Notify Detect Cli ConfigTyped HtmlText StatusPage StatusPageSpec Daemon.

(** ** Configurations *)

(** The graph either parser returns is one a scheduler can run on. *)
Lemma config_closed nf text r : parse_config nf text = Some (Ok r) → closed_graph (pr_store r) (pr_roots r).
Proof.
  unfold parse_config. destruct (detect text).
  - destruct (legacy_parse nf text) as [[l|e]|]; [|done..]. intros [= <-]. apply forest_closed.
  - intros (ts & st & _ & _ & [_ Hl])%parse_inv. by eapply linked_closed.
Qed.

Lemma config_overrides_typed nf text r : parse_config nf text = Some (Ok r) → typed_overrides (pr_overrides r).
Proof.
  unfold parse_config. destruct (detect text).
  - destruct (legacy_parse nf text) as [[l|e]|] eqn:E; [|done..]. intros [= <-]. by eapply legacy_overrides_typed.
  - apply modern_overrides_typed.
Qed.

Lemma load_roots_ok files s r :
  load_roots files s = Some (Ok r) →
  ∃ text, files (str_setting s "config_path") = Ok text ∧ parse_config (int_of s "numfailures") text = Some (Ok r).
Proof. unfold load_roots. repeat case_match; intros; simplify_eq. eauto. Qed.

(** ** The scheduler under the daemon *)

Lemma task_step_step s sch sch' : task_step s sch sch' → step (sched_config s) sch sch'.
Proof. destruct 1; by econstructor. Qed.

(** A move of the scheduler made by neither its loop nor its tasks. *)
Definition calm (cfg : SchedConfig) (sch sch' : Scheduler) : Prop :=
  rtc (step cfg) sch sch' ∧ tasks sch' = tasks sch.

Lemma calm_refl cfg sch : calm cfg sch sch.
Proof. by split. Qed.

Lemma calm_reached cfg sch sch' : calm cfg sch sch' → reached cfg sch → reached cfg sch'.
Proof. intros [H _]. induction H; [done|]. intros Hr. eauto using reached_step. Qed.

Lemma calm_trans cfg sch sch1 sch2 : calm cfg sch sch1 → calm cfg sch1 sch2 → calm cfg sch sch2.
Proof. intros [H1 T1] [H2 T2]. split; [by etrans|congruence]. Qed.

Lemma tasks_foldl {A} (f : Scheduler → A → Scheduler) l sch :
  (∀ sch a, tasks (f sch a) = tasks sch) → tasks (foldl f sch l) = tasks sch.
Proof. intros Hf. revert sch. induction l as [|a l IH]; intros sch; simpl; [done|]. by rewrite IH. Qed.

Lemma calm_step cfg sch sch' : step cfg sch sch' → tasks sch' = tasks sch → calm cfg sch sch'.
Proof. intros Hs Ht. split; [by apply rtc_once|done]. Qed.

Lemma calm_states cfg sch : calm cfg sch (node_states sch).1.
Proof.
  apply calm_step; [constructor|]. apply tasks_foldl. intros c a. case_match; [by destruct c|done].
Qed.

Lemma tasks_mutate f h ty p sch : tasks (mutate_matching f h ty p sch).1 = tasks sch.
Proof.
  unfold mutate_matching. simpl. pose proof (tasks_foldl (λ sch s, upd_state s f sch) (_match h ty p sch) sch) as H.
  rewrite <- H by (by intros [] ?). case_bool_decide; [done|]. by destruct (foldl _ _ _).
Qed.

Lemma calm_ack cfg h ty p sch : calm cfg sch (ack h ty p sch).1.
Proof. apply calm_step; [constructor|apply tasks_mutate]. Qed.

Lemma calm_note cfg h ty p text sch : calm cfg sch (set_note h ty p text sch).1.
Proof. apply calm_step; [constructor|apply tasks_mutate]. Qed.

Lemma calm_clean cfg sch : calm cfg sch (sch <| dirty := false |>).
Proof. apply calm_step; [constructor|by destruct sch]. Qed.

Lemma calm_reload cfg store roots wall now sch :
  closed_graph store roots → calm cfg sch (reload cfg store roots wall now sch).
Proof. intros Hc. apply calm_step; [by constructor|]. by destruct (reload_frame cfg store roots wall now sch) as (_ & ? & _). Qed.

Create HintDb calm.
#[local] Hint Resolve calm_refl calm_states calm_ack calm_note calm_clean : calm.

(** What a command of the control channel does to the scheduler. *)
Lemma calm_dispatch cfg version srv req now : calm cfg (_scheduler srv) (_scheduler (_dispatch version srv req now).1).
Proof.
  destruct (dispatch_inv version srv req now) as [(r & -> & _)|(cmd & h & t & srv' & resp & _ & Hh & Ha & -> & _)]; [done|].
  simpl. apply commands_inv in Hh as [[_ [->| ->]]|[_ [->|[->| ->]]]].
  - unfold _cmd_status in Ha. pose proof (calm_states cfg (_scheduler srv)). destruct (node_states _). destruct srv. by simplify_eq/=.
  - unfold _cmd_version in Ha. by simplify_eq.
  - unfold _cmd_ack in Ha. destruct (_object_key req) as [[[h ty] p]|]; [|by simplify_eq].
    pose proof (calm_ack cfg h ty p (_scheduler srv)). destruct (ack _ _ _ _), srv. by simplify_eq/=.
  - unfold _cmd_note in Ha.
    destruct (_object_key req) as [[[h ty] p]|], (note_text (get_or_none req "text")) as [x|]; try by simplify_eq.
    pose proof (calm_note cfg h ty p x (_scheduler srv)). destruct (set_note _ _ _ _ _), srv. by simplify_eq/=.
  - unfold _cmd_reload in Ha. destruct srv. by simplify_eq/=.
Qed.

Lemma calm_request cfg version id r now srv srv' :
  conn_request version id r now srv = Some srv' → calm cfg (_scheduler srv) (_scheduler srv').
Proof.
  unfold conn_request. destruct (_conns srv !! id) as [[]|]; try done.
  assert (calm cfg (_scheduler srv) (_scheduler (_read_request version srv r now).1)) as H.
  { destruct r as [| |[| | | | | |req]]; try apply calm_refl. apply calm_dispatch. }
  destruct (_read_request version srv r now) as [srv1 [resp|e]]; intros [= <-]; by destruct srv1.
Qed.

Lemma start_frame s env srv srv' r :
  start s env srv = (srv', r) →
  _scheduler srv' = _scheduler srv ∧ _conns srv' = _conns srv ∧ _active srv' = _active srv.
Proof. destruct srv. unfold start. intros H. repeat case_match; by simplify_eq/=. Qed.

(** ** The invariant of a run *)

(** A phase that is not among the listed ones. *)
Ltac early := let H := fresh in intros H; exfalso; repeat (apply elem_of_cons in H as [H|H]; [discriminate H|]); by apply elem_of_nil in H.

Section invariant.
Context (strf : Q → string) (ver : string) (logo : option (list N)) (s : Settings).
Context (state0 : fsys) (pages0 : pfs).

Abbreviation cfg := (sched_config s).
Abbreviation state_path := (str_setting s "state_path").
Abbreviation status_path := (str_setting s "status_path").
Abbreviation step := (dstep strf ver logo s).

(** The state file: as it was found, or one complete export of a state of the run. *)
Definition state_whole (fs : fsys) : Prop :=
  (fs !! state_path = state0 !! state_path ∨
   ∃ sch t size, reached cfg sch ∧ fs !! state_path = Some (MkFile size (CJson (payload (export_state sch) t)))) ∧
  ∀ p, is_Some (state0 !! p) → p ≠ state_path → fs !! p = state0 !! p.

(** The rows of a page: the nodes of one configuration of the run, in the order of the file. *)
Definition rows_ok (rows : list row) : Prop :=
  ∃ sch, reached cfg sch ∧ rows.*1 = (node_states sch).2.*1.

(** The status file: as it was found, or one complete page, read-only. *)
Definition page_whole (fs : pfs) : Prop :=
  (fs !! status_path = pages0 !! status_path ∨
   ∃ rows now bytes, rows_ok rows ∧ utf8 (page strf ver s rows now) = Some bytes ∧
     fs !! status_path = Some (MkPFile mode_0444 bytes)) ∧
  ∀ p, is_Some (pages0 !! p) → p ≠ status_path → fs !! p = pages0 !! p.

Record daemon_ok (d : Daemon) : Prop := {
  ok_sched : reached cfg (d_sched d);
  ok_conns : conns_ok (d_server d);
  ok_state : state_whole (d_state d);
  ok_pages : page_whole (d_pages d);
  ok_thread : ∀ rows, d_thread d = Some rows → rows_ok rows ∧ status_path ≠ "";
  ok_drained : d_phase d ∈ [PStopped; PClosed; PDone] → tasks (d_sched d) = ∅;
  ok_closed : d_phase d ∈ [PClosed; PDone] → _listening (d_server d) = None ∧ _conns (d_server d) = ∅
}.

(** A step that only replaces the server. *)
Lemma ok_server srv d :
  calm cfg (d_sched d) (_scheduler srv) → conns_ok srv →
  (d_phase d ∈ [PClosed; PDone] → _listening srv = None ∧ _conns srv = ∅) →
  daemon_ok d → daemon_ok (d <| d_server := srv |>).
Proof.
  intros Hcalm Hc Hcl [H1 H2 H3 H4 H5 H6 H7]. pose proof (proj2 Hcalm) as Ht.
  destruct d. split; simpl in *; [by eapply calm_reached|done..| |done].
  intros Hph. unfold d_sched in *. simpl in *. rewrite Ht. by apply H6.
Qed.

Lemma ok_with_sched sch d : calm cfg (d_sched d) sch → daemon_ok d → daemon_ok (with_sched sch d).
Proof.
  intros Hc Hd. destruct d as [[] ? ? ? ? ?]. apply ok_server; [exact Hc| | |done]; simpl.
  - by destruct (ok_conns _ Hd).
  - intros Hp. by apply (ok_closed _ Hd).
Qed.

Lemma ok_flag b d : daemon_ok d → daemon_ok (with_flag b d).
Proof. intros [H1 [? ?] H3 H4 H5 H6 H7]. by destruct d as [[] ? ? ? ? ?]. Qed.

Lemma rows_reached sch : reached cfg sch → rows_ok (node_states sch).2.
Proof. intros Hr. by exists sch. Qed.

(** ** Files *)

Lemma save_whole sch now tmp size o d :
  reached cfg sch → fresh_save s tmp d → state_whole (d_state d) →
  state_whole (default (d_state d) (last (save (MkStore state_path (int_of s "state_max_age_s"))
    (export_state sch) now tmp size o (d_state d)).1)).
Proof.
  intros Hr [Hf Hne] [Hp Ho]. set (st := MkStore _ _).
  destruct (last _) as [fs'|] eqn:El; [|by split]. apply last_Some_elem_of in El. simpl.
  destruct (save_trace st (export_state sch) now tmp size o (d_state d) fs' Hf Hne El) as [Hnew Hother]. subst st. cbn [path] in *. split.
  - destruct Hnew as [->|Hnew]; [done|]. right. eauto 6.
  - intros p Hs Hp'. rewrite Hother; [by apply Ho| |done]. intros ->. rewrite (Ho tmp Hs Hp') in Hf. rewrite Hf in Hs. by destruct Hs.
Qed.

Lemma publish_whole rows now c c' fs :
  rows_ok rows → status_path ≠ "" → status_path ≠ logo_target status_path →
  fresh_for s fs c → fresh_for s fs c' → page_whole fs →
  page_whole (default fs (last (render_and_publish strf ver logo rows s now c c' fs).1)).
Proof.
  intros Hrows Hne Hnt Hc Hc' [Hp Ho].
  destruct (publication_spec strf ver logo s rows now c c' fs Hne Hnt Hc Hc') as (bytes & Hb & H).
  destruct (render_and_publish strf ver logo rows s now c c' fs) as [trace r]. simpl. destruct H as [Hall _].
  destruct (last trace) as [fs'|] eqn:El; [|by split]. apply last_Some_elem_of, Hall in El as (Hpage & Hlogo & Hother). simpl. split.
  - destruct Hpage as [->|Hpage]; [done|]. right. eauto 7.
  - intros p Hs Hp'. pose proof (Ho p Hs Hp') as E.
    destruct (decide (p = logo_target status_path)) as [->|Hpt].
    + destruct Hlogo as [->|[Hn _]]; [done|]. rewrite <- E, Hn in Hs. by destruct Hs.
    + rewrite Hother; [done|]. destruct Hc as [Hc _], Hc' as [Hc' _].
      rewrite !not_elem_of_cons. split_and!; [| |done..|apply not_elem_of_nil];
        intros ->; rewrite <- E in Hs; [rewrite Hc in Hs|rewrite Hc' in Hs]; by destruct Hs.
Qed.

(** ** Steps *)

Lemma ok_phase ph b d :
  (ph ∈ [PStopped; PClosed; PDone] → tasks (d_sched d) = ∅) →
  (ph ∈ [PClosed; PDone] → _listening (d_server d) = None ∧ _conns (d_server d) = ∅) →
  daemon_ok d → daemon_ok (d <| d_stop := b |> <| d_phase := ph |>).
Proof. intros Ht Hc [H1 H2 H3 H4 H5 H6 H7]. by destruct d. Qed.

Lemma ok_save now tmp size o d : fresh_save s tmp d → daemon_ok d → daemon_ok (save_once s now tmp size o d).
Proof.
  intros Hf Hd. unfold save_once, state_store. case_bool_decide; [done|].
  pose proof (save_whole (d_sched d) now tmp size o d (ok_sched _ Hd) Hf (ok_state _ Hd)) as Hw.
  destruct (save _ _ _ _ _ _ _) as [trace r]. destruct Hd, d. by split.
Qed.

Lemma ok_pages_set fs th d :
  page_whole fs → (∀ rows, th = Some rows → rows_ok rows ∧ status_path ≠ "") →
  daemon_ok d → daemon_ok (d <| d_pages := fs |> <| d_thread := th |>).
Proof. intros Hp Ht []. destruct d. by split. Qed.

Lemma ok_control d srv :
  daemon_ok d → d_phase d ≠ PClosed → d_phase d ≠ PDone →
  (∃ id, _conns (d_server d) !! id = None ∧ srv = conn_accept id (d_server d)) ∨
  (∃ id r now, conn_request ver id r now (d_server d) = Some srv) ∨
  (∃ id, conn_flushed id (d_server d) = Some srv) → daemon_ok (d <| d_server := srv |>).
Proof.
  intros Hd Hp1 Hp2 Hs. apply ok_server; [| | |done].
  - destruct Hs as [(id & _ & ->)|[(id & r & now & Hs)|(id & Hs)]].
    + unfold conn_accept. destruct d as [[] ? ? ? ? ?]. by case_match.
    + by eapply calm_request.
    + unfold conn_flushed in Hs. destruct d as [[] ? ? ? ? ?]. by repeat case_match; simplify_eq/=.
  - eapply (conns_ok_step ver (d_server d)); [|apply Hd].
    destruct Hs as [(id & ? & ->)|[(id & r & now & Hs)|(id & Hs)]]; [by constructor|by econstructor|by eapply sstep_flushed].
  - rewrite !elem_of_cons, elem_of_nil. naive_solver.
Qed.

Lemma ok_reload files wall now d d' : reload_once s files wall now d = Some d' → daemon_ok d → daemon_ok d'.
Proof.
  unfold reload_once. intros H Hd. destruct (load_roots files s) as [[r|e]|] eqn:El; simplify_eq; [|by apply ok_flag].
  apply load_roots_ok in El as (text & _ & Hc%config_closed). apply ok_with_sched; [|by apply ok_flag].
  eapply calm_trans; [by apply calm_reload|apply calm_states].
Qed.

Lemma ok_render d : daemon_ok d → daemon_ok (render_begin s d).
Proof.
  intros Hd. unfold render_begin, wait_until_dirty. set (sch := (d_sched d) <| dirty := false |>).
  pose proof (calm_clean cfg (d_sched d)) as Hc. fold sch in Hc. case_bool_decide as Hp; [by apply ok_with_sched|].
  pose proof (calm_trans _ _ _ _ Hc (calm_states cfg sch)) as Hc'.
  assert (rows_ok (node_states sch).2) as Hr by (eapply rows_reached, calm_reached; [exact Hc|apply Hd]).
  destruct (node_states sch) as [sch' rows]. pose proof (ok_with_sched sch' d Hc' Hd) as [H1 H2 H3 H4 H5 H6 H7].
  destruct d. split; [done..| |done|done]. simpl. by intros ? [= <-].
Qed.

Context (Hlogo : status_path ≠ logo_target status_path).

Lemma zip_nodes (rows : list row) (seen : list NodeState) : length rows = length seen → (zip rows.*1 seen).*1 = rows.*1.
Proof. intros H. apply fst_zip. by rewrite length_fmap, H. Qed.

Lemma ok_publish seen now c c' d d' :
  fresh_write s c d → fresh_write s c' d → render_end strf ver logo s seen now c c' d = Some d' → daemon_ok d → daemon_ok d'.
Proof.
  intros Hc Hc' H Hd. unfold render_end in H. destruct (d_thread d) as [rows|] eqn:Et; [|done].
  case_bool_decide as Hlen; [|done]. destruct (ok_thread _ Hd rows Et) as [(sch & Hr & Hrows) Hne].
  assert (rows_ok (zip rows.*1 seen)) as Hz by (exists sch; by rewrite zip_nodes).
  pose proof (publish_whole _ now c c' (d_pages d) Hz Hne Hlogo Hc Hc' (ok_pages _ Hd)) as Hw.
  destruct (render_and_publish _ _ _ _ _ _ _ _ _) as [trace r]. injection H as <-. by apply ok_pages_set.
Qed.

Lemma ok_final wall tmp size o now c c' d :
  d_phase d = PClosed → fresh_save s tmp d → fresh_write s c d → fresh_write s c' d →
  daemon_ok d → daemon_ok (final_flush strf ver logo s wall tmp size o now c c' d).
Proof.
  intros Hph Hf Hc Hc' Hd. unfold final_flush.
  assert (d_pages (save_once s wall tmp size o d) = d_pages d ∧ d_phase (save_once s wall tmp size o d) = PClosed) as [Ep Eph].
  { unfold save_once. destruct (state_store s); [|done]. destruct (save _ _ _ _ _ _ _). by destruct d. }
  unfold fresh_write in Hc, Hc'. rewrite <- Ep in Hc, Hc'.
  pose proof (ok_save wall tmp size o d Hf Hd) as Hd1. revert Hd1 Hc Hc' Eph. generalize (save_once s wall tmp size o d). clear d Hph Hf Hd Ep.
  intros d Hd Hc Hc' Hph. assert (∀ d1, d_phase d1 = PClosed → daemon_ok d1 → daemon_ok (d1 <| d_phase := PDone |>)) as Hdone.
  { intros d1 Hp1 Hd1. pose proof (ok_phase PDone (d_stop d1) d1) as H. destruct d1; simpl in *. subst. apply H; [| |done]; intros _;
      [apply (ok_drained _ Hd1), list_elem_of_further, list_elem_of_here|apply (ok_closed _ Hd1), list_elem_of_here]. }
  case_bool_decide as Hp; [by apply Hdone|].
  pose proof (publish_whole _ now c c' _ (rows_reached _ (ok_sched _ Hd)) Hp Hlogo Hc Hc' (ok_pages _ Hd)) as Hw.
  pose proof (calm_states cfg (d_sched d)) as Hst. destruct (node_states (d_sched d)) as [sch rows]. simpl in *.
  destruct (render_and_publish _ _ _ _ _ _ _ _ _) as [trace r]. simpl in Hw. apply Hdone; [by destruct d|].
  pose proof (ok_with_sched sch d Hst Hd) as Hd1. pose proof (ok_pages_set _ (d_thread d) _ Hw (ok_thread _ Hd) Hd1) as H. by destruct d.
Qed.

Lemma daemon_ok_step d d' : step d d' → daemon_ok d → daemon_ok d'.
Proof.
  intros Hs Hd. destruct Hs as [d|d|env d srv Hph _ Hst|d Hph _|now d d' Hph H|d sch Hph H|d srv _ H1 H2 H|files wall now d d' Hl _ H
    |d _ _|seen now c c' d d' Hc Hc' H|now tmp size o d _ _ Hf|d d' Hph H|d Hph|wall tmp size o now c c' d Hph Hf Hc Hc'].
  - destruct Hd, d. by split.
  - by apply ok_flag.
  - apply start_frame in Hst as (Es & Ec & Ea). apply ok_server; [unfold d_sched; by rewrite Es| | |done].
    + destruct (ok_conns _ Hd). split; congruence.
    + rewrite Hph. early.
  - apply ok_phase; [early..|done].
  - unfold run_tick in H. destruct (d_stop d); simplify_eq.
    destruct Hd as [H1 [? ?] H3 H4 H5 H6 H7], d as [[] ? ? ? ? ?]. simpl in *. subst. split; [|done..| | ].
    + eapply reached_step; [exact H1|constructor].
    + early.
    + early.
  - destruct Hd as [H1 [? ?] H3 H4 H5 H6 H7], d as [[] ? ? ? ? ?]. simpl in *. subst. split; [|done..| | ].
    + eapply reached_step; [exact H1|by apply task_step_step].
    + early.
    + early.
  - by apply ok_control.
  - by eapply ok_reload.
  - by apply ok_render.
  - exact (ok_publish _ _ _ _ _ _ Hc Hc' H Hd).
  - by apply ok_save.
  - unfold run_end, drain in H. destruct (d_stop d) eqn:Est; [|done]. simpl in H. case_bool_decide as Ht; [|done]. simplify_eq.
    pose proof (ok_phase PStopped true d) as H. destruct d; simpl in *. subst. apply H; [done|early|done].
  - destruct Hd as [H1 [Ha Hb] H3 H4 H5 H6 H7], d as [[] ? ? ? ? ?]. simpl in *. subst. split; [done|..|done|done|done| |done].
    + split; simpl; rewrite ?map_size_empty; unfold _MAX_CONNS; lia.
    + intros _. apply H6, list_elem_of_here.
  - by apply ok_final.
Qed.
End invariant.

(** ** Start-up *)

Lemma config_stuck nf text :
  parse_config nf text = None → all_str (λ c, negb (stuck_char c)) text = false.
Proof.
  unfold parse_config. destruct (detect text).
  - pose proof (legacy_parse_ok nf text) as H. by destruct (legacy_parse nf text) as [[]|].
  - unfold parse. destruct (tokenize text) as [[]|] eqn:E; [done..|]. intros _. apply not_true_iff_false. intros Ha.
    destruct (tokenize_loop_total (String.length text) 1 true text Ha) as [x Hx]; [lia|]. unfold tokenize in E. congruence.
Qed.

Lemma finite_overrides_typed ov d :
  typed_overrides ov → finite ov = Some d → Forall (λ kv, typed_item kv = true) d.
Proof.
  intros Ht H%finite_items. induction H as [|[k v] [k' v'] ns d [Hk Hv] _ IH]; [constructor|]. simpl in *. subst.
  apply Forall_cons in Ht as [? ?]. constructor; [done|by apply IH].
Qed.

(** An accepted command line gives well-typed overrides. *)
Lemma cli_typed argv ns raw :
  parse_args [] argv = Ok ns → finite ns = Some raw → Forall (λ kv, typed_item kv = true) (cli_overrides raw).
Proof.
  intros Hp Hf. apply cli_overrides_typed.
  - eapply finite_ok; [eapply parse_args_ok; [constructor|exact Hp]|exact Hf].
  - unfold dict_ok. rewrite (finite_keys _ _ Hf). eapply (parse_args_nodup argv []); [apply NoDup_nil_2|exact Hp].
Qed.

Lemma merged_typed file cli :
  Forall (λ kv, typed_item kv = true) file → Forall (λ kv, typed_item kv = true) cli →
  ∃ s, merged file cli = Ok s ∧ merge file cli = Ok s ∧ settings_typed s.
Proof. intros Hf Hc. destruct (merge_typed file cli Hf Hc) as (s & Hm & Hs). exists s. unfold merged. by rewrite Hm. Qed.

Lemma restore_reached cfg s fs ok wall mono sch : reached cfg sch → reached cfg (_restore_state s fs ok wall mono sch).
Proof.
  intros Hr. unfold _restore_state. case_bool_decide; [done|]. destruct (StateStore.load _ _ _ _) as [[|x l]|]; [done| |done].
  pose proof (step_import cfg (x :: l) mono sch) as Hs. destruct (import_state (x :: l) mono sch) as [sch' [n|e]]; simpl in Hs.
  - eapply reached_step; [|constructor]. by eapply reached_step.
  - by eapply reached_step.
Qed.

Lemma open_sockets_reached cfg root sch : reached cfg sch → reached cfg (open_sockets root sch).
Proof.
  intros Hr. unfold open_sockets. assert (reached cfg (node_states sch).1) as H1 by (eapply reached_step; [done|constructor]).
  destruct (_ && root); [|done]. destruct (prepare _ _ _) as [[[p4 p6] o] r] eqn:E.
  eapply reached_step; [exact H1|]. constructor. by eapply svc_prepare.
Qed.

Section boot.
Context (argv : list occurrence) (e : boot_env).

(** The command line is accepted with the overrides [cli], which give the path and the default
    threshold the configuration is read with. *)
Definition cli_accepted (cli : dict) (bootstrap : Settings) : Prop :=
  ∃ ns raw, parse_args [] argv = Ok ns ∧ finite ns = Some raw ∧ cli = cli_overrides raw ∧
    merge [] cli = Ok bootstrap ∧ settings_typed bootstrap.

(** The configuration is read as [r], and with it the settings are [s]. *)
Definition config_accepted (bootstrap : Settings) (cli : dict) (r : ParseResult) (s : Settings) : Prop :=
  load_roots (be_files e) bootstrap = Some (Ok r) ∧
  ∃ file, finite (pr_overrides r) = Some file ∧ merge file cli = Ok s ∧ settings_typed s.

(** The settings [PingService] and the semaphore accept. *)
Definition counts_valid (s : Settings) : Prop :=
  is_ok (_validate_counts (int_of s "send_pings") (int_of s "min_pings")) = true ∧ 0 <= int_of s "max_concurrency".

Definition booted (sch : Scheduler) (s : Settings) : Prop :=
  ∃ cli bootstrap r, cli_accepted cli bootstrap ∧ config_accepted bootstrap cli r s ∧ counts_valid s ∧
    reached (sched_config s) sch.

(** The four ways to fail. *)
Definition boot_failed (x : boot_error) : Prop :=
  (∃ c, x = BExit c ∧ parse_args [] argv = Raise (SystemExit c)) ∨
  ∃ cli bootstrap, cli_accepted cli bootstrap ∧
    (be_files e (str_setting bootstrap "config_path") = Raise x ∨
     x = BValueError ∧
       ((∃ text p, be_files e (str_setting bootstrap "config_path") = Ok text ∧
          parse_config (int_of bootstrap "numfailures") text = Some (Raise p)) ∨
        ∃ r s, config_accepted bootstrap cli r s ∧ ¬ counts_valid s)).

(** No answer: a character the lexer never gets past, or an interval that is not finite. *)
Definition boot_stuck : Prop :=
  (∃ ns, parse_args [] argv = Ok ns ∧ finite ns = None) ∨
  ∃ cli bootstrap, cli_accepted cli bootstrap ∧
    ((∃ text, be_files e (str_setting bootstrap "config_path") = Ok text ∧
        all_str (λ c, negb (stuck_char c)) text = false) ∨
     ∃ r, load_roots (be_files e) bootstrap = Some (Ok r) ∧ finite (pr_overrides r) = None).

Lemma build_scheduler_spec s r :
  closed_graph (pr_store r) (pr_roots r) →
  match build_scheduler s r e with
  | Ok sch => counts_valid s ∧ reached (sched_config s) sch
  | Raise x => x = BValueError ∧ ¬ counts_valid s
  end.
Proof.
  intros Hc. unfold build_scheduler, counts_valid. destruct (_validate_counts _ _); [|by split; [|intros []]].
  destruct (pools_init []) as [p4 p6].
  destruct (Scheduler_init _ _ _ _ _ _ _ _ _) as [sch|x] eqn:Ei.
  - split; [|apply restore_reached; by eapply reached_init]. split; [done|].
    unfold Scheduler_init in Ei. case_match eqn:Em; [done|]. by to_prop.
  - split; [done|]. intros [_ Hm]. unfold Scheduler_init in Ei. case_match eqn:Em.
    + apply Z.ltb_lt in Em. simpl in Em. lia.
    + by destruct (_flatten _ _ _ _ _).
Qed.

End boot.

Lemma build_inv argv e sch s :
  build argv e = Some (Ok (sch, s)) → ∃ r, closed_graph (pr_store r) (pr_roots r) ∧ build_scheduler s r e = Ok sch.
Proof.
  unfold build. destruct (parse_args [] argv) as [ns|[]]; [|done]. destruct (finite ns) as [raw|]; simpl; [|done].
  destruct (merged [] _) as [boot|]; [|done]. destruct (load_roots (be_files e) boot) as [[r|]|] eqn:El; simpl; [|done..].
  apply load_roots_ok in El as (text & _ & Hc%config_closed). destruct (finite (pr_overrides r)) as [file|]; simpl; [|done].
  destruct (merged file _) as [s'|]; [|done]. simpl. destruct (build_scheduler s' r e) as [sch'|] eqn:Eb; [|done].
  intros [= <- <-]. eauto.
Qed.

Lemma build_reached argv e sch s : build argv e = Some (Ok (sch, s)) → reached (sched_config s) sch.
Proof. intros (r & Hc & Hb)%build_inv. pose proof (build_scheduler_spec e s r Hc) as H. rewrite Hb in H. apply H. Qed.

(** C2: the daemon's invariant.  In every state a started daemon gets to, however its loop, its
    checks and sends, the sockets, the control channel, the signals, reloads, saves and
    publications interleave and whichever system calls fail: the scheduler is in a state the
    invariants of the run hold in; the connection count is right and bounded; the state file
    is the one found at the start or one complete export of a state of the run, and the status
    file the one found or one complete page, about the nodes of a configuration that was
    running, read-only; no other existing file is touched; once the loop has returned no check
    is in flight, and once the channel is closed no connection is left. *)
Theorem daemon_invariant (argv : list occurrence) (e : boot_env) (root : bool) (s : Settings)
    (strf : Q → string) (ver : string) (logo : option (list N)) (pages : pfs) (d0 d : Daemon)
    (Hmain : daemon_main argv e root pages = Some (inr (s, d0)))
    (Hlogo : str_setting s "status_path" ≠ logo_target (str_setting s "status_path"))
    (Hrun : rtc (dstep strf ver logo s) d0 d) :
  daemon_ok strf ver s (be_state e) pages d.
Proof.
  apply (rtc_ind_r (daemon_ok strf ver s (be_state e) pages)) in Hrun; [done| |].
  - unfold daemon_main in Hmain. destruct (build argv e) as [[[sch s1]|]|] eqn:Hbuild; [|done..]. injection Hmain as <- <-.
    apply build_reached in Hbuild. split; simpl; try early.
    + by apply open_sockets_reached.
    + split; simpl; [by rewrite map_size_empty|unfold _MAX_CONNS; lia].
    + split; auto.
    + split; auto.
    + done.
  - intros x y _ Hs Hx. by eapply daemon_ok_step.
Qed.

(** ** Witnesses *)

Definition demo_conf : string := unlines ["gw ping router ops {"; "  db tcp 5432 pg"; "}"].

Definition demo_argv : list occurrence :=
  [("-d", None); ("--state-file", Some "/var/p.json"); ("--status-file", Some "/www/s.html"); ("--state-max-age", Some "3600")].

Definition demo_boot (fs : fsys) : boot_env :=
  MkBoot (λ _, Ok demo_conf) fs true 100 10 200 20 (MkOS 3 ∅ (λ _ _, true) true).

Definition built_of (argv : list occurrence) (e : boot_env) : Scheduler * Settings :=
  match build argv e with Some (Ok p) => p | _ => (demo_sch, ∅) end.

Definition demo_built : Scheduler * Settings := built_of demo_argv (demo_boot ∅).

Definition builds (argv : list occurrence) (e : boot_env) : bool :=
  match build argv e with Some (Ok _) => true | _ => false end.

Lemma built_spec argv e : builds argv e = true → build argv e = Some (Ok ((built_of argv e).1, (built_of argv e).2)).
Proof. unfold builds, built_of. by destruct (build argv e) as [[[]|]|]. Qed.

Lemma demo_builds : builds demo_argv (demo_boot ∅) = true.
Proof. vm_compute. reflexivity. Qed.

Lemma demo_paths :
  str_setting demo_built.2 "state_path" = "/var/p.json" ∧ str_setting demo_built.2 "status_path" = "/www/s.html" ∧
  flag_of demo_built.2 "control_enabled" = false ∧ int_of demo_built.2 "max_concurrency" = 50.
Proof. split_and!; vm_compute; reflexivity. Qed.

(** The daemon with its first check in flight. *)
Definition demo_start : Daemon := daemon_init (open_sockets true demo_built.1) ∅ ∅.
Definition demo_running : Daemon := with_sched (tick 1000 (d_sched (run_begin demo_start))) (run_begin demo_start).

Lemma demo_runs strf ver logo : rtc (dstep strf ver logo demo_built.2) demo_start demo_running.
Proof.
  eapply rtc_l; [apply ds_run; [reflexivity|]|].
  - rewrite (proj1 (proj2 (proj2 demo_paths))). discriminate.
  - apply rtc_once. eapply (ds_tick _ _ _ _ 1000); reflexivity.
Qed.

Lemma demo_in_flight : tasks (d_sched demo_running) !! 0%nat = Some TWaiting.
Proof. vm_compute. reflexivity. Qed.

Lemma daemon_invariant_witness :
  ∃ d, tasks (d_sched d) !! 0%nat = Some TWaiting ∧ daemon_ok stamp "1.0" demo_built.2 ∅ ∅ d.
Proof.
  exists demo_running. split; [exact demo_in_flight|].
  apply (daemon_invariant demo_argv (demo_boot ∅) true demo_built.2 stamp "1.0" None ∅ demo_start demo_running).
  - unfold daemon_main. rewrite (built_spec _ _ demo_builds). reflexivity.
  - rewrite (proj1 (proj2 demo_paths)). vm_compute. discriminate.
  - apply demo_runs.
Defined.
