(* ===== verification/DaemonStop.v ===== *)
(** * Stopping and starting again

    A stop drains the checks in flight and ends; what a graceful stop saves, the next start
    restores.  And three ways in which a stop does not do what it is for. *)
From S2P Require Import Prelude Status Model StateMachine PingPool Graph Gate Flatten Scheduler Json SchedOps SchedInv SchedRun SchedTick SchedPaging SchedReload SchedStates Ping DnsCache StateStore Settings PyStr PyNum PyDict Lexer Modern ModernForest ModernSpec Legacy LegacySpec Control ControlSpec Notify Detect Cli ConfigTyped HtmlText StatusPage StatusPageSpec Daemon DaemonSpec.

(** ** What a restart keeps *)

(** The nodes and their order; the keys are unique or not by these alone. *)
Definition same_nodes (sch sch' : Scheduler) : Prop :=
  scheduled sch' = scheduled sch ∧ ∀ s, node <$> objs sch' !! s = node <$> objs sch !! s.

Lemma same_nodes_unique sch sch' : same_nodes sch sch' → unique_keys sch' → unique_keys sch.
Proof.
  intros [Hs Ho] Hu s1 s2 o1 o2 H1 H2 E1 E2 Hk. rewrite <- Hs in H1, H2.
  pose proof (Ho s1) as X1. pose proof (Ho s2) as X2. rewrite E1 in X1. rewrite E2 in X2. simpl in X1, X2.
  apply fmap_Some in X1 as (o1' & F1 & N1). apply fmap_Some in X2 as (o2' & F2 & N2).
  eapply Hu; [exact H1|exact H2|exact F1|exact F2|congruence].
Qed.

Lemma same_nodes_trans sch sch1 sch2 : same_nodes sch sch1 → same_nodes sch1 sch2 → same_nodes sch sch2.
Proof. intros [H1 H2] [H3 H4]. split; [congruence|]. intros s. by rewrite H4. Qed.

Lemma same_nodes_upd s f sch : same_nodes sch (upd_state s f sch).
Proof.
  split; [by destruct sch|]. intros k. unfold upd_state. rewrite objs_upd.
  destruct (decide (k = s)) as [->|]; [|by rewrite lookup_alter_ne]. rewrite lookup_alter_eq. by destruct (objs sch !! s) as [[]|].
Qed.

Lemma same_nodes_import records now sch : same_nodes sch (import_state records now sch).1.
Proof.
  unfold import_state. generalize 0%nat. revert sch. induction records as [|r records IH]; intros sch k; simpl; [done|].
  repeat case_match; simpl; try done. eapply same_nodes_trans; [apply same_nodes_upd|apply IH].
Qed.

Lemma same_nodes_states sch : same_nodes sch (node_states sch).1.
Proof.
  simpl. generalize (scheduled sch) at 1. intros l. revert sch. induction l as [|x l IH]; intros sch; simpl; [done|].
  eapply same_nodes_trans; [|apply IH]. case_match; [apply same_nodes_upd|done].
Qed.

(** [node_states] writes [down_parents] and nothing else. *)
Lemma states_keeps sch s o' :
  objs (node_states sch).1 !! s = Some o' →
  ∃ o, objs sch !! s = Some o ∧ o' = o <| state := (state o) <| down_parents := down_parents (state o') |> |>.
Proof.
  simpl. generalize (scheduled sch) at 1. intros l. revert sch. induction l as [|x l IH]; intros sch; simpl.
  - intros H. exists o'. split; [done|]. by destruct o' as [? ? [] ? ? ? ? ? ? ?].
  - intros (o & Ho & E)%IH. destruct (objs sch !! x) as [ox|] eqn:Hx; [|eauto].
    unfold upd_state in Ho. rewrite objs_upd in Ho. destruct (decide (s = x)) as [->|]; [|rewrite lookup_alter_ne in Ho by done; eauto].
    rewrite lookup_alter_eq, Hx in Ho. injection Ho as <-. exists ox. split; [done|]. rewrite E. by destruct ox as [? ? [] ? ? ? ? ? ? ?].
Qed.

(** The monitoring state of [st] in [st'], the re-page timer starting at [now]. *)
Definition resumes (now : Q) (st st' : NodeState) : Prop :=
  lastcheck st' = lastcheck st ∧ downct st' = downct st ∧ contacted st' = contacted st ∧ deathtime st' = deathtime st ∧
  last_up st' = last_up st ∧ acked st' = acked st ∧ note st' = note st ∧ lastcontacted st' = now.

(** The import of one scheduler's export into another, with the display fields refreshed. *)
Lemma import_resumes cfg sch sch2 now :
  reached cfg sch → unique_keys sch → unique_keys sch2 →
  ∃ n sch', import_state (export_state sch) now sch2 = (sch', Ok n) ∧
    ∀ s1 o1 s2 o2, s1 ∈ scheduled sch → objs sch !! s1 = Some o1 →
      s2 ∈ scheduled sch2 → objs (node_states sch').1 !! s2 = Some o2 →
      node_key (node o2) = node_key (node o1) → resumes now (state o1) (state o2).
Proof.
  intros Hr Hu Hu2. pose proof (wf_nodup _ _ (reached_WF cfg sch Hr)) as Hnd.
  destruct (import_export_loop (live_objs sch) now 0 sch2 (live_keys_nodup sch Hnd Hu) Hu2) as (n & sch' & Hl & _ & Hob).
  exists n, sch'. split; [exact Hl|]. intros s1 o1 s2 o2 Hs1 Ho1 Hs2 (o3 & Ho3 & ->)%states_keeps Hk.
  rewrite Hob in Ho3. apply fmap_Some in Ho3 as (o4 & Ho4 & ->). unfold restored in *. rewrite bool_decide_eq_true_2 in * by done.
  assert (node_key (node o4) = node_key (node o1)) as Hk4.
  { rewrite <- Hk. case_match; [by destruct o4|]. by destruct o4. }
  destruct (filter _ (live_objs sch)) as [|[s5 o5] l] eqn:El.
  { exfalso. eapply filter_nil_not_elem_of; [exact El| |by apply live_objs_spec]. simpl. by symmetry. }
  assert ((s5, o5) ∈ filter (λ x, node_key (node x.2) = node_key (node o4)) (live_objs sch)) as Hin
    by (rewrite El; apply list_elem_of_here).
  apply list_elem_of_filter in Hin as [Hk5 [Hs5 Ho5]%live_objs_spec]. simpl in Hk5.
  assert (s5 = s1) as -> by (eapply Hu; [done..|congruence]). simplify_eq.
  pose proof (reached_notes cfg sch s1 o1 Hr Ho1) as Hn.
  destruct o4 as [? ? [] ? ? ? ? ? ? ?]. unfold carried_of, restore. simpl. by unfold resumes.
Qed.

Lemma export_nil sch s o : s ∈ scheduled sch → objs sch !! s = Some o → export_state sch ≠ [].
Proof.
  intros Hs Ho E. unfold export_state in E. apply fmap_nil_inv in E.
  assert ((s, o) ∈ live_objs sch) as H by by apply live_objs_spec. rewrite E in H. by apply elem_of_nil in H.
Qed.

(** A file young enough to be used. *)
Definition young (max_age : Z) (now saved : Q) : Prop := max_age <= 0 ∨ (now - saved <= inject_Z max_age)%Q.

Lemma young_load max_age now saved :
  young max_age now saved → (0 <? max_age) && Qltb (inject_Z max_age) (now - saved) = false.
Proof.
  intros [H|H]; [by rewrite (proj2 (Z.ltb_ge _ _) H)|]. apply andb_false_iff. right.
  destruct (Qltb _ _) eqn:E; [|done]. to_prop. lra.
Qed.

(** The state file after the final flush, when its save succeeds. *)
Lemma final_saves strf ver logo s d wall tmp size o now c c' :
  str_setting s "state_path" ≠ "" → fresh_save s tmp d → mk_ok o && write_ok o && replace_ok o = true →
  d_state (final_flush strf ver logo s wall tmp size o now c c' d) =
  <[str_setting s "state_path" := MkFile size (CJson (payload (export_state (d_sched d)) wall))]> (d_state d).
Proof.
  intros Hpath [Hf Hne] Ho. unfold final_flush, save_once, state_store.
  rewrite (bool_decide_eq_false_2 (str_setting s "state_path" = "")) by done. set (st := MkStore _ _).
  pose proof (save_last st (export_state (d_sched d)) wall tmp size o (d_state d) Hf Hne) as Hl.
  assert ((save st (export_state (d_sched d)) wall tmp size o (d_state d)).2 = Ok tt) as Hok.
  { unfold save, StateStore._atomic_write. by destruct (mk_ok o), (write_ok o), (replace_ok o). }
  destruct (save st _ _ _ _ _ _) as [trace r]. simpl in Hok. subst r. destruct Hl as (final & -> & Hl & _). rewrite (Hl eq_refl).
  case_bool_decide; [by destruct d|]. destruct (node_states _), (render_and_publish _ _ _ _ _ _ _ _ _). by destruct d.
Qed.

(** Restoring from a saved export. *)
Lemma restore_saved s' fs sch size wall now mono sch0 :
  str_setting s' "state_path" ≠ "" → size <= _MAX_FILE_BYTES → young (int_of s' "state_max_age_s") now wall →
  export_state sch ≠ [] →
  _restore_state s' (<[str_setting s' "state_path" := MkFile size (CJson (payload (export_state sch) wall))]> fs) true now mono sch0 =
  match import_state (export_state sch) mono sch0 with
  | (sch1, Ok _) => (node_states sch1).1
  | (sch1, Raise _) => sch1
  end.
Proof.
  intros Hpath Hsize Hy Hex. unfold _restore_state. rewrite bool_decide_eq_false_2 by done. set (st := MkStore _ _).
  pose proof (load_after_save st (export_state sch) wall size now fs Hsize) as Hload. rewrite young_load in Hload by done.
  change (path st) with (str_setting s' "state_path") in Hload. rewrite Hload.
  destruct (export_state sch) as [|rec recs]; [done|]. by destruct (import_state _ _ _) as [? []].
Qed.


(** ** The checks in flight *)

Definition weight (ph : phase) : nat := match ph with TWaiting => 3 | TRunning => 2 | TSending _ _ => 1 end.

Definition total (tk : gmap sid phase) : nat := sum_list_with (λ p, weight p.2) (map_to_list tk).

(** What is left to do before the tasks have all ended. *)
Definition pending (sch : Scheduler) : nat := total (tasks sch).

Lemma total_delete tk x ph : tk !! x = Some ph → total tk = (weight ph + total (delete x tk))%nat.
Proof. intros H. unfold total. by rewrite <- (map_to_list_delete tk x ph H). Qed.

Lemma total_insert tk x ph : total (<[x := ph]> tk) = (weight ph + total (delete x tk))%nat.
Proof. rewrite (total_delete _ x ph); [|apply lookup_insert_eq]. by rewrite delete_insert_eq. Qed.

Lemma weight_pos ph : (0 < weight ph)%nat.
Proof. destruct ph; simpl; lia. Qed.

(** A task that ends, or goes on to a later phase. *)
Definition advances (x : sid) (sch sch' : Scheduler) : Prop :=
  ∃ ph, tasks sch !! x = Some ph ∧
    (tasks sch' = delete x (tasks sch) ∨ ∃ ph', tasks sch' = <[x := ph']> (tasks sch) ∧ (weight ph' < weight ph)%nat).

Lemma advances_pending x sch sch' : advances x sch sch' → (pending sch' < pending sch)%nat.
Proof.
  intros (ph & Hx & H). unfold pending. rewrite (total_delete _ _ _ Hx).
  pose proof (weight_pos ph). destruct H as [->|(ph' & -> & Hw)]; [lia|]. rewrite total_insert. lia.
Qed.

Lemma task_step_tasks s sch sch' :
  task_step s sch sch' → (∃ x, advances x sch sch' ∧ (tasks sch !! x = Some TWaiting → check_start x sch = Some sch')) ∨ tasks sch' = tasks sch.
Proof.
  destruct 1 as [x sch sch' H|x code wall mono mono' sch sch' H|x sch sch' H|x ok mono sch sch' H|x sch sch' H|p4 p6 o sch H];
    [left; exists x..|right; by destruct sch].
  - split; [|done]. unfold check_start in H. destruct (tasks sch !! x) as [[]|] eqn:Et; try done. exists TWaiting. split; [done|]. right. exists TRunning.
    repeat case_match; simplify_eq; (split; [by destruct sch|simpl; lia]).
  - unfold check_returned in H. destruct (tasks sch !! x) as [[]|] eqn:Et; try done. split; [|done]. exists TRunning. split; [done|].
    destruct (objs sch !! x) as [o|]; [|done].
    destruct (negb (alive o)); [simplify_eq; left; by rewrite tasks_finish, tasks_release|].
    destruct (negb (eligible _ _)); [simplify_eq; left; unfold upd_state; by rewrite tasks_finish, tasks_upd, tasks_release|].
    destruct (apply_result _ _ _ _) as [st1 tr]. destruct (_handle_paging _ _ _ _ _ _) as [st2 [k|]]; simplify_eq.
    + right. exists (TSending k (state_changed tr)). split; [|simpl; lia].
      rewrite <- (tasks_release o sch). by destruct (release_slot o sch).
    + left. by rewrite tasks_finish, tasks_publish, tasks_upd, tasks_release.
  - unfold check_raised in H. destruct (tasks sch !! x) as [[]|] eqn:Et; try done. split; [|done]. exists TRunning. split; [done|].
    case_match; simplify_eq. left. by rewrite tasks_finish, tasks_release.
  - unfold send_returned in H. destruct (tasks sch !! x) as [[| |k b]|] eqn:Et; try done. split; [|done]. exists (TSending k b). split; [done|].
    simplify_eq. left. unfold upd_state. by rewrite tasks_finish, tasks_publish, tasks_upd.
  - unfold send_raised in H. destruct (tasks sch !! x) as [[| |k b]|] eqn:Et; try done. split; [|done]. exists (TSending k b). split; [done|].
    simplify_eq. left. by rewrite tasks_finish.
Qed.

(** While a slot exists, some task can always go on. *)
Lemma tasks_progress s sch :
  reached (sched_config s) sch → 1 <= int_of s "max_concurrency" → tasks sch ≠ ∅ →
  ∃ x sch', task_step s sch sch' ∧ advances x sch sch'.
Proof.
  intros Hr Hmax Hne. apply map_choose in Hne as (x & ph & Hx).
  pose proof (reached_WF _ _ Hr) as Hwf. pose proof (reached_slots _ _ Hr) as [Hf Hsl]. simpl in Hsl.
  assert (∀ y, tasks sch !! y = Some TRunning → ∃ x sch', task_step s sch sch' ∧ advances x sch sch') as Hrun.
  { intros y Hy. destruct (proj1 (wf_tasks _ _ Hwf y)) as (o & Ho & _); [by rewrite Hy|].
    exists y, (finish y (release_slot o sch)). split.
    - apply (ts_raised _ y). unfold check_raised. by rewrite Hy, Ho.
    - exists TRunning. split; [done|]. left. by rewrite tasks_finish, tasks_release. }
  destruct ph as [| |k b]; [|by eapply Hrun|].
  2: { exists x, (finish x sch). split; [apply (ts_send_raised _ x); unfold send_raised; by rewrite Hx|].
       exists (TSending k b). split; [done|]. left. apply tasks_finish. }
  destruct (proj1 (wf_tasks _ _ Hwf x)) as (o & Ho & _); [by rewrite Hx|].
  assert ((∃ sch', check_start x sch = Some sch') ∨ ∃ y, tasks sch !! y = Some TRunning) as [[sch' Hs]|[y Hy]].
  { unfold check_start. rewrite Hx, Ho. destruct (is_ping o); [left; eauto|].
    destruct (0 <? free_slots sch) eqn:E; [left; eauto|right]. to_prop.
    assert (0 < in_use (objs sch) (tasks sch)) as Hu by lia. unfold in_use in Hu.
    destruct (filter _ _) as [|[y ph] l] eqn:El; [simpl in Hu; lia|].
    assert ((y, ph) ∈ filter (λ p, holdsb (objs sch) p = true) (map_to_list (tasks sch))) as Hin by (rewrite El; apply list_elem_of_here).
    apply list_elem_of_filter in Hin as [Hh Hy%elem_of_map_to_list]. exists y. by destruct ph. }
  - exists x, sch'. assert (task_step s sch sch') as Ht by (by eapply ts_start). split; [done|]. exists TWaiting. split; [done|].
    right. exists TRunning. unfold check_start in Hs. rewrite Hx, Ho in Hs. repeat case_match; simplify_eq; (split; [by destruct sch|simpl; lia]).
  - by eapply Hrun.
Qed.

(** ** The steps of a run, by what they do to the scheduler *)

Section steps.
Context (strf : Q → string) (ver : string) (logo : option (list N)) (s : Settings).
Abbreviation cfg := (sched_config s).
Abbreviation dstep := (dstep strf ver logo s).

Inductive view (d d' : Daemon) : Prop :=
| view_calm : calm cfg (d_sched d) (d_sched d') → d_phase d' = d_phase d → (d_stop d = true → d_stop d' = true) → view d d'
| view_run : d_phase d = PStarting → d' = run_begin d → view d d'
| view_tick now : d_phase d = PRunning → d_stop d = false → d' = with_sched (tick now (d_sched d)) d → view d d'
| view_task sch : d_phase d = PRunning → task_step s (d_sched d) sch → d' = with_sched sch d → view d d'
| view_end : d_phase d = PRunning → d_stop d = true → tasks (d_sched d) = ∅ → d' = d <| d_phase := PStopped |> → view d d'
| view_close : d_phase d = PStopped → d' = close_all d → view d d'
| view_final : d_phase d = PClosed → calm cfg (d_sched d) (d_sched d') → d_phase d' = PDone → view d d'.

Lemma save_once_frame now tmp size o d :
  d_server (save_once s now tmp size o d) = d_server d ∧ d_phase (save_once s now tmp size o d) = d_phase d ∧
  d_stop (save_once s now tmp size o d) = d_stop d ∧ d_pages (save_once s now tmp size o d) = d_pages d ∧
  d_thread (save_once s now tmp size o d) = d_thread d.
Proof. unfold save_once. destruct (state_store s); [|done]. destruct (save _ _ _ _ _ _ _). by destruct d. Qed.

Lemma with_sched_proj sch d : d_sched (with_sched sch d) = sch ∧ d_phase (with_sched sch d) = d_phase d ∧ d_stop (with_sched sch d) = d_stop d.
Proof. by destruct d as [[] ? ? ? ? ?]. Qed.

Lemma final_sched wall tmp size o now c c' d :
  calm cfg (d_sched d) (d_sched (final_flush strf ver logo s wall tmp size o now c c' d)).
Proof.
  unfold final_flush. destruct (save_once_frame wall tmp size o d) as (Es & _). unfold d_sched. rewrite <- Es.
  generalize (save_once s wall tmp size o d). intros d1. case_bool_decide; [by destruct d1|].
  pose proof (calm_states cfg (_scheduler (Daemon.d_server d1))) as Hc. unfold d_sched.
  destruct (node_states _) as [sch rows]. destruct (render_and_publish _ _ _ _ _ _ _ _ _). by destruct d1 as [[] ? ? ? ? ?].
Qed.

Lemma dstep_view d d' : dstep d d' → view d d'.
Proof.
  intros Hs. destruct Hs as [d|d|env d srv Hph _ Hst|d Hph _|now d d' Hph H|d sch Hph H|d srv _ H1 H2 H|files wall now d d' Hl _ H
    |d _ _|seen now c c' d d' Hc Hc' H|now tmp size o d _ _ Hf|d d' Hph H|d Hph|wall tmp size o now c c' d Hph Hf Hc Hc'].
  - by destruct d; apply view_calm.
  - by destruct d as [[] ? ? ? ? ?]; apply view_calm.
  - apply start_frame in Hst as (Es & _). destruct d. apply view_calm; [|done..]. unfold d_sched. simpl in *. by rewrite Es.
  - by apply view_run.
  - unfold run_tick in H. destruct (d_stop d) eqn:E; simplify_eq. by eapply view_tick.
  - by eapply view_task.
  - apply view_calm; [|by destruct d..].
    destruct H as [(id & _ & ->)|[(id & r & now & Hs)|(id & Hs)]].
    + unfold conn_accept. destruct d as [[] ? ? ? ? ?]. by case_match.
    + destruct d. by eapply calm_request.
    + unfold conn_flushed in Hs. destruct d as [[] ? ? ? ? ?]. by repeat case_match; simplify_eq/=.
  - unfold reload_once in H. destruct (load_roots files s) as [[r|e]|] eqn:El; simplify_eq.
    + apply load_roots_ok in El as (text & _ & Hc%config_closed).
      replace (d_sched (with_flag false d)) with (d_sched d) by by destruct d as [[] ? ? ? ? ?].
      pose proof (calm_trans _ _ _ _ (calm_reload cfg _ _ wall now (d_sched d) Hc) (calm_states cfg _)) as H. revert H.
      generalize (node_states (reload cfg (pr_store r) (pr_roots r) wall now (d_sched d))).1. intros sch H.
      by destruct d as [[] ? ? ? ? ?]; apply view_calm.
    + by destruct d as [[] ? ? ? ? ?]; apply view_calm.
  - unfold render_begin, wait_until_dirty. pose proof (calm_clean cfg (d_sched d)) as Hc. revert Hc. generalize ((d_sched d) <| dirty := false |>). intros sch Hc.
    case_bool_decide; [by destruct d as [[] ? ? ? ? ?]; apply view_calm|].
    pose proof (calm_trans _ _ _ _ Hc (calm_states cfg sch)) as Hc'. destruct (node_states sch) as [sch' rows].
    by destruct d as [[] ? ? ? ? ?]; apply view_calm.
  - unfold render_end in H. destruct (d_thread d); [|done]. case_bool_decide; [|done].
    destruct (render_and_publish _ _ _ _ _ _ _ _ _). injection H as <-. by destruct d; apply view_calm.
  - destruct (save_once_frame now tmp size o d) as (E1 & E2 & E3 & _). apply view_calm; [|done|congruence]. unfold d_sched. by rewrite E1.
  - unfold run_end, drain in H. destruct (d_stop d) eqn:E; [|done]. simpl in H. case_bool_decide; simplify_eq. by apply view_end.
  - by apply view_close.
  - apply view_final; [done|apply final_sched|]. unfold final_flush. by destruct (if bool_decide _ then _ else _).
Qed.

(** ** The shutdown *)

Lemma stopping_step d d' :
  dstep d d' → d_phase d = PRunning → d_stop d = true →
  d_stop d' = true ∧ (d_phase d' = PRunning ∨ d_phase d' = PStopped) ∧ (pending (d_sched d') <= pending (d_sched d))%nat.
Proof.
  intros [[_ Ht] Hp Hs|Hp _|now _ Hs _|sch Hp Ht ->|Hp Hs _ ->|Hp _|Hp _ _]%dstep_view Hph Hst; try congruence.
  - split_and!; [by apply Hs|left; congruence|]. unfold pending. by rewrite Ht.
  - destruct (with_sched_proj sch d) as (-> & -> & ->). split_and!; [done|by left|].
    destruct (task_step_tasks _ _ _ Ht) as [(x & Ha & _)|E]; [|unfold pending; by rewrite E].
    apply advances_pending in Ha. lia.
  - by destruct d; split_and!; auto.
Qed.

(** A daemon on its way out. *)
Lemma drain_ends n d :
  (pending (d_sched d) <= n)%nat → 1 <= int_of s "max_concurrency" → reached cfg (d_sched d) →
  d_phase d = PRunning → d_stop d = true →
  ∃ d', rtc dstep d d' ∧ d_phase d' = PStopped ∧ d_state d' = d_state d ∧ d_pages d' = d_pages d ∧ d_thread d' = d_thread d.
Proof.
  revert d. induction n as [n IH] using lt_wf_ind. intros d Hn Hmax Hr Hph Hst.
  destruct (decide (tasks (d_sched d) = ∅)) as [Ht|Ht].
  - exists (d <| d_phase := PStopped |>). split; [|by destruct d]. apply rtc_once. eapply ds_run_end; [done|].
    unfold run_end, drain. by rewrite Hst, bool_decide_eq_true_2.
  - destruct (tasks_progress s (d_sched d) Hr Hmax Ht) as (x & sch' & Hs & Ha).
    pose proof (advances_pending _ _ _ Ha) as Hlt. destruct (with_sched_proj sch' d) as (E1 & E2 & E3).
    destruct (IH (pending sch') ltac:(lia) (with_sched sch' d)) as (d' & Hrun & Hp & H1 & H2 & H3);
      [by rewrite E1|done|rewrite E1; by eapply reached_step, task_step_step|congruence|congruence|].
    exists d'. split; [eapply rtc_l; [by apply ds_task|exact Hrun]|]. split; [done|]. by destruct d.
Qed.

Lemma fresh_names (l : list string) : ∃ tmp, tmp ∉ l.
Proof. destruct (exist_fresh (list_to_set l : gset string)) as [x Hx]. exists x. set_solver. Qed.

Lemma fresh_calls d : ∃ c, fresh_write s c d.
Proof.
  destruct (fresh_names (str_setting s "status_path" :: logo_target (str_setting s "status_path") :: (map_to_list (d_pages d)).*1)) as [tmp Ht].
  apply not_elem_of_cons in Ht as [H1 [H2 H3]%not_elem_of_cons]. exists (MkCalls tmp true [] true true true true true).
  split_and!; [|done..]. simpl. apply eq_None_not_Some. intros [f Hf]. apply H3, list_elem_of_fmap. exists (tmp, f).
  split; [done|]. by apply elem_of_map_to_list.
Qed.

Lemma fresh_tmp d : ∃ tmp, fresh_save s tmp d.
Proof.
  destruct (fresh_names (str_setting s "state_path" :: (map_to_list (d_state d)).*1)) as [tmp Ht].
  apply not_elem_of_cons in Ht as [H1 H3]. exists tmp. split; [|done]. apply eq_None_not_Some. intros [f Hf].
  apply H3, list_elem_of_fmap. exists (tmp, f). split; [done|]. by apply elem_of_map_to_list.
Qed.

(** C9: a stop ends.  Once the stop flag is set and with at least one slot for checks, no step
    clears the flag, starts a check or adds work; as long as checks are in flight one of
    them can go on, which strictly decreases what is left, and when none is the loop returns; so the
    daemon drains and gets to its end, the state file and the status page left to its last
    flush. *)
Theorem shutdown_ends (d : Daemon) (Hr : reached cfg (d_sched d)) (Hmax : 1 <= int_of s "max_concurrency")
    (Hph : d_phase d = PRunning) (Hstop : d_stop d = true) :
  (∀ d', dstep d d' → d_stop d' = true ∧ (d_phase d' = PRunning ∨ d_phase d' = PStopped) ∧
     (pending (d_sched d') <= pending (d_sched d))%nat) ∧
  (∃ d', dstep d d' ∧ (d_phase d' = PStopped ∨ (pending (d_sched d') < pending (d_sched d))%nat)) ∧
  ∃ d1 d2 wall tmp size o now c c', rtc dstep d d1 ∧ dstep d1 d2 ∧ d_phase d1 = PClosed ∧ d_phase d2 = PDone ∧
    d_state d1 = d_state d ∧ d_pages d1 = d_pages d ∧ d2 = final_flush strf ver logo s wall tmp size o now c c' d1.
Proof.
  split_and!.
  - intros d' Hs. by apply stopping_step.
  - destruct (decide (tasks (d_sched d) = ∅)) as [Ht|Ht].
    + exists (d <| d_phase := PStopped |>). split; [|left; by destruct d]. eapply ds_run_end; [done|].
      unfold run_end, drain. by rewrite Hstop, bool_decide_eq_true_2.
    + destruct (tasks_progress s (d_sched d) Hr Hmax Ht) as (x & sch' & Hs & Ha).
      exists (with_sched sch' d). split; [by apply ds_task|]. right. rewrite (proj1 (with_sched_proj sch' d)). by eapply advances_pending.
  - destruct (drain_ends _ d (le_n _) Hmax Hr Hph Hstop) as (d0 & Hrun & Hp & E1 & E2 & _).
    destruct (fresh_tmp (close_all d0)) as [tmp Ht]. destruct (fresh_calls (close_all d0)) as [c Hc].
    set (o := MkOutcomes true true true true).
    exists (close_all d0), (final_flush strf ver logo s 0 tmp 0 o 0 c c (close_all d0)), 0%Q, tmp, 0, o, 0%Q, c, c.
    split_and!; [|by apply ds_final; [destruct d0|..]|by destruct d0| |by destruct d0|by destruct d0|done].
    + eapply rtc_r; [exact Hrun|]. by apply ds_close.
    + unfold final_flush. by destruct (if bool_decide _ then _ else _).
Qed.

(** ** After the end *)

(** The page the final flush leaves, when its calls succeed. *)
Lemma final_page wall tmp size o now c c' d :
  str_setting s "status_path" ≠ "" → str_setting s "status_path" ≠ logo_target (str_setting s "status_path") →
  fresh_write s c d → fresh_write s c' d → c_mkstemp c && c_write c && c_chmod c && c_replace c = true →
  ∃ bytes, utf8 (page strf ver s (node_states (d_sched d)).2 now) = Some bytes ∧
    d_pages (final_flush strf ver logo s wall tmp size o now c c' d) !! str_setting s "status_path" = Some (MkPFile mode_0444 bytes).
Proof.
  intros Hne Hlogo Hc Hc' Hok. destruct (save_once_frame wall tmp size o d) as (E1 & _ & _ & E4 & _).
  unfold final_flush. rewrite (bool_decide_eq_false_2 (str_setting s "status_path" = "")) by done. unfold d_sched. rewrite E1, E4.
  destruct (publication_spec strf ver logo s (node_states (_scheduler (d_server d))).2 now c c' (d_pages d) Hne Hlogo Hc Hc')
    as (bytes & Hb & H). exists bytes. split; [done|].
  destruct (node_states _) as [sch rows]. cbn [snd] in *.
  destruct (render_and_publish _ _ _ _ _ _ _ _ _) as [trace r]. destruct H as [_ [(_ & final & Hl & Hf)|[_ Hx]]]; [|congruence].
  rewrite Hl. by destruct (save_once s wall tmp size o d).
Qed.

Lemma done_step d d' :
  dstep d d' → d_phase d = PDone → d_thread d = None →
  d_phase d' = PDone ∧ d_thread d' = None ∧ d_state d' = d_state d ∧ d_pages d' = d_pages d ∧ d_sched d' = d_sched d.
Proof.
  intros Hs Hph Hth. destruct Hs as [d|d|env d srv Hp _ _|d Hp _|now d d' Hp H|d sch Hp H|d srv _ _ H2 _|files wall now d d' Hl _ _
    |d Hl _|seen now c c' d d' _ _ H|now tmp size o d Hl _ _|d d' Hp H|d Hp|wall tmp size o now c c' d Hp _ _ _]; try congruence.
  - by destruct d.
  - by destruct d as [[] ? ? ? ? ?].
  - destruct Hl; congruence.
  - destruct Hl; congruence.
  - unfold render_end in H. by rewrite Hth in H.
  - destruct Hl; congruence.
Qed.

(** The last flush is the last word.  When the final save and the final publication
    succeed, the state file holds the export of the last state of the run and the status file
    the page about exactly that state; and if no worker was still rendering when the helpers
    were cancelled, nothing that happens afterwards changes either file or the scheduler. *)
Theorem final_flush_exact (d : Daemon) (wall now : Q) (tmp : string) (size : Z) (o : outcomes) (c c' : write_calls)
    (Hpath : str_setting s "state_path" ≠ "" ∧ str_setting s "status_path" ≠ "")
    (Hlogo : str_setting s "status_path" ≠ logo_target (str_setting s "status_path"))
    (Hfresh : fresh_save s tmp d ∧ fresh_write s c d ∧ fresh_write s c' d)
    (Hsaved : mk_ok o && write_ok o && replace_ok o = true)
    (Hwritten : c_mkstemp c && c_write c && c_chmod c && c_replace c = true) :
  let d1 := final_flush strf ver logo s wall tmp size o now c c' d in
  d_state d1 !! str_setting s "state_path" = Some (MkFile size (CJson (payload (export_state (d_sched d)) wall))) ∧
  (∃ bytes, utf8 (page strf ver s (node_states (d_sched d)).2 now) = Some bytes ∧
     d_pages d1 !! str_setting s "status_path" = Some (MkPFile mode_0444 bytes)) ∧
  (d_thread d = None → ∀ d2, rtc dstep d1 d2 →
     d_state d2 = d_state d1 ∧ d_pages d2 = d_pages d1 ∧ d_sched d2 = d_sched d1).
Proof.
  destruct Hpath as [Hsp Hpp], Hfresh as (Hf & Hc & Hc'). intros d1. split_and!.
  - unfold d1. rewrite final_saves by done. apply lookup_insert_eq.
  - by apply final_page.
  - intros Hth.
    assert (d_phase d1 = PDone ∧ d_thread d1 = None) as [Hp1 Ht1].
    { unfold d1, final_flush. destruct (save_once_frame wall tmp size o d) as (_ & _ & _ & _ & E5). rewrite Hth in E5.
      revert E5. generalize (save_once s wall tmp size o d). intros d0 E5. case_bool_decide; [by destruct d0|].
      destruct (node_states _), (render_and_publish _ _ _ _ _ _ _ _ _). by destruct d0. }
    intros d2 Hrun. clearbody d1. clear d Hf Hc Hc' Hth.
    assert (d_phase d2 = PDone ∧ d_thread d2 = None ∧ d_state d2 = d_state d1 ∧ d_pages d2 = d_pages d1 ∧ d_sched d2 = d_sched d1) as H;
      [|by destruct H as (_ & _ & ?)].
    induction Hrun as [|x y z Hxy _ IH]; [done|]. destruct (done_step x y Hxy Hp1 Ht1) as (A & B & C & D & E).
    destruct (IH A B) as (? & ? & ? & ? & ?). split_and!; congruence.
Qed.

(** A worker that was still rendering overwrites the final snapshot: with any states [seen] the
    nodes may have had when it read them. *)
Theorem late_page_overwrites (d : Daemon) (rows : list row) (seen : list NodeState) (now : Q) (c c' : write_calls)
    (Hdone : d_phase d = PDone) (Hthread : d_thread d = Some rows) (Hseen : length rows = length seen)
    (Hpath : str_setting s "status_path" ≠ "") (Hlogo : str_setting s "status_path" ≠ logo_target (str_setting s "status_path"))
    (Hfresh : fresh_write s c d ∧ fresh_write s c' d)
    (Hwritten : c_mkstemp c && c_write c && c_chmod c && c_replace c = true) :
  ∃ d' bytes, dstep d d' ∧ utf8 (page strf ver s (zip rows.*1 seen) now) = Some bytes ∧
    d_pages d' !! str_setting s "status_path" = Some (MkPFile mode_0444 bytes).
Proof.
  destruct Hfresh as [Hc Hc'].
  destruct (publication_spec strf ver logo s (zip rows.*1 seen) now c c' (d_pages d) Hpath Hlogo Hc Hc') as (bytes & Hb & H).
  destruct (render_and_publish strf ver logo (zip rows.*1 seen) s now c c' (d_pages d)) as [trace r] eqn:Er.
  destruct H as [_ [(_ & final & Hl & Hf)|[_ Hx]]]; [|congruence].
  exists (d <| d_pages := final |> <| d_thread := None |>), bytes. split_and!; [|done|by destruct d].
  eapply (ds_publish _ _ _ _ seen now c c'); [done..|]. unfold render_end. rewrite Hthread, bool_decide_eq_true_2, Er, Hl by done. done.
Qed.

(** A stop requested before the loop starts is forgotten: [run] clears the flag first. *)
Lemma early_stop_lost d :
  d_phase d = PStarting → flag_of s "control_enabled" = false →
  ∃ d', rtc dstep (on_term d) d' ∧ d_phase d' = PRunning ∧ d_stop d' = false.
Proof.
  intros Hp Hc. exists (run_begin (on_term d)). split; [|by destruct d]. apply rtc_once, ds_run; [by destruct d|]. congruence.
Qed.
End steps.

(** ** No slots *)

Section no_slots.
Context (s : Settings) (x : sid).
Abbreviation cfg := (sched_config s).

(** The node [x] stands for never changes. *)
Definition keeps (sch sch' : Scheduler) : Prop :=
  is_Some (objs sch !! x) → node <$> objs sch' !! x = node <$> objs sch !! x.

Lemma keeps_objs sch sch' : objs sch' = objs sch → keeps sch sch'.
Proof. intros E _. by rewrite E. Qed.

Lemma keeps_alter sch sch' f y : objs sch' = alter f y (objs sch) → (∀ o, node (f o) = node o) → keeps sch sch'.
Proof. intros E Hf _. rewrite E. by apply node_alter. Qed.

Lemma keeps_trans sch sch1 sch2 : keeps sch sch1 → keeps sch1 sch2 → keeps sch sch2.
Proof.
  intros H1 H2 [o Ho]. rewrite <- (H1 (mk_is_Some _ _ Ho)). apply H2. specialize (H1 (mk_is_Some _ _ Ho)). rewrite Ho in H1.
  apply fmap_Some in H1 as (o' & -> & _). eauto.
Qed.

Lemma keeps_same sch sch' : same_nodes sch sch' → keeps sch sch'.
Proof. intros [_ H] _. apply H. Qed.

Lemma keeps_tick_one now y sch : keeps sch (tick_one now y sch).
Proof.
  unfold tick_one. set (c := upd y (λ o, o <| next_due := (now + sched_interval o)%Q |>) sch).
  apply (keeps_trans _ c).
  { apply (keeps_alter _ _ (λ o, o <| next_due := (now + sched_interval o)%Q |>) y); [apply objs_upd|by intros []]. }
  clearbody c. cbn zeta. case_match.
  - apply (keeps_alter _ _ (λ o, o <| in_flight := true |>) y); [by destruct c|by intros []].
  - eapply keeps_trans; [apply keeps_same, same_nodes_upd|]. apply keeps_objs. unfold _push. case_match; [|done]. by destruct (upd_state _ _ _).
Qed.

Lemma keeps_tick now sch : keeps sch (tick now sch).
Proof.
  unfold tick. destruct (tick_loop _ now sch) as [sch'|] eqn:E; [|by apply keeps_objs]. simpl. revert E.
  generalize (length (heap sch)). intros fuel. revert sch. induction fuel as [|fuel IH]; intros sch E; simpl in E;
    destruct (heap sch) as [|en h]; simplify_eq/=; try by apply keeps_objs.
  all: destruct (Qle_bool _ _); simplify_eq/=; try by apply keeps_objs.
  eapply keeps_trans; [|by apply IH]. eapply keeps_trans; [|apply keeps_tick_one]. apply keeps_objs. by destruct sch.
Qed.

Lemma keeps_finish y sch sch0 : keeps sch0 sch → keeps sch0 (finish y sch).
Proof. intros H. eapply keeps_trans; [exact H|]. eapply keeps_alter; [apply objs_finish|by intros []]. Qed.

Lemma keeps_release o sch : keeps sch (release_slot o sch).
Proof. apply keeps_objs, objs_release. Qed.

Lemma keeps_mutate f h ty p sch : keeps sch (mutate_matching f h ty p sch).1.
Proof.
  unfold mutate_matching. simpl.
  assert (keeps sch (foldl (λ sch s, upd_state s f sch) sch (_match h ty p sch))) as H.
  { generalize (_match h ty p sch). intros l. revert sch. induction l as [|y l IH]; intros sch; simpl; [by apply keeps_objs|].
    eapply keeps_trans; [apply keeps_same, same_nodes_upd|apply IH]. }
  case_bool_decide; [done|]. eapply keeps_trans; [exact H|]. apply keeps_objs. by destruct (foldl _ _ _).
Qed.

Lemma keeps_step sch sch' : reached cfg sch → step cfg sch sch' → keeps sch sch'.
Proof.
  intros Hr Hs. destruct Hs as [now sch|y sch sch' H|y code wall mono mono' sch sch' H|y sch sch' H|y ok mono sch sch' H|y sch sch' H|h ty p sch
    |h ty p text sch|sch|records now sch|sch|p4 p6 o sch H|store roots wall now sch Hc].
  - apply keeps_tick.
  - unfold check_start in H. repeat case_match; simplify_eq; apply keeps_objs; by destruct sch.
  - unfold check_returned in H. destruct (tasks sch !! y) as [[]|]; try done. destruct (objs sch !! y) as [o|]; [|done].
    destruct (negb (alive o)); [simplify_eq; apply keeps_finish, keeps_release|].
    destruct (negb (eligible _ _)); [simplify_eq; apply keeps_finish; eapply keeps_trans; [apply keeps_release|apply keeps_same, same_nodes_upd]|].
    destruct (apply_result _ _ _ _) as [st1 tr]. destruct (_handle_paging _ _ _ _ _ _) as [st2 [k|]]; simplify_eq.
    + eapply keeps_trans; [apply (keeps_release o)|]. destruct (release_slot o sch).
      eapply (keeps_alter _ _ (λ o, o <| state := st2 |> <| checked := true |>) y); [done|by intros []].
    + apply keeps_finish. eapply keeps_trans; [apply (keeps_release o)|].
      eapply (keeps_alter _ _ (λ o, o <| state := st2 |> <| checked := true |>) y); [by rewrite objs_publish, objs_upd|by intros []].
  - unfold check_raised in H. destruct (tasks sch !! y) as [[]|]; try done. destruct (objs sch !! y); simplify_eq. apply keeps_finish, keeps_release.
  - unfold send_returned in H. destruct (tasks sch !! y) as [[]|]; simplify_eq. apply keeps_finish.
    eapply keeps_trans; [apply keeps_same, same_nodes_upd|]. apply keeps_objs, objs_publish.
  - unfold send_raised in H. destruct (tasks sch !! y) as [[]|]; simplify_eq. apply keeps_finish. by apply keeps_objs.
  - apply keeps_mutate.
  - apply keeps_mutate.
  - apply keeps_same, same_nodes_states.
  - apply keeps_same, same_nodes_import.
  - apply keeps_objs. by destruct sch.
  - apply keeps_objs. by destruct sch.
  - intros [o Ho]. rewrite (reload_old cfg store roots wall now sch (reached_WF _ _ Hr) x o Ho), Ho. by destruct o.
Qed.

(** [x] waits for a slot. *)
Definition waits (sch : Scheduler) : Prop :=
  tasks sch !! x = Some TWaiting ∧ ∃ o, objs sch !! x = Some o ∧ is_ping o = false.

Lemma waits_keeps sch sch' : keeps sch sch' → tasks sch' !! x = Some TWaiting → waits sch → waits sch'.
Proof.
  intros Hk Ht [_ (o & Ho & Hp)]. split; [done|]. specialize (Hk (mk_is_Some _ _ Ho)). rewrite Ho in Hk.
  apply fmap_Some in Hk as (o' & Ho' & E). exists o'. split; [done|]. unfold is_ping in *. by rewrite <- E.
Qed.

Lemma waits_tick now sch : waits sch → tasks (tick now sch) !! x = Some TWaiting.
Proof.
  intros [Ht _]. unfold tick. destruct (tick_loop _ now sch) as [sch'|] eqn:E; [|done]. simpl. revert Ht E.
  generalize (length (heap sch)). intros fuel. revert sch. induction fuel as [|fuel IH]; intros sch Ht E; simpl in E;
    destruct (heap sch) as [|en h]; simplify_eq/=; try done; destruct (Qle_bool _ _); simplify_eq/=; try done.
  eapply IH; [|exact E]. unfold tick_one. cbn zeta. case_match.
  - destruct sch; simpl in *. destruct (decide (who en = x)) as [->|]; [apply lookup_insert_eq|by rewrite lookup_insert_ne].
  - unfold _push. case_match; by destruct sch.
Qed.

(** With no slots at all it goes on waiting. *)
Lemma waits_task sch sch' :
  reached cfg sch → int_of s "max_concurrency" = 0 → task_step s sch sch' → waits sch → tasks sch' !! x = Some TWaiting.
Proof.
  intros Hr Hmax Hs [Ht (o & Ho & Hp)]. pose proof (reached_slots _ _ Hr) as [Hf Hsl]. simpl in Hsl. rewrite Hmax in Hsl.
  assert (free_slots sch = 0) as Hfree by (unfold in_use in Hsl; lia).
  destruct (task_step_tasks _ _ _ Hs) as [(y & (ph & Hph & Hadv) & Hstart)|E]; [|by rewrite E].
  assert (y ≠ x) as Hne.
  { intros ->. specialize (Hstart Ht). unfold check_start in Hstart. by rewrite Ht, Ho, Hp, Hfree in Hstart. }
  destruct Hadv as [->|(ph' & -> & _)]; [by rewrite lookup_delete_ne|by rewrite lookup_insert_ne].
Qed.

Context (strf : Q → string) (ver : string) (logo : option (list N)).

(** With a concurrency bound of 0, which start-up accepts, a check that needs a slot is never
    run and the loop never returns: the daemon cannot be stopped. *)
Theorem zero_concurrency_hangs (d d' : Daemon)
    (Hr : reached cfg (d_sched d)) (Hmax : int_of s "max_concurrency" = 0) (Hph : d_phase d = PRunning)
    (Hw : waits (d_sched d)) (Hrun : rtc (dstep strf ver logo s) d d') :
  d_phase d' = PRunning ∧ waits (d_sched d').
Proof.
  assert (reached cfg (d_sched d') ∧ d_phase d' = PRunning ∧ waits (d_sched d')) as H; [|by destruct H].
  induction Hrun as [|d d1 d' Hs _ IH]; [done|].
  assert (reached cfg (d_sched d1) ∧ d_phase d1 = PRunning ∧ waits (d_sched d1)) as (? & ? & ?); [|by apply IH].
  apply dstep_view in Hs as [Hc Hp _|Hp _|now _ _ ->|sch _ Ht ->|_ _ Ht _|Hp _|Hp _ _]; try congruence.
  - split_and!; [by eapply calm_reached|congruence|]. destruct Hc as [Hc Ht].
    eapply waits_keeps; [|rewrite Ht; by apply Hw|done]. clear -Hc Hr.
    induction Hc as [|a b c Hab _ IHc]; [by apply keeps_objs|].
    eapply keeps_trans; [by apply keeps_step|apply IHc; by eapply reached_step].
  - destruct (with_sched_proj (tick now (d_sched d)) d) as (-> & -> & _). split_and!; [eapply reached_step; [done|constructor]|done|].
    eapply waits_keeps; [apply keeps_tick|by apply waits_tick|done].
  - destruct (with_sched_proj sch d) as (-> & -> & _). pose proof (task_step_step _ _ _ Ht) as Hst.
    split_and!; [by eapply reached_step|done|]. eapply waits_keeps; [by apply keeps_step|by eapply waits_task|done].
  - destruct Hw as [Hw _]. rewrite Ht in Hw. by rewrite lookup_empty in Hw.
Qed.
End no_slots.

(** ** The periodic summary *)

(** The heartbeat and the status page count alike. *)
Lemma heartbeat_matches_page sch :
  let '(down, up) := _partition (node_states sch).2 in
  let '(total, up_, down_, suppressed_) := _log_heartbeat sch in
  down_ = Z.of_nat (length down) ∧ up_ = Z.of_nat (length up) ∧ total = up_ + down_ + suppressed_.
Proof.
  rewrite partition_spec. unfold _log_heartbeat. generalize (node_states sch).2. intros rows. cbn zeta.
  assert (length (filter (λ r : row, negb (suppressed r.2) && negb (is_up (lastcheck r.2)) = true) rows) = length (filter visible_down rows) ∧
    (length rows = length (filter (λ r : row, suppressed r.2 = true) rows) + length (filter visible_down rows) + length (filter visible_up rows))%nat)
    as [H1 H2]; [|rewrite H1; lia].
  induction rows as [|r rows [IH1 IH2]]; [done|]. rewrite !filter_cons. unfold visible_down, visible_up in *.
  repeat case_decide; destruct (suppressed r.2), (is_up (lastcheck r.2)); simpl in *; naive_solver lia.
Qed.

(** ** Where the log of a background daemon goes *)

(** An unknown facility leaves the log on stderr, which the fork sends to /dev/null. *)
Lemma unknown_facility_silent names connects s f :
  opt_str s "syslog_facility" = Some f → f ≠ "" → lower f ≠ "none" → names (lower f) = None →
  flag_of s "foreground" = false → log_destination names connects true s = ToNowhere.
Proof.
  intros Hf Hne Hn Hnames Hfg. unfold log_destination, _setup_syslog.
  by rewrite Hfg, Hf, (bool_decide_eq_false_2 (f = "")), (bool_decide_eq_false_2 (lower f = "none")), Hnames by done.
Qed.

(** ** Witnesses *)

(** The demonstration daemon, its router acknowledged, about to end. *)
Definition demo_closed : Daemon :=
  close_all (with_sched (ack "gw" "ping" 0 (d_sched demo_start)).1 demo_start).

Definition demo_final : Daemon :=
  final_flush stamp "1.0" None demo_built.2 150 "/var/t1" 1000 (MkOutcomes true true true true) 150
    (demo_calls "/www/t1") (demo_calls "/www/t2") demo_closed.

Lemma demo_start_reached : reached (sched_config demo_built.2) (d_sched demo_start).
Proof. apply open_sockets_reached. exact (build_reached _ _ _ _ (built_spec _ _ demo_builds)). Qed.

Lemma demo_closed_reached : reached (sched_config demo_built.2) (d_sched demo_closed).
Proof. eapply reached_step; [apply demo_start_reached|]. apply (step_ack _ "gw" "ping" 0). Qed.

Definition nodup_keys (sch : Scheduler) : bool := bool_decide (NoDup ((λ x, node_key (node x.2)) <$> live_objs sch)).

Lemma nodup_unique sch : nodup_keys sch = true → unique_keys sch.
Proof. intros H%bool_decide_eq_true. by apply unique_keys_nodup. Qed.

Lemma demo_fresh :
  fresh_save demo_built.2 "/var/t1" demo_closed ∧ fresh_write demo_built.2 (demo_calls "/www/t1") demo_closed ∧
  fresh_write demo_built.2 (demo_calls "/www/t2") demo_closed.
Proof.
  unfold fresh_save, fresh_write. rewrite (proj1 demo_paths), (proj1 (proj2 demo_paths)).
  split_and!; [reflexivity|discriminate|reflexivity|discriminate|vm_compute; discriminate|reflexivity|discriminate|vm_compute; discriminate].
Qed.


Lemma shutdown_ends_witness :
  tasks (d_sched (on_term demo_running)) !! 0%nat = Some TWaiting ∧
  ∃ d1 d2 wall tmp size o now c c', rtc (dstep stamp "1.0" None demo_built.2) (on_term demo_running) d1 ∧
    dstep stamp "1.0" None demo_built.2 d1 d2 ∧ d_phase d1 = PClosed ∧ d_phase d2 = PDone ∧
    d_state d1 = d_state (on_term demo_running) ∧ d_pages d1 = d_pages (on_term demo_running) ∧
    d2 = final_flush stamp "1.0" None demo_built.2 wall tmp size o now c c' d1.
Proof.
  split; [exact demo_in_flight|]. apply (shutdown_ends stamp "1.0" None demo_built.2 (on_term demo_running)).
  - eapply reached_step; [apply demo_start_reached|]. apply (step_tick _ 1000).
  - rewrite (proj2 (proj2 (proj2 demo_paths))). discriminate.
  - reflexivity.
  - reflexivity.
Defined.

Lemma final_flush_exact_witness :
  d_state demo_final !! "/var/p.json" = Some (MkFile 1000 (CJson (payload (export_state (d_sched demo_closed)) 150))) ∧
  ∀ d2, rtc (dstep stamp "1.0" None demo_built.2) demo_final d2 → d_pages d2 = d_pages demo_final.
Proof.
  destruct (final_flush_exact stamp "1.0" None demo_built.2 demo_closed 150 150 "/var/t1" 1000 (MkOutcomes true true true true)
    (demo_calls "/www/t1") (demo_calls "/www/t2")) as (H1 & _ & H3).
  - rewrite (proj1 demo_paths), (proj1 (proj2 demo_paths)). split; discriminate.
  - rewrite (proj1 (proj2 demo_paths)). vm_compute. discriminate.
  - exact demo_fresh.
  - reflexivity.
  - reflexivity.
  - rewrite (proj1 demo_paths) in H1. split; [exact H1|]. intros d2 Hrun. apply (H3 eq_refl d2 Hrun).
Defined.
