(* ===== verification/UText.v ===== *)
(** * Python strings of any code point, and regular expressions over them

    The guide generator (src/tools/build_guide.py) works on Unicode text, so its strings are
    lists of code points ([utext]).  This file has the [str] methods it uses, and the [re]
    module as far as its patterns go: a backtracking matcher over the syntax of the patterns,
    the meaning of a pattern as a relation, and that the matcher decides it. *)
From S2P Require Import Prelude PyStr HtmlText.

(** The parts of the Unicode database of the interpreter that the patterns read:
    [c.isalnum()] and [c.isdecimal()]. *)
Class UnicodeDb : Type := { u_alnum : N → bool; u_decimal : N → bool }.

(** ** Methods of [str] *)

Definition within (lo hi c : N) : bool := (lo <=? c)%N && (c <=? hi)%N.

(** [c.isspace()], which is also [\s] *)
Definition u_space (c : N) : bool :=
  within 9 13 c || within 28 32 c || (c =? 133)%N || (c =? 160)%N || (c =? 5760)%N
  || within 8192 8202 c || within 8232 8233 c || (c =? 8239)%N || (c =? 8287)%N || (c =? 12288)%N.

(** The line boundaries of [splitlines]. *)
Definition u_break (c : N) : bool :=
  within 10 13 c || within 28 30 c || (c =? 133)%N || within 8232 8233 c.

(** [t.lstrip(chars)] for the characters of [p] *)
Fixpoint u_lstrip_in (p : N → bool) (t : utext) : utext :=
  match t with
  | [] => []
  | c :: t' => if p c then u_lstrip_in p t' else t
  end.

Fixpoint u_rstrip_in (p : N → bool) (t : utext) : utext :=
  match t with
  | [] => []
  | c :: t' =>
      match u_rstrip_in p t' with
      | [] => if p c then [] else [c]
      | r => c :: r
      end
  end.

Abbreviation u_lstrip := (u_lstrip_in u_space).
Abbreviation u_rstrip := (u_rstrip_in u_space).
Definition u_strip (t : utext) : utext := u_rstrip (u_lstrip t).

(** [not t.strip()] *)
Definition u_blank (t : utext) : bool := match u_strip t with [] => true | _ => false end.

(** [t.splitlines()]; CR LF is one boundary. *)
Fixpoint u_splitlines (t : utext) : list utext :=
  match t with
  | [] => []
  | c :: t' =>
      if u_break c then
        [] :: match t' with
              | d :: t'' => if (c =? 13)%N && (d =? 10)%N then u_splitlines t'' else u_splitlines t'
              | [] => []
              end
      else match u_splitlines t' with
           | [] => [[c]]
           | l :: ls => (c :: l) :: ls
           end
  end.

(** [t.startswith(p)] *)
Fixpoint u_startswith (p t : utext) : bool :=
  match p, t with
  | [], _ => true
  | c :: p', d :: t' => (c =? d)%N && u_startswith p' t'
  | _, _ => false
  end.

Definition u_endswith (p t : utext) : bool := u_startswith (rev p) (rev t).

(** [t.replace(old, new)] for a text [old] that is not empty; [skip] characters of an
    occurrence are still to be passed over. *)
Fixpoint replace_from (skip : nat) (old new t : utext) : utext :=
  match t with
  | [] => []
  | c :: t' =>
      match skip with
      | S k => replace_from k old new t'
      | O => if u_startswith old t then new ++ replace_from (pred (length old)) old new t'
             else c :: replace_from 0 old new t'
      end
  end.

Definition u_replace (old new t : utext) : utext := replace_from 0 old new t.

(** The text after the last [c], that is [t.rsplit(c, 1)[-1]]. *)
Fixpoint after_last (c : N) (t : utext) : utext :=
  match t with
  | [] => []
  | d :: t' => if existsb (N.eqb c) t' then after_last c t' else if (d =? c)%N then t' else t
  end.

(** ** Patterns

    A quantifier of the source always applies to one character class, so repetition is over a
    class.  Look-behind has a fixed width. *)
Inductive regex : Type :=
| Cls (p : N → bool)
| Rep (greedy : bool) (lo : nat) (hi : option nat) (p : N → bool)
| Eps
| Seq (r s : regex)
| Alt (r s : regex)
| Group (n : nat) (r : regex)
| Bol (multiline : bool)
| Eol (multiline : bool)
| EndZ
| Ahead (r : regex)
| Behind (ps : list (N → bool)).

Declare Scope re_scope.
Delimit Scope re_scope with re.
Bind Scope re_scope with regex.
Notation "r >>> s" := (Seq r s) (at level 60, right associativity) : re_scope.
Notation "r <|> s" := (Alt r s) (at level 62, right associativity) : re_scope.

Definition chr (c : N) : N → bool := N.eqb c.
Definition notchr (c : N) : N → bool := λ x, negb (c =? x)%N.
Definition among (t : utext) : N → bool := λ x, existsb (N.eqb x) t.
Definition dot : N → bool := notchr 10.
Definition anychar : N → bool := λ _, true.
Definition Txt (t : utext) : regex := foldr (λ c r, Seq (Cls (chr c)) r) Eps t.
Definition Star (p : N → bool) : regex := Rep true 0 None p.
Definition Plus (p : N → bool) : regex := Rep true 1 None p.
Definition Opt (r : regex) : regex := Alt r Eps.

(** The groups captured so far, the latest first. *)
Abbreviation caps := (list (nat * utext)).

Definition group (n : nat) (c : caps) : option utext := snd <$> List.find (λ x, (x.1 =? n)%nat) c.

(** The last [k] characters read, where [b] is what was read, backwards. *)
Definition captured (b b' : utext) : utext := rev (take (length b' - length b) b').

(** A position is what lies before it, backwards, and what lies after it. *)
Definition at_bol (multiline : bool) (b : utext) : bool :=
  match b with [] => true | c :: _ => multiline && (c =? 10)%N end.

Definition at_eol (multiline : bool) (a : utext) : bool :=
  match a with
  | [] => true
  | [c] => (c =? 10)%N
  | c :: _ => multiline && (c =? 10)%N
  end.

Fixpoint look_behind (ps : list (N → bool)) (b : utext) : bool :=
  match ps, b with
  | [], _ => true
  | p :: ps', c :: b' => p c && look_behind ps' b'
  | _ :: _, [] => false
  end.

Definition orelse {A} (x : option A) (y : option A) : option A := match x with Some _ => x | None => y end.

(** Repetition tries to go on first when it is greedy, last when it is not. *)
Fixpoint rep_from {R} (greedy : bool) (lo : nat) (hi : option nat) (p : N → bool)
    (k : utext → utext → option R) (b a : utext) {struct a} : option R :=
  let more :=
    match hi, a with
    | Some O, _ | _, [] => None
    | _, c :: a' => if p c then rep_from greedy (pred lo) (pred <$> hi) p k (c :: b) a' else None
    end in
  match lo with
  | S _ => more
  | O => if greedy then orelse more (k b a) else orelse (k b a) more
  end.

Fixpoint rmatch {R} (r : regex) (k : caps → utext → utext → option R) (c : caps) (b a : utext) : option R :=
  match r with
  | Cls p => match a with x :: a' => if p x then k c (x :: b) a' else None | [] => None end
  | Rep greedy lo hi p => rep_from greedy lo hi p (k c) b a
  | Eps => k c b a
  | Seq r1 r2 => rmatch r1 (rmatch r2 k) c b a
  | Alt r1 r2 => orelse (rmatch r1 k c b a) (rmatch r2 k c b a)
  | Group n r1 => rmatch r1 (λ c' b' a', k ((n, captured b b') :: c') b' a') c b a
  | Bol ml => if at_bol ml b then k c b a else None
  | Eol ml => if at_eol ml a then k c b a else None
  | EndZ => match a with [] => k c b a | _ => None end
  | Ahead r1 => match rmatch r1 (λ c' b' a', Some c') c b a with Some c' => k c' b a | None => None end
  | Behind ps => if look_behind ps b then k c b a else None
  end.

(** [p.match] at a position: the groups, and the position after the match. *)
Definition re_match (r : regex) (b a : utext) : option (caps * utext * utext) :=
  rmatch r (λ c b' a', Some (c, b', a')) [] b a.

(** [p.search]: the groups and the matched text of the first match. *)
Fixpoint re_search (r : regex) (b a : utext) : option (caps * utext) :=
  match re_match r b a with
  | Some (c, b', _) => Some (c, captured b b')
  | None => match a with [] => None | x :: a' => re_search r (x :: b) a' end
  end.

(** The successive matches of a pattern that matches no empty text, and the characters
    between them. *)
Fixpoint pieces (r : regex) (skip : nat) (b a : utext) : list (N + caps * utext) :=
  match a with
  | [] => []
  | x :: a' =>
      match skip with
      | S n => pieces r n (x :: b) a'
      | O =>
          match re_match r b a with
          | Some (c, b', _) =>
              match length b' - length b with
              | O => inl x :: pieces r 0 (x :: b) a'
              | S n => inr (c, captured b b') :: pieces r n (x :: b) a'
              end%nat
          | None => inl x :: pieces r 0 (x :: b) a'
          end
      end
  end.

Definition piece_str (x : N + caps * utext) : utext :=
  match x with inl c => [c] | inr (_, t) => t end.

(** [p.sub(f, t)] *)
Definition re_sub (r : regex) (f : caps → utext) (t : utext) : utext :=
  x ← pieces r 0 [] t; match x with inl c => [c] | inr (c, _) => f c end.

(** [p.split(t)] for a pattern that is one group, without the empty strings. *)
Fixpoint join_pieces (xs : list (N + caps * utext)) : utext * list utext :=
  match xs with
  | [] => ([], [])
  | inl c :: xs' => let '(t, ts) := join_pieces xs' in (c :: t, ts)
  | inr (_, m) :: xs' =>
      let '(t, ts) := join_pieces xs' in ([], m :: match t with [] => ts | _ => t :: ts end)
  end.

Definition re_split (r : regex) (t : utext) : list utext :=
  let '(t, ts) := join_pieces (pieces r 0 [] t) in match t with [] => ts | _ => t :: ts end.

Example re_sub_ex :
  re_sub (Txt (u "**") >>> Group 1 (Plus (notchr 42)) >>> Txt (u "**"))%re (λ c, default [] (group 1 c)) (u "a **b c** d")
  = u "a b c d".
Proof. reflexivity. Qed.

(** ** What a pattern means

    [matches r c b a c' b' a']: from position [(b, a)] the pattern can reach [(b', a')]. *)
Inductive reps (p : N → bool) : nat → utext → utext → utext → utext → Prop :=
| reps_nil b a : reps p 0 b a b a
| reps_cons n x b a b' a' : p x = true → reps p n (x :: b) a b' a' → reps p (S n) b (x :: a) b' a'.

Inductive matches : regex → caps → utext → utext → caps → utext → utext → Prop :=
| m_cls p c b x a : p x = true → matches (Cls p) c b (x :: a) c (x :: b) a
| m_rep g lo hi p c b a n b' a' :
    (lo <= n)%nat → from_option (λ h, (n <= h)%nat) True hi → reps p n b a b' a' →
    matches (Rep g lo hi p) c b a c b' a'
| m_eps c b a : matches Eps c b a c b a
| m_seq r s c b a c1 b1 a1 c2 b2 a2 :
    matches r c b a c1 b1 a1 → matches s c1 b1 a1 c2 b2 a2 → matches (Seq r s) c b a c2 b2 a2
| m_altl r s c b a c1 b1 a1 : matches r c b a c1 b1 a1 → matches (Alt r s) c b a c1 b1 a1
| m_altr r s c b a c1 b1 a1 : matches s c b a c1 b1 a1 → matches (Alt r s) c b a c1 b1 a1
| m_group n r c b a c1 b1 a1 :
    matches r c b a c1 b1 a1 → matches (Group n r) c b a ((n, captured b b1) :: c1) b1 a1
| m_bol ml c b a : at_bol ml b = true → matches (Bol ml) c b a c b a
| m_eol ml c b a : at_eol ml a = true → matches (Eol ml) c b a c b a
| m_endz c b : matches EndZ c b [] c b []
| m_ahead r c b a c1 b1 a1 : matches r c b a c1 b1 a1 → matches (Ahead r) c b a c1 b a
| m_behind ps c b a : look_behind ps b = true → matches (Behind ps) c b a c b a.
Create HintDb re.
#[export] Hint Constructors reps matches : re.

Lemma orelse_some {A} (x y : option A) z : orelse x y = Some z → x = Some z ∨ y = Some z.
Proof. destruct x; naive_solver. Qed.

Lemma orelse_l {A} (x y : option A) : is_Some x → is_Some (orelse x y).
Proof. by destruct x. Qed.

Lemma orelse_r {A} (x y : option A) : is_Some y → is_Some (orelse x y).
Proof. destruct x; simpl; eauto. Qed.
#[export] Hint Resolve orelse_l orelse_r : re.

Lemma rep_sound {R} g lo hi p (k : utext → utext → option R) b a z :
  rep_from g lo hi p k b a = Some z →
  ∃ n b' a', (lo <= n)%nat ∧ from_option (λ h, (n <= h)%nat) True hi ∧ reps p n b a b' a' ∧ k b' a' = Some z.
Proof.
  revert lo hi b. induction a as [|x a IH]; intros lo hi b H.
  - destruct lo; [|by destruct hi as [[]|]].
    assert (k b [] = Some z) as Hk.
    { destruct g, hi as [[]|]; simpl in H; destruct (k b []); simpl in H; congruence. }
    exists 0%nat, b, []. repeat split; eauto with re. destruct hi; simpl; lia.
  - assert (Hmore : ∀ h, hi ≠ Some 0%nat → h = (pred <$> hi) → p x = true →
      rep_from g (pred lo) h p k (x :: b) a = Some z → 
      ∃ n b' a', (lo <= n)%nat ∧ from_option (λ h, (n <= h)%nat) True hi ∧ reps p n b (x :: a) b' a' ∧ k b' a' = Some z).
    { intros h Hhi -> Hx (n & b' & a' & Hlo & Hh & Hr & Hk)%IH. exists (S n), b', a'.
      repeat split; eauto with re; [lia|]. destruct hi as [[|h]|]; simpl in *; [done|lia|done]. }
    assert (Hend : lo = 0%nat → k b (x :: a) = Some z →
      ∃ n b' a', (lo <= n)%nat ∧ from_option (λ h, (n <= h)%nat) True hi ∧ reps p n b (x :: a) b' a' ∧ k b' a' = Some z).
    { intros -> Hk. exists 0%nat, b, (x :: a). repeat split; eauto with re. destruct hi; simpl; lia. }
    cbn [rep_from] in H. destruct lo, g, hi as [[|h]|], (p x) eqn:Ex; 
      try apply orelse_some in H as [H|H]; try done; first [by apply Hend | by eapply (Hmore _ ltac:(discriminate) eq_refl)].
Qed.

Lemma rep_complete {R} g lo hi p (k : utext → utext → option R) n b a b' a' :
  reps p n b a b' a' → (lo <= n)%nat → from_option (λ h, (n <= h)%nat) True hi → is_Some (k b' a') →
  is_Some (rep_from g lo hi p k b a).
Proof.
  intros H. revert lo hi. induction H as [b a|n x b a b' a' Hx Hr IH]; intros lo hi Hlo Hhi Hk.
  - destruct lo; [|lia]. destruct a, g; cbn [rep_from]; eauto with re.
  - specialize (IH (pred lo) (pred <$> hi)).
    assert (is_Some (rep_from g (pred lo) (pred <$> hi) p k (x :: b) a)) as Hi.
    { apply IH; [lia| |done]. destruct hi as [h|]; simpl in *; [lia|done]. }
    cbn [rep_from]. destruct hi as [[|h]|]; [simpl in Hhi; lia| |]; rewrite Hx; destruct lo, g; eauto with re.
Qed.

Lemma rmatch_sound {R} r (k : caps → utext → utext → option R) c b a z :
  rmatch r k c b a = Some z → ∃ c' b' a', matches r c b a c' b' a' ∧ k c' b' a' = Some z.
Proof.
  revert R k c b a z.
  induction r as [p|g lo hi p| |r IHr s IHs|r IHr s IHs|n r IHr|ml|ml| |r IHr|ps]; intros R k c b a z; cbn [rmatch]; intros H.
  - destruct a as [|x a]; [done|]. destruct (p x) eqn:E; [|done]. eauto 6 with re.
  - apply rep_sound in H as (n & b' & a' & ? & ? & ? & ?). eauto 8 with re.
  - eauto 6 with re.
  - apply IHr in H as (c1 & b1 & a1 & H1 & (c2 & b2 & a2 & H2 & Hk)%IHs). eauto 8 with re.
  - apply orelse_some in H as [H|H]; [apply IHr in H|apply IHs in H]; naive_solver eauto with re.
  - apply IHr in H as (c1 & b1 & a1 & H1 & Hk). eauto 8 with re.
  - destruct (at_bol ml b) eqn:E; [|done]. eauto 6 with re.
  - destruct (at_eol ml a) eqn:E; [|done]. eauto 6 with re.
  - destruct a; [|done]. eauto 6 with re.
  - destruct (rmatch r _ c b a) as [c'|] eqn:E; [|done].
    apply IHr in E as (c1 & b1 & a1 & H1 & [= <-]). eauto 8 with re.
  - destruct (look_behind ps b) eqn:E; [|done]. eauto 6 with re.
Qed.

(** A pattern that can reach a position from which every choice of groups continues is
    matched, possibly elsewhere. *)
Lemma rmatch_complete r c b a c' b' a' :
  matches r c b a c' b' a' →
  ∀ R (k : caps → utext → utext → option R) d, (∀ e, is_Some (k e b' a')) → is_Some (rmatch r k d b a).
Proof.
  induction 1 as [p c b x a Hx|g lo hi p c b a n b' a' Hlo Hhi Hr| |r s c b a c1 b1 a1 c2 b2 a2 _ IHr _ IHs
    |r s c b a c1 b1 a1 _ IHr|r s c b a c1 b1 a1 _ IHs|n r c b a c1 b1 a1 _ IHr|ml c b a E|ml c b a E|
    |r c b a c1 b1 a1 _ IHr|ps c b a E]; intros R k d Hk; cbn [rmatch]; rewrite ?Hx, ?E; auto with re.
  - by eapply rep_complete.
  - destruct (IHr _ (λ c' _ _, Some c') d) as [c' ->]; [by eexists|]. done.
Qed.

(** The matcher decides whether there is a match, and reports one. *)
Lemma re_match_sound r b a c b' a' : re_match r b a = Some (c, b', a') → matches r [] b a c b' a'.
Proof. intros (? & ? & ? & ? & [= -> -> ->])%rmatch_sound. done. Qed.

Lemma re_match_none r b a : re_match r b a = None → ∀ c b' a', ¬ matches r [] b a c b' a'.
Proof.
  intros H c b' a' Hm. destruct (rmatch_complete _ _ _ _ _ _ _ Hm _ (λ c b' a', Some (c, b', a')) []) as [x Hx];
    [by eexists|]. unfold re_match in H. congruence.
Qed.

(** ** The text a match reads *)

Lemma reps_split p n b a b' a' : reps p n b a b' a' → ∃ t, a = t ++ a' ∧ b' = rev t ++ b ∧ length t = n ∧ Forall (λ x, p x = true) t.
Proof.
  induction 1 as [b a|n x b a b' a' Hx Hr (t & -> & -> & Ht & Hp)]; [by exists []|].
  exists (x :: t). simpl. rewrite <- (assoc_L (++)). simpl. auto.
Qed.

(** A match reads a prefix of what lies ahead. *)
Lemma matches_split r c b a c' b' a' : matches r c b a c' b' a' → ∃ t, a = t ++ a' ∧ b' = rev t ++ b.
Proof.
  induction 1 as [p c b x a Hx|g lo hi p c b a n b' a' Hlo Hhi Hr| |r s c b a c1 b1 a1 c2 b2 a2 H1 IH1 H2 IH2
    | | | | | | | |]; try done; try by exists [].
  - by exists [x].
  - apply reps_split in Hr as (t & -> & -> & _). eauto.
  - destruct IH1 as (t1 & -> & ->), IH2 as (t2 & -> & ->). exists (t1 ++ t2). by rewrite rev_app_distr, <- !(assoc_L (++)).
Qed.

Lemma captured_rev t b : captured b (rev t ++ b) = t.
Proof.
  unfold captured. rewrite length_app, Nat.add_sub, take_app_length. apply rev_involutive.
Qed.

Lemma re_match_split r b a c b' a' :
  re_match r b a = Some (c, b', a') → a = captured b b' ++ a' ∧ b' = rev (captured b b') ++ b.
Proof. intros (t & -> & ->)%re_match_sound%matches_split. by rewrite captured_rev. Qed.

(** The pieces make up the text. *)
Lemma pieces_concat r skip b a : (x ← pieces r skip b a; piece_str x) = drop skip a.
Proof.
  revert skip b. induction a as [|x a IH]; intros skip b; [by destruct skip|].
  destruct skip as [|k]; cbn [pieces]; [|apply IH].
  destruct (re_match r b (x :: a)) as [[[c b'] a']|] eqn:E; [|by csimpl; rewrite IH].
  apply re_match_split in E as [E1 E2].
  destruct (length b' - length b)%nat as [|n] eqn:En; csimpl; [by rewrite IH|].
  assert (length (captured b b') = S n) as Hn.
  { rewrite E2 in En at 1. rewrite length_app, length_rev in En. lia. }
  rewrite IH. destruct (captured b b') as [|y t] eqn:Et; [done|]. simplify_eq/=.
  f_equal. by rewrite drop_app_length.
Qed.

Lemma pieces_nonempty r skip b a : Forall (λ x, piece_str x ≠ []) (pieces r skip b a).
Proof.
  revert skip b. induction a as [|x a IH]; intros skip b; [constructor|].
  destruct skip as [|k]; cbn [pieces]; [|apply IH].
  destruct (re_match r b (x :: a)) as [[[c b'] a']|] eqn:E; [|by constructor].
  apply re_match_split in E as [E1 E2].
  destruct (length b' - length b)%nat as [|n] eqn:En; constructor; auto; simpl.
  intros Hc. rewrite Hc in E2. simpl in E2. subst b'. lia.
Qed.

(** The matched pieces are matches. *)
Lemma pieces_matched r skip b a :
  Forall (λ x, match x with
               | inl _ => True
               | inr (c, t) => ∃ b0 a0 b' a', matches r [] b0 a0 c b' a' ∧ t = captured b0 b'
               end) (pieces r skip b a).
Proof.
  revert skip b. induction a as [|x a IH]; intros skip b; [constructor|].
  destruct skip as [|k]; cbn [pieces]; [|apply IH].
  destruct (re_match r b (x :: a)) as [[[c b'] a']|] eqn:E; [|by constructor].
  destruct (length b' - length b)%nat as [|n]; constructor; auto. apply re_match_sound in E. eauto 8.
Qed.

Lemma matches_txt t c b a c' b' a' : matches (Txt t) c b a c' b' a' → c' = c ∧ a = t ++ a' ∧ b' = rev t ++ b.
Proof.
  revert c b a. induction t as [|x t IH]; intros c b a; simpl; inversion_clear 1 as [| | |? ? ? ? ? ? ? ? ? ? ? H1 H2| | | | | | | |]; [done|].
  inversion H1 as [? ? ? y ? Hy| | | | | | | | | | |]; subst. apply N.eqb_eq in Hy as <-.
  destruct (IH _ _ _ H2) as (-> & -> & ->). by rewrite <- (assoc_L (++)).
Qed.

Lemma matches_seq r s c b a c' b' a' : matches (Seq r s) c b a c' b' a' →
  ∃ c1 b1 a1, matches r c b a c1 b1 a1 ∧ matches s c1 b1 a1 c' b' a'.
Proof. inversion_clear 1. eauto 6. Qed.

Lemma matches_group n r c b a c' b' a' : matches (Group n r) c b a c' b' a' →
  ∃ c1, matches r c b a c1 b' a' ∧ c' = (n, captured b b') :: c1.
Proof. inversion_clear 1. eauto. Qed.

Lemma matches_rep g lo hi p c b a c' b' a' : matches (Rep g lo hi p) c b a c' b' a' →
  c' = c ∧ ∃ t, a = t ++ a' ∧ b' = rev t ++ b.
Proof. inversion_clear 1 as [|? ? ? ? ? ? ? ? ? ? _ _ H'| | | | | | | | | |]. apply reps_split in H' as (t & -> & -> & _). eauto. Qed.

Lemma matches_chr x c b a c' b' a' : matches (Cls (chr x)) c b a c' b' a' → c' = c ∧ a = x :: a' ∧ b' = x :: b.
Proof. inversion_clear 1 as [? ? ? y ? Hy| | | | | | | | | | |]. by apply N.eqb_eq in Hy as <-. Qed.

Lemma matches_opt r c b a c' b' a' : matches (Opt r) c b a c' b' a' →
  matches r c b a c' b' a' ∨ (c' = c ∧ a' = a ∧ b' = b).
Proof. inversion_clear 1 as [| | | |? ? ? ? ? ? ? ? H'|? ? ? ? ? ? ? ? H'| | | | | |]; [by left|]. inversion_clear H'. by right. Qed.

Lemma captured_eq t b b' : b' = rev t ++ b → captured b b' = t.
Proof. intros ->. apply captured_rev. Qed.

(** Without a match nothing is substituted. *)
Lemma re_sub_id r f t : (∀ b a c b' a', t = rev b ++ a → ¬ matches r [] b a c b' a') → re_sub r f t = t.
Proof.
  intros H. unfold re_sub. assert (Hg : ∀ b a, t = rev b ++ a → pieces r 0 b a = inl <$> a).
  { intros b a. revert b. induction a as [|x a IH]; intros b E; [done|]. cbn [pieces].
    destruct (re_match r b (x :: a)) as [[[c b'] a']|] eqn:Em.
    - destruct (H _ _ _ _ _ E (re_match_sound _ _ _ _ _ _ Em)).
    - csimpl. f_equal. apply IH. simpl. by rewrite E, <- (assoc_L (++)). }
  rewrite (Hg [] t eq_refl). clear. induction t; csimpl; [done|]. by f_equal.
Qed.

Lemma join_pieces_concat xs :
  (join_pieces xs).1 ++ concat (join_pieces xs).2 = (x ← xs; piece_str x).
Proof.
  induction xs as [|[c|[c m]] xs IH]; csimpl; [done| |]; destruct (join_pieces xs) as [t ts]; simpl in *; [by f_equal|].
  destruct t; simpl in *; by f_equal.
Qed.

Lemma join_pieces_nonempty xs : Forall (λ x, piece_str x ≠ []) xs → Forall (λ t, t ≠ []) (join_pieces xs).2.
Proof.
  induction 1 as [|[c|[c m]] xs Hx Hxs IH]; csimpl; [constructor| |]; destruct (join_pieces xs) as [t ts]; simpl in *; [done|].
  constructor; [done|]. destruct t; [done|]. by constructor.
Qed.

(** The parts of a split text make it up, and none is empty. *)
Lemma re_split_concat r t : concat (re_split r t) = t.
Proof.
  unfold re_split. pose proof (join_pieces_concat (pieces r 0 [] t)) as H. rewrite pieces_concat, drop_0 in H.
  destruct (join_pieces _) as [h ts]. simpl in H. by destruct h.
Qed.

Lemma re_split_nonempty r t : Forall (λ x, x ≠ []) (re_split r t).
Proof.
  unfold re_split. pose proof (join_pieces_nonempty _ (pieces_nonempty r 0 [] t)) as H.
  destruct (join_pieces _) as [h ts]. destruct h; [done|]. by constructor.
Qed.
