(* ===== verification/TextWrap.v ===== *)
(** * textwrap

    [textwrap.wrap(text, width, subsequent_indent=...)] with the other options at their
    defaults, as the guide generator calls it (Python 3.11): white space is normalised, the
    text is split into words, white space and the parts of hyphenated words, and lines are
    filled with them.  No line is wider than asked, and no character but white space is lost,
    added or moved. *)
From S2P Require Import Prelude PyStr HtmlText UText.

Section wrapping.
Context {db : UnicodeDb}.

(** ** _munge_whitespace *)

(** [t.expandtabs(8)] from a column *)
Fixpoint expandtabs (col : nat) (t : utext) : utext :=
  match t with
  | [] => []
  | c :: t' =>
      if (c =? 9)%N then let n := (8 - col `mod` 8)%nat in replicate n 32%N ++ expandtabs (col + n) t'
      else c :: expandtabs (if (c =? 10)%N || (c =? 13)%N then 0 else S col) t'
  end.

Definition ascii_space (c : N) : bool := within 9 13 c || (c =? 32)%N.

Definition _munge_whitespace (t : utext) : utext :=
  (λ c, if ascii_space c then 32%N else c) <$> expandtabs 0 t.

(** ** _split *)

Definition is_word (c : N) : bool := u_alnum c || (c =? 95)%N.
Definition word_punct (c : N) : bool := is_word c || among ([34; 39]%N ++ u "!&.,?") c.
Definition letter (c : N) : bool := is_word c && negb (u_decimal c).
Definition nowhitespace (c : N) : bool := negb (ascii_space c).
Definition hyphen : N → bool := chr 45.

Definition hyphenated : regex :=
  (Cls hyphen >>> (Behind [hyphen; letter; letter] <|> Behind [hyphen; letter; hyphen; letter])
   >>> Ahead (Cls letter >>> Opt (Cls hyphen) >>> Cls letter))%re.

Definition wordsep_re : regex :=
  Group 1
    (Plus ascii_space
     <|> (Behind [word_punct] >>> Rep true 2 None hyphen >>> Ahead (Cls is_word))
     <|> (Rep false 1 None nowhitespace
          >>> (hyphenated
               <|> Ahead (Cls ascii_space <|> EndZ)
               <|> (Behind [word_punct] >>> Ahead (Rep true 2 None hyphen >>> Cls is_word)))))%re.

Definition _split (t : utext) : list utext := re_split wordsep_re t.

(** ** _wrap_chunks *)

(** [t.rfind(c)] *)
Fixpoint rfind (c : N) (t : utext) : option nat :=
  match t with
  | [] => None
  | x :: t' => match rfind c t' with Some i => Some (S i) | None => if (x =? c)%N then Some O else None end
  end.

(** How much of a chunk that fits on no line goes on this one. *)
Definition break_at (chunk : utext) (space_left : nat) : nat :=
  if (space_left <? length chunk)%nat then
    match rfind 45 (take space_left chunk) with
    | Some (S _ as h) => if existsb (notchr 45) (take h chunk) then S h else space_left
    | _ => space_left
    end
  else space_left.

Definition _handle_long_word (chunk : utext) (cur_len : nat) (width : Z) : nat :=
  break_at chunk (if width <? 1 then 1%nat else Z.to_nat (width - Z.of_nat cur_len)).

(** The chunks that fit on the line. *)
Fixpoint fill (width : Z) (cur_len : nat) (chunks : list utext) : list utext * nat * list utext :=
  match chunks with
  | [] => ([], cur_len, [])
  | c :: cs =>
      if Z.of_nat (cur_len + length c) <=? width then
        let '(line, n, rest) := fill width (cur_len + length c) cs in (c :: line, n, rest)
      else ([], cur_len, chunks)
  end.

Definition drop_last_blank (line : list utext) : list utext :=
  match rev line with
  | c :: cs => if u_blank c then rev cs else line
  | [] => line
  end.

(** One turn of the loop: what goes on the line and what is left.  [started] says that there
    are lines already. *)
Definition take_line (width : Z) (started : bool) (chunks : list utext) : list utext * list utext :=
  let chunks := match chunks with c :: cs => if u_blank c && started then cs else chunks | [] => [] end in
  let '(line, cur_len, rest) := fill width 0 chunks in
  let '(line, rest) :=
    match rest with
    | c :: cs =>
        if width <? Z.of_nat (length c) then
          let e := _handle_long_word c cur_len width in (line ++ [take e c], drop e c :: cs)
        else (line, rest)
    | [] => (line, rest)
    end in
  (drop_last_blank line, rest).

Definition indent_of (indent : utext) (started : bool) : utext := if started then indent else [].

Fixpoint _wrap_chunks (fuel : nat) (width : nat) (indent : utext) (started : bool) (chunks : list utext) : list utext :=
  match fuel, chunks with
  | S fuel', _ :: _ =>
      let ind := indent_of indent started in
      let '(line, rest) := take_line (Z.of_nat width - Z.of_nat (length ind)) started chunks in
      match line with
      | [] => _wrap_chunks fuel' width indent started rest
      | _ => (ind ++ concat line) :: _wrap_chunks fuel' width indent true rest
      end
  | _, _ => []
  end.

(** Every turn removes a character or a chunk. *)
Definition chunk_weight (chunks : list utext) : nat := (length (concat chunks) + length chunks)%nat.

Definition wrap (text : utext) (width : nat) (subsequent_indent : utext) : list utext :=
  let chunks := _split (_munge_whitespace text) in
  _wrap_chunks (chunk_weight chunks) width subsequent_indent false chunks.

(** ** Ink: what is not white space *)

Definition ink (t : utext) : utext := List.filter (λ c, negb (u_space c)) t.

Lemma ink_app s t : ink (s ++ t) = ink s ++ ink t.
Proof. apply List.filter_app. Qed.

Lemma ink_take_drop n t : ink t = ink (take n t) ++ ink (drop n t).
Proof. by rewrite <- ink_app, take_drop. Qed.

Lemma ink_concat ts : ink (concat ts) = concat (ink <$> ts).
Proof. induction ts as [|t ts IH]; simpl; [done|]. by rewrite ink_app, IH. Qed.

Lemma lstrip_nil t : u_lstrip t = [] ↔ ink t = [].
Proof.
  induction t as [|c t IH]; simpl; [done|]. destruct (u_space c) eqn:E; simpl; done.
Qed.

Lemma ink_lstrip t : ink (u_lstrip t) = ink t.
Proof. induction t as [|c t IH]; simpl; [done|]. destruct (u_space c) eqn:E; simpl; rewrite ?E; done. Qed.

Lemma rstrip_nil t : u_rstrip t = [] ↔ ink t = [].
Proof.
  induction t as [|c t IH]; simpl; [done|].
  destruct (u_rstrip t) eqn:Er, (u_space c) eqn:E; simpl; naive_solver.
Qed.

Lemma ink_rstrip t : ink (u_rstrip t) = ink t.
Proof.
  induction t as [|c t IH]; simpl; [done|]. destruct (u_rstrip t) as [|d r] eqn:E.
  - simpl in IH. rewrite <- IH. destruct (u_space c) eqn:Ec; simpl; rewrite ?Ec; done.
  - transitivity (ink [c] ++ ink (d :: r)); [apply (ink_app [c])|]. rewrite IH. symmetry. apply (ink_app [c]).
Qed.

Lemma ink_strip t : ink (u_strip t) = ink t.
Proof. unfold u_strip. by rewrite ink_rstrip, ink_lstrip. Qed.

Lemma blank_ink t : u_blank t = true ↔ ink t = [].
Proof.
  unfold u_blank, u_strip. rewrite <- (ink_lstrip t), <- rstrip_nil. by destruct (u_rstrip _).
Qed.

Lemma ink_spaces n : ink (replicate n 32%N) = [].
Proof. by induction n. Qed.

Lemma ink_expandtabs col t : ink (expandtabs col t) = ink t.
Proof.
  revert col. induction t as [|c t IH]; intros col; simpl; [done|].
  destruct (N.eqb_spec c 9) as [->|Hc]; [by rewrite ink_app, ink_spaces, IH|].
  simpl. by rewrite IH.
Qed.

Lemma ascii_space_u c : ascii_space c = true → u_space c = true.
Proof.
  unfold ascii_space, u_space. intros [->|H%N.eqb_eq]%orb_true_iff; [done|]. by subst c.
Qed.

Lemma ink_munge t : ink (_munge_whitespace t) = ink t.
Proof.
  unfold _munge_whitespace. rewrite <- (ink_expandtabs 0 t). generalize (expandtabs 0 t). clear t. intros t.
  induction t as [|c t IH]; csimpl; [done|].
  destruct (ascii_space c) eqn:E; simpl; [by rewrite (ascii_space_u c E), IH|]. by rewrite IH.
Qed.

(** ** A turn of the loop *)

Lemma rfind_bound c t i : rfind c t = Some i → (i < length t)%nat.
Proof.
  revert i. induction t as [|x t IH]; intros i; simpl; [done|]. destruct (rfind c t) as [j|].
  - intros [= <-]. specialize (IH j eq_refl). lia.
  - destruct (x =? c)%N; [|done]. intros [= <-]. lia.
Qed.

Lemma break_at_bounds chunk k : (break_at chunk k <= k)%nat ∧ (1 <= k → 1 <= break_at chunk k)%nat.
Proof.
  unfold break_at. destruct (k <? length chunk)%nat; [|lia].
  destruct (rfind 45 (take k chunk)) as [[|h]|] eqn:E; try lia. apply rfind_bound in E. rewrite length_take in E.
  destruct (existsb _ _); lia.
Qed.

Lemma fill_app width n chunks line m rest :
  fill width n chunks = (line, m, rest) → chunks = line ++ rest.
Proof.
  revert n line. induction chunks as [|c cs IH]; intros n line; simpl; [by intros [= <- _ <-]|].
  destruct (_ <=? width); [|by intros [= <- _ <-]].
  destruct (fill width _ cs) as [[l k] r] eqn:E. intros [= <- <- <-]. simpl. f_equal. by eapply IH.
Qed.

Lemma fill_len width n chunks line m rest :
  fill width n chunks = (line, m, rest) → m = (n + length (concat line))%nat ∧ Z.of_nat m <= Z.max (Z.of_nat n) width.
Proof.
  revert n line. induction chunks as [|c cs IH]; intros n line; simpl; [intros [= <- <- _]; simpl; lia|].
  destruct (Z.leb_spec (Z.of_nat (n + length c)) width); [|intros [= <- <- _]; simpl; lia].
  destruct (fill width _ cs) as [[l k] r] eqn:E. intros [= <- <- <-]. apply IH in E as [-> Hw]. simpl.
  rewrite length_app. lia.
Qed.

(** A chunk that fits is taken. *)
Lemma fill_head width c cs line m rest :
  fill width 0 (c :: cs) = (line, m, rest) → Z.of_nat (length c) <= width → (length rest <= length cs)%nat.
Proof.
  simpl. intros H Hc. rewrite (proj2 (Z.leb_le _ _)) in H by lia.
  destruct (fill width (length c) cs) as [[l k] r] eqn:E. simplify_eq. apply fill_app in E as ->.
  rewrite length_app. lia.
Qed.

Lemma drop_last_blank_ink line : ink (concat (drop_last_blank line)) = ink (concat line).
Proof.
  unfold drop_last_blank. destruct (rev line) as [|c cs] eqn:E; [done|]. destruct (u_blank c) eqn:Eb; [|done].
  apply blank_ink in Eb. rewrite <- (rev_involutive line), E. simpl.
  by rewrite concat_app, ink_app, ink_concat, ink_concat; simpl; rewrite Eb, !app_nil_r.
Qed.

Lemma drop_last_blank_len line : (length (concat (drop_last_blank line)) <= length (concat line))%nat.
Proof.
  unfold drop_last_blank. destruct (rev line) as [|c cs] eqn:E; [done|]. destruct (u_blank c); [|done].
  rewrite <- (rev_involutive line), E. simpl. rewrite concat_app, length_app. lia.
Qed.

Lemma take_line_ink width started chunks line rest :
  take_line width started chunks = (line, rest) → ink (concat chunks) = ink (concat line) ++ ink (concat rest).
Proof.
  unfold take_line. set (ch := match chunks with [] => [] | c :: cs => _ end).
  assert (ink (concat chunks) = ink (concat ch)) as ->.
  { subst ch. destruct chunks as [|c cs]; [done|]. destruct (u_blank c) eqn:E; [|done].
    destruct started; [|done]. simpl. by rewrite ink_app, (proj1 (blank_ink c) E). }
  clearbody ch. destruct (fill width 0 ch) as [[l n] r] eqn:E. apply fill_app in E as ->.
  rewrite concat_app. destruct r as [|c cs].
  - intros [= <- <-]. by rewrite drop_last_blank_ink, ink_app.
  - destruct (width <? Z.of_nat (length c)); intros [= <- <-]; rewrite drop_last_blank_ink, ?ink_app; [|done].
    simpl. rewrite concat_app. simpl. rewrite app_nil_r, !ink_app, <- !(assoc_L (++)). f_equal.
    rewrite (ink_take_drop (_handle_long_word c n width) c) at 1. by rewrite <- (assoc_L (++)).
Qed.

Lemma take_line_width width started chunks line rest :
  take_line width started chunks = (line, rest) → Z.of_nat (length (concat line)) <= Z.max width 1.
Proof.
  unfold take_line. generalize (match chunks with [] => [] | c :: cs => if u_blank c && started then cs else chunks end).
  intros ch. destruct (fill width 0 ch) as [[l n] r] eqn:E. apply fill_len in E as [Hn Hw]. simpl in Hn. subst n.
  destruct r as [|c cs]; [|destruct (width <? _)]; intros [= <- <-];
    match goal with |- context [drop_last_blank ?x] => pose proof (drop_last_blank_len x) as Hd end; [lia| |lia].
  rewrite concat_app, length_app in Hd. simpl in Hd. rewrite app_nil_r, length_take in Hd. unfold _handle_long_word in Hd |- *.
  set (sp := if width <? 1 then _ else _) in Hd |- *. pose proof (break_at_bounds c sp) as [Hb _].
  subst sp. destruct (Z.ltb_spec width 1); lia.
Qed.

Lemma take_line_weight width started chunks line rest :
  take_line width started chunks = (line, rest) → chunks ≠ [] → (started = false → 0 < width) →
  (chunk_weight rest < chunk_weight chunks)%nat.
Proof.
  unfold take_line. destruct chunks as [|c0 cs0]; [done|]. intros H _ Hs. revert H.
  destruct (u_blank c0 && started) eqn:Eb.
  - destruct (fill width 0 cs0) as [[l n] r] eqn:E. apply fill_app in E as ->.
    destruct r as [|c cs]; [|destruct (width <? _)]; intros [= <- <-]; unfold chunk_weight; simpl;
      rewrite ?concat_app, ?length_app; simpl; rewrite ?length_app, ?length_drop; lia.
  - destruct (fill width 0 (c0 :: cs0)) as [[l n] r] eqn:E. pose proof (fill_app _ _ _ _ _ _ E) as Ha.
    pose proof (fill_len _ _ _ _ _ _ E) as [Hn Hw]. simpl in Hn.
    destruct (Z.le_gt_cases (Z.of_nat (length c0)) width) as [Hc|Hc].
    + apply fill_head in E; [|done]. assert (length (concat r) <= length (concat (c0 :: cs0)))%nat.
      { rewrite Ha, concat_app, length_app. lia. }
      destruct r as [|c cs]; [|destruct (width <? _)]; intros [= <- <-]; unfold chunk_weight; simpl in *;
        rewrite ?length_app, ?length_drop in *; lia.
    + simpl in E. rewrite (proj2 (Z.leb_gt _ _)) in E by lia. injection E as <- <- <-. simpl.
      rewrite (proj2 (Z.ltb_lt _ _)) by lia. intros [= <- <-]. unfold chunk_weight. simpl.
      rewrite !length_app, length_drop. unfold _handle_long_word.
      set (sp := if width <? 1 then _ else _). pose proof (break_at_bounds c0 sp) as [_ Hb].
      assert (length c0 ≠ 0%nat) as Hc0.
      { intros H0. destruct c0; [|done]. destruct started; [done|]. specialize (Hs eq_refl). simpl in Hc. lia. }
      assert (1 <= sp)%nat as Hsp; [|lia]. subst sp. destruct (Z.ltb_spec width 1); lia.
Qed.

(** ** Lines *)

Section lines.
Context (width : nat) (indent : utext) (Hwidth : (0 < width)%nat).

Lemma take_line_next started chunks line rest :
  take_line (Z.of_nat width - Z.of_nat (length (indent_of indent started))) started chunks = (line, rest) →
  chunks ≠ [] → (chunk_weight rest < chunk_weight chunks)%nat.
Proof. intros H Hc. eapply take_line_weight; [exact H|done|]. intros ->. simpl. lia. Qed.

(** With the chunk_weight of the chunks as fuel the loop reaches the end of them. *)
Lemma wrap_chunks_fuel fuel fuel' started chunks :
  (chunk_weight chunks <= fuel)%nat → (chunk_weight chunks <= fuel')%nat →
  _wrap_chunks fuel width indent started chunks = _wrap_chunks fuel' width indent started chunks.
Proof.
  revert fuel' started chunks. induction fuel as [|f IH]; intros fuel' started [|c cs] Hf Hf'; [by destruct fuel'| |by destruct fuel'|].
  { unfold chunk_weight in Hf. simpl in Hf. lia. }
  destruct fuel' as [|f']; [unfold chunk_weight in Hf'; simpl in Hf'; lia|]. cbn [_wrap_chunks].
  destruct (take_line _ started (c :: cs)) as [line rest] eqn:E. apply take_line_next in E; [|done].
  destruct line; [|f_equal]; apply IH; lia.
Qed.

(** What is not white space appears in the lines, in order. *)
Lemma wrap_chunks_ink fuel started chunks :
  ink indent = [] → (chunk_weight chunks <= fuel)%nat →
  ink (concat (_wrap_chunks fuel width indent started chunks)) = ink (concat chunks).
Proof.
  intros Hi. revert started chunks. induction fuel as [|f IH]; intros started [|c cs] Hf; try done.
  - unfold chunk_weight in Hf. simpl in Hf. lia.
  - cbn [_wrap_chunks]. destruct (take_line _ started (c :: cs)) as [line rest] eqn:E.
    rewrite (take_line_ink _ _ _ _ _ E). apply take_line_next in E; [|done].
    destruct line as [|l ls]; [apply IH; lia|]. cbn [concat]. rewrite !ink_app, IH by lia.
    assert (ink (indent_of indent started) = []) as -> by (by destruct started). done.
Qed.

Lemma wrap_chunks_width fuel started chunks :
  Forall (λ l, (length l <= width `max` S (length indent))%nat) (_wrap_chunks fuel width indent started chunks).
Proof.
  revert started chunks. induction fuel as [|f IH]; intros started [|c cs]; try constructor.
  cbn [_wrap_chunks]. destruct (take_line _ started (c :: cs)) as [line rest] eqn:E.
  apply take_line_width in E. destruct line as [|l ls]; [apply IH|]. constructor; [|apply IH].
  rewrite length_app. destruct started; simpl in *; lia.
Qed.

End lines.

Lemma wrap_ink text width indent :
  (0 < width)%nat → ink indent = [] → ink (concat (wrap text width indent)) = ink text.
Proof.
  intros Hw Hi. unfold wrap. rewrite wrap_chunks_ink by done. unfold _split. by rewrite re_split_concat, ink_munge.
Qed.

Lemma wrap_width text width indent :
  (0 < width)%nat → Forall (λ l, (length l <= width `max` S (length indent))%nat) (wrap text width indent).
Proof. intros Hw. by apply wrap_chunks_width. Qed.

End wrapping.

(** The characters of the code points up to 127, as a database for examples. *)
Definition ascii_db : UnicodeDb :=
  {| u_alnum := λ c, within 48 57 c || within 65 90 c || within 97 122 c; u_decimal := within 48 57 |}.

Example wordsep_ex : @_split ascii_db (u "Look, goof-ball -- use the -b option!") =
  u <$> ["Look,"; " "; "goof-"; "ball"; " "; "--"; " "; "use"; " "; "the"; " "; "-b"; " "; "option!"].
Proof. vm_compute. reflexivity. Qed.

Example textwrap_ex : @wrap ascii_db (u "- a list item that is wrapped") 12 (u "  ") =
  u <$> ["- a list"; "  item that"; "  is wrapped"].
Proof. vm_compute. reflexivity. Qed.
