(* ===== verification/Guide.v ===== *)
(** * The guide generator (src/tools/build_guide.py)

    The tool turns the Markdown chapters of docs/guide/src into the pages of the HTML site and
    into one plain text.  The Markdown library and the help text of the argument parser are
    arguments; the regular expressions and [textwrap] are those of UText and TextWrap.  Text is
    a list of code points: a character outside ASCII is written as its number.  In the
    literals made with [lit] a back quote stands for a double quote. *)
From Stdlib Require Import Ascii.
From stdpp Require Import sorting.
From S2P Require Import Prelude Status PyStr HtmlText UText TextWrap.

Definition WRAP : nat := 88.
Definition LOGO_NAME : utext := u "psysmon-logo.png".

Definition _CSS : string :=
"
:root {
  --bg:#15254A; --panel:#1F3158; --border:#2E4470; --text:#E6ECF7; --muted:#93A4C4;
  --glow:#1D708C; --green:#4CD137; --yellow:#F4D03F; --down:#E84118; --link:#7FE0FF;
}
* { box-sizing:border-box; }
body { margin:0; background:var(--bg); color:var(--text);
  font-family:-apple-system,Segoe UI,Roboto,Helvetica,Arial,sans-serif; line-height:1.6; }
a { color:var(--link); text-decoration:none; }
a:hover { text-decoration:underline; }
.header { display:flex; align-items:center; gap:22px; padding:18px 26px;
  background:linear-gradient(180deg,#1C2E58,#101D3C); border-bottom:2px solid var(--border); }
.header .glow { display:grid; place-items:center; border-radius:14px;
  background:radial-gradient(circle at center, var(--glow) 0%, transparent 68%); }
.header img.logo { height:84px; width:84px; image-rendering:auto; display:block; }
.header h1 { margin:0; font-size:26px; letter-spacing:1px; }
.header h1 a { color:var(--text); }
.header .sub { margin:3px 0 0; color:var(--muted); font-size:14px; }
.layout { display:flex; align-items:flex-start; gap:0; }
.nav { flex:0 0 280px; align-self:stretch; padding:22px 18px 40px; border-right:1px solid
  var(--border); background:#13213F; min-height:calc(100vh - 124px); position:sticky; top:0;
  max-height:100vh; overflow:auto; }
.nav .navtitle { font-size:12px; text-transform:uppercase; letter-spacing:.6px; color:var(--muted);
  margin:0 0 10px; }
.nav ol { list-style:none; margin:0; padding:0; counter-reset:ch; }
.nav > ol > li { counter-increment:ch; margin:2px 0; }
.nav > ol > li > a::before { content:counter(ch) `. `; color:var(--muted); }
.nav a { display:block; padding:5px 10px; border-radius:7px; color:var(--text); font-size:14px; }
.nav a:hover { background:var(--panel); text-decoration:none; }
.nav li.current > a { background:var(--panel); font-weight:700; }
.nav .toc { list-style:none; margin:3px 0 8px; padding:0 0 0 18px; }
.nav .toc a { color:var(--muted); font-size:13px; padding:3px 10px; }
.main { flex:1 1 auto; min-width:0; padding:14px 38px 60px; max-width:900px; }
.main h1 { font-size:30px; margin:18px 0 8px; }
.main h2 { font-size:22px; margin:34px 0 8px; padding-bottom:6px;
  border-bottom:1px solid var(--border); }
.main h3 { font-size:17px; margin:26px 0 6px; color:#CBD8F2; }
.main h4 { font-size:15px; margin:20px 0 6px; color:var(--muted); text-transform:uppercase;
  letter-spacing:.5px; }
.main code { background:#0F1B38; border:1px solid var(--border); border-radius:5px;
  padding:1px 6px; font-size:13px; font-family:`SF Mono`,Consolas,Menlo,monospace; }
.main pre { background:#0F1B38; border:1px solid var(--border); border-radius:10px;
  padding:14px 16px; overflow:auto; }
.main pre code { background:none; border:none; padding:0; font-size:13px; line-height:1.5; }
.main table { width:100%; border-collapse:collapse; background:var(--panel);
  border:1px solid var(--border); border-radius:10px; overflow:hidden; margin:14px 0; }
.main th { text-align:left; font-size:12px; text-transform:uppercase; letter-spacing:.6px;
  color:var(--muted); padding:10px 13px; background:#1A2C54;
  border-bottom:1px solid var(--border); }
.main td { padding:9px 13px; border-bottom:1px solid var(--border); font-size:14px;
  vertical-align:top; }
.main tr:last-child td { border-bottom:none; }
.main blockquote { margin:14px 0; padding:10px 16px; border-left:3px solid var(--glow);
  background:var(--panel); border-radius:0 8px 8px 0; color:#CBD8F2; }
.main blockquote p { margin:6px 0; }
.badge { display:inline-block; padding:1px 9px; border-radius:999px; font-size:12px;
  font-weight:700; background:rgba(76,209,55,.16); color:var(--green); }
.badge.modern { background:rgba(127,224,255,.16); color:var(--link); }
.pager { display:flex; justify-content:space-between; margin:46px 0 0; padding-top:18px;
  border-top:1px solid var(--border); font-size:14px; }
.footer { padding:16px 26px 30px; color:var(--muted); font-size:12px;
  border-top:1px solid var(--border); }
".

(** Exceptions that end the tool. *)
Inductive guide_error : Type :=
| NoChapters
| Undecodable (name : utext)
| NoMeaning (st : Status)
| NoIndex
| AssertIndex
| AssertPages
| AssertText.

(** ** Links *)

Definition path_char (c : N) : bool := within 48 57 c || within 65 90 c || within 97 122 c || among (u "._/-") c.

Definition _MD_LINK : regex :=
  (Txt (u "](") >>> Group 1 (Plus path_char) >>> Txt (u ".md")
   >>> Opt (Group 2 (Cls (chr 35) >>> Star (notchr 41))) >>> Cls (chr 41))%re.

Definition _REPO_BLOB : utext := u "https://github.com/IjonTichy1970/Psysmon/blob/main/docs/".

(** [m.group(n)] of a group that took part in the match, or the empty string *)
Definition got (n : nat) (m : caps) : utext := default [] (group n m).

Definition relink (guide_stems : list utext) (m : caps) : utext :=
  let stem := after_last 47 (got 1 m) in
  if bool_decide (stem ∈ guide_stems) then u "](" ++ stem ++ u ".html" ++ got 2 m ++ u ")"
  else u "](" ++ _REPO_BLOB ++ stem ++ u ".md" ++ got 2 m ++ u ")".

Definition _rewrite_links (md_text : utext) (guide_stems : list utext) : utext :=
  re_sub _MD_LINK (relink guide_stems) md_text.

(** ** Chapters *)

Definition _TITLE : regex := (Bol true >>> Cls (chr 35) >>> Plus u_space >>> Group 1 (Star dot) >>> Eol true)%re.

(** The path is its file name; [ch_text] is what reading the file gives. *)
Record Chapter : Type := MkChapter {
  slug : utext;
  html_name : utext;
  title : utext;
  ch_text : utext
}.

(** [path.stem] of a name that ends in [.md] *)
Definition stem (name : utext) : utext :=
  if (3 <? length name)%nat then take (length name - 3) name else name.

Definition mk_chapter (name text : utext) : Chapter :=
  let slug := stem name in
  MkChapter slug (slug ++ u ".html")
    (match re_search _TITLE [] text with Some (m, _) => u_strip (got 1 m) | None => slug end) text.

(** A directory: the names and what decoding each file gives. *)
Abbreviation directory := (list (utext * option utext)).

Fixpoint u_leb (s t : utext) : bool :=
  match s, t with
  | [], _ => true
  | _ :: _, [] => false
  | c :: s', d :: t' => (c <? d)%N || ((c =? d)%N && u_leb s' t')
  end.

Definition name_le (x y : utext * option utext) : Prop := u_leb x.1 y.1 = true.
#[export] Instance name_le_dec x y : Decision (name_le x y).
Proof. unfold name_le. apply _. Defined.

Definition is_md (x : utext * option utext) : bool := u_endswith (u ".md") x.1.

Definition read_chapter (x : utext * option utext) : res guide_error Chapter :=
  match x.2 with Some text => Ok (mk_chapter x.1 text) | None => Raise (Undecodable x.1) end.

Fixpoint res_map {E A B} (f : A → res E B) (l : list A) : res E (list B) :=
  match l with
  | [] => Ok []
  | x :: l' => let! y := f x in let! ys := res_map f l' in Ok (y :: ys)
  end.

Definition discover (src : directory) : res guide_error (list Chapter) :=
  let! chapters := res_map read_chapter (merge_sort name_le (List.filter is_md src)) in
  match chapters with [] => Raise NoChapters | _ => Ok chapters end.

(** ** The appendices generated from the code *)

Definition em_dash : utext := [8212%N].

Definition legacy_code : string := "(Legacy code; not emitted by current checks.)".

Definition meanings : list (Status * utext) :=
  [(OK, u "The service answered normally; fully up.");
   (CONN_REFUSED, u "The host is reachable but refused the connection on that port " ++ u "(nothing listening / actively rejected).");
   (NET_UNREACH, u "No route to the host's network (a router/path is down).");
   (HOST_DOWN, u "The host itself is down / unreachable on its network.");
   (TIMED_OUT, u "The connection attempt timed out with no response.");
   (NO_DNS, u "The hostname did not resolve (no DNS record / lookup failed).");
   (UNPINGABLE, u "No ICMP echo reply within the retry budget (ping only).");
   (THROTTLED, u "Rate-limited / throttled by the service. " ++ u legacy_code);
   (NO_AUTH, u "Authentication was required but not provided. " ++ u legacy_code);
   (NO_RESPONSE, u "Connected, but the server sent no (valid) response.");
   (IN_PROGRESS, u "A connection is still in progress (transient). " ++ u legacy_code);
   (BAD_AUTH, u "Authentication was attempted and rejected (bad credentials).");
   (BAD_RESPONSE, u "The server responded, but not as expected (e.g. a DNS reply that "
      ++ u "is malformed or from the wrong source; an HTTP body missing the " ++ u "expected text).");
   (X500_WEDGED, u "The service is wedged / stuck (legacy X.500 condition). " ++ u legacy_code);
   (DEGRADED, u "Loss-tolerant ping got some replies but fewer than `min_pings` " ++ em_dash ++ u " "
      ++ u "reachable but lossy. Does not reset an outage; pages only with "
      ++ u "`--page-on-degraded`. (psysmon addition.)")].

Definition meaning (st : Status) : option utext := snd <$> List.find (λ x, bool_decide (x.1 = st)) meanings.

Definition status_row (st : Status) : res guide_error utext :=
  match meaning st with
  | Some text =>
      Ok (u "| `" ++ u (pretty (status_value st)) ++ u "` | `" ++ u (errtostr (status_value st)) ++ u "` | "
          ++ text ++ u " |")
  | None => Raise (NoMeaning st)
  end.

Definition gen_status : res guide_error utext :=
  let! rows := res_map status_row all_statuses in
  Ok (ujoin newline ([u "| Code | Status text | Meaning |"; u "|---|---|---|"] ++ rows) ++ newline).

(** A file of the site. *)
Inductive sfile : Type :=
| Html (text : utext)
| Image (bytes : list N).

Abbreviation site := (gmap utext sfile).

Section guide.
Context {db : UnicodeDb}.
(** [build_parser().format_help()], and the HTML and the table of contents the Markdown
    library makes of a text. *)
Context (help_text : utext) (convert : utext → utext * utext).

Definition gen_cli : utext := u "```text" ++ newline ++ u_rstrip help_text ++ newline ++ u "```" ++ newline.

Definition inject_generated (md_text : utext) : res guide_error utext :=
  let md_text := u_replace (u "<!--GEN:cli-->") gen_cli md_text in
  let! table := gen_status in
  Ok (u_replace (u "<!--GEN:status-->") table md_text).

(** ** HTML *)

(** The current chapter is given by its position: [ch is current] compares objects. *)
Definition nav_item (current : nat) (page_toc : utext) (i : nat) (ch : Chapter) : utext :=
  let here := (i =? current)%nat in
  let cls := if here then lit " class=`current`" else [] in
  let sub := if here && negb (bool_decide (page_toc = [])) then newline ++ page_toc else [] in
  u "<li" ++ cls ++ lit "><a href=`" ++ html_name ch ++ lit "`>" ++ title ch ++ u "</a>" ++ sub ++ u "</li>".

Definition _nav_html (chapters : list Chapter) (current : nat) (page_toc : utext) : utext :=
  u "<ol>" ++ newline ++ ujoin newline (imap (nav_item current page_toc) chapters) ++ newline ++ u "</ol>".

Definition prev_link (prev_ch : option Chapter) : utext :=
  match prev_ch with
  | Some ch => lit "<a href=`" ++ html_name ch ++ lit "`>&larr; " ++ title ch ++ u "</a>"
  | None => u "<span></span>"
  end.

Definition next_link (next_ch : option Chapter) : utext :=
  match next_ch with
  | Some ch => lit "<a href=`" ++ html_name ch ++ lit "`>" ++ title ch ++ u " &rarr;</a>"
  | None => u "<span></span>"
  end.

Definition _page (chapters : list Chapter) (idx : nat) (current : Chapter) (body page_toc : utext)
    (prev_ch next_ch : option Chapter) : utext :=
  let nav := _nav_html chapters idx page_toc in
  u "<!DOCTYPE html>" ++ newline
  ++ lit "<html lang=`en`><head><meta charset=`utf-8`>"
  ++ lit "<meta name=`viewport` content=`width=device-width, initial-scale=1`>"
  ++ u "<title>" ++ title current ++ u " " ++ em_dash ++ u " PSYSMON User Guide</title>"
  ++ u "<style>" ++ lit _CSS ++ u "</style></head><body>" ++ newline
  ++ lit "<div class=`header`>"
  ++ lit "<div class=`glow`><img class=`logo` src=`" ++ LOGO_NAME ++ lit "` alt=`psysmon logo`></div>"
  ++ lit "<div><h1><a href=`index.html`>PSYSMON</a></h1>"
  ++ lit "<p class=`sub`>User Guide</p></div></div>" ++ newline
  ++ lit "<div class=`layout`>"
  ++ lit "<nav class=`nav`><p class=`navtitle`>Contents</p>" ++ nav ++ u "</nav>" ++ newline
  ++ lit "<main class=`main`>" ++ body
  ++ lit "<div class=`pager`>" ++ prev_link prev_ch ++ next_link next_ch ++ u "</div>"
  ++ u "</main></div>" ++ newline
  ++ lit "<div class=`footer`>PSYSMON User Guide " ++ [183%N] ++ u " generated from docs/guide/src " ++ [183%N] ++ u " "
  ++ u "build with <code>python tools/build_guide.py</code></div>" ++ newline
  ++ u "</body></html>" ++ newline.

Definition _UL : regex := (Txt (u "<ul>") >>> Star anychar >>> Txt (u "</ul>"))%re.

Definition toc_inner (page_toc : utext) : utext :=
  match re_search _UL [] page_toc with
  | Some (_, m) => lit "<ul class=`toc`>" ++ take (length m - 9) (drop 4 m) ++ u "</ul>"
  | None => []
  end.

(** The page of the chapter at a position. *)
Definition chapter_page (chapters : list Chapter) (idx : nat) (ch : Chapter) : res guide_error utext :=
  let! md_text := inject_generated (ch_text ch) in
  let md_text := _rewrite_links md_text (slug <$> chapters) in
  let '(body, page_toc) := convert md_text in
  let prev_ch := if (0 <? idx)%nat then chapters !! pred idx else None in
  let next_ch := if (idx <? length chapters - 1)%nat then chapters !! S idx else None in
  Ok (_page chapters idx ch body (toc_inner page_toc) prev_ch next_ch).

Fixpoint write_pages (chapters : list Chapter) (idx : nat) (rest : list Chapter) (s : site) : res guide_error site :=
  match rest with
  | [] => Ok s
  | ch :: rest' =>
      let! html := chapter_page chapters idx ch in
      write_pages chapters (S idx) rest' (<[html_name ch := Html html]> s)
  end.

(** [logo] is the file in the package, if it is there. *)
Definition build_html (logo : option (list N)) (chapters : list Chapter) (s : site) : res guide_error site :=
  let s := match logo with Some bytes => <[LOGO_NAME := Image bytes]> s | None => s end in
  let! s := write_pages chapters 0 chapters s in
  match chapters with
  | ch :: _ => match s !! html_name ch with Some f => Ok (<[u "index.html" := f]> s) | None => Raise NoIndex end
  | [] => Raise NoIndex
  end.

(** ** Plain text *)

Definition _RE_IMG : regex :=
  (Txt (u "![") >>> Star (notchr 93) >>> Txt (u "](") >>> Star (notchr 41) >>> Cls (chr 41))%re.
Definition _RE_LINK : regex :=
  (Cls (chr 91) >>> Group 1 (Plus (notchr 93)) >>> Txt (u "](") >>> Group 2 (Plus (notchr 41)) >>> Cls (chr 41))%re.
Definition _RE_BOLD : regex := (Txt (u "**") >>> Group 1 (Plus (notchr 42)) >>> Txt (u "**"))%re.
Definition _RE_CODE : regex := (Cls (chr 96) >>> Group 1 (Plus (notchr 96)) >>> Cls (chr 96))%re.
Definition _RE_HEADING : regex :=
  (Bol false >>> Group 1 (Rep true 1 (Some 6%nat) (chr 35)) >>> Plus u_space >>> Group 2 (Rep false 0 None dot)
   >>> Star u_space >>> Eol false)%re.
Definition _HEADING_ATTR : regex :=
  (Star u_space >>> Cls (chr 123) >>> Star (notchr 125) >>> Cls (chr 125) >>> Star u_space >>> Eol false)%re.
Definition _LIST_ITEM : regex :=
  (Bol false >>> Star u_space >>> Group 1 (Cls (among (u "-*+")) <|> (Plus u_decimal >>> Cls (chr 46))) >>> Plus u_space)%re.

Definition _UNDERLINE (level : nat) : option N :=
  match level with 1%nat => Some 61%N | 2%nat => Some 45%N | 3%nat => Some 126%N | _ => None end.

Definition _ASCII_FOLD : list (N * string) :=
  [(8212%N, "--"); (8211%N, "-"); (8216%N, "'"); (8217%N, "'"); (8220%N, String "034" ""); (8221%N, String "034" "");
   (8230%N, "..."); (8594%N, "->"); (8592%N, "<-"); (183%N, "-"); (10003%N, "[ok]"); (160%N, " "); (215%N, "x")].

Definition _EXTRA_FOLD : list (N * string) :=
  [(8250%N, ">"); (8249%N, "<"); (8596%N, "<->"); (8658%N, "=>"); (8660%N, "<=>");
   (8804%N, "<="); (8805%N, ">="); (8800%N, "!="); (8226%N, "*"); (183%N, "-")].

Definition fold_with (s : utext) (mapping : list (N * string)) : utext :=
  foldl (λ s x, u_replace [x.1] (u x.2) s) s mapping.

Definition _ascii_fold (s : utext) : utext := foldl fold_with s [_ASCII_FOLD; _EXTRA_FOLD].

Definition link_text (m : caps) : utext :=
  if u_startswith (u "http") (got 2 m) then got 1 m ++ u " (" ++ got 2 m ++ u ")" else got 1 m.

Definition _strip_inline (s : utext) : utext :=
  re_sub _RE_CODE (got 1) (re_sub _RE_BOLD (got 1) (re_sub _RE_LINK link_text (re_sub _RE_IMG (λ _, []) s))).

Definition _is_table (block : list utext) : bool :=
  match block with
  | b0 :: b1 :: _ => among b0 124 && forallb (among (u "|-: ")) (u_strip b1)
  | _ => false
  end.

Definition _is_list (block : list utext) : bool :=
  forallb (λ ln, u_blank ln || bool_decide (is_Some (re_match _LIST_ITEM [] ln))) block.

Definition heading_of (ln : utext) : option caps := (λ x, x.1.1) <$> re_match _RE_HEADING [] ln.

(** [wrapped or [text]] *)
Definition or_itself (wrapped : list utext) (text : utext) : list utext :=
  match wrapped with [] => [text] | _ => wrapped end.

Definition render_heading (h : caps) : list utext :=
  let text := _strip_inline (re_sub _HEADING_ATTR (λ _, []) (got 2 h)) in
  text :: match _UNDERLINE (length (got 1 h)) with Some c => [replicate (length text) c] | None => [] end.

Definition render_item (ln : utext) : list utext :=
  let stripped := _strip_inline (u_rstrip ln) in
  let indent := (length ln - length (u_lstrip ln))%nat in
  or_itself (wrap stripped WRAP (replicate (indent + 2) 32%N)) stripped.

Definition render_quote (ln : utext) : utext :=
  u "    " ++ _strip_inline (u_rstrip (u_lstrip_in (among (u "> ")) ln)).

Definition render_paragraph (block : list utext) : list utext :=
  let para := _strip_inline (ujoin (u " ") (u_strip <$> block)) in or_itself (wrap para WRAP []) para.

(** The lines [flush] appends for a block that is not empty. *)
Definition render_block (block : list utext) (b0 : utext) : list utext :=
  match heading_of b0, block with
  | Some h, [_] => render_heading h
  | _, _ =>
      if _is_table block then _strip_inline <$> block
      else if _is_list block then ln ← block; render_item ln
      else if u_startswith (u ">") (u_lstrip b0) then render_quote <$> block
      else render_paragraph block
  end.

(** [flush]: what has been written, and the lines of the block. *)
Definition flush (st : list utext * list utext) : list utext * list utext :=
  let '(out, block) := st in
  match block with
  | [] => st
  | b0 :: _ => (out ++ render_block block b0 ++ [[]], [])
  end.

Definition prose_line (st : list utext * list utext) (ln : utext) : list utext * list utext :=
  if u_blank ln then flush st
  else match heading_of ln with
       | Some _ => let '(out, block) := flush st in flush (out, block ++ [ln])
       | None => let '(out, block) := st in (out, block ++ [ln])
       end.

Definition _render_prose (lines : list utext) : list utext := (flush (foldl prose_line ([], []) lines)).1.

Definition is_fence (ln : utext) : bool := u_startswith (u "```") (u_lstrip ln).

(** The lines up to the next fence, and the others. *)
Fixpoint to_fence (lines : list utext) : list utext * list utext :=
  match lines with
  | [] => ([], [])
  | ln :: ls => if is_fence ln then ([], lines) else let '(l, r) := to_fence ls in (ln :: l, r)
  end.

Fixpoint md_lines (fuel : nat) (lines : list utext) : list utext :=
  match fuel, lines with
  | S fuel', ln :: ls =>
      if is_fence ln then
        let '(code, rest) := to_fence ls in
        [[]] ++ (app (u "    ") <$> code) ++ [[]] ++ md_lines fuel' (drop 1 rest)
      else
        let '(region, rest) := to_fence lines in _render_prose region ++ md_lines fuel' rest
  | _, _ => []
  end.

(** [collapse]: at most one blank line in a row. *)
Definition collapse_line (st : list utext * nat) (ln : utext) : list utext * nat :=
  let '(text, blanks) := st in
  if u_blank ln then (if (S blanks <=? 1)%nat then text ++ [[]] else text, S blanks)
  else (text ++ [u_rstrip ln], 0%nat).

Definition collapse (out : list utext) : list utext := (foldl collapse_line ([], 0%nat) out).1.

Definition md_to_text (md_text : utext) : utext :=
  let lines := u_splitlines md_text in
  let out := md_lines (length lines) lines in
  _ascii_fold (u_strip (ujoin newline (collapse out)) ++ newline).

(** ** The text edition *)

Definition rule : utext := newline ++ replicate WRAP 35%N ++ newline.

Fixpoint toc_lines (idx : nat) (chapters : list Chapter) : list utext :=
  match chapters with
  | [] => []
  | ch :: chs => (u "  " ++ u (pretty idx) ++ u ". " ++ title ch) :: toc_lines (S idx) chs
  end.

Definition chapter_text (ch : Chapter) : res guide_error (list utext) :=
  let! md_text := inject_generated (ch_text ch) in Ok [md_to_text md_text; rule].

Definition txt_head : list utext :=
  [u "PSYSMON " ++ em_dash ++ u " USER GUIDE"; replicate 20 61%N; [];
   u "Generated from docs/guide/src by tools/build_guide.py. The HTML edition (with navigation)";
   u "is published to GitHub Pages; see README.md."; []].

Definition build_txt (chapters : list Chapter) : res guide_error utext :=
  let! texts := res_map chapter_text chapters in
  let parts := txt_head ++ [u "Contents:"; []] ++ toc_lines 1 chapters ++ [rule] ++ concat texts in
  Ok (_ascii_fold (u_rstrip (ujoin newline parts) ++ newline)).

(** ** The command

    The files it writes: the site and the text.  With [--check] both are temporary. *)
Record output : Type := MkOutput { out_site : site; out_txt : option utext }.

Definition html_pages (s : site) : nat := length (List.filter (λ x, u_endswith (u ".html") x.1) (map_to_list s)).

Definition guide_main (check : bool) (src : directory) (logo : option (list N)) (o : output) : res guide_error output :=
  let! chapters := discover src in
  if check then
    let! s := build_html logo chapters ∅ in
    let! txt := build_txt chapters in
    match s !! u "index.html" with
    | None => Raise AssertIndex
    | Some _ =>
        if (length chapters <=? html_pages s)%nat then
          if u_blank txt then Raise AssertText else Ok o
        else Raise AssertPages
    end
  else
    let! s := build_html logo chapters (out_site o) in
    let! txt := build_txt chapters in
    Ok (MkOutput s (Some txt)).
End guide.
