(* ===== verification/GuideSpec.v ===== *)
(** * The guide: what the generator promises

    The text edition: fences split a chapter into code and prose, and apart from white space
    the output holds exactly the characters of the blocks, with tidy lines; folding is one
    simultaneous replacement.  The site: a page per chapter with links to its neighbours, the
    first one as index; the checks of [--check] hold.  Two examples show what the text edition
    gets wrong. *)
From stdpp Require Import sorting.
From S2P Require Import Prelude Status PyStr HtmlText UText TextWrap Guide.

(** ** Folding *)

Lemma replace_char c new t : u_replace [c] new t = x ← t; if (c =? x)%N then new else [x].
Proof.
  unfold u_replace. induction t as [|x t IH]; csimpl; [done|].
  rewrite andb_true_r. destruct (c =? x)%N; rewrite IH; done.
Qed.

(** The folding of one character. *)
Definition fold_in (mapping : list (N * string)) (c : N) : utext :=
  match List.find (λ x, (x.1 =? c)%N) mapping with Some x => u x.2 | None => [c] end.

Definition all_ascii (t : utext) : Prop := Forall (λ c, (c < 128)%N) t.

Lemma fold_in_ascii mapping t : Forall (λ x, (128 <= x.1)%N) mapping → all_ascii t → t ≫= fold_in mapping = t.
Proof.
  intros Hm. induction 1 as [|c t Hc Ht IH]; csimpl; [done|]. rewrite IH. unfold fold_in.
  destruct (List.find _ mapping) as [x|] eqn:E; [|done]. apply List.find_some in E as [Hx%list_elem_of_In Ex%N.eqb_eq].
  rewrite Forall_forall in Hm. specialize (Hm x Hx). simpl in Hm. lia.
Qed.

Lemma bind_bind {A B C} (f : A → list B) (g : B → list C) (l : list A) : (l ≫= f) ≫= g = l ≫= (λ x, f x ≫= g).
Proof. induction l as [|x l IH]; csimpl; [done|]. by rewrite bind_app, IH. Qed.

Lemma fold_with_in t mapping :
  Forall (λ x, (128 <= x.1)%N) mapping → Forall (λ x, all_ascii (u x.2)) mapping →
  fold_with t mapping = t ≫= fold_in mapping.
Proof.
  intros Hk. revert t. induction Hk as [|[k s] m Hk Hm IH]; intros t Ha.
  - unfold fold_in. simpl. induction t; csimpl; [done|]. by f_equal.
  - inversion_clear Ha as [|?? Hs Hms]. unfold fold_with. cbn [foldl fst snd]. fold (fold_with (u_replace [k] (u s) t) m).
    rewrite IH, replace_char, bind_bind by done. apply list_bind_ext; [|done]. intros c.
    unfold fold_in at 2. cbn [List.find fst snd]. destruct (k =? c)%N; [by apply fold_in_ascii|].
    csimpl. by rewrite app_nil_r.
Qed.

Definition fold_table : list (N * string) := _ASCII_FOLD ++ _EXTRA_FOLD.

Lemma fold_table_keys : Forall (λ x, (128 <= x.1)%N) fold_table.
Proof. apply (bool_decide_eq_true_1 _). vm_compute. reflexivity. Qed.

Lemma fold_table_ascii : Forall (λ x, all_ascii (u x.2)) fold_table.
Proof. unfold all_ascii. apply (bool_decide_eq_true_1 _). vm_compute. reflexivity. Qed.

(** The two dictionaries, applied one entry after the other, are one replacement of each
    character. *)
Lemma ascii_fold_simultaneous t : _ascii_fold t = t ≫= fold_in fold_table.
Proof.
  unfold _ascii_fold. cbn [foldl]. unfold fold_with. rewrite <- foldl_app.
  apply (fold_with_in t fold_table fold_table_keys fold_table_ascii).
Qed.

Lemma ascii_fold_app s t : _ascii_fold (s ++ t) = _ascii_fold s ++ _ascii_fold t.
Proof. rewrite !ascii_fold_simultaneous. apply bind_app. Qed.

Lemma ascii_fold_id t : all_ascii t → _ascii_fold t = t.
Proof. rewrite ascii_fold_simultaneous. apply fold_in_ascii, fold_table_keys. Qed.

Lemma fold_in_ascii_iff mapping t : Forall (λ x, all_ascii (u x.2)) mapping →
  all_ascii (t ≫= fold_in mapping) ↔ Forall (λ c, (c < 128)%N ∨ c ∈ mapping.*1) t.
Proof.
  intros Ha. unfold all_ascii. induction t as [|c t IH]; csimpl; [by rewrite !Forall_nil|].
  rewrite Forall_app, Forall_cons, IH. apply and_iff_compat_r. unfold fold_in.
  destruct (List.find _ mapping) as [x|] eqn:E.
  - apply List.find_some in E as [Hx%list_elem_of_In Ex%N.eqb_eq]. split.
    + intros _. right. rewrite <- Ex. by apply list_elem_of_fmap_2.
    + intros _. by apply (proj1 (Forall_forall _ _) Ha).
  - rewrite Forall_singleton. split; [by left|]. intros [?|Hc]; [done|].
    apply list_elem_of_fmap in Hc as (x & -> & Hx). apply list_elem_of_In in Hx.
    apply (List.find_none _ _ E) in Hx. simpl in Hx. by rewrite N.eqb_refl in Hx.
Qed.

(** The result is ASCII exactly when every other character has an entry. *)
Lemma ascii_fold_ascii t : all_ascii (_ascii_fold t) ↔ Forall (λ c, (c < 128)%N ∨ c ∈ fold_table.*1) t.
Proof. rewrite ascii_fold_simultaneous. apply fold_in_ascii_iff, fold_table_ascii. Qed.

(** ** Links *)

(** A text with its links to Markdown files. *)
Inductive md_segment : Type :=
| Char (c : N)
| MdLink (path anchor : utext).

Definition link_to (target anchor : utext) : utext := u "](" ++ target ++ anchor ++ u ")".

Definition seg_source (s : md_segment) : utext :=
  match s with Char c => [c] | MdLink path anchor => link_to (path ++ u ".md") anchor end.

Definition seg_target (stems : list utext) (s : md_segment) : utext :=
  match s with
  | Char c => [c]
  | MdLink path anchor =>
      let name := after_last 47 path in
      link_to (if bool_decide (name ∈ stems) then name ++ u ".html" else _REPO_BLOB ++ name ++ u ".md") anchor
  end.

Lemma md_link_groups b a c b' a' :
  matches _MD_LINK [] b a c b' a' → captured b b' = link_to (got 1 c ++ u ".md") (got 2 c).
Proof.
  unfold _MD_LINK, link_to. generalize (u "](") (u ".md"). intros l1 l2. change (u ")") with [41%N].
  intros (? & ? & ? & (-> & -> & ->)%matches_txt & H)%matches_seq.
  apply matches_seq in H as (? & ? & ? & (? & (-> & path & -> & ->)%matches_rep & ->)%matches_group & H).
  apply matches_seq in H as (? & ? & ? & (-> & -> & ->)%matches_txt & H).
  apply matches_seq in H as (? & ? & ? & Ha & (-> & -> & ->)%matches_chr).
  rewrite captured_rev in Ha. apply matches_opt in Ha as [Ha|(-> & <- & ->)].
  - apply matches_group in Ha as (? & (? & ? & ? & (-> & -> & ->)%matches_chr & (-> & anchor & -> & ->)%matches_rep)%matches_seq & ->).
    pose proof (captured_rev (35%N :: anchor) (rev l2 ++ rev path ++ rev l1 ++ b)) as E.
    simpl in E. rewrite <- (assoc_L (++)) in E. simpl in E. rewrite E.
    apply captured_eq. cbn. rewrite !rev_app_distr. cbn. rewrite ?rev_app_distr. cbn. rewrite <- !(assoc_L (++)). done.
  - apply captured_eq. cbn. rewrite !rev_app_distr. simpl. by rewrite <- !(assoc_L (++)).
Qed.

Definition to_md_segment (x : N + caps * utext) : md_segment :=
  match x with inl c => Char c | inr (c, _) => MdLink (got 1 c) (got 2 c) end.

(** The links to Markdown files are replaced, a chapter by its page and another document by
    its address in the repository, with their anchors; nothing else changes. *)
Lemma rewrite_links_spec t stems :
  ∃ segs, t = (s ← segs; seg_source s) ∧ _rewrite_links t stems = (s ← segs; seg_target stems s).
Proof.
  exists (to_md_segment <$> pieces _MD_LINK 0 [] t). rewrite !list_fmap_bind. split.
  - transitivity (x ← pieces _MD_LINK 0 [] t; piece_str x); [by rewrite pieces_concat|].
    apply Forall_bind_ext. eapply Forall_impl; [apply pieces_matched|]. intros [x|[c m]]; [done|].
    intros (b0 & a0 & b' & a' & Hm & ->). apply md_link_groups in Hm. exact Hm.
  - unfold _rewrite_links, re_sub. apply list_bind_ext; [|done]. intros [x|[c m]]; [done|].
    unfold relink, seg_target, to_md_segment, link_to, compose. destruct (bool_decide _); by rewrite <- ?(assoc_L (++)).
Qed.

(** ** The text of a chapter *)

Section text.
Context {db : UnicodeDb}.

(** A fence ends a region and starts one of the other kind. *)
Inductive region : Type :=
| Code (lines : list utext)
| Prose (lines : list utext).

Definition mk_region (code : bool) (lines : list utext) : region := if code then Code lines else Prose lines.

Fixpoint regions (code : bool) (cur lines : list utext) : list region :=
  match lines with
  | [] => [mk_region code cur]
  | ln :: ls => if is_fence ln then mk_region code cur :: regions (negb code) [] ls else regions code (cur ++ [ln]) ls
  end.

Definition render_region (r : region) : list utext :=
  match r with
  | Code ls => [[]] ++ (app (u "    ") <$> ls) ++ [[]]
  | Prose ls => _render_prose ls
  end.

Lemma regions_to_fence code cur lines :
  regions code cur lines =
    let '(l, r) := to_fence lines in
    mk_region code (cur ++ l) :: match r with [] => [] | _ :: r' => regions (negb code) [] r' end.
Proof.
  revert cur. induction lines as [|ln ls IH]; intros cur; simpl; [by rewrite app_nil_r|].
  destruct (is_fence ln); [by rewrite app_nil_r|]. rewrite IH. destruct (to_fence ls) as [l r].
  by rewrite <- (assoc_L (++)).
Qed.

Lemma to_fence_split lines l r : to_fence lines = (l, r) →
  lines = l ++ r ∧ match r with [] => True | ln :: _ => is_fence ln = true end ∧ Forall (λ x, is_fence x = false) l.
Proof.
  revert l r. induction lines as [|ln ls IH]; intros l r; simpl; [by intros [= <- <-]|].
  destruct (is_fence ln) eqn:E; [by intros [= <- <-]|]. destruct (to_fence ls) as [l' r'].
  intros [= <- <-]. destruct (IH _ _ eq_refl) as (-> & Hr & Hl). auto.
Qed.

(** The loops over the line index take the regions in turn. *)
Lemma md_lines_regions fuel lines :
  (length lines <= fuel)%nat → md_lines fuel lines = r ← regions false [] lines; render_region r.
Proof.
  revert lines. induction fuel as [fuel IH] using lt_wf_ind. intros [|ln ls] Hf; [by destruct fuel|].
  destruct fuel as [|f]; [simpl in Hf; lia|]. cbn [md_lines]. simpl in Hf.
  destruct (is_fence ln) eqn:E.
  - cbn [regions]. rewrite E. csimpl. rewrite regions_to_fence. destruct (to_fence ls) as [l r] eqn:Ef.
    apply to_fence_split in Ef as (-> & _ & _). rewrite length_app in Hf. csimpl. f_equal. rewrite <- (assoc_L (++)). f_equal.
    simpl. f_equal. destruct r as [|x r]; csimpl; [by destruct f|]. rewrite drop_0. apply IH; simpl in *; lia.
  - rewrite regions_to_fence. destruct (to_fence (ln :: ls)) as [l r] eqn:Ef.
    pose proof (to_fence_split _ _ _ Ef) as (El & Hr & Hl). csimpl. f_equal.
    destruct l as [|x l]; [simpl in El; subst r; congruence|]. simplify_eq/=. rewrite length_app in Hf.
    destruct r as [|y r]; csimpl; [by destruct f|]. rewrite IH by (simpl in *; lia). cbn [regions]. by rewrite Hr.
Qed.

(** *** Prose *)

(** The blocks of a prose region: runs of lines between blank lines, headings apart. *)
Definition close_block (cur : list utext) : list (list utext) := match cur with [] => [] | _ => [cur] end.

Fixpoint blocks (cur lines : list utext) : list (list utext) :=
  match lines with
  | [] => close_block cur
  | ln :: ls =>
      if u_blank ln then close_block cur ++ blocks [] ls
      else match heading_of ln with
           | Some _ => close_block cur ++ [[ln]] ++ blocks [] ls
           | None => blocks (cur ++ [ln]) ls
           end
  end.

Definition render (b : list utext) : list utext := match b with [] => [] | b0 :: _ => render_block b b0 ++ [[]] end.

Lemma flush_render out block : flush (out, block) = (out ++ (b ← close_block block; render b), []).
Proof. destruct block as [|b0 bs]; csimpl; [by rewrite app_nil_r|]. by rewrite app_nil_r. Qed.

Lemma render_prose_blocks lines : _render_prose lines = b ← blocks [] lines; render b.
Proof.
  unfold _render_prose. assert (Hg : ∀ out cur,
    (flush (foldl prose_line (out, cur) lines)).1 = out ++ (b ← blocks cur lines; render b)); [|by rewrite Hg].
  induction lines as [|ln ls IH]; intros out cur; cbn [foldl blocks]; [by rewrite flush_render|].
  unfold prose_line at 2. destruct (u_blank ln); [by rewrite flush_render, IH, bind_app, (assoc_L (++))|].
  destruct (heading_of ln); [|apply IH]. rewrite !flush_render, IH. cbn [app].
  change ([ln] :: blocks [] ls) with (close_block [ln] ++ blocks [] ls). by rewrite !bind_app, !(assoc_L (++)).
Qed.

(** What a block says, apart from white space. *)
Definition heading_ink (h : caps) : utext :=
  let text := _strip_inline (re_sub _HEADING_ATTR (λ _, []) (got 2 h)) in
  ink text ++ match _UNDERLINE (length (got 1 h)) with Some c => replicate (length text) c | None => [] end.

Definition block_ink (block : list utext) (b0 : utext) : utext :=
  match heading_of b0, block with
  | Some h, [_] => heading_ink h
  | _, _ =>
      if _is_table block then ln ← block; ink (_strip_inline ln)
      else if _is_list block then ln ← block; ink (_strip_inline (u_rstrip ln))
      else if u_startswith (u ">") (u_lstrip b0) then
        ln ← block; ink (_strip_inline (u_rstrip (u_lstrip_in (among (u "> ")) ln)))
      else ink (_strip_inline (ujoin (u " ") (u_strip <$> block)))
  end.

Lemma ink_wrap_or_itself text n : ink (concat (or_itself (wrap text WRAP (replicate n 32%N)) text)) = ink text.
Proof.
  unfold or_itself. destruct (wrap text WRAP _) as [|l ls] eqn:E; [simpl; by rewrite app_nil_r|].
  rewrite <- E. apply wrap_ink; [by vm_compute; lia|]. apply ink_spaces.
Qed.

Lemma ink_concat_bind {A} (f : A → list utext) (l : list A) : ink (concat (l ≫= f)) = x ← l; ink (concat (f x)).
Proof. induction l as [|x l IH]; csimpl; [done|]. by rewrite concat_app, ink_app, IH. Qed.

Lemma ink_concat_fmap {A} (f : A → utext) (l : list A) : ink (concat (f <$> l)) = x ← l; ink (f x).
Proof. induction l as [|x l IH]; csimpl; [done|]. by rewrite ink_app, IH. Qed.

Lemma ink_underline level c n : _UNDERLINE level = Some c → ink (replicate n c) = replicate n c.
Proof.
  intros H. assert (u_space c = false) as Hc by (destruct level as [|[|[|[|]]]]; simplify_eq/=; done).
  induction n; simpl; [done|]. rewrite Hc. simpl. by f_equal.
Qed.

Lemma heading_ink_ok h : ink (concat (render_heading h)) = heading_ink h.
Proof.
  unfold render_heading, heading_ink. cbn [concat]. rewrite ink_app. f_equal.
  destruct (_UNDERLINE _) eqn:E; simpl; [|done]. rewrite app_nil_r. by eapply ink_underline.
Qed.

Lemma block_ink_ok block b0 : ink (concat (render_block block b0)) = block_ink block b0.
Proof.
  unfold render_block, block_ink.
  assert (Hrest : ink (concat (if _is_table block then _strip_inline <$> block
      else if _is_list block then ln ← block; render_item ln
      else if u_startswith (u ">") (u_lstrip b0) then render_quote <$> block else render_paragraph block)) =
    if _is_table block then ln ← block; ink (_strip_inline ln)
    else if _is_list block then ln ← block; ink (_strip_inline (u_rstrip ln))
    else if u_startswith (u ">") (u_lstrip b0) then
      ln ← block; ink (_strip_inline (u_rstrip (u_lstrip_in (among (u "> ")) ln)))
    else ink (_strip_inline (ujoin (u " ") (u_strip <$> block)))).
  { destruct (_is_table block); [apply ink_concat_fmap|]. destruct (_is_list block).
    - rewrite ink_concat_bind. apply list_bind_ext; [|done]. intros ln. apply ink_wrap_or_itself.
    - destruct (u_startswith _ _); [rewrite ink_concat_fmap; by apply list_bind_ext|]. apply (ink_wrap_or_itself _ 0). }
  destruct (heading_of b0) as [h|]; [|exact Hrest]. destruct block as [|x [|y b]]; [exact Hrest| |exact Hrest].
  apply heading_ink_ok.
Qed.

Definition region_ink (r : region) : utext :=
  match r with
  | Code ls => ink (concat ls)
  | Prose ls => b ← blocks [] ls; match b with [] => [] | b0 :: _ => block_ink b b0 end
  end.

Lemma region_ink_ok r : ink (concat (render_region r)) = region_ink r.
Proof.
  destruct r as [ls|ls]; cbn [render_region region_ink].
  - rewrite !concat_app, !ink_app. cbn [concat app]. change (ink []) with (@nil N). rewrite app_nil_r. cbn [app].
    rewrite ink_concat_fmap, ink_concat. induction ls as [|l ls IH]; [done|]. exact (f_equal (app (ink l)) IH).
  - rewrite render_prose_blocks, ink_concat_bind. apply list_bind_ext; [|done]. intros [|b0 b]; [done|].
    unfold render. rewrite concat_app, ink_app. simpl. rewrite app_nil_r. apply block_ink_ok.
Qed.

(** *** Blank lines *)

(** No blank line follows another. *)
Definition no_double_blank (lines : list utext) : Prop :=
  ∀ i l l', lines !! i = Some l → lines !! S i = Some l' → ¬ (u_blank l = true ∧ u_blank l' = true).

Lemma no_double_blank_snoc lines x :
  no_double_blank lines → (∀ l, last lines = Some l → ¬ (u_blank l = true ∧ u_blank x = true)) →
  no_double_blank (lines ++ [x]).
Proof.
  intros H Hx i l l' Hl Hl'. apply lookup_snoc_Some in Hl' as [[Hi Hl']|[Hi ->]].
  - rewrite lookup_app_l in Hl by lia. by eapply H.
  - rewrite lookup_app_l in Hl by lia. apply Hx. rewrite last_lookup, <- Hi. done.
Qed.

Lemma rstrip_rstrip t : u_rstrip (u_rstrip t) = u_rstrip t.
Proof.
  induction t as [|c t IH]; simpl; [done|]. destruct (u_rstrip t) as [|d r] eqn:E.
  - destruct (u_space c) eqn:Ec; simpl; [done|]. by rewrite Ec.
  - cbn [u_rstrip_in] in *. by rewrite IH.
Qed.

Record collapsed (out text : list utext) (blanks : nat) : Prop := {
  col_ink : ink (concat text) = ink (concat out);
  col_tidy : Forall (λ l, u_rstrip l = l) text;
  col_single : no_double_blank text;
  col_last : blanks = 0%nat → ∀ l, last text = Some l → u_blank l = false
}.

Lemma collapse_spec out : let '(text, blanks) := foldl collapse_line ([], 0%nat) out in collapsed out text blanks.
Proof.
  induction out as [|ln out IH] using rev_ind; [by split; try constructor|].
  rewrite foldl_snoc. destruct (foldl _ _ out) as [text blanks]. destruct IH as [Hi Ht Hs Hl]. unfold collapse_line.
  destruct (u_blank ln) eqn:Eb.
  - pose proof (proj1 (blank_ink ln) Eb) as En. destruct blanks as [|k]; simpl; split; try done.
    + rewrite !concat_app, !ink_app, Hi. simpl. by rewrite !app_nil_r, En, app_nil_r.
    + apply Forall_app. split; [done|]. by constructor.
    + apply no_double_blank_snoc; [done|]. intros l El [E1 _]. by rewrite (Hl eq_refl l El) in E1.
    + rewrite concat_app, ink_app, Hi. simpl. by rewrite !app_nil_r, En, app_nil_r.
  - assert (u_blank (u_rstrip ln) = false) as Er.
    { apply not_true_iff_false. rewrite blank_ink, ink_rstrip, <- blank_ink. congruence. }
    split.
    + rewrite !concat_app, !ink_app, Hi. simpl. by rewrite !app_nil_r, ink_rstrip.
    + apply Forall_app. split; [done|]. constructor; [apply rstrip_rstrip|constructor].
    + apply no_double_blank_snoc; [done|]. intros l _ [_ E2]. congruence.
    + intros _ l. rewrite last_snoc. by intros [= <-].
Qed.

Lemma ink_ujoin sep ls : ink sep = [] → ink (ujoin sep ls) = ink (concat ls).
Proof.
  intros Hs. induction ls as [|l ls IH]; [done|]. destruct ls as [|l' ls]; [simpl; by rewrite app_nil_r|].
  change (ujoin sep (l :: l' :: ls)) with (l ++ sep ++ ujoin sep (l' :: ls)). rewrite !ink_app, IH, Hs. simpl. by rewrite !ink_app.
Qed.

(** *** Width *)

(** A line of a paragraph, and of a list item that is not deeply indented, is at most [WRAP]
    characters wide or blank. *)
Lemma or_itself_width text n : (n < WRAP)%nat →
  Forall (λ l, (length l <= WRAP)%nat ∨ u_blank l = true) (or_itself (wrap text WRAP (replicate n 32%N)) text).
Proof.
  intros Hn. unfold or_itself. destruct (wrap text WRAP _) as [|l ls] eqn:E.
  - constructor; [|constructor]. right. apply blank_ink.
    rewrite <- (wrap_ink text WRAP (replicate n 32%N)), E; [done|unfold WRAP; lia|apply ink_spaces].
  - rewrite <- E. eapply Forall_impl; [apply wrap_width; unfold WRAP; lia|]. intros x Hx. simpl in Hx.
    rewrite length_replicate in Hx. left. unfold WRAP in *. lia.
Qed.

Lemma paragraph_width block :
  Forall (λ l, (length l <= WRAP)%nat ∨ u_blank l = true) (render_paragraph block).
Proof. apply (or_itself_width _ 0). unfold WRAP. lia. Qed.

Lemma item_width ln : (length ln - length (u_lstrip ln) + 2 < WRAP)%nat →
  Forall (λ l, (length l <= WRAP)%nat ∨ u_blank l = true) (render_item ln).
Proof. apply or_itself_width. Qed.

End text.

(** ** Two things the text edition gets wrong *)

(** A list is only recognised when every line starts an item: an item that goes on in a
    second line turns the whole list into one paragraph. *)
Lemma continued_list_flattened :
  @md_to_text ascii_db (ujoin newline (u <$> ["- one item"; "  continued"; "- another"])) = u "- one item continued - another" ++ newline.
Proof. vm_compute. reflexivity. Qed.

(** Folding comes after wrapping and makes lines longer than the wrap column. *)
Lemma folded_line_too_wide :
  let para := replicate 50 97%N ++ u " " ++ em_dash ++ u " " ++ replicate 35 98%N in
  length <$> u_splitlines (@md_to_text ascii_db para) = [89%nat].
Proof. vm_compute. reflexivity. Qed.

(** ** The generated table *)

Lemma res_map_ok {E A B} (f : A → res E B) (g : A → B) l : (∀ x, x ∈ l → f x = Ok (g x)) → res_map f l = Ok (g <$> l).
Proof.
  induction l as [|x l IH]; intros H; [done|]. csimpl. rewrite (H x) by left. simpl.
  rewrite IH; [done|]. intros y Hy. apply H. by right.
Qed.

(** Every status has a meaning, so the assertion of the build never fails. *)
Lemma gen_status_total : ∃ table, gen_status = Ok table.
Proof. eexists. vm_compute. reflexivity. Qed.

(** ** The site *)

Section site_spec.
Context (help_text : utext) (convert : utext → utext * utext).

Lemma inject_total t : ∃ t', inject_generated help_text t = Ok t'.
Proof. unfold inject_generated. destruct gen_status_total as [table ->]. by eexists. Qed.

(** The neighbours of a chapter. *)
Definition prev_of (chapters : list Chapter) (i : nat) : option Chapter := match i with O => None | S j => chapters !! j end.
Definition next_of (chapters : list Chapter) (i : nat) : option Chapter := chapters !! S i.

(** The page of a chapter holds the text the Markdown library makes of it between links to
    the chapters before and after it. *)
Definition shows_chapter (chapters : list Chapter) (i : nat) (ch : Chapter) (page : utext) : Prop :=
  ∃ md, inject_generated help_text (ch_text ch) = Ok md ∧
    let out := convert (_rewrite_links md (slug <$> chapters)) in
    page = _page chapters i ch out.1 (toc_inner out.2) (prev_of chapters i) (next_of chapters i).

Lemma chapter_page_shows chapters i ch :
  (i < length chapters)%nat →
  ∃ page, chapter_page help_text convert chapters i ch = Ok page ∧ shows_chapter chapters i ch page.
Proof.
  intros Hi. unfold chapter_page, shows_chapter. destruct (inject_total (ch_text ch)) as [md ->]. simpl.
  destruct (convert _) as [body toc] eqn:E. eexists. split; [done|]. exists md. rewrite E. split; [done|]. simpl.
  f_equal; [by destruct i|]. unfold next_of. destruct (Nat.ltb_spec i (length chapters - 1)); [done|].
  symmetry. apply lookup_ge_None. lia.
Qed.

Lemma write_pages_spec chapters i rest s :
  drop i chapters = rest → NoDup (html_name <$> rest) →
  ∃ s', write_pages help_text convert chapters i rest s = Ok s' ∧
    (∀ j ch, rest !! j = Some ch → ∃ page, s' !! html_name ch = Some (Html page) ∧ shows_chapter chapters (i + j) ch page) ∧
    (∀ name, name ∉ html_name <$> rest → s' !! name = s !! name).
Proof.
  revert i s. induction rest as [|ch rest IH]; intros i s Hd Hn; cbn [write_pages].
  - exists s. split; [done|]. split; [|done]. intros j ch Hj. by rewrite lookup_nil in Hj.
  - assert (i < length chapters)%nat as Hi.
    { apply Nat.nle_gt. intros ?. by rewrite drop_ge in Hd. }
    destruct (chapter_page_shows chapters i ch Hi) as (page & -> & Hp). cbn [res_bind].
    csimpl in Hn. apply NoDup_cons in Hn as [Hch Hn].
    destruct (IH (S i) (<[html_name ch := Html page]> s)) as (s' & -> & Hpages & Hother); [|done|].
    { rewrite <- Nat.add_1_r, <- drop_drop, Hd. done. }
    exists s'. split; [done|]. split.
    + intros [|j] c Hj; simplify_eq/=.
      * exists page. rewrite Nat.add_0_r. split; [|done]. rewrite Hother by done. apply lookup_insert_eq.
      * rewrite <- Nat.add_succ_comm. by apply Hpages.
    + intros name Hname. csimpl in Hname. apply not_elem_of_cons in Hname as [Hne Hname]. rewrite Hother by done. by apply lookup_insert_ne.
Qed.

Definition index_name : utext := u "index.html".

(** What a build leaves on the site [s]. *)
Record built (logo : option (list N)) (chapters : list Chapter) (s s' : site) : Prop := {
  built_pages i ch : chapters !! i = Some ch → html_name ch ≠ index_name →
    ∃ page, s' !! html_name ch = Some (Html page) ∧ shows_chapter chapters i ch page;
  built_index : ∃ ch page, chapters !! 0%nat = Some ch ∧ s' !! index_name = Some (Html page) ∧ shows_chapter chapters 0 ch page;
  built_others name : name ∉ html_name <$> chapters → name ≠ index_name → name ≠ LOGO_NAME → s' !! name = s !! name
}.

Lemma build_html_built logo chapters s :
  chapters ≠ [] → NoDup (html_name <$> chapters) →
  ∃ s', build_html help_text convert logo chapters s = Ok s' ∧ built logo chapters s s'.
Proof.
  intros Hne Hn. unfold build_html. set (s0 := match logo with Some bytes => _ | None => s end).
  assert (∀ name, name ≠ LOGO_NAME → s0 !! name = s !! name) as Hs0.
  { intros name Hname. subst s0. destruct logo; [|done]. by rewrite lookup_insert_ne. }
  destruct (write_pages_spec chapters 0 chapters s0 (drop_0 _) Hn) as (s1 & -> & Hp & Ho). cbn [res_bind].
  destruct chapters as [|c0 cs]; [done|]. destruct (Hp 0%nat c0 eq_refl) as (page0 & Hpage0 & Hshow0). rewrite Hpage0.
  eexists. split; [done|]. split.
  - intros i ch Hi Hch. destruct (Hp i ch Hi) as (page & Hpage & Hshow). exists page. split; [|done].
    by rewrite lookup_insert_ne.
  - exists c0, page0. split_and!; [done| |done]. apply lookup_insert_eq.
  - intros name Hname Hi Hl. rewrite lookup_insert_ne by done. rewrite Ho by done. by apply Hs0.
Qed.

End site_spec.

(** *** Names *)

Lemma startswith_app p t : u_startswith p (p ++ t) = true.
Proof. induction p as [|c p IH]; simpl; [done|]. by rewrite N.eqb_refl. Qed.

Lemma startswith_split p t : u_startswith p t = true → ∃ r, t = p ++ r.
Proof.
  revert t. induction p as [|c p IH]; intros [|d t]; simpl; try naive_solver.
  intros [->%N.eqb_eq (r & ->)%IH]%andb_true_iff. by exists r.
Qed.

Lemma endswith_app p t : u_endswith p (t ++ p) = true.
Proof. unfold u_endswith. rewrite rev_app_distr. apply startswith_app. Qed.

Lemma endswith_split p t : u_endswith p t = true → ∃ r, t = r ++ p.
Proof.
  intros (r & E)%startswith_split. exists (rev r). apply (f_equal (@rev N)) in E.
  by rewrite rev_involutive, rev_app_distr, rev_involutive in E.
Qed.

Lemma stem_app p : p ≠ [] → stem (p ++ u ".md") = p.
Proof.
  intros Hp. unfold stem. rewrite length_app. change (length (u ".md")) with 3%nat.
  destruct (Nat.ltb_spec 3 (length p + 3)); [by rewrite Nat.add_sub, take_app_length|].
  destruct p; simpl in *; [done|lia].
Qed.

Lemma stem_inj m n : u_endswith (u ".md") m = true → u_endswith (u ".md") n = true →
  m ≠ u ".md" → n ≠ u ".md" → stem m = stem n → m = n.
Proof.
  intros (p & ->)%endswith_split (q & ->)%endswith_split Hp Hq.
  assert (p ≠ []) as Hp' by (by intros ->). assert (q ≠ []) as Hq' by (by intros ->).
  rewrite !stem_app by done. by intros ->.
Qed.

Definition chapter_of (x : utext * option utext) : Chapter := mk_chapter x.1 (default [] x.2).

Lemma filter_names (p : utext * option utext → bool) (l : directory) :
  NoDup l.*1 → NoDup (List.filter p l).*1 ∧ (List.filter p l).*1 ⊆ l.*1.
Proof.
  induction l as [|x l IH]; csimpl; [done|]. intros [Hx Hl]%NoDup_cons. destruct (IH Hl) as [Hn Hs].
  destruct (p x); csimpl; [|set_solver]. split; [constructor; set_solver|set_solver].
Qed.

#[local] Instance name_le_total : Total name_le.
Proof.
  intros [s ?] [t ?]. unfold name_le. simpl. revert t. induction s as [|c s IH]; intros [|d t]; simpl; auto.
  destruct (N.lt_trichotomy c d) as [H|[->|H]].
  - left. by rewrite (proj2 (N.ltb_lt _ _) H).
  - rewrite N.eqb_refl, N.ltb_irrefl. apply IH.
  - right. by rewrite (proj2 (N.ltb_lt _ _) H).
Qed.

Section sources.
Context (src : directory).
Context (Hnames : NoDup src.*1) (Hplain : u ".md" ∉ src.*1).
Context (Hread : ∀ x, x ∈ src → is_md x = true → is_Some x.2) (Hsome : ∃ x, x ∈ src ∧ is_md x = true).

Definition files : directory := merge_sort name_le (List.filter is_md src).

Lemma files_perm : files ≡ₚ List.filter is_md src.
Proof. apply merge_sort_Permutation. Qed.

Lemma files_in x : x ∈ files ↔ x ∈ src ∧ is_md x = true.
Proof. rewrite files_perm, !list_elem_of_In. apply List.filter_In. Qed.

Lemma discover_files : discover src = Ok (chapter_of <$> files).
Proof.
  unfold discover. fold files. rewrite (res_map_ok _ chapter_of).
  - simpl. destruct (chapter_of <$> files) as [|ch chs] eqn:E; [|done]. exfalso.
    destruct Hsome as (x & Hx%files_in). apply fmap_nil_inv in E. rewrite E in Hx. by apply not_elem_of_nil in Hx.
  - intros [name o] Hx. pose proof (proj1 (files_in _) Hx) as [Hin Hmd]. destruct (Hread _ Hin Hmd) as [t Ht]. simpl in Ht.
    by subst o.
Qed.

Lemma files_html_nodup : NoDup (html_name <$> (chapter_of <$> files)).
Proof.
  rewrite <- list_fmap_compose.
  change (html_name ∘ chapter_of) with ((λ n, stem n ++ u ".html") ∘ fst : utext * option utext → utext).
  rewrite list_fmap_compose. apply NoDup_fmap_2_strong.
  - intros m n [[? ?] [-> Hm%files_in]]%list_elem_of_fmap [[? ?] [-> Hn%files_in]]%list_elem_of_fmap E%app_inv_tail.
    destruct Hm as [Hm Hm'], Hn as [Hn Hn']. apply stem_inj; try done; intros Hc; apply Hplain; rewrite <- Hc;
      by apply list_elem_of_fmap_2.
  - rewrite files_perm. apply filter_names, Hnames.
Qed.
End sources.

(** *** Pages and text *)

Section pages.
Context (help_text : utext) (convert : utext → utext * utext).

Lemma html_name_ends x : u_endswith (u ".html") (html_name (chapter_of x)) = true.
Proof. apply endswith_app. Qed.

Lemma html_pages_enough (s : site) (names : list utext) :
  NoDup names → (∀ n, n ∈ names → is_Some (s !! n) ∧ u_endswith (u ".html") n = true) →
  (length names <= html_pages s)%nat.
Proof.
  intros Hn H. unfold html_pages. rewrite <- (length_fmap fst (List.filter _ _)).
  apply submseteq_length, NoDup_submseteq; [done|]. intros n Hin. destruct (H n Hin) as [[f Hf] He].
  apply list_elem_of_fmap. exists (n, f). split; [done|]. apply list_elem_of_In, List.filter_In. split; [|done].
  by apply list_elem_of_In, elem_of_map_to_list.
Qed.

Lemma built_has_pages logo chapters s s' n : built help_text convert logo chapters s s' → n ∈ html_name <$> chapters → is_Some (s' !! n).
Proof.
  intros H (ch & -> & Hch)%list_elem_of_fmap. apply list_elem_of_lookup in Hch as [i Hi].
  destruct (decide (html_name ch = index_name)) as [->|Hne].
  - destruct (built_index _ _ _ _ _ _ H) as (? & page & _ & -> & _). by eexists.
  - destruct (built_pages _ _ _ _ _ _ H i ch Hi Hne) as (page & -> & _). by eexists.
Qed.

Lemma rstrip_cons c t : u_space c = false → ∃ r, u_rstrip (c :: t) = c :: r.
Proof. intros Hc. simpl. destruct (u_rstrip t); rewrite ?Hc; eauto. Qed.

Lemma build_txt_total {db : UnicodeDb} chapters : ∃ txt, build_txt help_text chapters = Ok txt ∧ u_blank txt = false.
Proof.
  unfold build_txt.
  assert (∃ texts, res_map (chapter_text help_text) chapters = Ok texts) as [texts ->].
  { induction chapters as [|ch chs [ts IH]]; [by exists []|]. cbn [res_map]. rewrite IH.
    unfold chapter_text at 1. destruct (inject_total help_text (ch_text ch)) as [md ->]. by eexists. }
  cbn [res_bind]. eexists. split; [done|].
  assert (∀ r, ∃ r', ujoin newline (txt_head ++ r) = 80%N :: r') as Hhead by (intros r; by eexists).
  edestruct Hhead as [r' ->]. destruct (rstrip_cons 80%N r' eq_refl) as [r ->].
  rewrite ascii_fold_app. change (80%N :: r) with ([80%N] ++ r). rewrite ascii_fold_app, (ascii_fold_id [80%N]).
  - apply not_true_iff_false. rewrite blank_ink. rewrite !ink_app. by vm_compute.
  - by repeat constructor.
Qed.
End pages.


(** Two chapters and a file of another kind. *)
Definition demo_src : directory :=
  [(u "02-two.md", Some (u "# Two")); (u "notes.txt", None); (u "01-one.md", Some (u "# One"))].

